(** * SmolDB: storage engine, index manager and collection coordinator

    A shallow embedding of the TypeScript sources ([src/utils.ts],
    [src/constants.ts], [src/storage.ts], [src/index-manager.ts],
    [src/collection.ts]) together with the properties of the specification
    that are checked against it.

    Conventions of the embedding.
    - JavaScript numbers that hold sizes, offsets and counters are [Z].
      The 32-bit bitwise operators are written with their conversions
      ([ToInt32], [ToUint32]) spelled out.
    - A [Uint8Array] and the contents of a file are [list byte].
    - A JavaScript [Map] or [Set] keeps insertion order, so it is an
      association list (resp. a list) with the operations of the source.
    - [async] code runs to completion between two operations (the write
      lock serialises mutations), so every method is a function of the
      state; an exception leaves the state as it was when it was thrown. *)

From Stdlib Require Import ZArith List Bool Lia String Ascii PrimFloat DecimalString.
From Stdlib.Strings Require Import Byte.
Import ListNotations.
Local Open Scope Z_scope.
Set Warnings "-register-all".

(* ================================================================== *)
(** ** JavaScript 32-bit integer operators *)

Module JS.

Definition ToInt32 (z : Z) : Z := (z + 2 ^ 31) mod 2 ^ 32 - 2 ^ 31.
Definition ToUint32 (z : Z) : Z := z mod 2 ^ 32.

(** [a ^ b], [a & b], [a | b], [~a]: operands go through [ToInt32], the
    result is a signed 32-bit integer. *)
Definition xor (a b : Z) : Z := Z.lxor (ToInt32 a) (ToInt32 b).
Definition and (a b : Z) : Z := Z.land (ToInt32 a) (ToInt32 b).
Definition or (a b : Z) : Z := Z.lor (ToInt32 a) (ToInt32 b).
Definition not (a : Z) : Z := Z.lnot (ToInt32 a).

(** [a >>> n]: the operand goes through [ToUint32], the shift count is
    taken modulo 32, the result is unsigned. *)
Definition ushr (a n : Z) : Z := Z.shiftr (ToUint32 a) (n mod 32).

(** [a << n]. *)
Definition shl (a n : Z) : Z := ToInt32 (Z.shiftl (ToInt32 a) (n mod 32)).

(** Truthiness of a number used as a condition. *)
Definition truthy (a : Z) : bool := negb (a =? 0).

End JS.

(* ================================================================== *)
(** ** Bytes and typed arrays *)

Definition Z_of_byte (b : byte) : Z := Z.of_N (Byte.to_N b).

Definition byte_of_Z (z : Z) : byte :=
  match Byte.of_N (Z.to_N (z mod 256)) with
  | Some b => b
  | None => x00
  end.

Definition Uint8Array := list byte.

(** [new Uint8Array(n)]: [n] zero bytes. *)
Definition new_Uint8Array (n : Z) : Uint8Array := repeat x00 (Z.to_nat n).

Definition len (b : Uint8Array) : Z := Z.of_nat (List.length b).

(** [buffer.set(data, offset)] for a range that lies inside the buffer:
    the bytes at [offset .. offset + data.length) are replaced. *)
Definition buf_set (buffer : Uint8Array) (offset : Z) (data : Uint8Array) : Uint8Array :=
  firstn (Z.to_nat offset) buffer ++ data
    ++ skipn (Z.to_nat offset + List.length data) buffer.

(** [bytes.slice(start, end)]. *)
Definition slice (b : Uint8Array) (start stop : Z) : Uint8Array :=
  firstn (Z.to_nat stop - Z.to_nat start) (skipn (Z.to_nat start) b).

(** Little-endian bytes of the low [n] bytes of [v], and back. *)
Fixpoint le_bytes (n : nat) (v : Z) : list byte :=
  match n with
  | O => []
  | S n' => byte_of_Z v :: le_bytes n' (Z.shiftr v 8)
  end.

Fixpoint le_value (bs : list byte) : Z :=
  match bs with
  | [] => 0
  | b :: bs' => Z_of_byte b + 256 * le_value bs'
  end.

(** [writeUint32(buffer, offset, value)]: [DataView.setUint32] stores
    [ToUint32 value], little-endian. *)
Definition writeUint32 (buffer : Uint8Array) (offset value : Z) : Uint8Array :=
  buf_set buffer offset (le_bytes 4 (JS.ToUint32 value)).

Definition readUint32 (buffer : Uint8Array) (offset : Z) : Z :=
  le_value (slice buffer offset (offset + 4)).

(** [writeUint64]: [setBigUint64(BigInt(value))] keeps the low 64 bits. *)
Definition writeUint64 (buffer : Uint8Array) (offset value : Z) : Uint8Array :=
  buf_set buffer offset (le_bytes 8 (value mod 2 ^ 64)).

Definition readUint64 (buffer : Uint8Array) (offset : Z) : Z :=
  le_value (slice buffer offset (offset + 8)).

(* ================================================================== *)
(** ** CRC-32 ([utils.ts]) *)

(** One entry of the lookup table, as the initialisation loop computes it. *)
Fixpoint crc_table_loop (j : nat) (crc : Z) : Z :=
  match j with
  | O => crc
  | S j' =>
      crc_table_loop j'
        (if JS.truthy (JS.and crc 1)
         then JS.xor (JS.ushr crc 1) 0xedb88320
         else JS.ushr crc 1)
  end.

Definition crc_table_entry (i : Z) : Z := JS.ushr (crc_table_loop 8 i) 0.

Definition CRC32_TABLE : list Z :=
  Eval vm_compute in map (fun i => crc_table_entry (Z.of_nat i)) (seq 0 256).

Definition table_at (i : Z) : Z := nth (Z.to_nat i) CRC32_TABLE 0.

Definition crc32_step (crc : Z) (b : byte) : Z :=
  JS.xor (table_at (JS.and (JS.xor crc (Z_of_byte b)) 0xff)) (JS.ushr crc 8).

Definition crc32 (data : Uint8Array) : Z :=
  JS.ushr (JS.xor (fold_left crc32_step data 0xffffffff) 0xffffffff) 0.

(** [encodeString]: strings are kept as their UTF-8 bytes. *)
Definition encodeString (s : string) : Uint8Array := list_byte_of_string s.
Definition decodeString (b : Uint8Array) : string := string_of_list_byte b.

(* ================================================================== *)
(** ** Insertion-ordered [Map] and [Set] with string keys *)

Section JSMap.
Context {V : Type}.

Definition JSMap := list (string * V).

Fixpoint Map_get (m : JSMap) (k : string) : option V :=
  match m with
  | [] => None
  | (k', v) :: m' => if String.eqb k' k then Some v else Map_get m' k
  end.

Definition Map_has (m : JSMap) (k : string) : bool :=
  match Map_get m k with Some _ => true | None => false end.

(** [m.set(k, v)]: an existing key keeps its position, a new key goes last. *)
Fixpoint Map_set (m : JSMap) (k : string) (v : V) : JSMap :=
  match m with
  | [] => [(k, v)]
  | (k', v') :: m' =>
      if String.eqb k' k then (k', v) :: m' else (k', v') :: Map_set m' k v
  end.

Fixpoint Map_delete (m : JSMap) (k : string) : JSMap :=
  match m with
  | [] => []
  | (k', v') :: m' =>
      if String.eqb k' k then m' else (k', v') :: Map_delete m' k
  end.

Definition Map_keys (m : JSMap) : list string := map fst m.
Definition Map_size (m : JSMap) : Z := Z.of_nat (List.length m).
End JSMap.
Arguments JSMap V : clear implicits.

Definition JSSet := list string.

Definition Set_has (s : JSSet) (x : string) : bool :=
  existsb (String.eqb x) s.

Definition Set_add (s : JSSet) (x : string) : JSSet :=
  if Set_has s x then s else s ++ [x].

Definition Set_delete (s : JSSet) (x : string) : JSSet :=
  filter (fun y => negb (String.eqb x y)) s.

Definition Set_size (s : JSSet) : Z := Z.of_nat (List.length s).

(* ================================================================== *)
(** ** JavaScript values, [JSON.stringify], index-key serialization and
       filter matching ([utils.ts]) *)

(** Plain data: the values a document or a filter is made of.  An object
    is the list of its own enumerable properties in enumeration order
    (keys are distinct); prototypes are not modelled. *)
Inductive value : Type :=
| VNull
| VUndefined
| VBool (b : bool)
| VNum (n : float)
| VStr (s : string)
| VArr (items : list value)
| VObj (props : list (string * value)).

Definition Document := value.
Definition QueryFilter := list (string * value).

Inductive jstype := TUndefined | TBoolean | TNumber | TString | TObject.

Definition typeof (v : value) : jstype :=
  match v with
  | VNull => TObject
  | VUndefined => TUndefined
  | VBool _ => TBoolean
  | VNum _ => TNumber
  | VStr _ => TString
  | VArr _ => TObject
  | VObj _ => TObject
  end.

Definition jstype_eqb (a b : jstype) : bool :=
  match a, b with
  | TUndefined, TUndefined | TBoolean, TBoolean | TNumber, TNumber
  | TString, TString | TObject, TObject => true
  | _, _ => false
  end.

(** [a === b].  Two arrays or objects are strictly equal only when they are
    the same reference; the two arguments of a comparison (a stored value
    and a filter value) are distinct objects here. *)
Definition strict_equal (a b : value) : bool :=
  match a, b with
  | VNull, VNull => true
  | VUndefined, VUndefined => true
  | VBool x, VBool y => Bool.eqb x y
  | VNum x, VNum y => PrimFloat.eqb x y
  | VStr x, VStr y => String.eqb x y
  | _, _ => false
  end.

Definition is_null (v : value) : bool :=
  match v with VNull => true | _ => false end.

Definition isArray (v : value) : bool :=
  match v with VArr _ => true | _ => false end.

Fixpoint deepEqual (a b : value) {struct a} : bool :=
  if strict_equal a b then true
  else if is_null a || is_null b then false
  else if negb (jstype_eqb (typeof a) (typeof b)) then false
  else
    match a with
    | VArr xs =>
        match b with
        | VArr ys =>
            if negb (Nat.eqb (List.length xs) (List.length ys)) then false
            else
              (fix each (xs ys : list value) {struct xs} : bool :=
                 match xs, ys with
                 | x :: xs', y :: ys' =>
                     if deepEqual x y then each xs' ys' else false
                 | _, _ => true
                 end) xs ys
        | _ => false
        end
    | VObj ps =>
        match b with
        | VObj qs =>
            if negb (Nat.eqb (List.length ps) (List.length qs)) then false
            else
              (fix each (ps : list (string * value)) {struct ps} : bool :=
                 match ps with
                 | [] => true
                 | (key, va) :: ps' =>
                     match Map_get qs key with
                     | None => false
                     | Some vb => if deepEqual va vb then each ps' else false
                     end
                 end) ps
        | _ => false
        end
    | _ => false
    end.

(** What the embedding takes from the JavaScript runtime: number
    formatting, and [JSON.parse] (after [decodeString]) at the two types it
    is used at.  [None] is a thrown [SyntaxError]. *)
Record BlobReference := {
  ref_path : string;
  ref_size : Z;
  ref_checksum : Z;
}.

Class Runtime := {
  toExponential15 : float -> string;
  Number_toString : float -> string;
  JSON_parse : Uint8Array -> option Document;
  JSON_stringify_ref : BlobReference -> string;
  JSON_parse_ref : Uint8Array -> option BlobReference;
}.

Definition hex_digit (n : Z) : ascii :=
  ascii_of_N (Z.to_N (if n <? 10 then 48 + n else 87 + n)).

Definition dquote : ascii := ascii_of_nat 34.

(** [QuoteJSONString]. *)
Definition quote_char (c : ascii) : string :=
  let n := Z.of_N (N_of_ascii c) in
  if n =? 34 then String "\" (String dquote EmptyString)
  else if n =? 92 then "\\"
  else if n =? 8 then "\b"
  else if n =? 9 then "\t"
  else if n =? 10 then "\n"
  else if n =? 12 then "\f"
  else if n =? 13 then "\r"
  else if n <? 32 then
    String "\" (String "u" (String "0" (String "0"
      (String (hex_digit (n / 16)) (String (hex_digit (n mod 16)) EmptyString)))))
  else String c EmptyString.

Fixpoint quote_body (s : string) : string :=
  match s with
  | EmptyString => EmptyString
  | String c s' => (quote_char c ++ quote_body s')%string
  end.

Definition Quote (s : string) : string :=
  String dquote (quote_body s ++ String dquote EmptyString)%string.

Fixpoint join (sep : string) (parts : list string) : string :=
  match parts with
  | [] => EmptyString
  | [p] => p
  | p :: rest => (p ++ sep ++ join sep rest)%string
  end.

Section Values.
Context {rt : Runtime}.

(** [SerializeJSONProperty]: [None] is [undefined]. *)
Fixpoint stringify (v : value) : option string :=
  match v with
  | VNull => Some "null"%string
  | VUndefined => None
  | VBool b => Some (if b then "true" else "false")%string
  | VNum n => Some (if is_finite n then Number_toString n else "null")%string
  | VStr s => Some (Quote s)
  | VArr items =>
      Some ("[" ++ join ","
              (map (fun x => match stringify x with
                             | Some s => s
                             | None => "null"%string
                             end) items) ++ "]")%string
  | VObj props =>
      Some ("{" ++ join ","
              ((fix members (ps : list (string * value)) : list string :=
                  match ps with
                  | [] => []
                  | (k, x) :: ps' =>
                      match stringify x with
                      | Some s => (Quote k ++ ":" ++ s)%string :: members ps'
                      | None => members ps'
                      end
                  end) props) ++ "}")%string
  end.

(** [JSON.stringify(v)] inside a template literal or given to
    [encodeString]. *)
Definition JSON_stringify (v : value) : string :=
  match stringify v with
  | Some s => s
  | None => "undefined"%string
  end.

Definition tag (n : nat) (s : string) : string := String (ascii_of_nat n) s.

Definition serializeIndexValue (v : value) : string :=
  match v with
  | VNull => tag 0 "null"
  | VUndefined => tag 0 "undefined"
  | VBool b => tag 1 (if b then "1" else "0")
  | VNum n =>
      if is_nan n then tag 2 "nan"
      else if negb (is_finite n)
      then (if PrimFloat.ltb zero n then tag 2 "+inf" else tag 2 "-inf")
      else
        let sign := (if PrimFloat.leb zero n then "+" else "-")%string in
        let abs := PrimFloat.abs n in
        tag 2 (sign ++ toExponential15 abs)
  | VStr s => tag 3 s
  | _ => tag 4 (JSON_stringify v)
  end.
End Values.

(** [path.split('.')]. *)
Fixpoint split_dots (s : string) (cur : string) : list string :=
  match s with
  | EmptyString => [cur]
  | String c s' =>
      if Ascii.eqb c "."%char then cur :: split_dots s' EmptyString
      else split_dots s' (cur ++ String c EmptyString)%string
  end.

Fixpoint float_of_nat (n : nat) : float :=
  match n with
  | O => zero
  | S n' => PrimFloat.add (float_of_nat n') one
  end.

Definition decimal (n : nat) : string :=
  DecimalString.NilZero.string_of_uint (Nat.to_uint n).

Fixpoint array_element (items : list value) (part : string) (i : nat) : value :=
  match items with
  | [] => VUndefined
  | x :: rest =>
      if String.eqb part (decimal i) then x else array_element rest part (S i)
  end.

(** [current[part]] on own properties. *)
Definition property (current : value) (part : string) : value :=
  match current with
  | VObj props =>
      match Map_get props part with Some v => v | None => VUndefined end
  | VArr items =>
      if String.eqb part "length" then VNum (float_of_nat (List.length items))
      else array_element items part 0
  | _ => VUndefined
  end.

Fixpoint getNested_loop (current : value) (parts : list string) : value :=
  match parts with
  | [] => current
  | part :: rest =>
      match current with
      | VNull | VUndefined => VUndefined
      | VArr _ | VObj _ => getNested_loop (property current part) rest
      | _ => VUndefined
      end
  end.

Definition getNestedValue (obj : value) (path : string) : value :=
  getNested_loop obj (split_dots path EmptyString).

Fixpoint matchesFilter (doc : value) (filter : QueryFilter) : bool :=
  match filter with
  | [] => true
  | (key, v) :: rest =>
      if negb (deepEqual (getNestedValue doc key) v) then false
      else matchesFilter doc rest
  end.

(* ================================================================== *)
(** ** Constants and size classes ([constants.ts]) *)

Module SLAB_SIZES.
Definition TINY : Z := 1024.
Definition SMALL : Z := 8192.
Definition MEDIUM : Z := 65536.
Definition ALIGNMENT : Z := 4096.
End SLAB_SIZES.

Definition SLOT_HEADER_SIZE : Z := 16.
Definition DATA_HEADER_SIZE : Z := 64.
Definition DEFAULT_BLOB_THRESHOLD : Z := 1024 * 1024.
Definition DATA_FILE_MAGIC : Z := 0x4c4f4d53.
Definition FORMAT_VERSION : Z := 1.

(** [Math.ceil(a / b)] on non-negative integers. *)
Definition Math_ceil_div (a b : Z) : Z :=
  if a mod b =? 0 then a / b else a / b + 1.

Definition selectSlabSize (dataLength : Z) : Z :=
  let totalNeeded := dataLength + SLOT_HEADER_SIZE in
  if totalNeeded <=? SLAB_SIZES.TINY then SLAB_SIZES.TINY
  else if totalNeeded <=? SLAB_SIZES.SMALL then SLAB_SIZES.SMALL
  else if totalNeeded <=? SLAB_SIZES.MEDIUM then SLAB_SIZES.MEDIUM
  else Math_ceil_div totalNeeded SLAB_SIZES.ALIGNMENT * SLAB_SIZES.ALIGNMENT.

(* ================================================================== *)
(** ** Types ([types.ts]) and errors ([errors.ts]) *)

Record DocumentLocation := mkLocation {
  loc_offset : Z;
  loc_length : Z;
  loc_slabSize : Z;
  loc_isBlob : bool;
}.

Record SlabAllocation := mkAllocation {
  alloc_offset : Z;
  alloc_slabSize : Z;
  alloc_isReused : bool;
}.

Record FreeSlot := mkFreeSlot {
  free_offset : Z;
  free_slabSize : Z;
}.

Record DataFileHeader := mkHeader {
  magic : Z;
  version : Z;
  fileSize : Z;
  liveDataSize : Z;
  documentCount : Z;
  nextSlotOffset : Z;
}.

Module SlotFlags.
Definition ACTIVE : Z := JS.shl 1 0.
Definition BLOB : Z := JS.shl 1 1.
End SlotFlags.

Definition PrimaryIndex := JSMap DocumentLocation.
Definition SecondaryIndex := JSMap (JSMap JSSet).

Record CompactionResult := mkCompactionResult {
  res_bytesFreed : Z;
  res_documentsCompacted : Z;
  res_newFileSize : Z;
}.

Inductive corruption :=
| UnexpectedEndOfSlot
| UnexpectedEndOfSlotHeader
| SlotNotActive
| DataLengthMismatch (expected got : Z).

Inductive error :=
| CorruptedDataError (reason : corruption) (offset : Z)
| ChecksumMismatchError (expected actual : Z) (offset : option Z)
| DuplicateIdError (id : string)
| DocumentNotFoundError (id : string)
| RangeError
| SyntaxError
| FileNotFoundError (path : string).

Inductive result (A : Type) :=
| Ok (a : A)
| Err (e : error).
Arguments Ok {A} a.
Arguments Err {A} e.

(** The two failures a read reports for a damaged slot. *)
Definition integrity_error {A} (r : result A) : bool :=
  match r with
  | Err (CorruptedDataError _ _) => true
  | Err (ChecksumMismatchError _ _ _) => true
  | _ => false
  end.

(* ================================================================== *)
(** ** State and exceptions *)

Definition M (S A : Type) : Type := S -> result A * S.

Section Monad.
Context {S : Type}.

Definition ret {A} (a : A) : M S A := fun s => (Ok a, s).

Definition bind {A B} (c : M S A) (k : A -> M S B) : M S B :=
  fun s =>
    match c s with
    | (Ok a, s') => k a s'
    | (Err e, s') => (Err e, s')
    end.

Definition throw {A} (e : error) : M S A := fun s => (Err e, s).
Definition gets {A} (f : S -> A) : M S A := fun s => (Ok (f s), s).
Definition modify (f : S -> S) : M S unit := fun s => (Ok tt, f s).

(** An operation that only inspects the state. *)
Definition pure_result {A} (f : S -> result A) : M S A := fun s => (f s, s).

(** [try { body } finally { fin }]. *)
Definition try_finally {A} (body : M S A) (fin : M S unit) : M S A :=
  fun s =>
    let (r, s1) := body s in
    match fin s1 with
    | (Ok _, s2) => (r, s2)
    | (Err e, s2) => (Err e, s2)
    end.

Definition when (b : bool) (c : M S unit) : M S unit :=
  if b then c else ret tt.

(** [for (const x of xs) { results.push(await f(x)) }]. *)
Fixpoint for_each {A B} (f : A -> M S B) (xs : list A) : M S (list B) :=
  match xs with
  | [] => ret []
  | x :: xs' =>
      bind (f x) (fun y => bind (for_each f xs') (fun ys => ret (y :: ys)))
  end.
End Monad.

Notation "x <- c1 ;; c2" := (bind c1 (fun x => c2))
  (at level 61, c1 at next level, right associativity).
Notation "c1 ;; c2" := (bind c1 (fun _ => c2))
  (at level 61, right associativity).

(* ================================================================== *)
(** ** Storage engine ([storage.ts]) *)

(** The three cells of the shared buffer the engine writes. *)
Record SharedCells := mkShared {
  FILE_SIZE : Z;
  LIVE_DATA_SIZE : Z;
  DOC_COUNT : Z;
}.

(** An opened engine.  [file] is the content behind [fileHandle],
    [blobFiles] the blob directory.  [docReads] counts the calls of [read]
    and [diskWrites] the writes issued to the file system; they instrument
    the I/O paths and no method reads them. *)
Record StorageEngine := mkStorage {
  file : Uint8Array;
  header : DataFileHeader;
  freeList : list FreeSlot;
  batchDepth : Z;
  headerDirty : bool;
  sharedStateDirty : bool;
  blobThreshold : Z;
  blobFiles : JSMap Uint8Array;
  sharedView : SharedCells;
  docReads : nat;
  diskWrites : nat;
}.

Definition set_file v (s : StorageEngine) :=
  mkStorage v (header s) (freeList s) (batchDepth s) (headerDirty s)
    (sharedStateDirty s) (blobThreshold s) (blobFiles s) (sharedView s)
    (docReads s) (diskWrites s).
Definition set_header v (s : StorageEngine) :=
  mkStorage (file s) v (freeList s) (batchDepth s) (headerDirty s)
    (sharedStateDirty s) (blobThreshold s) (blobFiles s) (sharedView s)
    (docReads s) (diskWrites s).
Definition set_freeList v (s : StorageEngine) :=
  mkStorage (file s) (header s) v (batchDepth s) (headerDirty s)
    (sharedStateDirty s) (blobThreshold s) (blobFiles s) (sharedView s)
    (docReads s) (diskWrites s).
Definition set_batchDepth v (s : StorageEngine) :=
  mkStorage (file s) (header s) (freeList s) v (headerDirty s)
    (sharedStateDirty s) (blobThreshold s) (blobFiles s) (sharedView s)
    (docReads s) (diskWrites s).
Definition set_headerDirty v (s : StorageEngine) :=
  mkStorage (file s) (header s) (freeList s) (batchDepth s) v
    (sharedStateDirty s) (blobThreshold s) (blobFiles s) (sharedView s)
    (docReads s) (diskWrites s).
Definition set_sharedStateDirty v (s : StorageEngine) :=
  mkStorage (file s) (header s) (freeList s) (batchDepth s) (headerDirty s)
    v (blobThreshold s) (blobFiles s) (sharedView s)
    (docReads s) (diskWrites s).
Definition set_blobFiles v (s : StorageEngine) :=
  mkStorage (file s) (header s) (freeList s) (batchDepth s) (headerDirty s)
    (sharedStateDirty s) (blobThreshold s) v (sharedView s)
    (docReads s) (diskWrites s).
Definition set_sharedView v (s : StorageEngine) :=
  mkStorage (file s) (header s) (freeList s) (batchDepth s) (headerDirty s)
    (sharedStateDirty s) (blobThreshold s) (blobFiles s) v
    (docReads s) (diskWrites s).
Definition set_docReads v (s : StorageEngine) :=
  mkStorage (file s) (header s) (freeList s) (batchDepth s) (headerDirty s)
    (sharedStateDirty s) (blobThreshold s) (blobFiles s) (sharedView s)
    v (diskWrites s).
Definition set_diskWrites v (s : StorageEngine) :=
  mkStorage (file s) (header s) (freeList s) (batchDepth s) (headerDirty s)
    (sharedStateDirty s) (blobThreshold s) (blobFiles s) (sharedView s)
    (docReads s) v.

Definition set_fileSize v (h : DataFileHeader) :=
  mkHeader (magic h) (version h) v (liveDataSize h) (documentCount h)
    (nextSlotOffset h).
Definition set_liveDataSize v (h : DataFileHeader) :=
  mkHeader (magic h) (version h) (fileSize h) v (documentCount h)
    (nextSlotOffset h).
Definition set_documentCount v (h : DataFileHeader) :=
  mkHeader (magic h) (version h) (fileSize h) (liveDataSize h) v
    (nextSlotOffset h).
Definition set_nextSlotOffset v (h : DataFileHeader) :=
  mkHeader (magic h) (version h) (fileSize h) (liveDataSize h)
    (documentCount h) v.

(** [fileHandle.read(buf, 0, n, offset)]: the bytes that were read
    ([bytesRead] is their number). *)
Definition pread (f : Uint8Array) (offset n : Z) : Uint8Array :=
  firstn (Z.to_nat n) (skipn (Z.to_nat offset) f).

(** [fileHandle.write(data, 0, data.length, offset)]: a positional write;
    it extends the file, a gap reads as zeros. *)
Definition pwrite (f : Uint8Array) (offset : Z) (data : Uint8Array) : Uint8Array :=
  firstn (Z.to_nat offset) f
    ++ repeat x00 (Z.to_nat offset - List.length f)
    ++ data
    ++ skipn (Z.to_nat offset + List.length data) f.

(** The slot buffer that [writeSlot], [writeMany] and [compact] each build:
    a zeroed buffer of [slabSize] bytes, four header words, the payload. *)
Definition slotBuffer (flags : Z) (data : Uint8Array) (slabSize : Z) : Uint8Array :=
  let b := new_Uint8Array slabSize in
  let b := writeUint32 b 0 flags in
  let b := writeUint32 b 4 (len data) in
  let b := writeUint32 b 8 slabSize in
  let b := writeUint32 b 12 (crc32 data) in
  buf_set b SLOT_HEADER_SIZE data.

Definition slot_flags (isBlob : bool) : Z :=
  JS.or SlotFlags.ACTIVE (if isBlob then SlotFlags.BLOB else 0).

(** [readSlot] on the bytes of the data file. *)
Definition readSlot_in (f : Uint8Array) (offset length : Z) : result Uint8Array :=
  let slotBytes := pread f offset (SLOT_HEADER_SIZE + length) in
  if len slotBytes <? SLOT_HEADER_SIZE + length
  then Err (CorruptedDataError UnexpectedEndOfSlot offset)
  else
    let flags := readUint32 slotBytes 0 in
    let dataLength := readUint32 slotBytes 4 in
    let storedChecksum := readUint32 slotBytes 12 in
    if negb (JS.truthy (JS.and flags SlotFlags.ACTIVE))
    then Err (CorruptedDataError SlotNotActive offset)
    else if negb (dataLength =? length)
    then Err (CorruptedDataError (DataLengthMismatch length dataLength) offset)
    else
      let data := slice slotBytes SLOT_HEADER_SIZE (SLOT_HEADER_SIZE + length) in
      let computedChecksum := crc32 data in
      if negb (computedChecksum =? storedChecksum)
      then Err (ChecksumMismatchError storedChecksum computedChecksum (Some offset))
      else Ok data.

Definition headerBytes (h : DataFileHeader) : Uint8Array :=
  let b := new_Uint8Array DATA_HEADER_SIZE in
  let b := writeUint32 b 0 (magic h) in
  let b := writeUint32 b 4 (version h) in
  let b := writeUint64 b 8 (fileSize h) in
  let b := writeUint64 b 16 (liveDataSize h) in
  let b := writeUint64 b 24 (documentCount h) in
  writeUint64 b 32 (nextSlotOffset h).

Definition newHeader : DataFileHeader :=
  mkHeader DATA_FILE_MAGIC FORMAT_VERSION DATA_HEADER_SIZE 0 0 DATA_HEADER_SIZE.

Definition Eng : Type -> Type := M StorageEngine.

Section Storage.
Context {rt : Runtime}.

Definition encodeDocument (data : Document) : Uint8Array :=
  encodeString (JSON_stringify data).

Definition writeAtOffset (offset : Z) (data : Uint8Array) : Eng unit :=
  modify (fun s =>
    set_diskWrites (S (diskWrites s)) (set_file (pwrite (file s) offset data) s)).

Definition writeHeader : Eng unit :=
  h <- gets header ;;
  writeAtOffset 0 (headerBytes h).

(** [Atomics.store] on an [Int32Array] stores [ToInt32] of the value. *)
Definition updateSharedState : Eng unit :=
  modify (fun s =>
    set_sharedView
      (mkShared (JS.ToInt32 (fileSize (header s)))
                (JS.ToInt32 (liveDataSize (header s)))
                (JS.ToInt32 (documentCount (header s)))) s).

Definition markMetadataDirty : Eng unit :=
  modify (fun s => set_sharedStateDirty true (set_headerDirty true s)).

Definition flushMetadata : Eng unit :=
  hd <- gets headerDirty ;;
  when hd (writeHeader ;; modify (set_headerDirty false)) ;;
  sd <- gets sharedStateDirty ;;
  when sd (updateSharedState ;; modify (set_sharedStateDirty false)).

Definition flushIfNotBatching : Eng unit :=
  d <- gets batchDepth ;;
  when (d =? 0) flushMetadata.

Definition modify_header (f : DataFileHeader -> DataFileHeader) : Eng unit :=
  modify (fun s => set_header (f (header s)) s).

(** The scan of the free list in [allocateSlot]: the first entry that is
    large enough, and the list without it. *)
Fixpoint take_first_fit (requiredSize : Z) (l : list FreeSlot)
  : option (FreeSlot * list FreeSlot) :=
  match l with
  | [] => None
  | freeSlot :: rest =>
      if free_slabSize freeSlot >=? requiredSize then Some (freeSlot, rest)
      else
        match take_first_fit requiredSize rest with
        | Some (found, rest') => Some (found, freeSlot :: rest')
        | None => None
        end
  end.

Definition allocateSlot (dataLength : Z) : Eng SlabAllocation :=
  let requiredSize := selectSlabSize dataLength in
  fl <- gets freeList ;;
  match take_first_fit requiredSize fl with
  | Some (freeSlot, rest) =>
      modify (set_freeList rest) ;;
      ret (mkAllocation (free_offset freeSlot) (free_slabSize freeSlot) true)
  | None =>
      offset <- gets (fun s => nextSlotOffset (header s)) ;;
      ret (mkAllocation offset requiredSize false)
  end.

(** [writeSlot].  The typed-array writes raise a [RangeError] when the
    header or the payload does not fit in [slabSize] bytes. *)
Definition writeSlot (offset : Z) (data : Uint8Array) (slabSize : Z)
           (isBlob : bool) : Eng unit :=
  if slabSize <? SLOT_HEADER_SIZE + len data then throw RangeError
  else writeAtOffset offset (slotBuffer (slot_flags isBlob) data slabSize).

Definition readSlot (offset length : Z) : Eng Uint8Array :=
  pure_result (fun s => readSlot_in (file s) offset length).

Definition markSlotFree (offset : Z) : Eng unit :=
  f <- gets file ;;
  let headerBytes := pread f offset SLOT_HEADER_SIZE in
  if len headerBytes <? SLOT_HEADER_SIZE
  then throw (CorruptedDataError UnexpectedEndOfSlotHeader offset)
  else
    let currentFlags := readUint32 headerBytes 0 in
    let headerBytes :=
      writeUint32 headerBytes 0 (JS.and currentFlags (JS.not SlotFlags.ACTIVE)) in
    writeAtOffset offset (slice headerBytes 0 4).

Definition freeList_add (slot : FreeSlot) : Eng unit :=
  modify (fun s => set_freeList (freeList s ++ [slot]) s).

(** After a slot was written at an allocation: the end of the file moves
    when the slot was appended. *)
Definition advance (allocation : SlabAllocation) : Eng unit :=
  when (negb (alloc_isReused allocation))
    (modify_header (fun h =>
       let next := alloc_offset allocation + alloc_slabSize allocation in
       set_fileSize next (set_nextSlotOffset next h))).

(* ---------------- blobs ---------------- *)

Definition writeBlobFile (path : string) (data : Uint8Array) : Eng BlobReference :=
  modify (fun s =>
    set_diskWrites (S (diskWrites s))
      (set_blobFiles (Map_set (blobFiles s) path data) s)) ;;
  ret {| ref_path := path; ref_size := len data; ref_checksum := crc32 data |}.

Definition blob_name (id : string) : string := (id ++ ".blob")%string.

Definition writeBlobReferenceSlot (ref : BlobReference)
  : Eng (DocumentLocation * Uint8Array) :=
  let refBytes := encodeString (JSON_stringify_ref ref) in
  allocation <- allocateSlot (len refBytes) ;;
  writeSlot (alloc_offset allocation) refBytes (alloc_slabSize allocation) true ;;
  advance allocation ;;
  ret (mkLocation (alloc_offset allocation) (len refBytes)
         (alloc_slabSize allocation) true, refBytes).

Definition writeBlobForInsertUnlocked (id : string) (data : Uint8Array)
  : Eng DocumentLocation :=
  blobRef <- writeBlobFile (blob_name id) data ;;
  r <- writeBlobReferenceSlot blobRef ;;
  modify_header (fun h => set_documentCount (documentCount h + 1) h) ;;
  modify_header (fun h => set_liveDataSize (liveDataSize h + ref_size blobRef) h) ;;
  markMetadataDirty ;;
  flushIfNotBatching ;;
  ret (fst r).

Definition writeBlobForUpdateUnlocked (id : string) (data : Uint8Array)
  : Eng DocumentLocation :=
  blobRef <- writeBlobFile (blob_name id) data ;;
  r <- writeBlobReferenceSlot blobRef ;;
  ret (fst r).

Definition updateBlobReferenceUnlocked (id : string) (data : Uint8Array)
           (oldLocation : DocumentLocation) : Eng DocumentLocation :=
  blobRef <- writeBlobFile (blob_name id) data ;;
  let refBytes := encodeString (JSON_stringify_ref blobRef) in
  if len refBytes + SLOT_HEADER_SIZE <=? loc_slabSize oldLocation then
    writeSlot (loc_offset oldLocation) refBytes (loc_slabSize oldLocation) true ;;
    ret (mkLocation (loc_offset oldLocation) (len refBytes)
           (loc_slabSize oldLocation) true)
  else
    markSlotFree (loc_offset oldLocation) ;;
    freeList_add (mkFreeSlot (loc_offset oldLocation) (loc_slabSize oldLocation)) ;;
    allocation <- allocateSlot (len refBytes) ;;
    writeSlot (alloc_offset allocation) refBytes (alloc_slabSize allocation) true ;;
    advance allocation ;;
    ret (mkLocation (alloc_offset allocation) (len refBytes)
           (alloc_slabSize allocation) true).

Definition readBlobReference (offset length : Z) : Eng BlobReference :=
  data <- readSlot offset length ;;
  match JSON_parse_ref data with
  | Some ref => ret ref
  | None => throw SyntaxError
  end.

Definition readBlob (location : DocumentLocation) : Eng Document :=
  blobRef <- readBlobReference (loc_offset location) (loc_length location) ;;
  files <- gets blobFiles ;;
  match Map_get files (ref_path blobRef) with
  | None => throw (FileNotFoundError (ref_path blobRef))
  | Some blobBytes =>
      let computedChecksum := crc32 blobBytes in
      if negb (computedChecksum =? ref_checksum blobRef)
      then throw (ChecksumMismatchError (ref_checksum blobRef) computedChecksum None)
      else
        match JSON_parse blobBytes with
        | Some doc => ret doc
        | None => throw SyntaxError
        end
  end.

Definition deleteBlob (path : string) : Eng unit :=
  files <- gets blobFiles ;;
  when (Map_has files path)
    (modify (fun s =>
       set_diskWrites (S (diskWrites s))
         (set_blobFiles (Map_delete (blobFiles s) path) s))).

(* ---------------- the unlocked operations ---------------- *)

Definition writeUnlocked (id : string) (data : Document) : Eng DocumentLocation :=
  let jsonBytes := encodeDocument data in
  thr <- gets blobThreshold ;;
  if len jsonBytes >? thr then writeBlobForInsertUnlocked id jsonBytes
  else
    allocation <- allocateSlot (len jsonBytes) ;;
    writeSlot (alloc_offset allocation) jsonBytes (alloc_slabSize allocation) false ;;
    advance allocation ;;
    modify_header (fun h => set_documentCount (documentCount h + 1) h) ;;
    modify_header (fun h => set_liveDataSize (liveDataSize h + len jsonBytes) h) ;;
    markMetadataDirty ;;
    flushIfNotBatching ;;
    ret (mkLocation (alloc_offset allocation) (len jsonBytes)
           (alloc_slabSize allocation) false).

Definition adjustLiveData (delta : Z) : Eng unit :=
  modify_header (fun h => set_liveDataSize (liveDataSize h + delta) h) ;;
  markMetadataDirty ;;
  flushIfNotBatching.

Definition updateUnlocked (id : string) (data : Document)
           (oldLocation : DocumentLocation) : Eng DocumentLocation :=
  let jsonBytes := encodeDocument data in
  thr <- gets blobThreshold ;;
  let shouldBeBlob := len jsonBytes >? thr in
  if loc_isBlob oldLocation then
    oldBlobRef <- readBlobReference (loc_offset oldLocation) (loc_length oldLocation) ;;
    let oldBlobSize := ref_size oldBlobRef in
    if shouldBeBlob then
      newLocation <- updateBlobReferenceUnlocked id jsonBytes oldLocation ;;
      adjustLiveData (len jsonBytes - oldBlobSize) ;;
      ret newLocation
    else
      deleteBlob (ref_path oldBlobRef) ;;
      markSlotFree (loc_offset oldLocation) ;;
      freeList_add (mkFreeSlot (loc_offset oldLocation) (loc_slabSize oldLocation)) ;;
      allocation <- allocateSlot (len jsonBytes) ;;
      writeSlot (alloc_offset allocation) jsonBytes (alloc_slabSize allocation) false ;;
      advance allocation ;;
      adjustLiveData (len jsonBytes - oldBlobSize) ;;
      ret (mkLocation (alloc_offset allocation) (len jsonBytes)
             (alloc_slabSize allocation) false)
  else if shouldBeBlob then
    markSlotFree (loc_offset oldLocation) ;;
    freeList_add (mkFreeSlot (loc_offset oldLocation) (loc_slabSize oldLocation)) ;;
    newLocation <- writeBlobForUpdateUnlocked id jsonBytes ;;
    adjustLiveData (len jsonBytes - loc_length oldLocation) ;;
    ret newLocation
  else if len jsonBytes + SLOT_HEADER_SIZE <=? loc_slabSize oldLocation then
    writeSlot (loc_offset oldLocation) jsonBytes (loc_slabSize oldLocation) false ;;
    adjustLiveData (len jsonBytes - loc_length oldLocation) ;;
    ret (mkLocation (loc_offset oldLocation) (len jsonBytes)
           (loc_slabSize oldLocation) false)
  else
    markSlotFree (loc_offset oldLocation) ;;
    freeList_add (mkFreeSlot (loc_offset oldLocation) (loc_slabSize oldLocation)) ;;
    allocation <- allocateSlot (len jsonBytes) ;;
    writeSlot (alloc_offset allocation) jsonBytes (alloc_slabSize allocation) false ;;
    advance allocation ;;
    adjustLiveData (len jsonBytes - loc_length oldLocation) ;;
    ret (mkLocation (alloc_offset allocation) (len jsonBytes)
           (alloc_slabSize allocation) false).

Definition deleteUnlocked (location : DocumentLocation) : Eng unit :=
  (if loc_isBlob location then
     blobRef <- readBlobReference (loc_offset location) (loc_length location) ;;
     deleteBlob (ref_path blobRef) ;;
     modify_header (fun h => set_liveDataSize (liveDataSize h - ref_size blobRef) h)
   else
     modify_header (fun h =>
       set_liveDataSize (liveDataSize h - loc_length location) h)) ;;
  markSlotFree (loc_offset location) ;;
  freeList_add (mkFreeSlot (loc_offset location) (loc_slabSize location)) ;;
  modify_header (fun h => set_documentCount (documentCount h - 1) h) ;;
  markMetadataDirty ;;
  flushIfNotBatching.

Definition batch_enter : Eng unit :=
  modify (fun s => set_batchDepth (batchDepth s + 1) s).

Definition batch_exit : Eng unit :=
  modify (fun s => set_batchDepth (batchDepth s - 1) s) ;;
  d <- gets batchDepth ;;
  when (d =? 0) flushMetadata.

(** The slots of the fast path of [writeMany]: buffers, locations, and
    the running totals. *)
Fixpoint writeMany_build (items : list (string * Document)) (currentOffset : Z)
  : list Uint8Array * list DocumentLocation * Z * Z :=
  match items with
  | [] => ([], [], 0, 0)
  | (_, data) :: rest =>
      let jsonBytes := encodeDocument data in
      let slabSize := selectSlabSize (len jsonBytes) in
      let slot := slotBuffer SlotFlags.ACTIVE jsonBytes slabSize in
      let location := mkLocation currentOffset (len jsonBytes) slabSize false in
      match writeMany_build rest (currentOffset + slabSize) with
      | (bufs, locs, totalBytes, totalLiveData) =>
          (slot :: bufs, location :: locs,
           slabSize + totalBytes, len jsonBytes + totalLiveData)
      end
  end.

Definition writeMany (items : list (string * Document))
  : Eng (list DocumentLocation) :=
  match items with
  | [] => ret []
  | _ =>
      thr <- gets blobThreshold ;;
      if existsb (fun item => len (encodeDocument (snd item)) >? thr) items then
        batch_enter ;;
        try_finally
          (for_each (fun item => writeUnlocked (fst item) (snd item)) items)
          batch_exit
      else
        startOffset <- gets (fun s => nextSlotOffset (header s)) ;;
        match writeMany_build items startOffset with
        | (slotBuffers, locations, totalBytes, totalLiveData) =>
            let fullBuffer := List.concat slotBuffers in
            writeAtOffset startOffset fullBuffer ;;
            modify_header (fun h =>
              let next := startOffset + totalBytes in
              set_fileSize next (set_nextSlotOffset next h)) ;;
            modify_header (fun h =>
              set_documentCount (documentCount h + Z.of_nat (List.length items)) h) ;;
            modify_header (fun h =>
              set_liveDataSize (liveDataSize h + totalLiveData) h) ;;
            markMetadataDirty ;;
            flushIfNotBatching ;;
            ret locations
        end
  end.

(** The loop of [compact] over the primary index: the slot buffers in
    order, the new locations, the packed offset and the live bytes. *)
Fixpoint compact_loop (f : Uint8Array) (index : PrimaryIndex)
         (newLocations : JSMap DocumentLocation) (newOffset totalLiveData : Z)
  : result (list Uint8Array * JSMap DocumentLocation * Z * Z) :=
  match index with
  | [] => Ok ([], newLocations, newOffset, totalLiveData)
  | (id, location) :: rest =>
      match readSlot_in f (loc_offset location) (loc_length location) with
      | Err e => Err e
      | Ok data =>
          let newSlabSize := selectSlabSize (len data) in
          let slot := slotBuffer (slot_flags (loc_isBlob location)) data newSlabSize in
          let newLocations :=
            Map_set newLocations id
              (mkLocation newOffset (len data) newSlabSize (loc_isBlob location)) in
          let live :=
            if loc_isBlob location
            then match JSON_parse_ref data with
                 | Some blobRef => Ok (ref_size blobRef)
                 | None => Err SyntaxError
                 end
            else Ok (len data) in
          match live with
          | Err e => Err e
          | Ok bytes =>
              match compact_loop f rest newLocations (newOffset + newSlabSize)
                      (totalLiveData + bytes) with
              | Err e => Err e
              | Ok (chunks, locs, off, total) => Ok (slot :: chunks, locs, off, total)
              end
          end
      end
  end.

End Storage.

(** The public methods of the engine. *)
Module Storage.
Section Public.
Context {rt : Runtime}.

(** The write lock is a queue of continuations; with one operation in
  flight at a time [acquire] and [release] do nothing. *)
Definition write (id : string) (data : Document) : Eng DocumentLocation :=
writeUnlocked id data.

Definition read (location : DocumentLocation) : Eng Document :=
modify (fun s => set_docReads (S (docReads s)) s) ;;
if loc_isBlob location then readBlob location
else
  slotData <- readSlot (loc_offset location) (loc_length location) ;;
  match JSON_parse slotData with
  | Some doc => ret doc
  | None => throw SyntaxError
  end.

Definition update (id : string) (data : Document) (oldLocation : DocumentLocation)
: Eng DocumentLocation :=
updateUnlocked id data oldLocation.

Definition delete (location : DocumentLocation) : Eng unit :=
deleteUnlocked location.

(** [compact]: the temporary file replaces the data file in one rename.
  [tempHeader] is the first chunk and is filled in after the loop. *)
Definition compact (index : PrimaryIndex) : Eng (Z * JSMap DocumentLocation) :=
f <- gets file ;;
match compact_loop f index [] DATA_HEADER_SIZE 0 with
| Err e => throw e
| Ok (chunks, newLocations, newOffset, totalLiveData) =>
    let h := mkHeader DATA_FILE_MAGIC FORMAT_VERSION newOffset totalLiveData
               (Map_size index) newOffset in
    let fullBuffer := List.concat (headerBytes h :: chunks) in
    oldSize <- gets (fun s => fileSize (header s)) ;;
    modify (fun s => set_diskWrites (S (diskWrites s)) (set_file fullBuffer s)) ;;
    modify (set_header h) ;;
    modify (set_freeList []) ;;
    updateSharedState ;;
    ret (oldSize - newOffset, newLocations)
end.

Definition getStats_fileSize (s : StorageEngine) : Z := fileSize (header s).
End Public.
End Storage.

(* ================================================================== *)
(** ** Index manager ([index-manager.ts]) *)

(** [persisted] stands for the index file: the maps that the last
    [persist] wrote (the binary layout is not part of this development). *)
Record IndexManager := mkIndex {
  primaryIndex : PrimaryIndex;
  secondaryIndexes : SecondaryIndex;
  dirty : bool;
  persisted : option (PrimaryIndex * SecondaryIndex);
}.

Definition set_primaryIndex v (m : IndexManager) :=
  mkIndex v (secondaryIndexes m) (dirty m) (persisted m).
Definition set_secondaryIndexes v (m : IndexManager) :=
  mkIndex (primaryIndex m) v (dirty m) (persisted m).
Definition set_dirty v (m : IndexManager) :=
  mkIndex (primaryIndex m) (secondaryIndexes m) v (persisted m).

Inductive scan_result :=
| NoMatch
| Candidates (candidateIds : option JSSet) (fullyCoveredByIndexes : bool).

Module Index.
Section Index.
Context {rt : Runtime}.

Definition has (m : IndexManager) (id : string) : bool :=
Map_has (primaryIndex m) id.

Definition getLocation (m : IndexManager) (id : string) : option DocumentLocation :=
Map_get (primaryIndex m) id.

Definition getAllIds (m : IndexManager) : list string := Map_keys (primaryIndex m).
Definition getPrimaryIndex (m : IndexManager) : PrimaryIndex := primaryIndex m.
Definition size (m : IndexManager) : Z := Map_size (primaryIndex m).

(** Insert [id] in the posting list of [data]'s value at [fieldPath]. *)
Definition postings_add (fieldPath : string) (valueMap : JSMap JSSet)
         (id : string) (data : Document) : JSMap JSSet :=
match getNestedValue data fieldPath with
| VUndefined => valueMap
| v =>
    let serialized := serializeIndexValue v in
    match Map_get valueMap serialized with
    | None => Map_set valueMap serialized (Set_add [] id)
    | Some ids => Map_set valueMap serialized (Set_add ids id)
    end
end.

(** Remove [id] from the posting list of [data]'s value at [fieldPath];
  an emptied list is deleted. *)
Definition postings_remove (fieldPath : string) (valueMap : JSMap JSSet)
         (id : string) (data : Document) : JSMap JSSet :=
match getNestedValue data fieldPath with
| VUndefined => valueMap
| v =>
    let serialized := serializeIndexValue v in
    match Map_get valueMap serialized with
    | None => valueMap
    | Some ids =>
        let ids := Set_delete ids id in
        if Set_size ids =? 0 then Map_delete valueMap serialized
        else Map_set valueMap serialized ids
    end
end.

Definition addDocument (id : string) (location : DocumentLocation)
         (data : Document) (m : IndexManager) : IndexManager :=
let m := set_primaryIndex (Map_set (primaryIndex m) id location) m in
let m :=
  set_secondaryIndexes
    (map (fun entry => (fst entry, postings_add (fst entry) (snd entry) id data))
       (secondaryIndexes m)) m in
set_dirty true m.

Definition updateDocument (id : string) (location : DocumentLocation)
         (newData : Document) (oldData : option Document)
         (m : IndexManager) : IndexManager :=
let m := set_primaryIndex (Map_set (primaryIndex m) id location) m in
let m :=
  set_secondaryIndexes
    (map (fun entry =>
            let fieldPath := fst entry in
            let valueMap :=
              match oldData with
              | Some old => postings_remove fieldPath (snd entry) id old
              | None => snd entry
              end in
            (fieldPath, postings_add fieldPath valueMap id newData))
       (secondaryIndexes m)) m in
set_dirty true m.

Definition updateLocation (id : string) (location : DocumentLocation)
         (m : IndexManager) : IndexManager :=
set_dirty true (set_primaryIndex (Map_set (primaryIndex m) id location) m).

Definition removeDocument (id : string) (data : option Document)
         (m : IndexManager) : IndexManager :=
let m := set_primaryIndex (Map_delete (primaryIndex m) id) m in
let m :=
  match data with
  | Some d =>
      set_secondaryIndexes
        (map (fun entry => (fst entry, postings_remove (fst entry) (snd entry) id d))
           (secondaryIndexes m)) m
  | None => m
  end in
set_dirty true m.

Definition persist (m : IndexManager) : IndexManager :=
mkIndex (primaryIndex m) (secondaryIndexes m) false
  (Some (primaryIndex m, secondaryIndexes m)).

(** The first loop of [queryIds] and [count]: intersect the posting
  lists of the indexed keys; [NoMatch] is the early return. *)
Fixpoint scan_filter (sec : SecondaryIndex) (filter : QueryFilter)
       (candidateIds : option JSSet) (fullyCoveredByIndexes : bool)
: scan_result :=
match filter with
| [] => Candidates candidateIds fullyCoveredByIndexes
| (field, v) :: rest =>
    match Map_get sec field with
    | Some fieldIndex =>
        let serialized := serializeIndexValue v in
        match Map_get fieldIndex serialized with
        | Some matchingIds =>
            let candidateIds :=
              match candidateIds with
              | None => matchingIds
              | Some c => List.filter (fun id => Set_has matchingIds id) c
              end in
            scan_filter sec rest (Some candidateIds) fullyCoveredByIndexes
        | None => NoMatch
        end
    | None => scan_filter sec rest candidateIds false
    end
end.

Section Query.
Context {S : Type}.
Variable reader : string -> DocumentLocation -> M S Document.

(** The second loop: read every candidate and keep those that match. *)
Fixpoint validate (m : IndexManager) (filter : QueryFilter)
       (candidateIds : list string) : M S (list string) :=
match candidateIds with
| [] => ret []
| id :: rest =>
    match Map_get (primaryIndex m) id with
    | None => validate m filter rest
    | Some location =>
        doc <- reader id location ;;
        ids <- validate m filter rest ;;
        ret (if matchesFilter doc filter then id :: ids else ids)
    end
end.

Definition queryIds (m : IndexManager) (filter : QueryFilter) : M S (list string) :=
match scan_filter (secondaryIndexes m) filter None true with
| NoMatch => ret []
| Candidates None _ => validate m filter (Map_keys (primaryIndex m))
| Candidates (Some candidateIds) true => ret candidateIds
| Candidates (Some candidateIds) false => validate m filter candidateIds
end.

Definition count (m : IndexManager) (filter : QueryFilter) : M S Z :=
match scan_filter (secondaryIndexes m) filter None true with
| NoMatch => ret 0
| Candidates None _ =>
    ids <- validate m filter (Map_keys (primaryIndex m)) ;;
    ret (Z.of_nat (List.length ids))
| Candidates (Some candidateIds) true => ret (Set_size candidateIds)
| Candidates (Some candidateIds) false =>
    ids <- validate m filter candidateIds ;;
    ret (Z.of_nat (List.length ids))
end.
End Query.
End Index.
End Index.

(* ================================================================== *)
(** ** Collection ([collection.ts]) *)

(** An initialised collection ([ensureInitialized] returns at once). *)
Record Collection := mkCollection {
  storage : StorageEngine;
  indexManager : IndexManager;
  cacheSize : Z;
  cache : option (JSMap Document);
}.

Definition set_storage v (c : Collection) :=
  mkCollection v (indexManager c) (cacheSize c) (cache c).
Definition set_indexManager v (c : Collection) :=
  mkCollection (storage c) v (cacheSize c) (cache c).
Definition set_cache v (c : Collection) :=
  mkCollection (storage c) (indexManager c) (cacheSize c) v.

Definition Coll : Type -> Type := M Collection.

(** A storage method called from the collection. *)
Definition onStorage {A} (c : Eng A) : Coll A :=
  fun s =>
    match c (storage s) with
    | (r, st) => (r, set_storage st s)
    end.

Definition onIndex (f : IndexManager -> IndexManager) : Coll unit :=
  modify (fun s => set_indexManager (f (indexManager s)) s).

(** Truthiness of a value used as a condition. *)
Definition truthy_value (v : value) : bool :=
  match v with
  | VNull | VUndefined => false
  | VBool b => b
  | VNum n => negb (PrimFloat.eqb n zero || is_nan n)
  | VStr s => negb (String.eqb s EmptyString)
  | VArr _ | VObj _ => true
  end.

Inductive BatchOp :=
| BInsert (id : string) (data : Document)
| BUpdate (id : string) (data : Document)
| BUpsert (id : string) (data : Document)
| BDelete (id : string).

Section Collection.
Context {rt : Runtime}.

Definition cacheGet (id : string) : Coll (option Document) :=
  c <- gets cache ;;
  match c with
  | None => ret None
  | Some entries =>
      match Map_get entries id with
      | None => ret None
      | Some v =>
          if negb (truthy_value v) then ret None
          else
            modify (set_cache (Some (Map_set (Map_delete entries id) id v))) ;;
            ret (Some v)
      end
  end.

Definition cacheSet (id : string) (doc : Document) : Coll unit :=
  modify (fun s =>
    match cache s with
    | None => s
    | Some entries =>
        let entries := if Map_has entries id then Map_delete entries id else entries in
        let entries := Map_set entries id doc in
        let entries :=
          if Map_size entries >? cacheSize s then
            match Map_keys entries with
            | oldestKey :: _ => Map_delete entries oldestKey
            | [] => entries
            end
          else entries in
        set_cache (Some entries) s
    end).

Definition cacheDelete (id : string) : Coll unit :=
  modify (fun s =>
    match cache s with
    | None => s
    | Some entries => set_cache (Some (Map_delete entries id)) s
    end).

Definition readWithCache (id : string) (location : DocumentLocation) : Coll Document :=
  cached <- cacheGet id ;;
  match cached with
  | Some doc => ret doc
  | None =>
      doc <- onStorage (Storage.read location) ;;
      cacheSet id doc ;;
      ret doc
  end.

(** The bodies shared by the methods of the collection and by the
    operations handed to a [batch] callback: [w], [u] and [d] are the
    storage's [write], [update], [delete] or their unlocked variants. *)
Definition insert_with (w : string -> Document -> Eng DocumentLocation)
           (id : string) (data : Document) : Coll unit :=
  m <- gets indexManager ;;
  if Index.has m id then throw (DuplicateIdError id)
  else
    location <- onStorage (w id data) ;;
    onIndex (Index.addDocument id location data) ;;
    cacheSet id data.

Definition update_with
           (u : string -> Document -> DocumentLocation -> Eng DocumentLocation)
           (id : string) (data : Document) : Coll unit :=
  m <- gets indexManager ;;
  match Index.getLocation m id with
  | None => throw (DocumentNotFoundError id)
  | Some oldLocation =>
      oldData <- onStorage (Storage.read oldLocation) ;;
      newLocation <- onStorage (u id data oldLocation) ;;
      onIndex (Index.updateDocument id newLocation data (Some oldData)) ;;
      cacheSet id data
  end.

Definition upsert_with
           (w : string -> Document -> Eng DocumentLocation)
           (u : string -> Document -> DocumentLocation -> Eng DocumentLocation)
           (id : string) (data : Document) : Coll unit :=
  m <- gets indexManager ;;
  match Index.getLocation m id with
  | Some existingLocation =>
      oldData <- onStorage (Storage.read existingLocation) ;;
      newLocation <- onStorage (u id data existingLocation) ;;
      onIndex (Index.updateDocument id newLocation data (Some oldData)) ;;
      cacheSet id data
  | None =>
      location <- onStorage (w id data) ;;
      onIndex (Index.addDocument id location data) ;;
      cacheSet id data
  end.

Definition delete_with (d : DocumentLocation -> Eng unit) (id : string) : Coll bool :=
  m <- gets indexManager ;;
  match Index.getLocation m id with
  | None => ret false
  | Some location =>
      data <- onStorage (Storage.read location) ;;
      onStorage (d location) ;;
      onIndex (Index.removeDocument id (Some data)) ;;
      cacheDelete id ;;
      ret true
  end.
End Collection.

Module Collection.
Section Methods.
Context {rt : Runtime}.

Definition insert (id : string) (data : Document) : Coll unit :=
m <- gets indexManager ;;
if Index.has m id then throw (DuplicateIdError id)
else
  location <- onStorage (Storage.write id data) ;;
  onIndex (Index.addDocument id location data) ;;
  cacheSet id data.

Definition get (id : string) : Coll (option Document) :=
cached <- cacheGet id ;;
match cached with
| Some doc => ret (Some doc)
| None =>
    m <- gets indexManager ;;
    match Index.getLocation m id with
    | None => ret None
    | Some location =>
        doc <- onStorage (Storage.read location) ;;
        cacheSet id doc ;;
        ret (Some doc)
    end
end.

Definition update (id : string) (data : Document) : Coll unit :=
m <- gets indexManager ;;
match Index.getLocation m id with
| None => throw (DocumentNotFoundError id)
| Some oldLocation =>
    oldData <- onStorage (Storage.read oldLocation) ;;
    newLocation <- onStorage (Storage.update id data oldLocation) ;;
    onIndex (Index.updateDocument id newLocation data (Some oldData)) ;;
    cacheSet id data
end.

Definition upsert (id : string) (data : Document) : Coll unit :=
m <- gets indexManager ;;
match Index.getLocation m id with
| Some existingLocation =>
    oldData <- onStorage (Storage.read existingLocation) ;;
    newLocation <- onStorage (Storage.update id data existingLocation) ;;
    onIndex (Index.updateDocument id newLocation data (Some oldData)) ;;
    cacheSet id data
| None =>
    location <- onStorage (Storage.write id data) ;;
    onIndex (Index.addDocument id location data) ;;
    cacheSet id data
end.

Definition delete (id : string) : Coll bool :=
m <- gets indexManager ;;
match Index.getLocation m id with
| None => ret false
| Some location =>
    data <- onStorage (Storage.read location) ;;
    onStorage (Storage.delete location) ;;
    onIndex (Index.removeDocument id (Some data)) ;;
    cacheDelete id ;;
    ret true
end.

Definition has (id : string) : Coll bool :=
m <- gets indexManager ;;
ret (Index.has m id).

(** One operation of a [batch] callback, on the unlocked storage
  operations. *)
Definition batch_op (op : BatchOp) : Coll unit :=
match op with
| BInsert id data => insert_with writeUnlocked id data
| BUpdate id data => update_with updateUnlocked id data
| BUpsert id data => upsert_with writeUnlocked updateUnlocked id data
| BDelete id => _ <- delete_with deleteUnlocked id ;; ret tt
end.

(** [batch(fn)] for a callback that awaits the given operations in turn
  and lets their exceptions through. *)
Definition batch (ops : list BatchOp) : Coll unit :=
onStorage batch_enter ;;
try_finally
  (_ <- for_each batch_op ops ;; ret tt)
  (onStorage batch_exit).

Definition insertMany (items : list (string * Document)) : Coll unit :=
match items with
| [] => ret tt
| _ =>
    m <- gets indexManager ;;
    match find (fun item => Index.has m (fst item)) items with
    | Some item => throw (DuplicateIdError (fst item))
    | None =>
        locations <- onStorage (writeMany items) ;;
        _ <- for_each (fun p =>
               onIndex (Index.addDocument (fst (fst p)) (snd p) (snd (fst p))) ;;
               cacheSet (fst (fst p)) (snd (fst p)))
             (combine items locations) ;;
        ret tt
    end
end.

Definition findIds (filter : QueryFilter) : Coll (list string) :=
m <- gets indexManager ;;
Index.queryIds readWithCache m filter.

Definition count (filter : option QueryFilter) : Coll Z :=
m <- gets indexManager ;;
match filter with
| None => ret (Index.size m)
| Some [] => ret (Index.size m)
| Some f => Index.count readWithCache m f
end.

Definition createIndex (fieldPath : string) : Coll unit :=
m <- gets indexManager ;;
if Map_has (secondaryIndexes m) fieldPath then ret tt
else
  onIndex (fun m =>
    set_secondaryIndexes (Map_set (secondaryIndexes m) fieldPath []) m) ;;
  _ <- for_each (fun entry =>
         data <- onStorage (Storage.read (snd entry)) ;;
         onIndex (fun m =>
           set_secondaryIndexes
             (map (fun e =>
                     if String.eqb (fst e) fieldPath
                     then (fst e, Index.postings_add fieldPath (snd e) (fst entry) data)
                     else e)
                (secondaryIndexes m)) m))
       (primaryIndex m) ;;
  onIndex (set_dirty true).

Definition compact : Coll CompactionResult :=
m <- gets indexManager ;;
let primaryIndex := Index.getPrimaryIndex m in
result <- onStorage (Storage.compact primaryIndex) ;;
_ <- for_each (fun entry => onIndex (Index.updateLocation (fst entry) (snd entry)))
       (snd result) ;;
onIndex Index.persist ;;
s <- gets storage ;;
m' <- gets indexManager ;;
ret (mkCompactionResult (fst result) (Index.size m') (Storage.getStats_fileSize s)).
End Methods.
End Collection.

(* ================================================================== *)
(** ** A fresh collection and sequences of operations *)

Section Fresh.
Context {rt : Runtime}.

(** [init] on a path with no data file: [createNewFile], then the shared
    cells are published. *)
Definition createNewFile : Eng unit :=
  modify (set_header newHeader) ;;
  writeHeader.

Definition newStorage (blobThreshold : Z) : StorageEngine :=
  snd ((createNewFile ;; updateSharedState)
         (mkStorage [] newHeader [] 0 false false blobThreshold []
            (mkShared 0 0 0) 0 0)).

(** [new Collection(...)] followed by [ensureInitialized] when neither
    file exists. *)
Definition newCollection (cacheSize blobThreshold : Z) : Collection :=
  let cacheSize := Z.max 0 cacheSize in
  mkCollection (newStorage blobThreshold) (mkIndex [] [] false None)
    cacheSize (if cacheSize >? 0 then Some [] else None).

Inductive Op :=
| OpInsert (id : string) (data : Document)
| OpUpdate (id : string) (data : Document)
| OpUpsert (id : string) (data : Document)
| OpDelete (id : string)
| OpBatch (ops : list BatchOp)
| OpInsertMany (items : list (string * Document))
| OpGet (id : string)
| OpCreateIndex (fieldPath : string).

(** The state an operation leaves, whether it returned or threw. *)
Definition run_op (op : Op) (c : Collection) : Collection :=
  match op with
  | OpInsert id data => snd (Collection.insert id data c)
  | OpUpdate id data => snd (Collection.update id data c)
  | OpUpsert id data => snd (Collection.upsert id data c)
  | OpDelete id => snd (Collection.delete id c)
  | OpBatch ops => snd (Collection.batch ops c)
  | OpInsertMany items => snd (Collection.insertMany items c)
  | OpGet id => snd (Collection.get id c)
  | OpCreateIndex fieldPath => snd (Collection.createIndex fieldPath c)
  end.

Definition run (ops : list Op) (c : Collection) : Collection :=
  fold_left (fun c op => run_op op c) ops c.
End Fresh.

(** The scan of the specification's tiling property: from [offset], read
    the [slabSize] word of the slot header and step over the slot; the
    result is the offset at which the scan stops ([fuel] bounds the number
    of slots visited). *)
Fixpoint scan_slots (fuel : nat) (f : Uint8Array) (offset stop : Z) : option Z :=
  if offset >=? stop then Some offset
  else
    match fuel with
    | O => None
    | S fuel' =>
        let headerBuf := pread f offset SLOT_HEADER_SIZE in
        if len headerBuf <? SLOT_HEADER_SIZE then None
        else
          let slabSize := readUint32 headerBuf 8 in
          if slabSize =? 0 then None
          else scan_slots fuel' f (offset + slabSize) stop
    end.

(* ================================================================== *)
(** ** A runtime for closed examples *)

Fixpoint bytes_eqb (a b : Uint8Array) : bool :=
  match a, b with
  | [], [] => true
  | x :: a', y :: b' => Byte.eqb x y && bytes_eqb a' b'
  | _, _ => false
  end.

Definition decimalZ (z : Z) : string := decimal (Z.to_nat z).

(** [JSON.stringify] of a blob reference: its three properties in the
    order the object literal of [writeBlobFile] lists them. *)
Definition stringify_ref (r : BlobReference) : string :=
  ("{" ++ Quote "path" ++ ":" ++ Quote (ref_path r)
     ++ "," ++ Quote "size" ++ ":" ++ decimalZ (ref_size r)
     ++ "," ++ Quote "checksum" ++ ":" ++ decimalZ (ref_checksum r) ++ "}")%string.

Definition numbers_only : Runtime :=
  {| toExponential15 := fun _ => EmptyString;
     Number_toString := fun _ => EmptyString;
     JSON_parse := fun _ => None;
     JSON_stringify_ref := stringify_ref;
     JSON_parse_ref := fun _ => None |}.

(** A runtime whose [JSON.parse] inverts [JSON.stringify] on the listed
    documents and blob references and rejects every other input.  The
    examples contain no number, so number formatting is left empty. *)
Definition example_runtime (docs : list Document) (refs : list BlobReference) : Runtime :=
  {| toExponential15 := fun _ => EmptyString;
     Number_toString := fun _ => EmptyString;
     JSON_parse := fun bs =>
       List.find (fun d => bytes_eqb (@encodeDocument numbers_only d) bs) docs;
     JSON_stringify_ref := stringify_ref;
     JSON_parse_ref := fun bs =>
       List.find (fun r => bytes_eqb (encodeString (stringify_ref r)) bs) refs |}.

(** Documents and states used by the closed examples. *)
Module Examples.
Local Open Scope string_scope.

Definition alice : Document :=
  VObj [("name", VStr "Alice"); ("role", VStr "admin")].
Definition bob : Document :=
  VObj [("name", VStr "Bob"); ("role", VStr "user");
        ("tags", VArr [VBool true; VNull])].
Definition carol : Document :=
  VObj [("name", VStr "Carol"); ("role", VStr "admin"); ("active", VBool true)].

Definition runtime : Runtime := example_runtime [alice; bob; carol] [].

(** Three inserts, one delete and one update on a fresh collection with
    an index on [role]. *)
Definition users : Collection := Eval vm_compute in
  @run runtime
    [OpCreateIndex "role"; OpInsert "user_1" alice; OpInsert "user_2" bob;
     OpInsert "user_3" carol; OpDelete "user_1"; OpUpdate "user_2" alice]
    (newCollection 0 DEFAULT_BLOB_THRESHOLD).
End Examples.

(* ================================================================== *)
(** ** More of [utils.ts]: 16-bit words and the write lock *)

(** [writeUint16], [readUint16]: [setUint16] keeps the low 16 bits. *)
Definition writeUint16 (buffer : Uint8Array) (offset value : Z) : Uint8Array :=
  buf_set buffer offset (le_bytes 2 (value mod 2 ^ 16)).

Definition readUint16 (buffer : Uint8Array) (offset : Z) : Z :=
  le_value (slice buffer offset (offset + 2)).

(** [AsyncMutex].  A caller is named by a number; [queue] holds the
    [tryAcquire] closures of the callers that wait, [resolved] lists the
    callers whose promise was resolved with the release function, in the
    order of the calls of [resolve]. *)
Module AsyncMutex.

Record state := mk {
  locked : bool;
  queue : list nat;
  resolved : list nat;
}.

Definition initial : state := mk false [] [].

Definition tryAcquire (caller : nat) (m : state) : state :=
  if negb (locked m) then mk true (queue m) (resolved m ++ [caller])
  else mk (locked m) (queue m ++ [caller]) (resolved m).

Definition acquire (caller : nat) (m : state) : state := tryAcquire caller m.

Definition release (m : state) : state :=
  let m := mk false (queue m) (resolved m) in
  match queue m with
  | [] => m
  | next :: rest => tryAcquire next (mk (locked m) rest (resolved m))
  end.

(** The calls made on a mutex, in order. *)
Inductive call :=
| Acquire (caller : nat)
| Release.

Definition step (m : state) (c : call) : state :=
  match c with
  | Acquire caller => acquire caller m
  | Release => release m
  end.

Definition run (calls : list call) (m : state) : state :=
  fold_left step calls m.

End AsyncMutex.

(* ================================================================== *)
(** ** Opening and resetting a data file ([storage.ts]) *)

(** [Number(x)] for a BigInt [x >= 0]: the nearest double, ties to even.
    Below [2^53] it is [x] itself. *)
Definition Number_of_BigInt (x : Z) : Z :=
  if x <? 2 ^ 53 then x
  else
    let e := Z.log2 x - 52 in
    let q := x / 2 ^ e in
    let r := x mod 2 ^ e in
    let half := 2 ^ (e - 1) in
    (if (r >? half) || ((r =? half) && Z.odd q) then q + 1 else q) * 2 ^ e.

(** [readUint64] as the callers see it: [Number(view.getBigUint64(0, true))]. *)
Definition readUint64_Number (buffer : Uint8Array) (offset : Z) : Z :=
  Number_of_BigInt (readUint64 buffer offset).

(** The reasons of an [InvalidFileFormatError]. *)
Inductive format_reason :=
| FileTooSmall
| InvalidMagic (got : Z)
| UnsupportedVersion (version : Z).

(** What opening a file throws. *)
Inductive open_error :=
| InvalidFileFormatError (reason : format_reason)
| IndexCorruptedError
| ViewOutOfBounds.

Inductive opened (A : Type) :=
| Opened (a : A)
| Refused (e : open_error).
Arguments Opened {A} a.
Arguments Refused {A} e.

(** [readHeader] on the bytes of the data file. *)
Definition readHeader (f : Uint8Array) : opened DataFileHeader :=
  let headerBytes := pread f 0 DATA_HEADER_SIZE in
  if len headerBytes <? DATA_HEADER_SIZE
  then Refused (InvalidFileFormatError FileTooSmall)
  else
    let magic := readUint32 headerBytes 0 in
    if negb (magic =? DATA_FILE_MAGIC)
    then Refused (InvalidFileFormatError (InvalidMagic magic))
    else
      let version := readUint32 headerBytes 4 in
      if negb (version =? FORMAT_VERSION)
      then Refused (InvalidFileFormatError (UnsupportedVersion version))
      else
        Opened (mkHeader magic version
                  (readUint64_Number headerBytes 8)
                  (readUint64_Number headerBytes 16)
                  (readUint64_Number headerBytes 24)
                  (readUint64_Number headerBytes 32)).

Definition calculatePackedSize (index : PrimaryIndex) : Z :=
  fold_left (fun total entry => total + loc_slabSize (snd entry)) index
    DATA_HEADER_SIZE.

(** The loop of [rebuildFreeList]: [added] are the slots added so far.
    Every turn moves [offset] forward by a positive [slabSize], so a number
    of turns equal to the distance to [nextSlotOffset] is never used up. *)
Fixpoint rebuildFreeList_loop (turns : nat) (f : Uint8Array)
         (occupiedOffsets : list Z) (nextSlotOffset offset : Z)
         (added : list FreeSlot) : list FreeSlot :=
  match turns with
  | O => added
  | S turns' =>
      if negb (offset <? nextSlotOffset) then added
      else
        let headerBuf := pread f offset SLOT_HEADER_SIZE in
        if len headerBuf <? SLOT_HEADER_SIZE then added
        else
          let flags := readUint32 headerBuf 0 in
          let slabSize := readUint32 headerBuf 8 in
          if slabSize =? 0 then added
          else
            let added :=
              if negb (JS.truthy (JS.and flags SlotFlags.ACTIVE))
                 || negb (existsb (Z.eqb offset) occupiedOffsets)
              then added ++ [mkFreeSlot offset slabSize]
              else added in
            rebuildFreeList_loop turns' f occupiedOffsets nextSlotOffset
              (offset + slabSize) added
  end.

Definition rebuildFreeList (index : PrimaryIndex) (s : StorageEngine)
  : StorageEngine :=
  let occupiedOffsets := map (fun entry => loc_offset (snd entry)) index in
  let next := nextSlotOffset (header s) in
  set_freeList
    (freeList s
       ++ rebuildFreeList_loop (Z.to_nat (next - DATA_HEADER_SIZE)) (file s)
            occupiedOffsets next DATA_HEADER_SIZE [])
    s.

(** The result of [getStats]. *)
Record StorageStats := mkStats {
  stats_fileSize : Z;
  stats_liveDataSize : Z;
  stats_documentCount : Z;
  stats_freeSlots : Z;
}.

Module Engine.

(** [init] on a path whose data file [f] exists: the header is read, and
    the free list is rebuilt from the index unless the indexed slots
    account for the whole file.  [blobs] is the blob directory. *)
Definition init (f : Uint8Array) (blobs : JSMap Uint8Array) (blobThreshold : Z)
           (existingIndex : option PrimaryIndex) : opened StorageEngine :=
  match readHeader f with
  | Refused e => Refused e
  | Opened h =>
      let s := mkStorage f h [] 0 false false blobThreshold blobs
                 (mkShared 0 0 0) 0 0 in
      let s :=
        match existingIndex with
        | Some index =>
            let packedSize := calculatePackedSize index in
            if negb (packedSize =? nextSlotOffset h)
            then rebuildFreeList index s
            else s
        | None => s
        end in
      Opened (snd (updateSharedState s))
  end.

(** [reset]: the file is truncated and gets a fresh header. *)
Definition reset : Eng unit :=
  modify (fun s => set_diskWrites (S (diskWrites s)) (set_file [] s)) ;;
  modify (set_freeList []) ;;
  modify (set_header newHeader) ;;
  writeHeader ;;
  updateSharedState ;;
  modify (set_headerDirty false) ;;
  modify (set_sharedStateDirty false).

Definition getStats (s : StorageEngine) : StorageStats :=
  mkStats (fileSize (header s)) (liveDataSize (header s))
    (documentCount (header s)) (Z.of_nat (List.length (freeList s))).

End Engine.

(* ================================================================== *)
(** ** More of the index manager and of the collection *)

Module Manager.
Section Manager.
Context {rt : Runtime}.

(** [clear]: both the primary index and the secondary indexes, with
    their definitions, are emptied. *)
Definition clear (m : IndexManager) : IndexManager :=
  mkIndex [] [] true (persisted m).

Definition getIndexedFields (m : IndexManager) : list string :=
  Map_keys (secondaryIndexes m).

Definition isDirty (m : IndexManager) : bool := dirty m.

Definition replacePrimaryIndex (newIndex : PrimaryIndex) (m : IndexManager)
  : IndexManager :=
  set_dirty true (set_primaryIndex newIndex m).

Section Query.
Context {S : Type}.
Variable reader : string -> DocumentLocation -> M S Document.

(** The second loop of [query]: every candidate with a location is read;
    it is kept when the indexes cover the filter or when it matches. *)
Fixpoint fetch (m : IndexManager) (filter : QueryFilter)
         (fullyCoveredByIndexes : bool) (candidateIds : list string)
  : M S (list Document) :=
  match candidateIds with
  | [] => ret []
  | id :: rest =>
      match Map_get (primaryIndex m) id with
      | None => fetch m filter fullyCoveredByIndexes rest
      | Some location =>
          doc <- reader id location ;;
          docs <- fetch m filter fullyCoveredByIndexes rest ;;
          ret (if fullyCoveredByIndexes then doc :: docs
               else if matchesFilter doc filter then doc :: docs
               else docs)
      end
  end.

Definition query (m : IndexManager) (filter : QueryFilter) : M S (list Document) :=
  match Index.scan_filter (secondaryIndexes m) filter None true with
  | NoMatch => ret []
  | Candidates None _ => fetch m filter false (Map_keys (primaryIndex m))
  | Candidates (Some candidateIds) fullyCoveredByIndexes =>
      fetch m filter fullyCoveredByIndexes candidateIds
  end.
End Query.
End Manager.
End Manager.

(** The result of the collection's [getStats]. *)
Record CollectionStats := mkCollectionStats {
  cs_documentCount : Z;
  cs_fileSize : Z;
  cs_liveDataSize : Z;
  cs_freeSlots : Z;
  cs_indexes : list string;
}.

Module Documents.
Section Documents.
Context {rt : Runtime}.

Definition cacheClear : Coll unit :=
  modify (fun s =>
    match cache s with
    | None => s
    | Some _ => set_cache (Some []) s
    end).

Definition find (filter : QueryFilter) : Coll (list Document) :=
  m <- gets indexManager ;;
  Manager.query readWithCache m filter.

(** [results[0] ?? null]. *)
Definition findOne (filter : QueryFilter) : Coll (option Document) :=
  results <- find filter ;;
  ret (match results with
       | VNull :: _ | VUndefined :: _ | [] => None
       | doc :: _ => Some doc
       end).

(** [getAll]: a document that [get] finds is pushed when it is truthy. *)
Definition getAll : Coll (list Document) :=
  m <- gets indexManager ;;
  found <- for_each Collection.get (Index.getAllIds m) ;;
  ret (flat_map (fun doc =>
         match doc with
         | Some d => if truthy_value d then [d] else []
         | None => []
         end) found).

Definition keys : Coll (list string) :=
  m <- gets indexManager ;;
  ret (Index.getAllIds m).

Definition getIndexes : Coll (list string) :=
  m <- gets indexManager ;;
  ret (Manager.getIndexedFields m).

Definition persistIndex : Coll unit :=
  m <- gets indexManager ;;
  when (Manager.isDirty m) (onIndex Index.persist).

Definition getStats : Coll CollectionStats :=
  s <- gets storage ;;
  m <- gets indexManager ;;
  let storageStats := Engine.getStats s in
  ret (mkCollectionStats (stats_documentCount storageStats)
         (stats_fileSize storageStats) (stats_liveDataSize storageStats)
         (stats_freeSlots storageStats) (Manager.getIndexedFields m)).

(** [clear]: every indexed slot is deleted inside one storage batch, then
    the indexes and the cache are emptied. *)
Definition clear : Coll unit :=
  m <- gets indexManager ;;
  let ids := Index.getAllIds m in
  match ids with
  | [] => ret tt
  | _ =>
      onStorage batch_enter ;;
      try_finally
        (_ <- for_each (fun id =>
                m <- gets indexManager ;;
                match Index.getLocation m id with
                | None => ret tt
                | Some location => onStorage (deleteUnlocked location)
                end) ids ;;
         ret tt)
        (onStorage batch_exit) ;;
      onIndex Manager.clear ;;
      cacheClear
  end.

(** [reset]: the blob files are deleted, the data file is truncated, the
    indexes are emptied and written out, the cache is emptied. *)
Definition reset : Coll unit :=
  onStorage (modify (fun s =>
    set_diskWrites (diskWrites s + List.length (blobFiles s))%nat
      (set_blobFiles [] s))) ;;
  onStorage Engine.reset ;;
  onIndex Manager.clear ;;
  onIndex Index.persist ;;
  cacheClear.

End Documents.
End Documents.

(** The calls of the public methods of a collection. *)
Inductive Call :=
| CallOp (op : Op)
| CallHas (id : string)
| CallFind (filter : QueryFilter)
| CallFindOne (filter : QueryFilter)
| CallFindIds (filter : QueryFilter)
| CallCount (filter : option QueryFilter)
| CallGetAll
| CallKeys
| CallCompact
| CallPersistIndex
| CallClear
| CallReset.

Section Calls.
Context {rt : Runtime}.

(** The state a call leaves, whether it returned or threw. *)
Definition run_call (call : Call) (c : Collection) : Collection :=
  match call with
  | CallOp op => run_op op c
  | CallHas id => snd (Collection.has id c)
  | CallFind filter => snd (Documents.find filter c)
  | CallFindOne filter => snd (Documents.findOne filter c)
  | CallFindIds filter => snd (Collection.findIds filter c)
  | CallCount filter => snd (Collection.count filter c)
  | CallGetAll => snd (Documents.getAll c)
  | CallKeys => snd (Documents.keys c)
  | CallCompact => snd (Collection.compact c)
  | CallPersistIndex => snd (Documents.persistIndex c)
  | CallClear => snd (Documents.clear c)
  | CallReset => snd (Documents.reset c)
  end.

Definition run_calls (calls : list Call) (c : Collection) : Collection :=
  fold_left (fun c call => run_call call c) calls c.
End Calls.

(* ================================================================== *)
(** ** The index file ([index-manager.ts]: [persist] and [load]) *)

Definition INDEX_HEADER_SIZE : Z := 64.
Definition INDEX_FILE_MAGIC : Z := 0x58444953.

Module IndexFile.

(** The buffer that [persist] fills, and its local [offset]. *)
Record Writer := mkWriter {
  w_buffer : Uint8Array;
  w_offset : Z;
}.

(** One write of [n] bytes at [offset], followed by [offset += n].  A
    [DataView] and [TypedArray.set] throw a RangeError when the range
    leaves the buffer. *)
Definition put (n : Z) (write : Uint8Array -> Z -> Uint8Array) : M Writer unit :=
  fun w =>
    if w_offset w + n <=? len (w_buffer w)
    then (Ok tt, mkWriter (write (w_buffer w) (w_offset w)) (w_offset w + n))
    else (Err RangeError, w).

(** The two loops of [persist] that add up the size of the file. *)
Definition primary_size (index : PrimaryIndex) (size : Z) : Z :=
  fold_left (fun size entry =>
               size + (2 + len (encodeString (fst entry)) + 8 + 4 + 4 + 4))
    index size.

Definition secondary_size (indexes : SecondaryIndex) (size : Z) : Z :=
  fold_left (fun size field =>
    let size := size + (2 + len (encodeString (fst field)) + 4) in
    fold_left (fun size entry =>
      let size := size + (4 + len (encodeString (fst entry)) + 4) in
      fold_left (fun size id => size + (2 + len (encodeString id)))
        (snd entry) size)
      (snd field) size)
    indexes size.

(** The body of the loop over the primary index. *)
Definition write_location (entry : string * DocumentLocation) : M Writer unit :=
  let idBytes := encodeString (fst entry) in
  let location := snd entry in
  put 2 (fun b o => writeUint16 b o (len idBytes)) ;;
  put (len idBytes) (fun b o => buf_set b o idBytes) ;;
  put 8 (fun b o => writeUint64 b o (loc_offset location)) ;;
  put 4 (fun b o => writeUint32 b o (loc_length location)) ;;
  put 4 (fun b o => writeUint32 b o (loc_slabSize location)) ;;
  put 4 (fun b o => writeUint32 b o (if loc_isBlob location then 1 else 0)).

Definition write_id (id : string) : M Writer unit :=
  let idBytes := encodeString id in
  put 2 (fun b o => writeUint16 b o (len idBytes)) ;;
  put (len idBytes) (fun b o => buf_set b o idBytes).

Definition write_postings (entry : string * JSSet) : M Writer unit :=
  let valueBytes := encodeString (fst entry) in
  put 4 (fun b o => writeUint32 b o (len valueBytes)) ;;
  put (len valueBytes) (fun b o => buf_set b o valueBytes) ;;
  put 4 (fun b o => writeUint32 b o (Set_size (snd entry))) ;;
  _ <- for_each write_id (snd entry) ;;
  ret tt.

(** The body of the loop over the secondary indexes. *)
Definition write_field (field : string * JSMap JSSet) : M Writer unit :=
  let fieldPathBytes := encodeString (fst field) in
  put 2 (fun b o => writeUint16 b o (len fieldPathBytes)) ;;
  put (len fieldPathBytes) (fun b o => buf_set b o fieldPathBytes) ;;
  put 4 (fun b o => writeUint32 b o (Map_size (snd field))) ;;
  _ <- for_each write_postings (snd field) ;;
  ret tt.

(** [persist]: the bytes handed to [Bun.write], or the exception. *)
Definition persist (m : IndexManager) : result Uint8Array :=
  let size := INDEX_HEADER_SIZE in
  let primaryStart := size in
  let size := primary_size (primaryIndex m) size in
  let secondaryStart := size in
  let size := secondary_size (secondaryIndexes m) size in
  fst ((put 4 (fun b o => writeUint32 b o INDEX_FILE_MAGIC) ;;
        put 4 (fun b o => writeUint32 b o FORMAT_VERSION) ;;
        put 2 (fun b o => writeUint16 b o (Map_size (secondaryIndexes m))) ;;
        put 4 (fun b o => writeUint32 b o (Map_size (primaryIndex m))) ;;
        put 4 (fun b o => writeUint32 b o primaryStart) ;;
        put 4 (fun b o => writeUint32 b o secondaryStart) ;;
        modify (fun w => mkWriter (w_buffer w) INDEX_HEADER_SIZE) ;;
        _ <- for_each write_location (primaryIndex m) ;;
        _ <- for_each write_field (secondaryIndexes m) ;;
        gets w_buffer)
         (mkWriter (new_Uint8Array size) 0)).

(** A read of [n] bytes at [offset] through a [DataView], which throws a
    RangeError when the range leaves the bytes. *)
Definition view {A} (bytes : Uint8Array) (n : Z) (read : Uint8Array -> Z -> A)
           (offset : Z) : M IndexManager A :=
  if offset + n <=? len bytes then ret (read bytes offset) else throw RangeError.

(** The loop of [load] over the primary index; the result is the offset
    after the last entry. *)
Fixpoint load_locations (bytes : Uint8Array) (count : nat) (offset : Z)
  : M IndexManager Z :=
  match count with
  | O => ret offset
  | S count' =>
      idLength <- view bytes 2 readUint16 offset ;;
      let offset := offset + 2 in
      let id := decodeString (slice bytes offset (offset + idLength)) in
      let offset := offset + idLength in
      docOffset <- view bytes 8 readUint64_Number offset ;;
      let offset := offset + 8 in
      length <- view bytes 4 readUint32 offset ;;
      let offset := offset + 4 in
      slabSize <- view bytes 4 readUint32 offset ;;
      let offset := offset + 4 in
      flags <- view bytes 4 readUint32 offset ;;
      let offset := offset + 4 in
      modify (fun m =>
        set_primaryIndex
          (Map_set (primaryIndex m) id
             (mkLocation docOffset length slabSize
                (negb (JS.and flags 1 =? 0)))) m) ;;
      load_locations bytes count' offset
  end.

(** The loop over the ids of one value: the set and the offset after it. *)
Fixpoint load_ids (bytes : Uint8Array) (count : nat) (offset : Z) (ids : JSSet)
  : M IndexManager (JSSet * Z) :=
  match count with
  | O => ret (ids, offset)
  | S count' =>
      docIdLength <- view bytes 2 readUint16 offset ;;
      let offset := offset + 2 in
      let docId := decodeString (slice bytes offset (offset + docIdLength)) in
      let offset := offset + docIdLength in
      load_ids bytes count' offset (Set_add ids docId)
  end.

(** The loop over the values of one field.  [valueMap] is the map that
    [secondaryIndexes] already holds under [fieldPath]: a [set] on it is
    seen there. *)
Fixpoint load_postings (bytes : Uint8Array) (fieldPath : string) (count : nat)
         (offset : Z) (valueMap : JSMap JSSet) : M IndexManager Z :=
  match count with
  | O => ret offset
  | S count' =>
      valueLength <- view bytes 4 readUint32 offset ;;
      let offset := offset + 4 in
      let serializedValue :=
        decodeString (slice bytes offset (offset + valueLength)) in
      let offset := offset + valueLength in
      idCount <- view bytes 4 readUint32 offset ;;
      let offset := offset + 4 in
      r <- load_ids bytes (Z.to_nat idCount) offset [] ;;
      let valueMap := Map_set valueMap serializedValue (fst r) in
      modify (fun m =>
        set_secondaryIndexes
          (Map_set (secondaryIndexes m) fieldPath valueMap) m) ;;
      load_postings bytes fieldPath count' (snd r) valueMap
  end.

(** The loop over the secondary indexes. *)
Fixpoint load_fields (bytes : Uint8Array) (count : nat) (offset : Z)
  : M IndexManager Z :=
  match count with
  | O => ret offset
  | S count' =>
      fieldPathLength <- view bytes 2 readUint16 offset ;;
      let offset := offset + 2 in
      let fieldPath :=
        decodeString (slice bytes offset (offset + fieldPathLength)) in
      let offset := offset + fieldPathLength in
      entryCount <- view bytes 4 readUint32 offset ;;
      let offset := offset + 4 in
      modify (fun m =>
        set_secondaryIndexes (Map_set (secondaryIndexes m) fieldPath []) m) ;;
      offset <- load_postings bytes fieldPath (Z.to_nat entryCount) offset [] ;;
      load_fields bytes count' offset
  end.

(** [load] on the index file, if there is one: what it throws, and the
    index manager it leaves. *)
Definition load (file : option Uint8Array) (m : IndexManager)
  : opened unit * IndexManager :=
  match file with
  | None => (Opened tt, m)
  | Some bytes =>
      if len bytes <? INDEX_HEADER_SIZE then (Refused IndexCorruptedError, m)
      else
        let magic := readUint32 bytes 0 in
        if negb (magic =? INDEX_FILE_MAGIC)
        then (Refused (InvalidFileFormatError (InvalidMagic magic)), m)
        else
          let version := readUint32 bytes 4 in
          if negb (version =? FORMAT_VERSION)
          then (Refused (InvalidFileFormatError (UnsupportedVersion version)), m)
          else
            let secondaryIndexCount := readUint16 bytes 8 in
            let primaryIndexCount := readUint32 bytes 10 in
            let primaryIndexOffset := readUint32 bytes 14 in
            let secondaryIndexOffset := readUint32 bytes 18 in
            match (_ <- load_locations bytes (Z.to_nat primaryIndexCount)
                          primaryIndexOffset ;;
                   _ <- load_fields bytes (Z.to_nat secondaryIndexCount)
                          secondaryIndexOffset ;;
                   modify (set_dirty false)) m with
            | (Ok _, m') => (Opened tt, m')
            | (Err _, m') => (Refused ViewOutOfBounds, m')
            end
  end.
End IndexFile.

(* ================================================================== *)
(** ** Opening a collection ([collection.ts]: constructor and
       [ensureInitialized]) *)

(** [new Collection(...)] followed by [ensureInitialized] on the files of
    the collection: the data file and the index file, if they exist, and
    the blob directory.  The index is loaded first, then the storage engine
    is initialised with the primary index. *)
Definition openCollection (dataFile indexFile : option Uint8Array)
           (blobs : JSMap Uint8Array) (cacheSize blobThreshold : Z)
  : opened Collection :=
  let cacheSize := Z.max 0 cacheSize in
  let cache := if cacheSize >? 0 then Some [] else None in
  match IndexFile.load indexFile (mkIndex [] [] false None) with
  | (Refused e, _) => Refused e
  | (Opened _, m) =>
      match dataFile with
      | Some f =>
          match Engine.init f blobs blobThreshold (Some (Index.getPrimaryIndex m)) with
          | Refused e => Refused e
          | Opened s => Opened (mkCollection s m cacheSize cache)
          end
      | None =>
          Opened (mkCollection
                    (snd ((createNewFile ;; updateSharedState)
                            (mkStorage [] newHeader [] 0 false false blobThreshold
                               blobs (mkShared 0 0 0) 0 0)))
                    m cacheSize cache)
      end
  end.

(* ================================================================== *)
(** * Notions used by the statements *)

(** Every key of the filter is an indexed field path. *)
Definition all_indexed (m : IndexManager) (filter : QueryFilter) : bool :=
  forallb (fun entry => Map_has (secondaryIndexes m) (fst entry)) filter.

(** The 256 indices of the lookup table. *)
Definition byte_indices : list Z := map Z.of_nat (seq 0 256).

(** The step of the checksum on the unsigned register. *)
Definition ustep (u : Z) (b : byte) : Z :=
  Z.lxor (table_at (Z.land (Z.lxor u (Z_of_byte b)) 255)) (Z.shiftr u 8).

(** The positions of a slot whose damage a read detects: the [dataLength]
    word, the checksum word, the payload, and the first byte of the flags
    when the new value has the ACTIVE bit clear. *)
Definition checked_position (offset length p : Z) (v : byte) : Prop :=
  offset + 4 <= p < offset + 8 \/
  offset + 12 <= p < offset + SLOT_HEADER_SIZE + length \/
  (p = offset /\ Z.odd (Z_of_byte v) = false).

(** The four header words of a slot buffer. *)
Definition slot_header (flags : Z) (data : Uint8Array) (slabSize : Z) : Uint8Array :=
  le_bytes 4 (JS.ToUint32 flags) ++ le_bytes 4 (JS.ToUint32 (len data))
    ++ le_bytes 4 (JS.ToUint32 slabSize) ++ le_bytes 4 (JS.ToUint32 (crc32 data)).

(** What a compaction lays out: for every document, in index order, its
    id, its blob flag and the payload that was read. *)
Definition packed_item : Type := string * bool * Uint8Array.

(** The slab, the slot buffer, the locations, the end offset and the live
    bytes of the packed documents. *)
Definition item_slab (it : packed_item) : Z := selectSlabSize (len (snd it)).

Definition item_chunk (it : packed_item) : Uint8Array :=
  slotBuffer (slot_flags (snd (fst it))) (snd it) (item_slab it).

Fixpoint item_locations (items : list packed_item) (offset : Z) : PrimaryIndex :=
  match items with
  | [] => []
  | it :: rest =>
      (fst (fst it), mkLocation offset (len (snd it)) (item_slab it) (snd (fst it)))
        :: item_locations rest (offset + item_slab it)
  end.

Fixpoint items_end (items : list packed_item) (offset : Z) : Z :=
  match items with
  | [] => offset
  | it :: rest => items_end rest (offset + item_slab it)
  end.

Fixpoint items_live `{rt : Runtime} (items : list packed_item) (total : Z) : option Z :=
  match items with
  | [] => Some total
  | it :: rest =>
      if snd (fst it) then
        match JSON_parse_ref (snd it) with
        | Some blobRef => items_live rest (total + ref_size blobRef)
        | None => None
        end
      else items_live rest (total + len (snd it))
  end.

(** [updateLocation] for every entry, in order. *)
Definition set_all (entries : PrimaryIndex) (m : PrimaryIndex) : PrimaryIndex :=
  fold_left (fun m e => Map_set m (fst e) (snd e)) entries m.

(** [wp c Q E s]: run from [s], [c] either returns [a] in a state with
    [Q a], or throws [e] in a state with [E e]. *)
Definition wp {S A : Type} (c : M S A) (Q : A -> S -> Prop)
           (E : error -> S -> Prop) (s : S) : Prop :=
  match c s with
  | (Ok a, s') => Q a s'
  | (Err e, s') => E e s'
  end.

(** The [slabSize] word of the slot at an offset. *)
Definition slabField (f : Uint8Array) (offset : Z) : Z :=
  le_value (pread f (offset + 8) 4).

(** The slots of a data file, in file order: offset and slab size. *)
Definition Tiles : Type := list (Z * Z).

(** The tiles [(offset, slabSize)] follow one another from [start] to
    [stop]. *)
Fixpoint chain (T : Tiles) (start stop : Z) : Prop :=
  match T with
  | [] => start = stop
  | (o, sz) :: T' =>
      o = start /\ SLOT_HEADER_SIZE <= sz /\ chain T' (start + sz) stop
  end.

(** The invariant of an engine, relative to the list of the slots that
    were ever appended: the header points behind the last of them, the
    file holds them all, the free list names only slots among them, and a
    slot whose size fits in 32 bits has it in its header on disk. *)
Record Inv (T : Tiles) (s : StorageEngine) : Prop := {
  inv_chain : chain T DATA_HEADER_SIZE (nextSlotOffset (header s));
  inv_size : fileSize (header s) = nextSlotOffset (header s);
  inv_len : nextSlotOffset (header s) <= len (file s);
  inv_free : forall x, In x (freeList s) -> In (free_offset x, free_slabSize x) T;
  inv_disk : forall o sz, In (o, sz) T -> sz < 2 ^ 32 -> slabField (file s) o = sz;
}.

(** A slot whose slab size fits the 32-bit word of the slot header. *)
Definition small (t : Z * Z) : Prop := snd t < 2 ^ 32.

(** [T'] extends [T]; under the condition [B] the new slots are small. *)
Definition grows (B : Prop) (T T' : Tiles) : Prop :=
  exists N, T' = T ++ N /\ (B -> Forall small N).

(** The file did not shrink and the blob threshold is the same. *)
Definition evolves (s s' : StorageEngine) : Prop :=
  len (file s) <= len (file s') /\ blobThreshold s' = blobThreshold s.

(** A step that touches nothing but counters, flags and the first 64
    bytes of the file. *)
Definition meta_step (s s' : StorageEngine) : Prop :=
  freeList s' = freeList s /\ blobFiles s' = blobFiles s /\
  blobThreshold s' = blobThreshold s /\
  nextSlotOffset (header s') = nextSlotOffset (header s) /\
  fileSize (header s') = fileSize (header s) /\
  len (file s') = len (file s) /\
  forall o n, DATA_HEADER_SIZE <= o -> 0 <= n ->
              pread (file s') o n = pread (file s) o n.

(** What [markSlotFree] leaves: the first four bytes of the slot are
    rewritten with the ACTIVE bit clear, nothing else changes. *)
Definition slot_freed (s s' : StorageEngine) (o : Z) : Prop :=
  header s' = header s /\ freeList s' = freeList s /\
  blobFiles s' = blobFiles s /\ blobThreshold s' = blobThreshold s /\
  len (file s') = len (file s) /\
  (forall o' n, 0 <= o' -> 0 <= n -> o' + n <= o \/ o + 4 <= o' ->
                pread (file s') o' n = pread (file s) o' n) /\
  JS.truthy (JS.and (le_value (pread (file s') o 4)) SlotFlags.ACTIVE) = false.

(** What the sequence allocate, write, advance leaves. *)
Record placed `{rt : Runtime} (B : Prop) (T : Tiles) (s : StorageEngine)
       (d : Uint8Array) (a : SlabAllocation) (T' : Tiles) (s' : StorageEngine)
  : Prop := {
  pl_alloc : fst (allocateSlot (len d) s) = Ok a;
  pl_grows : grows B T T';
  pl_inv : Inv T' s';
  pl_tile : In (alloc_offset a, alloc_slabSize a) T';
  pl_slot : len d < 2 ^ 32 ->
            readSlot_in (file s') (alloc_offset a) (len d) = Ok d;
  pl_blobs : blobFiles s' = blobFiles s;
  pl_thr : blobThreshold s' = blobThreshold s;
  pl_len : len (file s) <= len (file s');
  pl_frame : forall o sz n, In (o, sz) T -> o <> alloc_offset a -> 0 <= n <= sz ->
                            pread (file s') o n = pread (file s) o n;
  pl_free : forall x, In x (freeList s) ->
                      free_slabSize x < selectSlabSize (len d) ->
                      In x (freeList s');
  pl_size : selectSlabSize (len d) <= alloc_slabSize a;
  pl_next : nextSlotOffset (header s) <= nextSlotOffset (header s');
}.

(** What a write into the slot of a location leaves. *)
Record rewritten (T : Tiles) (s : StorageEngine) (o sz : Z) (d : Uint8Array)
       (s' : StorageEngine) : Prop := {
  rw_inv : Inv T s';
  rw_slot : len d < 2 ^ 32 -> readSlot_in (file s') o (len d) = Ok d;
  rw_header : header s' = header s;
  rw_free : freeList s' = freeList s;
  rw_blobs : blobFiles s' = blobFiles s;
  rw_thr : blobThreshold s' = blobThreshold s;
  rw_len : len (file s') = len (file s);
  rw_frame : forall o' n, 0 <= o' -> 0 <= n -> o' + n <= o \/ o + sz <= o' ->
                          pread (file s') o' n = pread (file s) o' n;
}.

(** The file after a storage operation: the slots [T'] extend [T], the
    layout holds, the file did not shrink and the end of the slots did not
    move back. *)
Record moved (B : Prop) (T : Tiles) (s : StorageEngine)
       (T' : Tiles) (s' : StorageEngine) : Prop := {
  mv_grows : grows B T T';
  mv_inv : Inv T' s';
  mv_thr : blobThreshold s' = blobThreshold s;
  mv_len : len (file s) <= len (file s');
  mv_next : nextSlotOffset (header s) <= nextSlotOffset (header s');
}.

(** The payload of the slot of a document: its JSON bytes, or the JSON
    bytes of the reference to its blob file. *)
Definition slot_payload `{rt : Runtime} (thr : Z) (id : string) (data : Document)
  : Uint8Array :=
  let jsonBytes := encodeDocument data in
  if len jsonBytes >? thr then
    encodeString (JSON_stringify_ref
      {| ref_path := blob_name id; ref_size := len jsonBytes;
         ref_checksum := crc32 jsonBytes |})
  else jsonBytes.

(** The location [loc] holds the document [data] of [id]. *)
Record holds `{rt : Runtime} (s : StorageEngine) (loc : DocumentLocation)
       (id : string) (data : Document) : Prop := {
  h_len : loc_length loc = len (slot_payload (blobThreshold s) id data);
  h_blob : loc_isBlob loc = (len (encodeDocument data) >? blobThreshold s);
  h_slot : readSlot_in (file s) (loc_offset loc) (loc_length loc)
           = Ok (slot_payload (blobThreshold s) id data);
  h_file : loc_isBlob loc = true ->
           Map_get (blobFiles s) (blob_name id) = Some (encodeDocument data);
}.

(** [JSON.parse] gives the document back from its encoding (a document
    with a stable JSON encoding), and the reference back from its own. *)
Definition round_trips `{rt : Runtime} (thr : Z) (id : string) (data : Document)
  : Prop :=
  JSON_parse (encodeDocument data) = Some data /\
  ((len (encodeDocument data) >? thr) = true ->
   JSON_parse_ref (slot_payload thr id data)
   = Some {| ref_path := blob_name id; ref_size := len (encodeDocument data);
             ref_checksum := crc32 (encodeDocument data) |}).

(** The slot of a document leaves room for a 32-bit size word: the
    encoding of a string is far below this bound. *)
Definition payload_small `{rt : Runtime} (thr : Z) (id : string) (data : Document)
  : Prop :=
  len (slot_payload thr id data) + 4112 <= 2 ^ 32.

(** The outcome of storing [data] for [id] at [loc]. *)
Record written `{rt : Runtime} (B : Prop) (T : Tiles) (s : StorageEngine)
       (id : string) (data : Document) (loc : DocumentLocation)
       (T' : Tiles) (s' : StorageEngine) : Prop := {
  wr_moved : moved B T s T' s';
  wr_tile : In (loc_offset loc, loc_slabSize loc) T';
  wr_holds : len (slot_payload (blobThreshold s) id data) < 2 ^ 32 ->
             holds s' loc id data;
}.

(** The file holds its header. *)
Definition roomy (s : StorageEngine) : Prop := DATA_HEADER_SIZE <= len (file s).

(** An operation on the header, the flags and the counters only. *)
Definition metadata_only (c : Eng unit) : Prop :=
  forall s Q E, roomy s -> (forall s', meta_step s s' -> Q tt s') -> wp c Q E s.

(** What freeing the slot [(o, sz)] and then placing [d] leaves. *)
Record relocated `{rt : Runtime} (B : Prop) (T : Tiles) (s : StorageEngine)
       (o sz : Z) (d : Uint8Array) (a : SlabAllocation)
       (T' : Tiles) (s' : StorageEngine) : Prop := {
  rl_alloc : fst (allocateSlot (len d)
                    (set_freeList (freeList s ++ [mkFreeSlot o sz]) s)) = Ok a;
  rl_moved : moved B T s T' s';
  rl_tile : In (alloc_offset a, alloc_slabSize a) T';
  rl_size : selectSlabSize (len d) <= alloc_slabSize a;
  rl_slot : len d < 2 ^ 32 ->
            readSlot_in (file s') (alloc_offset a) (len d) = Ok d;
  rl_blobs : blobFiles s' = blobFiles s;
  rl_old : sz < selectSlabSize (len d) ->
           In (mkFreeSlot o sz) (freeList s') /\
           JS.truthy (JS.and (le_value (pread (file s') o 4)) SlotFlags.ACTIVE)
           = false;
}.

(** What [deleteUnlocked] leaves of the slot of [loc]. *)
Record deleted (T : Tiles) (s : StorageEngine) (loc : DocumentLocation)
       (s' : StorageEngine) : Prop := {
  dl_inv : Inv T s';
  dl_thr : blobThreshold s' = blobThreshold s;
  dl_next : nextSlotOffset (header s') = nextSlotOffset (header s);
  dl_size : fileSize (header s') = fileSize (header s);
  dl_len : len (file s') = len (file s);
  dl_free : freeList s' = freeList s ++ [mkFreeSlot (loc_offset loc) (loc_slabSize loc)];
  dl_bit : JS.truthy (JS.and (le_value (pread (file s') (loc_offset loc) 4))
                        SlotFlags.ACTIVE) = false;
}.

(** The slot of a location, as a tile. *)
Definition tile_of (loc : DocumentLocation) : Z * Z :=
  (loc_offset loc, loc_slabSize loc).

(** The cache has one entry for a key. *)
Definition cache_ok (c : Collection) : Prop :=
  match cache c with
  | Some entries => NoDup (Map_keys entries)
  | None => True
  end.

(** The layout of the data file, the slots of the indexed locations, and
    a cache with one entry for a key. *)
Record CInv (T : Tiles) (c : Collection) : Prop := {
  ci_inv : Inv T (storage c);
  ci_index : Forall (fun e => In (tile_of (snd e)) T)
               (primaryIndex (indexManager c));
  ci_cache : cache_ok c;
}.

(** After a mutation of [id]: the index has a location that holds
    [data], and the cache has [data] for [id] or nothing. *)
Record keeps `{rt : Runtime} (c : Collection) (id : string) (data : Document)
  : Prop := {
  k_loc : exists loc,
      Map_get (primaryIndex (indexManager c)) id = Some loc /\
      (len (slot_payload (blobThreshold (storage c)) id data) < 2 ^ 32 ->
       holds (storage c) loc id data);
  k_cache : match cache c with
            | Some entries =>
                Map_get entries id = None \/ Map_get entries id = Some data
            | None => True
            end;
}.

(** One step of the collection: the file moved on and the collection is
    well formed for the slots [T']. *)
Definition cstep (B : Prop) (T : Tiles) (c c' : Collection) : Prop :=
  exists T', moved B T (storage c) T' (storage c') /\ CInv T' c'.

(** The bound [payload_small] on the documents of an operation. *)
Definition payload_smallb `{rt : Runtime} (thr : Z) (id : string) (data : Document)
  : bool :=
  len (slot_payload thr id data) + 4112 <=? 2 ^ 32.

(** The same bound for the operations of a batch and of a sequence. *)
Definition batch_op_small `{rt : Runtime} (thr : Z) (op : BatchOp) : bool :=
  match op with
  | BInsert id data | BUpdate id data | BUpsert id data => payload_smallb thr id data
  | BDelete _ => true
  end.

Definition op_small `{rt : Runtime} (thr : Z) (op : Op) : bool :=
  match op with
  | OpInsert id data | OpUpdate id data | OpUpsert id data =>
      payload_smallb thr id data
  | OpBatch ops => forallb (batch_op_small thr) ops
  | OpInsertMany items =>
      forallb (fun item => payload_smallb thr (fst item) (snd item)) items
  | OpDelete _ | OpGet _ | OpCreateIndex _ => true
  end.

(** An operation keeps the collection well formed, whether it returns or
    throws. *)
Definition step_spec {A} (B : Prop) (T : Tiles) (op : Coll A) (c : Collection)
  : Prop :=
  wp op (fun _ c' => cstep B T c c') (fun _ c' => cstep B T c c') c.

(** The two errors of a lookup by id. *)
Definition is_lookup_error (e : error) : bool :=
  match e with
  | DuplicateIdError _ | DocumentNotFoundError _ => true
  | _ => false
  end.

(** An operation that raises neither of them, whatever the state. *)
Definition quiet {S A} (c : M S A) : Prop :=
  forall s, match fst (c s) with
            | Err e => is_lookup_error e = false
            | Ok _ => True
            end.

(** The collection is well formed for some layout of the data file. *)
Definition WellFormed (c : Collection) : Prop := exists T, CInv T c.

(** The callers of [acquire], in call order. *)
Fixpoint arrivals (calls : list AsyncMutex.call) : list nat :=
  match calls with
  | [] => []
  | AsyncMutex.Acquire caller :: rest => caller :: arrivals rest
  | AsyncMutex.Release :: rest => arrivals rest
  end.

(** The number of calls of the release function. *)
Fixpoint releases (calls : list AsyncMutex.call) : nat :=
  match calls with
  | [] => O
  | AsyncMutex.Acquire _ :: rest => releases rest
  | AsyncMutex.Release :: rest => S (releases rest)
  end.

(** The release function is called by the holder only: at each call of it
    the lock is taken. *)
Fixpoint well_used (calls : list AsyncMutex.call) (m : AsyncMutex.state) : bool :=
  match calls with
  | [] => true
  | AsyncMutex.Acquire caller :: rest => well_used rest (AsyncMutex.acquire caller m)
  | AsyncMutex.Release :: rest =>
      AsyncMutex.locked m && well_used rest (AsyncMutex.release m)
  end.

(** The state of a mutex after the arrivals [acc] and [rel] releases. *)
Definition mutex_inv (m : AsyncMutex.state) (acc : list nat) (rel : nat) : Prop :=
  (AsyncMutex.resolved m ++ AsyncMutex.queue m = acc) /\
  (AsyncMutex.locked m = false -> AsyncMutex.queue m = []) /\
  List.length (AsyncMutex.resolved m)
  = (rel + (if AsyncMutex.locked m then 1 else 0))%nat.

(** The result of an operation is no lookup error. *)
Definition no_lookup_error {S A} (r : result A * S) : Prop :=
  match fst r with
  | Err e => is_lookup_error e = false
  | Ok _ => True
  end.

(** The counters of a header are numbers that a 64-bit word and a
    JavaScript number both hold exactly. *)
Definition header_in_range (h : DataFileHeader) : Prop :=
  magic h = DATA_FILE_MAGIC /\ version h = FORMAT_VERSION /\
  0 <= fileSize h < 2 ^ 53 /\ 0 <= liveDataSize h < 2 ^ 53 /\
  0 <= documentCount h < 2 ^ 53 /\ 0 <= nextSlotOffset h < 2 ^ 53.

(** The ACTIVE bit of the slot at an offset, as the file has it. *)
Definition slot_active (f : Uint8Array) (offset : Z) : bool :=
  JS.truthy (JS.and (le_value (pread f offset 4)) SlotFlags.ACTIVE).

(** A slot that [rebuildFreeList] takes for free: its ACTIVE bit is clear
    or no indexed location starts at its offset. *)
Definition unused (f : Uint8Array) (occupiedOffsets : list Z) (t : Z * Z) : bool :=
  negb (slot_active f (fst t)) || negb (existsb (Z.eqb (fst t)) occupiedOffsets).

(** The free-list entry of a slot. *)
Definition free_slot_of (t : Z * Z) : FreeSlot := mkFreeSlot (fst t) (snd t).

(** The type marker that [serializeIndexValue] puts first. *)
Definition index_marker (v : value) : nat :=
  match v with
  | VNull | VUndefined => 0
  | VBool _ => 1
  | VNum _ => 2
  | VStr _ => 3
  | VArr _ | VObj _ => 4
  end.

(** The values whose key is the value itself, written out: [null],
    [undefined], the booleans and the strings. *)
Definition written_out (v : value) : bool :=
  match v with
  | VNull | VUndefined | VBool _ | VStr _ => true
  | _ => false
  end.

(** The cache holds no more documents than [cacheSize], and there is a
    cache exactly when [cacheSize] is positive. *)
Definition cache_bounded (n : Z) (c : Collection) : Prop :=
  cacheSize c = Z.max 0 n /\
  match cache c with
  | Some entries => Map_size entries <= cacheSize c /\ 0 < n
  | None => n <= 0
  end.

(** An operation keeps a property of the state, whether it returns or
    throws. *)
Definition preserves {S A} (P : S -> Prop) (c : M S A) : Prop :=
  forall s, P s -> P (snd (c s)).

(** The free list names no offset twice, and only offsets of [A]. *)
Definition tidy (A : list Z) (s : StorageEngine) : Prop :=
  NoDup (map free_offset (freeList s)) /\
  forall x, In x (freeList s) -> In (free_offset x) A.

(** A step of the engine on behalf of the document [id], allowed to use
    the slots at the offsets [A]: the layout holds for the slots [T'] that
    extend [T], the free list stays within [A], every slot of [T] outside
    [A] keeps its bytes, and every blob file but the one of [id] is as it
    was. *)
Record shift (T : Tiles) (id : string) (A : list Z) (s : StorageEngine)
       (T' : Tiles) (s' : StorageEngine) : Prop := {
  sh_moved : moved True T s T' s';
  sh_tidy : tidy A s';
  sh_file : forall o sz n, In (o, sz) T -> ~ In o A -> 0 <= n <= sz ->
                           pread (file s') o n = pread (file s) o n;
  sh_blobs : forall name, name <> blob_name id ->
                          Map_get (blobFiles s') name = Map_get (blobFiles s) name;
}.

(** The outcome of storing [data] for [id]: the step, the slot of the new
    location and where it comes from (an offset of [A], or the end of the
    slots), and the document it holds. *)
Record stored `{rt : Runtime} (T : Tiles) (id : string) (data : Document)
       (A : list Z) (s : StorageEngine) (loc : DocumentLocation)
       (T' : Tiles) (s' : StorageEngine) : Prop := {
  so_shift : shift T id A s T' s';
  so_tile : In (tile_of loc) T';
  so_holds : holds s' loc id data;
  so_fits : loc_length loc + SLOT_HEADER_SIZE <= loc_slabSize loc;
  so_where : In (loc_offset loc) A \/ forall sz, ~ In (loc_offset loc, sz) T;
  so_taken : ~ In (loc_offset loc) (map free_offset (freeList s'));
}.

(** The sequence allocate, write, advance, as one operation. *)
Definition place (d : Uint8Array) (isBlob : bool) : Eng SlabAllocation :=
  allocation <- allocateSlot (len d) ;;
  writeSlot (alloc_offset allocation) d (alloc_slabSize allocation) isBlob ;;
  advance allocation ;;
  ret allocation.

(** The documents of a collection, in the order of their first insertion. *)
Definition Docs : Type := JSMap Document.

(** The cache has only documents of [d], under their ids. *)
Definition cache_agrees (d : Docs) (c : Collection) : Prop :=
  match cache c with
  | Some entries => forall id v, Map_get entries id = Some v -> Map_get d id = Some v
  | None => True
  end.

(** A document of an operation: it is read back from its encoding, and
    its slot leaves room for a 32-bit size word. *)
Definition doc_ok `{rt : Runtime} (thr : Z) (id : string) (data : Document) : Prop :=
  round_trips thr id data /\ payload_small thr id data.

(** The data file and the index of [c] hold the documents [d]: the index
    has the ids of [d] in their order, the location of an id holds its
    document in a slot of its own that is not on the free list, and the
    documents are read back from their encodings and leave room for the
    size word of their slots. *)
Record Laid `{rt : Runtime} (T : Tiles) (d : Docs) (c : Collection) : Prop := {
  la_cinv : CInv T c;
  la_free : NoDup (map free_offset (freeList (storage c)));
  la_keys : Map_keys (primaryIndex (indexManager c)) = Map_keys d;
  la_nodup : NoDup (Map_keys d);
  la_holds : forall id loc,
      Map_get (primaryIndex (indexManager c)) id = Some loc ->
      exists data, Map_get d id = Some data /\
                   holds (storage c) loc id data /\
                   loc_length loc + SLOT_HEADER_SIZE <= loc_slabSize loc;
  la_apart : forall id1 id2 loc1 loc2,
      id1 <> id2 ->
      Map_get (primaryIndex (indexManager c)) id1 = Some loc1 ->
      Map_get (primaryIndex (indexManager c)) id2 = Some loc2 ->
      loc_offset loc1 <> loc_offset loc2;
  la_used : forall id loc,
      Map_get (primaryIndex (indexManager c)) id = Some loc ->
      ~ In (loc_offset loc) (map free_offset (freeList (storage c)));
  la_ok : forall id data,
      Map_get d id = Some data ->
      doc_ok (blobThreshold (storage c)) id data;
  la_small : Forall small T;
}.

(** The collection [c] stores the documents [d]. *)
Definition Full `{rt : Runtime} (T : Tiles) (d : Docs) (c : Collection) : Prop :=
  Laid T d c /\ cache_agrees d c.

(** What an operation of a batch makes of the documents; [None] when it
    throws ([insert] of an id that is there, [update] of one that is not). *)
Definition apply_batch_op (op : BatchOp) (d : Docs) : option Docs :=
  match op with
  | BInsert id data => if Map_has d id then None else Some (Map_set d id data)
  | BUpdate id data => if Map_has d id then Some (Map_set d id data) else None
  | BUpsert id data => Some (Map_set d id data)
  | BDelete id => Some (Map_delete d id)
  end.

(** A batch stops at the first operation that throws and keeps what the
    operations before it did. *)
Fixpoint apply_batch (ops : list BatchOp) (d : Docs) : Docs :=
  match ops with
  | [] => d
  | op :: rest =>
      match apply_batch_op op d with
      | Some d' => apply_batch rest d'
      | None => d
      end
  end.

(** What an operation makes of the documents.  [insertMany] inserts
    nothing when one of its ids is there, and for an id that it has twice
    the later document. *)
Definition apply_op (op : Op) (d : Docs) : Docs :=
  match op with
  | OpInsert id data => if Map_has d id then d else Map_set d id data
  | OpUpdate id data => if Map_has d id then Map_set d id data else d
  | OpUpsert id data => Map_set d id data
  | OpDelete id => Map_delete d id
  | OpBatch ops => apply_batch ops d
  | OpInsertMany items =>
      if existsb (fun item => Map_has d (fst item)) items then d
      else fold_left (fun d item => Map_set d (fst item) (snd item)) items d
  | OpGet _ | OpCreateIndex _ => d
  end.

(** The documents after a sequence of operations on an empty collection. *)
Definition contents (ops : list Op) : Docs :=
  fold_left (fun d op => apply_op op d) ops [].

(** The documents of the operations are read back from their encodings
    and are below the 4 GiB of a slot. *)
Definition batch_op_ok `{rt : Runtime} (thr : Z) (op : BatchOp) : Prop :=
  match op with
  | BInsert id data | BUpdate id data | BUpsert id data => doc_ok thr id data
  | BDelete _ => True
  end.

Definition op_ok `{rt : Runtime} (thr : Z) (op : Op) : Prop :=
  match op with
  | OpInsert id data | OpUpdate id data | OpUpsert id data => doc_ok thr id data
  | OpBatch ops => Forall (batch_op_ok thr) ops
  | OpInsertMany items => Forall (fun item => doc_ok thr (fst item) (snd item)) items
  | OpDelete _ | OpGet _ | OpCreateIndex _ => True
  end.

(** The collection stores [d], for some layout of its file, and has the
    blob threshold [thr]. *)
Definition stores `{rt : Runtime} (thr : Z) (d : Docs) (c : Collection) : Prop :=
  (exists T, Full T d c) /\ blobThreshold (storage c) = thr.

(** An item of [insertMany] with the location [writeMany] gave it. *)
Definition Written : Type := string * Document * DocumentLocation.

Definition written_id (p : Written) : string := fst (fst p).
Definition written_data (p : Written) : Document := snd (fst p).
Definition written_loc (p : Written) : DocumentLocation := snd p.

(** The slots of the written items, in the order of the items: each is a
    slot of the layout, off the free list, apart from the indexed slots and
    from the slots of the later items, and holds its document unless a
    later item has the same id. *)
Fixpoint slots_ok `{rt : Runtime} (T : Tiles) (s : StorageEngine)
         (index : PrimaryIndex) (pend : list Written) : Prop :=
  match pend with
  | [] => True
  | p :: rest =>
      In (tile_of (written_loc p)) T /\
      loc_length (written_loc p) + SLOT_HEADER_SIZE <= loc_slabSize (written_loc p) /\
      ~ In (loc_offset (written_loc p)) (map free_offset (freeList s)) /\
      (forall id loc, Map_get index id = Some loc ->
                      loc_offset loc <> loc_offset (written_loc p)) /\
      ~ In (loc_offset (written_loc p))
           (map (fun q => loc_offset (written_loc q)) rest) /\
      doc_ok (blobThreshold s) (written_id p) (written_data p) /\
      (~ In (written_id p) (map written_id rest) ->
       holds s (written_loc p) (written_id p) (written_data p)) /\
      slots_ok T s index rest
  end.

(** The collection stores [d], and the items [pend] are written and
    wait for the index: an indexed document whose id is among them need
    not be held by its slot any more. *)
Record Pending `{rt : Runtime} (T : Tiles) (d : Docs) (c : Collection)
       (pend : list Written) : Prop := {
  pe_cinv : CInv T c;
  pe_free : NoDup (map free_offset (freeList (storage c)));
  pe_keys : Map_keys (primaryIndex (indexManager c)) = Map_keys d;
  pe_nodup : NoDup (Map_keys d);
  pe_docs : forall id loc,
      Map_get (primaryIndex (indexManager c)) id = Some loc ->
      exists data, Map_get d id = Some data /\
                   loc_length loc + SLOT_HEADER_SIZE <= loc_slabSize loc /\
                   (~ In id (map written_id pend) ->
                    holds (storage c) loc id data);
  pe_apart : forall id1 id2 loc1 loc2,
      id1 <> id2 ->
      Map_get (primaryIndex (indexManager c)) id1 = Some loc1 ->
      Map_get (primaryIndex (indexManager c)) id2 = Some loc2 ->
      loc_offset loc1 <> loc_offset loc2;
  pe_used : forall id loc,
      Map_get (primaryIndex (indexManager c)) id = Some loc ->
      ~ In (loc_offset loc) (map free_offset (freeList (storage c)));
  pe_ok : forall id data,
      Map_get d id = Some data ->
      doc_ok (blobThreshold (storage c)) id data;
  pe_slots : slots_ok T (storage c) (primaryIndex (indexManager c)) pend;
  pe_small : Forall small T;
}.

(** The reference that the slot of a blob document [id] holds when the
    document is [Examples.bob]. *)
Definition bob_reference (id : string) : BlobReference :=
  {| ref_path := blob_name id;
     ref_size := len (@encodeDocument numbers_only Examples.bob);
     ref_checksum := crc32 (@encodeDocument numbers_only Examples.bob) |}.

(** [JSON.stringify] of a blob reference, the two numbers printed from
    their binary form. *)
Definition stringify_reference (r : BlobReference) : string :=
  ("{" ++ Quote "path" ++ ":" ++ Quote (ref_path r)
     ++ "," ++ Quote "size" ++ ":"
     ++ DecimalString.NilZero.string_of_uint (N.to_uint (Z.to_N (ref_size r)))
     ++ "," ++ Quote "checksum" ++ ":"
     ++ DecimalString.NilZero.string_of_uint (N.to_uint (Z.to_N (ref_checksum r)))
     ++ "}")%string.

(** A runtime for examples with blob files: [JSON.parse] reads the
    example documents, [null] and [false], and the references of
    [Examples.bob] under the ids [b], [c] and [e]. *)
Definition blob_runtime : Runtime :=
  {| toExponential15 := fun _ => EmptyString;
     Number_toString := fun _ => EmptyString;
     JSON_parse := fun bs =>
       List.find (fun d => bytes_eqb (@encodeDocument numbers_only d) bs)
         [Examples.alice; Examples.bob; Examples.carol; VNull; VBool false];
     JSON_stringify_ref := stringify_reference;
     JSON_parse_ref := fun bs =>
       List.find (fun r => bytes_eqb (encodeString (stringify_reference r)) bs)
         [bob_reference "b"; bob_reference "c"; bob_reference "e"] |}.

(** A history on a collection with a cache of one entry and a blob
    threshold of 46 bytes, under which [Examples.bob] (47 bytes) goes to a
    blob file: both paths of [insertMany], a refused insert, an update away
    from a blob, an upsert, a batch, and an [insertMany] that names one id
    twice. *)
Definition blob_history : list Op :=
  [OpInsertMany [("a", Examples.alice); ("b", Examples.bob)];
   OpInsertMany [("f", Examples.carol); ("g", Examples.alice)];
   OpInsert "a" Examples.carol;
   OpUpdate "b" Examples.carol;
   OpUpsert "c" Examples.bob;
   OpDelete "a";
   OpBatch [BInsert "d" Examples.alice; BDelete "f"; BUpdate "zz" Examples.alice;
            BInsert "h" Examples.alice];
   OpGet "b";
   OpCreateIndex "role";
   OpInsertMany [("e", Examples.bob); ("e", Examples.alice)]]%string.

(** The bytes of one entry of the primary index in the index file. *)
Definition location_bytes (entry : string * DocumentLocation) : Uint8Array :=
  le_bytes 2 (len (encodeString (fst entry)) mod 2 ^ 16)
  ++ encodeString (fst entry)
  ++ le_bytes 8 (loc_offset (snd entry) mod 2 ^ 64)
  ++ le_bytes 4 (JS.ToUint32 (loc_length (snd entry)))
  ++ le_bytes 4 (JS.ToUint32 (loc_slabSize (snd entry)))
  ++ le_bytes 4 (JS.ToUint32 (if loc_isBlob (snd entry) then 1 else 0)).

(** The bytes of one id of a posting list. *)
Definition id_bytes (id : string) : Uint8Array :=
  le_bytes 2 (len (encodeString id) mod 2 ^ 16) ++ encodeString id.

(** The bytes of one value of a secondary index with its posting list. *)
Definition postings_bytes (entry : string * JSSet) : Uint8Array :=
  le_bytes 4 (JS.ToUint32 (len (encodeString (fst entry))))
  ++ encodeString (fst entry)
  ++ le_bytes 4 (JS.ToUint32 (Set_size (snd entry)))
  ++ List.concat (map id_bytes (snd entry)).

(** The bytes of one secondary index. *)
Definition field_bytes (field : string * JSMap JSSet) : Uint8Array :=
  le_bytes 2 (len (encodeString (fst field)) mod 2 ^ 16)
  ++ encodeString (fst field)
  ++ le_bytes 4 (JS.ToUint32 (Map_size (snd field)))
  ++ List.concat (map postings_bytes (snd field)).

(** The 64 bytes of the header of the index file: six words and zeros. *)
Definition index_header_bytes (m : IndexManager) : Uint8Array :=
  le_bytes 4 (JS.ToUint32 INDEX_FILE_MAGIC)
  ++ le_bytes 4 (JS.ToUint32 FORMAT_VERSION)
  ++ le_bytes 2 (Map_size (secondaryIndexes m) mod 2 ^ 16)
  ++ le_bytes 4 (JS.ToUint32 (Map_size (primaryIndex m)))
  ++ le_bytes 4 (JS.ToUint32 INDEX_HEADER_SIZE)
  ++ le_bytes 4 (JS.ToUint32
                   (INDEX_HEADER_SIZE
                    + len (List.concat (map location_bytes (primaryIndex m)))))
  ++ new_Uint8Array 42.

(** The index file of an index manager. *)
Definition index_file (m : IndexManager) : Uint8Array :=
  index_header_bytes m
  ++ List.concat (map location_bytes (primaryIndex m))
  ++ List.concat (map field_bytes (secondaryIndexes m)).

(** The writer of [persist] after the bytes [pre], with [n] bytes left
    to fill. *)
Definition filled (pre : Uint8Array) (n : Z) : IndexFile.Writer :=
  IndexFile.mkWriter (pre ++ new_Uint8Array n) (len pre).

(** [rest] is what the file has from [offset] on. *)
Definition at_offset (bytes : Uint8Array) (offset : Z) (rest : Uint8Array) : Prop :=
  exists pre, bytes = pre ++ rest /\ len pre = offset.

(** An index whose numbers fit the words of the index file: the ids and
    field paths are shorter than 2^16 bytes, the values shorter than 2^32,
    the offsets below 2^53, the lengths, slab sizes and counts below 2^32
    (2^16 for the number of secondary indexes), and the primary part of the
    file ends below 2^32.  The maps and sets name no key twice, as in
    JavaScript. *)
Definition location_in_range (entry : string * DocumentLocation) : Prop :=
  len (encodeString (fst entry)) < 2 ^ 16 /\
  0 <= loc_offset (snd entry) < 2 ^ 53 /\
  0 <= loc_length (snd entry) < 2 ^ 32 /\
  0 <= loc_slabSize (snd entry) < 2 ^ 32.

Definition id_in_range (id : string) : Prop :=
  len (encodeString id) < 2 ^ 16.

Definition postings_in_range (entry : string * JSSet) : Prop :=
  len (encodeString (fst entry)) < 2 ^ 32 /\
  Set_size (snd entry) < 2 ^ 32 /\
  NoDup (snd entry) /\
  Forall id_in_range (snd entry).

Definition field_in_range (field : string * JSMap JSSet) : Prop :=
  len (encodeString (fst field)) < 2 ^ 16 /\
  Map_size (snd field) < 2 ^ 32 /\
  NoDup (Map_keys (snd field)) /\
  Forall postings_in_range (snd field).

Definition index_in_range (m : IndexManager) : Prop :=
  Map_size (primaryIndex m) < 2 ^ 32 /\
  NoDup (Map_keys (primaryIndex m)) /\
  Forall location_in_range (primaryIndex m) /\
  IndexFile.primary_size (primaryIndex m) INDEX_HEADER_SIZE < 2 ^ 32 /\
  Map_size (secondaryIndexes m) < 2 ^ 16 /\
  NoDup (Map_keys (secondaryIndexes m)) /\
  Forall field_in_range (secondaryIndexes m).

(** The first 64 bytes of the data file are the header in memory. *)
Definition synced (s : StorageEngine) : Prop :=
  pread (file s) 0 DATA_HEADER_SIZE = headerBytes (header s).

(** At batch depth [d]: the header on disk is the header in memory or is
    marked to be written, and outside a batch it is the header in memory. *)
Definition settled (d : Z) (s : StorageEngine) : Prop :=
  batchDepth s = d /\
  (headerDirty s = true \/ synced s) /\
  (d = 0 -> synced s).

(** The batch depth, which only [batch] and the slow path of [writeMany]
    change. *)
Definition at_depth (d : Z) (s : StorageEngine) : Prop := batchDepth s = d.

(** The header of the collection's data file is settled at depth [d]. *)
Definition header_settled (d : Z) (c : Collection) : Prop :=
  settled d (storage c).

(** The collection stores [docs] and the header of its data file is
    settled at depth [depth]. *)
Definition kept `{rt : Runtime} (thr : Z) (docs : Docs) (depth : Z)
           (c : Collection) : Prop :=
  stores thr docs c /\ header_settled depth c.

(** The ids among [ids] whose document matches [filter]. *)
Definition matching (d : Docs) (filter : QueryFilter) (ids : list string)
  : list string :=
  List.filter (fun id => match Map_get d id with
                         | Some doc => matchesFilter doc filter
                         | None => false
                         end) ids.

(** The documents of [ids], all of them when the indexes cover the filter
    and those that match otherwise. *)
Definition fetched (d : Docs) (filter : QueryFilter) (covered : bool)
           (ids : list string) : list Document :=
  flat_map (fun id => match Map_get d id with
                      | Some doc =>
                          if covered then [doc]
                          else if matchesFilter doc filter then [doc] else []
                      | None => []
                      end) ids.

(** What [queryIds], [count] and [query] return for the documents [d] and
    the secondary indexes [sec]. *)
Definition ids_found `{rt : Runtime} (sec : SecondaryIndex) (d : Docs)
           (filter : QueryFilter) : list string :=
  match Index.scan_filter sec filter None true with
  | NoMatch => []
  | Candidates None _ => matching d filter (Map_keys d)
  | Candidates (Some candidateIds) true => candidateIds
  | Candidates (Some candidateIds) false => matching d filter candidateIds
  end.

Definition number_found `{rt : Runtime} (sec : SecondaryIndex) (d : Docs)
           (filter : QueryFilter) : Z :=
  match Index.scan_filter sec filter None true with
  | NoMatch => 0
  | Candidates None _ => Z.of_nat (List.length (matching d filter (Map_keys d)))
  | Candidates (Some candidateIds) true => Set_size candidateIds
  | Candidates (Some candidateIds) false =>
      Z.of_nat (List.length (matching d filter candidateIds))
  end.

Definition documents_found `{rt : Runtime} (sec : SecondaryIndex) (d : Docs)
           (filter : QueryFilter) : list Document :=
  match Index.scan_filter sec filter None true with
  | NoMatch => []
  | Candidates None _ => fetched d filter false (Map_keys d)
  | Candidates (Some candidateIds) covered => fetched d filter covered candidateIds
  end.

(** What a compaction packs for a document: its id, whether it is a blob,
    and the payload of its slot. *)
Definition doc_item `{rt : Runtime} (thr : Z) (entry : string * Document)
  : packed_item :=
  (fst entry, len (encodeDocument (snd entry)) >? thr,
   slot_payload thr (fst entry) (snd entry)).

Definition doc_items `{rt : Runtime} (thr : Z) (d : Docs) : list packed_item :=
  map (doc_item thr) d.

(** The encoded bytes of the documents. *)
Definition live_bytes `{rt : Runtime} (d : Docs) : Z :=
  fold_right (fun entry n => len (encodeDocument (snd entry)) + n) 0 d.

(** What a call makes of the documents: [clear] and [reset] leave none,
    the queries, [compact] and [persistIndex] change nothing. *)
Definition apply_call (call : Call) (d : Docs) : Docs :=
  match call with
  | CallOp op => apply_op op d
  | CallClear | CallReset => []
  | _ => d
  end.

(** The documents after a sequence of calls on an empty collection. *)
Definition documents (calls : list Call) : Docs :=
  fold_left (fun d call => apply_call call d) calls [].

Definition call_ok `{rt : Runtime} (thr : Z) (call : Call) : Prop :=
  match call with
  | CallOp op => op_ok thr op
  | _ => True
  end.

(** Calls on the collection of [blob_history]: a query, a compaction, a
    delete, another query and [persistIndex]. *)
Definition blob_calls : list Call :=
  app (map CallOp blob_history)
    [CallFind [("role", VStr "admin")]; CallCompact; CallOp (OpDelete "g");
     CallFindIds []; CallPersistIndex]%string.

(** The same calls, then [clear], two inserts and [reset], and one more
    insert. *)
Definition blob_calls_again : list Call :=
  app blob_calls
    [CallClear; CallOp (OpInsert "a" Examples.alice);
     CallOp (OpInsert "c" Examples.bob); CallReset;
     CallOp (OpInsert "b" Examples.carol)]%string.

(** The size of the data file after a compaction: the header and, for
    every document, the slab that [selectSlabSize] chooses for its payload
    (the encoding, or the reference of a blob). *)
Definition packed_size `{rt : Runtime} (thr : Z) (d : Docs) : Z :=
  fold_right (fun entry n =>
                selectSlabSize (len (slot_payload thr (fst entry) (snd entry))) + n)
    DATA_HEADER_SIZE d.

(** A collection whose data file was cut off after its header. *)
Definition cut_off_users : Collection :=
  set_storage (set_file (firstn 64 (file (storage Examples.users)))
                 (storage Examples.users)) Examples.users.

(** The posting list of [key] in the value map of a field has [id]. *)
Definition posted (valueMap : JSMap JSSet) (key id : string) : Prop :=
  exists ids, Map_get valueMap key = Some ids /\ In id ids.

(** The document of [id] has a value at [field], and [key] is the index
    key of that value. *)
Definition keyed `{rt : Runtime} (d : Docs) (field key id : string) : Prop :=
  exists doc, Map_get d id = Some doc /\
              getNestedValue doc field <> VUndefined /\
              serializeIndexValue (getNestedValue doc field) = key.

(** The value map of [field] lists exactly the documents of [d], each
    under the key of its value, once. *)
Record indexed_well `{rt : Runtime} (d : Docs) (field : string)
       (valueMap : JSMap JSSet) : Prop := {
  iw_posted : forall key id, posted valueMap key id <-> keyed d field key id;
  iw_keys : NoDup (Map_keys valueMap);
  iw_sets : forall key ids, Map_get valueMap key = Some ids -> NoDup ids;
}.

(** Every secondary index lists the documents [d]. *)
Definition indexes_well `{rt : Runtime} (d : Docs) (sec : SecondaryIndex) : Prop :=
  Forall (fun entry => indexed_well d (fst entry) (snd entry)) sec.

(** What [addDocument], [updateDocument] and [removeDocument] make of the
    secondary indexes. *)
Definition add_postings `{rt : Runtime} (id : string) (data : Document)
           (sec : SecondaryIndex) : SecondaryIndex :=
  map (fun entry => (fst entry, Index.postings_add (fst entry) (snd entry) id data))
    sec.

Definition remove_postings `{rt : Runtime} (id : string) (data : Document)
           (sec : SecondaryIndex) : SecondaryIndex :=
  map (fun entry => (fst entry, Index.postings_remove (fst entry) (snd entry) id data))
    sec.

Definition move_postings `{rt : Runtime} (id : string) (old data : Document)
           (sec : SecondaryIndex) : SecondaryIndex :=
  map (fun entry =>
         (fst entry,
          Index.postings_add (fst entry)
            (Index.postings_remove (fst entry) (snd entry) id old) id data))
    sec.

(** The value of [data] at [field] has the index key [key]. *)
Definition has_key `{rt : Runtime} (data : Document) (field key : string) : Prop :=
  getNestedValue data field <> VUndefined /\
  serializeIndexValue (getNestedValue data field) = key.

(** The secondary indexes of the collection list the documents [d]. *)
Definition listed `{rt : Runtime} (d : Docs) (c : Collection) : Prop :=
  indexes_well d (secondaryIndexes (indexManager c)).

(** The ids of an [insertMany] are distinct, also inside a batch of
    calls: with an id twice, the document that is replaced stays in the
    posting lists. *)
Definition op_tidy (op : Op) : Prop :=
  match op with
  | OpInsertMany items => NoDup (map fst items)
  | _ => True
  end.

Definition call_tidy (call : Call) : Prop :=
  match call with
  | CallOp op => op_tidy op
  | _ => True
  end.

(** What a batch operation that returns makes of the documents. *)
Definition after_batch_op (op : BatchOp) (d : Docs) : Docs :=
  match op with
  | BInsert id data | BUpdate id data | BUpsert id data => Map_set d id data
  | BDelete id => Map_delete d id
  end.

(** The collection has the secondary indexes [sec]. *)
Definition same_indexes (sec : SecondaryIndex) (c : Collection) : Prop :=
  secondaryIndexes (indexManager c) = sec.

(** The document answers the filter as the queries see it: at every
    indexed field of the filter its value has the index key of the
    filter's value, and if some field of the filter is not indexed the
    document matches the whole filter. *)
Definition answers `{rt : Runtime} (fields : list string) (doc : Document)
           (filter : QueryFilter) : Prop :=
  (forall field v, In (field, v) filter -> In field fields ->
                   has_key doc field (serializeIndexValue v)) /\
  ((exists field v, In (field, v) filter /\ ~ In field fields) ->
   matchesFilter doc filter = true).

(** The documents of the ids, in their order. *)
Definition docs_of (d : Docs) (ids : list string) : list Document :=
  flat_map (fun id => match Map_get d id with
                      | Some doc => [doc]
                      | None => []
                      end) ids.

(** [id] has the keys of the filter at its indexed fields. *)
Definition by_index `{rt : Runtime} (sec : SecondaryIndex) (d : Docs)
           (filter : QueryFilter) (id : string) : Prop :=
  forall field v, In (field, v) filter -> Map_has sec field = true ->
                  keyed d field (serializeIndexValue v) id.

(** What [findOne] makes of the documents that [find] returns. *)
Definition first_found (docs : list Document) : option Document :=
  match docs with
  | VNull :: _ | VUndefined :: _ | [] => None
  | doc :: _ => Some doc
  end.

(** Calls with an index on [role] created between the writes. *)
Definition role_calls : list Call :=
  [CallOp (OpInsertMany [("a", Examples.alice); ("b", Examples.bob)]);
   CallOp (OpCreateIndex "role");
   CallOp (OpInsert "c" Examples.carol);
   CallOp (OpUpdate "c" Examples.bob);
   CallOp (OpUpsert "e" Examples.alice);
   CallOp (OpDelete "b");
   CallCompact;
   CallOp (OpBatch [BInsert "d" Examples.carol; BDelete "e";
                    BInsert "f" Examples.alice])]%string.

(** What a call makes of the indexed fields, on a collection with the
    documents [d]: [createIndex] adds a field that is not indexed yet,
    [reset] and a [clear] that finds documents forget every field. *)
Definition fields_after (call : Call) (d : Docs) (fields : list string)
  : list string :=
  match call with
  | CallOp (OpCreateIndex fieldPath) =>
      if existsb (String.eqb fieldPath) fields then fields
      else fields ++ [fieldPath]
  | CallClear => match d with [] => fields | _ => [] end
  | CallReset => []
  | _ => fields
  end.

Fixpoint indexes_from (calls : list Call) (d : Docs) (fields : list string)
  : list string :=
  match calls with
  | [] => fields
  | call :: rest => indexes_from rest (apply_call call d) (fields_after call d fields)
  end.

(** The indexed fields after a sequence of calls on a new collection. *)
Definition indexes (calls : list Call) : list string := indexes_from calls [] [].

(** The secondary indexes are those of the fields [fields], in this
    order. *)
Definition same_fields (fields : list string) (c : Collection) : Prop :=
  Map_keys (secondaryIndexes (indexManager c)) = fields.

(** Calls that create indexes, clear the empty collection, and write. *)
Definition index_calls : list Call :=
  [CallOp (OpCreateIndex "role");
   CallClear;
   CallOp (OpCreateIndex "name");
   CallOp (OpCreateIndex "role");
   CallOp (OpInsert "a" Examples.alice);
   CallCompact;
   CallOp (OpUpsert "b" Examples.bob)]%string.

(** The header counts [n] documents and [m] live bytes. *)
Definition counts (n m : Z) (s : StorageEngine) : Prop :=
  documentCount (header s) = n /\ liveDataSize (header s) = m.

(** The encoded bytes of the items of an [insertMany]. *)
Definition items_bytes `{rt : Runtime} (items : list (string * Document)) : Z :=
  fold_right (fun item k => len (encodeDocument (snd item)) + k) 0 items.

(** The header of the collection counts [n] documents and [m] live
    bytes. *)
Definition tally (n m : Z) (c : Collection) : Prop := counts n m (storage c).

(** The counters of the header are those of the documents [d]: their
    number and their encoded bytes. *)
Definition counted `{rt : Runtime} (d : Docs) (c : Collection) : Prop :=
  tally (Map_size d) (live_bytes d) c.

(** The calls of [role_calls], then a [clear], an [insertMany] with a
    blob document, an update from the blob to a slot and an insert that
    throws or not. *)
Definition stats_calls : list Call :=
  app role_calls
    [CallClear;
     CallOp (OpInsertMany [("b", Examples.bob); ("a", Examples.alice)]);
     CallOp (OpUpdate "b" Examples.alice);
     CallOp (OpInsert "c" Examples.bob);
     CallOp (OpInsert "a" Examples.carol)]%string.

(* ================================================================== *)
(** * Properties *)

Example crc32_check_value :
  crc32 (encodeString "123456789") = 0xCBF43926.
Proof. vm_compute. reflexivity. Qed.

(* ------------------------------------------------------------------ *)
(** ** Deleting an absent id *)

(** C10.  For an id that the primary index does not hold, [delete]
    returns [false] and the collection is exactly the state it was called
    on: primary and secondary indexes, data file, header, free list,
    cache and the I/O counters (so no write was issued). *)
Theorem delete_absent_is_noop `{rt : Runtime} (c : Collection) (id : string) :
  Index.has (indexManager c) id = false ->
  Collection.delete id c = (Ok false, c).
Proof.
  intros Habsent.
  unfold Collection.delete, bind, gets.
  unfold Index.has, Map_has in Habsent.
  unfold Index.getLocation.
  destruct (Map_get (primaryIndex (indexManager c)) id); [discriminate|].
  reflexivity.
Qed.

Lemma delete_absent_is_noop_witness :
  Index.has (indexManager Examples.users) "user_1" = false /\
  @Collection.delete Examples.runtime "user_1" Examples.users
    = (Ok false, Examples.users).
Proof.
  split; [vm_compute; reflexivity|].
  apply (@delete_absent_is_noop Examples.runtime).
  vm_compute; reflexivity.
Defined.

(* ------------------------------------------------------------------ *)
(** ** Size classes and first-fit allocation *)

Lemma Math_ceil_div_spec (a b : Z) :
  0 < b ->
  let q := Math_ceil_div a b in
  a <= q * b /\ (q - 1) * b < a.
Proof.
  intros Hb q. subst q. unfold Math_ceil_div.
  pose proof (Z.div_mod a b ltac:(lia)) as Hdm.
  pose proof (Z.mod_pos_bound a b Hb) as Hm.
  destruct (a mod b =? 0) eqn:E.
  - apply Z.eqb_eq in E. nia.
  - apply Z.eqb_neq in E. nia.
Qed.

Lemma selectSlabSize_fits (n : Z) : n + SLOT_HEADER_SIZE <= selectSlabSize n.
Proof.
  unfold selectSlabSize, SLAB_SIZES.TINY, SLAB_SIZES.SMALL, SLAB_SIZES.MEDIUM,
    SLAB_SIZES.ALIGNMENT, SLOT_HEADER_SIZE.
  repeat match goal with
         | |- context [?a <=? ?b] => destruct (Z.leb_spec a b)
         end; try lia.
  pose proof (Math_ceil_div_spec (n + 16) 4096 ltac:(lia)) as H2. cbv zeta in H2. lia.
Qed.

Lemma selectSlabSize_min (n : Z) : 1024 <= selectSlabSize n.
Proof.
  unfold selectSlabSize, SLAB_SIZES.TINY, SLAB_SIZES.SMALL, SLAB_SIZES.MEDIUM,
    SLAB_SIZES.ALIGNMENT, SLOT_HEADER_SIZE.
  repeat match goal with
         | |- context [?a <=? ?b] => destruct (Z.leb_spec a b)
         end; try lia.
  pose proof (Math_ceil_div_spec (n + 16) 4096 ltac:(lia)) as H2. cbv zeta in H2. lia.
Qed.

Lemma take_first_fit_spec (required : Z) (l : list FreeSlot) :
  match take_first_fit required l with
  | Some (found, rest) =>
      exists before after,
        l = before ++ found :: after /\ rest = before ++ after /\
        Forall (fun x => free_slabSize x < required) before /\
        required <= free_slabSize found
  | None => Forall (fun x => free_slabSize x < required) l
  end.
Proof.
  induction l as [|x l IH]; simpl.
  - constructor.
  - destruct (Z.geb_spec (free_slabSize x) required) as [Hge|Hlt].
    + exists [], l. repeat split; auto; lia.
    + destruct (take_first_fit required l) as [[found rest]|].
      * destruct IH as (before & after & -> & -> & Hall & Hfit).
        exists (x :: before), after. repeat split; auto.
      * constructor; auto.
Qed.

(** C6.  The required slab of an [n]-byte payload is the smallest of
    1024, 8192, 65536 that holds [n + 16] bytes, and beyond them
    [ceil((n + 16) / 4096) * 4096], the least multiple of 4096 that holds
    them.  [allocateSlot] takes the first free-list entry that is at least
    that large, removes it and returns its offset with the entry's own slab
    size; with no such entry it returns [nextSlotOffset] with exactly the
    required size and leaves the state alone. *)
Theorem slab_selection_and_first_fit (n : Z) (s : StorageEngine) :
  let required := selectSlabSize n in
  (n + 16 <= 65536 ->
     In required [1024; 8192; 65536] /\ n + 16 <= required /\
     forall c, In c [1024; 8192; 65536] -> n + 16 <= c -> required <= c) /\
  (65536 < n + 16 ->
     required = Math_ceil_div (n + 16) 4096 * 4096 /\
     n + 16 <= required /\
     forall k, n + 16 <= k * 4096 -> required <= k * 4096) /\
  ((exists before found after,
      freeList s = before ++ found :: after /\
      Forall (fun x => free_slabSize x < required) before /\
      required <= free_slabSize found /\
      allocateSlot n s
      = (Ok (mkAllocation (free_offset found) (free_slabSize found) true),
         set_freeList (before ++ after) s))
   \/
   (Forall (fun x => free_slabSize x < required) (freeList s) /\
    allocateSlot n s
    = (Ok (mkAllocation (nextSlotOffset (header s)) required false), s))).
Proof.
  intros required. subst required. split; [|split].
  - intros Hn.
    unfold selectSlabSize, SLAB_SIZES.TINY, SLAB_SIZES.SMALL, SLAB_SIZES.MEDIUM,
      SLOT_HEADER_SIZE.
    repeat match goal with
           | |- context [?a <=? ?b] => destruct (Z.leb_spec a b)
           end; try lia;
      (split; [simpl; tauto|split; [lia|]]);
      intros c [<-|[<-|[<-|[]]]] Hc; lia.
  - intros Hn.
    pose proof (Math_ceil_div_spec (n + 16) 4096 ltac:(lia)) as Hc.
    cbv zeta in Hc.
    assert (Heq : selectSlabSize n = Math_ceil_div (n + 16) 4096 * 4096).
    { unfold selectSlabSize, SLAB_SIZES.TINY, SLAB_SIZES.SMALL, SLAB_SIZES.MEDIUM,
        SLAB_SIZES.ALIGNMENT, SLOT_HEADER_SIZE.
      repeat match goal with
             | |- context [?a <=? ?b] => destruct (Z.leb_spec a b)
             end; try lia. }
    rewrite Heq. split; [reflexivity|]. split; [lia|].
    intros k Hk. nia.
  - pose proof (take_first_fit_spec (selectSlabSize n) (freeList s)) as Hfit.
    unfold allocateSlot, bind, gets, modify, ret.
    destruct (take_first_fit (selectSlabSize n) (freeList s)) as [[found rest]|].
    + destruct Hfit as (before & after & Hl & -> & Hall & Hge).
      left. exists before, found, after. repeat split; auto.
    + right. split; auto.
Qed.

(* ------------------------------------------------------------------ *)
(** ** Index keys and deep equality *)

(** C2.  [deepEqual] ignores the order of object keys, [JSON.stringify]
    does not: two objects with the same properties listed in a different
    order are equal for filter matching and have different index keys.
    In the other direction every [NaN] has the key [nan] although
    [deepEqual(NaN, NaN)] is false. *)
Theorem index_key_differs_on_deep_equal_objects `{rt : Runtime} :
  let a := VObj [("x", VBool true); ("y", VBool false)]%string in
  let b := VObj [("y", VBool false); ("x", VBool true)]%string in
  deepEqual a b = true /\
  String.eqb (serializeIndexValue a) (serializeIndexValue b) = false /\
  deepEqual (VNum nan) (VNum nan) = false /\
  String.eqb (serializeIndexValue (VNum nan)) (serializeIndexValue (VNum nan)) = true.
Proof.
  cbv zeta. repeat split; vm_compute; reflexivity.
Qed.

(* ------------------------------------------------------------------ *)
(** ** Queries answered from the posting lists *)

Lemma scan_filter_all_indexed `{rt : Runtime} (sec : SecondaryIndex)
      (filter : QueryFilter) :
  forallb (fun entry => Map_has sec (fst entry)) filter = true ->
  forall candidateIds,
    match Index.scan_filter sec filter candidateIds true with
    | NoMatch => True
    | Candidates c covered =>
        covered = true /\
        (candidateIds <> None \/ filter <> [] -> c <> None)
    end.
Proof.
  induction filter as [|[field v] rest IH]; simpl; intros Hall cand.
  - split; [reflexivity|]. intros [H|H]; [exact H|congruence].
  - apply andb_true_iff in Hall. destruct Hall as [Hh Hrest].
    unfold Map_has in Hh.
    destruct (Map_get sec field) as [fieldIndex|]; [|discriminate].
    destruct (Map_get fieldIndex (serializeIndexValue v)) as [matching|]; [|exact I].
    specialize (IH Hrest
      (Some match cand with
            | Some c => List.filter (fun id => Set_has matching id) c
            | None => matching
            end)).
    destruct (Index.scan_filter sec rest _ true); [exact I|].
    destruct IH as [-> IH]. split; [reflexivity|].
    intros _. apply IH. left. discriminate.
Qed.

(** C7 (as the code has it).  For a filter with at least one key, all of
    whose keys are indexed paths, [findIds] and [count] return without
    changing the collection at all; in particular the counter of document
    reads is the one they were called with.  [count] with an empty filter
    is the size of the primary index, again with no read. *)
Theorem fully_indexed_queries_read_nothing `{rt : Runtime}
        (c : Collection) (filter : QueryFilter) :
  filter <> [] ->
  all_indexed (indexManager c) filter = true ->
  (exists ids, Collection.findIds filter c = (Ok ids, c)) /\
  (exists n, Collection.count (Some filter) c = (Ok n, c)) /\
  Collection.count (Some []) c = (Ok (Index.size (indexManager c)), c) /\
  Collection.count None c = (Ok (Index.size (indexManager c)), c).
Proof.
  intros Hne Hall.
  pose proof (scan_filter_all_indexed _ _ Hall None) as Hscan.
  unfold Collection.findIds, Collection.count, Index.queryIds, Index.count,
    bind, gets, ret.
  destruct (Index.scan_filter (secondaryIndexes (indexManager c)) filter None true)
    as [|cand covered].
  - repeat split; eauto. destruct filter; [congruence|eauto].
  - destruct Hscan as [-> Hsome].
    destruct cand as [cand|]; [|exfalso; apply Hsome; auto].
    repeat split; eauto. destruct filter; [congruence|eauto].
Qed.

Lemma fully_indexed_queries_read_nothing_witness :
  let filter := [("role", VStr "admin")]%string in
  @Collection.findIds Examples.runtime filter Examples.users
    = (Ok ["user_3"; "user_2"]%string, Examples.users) /\
  @Collection.count Examples.runtime (Some filter) Examples.users
    = (Ok 2, Examples.users).
Proof.
  cbv zeta.
  destruct (@fully_indexed_queries_read_nothing Examples.runtime Examples.users
              [("role", VStr "admin")]%string ltac:(discriminate)
              ltac:(vm_compute; reflexivity))
    as ((ids & Hids) & (n & Hn) & _).
  split.
  - etransitivity; [exact Hids|]. vm_compute in Hids.
    injection Hids as <-. reflexivity.
  - etransitivity; [exact Hn|]. vm_compute in Hn.
    injection Hn as <-. reflexivity.
Defined.

(** C7 as stated fails on the empty filter: all of its (no) keys are
    indexed, and [findIds] reads both documents of the collection. *)
Lemma findIds_empty_filter_reads_every_document :
  all_indexed (indexManager Examples.users) [] = true /\
  fst (@Collection.findIds Examples.runtime [] Examples.users)
    = Ok ["user_2"; "user_3"]%string /\
  docReads (storage (snd (@Collection.findIds Examples.runtime [] Examples.users)))
    = (docReads (storage Examples.users) + 2)%nat.
Proof.
  repeat split; vm_compute; reflexivity.
Qed.

(* ------------------------------------------------------------------ *)
(** ** Bytes and little-endian words *)

Lemma Z_of_byte_range (b : byte) : 0 <= Z_of_byte b < 256.
Proof.
  unfold Z_of_byte. pose proof (Byte.to_N_bounded b). lia.
Qed.

Lemma Z_of_byte_inj (a b : byte) : Z_of_byte a = Z_of_byte b -> a = b.
Proof.
  unfold Z_of_byte. intros H. apply N2Z.inj in H.
  pose proof (Byte.of_to_N a) as Ha. pose proof (Byte.of_to_N b) as Hb.
  rewrite H in Ha. congruence.
Qed.

Lemma Z_of_byte_of_Z (z : Z) : Z_of_byte (byte_of_Z z) = z mod 256.
Proof.
  unfold byte_of_Z, Z_of_byte.
  pose proof (Z.mod_pos_bound z 256 ltac:(lia)) as Hr.
  destruct (Byte.of_N (Z.to_N (z mod 256))) as [b|] eqn:E.
  - apply Byte.to_of_N in E. rewrite E. lia.
  - apply Byte.of_N_None_iff in E. lia.
Qed.

Lemma le_value_range (bs : list byte) :
  0 <= le_value bs < 256 ^ Z.of_nat (List.length bs).
Proof.
  induction bs as [|b bs IH]; cbn [le_value].
  - simpl. lia.
  - pose proof (Z_of_byte_range b).
    rewrite length_cons, Nat2Z.inj_succ, Z.pow_succ_r by lia. lia.
Qed.

Lemma le_value_app (a b : list byte) :
  le_value (a ++ b) = le_value a + 256 ^ Z.of_nat (List.length a) * le_value b.
Proof.
  induction a as [|x a IH]; cbn [le_value app].
  - change (Z.of_nat (List.length (@nil byte))) with 0. rewrite Z.pow_0_r. lia.
  - rewrite IH, length_cons, Nat2Z.inj_succ, Z.pow_succ_r by lia. lia.
Qed.

(** Changing one byte of a little-endian word changes its value. *)
Lemma le_value_one_byte (a b : list byte) (x v : byte) :
  x <> v -> le_value (a ++ x :: b) <> le_value (a ++ v :: b).
Proof.
  intros Hne H. rewrite !le_value_app in H. cbn [le_value] in H.
  assert (Hp : 0 < 256 ^ Z.of_nat (List.length a)) by (apply Z.pow_pos_nonneg; lia).
  assert (Z_of_byte x = Z_of_byte v) by nia.
  apply Hne, Z_of_byte_inj; assumption.
Qed.

Lemma length_le_bytes (n : nat) (v : Z) : List.length (le_bytes n v) = n.
Proof. revert v; induction n; simpl; auto. Qed.

Lemma le_value_le_bytes (n : nat) (v : Z) :
  le_value (le_bytes n v) = v mod 256 ^ Z.of_nat n.
Proof.
  revert v; induction n as [|n IH]; intros v.
  - simpl. rewrite Z.mod_1_r. reflexivity.
  - cbn [le_bytes le_value]. rewrite IH, Z_of_byte_of_Z.
    rewrite Z.shiftr_div_pow2 by lia. change (2 ^ 8) with 256.
    rewrite Nat2Z.inj_succ, Z.pow_succ_r by lia.
    rewrite Z.rem_mul_r by (try lia; apply Z.pow_nonzero; lia). reflexivity.
Qed.

(* ------------------------------------------------------------------ *)
(** ** Positional reads and writes *)

Lemma len_nonneg (b : Uint8Array) : 0 <= len b.
Proof. unfold len. lia. Qed.

Lemma len_app (a b : Uint8Array) : len (a ++ b) = len a + len b.
Proof. unfold len. rewrite length_app. lia. Qed.

Lemma len_pread (f : Uint8Array) (o n : Z) :
  0 <= o -> 0 <= n -> o + n <= len f -> len (pread f o n) = n.
Proof.
  unfold pread, len. intros. rewrite length_firstn, length_skipn. lia.
Qed.

Lemma len_pread_le (f : Uint8Array) (o n : Z) :
  0 <= n -> len (pread f o n) <= n.
Proof.
  unfold pread, len. intros. rewrite length_firstn. lia.
Qed.

Lemma pread_complete (f : Uint8Array) (o n : Z) :
  0 <= o -> 0 < n -> n <= len (pread f o n) -> o + n <= len f.
Proof.
  unfold pread, len. intros Ho Hn H. rewrite length_firstn, length_skipn in H.
  lia.
Qed.

(** A field inside a block that was read is the same field read from the
    file. *)
Lemma slice_pread (f : Uint8Array) (o n a b : Z) :
  0 <= o -> 0 <= a -> a <= b -> b <= n ->
  slice (pread f o n) a b = pread f (o + a) (b - a).
Proof.
  intros Ho Ha Hab Hbn. unfold slice, pread.
  rewrite skipn_firstn_comm, firstn_firstn, skipn_skipn.
  f_equal; [lia|]. f_equal. lia.
Qed.

Lemma readUint32_pread (f : Uint8Array) (o n k : Z) :
  0 <= o -> 0 <= k -> k + 4 <= n ->
  readUint32 (pread f o n) k = le_value (pread f (o + k) 4).
Proof.
  intros. unfold readUint32. rewrite slice_pread by lia.
  f_equal. f_equal. lia.
Qed.

(** The file with the byte at [p] replaced, seen through a read. *)
Lemma pread_one_byte (a b : Uint8Array) (x v : byte) (o n : Z) :
  0 <= o -> 0 <= n ->
  (pread (a ++ x :: b) o n = pread (a ++ v :: b) o n /\
   (len a < o \/ o + n <= len a))
  \/
  (exists a' b',
     pread (a ++ x :: b) o n = a' ++ x :: b' /\
     pread (a ++ v :: b) o n = a' ++ v :: b' /\
     len a' = len a - o /\
     o <= len a < o + n).
Proof.
  intros Ho Hn. unfold pread, len.
  destruct (Z_lt_le_dec (Z.of_nat (List.length a)) o) as [Hlt|Hle].
  - left. split; [|lia].
    rewrite !skipn_app.
    rewrite !skipn_all2 by lia. simpl.
    replace (Z.to_nat o - List.length a)%nat
      with (S (Z.to_nat o - List.length a - 1)) by lia.
    reflexivity.
  - rewrite !skipn_app.
    replace (Z.to_nat o - List.length a)%nat with 0%nat by lia.
    rewrite !skipn_0, !firstn_app.
    rewrite length_skipn.
    destruct (Z_le_dec (o + n) (Z.of_nat (List.length a))) as [Hin|Hin].
    + left. split; [|lia].
      replace (Z.to_nat n - (List.length a - Z.to_nat o))%nat with 0%nat by lia.
      reflexivity.
    + right.
      replace (Z.to_nat n - (List.length a - Z.to_nat o))%nat
        with (S (Z.to_nat n - (List.length a - Z.to_nat o) - 1)) by lia.
      simpl firstn at 2 4.
      do 2 eexists. split; [reflexivity|]. split; [reflexivity|].
      rewrite length_firstn, length_skipn. lia.
Qed.

Lemma buf_set_one_byte (f : Uint8Array) (p : Z) (x v : byte) :
  0 <= p ->
  nth_error f (Z.to_nat p) = Some x ->
  exists a b, f = a ++ x :: b /\ buf_set f p [v] = a ++ v :: b /\ len a = p.
Proof.
  intros Hp Hnth.
  destruct (nth_error_split _ _ Hnth) as (a & b & -> & Hlen).
  exists a, b. split; [reflexivity|]. split; [|unfold len; lia].
  unfold buf_set. rewrite <- Hlen.
  rewrite firstn_app, firstn_all, Nat.sub_diag, firstn_0, app_nil_r.
  rewrite skipn_app, skipn_all2 by (simpl; lia).
  replace (List.length a + List.length [v] - List.length a)%nat with 1%nat
    by (simpl; lia).
  reflexivity.
Qed.

(* ------------------------------------------------------------------ *)
(** ** CRC-32 detects a changed byte *)

Lemma ToUint32_range (x : Z) : 0 <= JS.ToUint32 x < 2 ^ 32.
Proof. unfold JS.ToUint32. apply Z.mod_pos_bound. lia. Qed.

Lemma ToUint32_small (x : Z) : 0 <= x < 2 ^ 32 -> JS.ToUint32 x = x.
Proof. intros. unfold JS.ToUint32. apply Z.mod_small. assumption. Qed.

Lemma ToUint32_ToInt32 (x : Z) : JS.ToUint32 (JS.ToInt32 x) = JS.ToUint32 x.
Proof.
  unfold JS.ToUint32, JS.ToInt32.
  rewrite Zminus_mod_idemp_l. f_equal. lia.
Qed.

Lemma ToUint32_bits (x i : Z) :
  Z.testbit (JS.ToUint32 x) i = if i <? 32 then Z.testbit x i else false.
Proof.
  unfold JS.ToUint32. destruct (Z.ltb_spec i 32).
  - destruct (Z_lt_le_dec i 0).
    + rewrite !Z.testbit_neg_r by lia. reflexivity.
    + apply Z.mod_pow2_bits_low. lia.
  - apply Z.mod_pow2_bits_high. lia.
Qed.

Lemma ToInt32_bits_low (x i : Z) :
  i < 32 -> Z.testbit (JS.ToInt32 x) i = Z.testbit x i.
Proof.
  intros Hi.
  pose proof (ToUint32_bits (JS.ToInt32 x) i) as H1.
  pose proof (ToUint32_bits x i) as H2.
  rewrite ToUint32_ToInt32 in H1.
  destruct (Z.ltb_spec i 32); [congruence|lia].
Qed.

Lemma ToUint32_xor (a b : Z) :
  JS.ToUint32 (JS.xor a b) = Z.lxor (JS.ToUint32 a) (JS.ToUint32 b).
Proof.
  apply Z.bits_inj'. intros i Hi. unfold JS.xor.
  rewrite Z.lxor_spec, !ToUint32_bits, Z.lxor_spec.
  destruct (Z.ltb_spec i 32); [|reflexivity].
  rewrite !ToInt32_bits_low by lia. reflexivity.
Qed.

Lemma lxor_cancel_l (a b c : Z) : Z.lxor a b = Z.lxor a c -> b = c.
Proof.
  intros H. apply (f_equal (Z.lxor a)) in H.
  rewrite <- !Z.lxor_assoc, Z.lxor_nilpotent, !Z.lxor_0_l in H. exact H.
Qed.

Lemma lxor_below (n a b : Z) :
  0 <= n -> 0 <= a < 2 ^ n -> 0 <= b < 2 ^ n -> 0 <= Z.lxor a b < 2 ^ n.
Proof.
  intros Hn Ha Hb.
  assert (H0 : 0 <= Z.lxor a b) by (apply Z.lxor_nonneg; lia).
  split; [exact H0|].
  destruct (Z.eq_dec (Z.lxor a b) 0) as [->|Hnz]; [apply Z.pow_pos_nonneg; lia|].
  apply Z.log2_lt_pow2; [lia|].
  pose proof (Z.log2_lxor a b ltac:(lia) ltac:(lia)) as Hl.
  assert (Hpos : 0 < n).
  { destruct (Z.eq_dec n 0) as [->|]; [|lia].
    exfalso. apply Hnz. replace a with 0 by lia. replace b with 0 by lia.
    reflexivity. }
  assert (Z.log2 a < n).
  { destruct (Z.eq_dec a 0) as [->|]; [simpl; lia|]. apply Z.log2_lt_pow2; lia. }
  assert (Z.log2 b < n).
  { destruct (Z.eq_dec b 0) as [->|]; [simpl; lia|]. apply Z.log2_lt_pow2; lia. }
  lia.
Qed.

Lemma byte_indices_spec (i : Z) : 0 <= i < 256 -> In i byte_indices.
Proof.
  intros Hi. unfold byte_indices. apply in_map_iff.
  exists (Z.to_nat i). split; [lia|]. apply in_seq. lia.
Qed.

(** Two facts about the table, both checked by evaluation: its entries
    are 32-bit words, and two different entries differ in their top byte. *)
Lemma table_range (i : Z) : 0 <= i < 256 -> 0 <= table_at i < 2 ^ 32.
Proof.
  intros Hi.
  assert (Hall : forallb (fun i => (0 <=? table_at i) && (table_at i <? 2 ^ 32))
                   byte_indices = true) by (vm_compute; reflexivity).
  rewrite forallb_forall in Hall.
  specialize (Hall i (byte_indices_spec i Hi)). lia.
Qed.

Lemma table_top_byte (i j : Z) :
  0 <= i < 256 -> 0 <= j < 256 ->
  Z.lxor (table_at i) (table_at j) < 2 ^ 24 -> i = j.
Proof.
  intros Hi Hj.
  assert (Hall : forallb (fun i =>
            forallb (fun j =>
              implb (Z.lxor (table_at i) (table_at j) <? 2 ^ 24) (i =? j))
              byte_indices) byte_indices = true) by (vm_compute; reflexivity).
  rewrite forallb_forall in Hall.
  specialize (Hall i (byte_indices_spec i Hi)).
  rewrite forallb_forall in Hall.
  specialize (Hall j (byte_indices_spec j Hj)).
  intros Hlt. apply Z.ltb_lt in Hlt. rewrite Hlt in Hall. simpl in Hall. lia.
Qed.

Lemma index_range (u : Z) (b : byte) :
  0 <= Z.land (Z.lxor u (Z_of_byte b)) 255 < 256.
Proof.
  change 255 with (Z.ones 8). rewrite Z.land_ones by lia.
  apply Z.mod_pos_bound. lia.
Qed.

Lemma shiftr8_range (u : Z) : 0 <= u < 2 ^ 32 -> 0 <= Z.shiftr u 8 < 2 ^ 24.
Proof.
  intros Hu. rewrite Z.shiftr_div_pow2 by lia.
  split; [apply Z.div_pos; lia|].
  apply Z.div_lt_upper_bound; lia.
Qed.

Lemma ustep_range (u : Z) (b : byte) :
  0 <= u < 2 ^ 32 -> 0 <= ustep u b < 2 ^ 32.
Proof.
  intros Hu. unfold ustep. apply lxor_below; [lia| |].
  - apply table_range, index_range.
  - pose proof (shiftr8_range u Hu). lia.
Qed.

Lemma crc32_step_unsigned (s : Z) (b : byte) :
  JS.ToUint32 (crc32_step s b) = ustep (JS.ToUint32 s) b.
Proof.
  unfold crc32_step, ustep. rewrite ToUint32_xor.
  assert (Hidx : JS.and (JS.xor s (Z_of_byte b)) 255
                 = Z.land (Z.lxor (JS.ToUint32 s) (Z_of_byte b)) 255).
  { apply Z.bits_inj'. intros i Hi. unfold JS.and, JS.xor.
    change (JS.ToInt32 255) with 255.
    rewrite !Z.land_spec. change 255 with (Z.ones 8).
    destruct (Z_lt_le_dec i 8).
    - rewrite !Z.ones_spec_low, !andb_true_r by lia.
      rewrite ToInt32_bits_low, !Z.lxor_spec, !ToInt32_bits_low by lia.
      rewrite ToUint32_bits. destruct (Z.ltb_spec i 32); [reflexivity|lia].
    - rewrite !Z.ones_spec_high, !andb_false_r by lia. reflexivity. }
  rewrite Hidx.
  pose proof (ToUint32_range s) as Hs.
  rewrite (ToUint32_small (table_at _)) by (apply table_range, index_range).
  unfold JS.ushr. change (8 mod 32) with 8.
  rewrite (ToUint32_small (Z.shiftr _ _))
    by (pose proof (shiftr8_range _ Hs); lia).
  reflexivity.
Qed.

Lemma ustep_inj (u u' : Z) (b b' : byte) :
  0 <= u < 2 ^ 32 -> 0 <= u' < 2 ^ 32 ->
  ustep u b = ustep u' b' ->
  Z.land (Z.lxor u (Z_of_byte b)) 255 = Z.land (Z.lxor u' (Z_of_byte b')) 255 /\
  Z.shiftr u 8 = Z.shiftr u' 8.
Proof.
  intros Hu Hu' H. unfold ustep in H.
  set (i := Z.land (Z.lxor u (Z_of_byte b)) 255) in *.
  set (j := Z.land (Z.lxor u' (Z_of_byte b')) 255) in *.
  assert (Hi : 0 <= i < 256) by apply index_range.
  assert (Hj : 0 <= j < 256) by apply index_range.
  assert (Hx : Z.lxor (table_at i) (table_at j)
               = Z.lxor (Z.shiftr u 8) (Z.shiftr u' 8)).
  { apply Z.bits_inj'. intros k Hk.
    apply (f_equal (fun z => Z.testbit z k)) in H.
    rewrite !Z.lxor_spec in *.
    destruct (Z.testbit (table_at i) k), (Z.testbit (table_at j) k),
      (Z.testbit (Z.shiftr u 8) k), (Z.testbit (Z.shiftr u' 8) k);
      simpl in *; congruence. }
  assert (Hij : i = j).
  { apply table_top_byte; try assumption. rewrite Hx.
    apply lxor_below; [lia| |]; apply shiftr8_range; assumption. }
  split; [exact Hij|].
  rewrite Hij in H. apply lxor_cancel_l in H. exact H.
Qed.

Lemma low_and_high (u u' : Z) :
  Z.land u 255 = Z.land u' 255 -> Z.shiftr u 8 = Z.shiftr u' 8 -> u = u'.
Proof.
  intros Hl Hh. apply Z.bits_inj'. intros i Hi.
  destruct (Z_lt_le_dec i 8).
  - apply (f_equal (fun z => Z.testbit z i)) in Hl.
    rewrite !Z.land_spec in Hl. change 255 with (Z.ones 8) in Hl.
    rewrite !Z.ones_spec_low, !andb_true_r in Hl by lia. exact Hl.
  - apply (f_equal (fun z => Z.testbit z (i - 8))) in Hh.
    rewrite !Z.shiftr_spec in Hh by lia.
    replace (i - 8 + 8) with i in Hh by lia. exact Hh.
Qed.

Lemma ustep_inj_state (u u' : Z) (b : byte) :
  0 <= u < 2 ^ 32 -> 0 <= u' < 2 ^ 32 -> ustep u b = ustep u' b -> u = u'.
Proof.
  intros Hu Hu' H. destruct (ustep_inj _ _ _ _ Hu Hu' H) as [Hi Hh].
  apply low_and_high; [|exact Hh].
  apply Z.bits_inj'. intros i Hi0.
  apply (f_equal (fun z => Z.testbit z i)) in Hi.
  rewrite !Z.land_spec, !Z.lxor_spec in Hi. rewrite !Z.land_spec.
  destruct (Z.testbit 255 i); [|rewrite !andb_false_r; reflexivity].
  rewrite !andb_true_r in *.
  destruct (Z.testbit u i), (Z.testbit u' i), (Z.testbit (Z_of_byte b) i);
    simpl in *; congruence.
Qed.

Lemma ustep_inj_byte (u : Z) (b b' : byte) :
  0 <= u < 2 ^ 32 -> ustep u b = ustep u b' -> b = b'.
Proof.
  intros Hu H. destruct (ustep_inj _ _ _ _ Hu Hu H) as [Hi _].
  apply Z_of_byte_inj. apply Z.bits_inj'. intros i Hi0.
  destruct (Z_lt_le_dec i 8).
  - apply (f_equal (fun z => Z.testbit z i)) in Hi.
    rewrite !Z.land_spec, !Z.lxor_spec in Hi. change 255 with (Z.ones 8) in Hi.
    rewrite !Z.ones_spec_low, !andb_true_r in Hi by lia.
    destruct (Z.testbit u i), (Z.testbit (Z_of_byte b) i),
      (Z.testbit (Z_of_byte b') i); simpl in *; congruence.
  - pose proof (Z_of_byte_range b). pose proof (Z_of_byte_range b').
    rewrite !Z.bits_above_log2; try reflexivity; try lia.
    + destruct (Z.eq_dec (Z_of_byte b') 0) as [->|]; [simpl; lia|].
      assert (Z.log2 (Z_of_byte b') < 8) by (apply Z.log2_lt_pow2; lia). lia.
    + destruct (Z.eq_dec (Z_of_byte b) 0) as [->|]; [simpl; lia|].
      assert (Z.log2 (Z_of_byte b) < 8) by (apply Z.log2_lt_pow2; lia). lia.
Qed.

Lemma crc32_fold_inj (data : list byte) (s t : Z) :
  JS.ToUint32 (fold_left crc32_step data s) = JS.ToUint32 (fold_left crc32_step data t) ->
  JS.ToUint32 s = JS.ToUint32 t.
Proof.
  revert s t. induction data as [|c data IH]; intros s t H; [exact H|].
  simpl in H. apply IH in H. rewrite !crc32_step_unsigned in H.
  apply ustep_inj_state in H; auto using ToUint32_range.
Qed.

Lemma crc32_unsigned (data : list byte) :
  crc32 data
  = Z.lxor (JS.ToUint32 (fold_left crc32_step data 0xffffffff)) 0xffffffff.
Proof.
  unfold crc32, JS.ushr. change (0 mod 32) with 0. rewrite Z.shiftr_0_r.
  rewrite ToUint32_xor. reflexivity.
Qed.

Lemma crc32_range (data : list byte) : 0 <= crc32 data < 2 ^ 32.
Proof.
  rewrite crc32_unsigned. apply lxor_below; [lia| |lia].
  apply ToUint32_range.
Qed.

(** Two buffers that differ in exactly one byte have different checksums. *)
Lemma crc32_one_byte (a b : list byte) (x v : byte) :
  x <> v -> crc32 (a ++ x :: b) <> crc32 (a ++ v :: b).
Proof.
  intros Hne H. rewrite !crc32_unsigned in H.
  rewrite (Z.lxor_comm _ 0xffffffff), (Z.lxor_comm _ 0xffffffff) in H.
  apply lxor_cancel_l in H.
  rewrite !fold_left_app in H. simpl in H.
  apply crc32_fold_inj in H. rewrite !crc32_step_unsigned in H.
  apply ustep_inj_byte in H; auto using ToUint32_range.
Qed.

(* ------------------------------------------------------------------ *)
(** ** What a read checks *)

(** [readSlot] in terms of the four fields it reads from the file. *)
Lemma readSlot_in_fields (f : Uint8Array) (offset length : Z) :
  0 <= offset -> 0 <= length ->
  readSlot_in f offset length =
  if len (pread f offset (SLOT_HEADER_SIZE + length)) <? SLOT_HEADER_SIZE + length
  then Err (CorruptedDataError UnexpectedEndOfSlot offset)
  else
    let flags := le_value (pread f offset 4) in
    let dataLength := le_value (pread f (offset + 4) 4) in
    let storedChecksum := le_value (pread f (offset + 12) 4) in
    if negb (JS.truthy (JS.and flags SlotFlags.ACTIVE))
    then Err (CorruptedDataError SlotNotActive offset)
    else if negb (dataLength =? length)
    then Err (CorruptedDataError (DataLengthMismatch length dataLength) offset)
    else
      let data := pread f (offset + SLOT_HEADER_SIZE) length in
      if negb (crc32 data =? storedChecksum)
      then Err (ChecksumMismatchError storedChecksum (crc32 data) (Some offset))
      else Ok data.
Proof.
  intros Ho Hl. unfold readSlot_in, SLOT_HEADER_SIZE.
  rewrite !readUint32_pread by lia.
  rewrite slice_pread by lia.
  replace (offset + 0) with offset by lia.
  replace (16 + length - 16) with length by lia.
  reflexivity.
Qed.

Lemma readSlot_in_length (f : Uint8Array) (offset length : Z) (data : Uint8Array) :
  0 <= offset ->
  readSlot_in f offset length = Ok data ->
  0 <= length < 2 ^ 32 /\ offset + SLOT_HEADER_SIZE + length <= len f /\
  len data = length.
Proof.
  intros Ho H. unfold readSlot_in in H.
  destruct (_ <? _) eqn:E1; [discriminate|].
  destruct (negb (JS.truthy _)); [discriminate|].
  destruct (negb (readUint32 _ 4 =? length)) eqn:E3; [discriminate|].
  destruct (negb (crc32 _ =? _)); [discriminate|].
  apply negb_false_iff, Z.eqb_eq in E3.
  assert (Hr : 0 <= length < 2 ^ 32).
  { rewrite <- E3. unfold readUint32.
    pose proof (le_value_range
      (slice (pread f offset (SLOT_HEADER_SIZE + length)) 4 (4 + 4))) as Hv.
    assert (Z.of_nat (List.length
      (slice (pread f offset (SLOT_HEADER_SIZE + length)) 4 (4 + 4))) <= 4).
    { unfold slice. rewrite length_firstn. lia. }
    assert (256 ^ Z.of_nat (List.length
      (slice (pread f offset (SLOT_HEADER_SIZE + length)) 4 (4 + 4))) <= 256 ^ 4).
    { apply Z.pow_le_mono_r; lia. }
    change (256 ^ 4) with (2 ^ 32) in *. lia. }
  apply Z.ltb_ge in E1. unfold SLOT_HEADER_SIZE in *.
  assert (Hin : offset + (16 + length) <= len f)
    by (apply pread_complete; lia).
  split; [exact Hr|]. split; [lia|].
  replace data with (slice (pread f offset (16 + length)) 16 (16 + length))
    by congruence.
  rewrite slice_pread by lia.
  rewrite len_pread by lia. lia.
Qed.

Lemma len_buf_set_one (a b : Uint8Array) (x v : byte) :
  len (a ++ v :: b) = len (a ++ x :: b).
Proof. unfold len. rewrite !length_app. reflexivity. Qed.

Lemma active_bit (bs : list byte) (v : byte) :
  Z.odd (Z_of_byte v) = false ->
  JS.truthy (JS.and (le_value (v :: bs)) SlotFlags.ACTIVE) = false.
Proof.
  intros Hv. unfold JS.truthy. apply negb_false_iff, Z.eqb_eq.
  unfold JS.and. change (JS.ToInt32 SlotFlags.ACTIVE) with 1.
  apply Z.bits_inj'. intros i Hi. rewrite Z.land_spec, Z.bits_0.
  destruct (Z.eq_dec i 0) as [->|Hnz].
  - rewrite ToInt32_bits_low by lia. cbn [le_value].
    rewrite Z.bit0_odd, Z.odd_add, Hv.
    rewrite Z.odd_mul. reflexivity.
  - replace (Z.testbit 1 i) with false; [apply andb_false_r|].
    symmetry. change 1 with (Z.ones 1). apply Z.ones_spec_high. lia.
Qed.

Lemma readSlot_in_detects (f : Uint8Array) (offset length : Z)
      (data : Uint8Array) (p : Z) (v : byte) :
  0 <= offset ->
  readSlot_in f offset length = Ok data ->
  nth_error f (Z.to_nat p) <> Some v ->
  checked_position offset length p v ->
  integrity_error (readSlot_in (buf_set f p [v]) offset length) = true.
Proof.
  intros Ho Hok Hflip Hpos.
  destruct (readSlot_in_length _ _ _ _ Ho Hok) as (Hl & Hin & Hdata).
  unfold SLOT_HEADER_SIZE in *.
  assert (Hp : 0 <= p < len f) by (unfold checked_position, SLOT_HEADER_SIZE in Hpos; lia).
  destruct (nth_error f (Z.to_nat p)) as [x|] eqn:Hx;
    [|apply nth_error_None in Hx; unfold len in Hp; lia].
  assert (Hxv : x <> v) by congruence.
  destruct (buf_set_one_byte f p x v ltac:(lia) Hx) as (a & b & -> & -> & Ha).
  rewrite readSlot_in_fields in Hok by lia.
  rewrite readSlot_in_fields by lia.
  unfold SLOT_HEADER_SIZE in *.
  rewrite (len_pread (a ++ v :: b)) by (rewrite ?(len_buf_set_one a b x v); lia).
  rewrite (len_pread (a ++ x :: b)) in Hok by lia.
  rewrite Z.ltb_irrefl in *. cbv zeta in *.
  destruct (negb (JS.truthy _)) eqn:Eact in Hok; [discriminate|].
  destruct (negb (_ =? length)) eqn:Elen in Hok; [discriminate|].
  destruct (negb (crc32 _ =? _)) eqn:Ecrc in Hok; [discriminate|].
  apply negb_false_iff in Eact.
  apply negb_false_iff, Z.eqb_eq in Elen.
  apply negb_false_iff, Z.eqb_eq in Ecrc.
  destruct (pread_one_byte a b x v offset 4 ltac:(lia) ltac:(lia))
    as [[Eflags Hflags]|(fa & fb & Eflags & Eflags' & Hfa & Hflags)];
  destruct (pread_one_byte a b x v (offset + 4) 4 ltac:(lia) ltac:(lia))
    as [[Edl Hdl]|(da & db & Edl & Edl' & _ & Hdl)];
  destruct (pread_one_byte a b x v (offset + 12) 4 ltac:(lia) ltac:(lia))
    as [[Esc Hsc]|(sa & sb & Esc & Esc' & _ & Hsc)];
  destruct (pread_one_byte a b x v (offset + 16) length ltac:(lia) ltac:(lia))
    as [[Epl Hpl]|(pa & pb & Epl & Epl' & _ & Hpl)];
  unfold checked_position, SLOT_HEADER_SIZE in Hpos; try lia.
  - (* the payload *)
    rewrite <- Eflags, Eact, <- Edl, Elen, Z.eqb_refl. simpl.
    rewrite <- Esc, <- Ecrc, Epl, Epl'.
    destruct (Z.eqb_spec (crc32 (pa ++ v :: pb)) (crc32 (pa ++ x :: pb))) as [E|E];
      [|reflexivity].
    exfalso. exact (crc32_one_byte pa pb x v Hxv (eq_sym E)).
  - (* the stored checksum *)
    rewrite <- Eflags, Eact, <- Edl, Elen, Z.eqb_refl. simpl.
    rewrite <- Epl, Ecrc, Esc, Esc'.
    destruct (Z.eqb_spec (le_value (sa ++ x :: sb)) (le_value (sa ++ v :: sb)))
      as [E|E]; [|reflexivity].
    exfalso. exact (le_value_one_byte sa sb x v Hxv E).
  - (* the data length *)
    rewrite <- Eflags, Eact. simpl.
    rewrite Edl' . rewrite Edl in Elen.
    destruct (Z.eqb_spec (le_value (da ++ v :: db)) length) as [E|E];
      [|reflexivity].
    exfalso. rewrite <- Elen in E.
    exact (le_value_one_byte da db x v Hxv (eq_sym E)).
  - (* the first flag byte *)
    destruct Hpos as [?|[?|[-> Hv]]]; try lia.
    assert (fa = []) by (destruct fa; [reflexivity|unfold len in *; simpl List.length in Hfa; lia]).
    subst fa. rewrite Eflags'. simpl app.
    rewrite active_bit by exact Hv. reflexivity.
Qed.

Lemma read_fails_with_its_slot `{rt : Runtime} (s : StorageEngine)
      (location : DocumentLocation) :
  integrity_error
    (readSlot_in (file s) (loc_offset location) (loc_length location)) = true ->
  integrity_error (fst (Storage.read location s)) = true.
Proof.
  intros H.
  unfold Storage.read, readBlob, readBlobReference, readSlot, pure_result,
    bind, modify.
  destruct (loc_isBlob location); cbn [file set_docReads];
    destruct (readSlot_in (file s) (loc_offset location) (loc_length location));
    try discriminate; exact H.
Qed.

(** C1 (as the code has it).  A read checks the ACTIVE bit, the
    [dataLength] word, and the checksum against the payload.  For a
    location whose slot reads back, giving a new value to any byte of the
    [dataLength] word, of the checksum word or of the payload, or a value
    with bit 0 clear to the first byte of the flags, makes the next [read]
    of the location fail with [CorruptedData] or [ChecksumMismatch]. *)
Theorem damaged_slot_is_detected `{rt : Runtime} (s : StorageEngine)
        (location : DocumentLocation) (data : Uint8Array) (p : Z) (v : byte) :
  0 <= loc_offset location ->
  readSlot_in (file s) (loc_offset location) (loc_length location) = Ok data ->
  nth_error (file s) (Z.to_nat p) <> Some v ->
  checked_position (loc_offset location) (loc_length location) p v ->
  integrity_error
    (fst (Storage.read location (set_file (buf_set (file s) p [v]) s))) = true.
Proof.
  intros Ho Hok Hflip Hpos.
  apply read_fails_with_its_slot. cbn [file set_file].
  eapply readSlot_in_detects; eassumption.
Qed.

Lemma damaged_slot_is_detected_witness :
  let s := storage Examples.users in
  let location := mkLocation 1088 31 1024 false in
  integrity_error
    (fst (@Storage.read Examples.runtime location
            (set_file (buf_set (file s) 1104 ["255"%byte]) s))) = true.
Proof.
  cbv zeta.
  eapply (@damaged_slot_is_detected Examples.runtime (storage Examples.users)
            (mkLocation 1088 31 1024 false)).
  - vm_compute. discriminate.
  - vm_compute. reflexivity.
  - vm_compute. discriminate.
  - right. left. cbn [loc_offset loc_length]. unfold SLOT_HEADER_SIZE. lia.
Defined.

(** C1 as stated fails on the bytes a read does not look at.  The slot of
    [user_2] is live at offset 1088; inverting the low byte of its
    [slabSize] word (offset 1096, from 00 to ff), or the second byte of its
    flags (offset 1089), leaves the read successful. *)
Lemma slab_size_damage_goes_unnoticed :
  let s := storage Examples.users in
  let location := mkLocation 1088 31 1024 false in
  Map_get (primaryIndex (indexManager Examples.users)) "user_2" = Some location /\
  nth_error (file s) 1096 = Some "000"%byte /\
  fst (@Storage.read Examples.runtime location
         (set_file (buf_set (file s) 1096 ["255"%byte]) s)) = Ok Examples.alice /\
  nth_error (file s) 1089 = Some "000"%byte /\
  fst (@Storage.read Examples.runtime location
         (set_file (buf_set (file s) 1089 ["255"%byte]) s)) = Ok Examples.alice.
Proof.
  cbv zeta. repeat split; vm_compute; reflexivity.
Qed.

(* ------------------------------------------------------------------ *)
(** ** The bytes of a slot and reading them back *)

Lemma len_repeat (n : nat) : len (repeat x00 n) = Z.of_nat n.
Proof. unfold len. rewrite repeat_length. reflexivity. Qed.

Lemma len_le_bytes (n : nat) (v : Z) : len (le_bytes n v) = Z.of_nat n.
Proof. unfold len. rewrite length_le_bytes. reflexivity. Qed.

Lemma skipn_repeat_zero (k n : nat) :
  skipn k (repeat x00 n) = repeat x00 (n - k).
Proof.
  revert k. induction n as [|n IH]; intros [|k]; simpl; auto.
Qed.

(** Writing into the zeroed tail of a buffer that is being filled from
    the left. *)
Lemma buf_set_tail (pre d : Uint8Array) (n : nat) (o : Z) :
  o = len pre ->
  (List.length d <= n)%nat ->
  buf_set (pre ++ repeat x00 n) o d
  = (pre ++ d) ++ repeat x00 (n - List.length d).
Proof.
  intros -> Hd. unfold buf_set, len. rewrite Nat2Z.id.
  rewrite firstn_app, firstn_all, Nat.sub_diag, firstn_0, app_nil_r.
  rewrite skipn_app, skipn_all2 by lia.
  replace (List.length pre + List.length d - List.length pre)%nat
    with (List.length d) by lia.
  rewrite skipn_repeat_zero. simpl. rewrite <- app_assoc. reflexivity.
Qed.

Lemma buf_set_start (d : Uint8Array) (n : nat) :
  (List.length d <= n)%nat ->
  buf_set (repeat x00 n) 0 d = d ++ repeat x00 (n - List.length d).
Proof.
  intros Hd. exact (buf_set_tail [] d n 0 eq_refl Hd).
Qed.

Lemma len_slot_header flags data slabSize :
  len (slot_header flags data slabSize) = 16.
Proof.
  unfold slot_header. rewrite !len_app, !len_le_bytes. reflexivity.
Qed.

Lemma slotBuffer_layout (flags : Z) (data : Uint8Array) (slabSize : Z) :
  SLOT_HEADER_SIZE + len data <= slabSize ->
  slotBuffer flags data slabSize
  = slot_header flags data slabSize ++ data
      ++ repeat x00 (Z.to_nat slabSize - 16 - List.length data).
Proof.
  unfold SLOT_HEADER_SIZE. intros Hfit.
  pose proof (len_nonneg data) as Hd. unfold len in Hfit, Hd.
  unfold slotBuffer, writeUint32, new_Uint8Array, slot_header, SLOT_HEADER_SIZE.
  set (w1 := le_bytes 4 (JS.ToUint32 flags)).
  set (w2 := le_bytes 4 (JS.ToUint32 (len data))).
  set (w3 := le_bytes 4 (JS.ToUint32 slabSize)).
  set (w4 := le_bytes 4 (JS.ToUint32 (crc32 data))).
  assert (L1 : List.length w1 = 4%nat) by apply length_le_bytes.
  assert (L2 : List.length w2 = 4%nat) by apply length_le_bytes.
  assert (L3 : List.length w3 = 4%nat) by apply length_le_bytes.
  assert (L4 : List.length w4 = 4%nat) by apply length_le_bytes.
  rewrite buf_set_start by lia.
  rewrite (buf_set_tail w1); [|unfold len; lia|lia].
  rewrite (buf_set_tail (w1 ++ w2));
    [|unfold len; rewrite ?length_app; lia|lia].
  rewrite (buf_set_tail ((w1 ++ w2) ++ w3));
    [|unfold len; rewrite ?length_app; lia|lia].
  rewrite (buf_set_tail (((w1 ++ w2) ++ w3) ++ w4));
    [|unfold len; rewrite ?length_app; lia|lia].
  rewrite <- !app_assoc. do 5 f_equal. f_equal. lia.
Qed.

Lemma len_slotBuffer (flags : Z) (data : Uint8Array) (slabSize : Z) :
  SLOT_HEADER_SIZE + len data <= slabSize ->
  len (slotBuffer flags data slabSize) = slabSize.
Proof.
  intros Hfit. rewrite slotBuffer_layout by assumption.
  unfold SLOT_HEADER_SIZE in Hfit. pose proof (len_nonneg data) as Hd.
  rewrite !len_app, len_slot_header, len_repeat. unfold len in *. lia.
Qed.

(** Reading inside the middle part of a file. *)
Lemma pread_middle (pre x post : Uint8Array) (k m : Z) :
  0 <= k -> 0 <= m -> k + m <= len x ->
  pread (pre ++ x ++ post) (len pre + k) m = pread x k m.
Proof.
  intros Hk Hm Hin. unfold pread, len in *.
  rewrite skipn_app, skipn_all2 by lia. simpl app.
  replace (Z.to_nat (Z.of_nat (List.length pre) + k) - List.length pre)%nat
    with (Z.to_nat k) by lia.
  rewrite skipn_app, firstn_app, length_skipn.
  replace (Z.to_nat m - (List.length x - Z.to_nat k))%nat with 0%nat by lia.
  rewrite firstn_0, app_nil_r. reflexivity.
Qed.

Lemma pread_middle0 (pre x post : Uint8Array) (m : Z) :
  0 <= m -> m <= len x ->
  pread (pre ++ x ++ post) (len pre) m = pread x 0 m.
Proof.
  intros. replace (len pre) with (len pre + 0) at 1 by lia.
  apply pread_middle; lia.
Qed.

Lemma pread_prefix (x rest : Uint8Array) (n : Z) :
  n = len x -> pread (x ++ rest) 0 n = x.
Proof.
  intros ->. unfold pread, len. rewrite Nat2Z.id. simpl skipn.
  rewrite firstn_app, firstn_all, Nat.sub_diag, firstn_0, app_nil_r.
  reflexivity.
Qed.

Lemma pread_skip (x rest : Uint8Array) (k m : Z) :
  k = len x -> 0 <= m -> pread (x ++ rest) k m = pread rest 0 m.
Proof.
  intros -> Hm. unfold pread, len. rewrite Nat2Z.id, skipn_app, skipn_all.
  rewrite Nat.sub_diag. reflexivity.
Qed.

Lemma slot_flags_active (isBlob : bool) :
  JS.truthy (JS.and (JS.ToUint32 (slot_flags isBlob)) SlotFlags.ACTIVE) = true.
Proof. destruct isBlob; vm_compute; reflexivity. Qed.

(** A slot buffer placed at [offset] reads back as its payload. *)
Lemma readSlot_in_slotBuffer (pre post data : Uint8Array) (flags slabSize : Z) :
  SLOT_HEADER_SIZE + len data <= slabSize ->
  len data < 2 ^ 32 ->
  JS.truthy (JS.and (JS.ToUint32 flags) SlotFlags.ACTIVE) = true ->
  readSlot_in (pre ++ slotBuffer flags data slabSize ++ post) (len pre) (len data)
  = Ok data.
Proof.
  intros Hfit Hsmall Hactive.
  pose proof (len_nonneg data) as Hd. pose proof (len_nonneg pre) as Hp.
  pose proof (len_slotBuffer flags data slabSize Hfit) as Hlen.
  unfold SLOT_HEADER_SIZE in *.
  rewrite readSlot_in_fields by lia. unfold SLOT_HEADER_SIZE.
  rewrite !pread_middle by lia.
  rewrite !pread_middle0 by lia.
  rewrite slotBuffer_layout by (unfold SLOT_HEADER_SIZE; lia).
  set (tail := repeat x00 _).
  rewrite len_pread
    by (rewrite ?len_app, ?len_slot_header; pose proof (len_nonneg tail); lia).
  rewrite Z.ltb_irrefl. cbv zeta.
  unfold slot_header. rewrite <- !app_assoc.
  set (w1 := le_bytes 4 (JS.ToUint32 flags)).
  set (w2 := le_bytes 4 (JS.ToUint32 (len data))).
  set (w3 := le_bytes 4 (JS.ToUint32 slabSize)).
  set (w4 := le_bytes 4 (JS.ToUint32 (crc32 data))).
  assert (L1 : len w1 = 4) by apply len_le_bytes.
  assert (L2 : len w2 = 4) by apply len_le_bytes.
  assert (L3 : len w3 = 4) by apply len_le_bytes.
  assert (L4 : len w4 = 4) by apply len_le_bytes.
  rewrite (pread_prefix w1) by lia.
  rewrite (pread_skip w1 _ 4) by lia. rewrite (pread_prefix w2) by lia.
  replace (w1 ++ w2 ++ w3 ++ w4 ++ data ++ tail)
    with ((w1 ++ w2 ++ w3) ++ w4 ++ data ++ tail) by (rewrite <- !app_assoc; reflexivity).
  rewrite (pread_skip (w1 ++ w2 ++ w3) _ 12) by (rewrite ?len_app; lia).
  rewrite (pread_prefix w4) by lia.
  replace ((w1 ++ w2 ++ w3) ++ w4 ++ data ++ tail)
    with ((w1 ++ w2 ++ w3 ++ w4) ++ data ++ tail) by (rewrite <- !app_assoc; reflexivity).
  rewrite (pread_skip (w1 ++ w2 ++ w3 ++ w4) _ 16) by (rewrite ?len_app; lia).
  rewrite (pread_prefix data) by lia.
  subst w1 w2 w4. rewrite !le_value_le_bytes.
  change (256 ^ Z.of_nat 4) with (2 ^ 32).
  rewrite !(Z.mod_small (JS.ToUint32 _)) by apply ToUint32_range.
  rewrite Hactive. cbn [negb].
  rewrite (ToUint32_small (len data)) by lia. rewrite Z.eqb_refl. cbn [negb].
  rewrite (ToUint32_small (crc32 data)) by apply crc32_range.
  rewrite Z.eqb_refl. reflexivity.
Qed.

(* ------------------------------------------------------------------ *)
(** ** Compaction *)

Lemma len_headerBytes (h : DataFileHeader) : len (headerBytes h) = DATA_HEADER_SIZE.
Proof.
  unfold headerBytes, writeUint32, writeUint64, new_Uint8Array, DATA_HEADER_SIZE.
  set (w1 := le_bytes 4 _). set (w2 := le_bytes 4 _).
  set (d1 := le_bytes 8 _). set (d2 := le_bytes 8 _).
  set (d3 := le_bytes 8 _). set (d4 := le_bytes 8 _).
  assert (L1 : List.length w1 = 4%nat) by apply length_le_bytes.
  assert (L2 : List.length w2 = 4%nat) by apply length_le_bytes.
  assert (L3 : List.length d1 = 8%nat) by apply length_le_bytes.
  assert (L4 : List.length d2 = 8%nat) by apply length_le_bytes.
  assert (L5 : List.length d3 = 8%nat) by apply length_le_bytes.
  assert (L6 : List.length d4 = 8%nat) by apply length_le_bytes.
  rewrite buf_set_start by lia.
  rewrite (buf_set_tail w1); [|unfold len; lia|lia].
  rewrite (buf_set_tail (w1 ++ w2));
    [|unfold len; rewrite ?length_app; lia|lia].
  rewrite (buf_set_tail ((w1 ++ w2) ++ d1));
    [|unfold len; rewrite ?length_app; lia|lia].
  rewrite (buf_set_tail (((w1 ++ w2) ++ d1) ++ d2));
    [|unfold len; rewrite ?length_app; lia|lia].
  rewrite (buf_set_tail ((((w1 ++ w2) ++ d1) ++ d2) ++ d3));
    [|unfold len; rewrite ?length_app; lia|lia].
  unfold len. rewrite !length_app, repeat_length. lia.
Qed.

Lemma readSlot_in_payload (f : Uint8Array) (offset length : Z) (data : Uint8Array) :
  readSlot_in f offset length = Ok data ->
  0 <= length < 2 ^ 32 /\ len data = length.
Proof.
  intros H. unfold readSlot_in in H.
  destruct (_ <? _) eqn:E1; [discriminate|].
  destruct (negb (JS.truthy _)); [discriminate|].
  destruct (negb (readUint32 _ 4 =? length)) eqn:E3; [discriminate|].
  destruct (negb (crc32 _ =? _)); [discriminate|].
  apply negb_false_iff, Z.eqb_eq in E3. apply Z.ltb_ge in E1.
  assert (Hr : 0 <= length < 2 ^ 32).
  { rewrite <- E3. unfold readUint32.
    match goal with |- 0 <= le_value ?l < _ =>
      pose proof (le_value_range l) as Hv;
      assert (Z.of_nat (List.length l) <= 4)
        by (unfold slice; rewrite length_firstn; lia);
      assert (256 ^ Z.of_nat (List.length l) <= 256 ^ 4)
        by (apply Z.pow_le_mono_r; lia)
    end.
    change (256 ^ 4) with (2 ^ 32) in *. lia. }
  split; [exact Hr|].
  replace data
    with (slice (pread f offset (SLOT_HEADER_SIZE + length)) SLOT_HEADER_SIZE
            (SLOT_HEADER_SIZE + length)) by congruence.
  unfold slice, len in *. rewrite length_firstn, length_skipn.
  unfold SLOT_HEADER_SIZE in *. lia.
Qed.

Lemma compact_loop_items `{rt : Runtime} (f : Uint8Array) (index : PrimaryIndex) :
  forall newLocations offset total chunks locs offset' total',
    compact_loop f index newLocations offset total
      = Ok (chunks, locs, offset', total') ->
    exists items,
      map (fun it => fst (fst it)) items = Map_keys index /\
      Forall (fun it => len (snd it) < 2 ^ 32) items /\
      chunks = map item_chunk items /\
      locs = set_all (item_locations items offset) newLocations /\
      offset' = items_end items offset /\
      items_live items total = Some total'.
Proof.
  induction index as [|[id location] rest IH];
    intros nl off total chunks locs off' total' H; cbn [compact_loop] in H.
  - injection H as <- <- <- <-. exists []. repeat split; constructor.
  - destruct (readSlot_in f (loc_offset location) (loc_length location))
      as [data|] eqn:Hread; [|discriminate].
    set (live := if loc_isBlob location then _ else _) in H.
    destruct live as [bytes|] eqn:Hlive; [|discriminate].
    destruct (compact_loop f rest _ _ _) as [[[[chunks0 locs0] off0] total0]|] eqn:Hrest;
      [|discriminate].
    injection H as <- <- <- <-.
    destruct (IH _ _ _ _ _ _ _ Hrest) as (items & Hk & Hs & -> & -> & -> & Hl).
    exists ((id, loc_isBlob location, data) :: items).
    assert (Hsmall : len data < 2 ^ 32).
    { destruct (readSlot_in_payload _ _ _ _ Hread) as [Hr Hd]. lia. }
    repeat split.
    + cbn [map fst snd Map_keys]. f_equal. exact Hk.
    + constructor; assumption.
    + cbn [items_live fst snd]. subst live.
      destruct (loc_isBlob location).
      * destruct (JSON_parse_ref data); [|discriminate].
        injection Hlive as <-. exact Hl.
      * injection Hlive as <-. exact Hl.
Qed.

Lemma item_slab_fits (it : packed_item) :
  SLOT_HEADER_SIZE + len (snd it) <= item_slab it.
Proof.
  unfold item_slab. pose proof (selectSlabSize_fits (len (snd it))). lia.
Qed.

Lemma len_item_chunk (it : packed_item) : len (item_chunk it) = item_slab it.
Proof. unfold item_chunk. apply len_slotBuffer, item_slab_fits. Qed.

Lemma readSlot_in_item (pre post : Uint8Array) (it : packed_item) :
  len (snd it) < 2 ^ 32 ->
  readSlot_in (pre ++ item_chunk it ++ post) (len pre) (len (snd it)) = Ok (snd it).
Proof.
  intros Hsmall. unfold item_chunk.
  apply readSlot_in_slotBuffer; [apply item_slab_fits|assumption|apply slot_flags_active].
Qed.

Lemma compact_loop_packed `{rt : Runtime} (items : list packed_item) :
  Forall (fun it => len (snd it) < 2 ^ 32) items ->
  forall pre post newLocations total total',
    items_live items total = Some total' ->
    compact_loop (pre ++ List.concat (map item_chunk items) ++ post)
      (item_locations items (len pre)) newLocations (len pre) total
    = Ok (map item_chunk items,
          set_all (item_locations items (len pre)) newLocations,
          items_end items (len pre), total').
Proof.
  induction 1 as [|it items Hsmall Hall IH];
    intros pre post nl total total' Hlive.
  - cbn [items_live] in Hlive. injection Hlive as <-. reflexivity.
  - cbn [item_locations map List.concat compact_loop fst snd
           loc_offset loc_length loc_isBlob].
    rewrite <- app_assoc.
    rewrite readSlot_in_item by assumption.
    cbn [items_live] in Hlive.
    fold (item_slab it).
    destruct (snd (fst it)) eqn:Hblob.
    + destruct (JSON_parse_ref (snd it)) as [blobRef|]; [|discriminate].
      specialize (IH (pre ++ item_chunk it) post
                    (Map_set nl (fst (fst it))
                       (mkLocation (len pre) (len (snd it)) (item_slab it) true))
                    _ _ Hlive).
      rewrite len_app, len_item_chunk, <- app_assoc in IH.
      rewrite IH.
      change (item_chunk it)
        with (slotBuffer (slot_flags (snd (fst it))) (snd it) (item_slab it)).
      rewrite Hblob. reflexivity.
    + specialize (IH (pre ++ item_chunk it) post
                    (Map_set nl (fst (fst it))
                       (mkLocation (len pre) (len (snd it)) (item_slab it) false))
                    _ _ Hlive).
      rewrite len_app, len_item_chunk, <- app_assoc in IH.
      rewrite IH.
      change (item_chunk it)
        with (slotBuffer (slot_flags (snd (fst it))) (snd it) (item_slab it)).
      rewrite Hblob. reflexivity.
Qed.

Lemma Map_set_fresh {V} (m : JSMap V) (k : string) (v : V) :
  ~ In k (Map_keys m) -> Map_set m k v = m ++ [(k, v)].
Proof.
  induction m as [|[k' v'] m IH]; cbn [Map_set Map_keys map fst app]; intros Hk.
  - reflexivity.
  - destruct (String.eqb_spec k' k) as [->|Hne].
    + exfalso. apply Hk. left. reflexivity.
    + rewrite IH; [reflexivity|]. intros Hin. apply Hk. right. exact Hin.
Qed.

Lemma Map_set_after {V} (done m : JSMap V) (k : string) (v : V) :
  ~ In k (Map_keys done) -> Map_set (done ++ m) k v = done ++ Map_set m k v.
Proof.
  induction done as [|[k' v'] done IH]; cbn [Map_set Map_keys map fst app]; intros Hk.
  - reflexivity.
  - destruct (String.eqb_spec k' k) as [->|Hne].
    + exfalso. apply Hk. left. reflexivity.
    + rewrite IH; [reflexivity|]. intros Hin. apply Hk. right. exact Hin.
Qed.

Lemma Map_keys_app {V} (a b : JSMap V) :
  Map_keys (a ++ b) = Map_keys a ++ Map_keys b.
Proof. unfold Map_keys. apply map_app. Qed.

(** Setting the entries of a map with distinct keys into the empty map
    lists them in order. *)
Lemma set_all_fresh (entries done : PrimaryIndex) :
  NoDup (Map_keys entries) ->
  (forall k, In k (Map_keys entries) -> ~ In k (Map_keys done)) ->
  set_all entries done = done ++ entries.
Proof.
  revert done. induction entries as [|[k v] entries IH]; intros done Hnd Hfresh.
  - unfold set_all. simpl. rewrite app_nil_r. reflexivity.
  - unfold set_all in *. cbn [fold_left fst snd].
    inversion Hnd as [|? ? Hk Hnd']; subst.
    rewrite Map_set_fresh by (apply Hfresh; left; reflexivity).
    rewrite IH; [rewrite <- app_assoc; reflexivity|exact Hnd'|].
    intros k' Hin. rewrite Map_keys_app. intros Hin'.
    apply in_app_or in Hin'. destruct Hin' as [Hin'|[<-|[]]].
    + apply (Hfresh k'); [right; exact Hin|exact Hin'].
    + apply Hk. exact Hin.
Qed.

(** Setting new values for the keys of a map, in the order of the map,
    replaces every entry in place. *)
Lemma set_all_in_place (entries done index : PrimaryIndex) :
  Map_keys index = Map_keys entries ->
  NoDup (Map_keys entries) ->
  (forall k, In k (Map_keys entries) -> ~ In k (Map_keys done)) ->
  set_all entries (done ++ index) = done ++ entries.
Proof.
  revert done index.
  induction entries as [|[k v] entries IH]; intros done index Hkeys Hnd Hfresh.
  - destruct index; [reflexivity|discriminate].
  - destruct index as [|[k0 v0] index]; [discriminate|].
    cbn [Map_keys map fst] in Hkeys. injection Hkeys as -> Hkeys.
    unfold set_all in *. cbn [fold_left fst snd].
    inversion Hnd as [|? ? Hk Hnd']; subst.
    rewrite Map_set_after by (apply Hfresh; left; reflexivity).
    cbn [Map_set]. rewrite String.eqb_refl.
    change (done ++ (k, v) :: index) with (done ++ [(k, v)] ++ index).
    rewrite app_assoc.
    rewrite IH; [rewrite <- app_assoc; reflexivity|exact Hkeys|exact Hnd'|].
    intros k' Hin. rewrite Map_keys_app. intros Hin'.
    apply in_app_or in Hin'. destruct Hin' as [Hin'|[<-|[]]].
    + apply (Hfresh k'); [right; exact Hin|exact Hin'].
    + apply Hk. exact Hin.
Qed.

Lemma item_locations_keys (items : list packed_item) (offset : Z) :
  Map_keys (item_locations items offset) = map (fun it => fst (fst it)) items.
Proof.
  revert offset. induction items as [|it items IH]; intros offset.
  - reflexivity.
  - cbn [item_locations Map_keys map fst]. f_equal. apply IH.
Qed.

Lemma for_each_updateLocation (entries : PrimaryIndex) (c : Collection) :
  for_each (fun entry => onIndex (Index.updateLocation (fst entry) (snd entry)))
    entries c
  = (Ok (map (fun _ => tt) entries),
     set_indexManager
       (fold_left (fun m entry => Index.updateLocation (fst entry) (snd entry) m)
          entries (indexManager c)) c).
Proof.
  revert c. induction entries as [|e entries IH]; intros c.
  - destruct c. reflexivity.
  - cbn [for_each fold_left map]. unfold bind at 1.
    unfold onIndex at 1, modify at 1.
    unfold bind at 1. rewrite IH. unfold ret. cbn [indexManager set_indexManager].
    reflexivity.
Qed.

Lemma updateLocation_fold (entries : PrimaryIndex) (m : IndexManager) :
  primaryIndex
    (fold_left (fun m entry => Index.updateLocation (fst entry) (snd entry) m)
       entries m)
  = set_all entries (primaryIndex m).
Proof.
  revert m. induction entries as [|e entries IH]; intros m.
  - reflexivity.
  - cbn [fold_left]. rewrite IH. reflexivity.
Qed.

(** The outcome of [Collection.compact] in terms of the loop. *)
Lemma compact_outcome `{rt : Runtime} (c : Collection) :
  match compact_loop (file (storage c)) (primaryIndex (indexManager c)) []
          DATA_HEADER_SIZE 0 with
  | Err e => Collection.compact c = (Err e, c)
  | Ok (chunks, newLocations, newOffset, totalLiveData) =>
      exists r c',
        Collection.compact c = (Ok r, c') /\
        res_bytesFreed r = fileSize (header (storage c)) - newOffset /\
        file (storage c')
        = headerBytes
            (mkHeader DATA_FILE_MAGIC FORMAT_VERSION newOffset totalLiveData
               (Map_size (primaryIndex (indexManager c))) newOffset)
            ++ List.concat chunks /\
        fileSize (header (storage c')) = newOffset /\
        primaryIndex (indexManager c')
        = set_all newLocations (primaryIndex (indexManager c))
  end.
Proof.
  unfold Collection.compact, Storage.compact, Index.getPrimaryIndex,
    bind, gets, onStorage, throw, modify, ret, updateSharedState.
  cbn beta iota zeta.
  destruct (compact_loop (file (storage c)) (primaryIndex (indexManager c)) []
              DATA_HEADER_SIZE 0)
    as [[[[chunks newLocations] newOffset] totalLiveData]|e].
  - unfold modify. cbn beta iota zeta. cbn [storage set_storage indexManager fst snd].
    rewrite for_each_updateLocation.
    unfold onIndex, modify. cbn beta iota zeta.
    do 2 eexists. split; [reflexivity|].
    cbn [res_bytesFreed storage indexManager set_storage set_indexManager
           file header set_file set_header set_freeList set_sharedView
           set_diskWrites fileSize List.concat primaryIndex Index.persist].
    repeat split; try reflexivity.
    apply updateLocation_fold.
  - destruct c. reflexivity.
Qed.

(** C3.  When a compaction returns, a second compaction of the state it
    leaves returns too, frees zero bytes, and writes a data file that is
    byte for byte the file of the first. *)
Theorem compaction_is_idempotent `{rt : Runtime} (c c1 : Collection)
        (r1 : CompactionResult) :
  NoDup (Map_keys (primaryIndex (indexManager c))) ->
  Collection.compact c = (Ok r1, c1) ->
  exists r2 c2,
    Collection.compact c1 = (Ok r2, c2) /\
    res_bytesFreed r2 = 0 /\
    file (storage c2) = file (storage c1).
Proof.
  intros Hnd H1.
  pose proof (compact_outcome c) as Hc.
  destruct (compact_loop (file (storage c)) (primaryIndex (indexManager c)) []
              DATA_HEADER_SIZE 0)
    as [[[[chunks newLocations] newOffset] totalLiveData]|e] eqn:Hloop;
    [|rewrite Hc in H1; discriminate].
  destruct Hc as (r & c' & Hrun & _ & Hfile & Hsize & Hindex).
  rewrite Hrun in H1. injection H1 as <- <-.
  destruct (compact_loop_items _ _ _ _ _ _ _ _ _ Hloop)
    as (items & Hkeys & Hsmall & -> & -> & -> & Hlive).
  set (news := item_locations items DATA_HEADER_SIZE) in *.
  assert (Hnews : Map_keys news = Map_keys (primaryIndex (indexManager c)))
    by (unfold news; rewrite item_locations_keys; exact Hkeys).
  assert (Hnd' : NoDup (Map_keys news)) by (rewrite Hnews; exact Hnd).
  assert (Hfresh : set_all news [] = news)
    by (apply (set_all_fresh news []); [exact Hnd'|intros k _ []]).
  rewrite Hfresh in Hindex.
  assert (Hidx : primaryIndex (indexManager c') = news).
  { rewrite Hindex.
    apply (set_all_in_place news [] (primaryIndex (indexManager c)));
      [symmetry; exact Hnews|exact Hnd'|intros k _ []]. }
  set (h1 := mkHeader DATA_FILE_MAGIC FORMAT_VERSION
               (items_end items DATA_HEADER_SIZE) totalLiveData
               (Map_size (primaryIndex (indexManager c)))
               (items_end items DATA_HEADER_SIZE)) in *.
  pose proof (compact_outcome c') as Hc2.
  rewrite Hidx, Hfile in Hc2.
  pose proof (compact_loop_packed items Hsmall (headerBytes h1) [] [] 0
                totalLiveData Hlive) as Hsecond.
  rewrite len_headerBytes, app_nil_r in Hsecond. fold news in Hsecond.
  rewrite Hsecond in Hc2.
  destruct Hc2 as (r2 & c2 & Hrun2 & Hfreed & Hfile2 & _).
  exists r2, c2. split; [exact Hrun2|]. split.
  - rewrite Hfreed, Hsize. lia.
  - rewrite Hfile2, Hfile. f_equal. unfold h1. f_equal.
    unfold Map_size. f_equal. f_equal.
    apply (f_equal (@List.length string)) in Hnews.
    unfold Map_keys in Hnews. rewrite !length_map in Hnews. exact Hnews.
Qed.

Lemma compaction_is_idempotent_witness :
  exists r2 c2,
    @Collection.compact Examples.runtime
      (snd (@Collection.compact Examples.runtime Examples.users)) = (Ok r2, c2) /\
    res_bytesFreed r2 = 0 /\
    file (storage c2)
    = file (storage (snd (@Collection.compact Examples.runtime Examples.users))).
Proof.
  eapply (@compaction_is_idempotent Examples.runtime Examples.users).
  - vm_compute. repeat constructor; simpl; intuition discriminate.
  - vm_compute. reflexivity.
Defined.

(* ------------------------------------------------------------------ *)
(** ** Reasoning about operations: weakest preconditions *)

Section WP.
Context {S : Type}.
Implicit Types (s : S) (E : error -> S -> Prop).

Lemma wp_ret {A} (a : A) (Q : A -> S -> Prop) E s : Q a s -> wp (ret a) Q E s.
Proof. exact (fun H => H). Qed.

Lemma wp_throw {A} (e : error) (Q : A -> S -> Prop) E s :
  E e s -> wp (throw e) Q E s.
Proof. exact (fun H => H). Qed.

Lemma wp_gets {A} (f : S -> A) (Q : A -> S -> Prop) E s :
  Q (f s) s -> wp (gets f) Q E s.
Proof. exact (fun H => H). Qed.

Lemma wp_modify (f : S -> S) (Q : unit -> S -> Prop) E s :
  Q tt (f s) -> wp (modify f) Q E s.
Proof. exact (fun H => H). Qed.

Lemma wp_bind {A B} (c : M S A) (k : A -> M S B) (Q : B -> S -> Prop) E s :
  wp c (fun a s' => wp (k a) Q E s') E s -> wp (bind c k) Q E s.
Proof.
  unfold wp, bind. destruct (c s) as [[a|e] s']; exact (fun H => H).
Qed.

Lemma wp_mono {A} (c : M S A) (Q Q' : A -> S -> Prop) E E' s :
  wp c Q E s ->
  (forall a s', Q a s' -> Q' a s') ->
  (forall e s', E e s' -> E' e s') ->
  wp c Q' E' s.
Proof.
  unfold wp. destruct (c s) as [[a|e] s']; intros H HQ HE; auto.
Qed.

Lemma wp_when (b : bool) (c : M S unit) (Q : unit -> S -> Prop) E s :
  (b = true -> wp c Q E s) -> (b = false -> Q tt s) -> wp (when b c) Q E s.
Proof.
  destruct b; intros H1 H2; [apply H1|apply H2]; reflexivity.
Qed.

(** A loop keeps an invariant that every iteration keeps, whether the
    iteration returns or throws. *)
Lemma wp_for_each {A B} (f : A -> M S B) (xs : list A) (I : S -> Prop) s :
  (forall x s, In x xs -> I s -> wp (f x) (fun _ => I) (fun _ => I) s) ->
  I s -> wp (for_each f xs) (fun _ => I) (fun _ => I) s.
Proof.
  revert s. induction xs as [|x xs IH]; intros s Hf HI.
  - exact HI.
  - cbn [for_each]. apply wp_bind.
    eapply wp_mono; [apply Hf; [left; reflexivity|exact HI]| |auto].
    intros y s1 H1. apply wp_bind.
    eapply wp_mono; [apply IH; [|exact H1]| |auto].
    + intros x' s' Hin. apply Hf. right. exact Hin.
    + intros ys s2 H2. exact H2.
Qed.

Lemma wp_try_finally {A} (body : M S A) (fin : M S unit)
      (Q : A -> S -> Prop) E s :
  wp body (fun a s1 => wp fin (fun _ => Q a) E s1)
          (fun e s1 => wp fin (fun _ => E e) E s1) s ->
  wp (try_finally body fin) Q E s.
Proof.
  unfold wp, try_finally. destruct (body s) as [[a|e] s1];
    destruct (fin s1) as [[[]|e'] s2]; exact (fun H => H).
Qed.
End WP.

Lemma wp_pure_result {S A} (f : S -> result A) (Q : A -> S -> Prop)
      (E : error -> S -> Prop) (s : S) :
  match f s with Ok a => Q a s | Err e => E e s end ->
  wp (pure_result f) Q E s.
Proof. unfold wp, pure_result. destruct (f s); exact (fun H => H). Qed.

Lemma wp_onStorage {A} (c : Eng A) (Q : A -> Collection -> Prop)
      (E : error -> Collection -> Prop) (cs : Collection) :
  wp c (fun a st => Q a (set_storage st cs)) (fun e st => E e (set_storage st cs))
    (storage cs) ->
  wp (onStorage c) Q E cs.
Proof.
  unfold wp, onStorage. destruct (c (storage cs)) as [[a|e] st]; exact (fun H => H).
Qed.

Lemma wp_run {S A} (c : M S A) (Q : A -> S -> Prop) (E : error -> S -> Prop) (s : S) :
  wp c Q E s ->
  match fst (c s) with
  | Ok a => Q a (snd (c s))
  | Err e => E e (snd (c s))
  end.
Proof. unfold wp. destruct (c s) as [[a|e] s']; exact (fun H => H). Qed.

(** One step of symbolic execution. *)
Ltac wp_step :=
  lazymatch goal with
  | |- wp (bind _ _) _ _ _ => apply wp_bind
  | |- wp (ret _) _ _ _ => apply wp_ret
  | |- wp (throw _) _ _ _ => apply wp_throw
  | |- wp (gets _) _ _ _ => apply wp_gets
  | |- wp (modify _) _ _ _ => apply wp_modify
  | |- wp (onStorage _) _ _ _ => apply wp_onStorage
  | |- wp (try_finally _ _) _ _ _ => apply wp_try_finally
  end.

(* ------------------------------------------------------------------ *)
(** ** Positional writes *)

Lemma pwrite_inside (f : Uint8Array) (w : Z) (d : Uint8Array) :
  0 <= w <= len f ->
  pwrite f w d
  = firstn (Z.to_nat w) f ++ d ++ skipn (Z.to_nat w + List.length d) f.
Proof.
  intros Hw. unfold pwrite, len in *.
  replace (Z.to_nat w - List.length f)%nat with 0%nat by lia. reflexivity.
Qed.

Lemma len_firstn_to_nat (f : Uint8Array) (w : Z) :
  0 <= w <= len f -> len (firstn (Z.to_nat w) f) = w.
Proof. unfold len. intros. rewrite length_firstn. lia. Qed.

Lemma len_pwrite (f : Uint8Array) (w : Z) (d : Uint8Array) :
  0 <= w <= len f -> len (pwrite f w d) = Z.max (len f) (w + len d).
Proof.
  intros Hw. rewrite pwrite_inside by assumption. unfold len in *.
  rewrite !length_app, length_firstn, length_skipn. lia.
Qed.

(** A read that does not meet the written range sees the old bytes. *)
Lemma pread_pwrite_frame (f : Uint8Array) (w : Z) (d : Uint8Array) (o n : Z) :
  0 <= w <= len f -> 0 <= o -> 0 <= n ->
  o + n <= w \/ w + len d <= o ->
  pread (pwrite f w d) o n = pread f o n.
Proof.
  intros Hw Ho Hn Hdis. rewrite pwrite_inside by assumption.
  unfold pread, len in *. destruct Hdis as [Hlow|Hhigh].
  - rewrite skipn_app, firstn_app, length_skipn, length_firstn.
    replace (Z.to_nat n - (Nat.min (Z.to_nat w) (List.length f) - Z.to_nat o))%nat
      with 0%nat by lia.
    rewrite firstn_0, app_nil_r.
    rewrite skipn_firstn_comm, firstn_firstn. f_equal. lia.
  - rewrite app_assoc, skipn_app.
    rewrite skipn_all2 by (rewrite length_app, length_firstn; lia).
    rewrite length_app, length_firstn. simpl app.
    rewrite skipn_skipn. f_equal. f_equal. lia.
Qed.

(** A read inside the written range sees the written bytes. *)
Lemma pread_pwrite_inside (f : Uint8Array) (w : Z) (d : Uint8Array) (k n : Z) :
  0 <= w <= len f -> 0 <= k -> 0 <= n -> k + n <= len d ->
  pread (pwrite f w d) (w + k) n = pread d k n.
Proof.
  intros Hw Hk Hn Hin. rewrite pwrite_inside by assumption.
  pose proof (len_firstn_to_nat f w Hw) as Hl.
  set (pre := firstn (Z.to_nat w) f) in *. set (post := skipn _ f).
  rewrite <- Hl. apply pread_middle; assumption.
Qed.

Lemma readSlot_in_frame (f f' : Uint8Array) (offset length : Z) :
  pread f' offset (SLOT_HEADER_SIZE + length) = pread f offset (SLOT_HEADER_SIZE + length) ->
  readSlot_in f' offset length = readSlot_in f offset length.
Proof. intros H. unfold readSlot_in. rewrite H. reflexivity. Qed.

Lemma readSlot_in_pwrite (f : Uint8Array) (w : Z) (data : Uint8Array)
      (flags slabSize : Z) :
  0 <= w <= len f ->
  SLOT_HEADER_SIZE + len data <= slabSize ->
  len data < 2 ^ 32 ->
  JS.truthy (JS.and (JS.ToUint32 flags) SlotFlags.ACTIVE) = true ->
  readSlot_in (pwrite f w (slotBuffer flags data slabSize)) w (len data) = Ok data.
Proof.
  intros Hw Hfit Hsmall Hact. rewrite pwrite_inside by assumption.
  pose proof (len_firstn_to_nat f w Hw) as Hl.
  set (pre := firstn (Z.to_nat w) f) in *. set (post := skipn _ f).
  rewrite <- Hl. apply readSlot_in_slotBuffer; assumption.
Qed.

Lemma slab_word_slotBuffer (data : Uint8Array) (flags slabSize : Z) :
  SLOT_HEADER_SIZE + len data <= slabSize ->
  slabSize < 2 ^ 32 ->
  le_value (pread (slotBuffer flags data slabSize) 8 4) = slabSize.
Proof.
  intros Hfit Hsmall.
  pose proof (len_nonneg data) as Hd. unfold SLOT_HEADER_SIZE in *.
  rewrite slotBuffer_layout by (unfold SLOT_HEADER_SIZE; lia).
  unfold slot_header. rewrite <- !app_assoc.
  set (w1 := le_bytes 4 (JS.ToUint32 flags)).
  set (w2 := le_bytes 4 (JS.ToUint32 (len data))).
  set (w3 := le_bytes 4 (JS.ToUint32 slabSize)).
  replace (w1 ++ w2 ++ w3 ++ le_bytes 4 (JS.ToUint32 (crc32 data)) ++ data ++ _)
    with ((w1 ++ w2) ++ w3 ++ le_bytes 4 (JS.ToUint32 (crc32 data)) ++ data
            ++ repeat x00 (Z.to_nat slabSize - 16 - List.length data))
    by (rewrite <- !app_assoc; reflexivity).
  rewrite (pread_skip (w1 ++ w2) _ 8)
    by (rewrite ?len_app; subst w1 w2; rewrite ?len_le_bytes; lia).
  rewrite (pread_prefix w3) by (subst w3; rewrite len_le_bytes; reflexivity).
  subst w3. rewrite le_value_le_bytes. change (256 ^ Z.of_nat 4) with (2 ^ 32).
  rewrite Z.mod_small by apply ToUint32_range.
  apply ToUint32_small. lia.
Qed.

Lemma slabField_slotBuffer (f : Uint8Array) (w : Z) (data : Uint8Array)
      (flags slabSize : Z) :
  0 <= w <= len f ->
  SLOT_HEADER_SIZE + len data <= slabSize ->
  slabSize < 2 ^ 32 ->
  slabField (pwrite f w (slotBuffer flags data slabSize)) w = slabSize.
Proof.
  intros Hw Hfit Hsmall. unfold slabField.
  pose proof (len_nonneg data) as Hd.
  rewrite pread_pwrite_inside
    by (rewrite ?len_slotBuffer; unfold SLOT_HEADER_SIZE in *; lia).
  apply slab_word_slotBuffer; assumption.
Qed.

(* ------------------------------------------------------------------ *)
(** ** The tiling invariant *)

Lemma chain_app (T N : Tiles) (a b : Z) :
  chain (T ++ N) a b <-> exists m, chain T a m /\ chain N m b.
Proof.
  revert a. induction T as [|[o sz] T IH]; intros a; cbn [app chain].
  - split.
    + intros H. exists a. split; [reflexivity|exact H].
    + intros (m & -> & H). exact H.
  - rewrite IH. split.
    + intros (Ho & Hsz & m & H1 & H2). exists m. repeat split; assumption.
    + intros (m & (Ho & Hsz & H1) & H2). repeat split; try assumption.
      exists m. split; assumption.
Qed.

Lemma chain_le (T : Tiles) (a b : Z) : chain T a b -> a <= b.
Proof.
  revert a. induction T as [|[o sz] T IH]; intros a; cbn [chain].
  - lia.
  - intros (_ & Hsz & H). apply IH in H. unfold SLOT_HEADER_SIZE in *. lia.
Qed.

Lemma chain_end (T : Tiles) (a b b' : Z) : chain T a b -> chain T a b' -> b = b'.
Proof.
  revert a. induction T as [|[o sz] T IH]; intros a; cbn [chain].
  - congruence.
  - intros (_ & _ & H) (_ & _ & H'). exact (IH _ H H').
Qed.

Lemma chain_in (T : Tiles) (a b o sz : Z) :
  chain T a b -> In (o, sz) T ->
  a <= o /\ SLOT_HEADER_SIZE <= sz /\ o + sz <= b.
Proof.
  revert a. induction T as [|[o' sz'] T IH]; intros a; cbn [chain In].
  - intros _ [].
  - intros (-> & Hsz & H) [Heq|Hin].
    + injection Heq as <- <-. apply chain_le in H. lia.
    + destruct (IH _ H Hin) as (H1 & H2 & H3).
      unfold SLOT_HEADER_SIZE in *. lia.
Qed.

(** Two tiles of a chain are the same tile or do not overlap. *)
Lemma chain_disjoint (T : Tiles) (a b o sz o' sz' : Z) :
  chain T a b -> In (o, sz) T -> In (o', sz') T ->
  (o = o' /\ sz = sz') \/ o + sz <= o' \/ o' + sz' <= o.
Proof.
  revert a. induction T as [|[o0 sz0] T IH]; intros a; cbn [chain In].
  - intros _ [].
  - intros (-> & Hsz & H) [H1|H1] [H2|H2].
    + injection H1 as <- <-. injection H2 as <- <-. left. split; reflexivity.
    + injection H1 as <- <-. right. left.
      destruct (chain_in _ _ _ _ _ H H2) as (? & ? & ?). lia.
    + injection H2 as <- <-. right. right.
      destruct (chain_in _ _ _ _ _ H H1) as (? & ? & ?). lia.
    + exact (IH _ H H1 H2).
Qed.

Lemma Inv_tile (T : Tiles) (s : StorageEngine) (o sz : Z) :
  Inv T s -> In (o, sz) T ->
  DATA_HEADER_SIZE <= o /\ SLOT_HEADER_SIZE <= sz /\
  o + sz <= nextSlotOffset (header s) /\ o + sz <= len (file s).
Proof.
  intros HI Hin. destruct (chain_in _ _ _ _ _ (inv_chain _ _ HI) Hin) as (? & ? & ?).
  pose proof (inv_len _ _ HI). lia.
Qed.

Lemma Inv_header_in_file (T : Tiles) (s : StorageEngine) :
  Inv T s -> DATA_HEADER_SIZE <= nextSlotOffset (header s) <= len (file s).
Proof.
  intros HI. pose proof (chain_le _ _ _ (inv_chain _ _ HI)).
  pose proof (inv_len _ _ HI). lia.
Qed.

(** The invariant looks at the file, the header and the free list only. *)
Lemma Inv_same (T : Tiles) (s s' : StorageEngine) :
  file s' = file s -> header s' = header s -> freeList s' = freeList s ->
  Inv T s -> Inv T s'.
Proof.
  intros Hf Hh Hl [H1 H2 H3 H4 H5].
  constructor; rewrite ?Hf, ?Hh, ?Hl; assumption.
Qed.

(** A write that stays inside one slot and leaves its size word right. *)
Lemma Inv_write_within (T : Tiles) (s : StorageEngine) (o sz w : Z)
      (d : Uint8Array) :
  Inv T s -> In (o, sz) T ->
  o <= w -> w + len d <= o + sz ->
  (sz < 2 ^ 32 -> slabField (pwrite (file s) w d) o = sz) ->
  Inv T (set_file (pwrite (file s) w d) s).
Proof.
  intros HI Hin Hlow Hhigh Hfield.
  destruct (Inv_tile _ _ _ _ HI Hin) as (Ho & Hsz & Hnext & Hlen).
  pose proof (len_nonneg d) as Hd.
  unfold DATA_HEADER_SIZE, SLOT_HEADER_SIZE in *.
  destruct HI as [H1 H2 H3 H4 H5].
  constructor; cbn [file header freeList set_file]; try assumption.
  - rewrite len_pwrite by lia. lia.
  - intros o' sz' Hin' Hsmall.
    destruct (chain_disjoint _ _ _ _ _ _ _ H1 Hin Hin') as [[<- <-]|Hdis].
    + apply Hfield. exact Hsmall.
    + destruct (chain_in _ _ _ _ _ H1 Hin') as (Ho' & Hsz' & Hnext').
      unfold DATA_HEADER_SIZE, SLOT_HEADER_SIZE in *.
      unfold slabField. rewrite pread_pwrite_frame by lia.
      apply H5; assumption.
Qed.

(** A write at or behind the end of the slots. *)
Lemma Inv_write_beyond (T : Tiles) (s : StorageEngine) (w : Z) (d : Uint8Array) :
  Inv T s ->
  nextSlotOffset (header s) <= w <= len (file s) ->
  Inv T (set_file (pwrite (file s) w d) s).
Proof.
  intros HI Hw. pose proof (Inv_header_in_file _ _ HI) as Hh.
  pose proof (len_nonneg d) as Hd. unfold DATA_HEADER_SIZE in *.
  destruct HI as [H1 H2 H3 H4 H5].
  constructor; cbn [file header freeList set_file]; try assumption.
  - rewrite len_pwrite by lia. lia.
  - intros o' sz' Hin' Hsmall.
    destruct (chain_in _ _ _ _ _ H1 Hin') as (Ho' & Hsz' & Hnext').
    unfold DATA_HEADER_SIZE, SLOT_HEADER_SIZE in *.
    unfold slabField. rewrite pread_pwrite_frame by lia.
    apply H5; assumption.
Qed.

(** A write of the file header. *)
Lemma Inv_write_header (T : Tiles) (s : StorageEngine) (d : Uint8Array) :
  Inv T s -> len d <= DATA_HEADER_SIZE ->
  Inv T (set_file (pwrite (file s) 0 d) s).
Proof.
  intros HI Hw. pose proof (Inv_header_in_file _ _ HI) as Hh.
  pose proof (len_nonneg d) as Hd. unfold DATA_HEADER_SIZE in *.
  destruct HI as [H1 H2 H3 H4 H5].
  constructor; cbn [file header freeList set_file]; try assumption.
  - rewrite len_pwrite by lia. lia.
  - intros o' sz' Hin' Hsmall.
    destruct (chain_in _ _ _ _ _ H1 Hin') as (Ho' & Hsz' & Hnext').
    unfold DATA_HEADER_SIZE, SLOT_HEADER_SIZE in *.
    unfold slabField. rewrite pread_pwrite_frame by lia.
    apply H5; assumption.
Qed.

(** The header moves behind a slot that was written at the end. *)
Lemma Inv_advance (T : Tiles) (s : StorageEngine) (sz : Z) :
  Inv T s ->
  SLOT_HEADER_SIZE <= sz ->
  nextSlotOffset (header s) + sz <= len (file s) ->
  (sz < 2 ^ 32 -> slabField (file s) (nextSlotOffset (header s)) = sz) ->
  let next := nextSlotOffset (header s) + sz in
  Inv (T ++ [(nextSlotOffset (header s), sz)])
      (set_header (set_fileSize next (set_nextSlotOffset next (header s))) s).
Proof.
  intros [H1 H2 H3 H4 H5] Hsz Hlen Hfield next.
  constructor; cbn [file header freeList set_header set_fileSize
                      set_nextSlotOffset nextSlotOffset fileSize].
  - apply chain_app. exists (nextSlotOffset (header s)).
    split; [exact H1|]. cbn [chain]. repeat split; try assumption; reflexivity.
  - reflexivity.
  - exact Hlen.
  - intros x Hx. apply in_or_app. left. apply H4. exact Hx.
  - intros o' sz' Hin Hsmall. apply in_app_or in Hin.
    destruct Hin as [Hin|[Heq|[]]].
    + apply H5; assumption.
    + injection Heq as <- <-. apply Hfield. exact Hsmall.
Qed.

Lemma Inv_set_header (T : Tiles) (s : StorageEngine) (h : DataFileHeader) :
  Inv T s ->
  nextSlotOffset h = nextSlotOffset (header s) ->
  fileSize h = fileSize (header s) ->
  Inv T (set_header h s).
Proof.
  intros [H1 H2 H3 H4 H5] Hn Hf.
  constructor; cbn [file header freeList set_header]; rewrite ?Hn, ?Hf; assumption.
Qed.

Lemma Inv_set_freeList (T : Tiles) (s : StorageEngine) (l : list FreeSlot) :
  Inv T s ->
  (forall x, In x l -> In (free_offset x, free_slabSize x) T) ->
  Inv T (set_freeList l s).
Proof.
  intros [H1 H2 H3 H4 H5] Hl.
  constructor; cbn [file header freeList set_freeList]; assumption.
Qed.

Lemma Inv_more_tiles (T N : Tiles) (s : StorageEngine) (o sz : Z) :
  In (o, sz) T -> In (o, sz) (T ++ N).
Proof. intros H. apply in_or_app. left. exact H. Qed.

(** Slots appended after the last one. *)
Lemma Inv_extend (T N : Tiles) (s : StorageEngine) (b : Z) :
  Inv T s ->
  chain N (nextSlotOffset (header s)) b ->
  b <= len (file s) ->
  (forall o sz, In (o, sz) N -> sz < 2 ^ 32 -> slabField (file s) o = sz) ->
  Inv (T ++ N) (set_header (set_fileSize b (set_nextSlotOffset b (header s))) s).
Proof.
  intros [H1 H2 H3 H4 H5] Hchain Hlen Hfield.
  constructor; cbn [file header freeList set_header set_fileSize
                      set_nextSlotOffset nextSlotOffset fileSize].
  - apply chain_app. exists (nextSlotOffset (header s)).
    split; assumption.
  - reflexivity.
  - exact Hlen.
  - intros x Hx. apply in_or_app. left. apply H4. exact Hx.
  - intros o' sz' Hin Hsmall. apply in_app_or in Hin.
    destruct Hin as [Hin|Hin].
    + apply H5; assumption.
    + apply Hfield; assumption.
Qed.

(* ------------------------------------------------------------------ *)
(** ** Steps of the storage engine *)

Lemma grows_refl (B : Prop) (T : Tiles) : grows B T T.
Proof. exists []. split; [symmetry; apply app_nil_r|constructor]. Qed.

Lemma grows_trans (B : Prop) (T1 T2 T3 : Tiles) :
  grows B T1 T2 -> grows B T2 T3 -> grows B T1 T3.
Proof.
  intros (N1 & -> & H1) (N2 & -> & H2). exists (N1 ++ N2).
  split; [symmetry; apply app_assoc|].
  intros HB. apply Forall_app. split; auto.
Qed.

Lemma grows_in (B : Prop) (T T' : Tiles) (t : Z * Z) :
  grows B T T' -> In t T -> In t T'.
Proof. intros (N & -> & _) H. apply in_or_app. left. exact H. Qed.

Lemma grows_one (B : Prop) (T : Tiles) (t : Z * Z) :
  (B -> small t) -> grows B T (T ++ [t]).
Proof. intros H. exists [t]. split; [reflexivity|]. intros HB. constructor; auto. Qed.

Lemma grows_weaken (B B' : Prop) (T T' : Tiles) :
  (B -> B') -> grows B' T T' -> grows B T T'.
Proof. intros HB (N & -> & H). exists N. split; [reflexivity|auto]. Qed.

Lemma grows_small (B : Prop) (T T' : Tiles) :
  grows B T T' -> B -> Forall small T -> Forall small T'.
Proof. intros (N & -> & H) HB HT. apply Forall_app. split; auto. Qed.

Lemma evolves_refl (s : StorageEngine) : evolves s s.
Proof. split; [lia|reflexivity]. Qed.

Lemma evolves_trans (s1 s2 s3 : StorageEngine) :
  evolves s1 s2 -> evolves s2 s3 -> evolves s1 s3.
Proof. intros [H1 H2] [H3 H4]. split; [lia|congruence]. Qed.

Lemma meta_step_refl (s : StorageEngine) : meta_step s s.
Proof. repeat split; reflexivity. Qed.

Lemma meta_step_trans (s1 s2 s3 : StorageEngine) :
  meta_step s1 s2 -> meta_step s2 s3 -> meta_step s1 s3.
Proof.
  intros (A1 & A2 & A3 & A4 & A5 & A6 & A7) (B1 & B2 & B3 & B4 & B5 & B6 & B7).
  repeat split; try congruence.
  intros o n Ho Hn. rewrite B7, A7 by assumption. reflexivity.
Qed.

Lemma meta_step_evolves (s s' : StorageEngine) : meta_step s s' -> evolves s s'.
Proof. intros (_ & _ & H3 & _ & _ & H6 & _). split; [lia|exact H3]. Qed.

Lemma Inv_meta_step (T : Tiles) (s s' : StorageEngine) :
  Inv T s -> meta_step s s' -> Inv T s'.
Proof.
  intros [H1 H2 H3 H4 H5] (A1 & A2 & A3 & A4 & A5 & A6 & A7).
  constructor; rewrite ?A1, ?A4, ?A5, ?A6; try assumption.
  intros o sz Hin Hsmall. unfold slabField.
  destruct (chain_in _ _ _ _ _ H1 Hin) as (Ho & _).
  unfold DATA_HEADER_SIZE in *.
  rewrite A7 by (unfold DATA_HEADER_SIZE; lia). apply H5; assumption.
Qed.

Lemma readSlot_in_meta_step (s s' : StorageEngine) (offset length : Z) :
  meta_step s s' -> DATA_HEADER_SIZE <= offset ->
  readSlot_in (file s') offset length = readSlot_in (file s) offset length.
Proof.
  intros (_ & _ & _ & _ & _ & _ & A7) Ho.
  destruct (Z_le_gt_dec 0 (SLOT_HEADER_SIZE + length)) as [Hn|Hn].
  - apply readSlot_in_frame, A7; assumption.
  - apply readSlot_in_frame. unfold pread, SLOT_HEADER_SIZE in *.
    replace (Z.to_nat (16 + length)) with 0%nat by lia.
    reflexivity.
Qed.

(** Writing the file header is such a step. *)
Lemma meta_step_header (s : StorageEngine) (hb : Uint8Array) (n : nat) :
  len hb = DATA_HEADER_SIZE -> DATA_HEADER_SIZE <= len (file s) ->
  meta_step s (set_diskWrites n (set_file (pwrite (file s) 0 hb) s)).
Proof.
  intros Hhb Hlen. unfold meta_step, DATA_HEADER_SIZE in *.
  repeat split; cbn [file header freeList blobFiles blobThreshold
                       set_diskWrites set_file]; try reflexivity.
  - rewrite len_pwrite by lia. lia.
  - intros o m Ho Hm. apply pread_pwrite_frame; lia.
Qed.

Section Steps.
Context `{rt : Runtime}.

Lemma wp_modify_header (f : DataFileHeader -> DataFileHeader) Q E s :
  (forall h, nextSlotOffset (f h) = nextSlotOffset h) ->
  (forall h, fileSize (f h) = fileSize h) ->
  (forall s', meta_step s s' -> Q tt s') ->
  wp (modify_header f) Q E s.
Proof.
  intros Hn Hf HQ. unfold modify_header. apply wp_modify. apply HQ.
  repeat split; cbn [file header freeList blobFiles blobThreshold set_header];
    auto.
Qed.

Lemma wp_markMetadataDirty Q E s :
  (forall s', meta_step s s' -> Q tt s') -> wp markMetadataDirty Q E s.
Proof.
  intros HQ. unfold markMetadataDirty. apply wp_modify. apply HQ.
  repeat split; reflexivity.
Qed.

Lemma flushMetadata_meta (s : StorageEngine) :
  DATA_HEADER_SIZE <= len (file s) ->
  exists s', flushMetadata s = (Ok tt, s') /\ meta_step s s'.
Proof.
  intros Hlen.
  unfold flushMetadata, writeHeader, writeAtOffset, updateSharedState,
    bind, gets, when, modify, ret.
  destruct (headerDirty s) eqn:Hd; cbn beta iota zeta;
    cbn [sharedStateDirty set_headerDirty set_diskWrites set_file header];
    destruct (sharedStateDirty s) eqn:Hs; cbn beta iota zeta;
    eexists; (split; [reflexivity|]).
  - eapply meta_step_trans; [apply meta_step_header; [apply len_headerBytes|exact Hlen]|].
    repeat split; reflexivity.
  - eapply meta_step_trans; [apply meta_step_header; [apply len_headerBytes|exact Hlen]|].
    repeat split; reflexivity.
  - repeat split; reflexivity.
  - apply meta_step_refl.
Qed.

Lemma wp_flushMetadata Q E s :
  DATA_HEADER_SIZE <= len (file s) ->
  (forall s', meta_step s s' -> Q tt s') -> wp flushMetadata Q E s.
Proof.
  intros Hlen HQ. destruct (flushMetadata_meta s Hlen) as (s' & Hrun & Hm).
  unfold wp. rewrite Hrun. apply HQ, Hm.
Qed.

Lemma wp_flushIfNotBatching Q E s :
  DATA_HEADER_SIZE <= len (file s) ->
  (forall s', meta_step s s' -> Q tt s') -> wp flushIfNotBatching Q E s.
Proof.
  intros Hlen HQ. unfold flushIfNotBatching. apply wp_bind, wp_gets.
  apply wp_when; intros _.
  - apply wp_flushMetadata; assumption.
  - apply HQ, meta_step_refl.
Qed.

Lemma wp_adjustLiveData (delta : Z) Q E s :
  DATA_HEADER_SIZE <= len (file s) ->
  (forall s', meta_step s s' -> Q tt s') -> wp (adjustLiveData delta) Q E s.
Proof.
  intros Hlen HQ. unfold adjustLiveData.
  apply wp_bind, wp_modify_header; try reflexivity. intros s1 H1.
  apply wp_bind, wp_markMetadataDirty. intros s2 H2.
  apply wp_flushIfNotBatching.
  - destruct H1 as (_ & _ & _ & _ & _ & L1 & _).
    destruct H2 as (_ & _ & _ & _ & _ & L2 & _). lia.
  - intros s3 H3. apply HQ.
    eapply meta_step_trans; [exact H1|]. eapply meta_step_trans; eassumption.
Qed.
End Steps.

Lemma selectSlabSize_bound (n : Z) :
  n + 4112 <= 2 ^ 32 -> selectSlabSize n < 2 ^ 32.
Proof.
  intros Hn.
  unfold selectSlabSize, SLAB_SIZES.TINY, SLAB_SIZES.SMALL, SLAB_SIZES.MEDIUM,
    SLAB_SIZES.ALIGNMENT, SLOT_HEADER_SIZE.
  repeat match goal with
         | |- context [?a <=? ?b] => destruct (Z.leb_spec a b)
         end; try lia.
  pose proof (Math_ceil_div_spec (n + 16) 4096 ltac:(lia)) as H2.
  cbv zeta in H2. lia.
Qed.

Lemma slice_writeUint32_0 (b : Uint8Array) (v : Z) :
  slice (writeUint32 b 0 v) 0 4 = le_bytes 4 (JS.ToUint32 v).
Proof.
  unfold slice, writeUint32, buf_set.
  change (Z.to_nat 0) with 0%nat. change (Z.to_nat 4 - 0)%nat with 4%nat.
  reflexivity.
Qed.

Lemma cleared_active_bit (x : Z) :
  JS.truthy
    (JS.and (JS.ToUint32 (JS.and x (JS.not SlotFlags.ACTIVE))) SlotFlags.ACTIVE)
  = false.
Proof.
  unfold JS.truthy. apply negb_false_iff, Z.eqb_eq.
  unfold JS.and, JS.not. change (JS.ToInt32 SlotFlags.ACTIVE) with 1.
  change (Z.lnot 1) with (-2).
  apply Z.bits_inj'. intros i Hi. rewrite Z.land_spec, Z.bits_0.
  destruct (Z.eq_dec i 0) as [->|Hnz].
  - rewrite ToInt32_bits_low, ToUint32_bits by lia.
    change (0 <? 32) with true. cbv iota. rewrite Z.land_spec.
    change (Z.testbit (-2) 0) with false. rewrite andb_false_r. reflexivity.
  - replace (Z.testbit 1 i) with false; [apply andb_false_r|].
    symmetry. change 1 with (Z.ones 1). apply Z.ones_spec_high. lia.
Qed.

Section SlotSteps.
Context `{rt : Runtime}.

Lemma wp_markSlotFree (T : Tiles) (o sz : Z) Q E s :
  Inv T s -> In (o, sz) T ->
  (forall s', Inv T s' -> slot_freed s s' o -> Q tt s') ->
  wp (markSlotFree o) Q E s.
Proof.
  intros HI Hin HQ.
  destruct (Inv_tile _ _ _ _ HI Hin) as (Ho & Hsz & Hnext & Hlen).
  unfold DATA_HEADER_SIZE, SLOT_HEADER_SIZE in *.
  unfold markSlotFree. apply wp_bind, wp_gets.
  rewrite (len_pread (file s) o SLOT_HEADER_SIZE)
    by (unfold SLOT_HEADER_SIZE; lia).
  rewrite Z.ltb_irrefl. rewrite slice_writeUint32_0.
  set (W := le_bytes 4 _).
  assert (HW : len W = 4) by apply len_le_bytes.
  unfold writeAtOffset. apply wp_modify. apply HQ.
  - apply (Inv_same T (set_file (pwrite (file s) o W) s)); try reflexivity.
    apply (Inv_write_within T s o sz o W); try assumption; try lia.
    intros Hsmall. unfold slabField.
    rewrite pread_pwrite_frame by lia.
    apply (inv_disk _ _ HI); assumption.
  - unfold slot_freed.
    cbn [file header freeList blobFiles blobThreshold set_diskWrites set_file].
    repeat split; try reflexivity.
    + rewrite len_pwrite by lia. lia.
    + intros o' n Ho' Hn Hdis. apply pread_pwrite_frame; lia.
    + replace o with (o + 0) at 2 by lia.
      rewrite pread_pwrite_inside by lia.
      replace (pread W 0 4) with W by (subst W; reflexivity).
      subst W. rewrite le_value_le_bytes. change (256 ^ Z.of_nat 4) with (2 ^ 32).
      rewrite Z.mod_small by apply ToUint32_range.
      apply cleared_active_bit.
Qed.

Lemma wp_freeList_add (T : Tiles) (x : FreeSlot) Q E s :
  Inv T s -> In (free_offset x, free_slabSize x) T ->
  (forall s', Inv T s' -> s' = set_freeList (freeList s ++ [x]) s -> Q tt s') ->
  wp (freeList_add x) Q E s.
Proof.
  intros HI Hin HQ. unfold freeList_add. apply wp_modify. apply HQ; [|reflexivity].
  apply Inv_set_freeList; [exact HI|].
  intros y Hy. apply in_app_or in Hy. destruct Hy as [Hy|[<-|[]]].
  - apply (inv_free _ _ HI). exact Hy.
  - exact Hin.
Qed.

Lemma wp_writeSlot_tile (T : Tiles) (o sz : Z) (d : Uint8Array) (isBlob : bool) Q E s :
  Inv T s -> In (o, sz) T ->
  len d + SLOT_HEADER_SIZE <= sz ->
  (forall s', rewritten T s o sz d s' -> Q tt s') ->
  wp (writeSlot o d sz isBlob) Q E s.
Proof.
  intros HI Hin Hfit HQ.
  destruct (Inv_tile _ _ _ _ HI Hin) as (Ho & Hsz & Hnext & Hlen).
  unfold DATA_HEADER_SIZE, SLOT_HEADER_SIZE in *.
  unfold writeSlot, SLOT_HEADER_SIZE.
  destruct (Z.ltb_spec sz (16 + len d)) as [Hbad|_]; [lia|].
  unfold writeAtOffset. apply wp_modify. apply HQ.
  assert (Hbuf : len (slotBuffer (slot_flags isBlob) d sz) = sz)
    by (apply len_slotBuffer; unfold SLOT_HEADER_SIZE; lia).
  constructor;
    cbn [file header freeList blobFiles blobThreshold set_diskWrites set_file];
    try reflexivity.
  - apply (Inv_same T (set_file (pwrite (file s) o
                                   (slotBuffer (slot_flags isBlob) d sz)) s));
      try reflexivity.
    apply (Inv_write_within T s o sz o); try assumption; try lia.
    intros Hsmall. apply slabField_slotBuffer; unfold SLOT_HEADER_SIZE; lia.
  - intros Hsmall. apply readSlot_in_pwrite;
      unfold SLOT_HEADER_SIZE; try lia. apply slot_flags_active.
  - rewrite len_pwrite by lia. lia.
  - intros o' n Ho' Hn Hdis. apply pread_pwrite_frame; lia.
Qed.

Lemma wp_allocate_write_advance {A} (B : Prop) (T : Tiles) (d : Uint8Array)
      (isBlob : bool) (k : SlabAllocation -> Eng A) Q E s :
  Inv T s ->
  (B -> len d + 4112 <= 2 ^ 32) ->
  (forall a T' s', placed B T s d a T' s' -> wp (k a) Q E s') ->
  wp (allocation <- allocateSlot (len d) ;;
      writeSlot (alloc_offset allocation) d (alloc_slabSize allocation) isBlob ;;
      advance allocation ;;
      k allocation) Q E s.
Proof.
  intros HI HB Hk.
  pose proof (selectSlabSize_fits (len d)) as Hfits.
  pose proof (len_nonneg d) as Hd.
  pose proof (Inv_header_in_file _ _ HI) as Hhdr.
  unfold SLOT_HEADER_SIZE, DATA_HEADER_SIZE in *.
  pose proof (take_first_fit_spec (selectSlabSize (len d)) (freeList s)) as Hfit.
  assert (Halloc : forall a,
            match take_first_fit (selectSlabSize (len d)) (freeList s) with
            | Some (f, _) => a = mkAllocation (free_offset f) (free_slabSize f) true
            | None => a = mkAllocation (nextSlotOffset (header s))
                            (selectSlabSize (len d)) false
            end -> fst (allocateSlot (len d) s) = Ok a).
  { intros a Ha. unfold allocateSlot, bind, gets, modify, ret.
    destruct (take_first_fit (selectSlabSize (len d)) (freeList s)) as [[f r]|];
      subst a; reflexivity. }
  apply wp_bind. unfold allocateSlot at 1. apply wp_bind, wp_gets.
  destruct (take_first_fit (selectSlabSize (len d)) (freeList s))
    as [[found rest]|].
  - (* a free slot is reused *)
    destruct Hfit as (before & after & Hlist & -> & Hall & Hge).
    assert (Htile : In (free_offset found, free_slabSize found) T).
    { apply (inv_free _ _ HI). rewrite Hlist. apply in_or_app. right. left.
      reflexivity. }
    destruct (Inv_tile _ _ _ _ HI Htile) as (Ho & Hsz & Hnext & Hlen).
    unfold SLOT_HEADER_SIZE, DATA_HEADER_SIZE in *.
    apply wp_bind, wp_modify. apply wp_ret.
    cbn [alloc_offset alloc_slabSize alloc_isReused].
    assert (HI1 : Inv T (set_freeList (before ++ after) s)).
    { apply Inv_set_freeList; [exact HI|]. intros x Hx.
      apply (inv_free _ _ HI). rewrite Hlist.
      apply in_app_or in Hx. apply in_or_app.
      destruct Hx; [left|right; right]; assumption. }
    apply wp_bind.
    eapply (wp_writeSlot_tile T); [exact HI1|exact Htile|unfold SLOT_HEADER_SIZE; lia|].
    intros s2 [R1 R2 R3 R4 R5 R6 R7 R8].
    cbn [file header freeList blobFiles blobThreshold set_freeList] in *.
    apply wp_bind. unfold advance. cbn [alloc_isReused negb when]. apply wp_ret.
    apply (Hk _ T). constructor; cbn [alloc_offset alloc_slabSize].
    + apply Halloc. reflexivity.
    + apply grows_refl.
    + exact R1.
    + exact Htile.
    + exact R2.
    + exact R5.
    + exact R6.
    + lia.
    + intros o sz n Hin Hne Hn.
      destruct (Inv_tile _ _ _ _ HI Hin) as (Ho' & Hsz' & _ & _).
      unfold SLOT_HEADER_SIZE, DATA_HEADER_SIZE in *.
      apply R8; try lia.
      destruct (chain_disjoint _ _ _ _ _ _ _ (inv_chain _ _ HI) Hin Htile)
        as [[? ?]|[?|?]]; lia.
    + intros x Hx Hxs. rewrite R4. rewrite Hlist in Hx.
      apply in_app_or in Hx. apply in_or_app.
      destruct Hx as [Hx|[Hx|Hx]]; [left; exact Hx| |right; exact Hx].
      subst x. lia.
    + exact Hge.
    + rewrite R3. lia.
  - (* the slot is appended *)
    apply wp_bind, wp_gets. apply wp_ret.
    cbn [alloc_offset alloc_slabSize alloc_isReused].
    set (next := nextSlotOffset (header s)) in *.
    set (sz := selectSlabSize (len d)) in *.
    apply wp_bind. unfold writeSlot, SLOT_HEADER_SIZE.
    destruct (Z.ltb_spec sz (16 + len d)) as [Hbad|_]; [lia|].
    unfold writeAtOffset. apply wp_modify.
    set (buf := slotBuffer (slot_flags isBlob) d sz).
    assert (Hbuf : len buf = sz)
      by (apply len_slotBuffer; unfold SLOT_HEADER_SIZE; lia).
    set (s1 := set_diskWrites (S (diskWrites s))
                 (set_file (pwrite (file s) next buf) s)).
    assert (HI1 : Inv T s1).
    { apply (Inv_same T (set_file (pwrite (file s) next buf) s));
        try reflexivity.
      apply Inv_write_beyond; [exact HI|fold next; lia]. }
    assert (Hlen1 : len (file s1) = Z.max (len (file s)) (next + sz)).
    { unfold s1. cbn [file set_file set_diskWrites]. rewrite len_pwrite by lia. lia. }
    apply wp_bind. unfold advance. cbn [alloc_isReused negb when].
    unfold modify_header. apply wp_modify.
    cbn [alloc_offset alloc_slabSize].
    apply (Hk _ (T ++ [(next, sz)])).
    constructor; cbn [alloc_offset alloc_slabSize].
    + apply Halloc. reflexivity.
    + apply grows_one. intros HB'. unfold small. cbn [snd].
      apply selectSlabSize_bound. apply HB. exact HB'.
    + apply (Inv_advance T s1 sz HI1).
      * unfold SLOT_HEADER_SIZE. lia.
      * change (nextSlotOffset (header s1)) with next. lia.
      * intros Hsmall. change (nextSlotOffset (header s1)) with next.
        unfold s1. cbn [file set_file set_diskWrites].
        apply slabField_slotBuffer; unfold SLOT_HEADER_SIZE; lia.
    + apply in_or_app. right. left. reflexivity.
    + intros Hsmall. unfold s1.
      cbn [file set_file set_diskWrites set_header].
      apply readSlot_in_pwrite; unfold SLOT_HEADER_SIZE; try lia.
      apply slot_flags_active.
    + reflexivity.
    + reflexivity.
    + cbn [file set_header]. lia.
    + intros o sz' n Hin Hne Hn.
      destruct (Inv_tile _ _ _ _ HI Hin) as (Ho' & Hsz' & Hnx & _).
      unfold SLOT_HEADER_SIZE, DATA_HEADER_SIZE in *. fold next in Hnx.
      unfold s1. cbn [file set_file set_diskWrites set_header].
      apply pread_pwrite_frame; lia.
    + intros x Hx _. exact Hx.
    + lia.
    + cbn [header set_header set_fileSize set_nextSlotOffset nextSlotOffset].
      change (nextSlotOffset (header s1)) with next. lia.
Qed.
End SlotSteps.

(* ------------------------------------------------------------------ *)
(** ** What the storage operations leave *)

Lemma moved_refl (B : Prop) (T : Tiles) (s : StorageEngine) :
  Inv T s -> moved B T s T s.
Proof. intros HI. constructor; try lia; try reflexivity; [apply grows_refl|exact HI]. Qed.

Lemma moved_trans (B : Prop) (T1 T2 T3 : Tiles) (s1 s2 s3 : StorageEngine) :
  moved B T1 s1 T2 s2 -> moved B T2 s2 T3 s3 -> moved B T1 s1 T3 s3.
Proof.
  intros [G1 I1 H1 L1 N1] [G2 I2 H2 L2 N2]. constructor.
  - eapply grows_trans; eassumption.
  - exact I2.
  - congruence.
  - lia.
  - lia.
Qed.

Lemma moved_meta (B : Prop) (T : Tiles) (s s' : StorageEngine) :
  Inv T s -> meta_step s s' -> moved B T s T s'.
Proof.
  intros HI HM. pose proof (Inv_meta_step _ _ _ HI HM) as HI'.
  destruct HM as (F & Bl & Th & N & Sz & L & P).
  constructor; try lia; try assumption. apply grows_refl.
Qed.

Lemma moved_same (B : Prop) (T : Tiles) (s s' : StorageEngine) :
  Inv T s -> file s' = file s -> header s' = header s ->
  freeList s' = freeList s -> blobThreshold s' = blobThreshold s ->
  moved B T s T s'.
Proof.
  intros HI Hf Hh Hl Ht. constructor.
  - apply grows_refl.
  - apply (Inv_same T s); assumption.
  - exact Ht.
  - rewrite Hf. lia.
  - rewrite Hh. lia.
Qed.

Lemma moved_in (B : Prop) (T T' : Tiles) (s s' : StorageEngine) (t : Z * Z) :
  moved B T s T' s' -> In t T -> In t T'.
Proof. intros [G _ _ _ _]. apply (grows_in B); exact G. Qed.

Lemma meta_step_roomy (s s' : StorageEngine) :
  roomy s -> meta_step s s' -> roomy s'.
Proof. unfold roomy. intros H (_ & _ & _ & _ & _ & L & _). lia. Qed.

Lemma Inv_roomy (T : Tiles) (s : StorageEngine) : Inv T s -> roomy s.
Proof. intros HI. pose proof (Inv_header_in_file _ _ HI). unfold roomy. lia. Qed.

Lemma holds_meta_step `{rt : Runtime} (s s' : StorageEngine)
      (loc : DocumentLocation) (id : string) (data : Document) :
  DATA_HEADER_SIZE <= loc_offset loc ->
  meta_step s s' -> holds s loc id data -> holds s' loc id data.
Proof.
  intros Ho HM [H1 H2 H3 H4].
  pose proof HM as (F & Bl & Th & N & Sz & L & P).
  constructor; rewrite ?Th, ?Bl; try assumption.
  rewrite (readSlot_in_meta_step s s') by assumption. exact H3.
Qed.

Section Metadata.
Context `{rt : Runtime}.

Lemma metadata_modify_header (f : DataFileHeader -> DataFileHeader) :
  (forall h, nextSlotOffset (f h) = nextSlotOffset h) ->
  (forall h, fileSize (f h) = fileSize h) ->
  metadata_only (modify_header f).
Proof. intros Hn Hf s Q E _ HQ. apply wp_modify_header; auto. Qed.

Lemma metadata_markMetadataDirty : metadata_only markMetadataDirty.
Proof. intros s Q E _ HQ. apply wp_markMetadataDirty; auto. Qed.

Lemma metadata_flushIfNotBatching : metadata_only flushIfNotBatching.
Proof. intros s Q E Hr HQ. apply wp_flushIfNotBatching; auto. Qed.

Lemma metadata_flushMetadata : metadata_only flushMetadata.
Proof. intros s Q E Hr HQ. apply wp_flushMetadata; auto. Qed.

Lemma metadata_adjustLiveData (delta : Z) : metadata_only (adjustLiveData delta).
Proof. intros s Q E Hr HQ. apply wp_adjustLiveData; auto. Qed.

Lemma metadata_seq (c1 c2 : Eng unit) :
  metadata_only c1 -> metadata_only c2 -> metadata_only (c1 ;; c2).
Proof.
  intros H1 H2 s Q E Hr HQ. apply wp_bind. apply H1; [exact Hr|].
  intros s1 M1. apply H2; [eapply meta_step_roomy; eassumption|].
  intros s2 M2. apply HQ. eapply meta_step_trans; eassumption.
Qed.

Lemma wp_meta_bind {A} (c : Eng unit) (k : unit -> Eng A) Q E s :
  metadata_only c -> roomy s ->
  (forall s', meta_step s s' -> roomy s' -> wp (k tt) Q E s') ->
  wp (bind c k) Q E s.
Proof.
  intros Hc Hr Hk. apply wp_bind. apply Hc; [exact Hr|].
  intros s' M. apply Hk; [exact M|]. eapply meta_step_roomy; eassumption.
Qed.
End Metadata.

Create HintDb metadata.
#[export] Hint Resolve metadata_markMetadataDirty metadata_flushIfNotBatching
  metadata_flushMetadata metadata_adjustLiveData metadata_seq : metadata.
#[export] Hint Extern 1 (metadata_only (modify_header _)) =>
  apply metadata_modify_header; intros; reflexivity : metadata.

Lemma Map_get_set_same {V} (m : JSMap V) (k : string) (v : V) :
  Map_get (Map_set m k v) k = Some v.
Proof.
  induction m as [|[k' v'] m IH]; cbn [Map_set Map_get].
  - rewrite String.eqb_refl. reflexivity.
  - destruct (String.eqb k' k) eqn:Ek; cbn [Map_get]; rewrite Ek;
      [reflexivity|exact IH].
Qed.

Section Ops.
Context `{rt : Runtime}.

Lemma allocateSlot_result (n : Z) (s1 s2 : StorageEngine) :
  freeList s1 = freeList s2 ->
  nextSlotOffset (header s1) = nextSlotOffset (header s2) ->
  fst (allocateSlot n s1) = fst (allocateSlot n s2).
Proof.
  intros Hf Hn. unfold allocateSlot, bind, gets, modify, ret. rewrite Hf.
  destruct (take_first_fit (selectSlabSize n) (freeList s2)) as [[f r]|];
    cbn [fst]; [reflexivity|]. rewrite Hn. reflexivity.
Qed.

Lemma moved_placed (B : Prop) (T T' : Tiles) (s s' : StorageEngine)
      (d : Uint8Array) (a : SlabAllocation) :
  placed B T s d a T' s' -> moved B T s T' s'.
Proof. intros P. destruct P. constructor; assumption. Qed.

Lemma moved_rewritten (B : Prop) (T : Tiles) (s s' : StorageEngine)
      (o sz : Z) (d : Uint8Array) :
  rewritten T s o sz d s' -> moved B T s T s'.
Proof.
  intros [R1 R2 R3 R4 R5 R6 R7 R8]. constructor; try assumption.
  - apply grows_refl.
  - lia.
  - rewrite R3. lia.
Qed.

Lemma wp_relocate {A} (B : Prop) (T : Tiles) (o sz : Z) (d : Uint8Array)
      (isBlob : bool) (k : SlabAllocation -> Eng A) Q E s :
  Inv T s -> In (o, sz) T ->
  (B -> len d + 4112 <= 2 ^ 32) ->
  (forall a T' s', relocated B T s o sz d a T' s' -> wp (k a) Q E s') ->
  wp (markSlotFree o ;;
      freeList_add (mkFreeSlot o sz) ;;
      allocation <- allocateSlot (len d) ;;
      writeSlot (alloc_offset allocation) d (alloc_slabSize allocation) isBlob ;;
      advance allocation ;;
      k allocation) Q E s.
Proof.
  intros HI Hin HB Hk.
  destruct (Inv_tile _ _ _ _ HI Hin) as (Ho & Hsz & Hnext & Hlen).
  unfold DATA_HEADER_SIZE, SLOT_HEADER_SIZE in *.
  apply wp_bind. apply (wp_markSlotFree T o sz); [exact HI|exact Hin|].
  intros s1 HI1 (F1 & F2 & F3 & F4 & F5 & F6 & F7).
  apply wp_bind. apply (wp_freeList_add T); [exact HI1|exact Hin|].
  intros s2 HI2 ->.
  apply (wp_allocate_write_advance B T); [exact HI2|exact HB|].
  intros a T' s3 P. apply (Hk a T').
  destruct P as [pl_alloc pl_grows pl_inv pl_tile pl_slot pl_blobs pl_thr
                 pl_len pl_frame pl_free pl_size pl_next].
  cbn [file header freeList blobFiles blobThreshold set_freeList] in *.
  constructor.
  - rewrite <- pl_alloc. apply allocateSlot_result;
      cbn [freeList header set_freeList]; congruence.
  - constructor; try assumption; try congruence; try lia.
  - exact pl_tile.
  - exact pl_size.
  - exact pl_slot.
  - congruence.
  - intros Hsmaller. split.
    + apply pl_free; [|exact Hsmaller]. apply in_or_app. right. left. reflexivity.
    + rewrite (pl_frame o sz 4 Hin); [exact F7| |lia].
      intros Heq.
      assert (Hin' : In (o, sz) T') by (apply (grows_in B T); assumption).
      destruct (chain_in _ _ _ _ _ (inv_chain _ _ pl_inv) pl_tile) as (? & ? & ?).
      destruct (chain_disjoint _ _ _ _ _ _ _ (inv_chain _ _ pl_inv) Hin' pl_tile)
        as [[? ?]|[?|?]]; unfold SLOT_HEADER_SIZE in *; lia.
Qed.

Lemma wp_writeBlobFile (path : string) (data : Uint8Array) Q E s :
  (forall s', file s' = file s -> header s' = header s ->
              freeList s' = freeList s -> blobThreshold s' = blobThreshold s ->
              blobFiles s' = Map_set (blobFiles s) path data ->
              Q {| ref_path := path; ref_size := len data;
                   ref_checksum := crc32 data |} s') ->
  wp (writeBlobFile path data) Q E s.
Proof.
  intros HQ. unfold writeBlobFile. apply wp_bind, wp_modify. apply wp_ret.
  apply HQ; reflexivity.
Qed.

Lemma wp_deleteBlob (path : string) Q E s :
  (forall s', file s' = file s -> header s' = header s ->
              freeList s' = freeList s -> blobThreshold s' = blobThreshold s ->
              Q tt s') ->
  wp (deleteBlob path) Q E s.
Proof.
  intros HQ. unfold deleteBlob. apply wp_bind, wp_gets.
  apply wp_when; intros _.
  - apply wp_modify. apply HQ; reflexivity.
  - apply HQ; reflexivity.
Qed.

(** [readBlobReference] changes nothing. *)
Lemma wp_readBlobReference (offset length : Z) Q E s :
  (forall r, Q r s) -> (forall e, E e s) ->
  wp (readBlobReference offset length) Q E s.
Proof.
  intros HQ HE. unfold readBlobReference, readSlot.
  apply wp_bind, wp_pure_result.
  destruct (readSlot_in (file s) offset length) as [data|e]; [|apply HE].
  destruct (JSON_parse_ref data); [apply wp_ret, HQ|apply wp_throw, HE].
Qed.
End Ops.

(** Run the closing header updates of an operation. *)
Ltac meta_tail :=
  repeat (apply wp_meta_bind;
          [solve [auto with metadata]
          |assumption
          |let s' := fresh "s" in
           let M := fresh "M" in
           let R := fresh "R" in
           intros s' M R;
           try match goal with
               | M0 : meta_step ?a ?b, M1 : meta_step ?b s' |- _ =>
                   pose proof (meta_step_trans _ _ _ M0 M1); clear M0 M1
               end]).

Section Unlocked.
Context `{rt : Runtime}.

Lemma written_intro (B : Prop) (T T' : Tiles) (s s1 s2 : StorageEngine)
      (id : string) (data : Document) (o sz : Z) :
  let payload := slot_payload (blobThreshold s) id data in
  let isBlob := len (encodeDocument data) >? blobThreshold s in
  moved B T s T' s1 ->
  In (o, sz) T' ->
  (len payload < 2 ^ 32 -> readSlot_in (file s1) o (len payload) = Ok payload) ->
  meta_step s1 s2 ->
  (isBlob = true ->
   Map_get (blobFiles s1) (blob_name id) = Some (encodeDocument data)) ->
  written B T s id data (mkLocation o (len payload) sz isBlob) T' s2.
Proof.
  intros payload isBlob M1 Hin Hslot M Hfile.
  pose proof (moved_meta B _ _ _ (mv_inv _ _ _ _ _ M1) M) as M2.
  pose proof (moved_trans _ _ _ _ _ _ _ M1 M2) as M3.
  destruct (Inv_tile _ _ _ _ (mv_inv _ _ _ _ _ M1) Hin) as (Ho & _).
  constructor; cbn [loc_offset loc_slabSize loc_length loc_isBlob].
  - exact M3.
  - exact Hin.
  - intros Hsmall.
    assert (Hthr : blobThreshold s2 = blobThreshold s) by exact (mv_thr _ _ _ _ _ M3).
    constructor; cbn [loc_offset loc_slabSize loc_length loc_isBlob]; rewrite ?Hthr.
    + reflexivity.
    + reflexivity.
    + rewrite (readSlot_in_meta_step s1 s2) by assumption.
      exact (Hslot Hsmall).
    + intros Hb. destruct M as (_ & Bl & _). rewrite Bl. exact (Hfile Hb).
Qed.

Lemma wp_writeUnlocked (B : Prop) (T : Tiles) (id : string) (data : Document)
      Q E s :
  Inv T s ->
  (B -> payload_small (blobThreshold s) id data) ->
  (forall loc T' s', written B T s id data loc T' s' -> Q loc s') ->
  wp (writeUnlocked id data) Q E s.
Proof.
  intros HI HB HQ. unfold writeUnlocked. apply wp_bind, wp_gets.
  pose proof (written_intro B T) as W. unfold payload_small in HB.
  specialize (W) with (s := s) (id := id) (data := data). cbv zeta in W.
  unfold slot_payload in W, HB.
  destruct (len (encodeDocument data) >? blobThreshold s) eqn:Eb.
  - unfold writeBlobForInsertUnlocked.
    apply wp_bind, wp_writeBlobFile. intros s0 F1 F2 F3 F4 F5.
    assert (HI0 : Inv T s0) by (apply (Inv_same T s); assumption).
    apply wp_bind. unfold writeBlobReferenceSlot. cbv zeta.
    apply (wp_allocate_write_advance B T); [exact HI0|exact HB|].
    intros a T' s1 P. apply wp_ret. cbn [fst].
    assert (R1 : roomy s1) by exact (Inv_roomy _ _ (pl_inv _ _ _ _ _ _ _ P)).
    meta_tail. apply wp_ret. apply (HQ _ T').
    eapply W.
    + eapply moved_trans; [apply moved_same; eassumption|].
      eapply moved_placed; exact P.
    + exact (pl_tile _ _ _ _ _ _ _ P).
    + exact (pl_slot _ _ _ _ _ _ _ P).
    + eassumption.
    + intros _. rewrite (pl_blobs _ _ _ _ _ _ _ P), F5. apply Map_get_set_same.
  - apply (wp_allocate_write_advance B T); [exact HI|exact HB|].
    intros a T' s1 P.
    assert (R1 : roomy s1) by exact (Inv_roomy _ _ (pl_inv _ _ _ _ _ _ _ P)).
    meta_tail. apply wp_ret. apply (HQ _ T').
    eapply W.
    + eapply moved_placed; exact P.
    + exact (pl_tile _ _ _ _ _ _ _ P).
    + exact (pl_slot _ _ _ _ _ _ _ P).
    + eassumption.
    + discriminate.
Qed.

Lemma wp_updateUnlocked (B : Prop) (T : Tiles) (id : string) (data : Document)
      (old : DocumentLocation) Q E s :
  Inv T s -> In (loc_offset old, loc_slabSize old) T ->
  (B -> payload_small (blobThreshold s) id data) ->
  (forall loc T' s', written B T s id data loc T' s' -> Q loc s') ->
  (forall e, E e s) ->
  wp (updateUnlocked id data old) Q E s.
Proof.
  intros HI Hold HB HQ HE. unfold updateUnlocked. apply wp_bind, wp_gets.
  pose proof (written_intro B T) as W. unfold payload_small in HB.
  specialize (W) with (s := s) (id := id) (data := data). cbv zeta in W.
  unfold slot_payload in W, HB.
  destruct (loc_isBlob old).
  - (* the old document is a blob *)
    apply wp_bind, wp_readBlobReference; [|exact HE]. intros oldRef.
    destruct (len (encodeDocument data) >? blobThreshold s) eqn:Eb.
    + apply wp_bind. unfold updateBlobReferenceUnlocked.
      apply wp_bind, wp_writeBlobFile. intros s0 F1 F2 F3 F4 F5.
      assert (HI0 : Inv T s0) by (apply (Inv_same T s); assumption).
      assert (M0 : moved B T s T s0) by (apply moved_same; assumption).
      match goal with
      | |- context [?n + SLOT_HEADER_SIZE <=? loc_slabSize old] =>
          destruct (Z.leb_spec (n + SLOT_HEADER_SIZE) (loc_slabSize old))
            as [Hfit|Hbig]
      end.
      * apply wp_bind.
        apply (wp_writeSlot_tile T); [exact HI0|exact Hold|exact Hfit|].
        intros s1 Rw. apply wp_ret.
        assert (R1 : roomy s1) by exact (Inv_roomy _ _ (rw_inv _ _ _ _ _ _ Rw)).
        meta_tail. apply wp_ret. apply (HQ _ T).
        eapply W.
        -- eapply moved_trans; [exact M0|]. eapply moved_rewritten; exact Rw.
        -- exact Hold.
        -- exact (rw_slot _ _ _ _ _ _ Rw).
        -- eassumption.
        -- intros _. rewrite (rw_blobs _ _ _ _ _ _ Rw), F5. apply Map_get_set_same.
      * apply (wp_relocate B T); [exact HI0|exact Hold|exact HB|].
        intros a T' s1 Rl. apply wp_ret.
        assert (R1 : roomy s1)
          by exact (Inv_roomy _ _ (mv_inv _ _ _ _ _ (rl_moved _ _ _ _ _ _ _ _ _ Rl))).
        meta_tail. apply wp_ret. apply (HQ _ T').
        eapply W.
        -- eapply moved_trans; [exact M0|]. exact (rl_moved _ _ _ _ _ _ _ _ _ Rl).
        -- exact (rl_tile _ _ _ _ _ _ _ _ _ Rl).
        -- exact (rl_slot _ _ _ _ _ _ _ _ _ Rl).
        -- eassumption.
        -- intros _. rewrite (rl_blobs _ _ _ _ _ _ _ _ _ Rl), F5.
           apply Map_get_set_same.
    + apply wp_bind, wp_deleteBlob. intros s0 F1 F2 F3 F4.
      assert (HI0 : Inv T s0) by (apply (Inv_same T s); assumption).
      assert (M0 : moved B T s T s0) by (apply moved_same; assumption).
      apply (wp_relocate B T); [exact HI0|exact Hold|exact HB|].
      intros a T' s1 Rl.
      assert (R1 : roomy s1)
        by exact (Inv_roomy _ _ (mv_inv _ _ _ _ _ (rl_moved _ _ _ _ _ _ _ _ _ Rl))).
      meta_tail. apply wp_ret. apply (HQ _ T').
      eapply W.
      * eapply moved_trans; [exact M0|]. exact (rl_moved _ _ _ _ _ _ _ _ _ Rl).
      * exact (rl_tile _ _ _ _ _ _ _ _ _ Rl).
      * exact (rl_slot _ _ _ _ _ _ _ _ _ Rl).
      * eassumption.
      * discriminate.
  - destruct (len (encodeDocument data) >? blobThreshold s) eqn:Eb.
    + (* an inline document becomes a blob *)
      apply wp_bind. apply (wp_markSlotFree T _ _ _ _ _ HI Hold).
      intros s1 HI1 (F1 & F2 & F3 & F4 & F5 & F6 & F7).
      apply wp_bind. apply (wp_freeList_add T); [exact HI1|exact Hold|].
      intros s2 HI2 Hs2.
      assert (M2 : moved B T s T s2).
      { constructor; [apply grows_refl|exact HI2| | |]; subst s2;
          cbn [file header blobThreshold set_freeList]; try congruence; try lia.
        rewrite F1. lia. }
      apply wp_bind. unfold writeBlobForUpdateUnlocked.
      apply wp_bind, wp_writeBlobFile. intros s3 G1 G2 G3 G4 G5.
      assert (HI3 : Inv T s3) by (apply (Inv_same T s2); assumption).
      assert (M3 : moved B T s2 T s3) by (apply moved_same; assumption).
      apply wp_bind. unfold writeBlobReferenceSlot. cbv zeta.
      apply (wp_allocate_write_advance B T); [exact HI3|exact HB|].
      intros a T' s4 P. apply wp_ret. apply wp_ret. cbn [fst].
      assert (R4 : roomy s4) by exact (Inv_roomy _ _ (pl_inv _ _ _ _ _ _ _ P)).
      meta_tail. apply wp_ret. apply (HQ _ T').
      eapply W.
      * eapply moved_trans; [exact M2|]. eapply moved_trans; [exact M3|].
        eapply moved_placed; exact P.
      * exact (pl_tile _ _ _ _ _ _ _ P).
      * exact (pl_slot _ _ _ _ _ _ _ P).
      * eassumption.
      * intros _. rewrite (pl_blobs _ _ _ _ _ _ _ P), G5. apply Map_get_set_same.
    + match goal with
      | |- context [?n + SLOT_HEADER_SIZE <=? loc_slabSize old] =>
          destruct (Z.leb_spec (n + SLOT_HEADER_SIZE) (loc_slabSize old))
            as [Hfit|Hbig]
      end.
      * (* rewritten in place *)
        apply wp_bind.
        apply (wp_writeSlot_tile T); [exact HI|exact Hold|exact Hfit|].
        intros s1 Rw.
        assert (R1 : roomy s1) by exact (Inv_roomy _ _ (rw_inv _ _ _ _ _ _ Rw)).
        meta_tail. apply wp_ret. apply (HQ _ T).
        eapply W.
        -- eapply moved_rewritten; exact Rw.
        -- exact Hold.
        -- exact (rw_slot _ _ _ _ _ _ Rw).
        -- eassumption.
        -- discriminate.
      * (* relocated *)
        apply (wp_relocate B T); [exact HI|exact Hold|exact HB|].
        intros a T' s1 Rl.
        assert (R1 : roomy s1)
          by exact (Inv_roomy _ _ (mv_inv _ _ _ _ _ (rl_moved _ _ _ _ _ _ _ _ _ Rl))).
        meta_tail. apply wp_ret. apply (HQ _ T').
        eapply W.
        -- exact (rl_moved _ _ _ _ _ _ _ _ _ Rl).
        -- exact (rl_tile _ _ _ _ _ _ _ _ _ Rl).
        -- exact (rl_slot _ _ _ _ _ _ _ _ _ Rl).
        -- eassumption.
        -- discriminate.
Qed.
End Unlocked.

Lemma moved_deleted (B : Prop) (T : Tiles) (s s' : StorageEngine)
      (loc : DocumentLocation) :
  deleted T s loc s' -> moved B T s T s'.
Proof.
  intros D. destruct D. constructor; try assumption; try lia. apply grows_refl.
Qed.

Section Delete.
Context `{rt : Runtime}.

Lemma wp_delete_rest (T : Tiles) (loc : DocumentLocation) Q E s s0 :
  Inv T s0 -> In (loc_offset loc, loc_slabSize loc) T ->
  file s0 = file s -> freeList s0 = freeList s ->
  blobThreshold s0 = blobThreshold s ->
  nextSlotOffset (header s0) = nextSlotOffset (header s) ->
  fileSize (header s0) = fileSize (header s) ->
  (forall s', deleted T s loc s' -> Q tt s') ->
  wp (markSlotFree (loc_offset loc) ;;
      freeList_add (mkFreeSlot (loc_offset loc) (loc_slabSize loc)) ;;
      modify_header (fun h => set_documentCount (documentCount h - 1) h) ;;
      markMetadataDirty ;;
      flushIfNotBatching) Q E s0.
Proof.
  intros HI Hin E1 E2 E3 E4 E5 HQ.
  destruct (Inv_tile _ _ _ _ HI Hin) as (Ho & _).
  apply wp_bind. apply (wp_markSlotFree T _ _ _ _ _ HI Hin).
  intros s1 HI1 (F1 & F2 & F3 & F4 & F5 & F6 & F7).
  apply wp_bind. apply (wp_freeList_add T); [exact HI1|exact Hin|].
  intros s2 HI2 Hs2.
  assert (R2 : roomy s2) by exact (Inv_roomy _ _ HI2).
  meta_tail. apply metadata_flushIfNotBatching; [assumption|].
  intros s5 M5.
  match goal with
  | M : meta_step s2 _ |- _ => pose proof (meta_step_trans _ _ _ M M5) as M'
  end.
  apply HQ. pose proof (Inv_meta_step _ _ _ HI2 M') as HI5.
  destruct M' as (G1 & G2 & G3 & G4 & G5 & G6 & G7).
  subst s2. cbn [file header freeList blobThreshold set_freeList] in *.
  constructor; try assumption; try congruence.
  rewrite G7 by (assumption || lia). exact F7.
Qed.

Lemma wp_deleteUnlocked (T : Tiles) (loc : DocumentLocation) Q E s :
  Inv T s -> In (loc_offset loc, loc_slabSize loc) T ->
  (forall s', deleted T s loc s' -> Q tt s') ->
  (forall e, E e s) ->
  wp (deleteUnlocked loc) Q E s.
Proof.
  intros HI Hin HQ HE. unfold deleteUnlocked. apply wp_bind.
  destruct (loc_isBlob loc).
  - apply wp_bind, wp_readBlobReference; [|exact HE]. intros blobRef.
    apply wp_bind, wp_deleteBlob. intros s0 F1 F2 F3 F4.
    unfold modify_header. apply wp_modify.
    apply (wp_delete_rest T loc Q E s); try assumption;
      cbn [file header freeList blobThreshold set_header set_liveDataSize
           nextSlotOffset fileSize]; try congruence.
    apply Inv_set_header; [apply (Inv_same T s); assumption|reflexivity|reflexivity].
  - unfold modify_header. apply wp_modify.
    apply (wp_delete_rest T loc Q E s); try assumption; try reflexivity.
    apply Inv_set_header; [exact HI|reflexivity|reflexivity].
Qed.
End Delete.

(** A loop, with what its results are known to satisfy. *)
Lemma wp_for_each_acc {S A B} (f : A -> M S B) (xs : list A)
      (I : list B -> S -> Prop) (J : S -> Prop) (acc : list B) (s : S) :
  (forall x ys s, In x xs -> I ys s ->
                  wp (f x) (fun y s' => I (ys ++ [y]) s') (fun _ s' => J s') s) ->
  I acc s ->
  wp (for_each f xs) (fun ys s' => I (acc ++ ys) s') (fun _ s' => J s') s.
Proof.
  revert acc s. induction xs as [|x xs IH]; intros acc s Hf HI.
  - cbn [for_each]. apply wp_ret. rewrite app_nil_r. exact HI.
  - cbn [for_each]. apply wp_bind.
    eapply wp_mono; [apply (Hf x acc s); [left; reflexivity|exact HI]| |auto].
    intros y s1 H1. apply wp_bind.
    eapply wp_mono; [apply (IH (acc ++ [y]) s1); [|exact H1]| |auto].
    + intros x' ys s' Hin. apply Hf. right. exact Hin.
    + intros ys s2 H2. apply wp_ret. cbv beta in H2.
      rewrite <- app_assoc in H2. exact H2.
Qed.

Section Many.
Context `{rt : Runtime}.

Lemma writeMany_build_cons (id : string) (data : Document)
      (rest : list (string * Document)) (start : Z) :
  writeMany_build ((id, data) :: rest) start
  = let jsonBytes := encodeDocument data in
    let slabSize := selectSlabSize (len jsonBytes) in
    let '(bufs, locs, totalBytes, totalLiveData) :=
      writeMany_build rest (start + slabSize) in
    (slotBuffer SlotFlags.ACTIVE jsonBytes slabSize :: bufs,
     mkLocation start (len jsonBytes) slabSize false :: locs,
     slabSize + totalBytes, len jsonBytes + totalLiveData).
Proof.
  cbn [writeMany_build]. cbv zeta.
  destruct (writeMany_build rest _) as [[[bufs locs] total] live]. reflexivity.
Qed.

Lemma writeMany_build_spec (B : Prop) (items : list (string * Document)) :
  (B -> Forall (fun item => len (encodeDocument (snd item)) + 4112 <= 2 ^ 32) items) ->
  forall start pre post,
    len pre = start ->
    let '(bufs, locs, total, live) := writeMany_build items start in
    chain (map tile_of locs) start (start + total) /\
    len (List.concat bufs) = total /\
    (B -> Forall small (map tile_of locs)) /\
    (forall o sz, In (o, sz) (map tile_of locs) -> sz < 2 ^ 32 ->
                  le_value (pread (pre ++ List.concat bufs ++ post) (o + 8) 4) = sz).
Proof.
  induction items as [|[id data] rest IH]; intros HB start pre post Hpre.
  - cbn [writeMany_build map chain List.concat]. repeat split.
    + lia.
    + intros _. constructor.
    + intros o sz [].
  - rewrite writeMany_build_cons. cbv zeta.
    set (bytes := encodeDocument data).
    set (slab := selectSlabSize (len bytes)).
    pose proof (selectSlabSize_fits (len bytes)) as Hfits. fold slab in Hfits.
    pose proof (len_nonneg bytes) as Hbytes.
    unfold SLOT_HEADER_SIZE in Hfits.
    assert (Hslot : len (slotBuffer SlotFlags.ACTIVE bytes slab) = slab)
      by (apply len_slotBuffer; unfold SLOT_HEADER_SIZE; lia).
    assert (HB' : B -> Forall (fun item => len (encodeDocument (snd item)) + 4112 <= 2 ^ 32) rest).
    { intros b. specialize (HB b). inversion HB; assumption. }
    specialize (IH HB' (start + slab) (pre ++ slotBuffer SlotFlags.ACTIVE bytes slab) post).
    rewrite len_app, Hslot, Hpre in IH. specialize (IH eq_refl).
    destruct (writeMany_build rest (start + slab)) as [[[bufs locs] total] live].
    destruct IH as (IH1 & IH2 & IH3 & IH4).
    cbn [map tile_of loc_offset loc_slabSize chain List.concat].
    repeat split.
    + unfold SLOT_HEADER_SIZE. lia.
    + replace (start + (slab + total)) with (start + slab + total) by lia.
      exact IH1.
    + rewrite len_app, Hslot, IH2. reflexivity.
    + intros b. constructor; [|exact (IH3 b)].
      unfold small. cbn [snd]. apply selectSlabSize_bound.
      specialize (HB b). inversion HB; assumption.
    + intros o sz [Heq|Hin] Hsmall.
      * injection Heq as <- <-. rewrite <- Hpre. rewrite <- app_assoc.
        rewrite pread_middle by lia.
        apply slab_word_slotBuffer; unfold SLOT_HEADER_SIZE; lia.
      * rewrite <- app_assoc. rewrite app_assoc. apply IH4; assumption.
Qed.

Lemma wp_batch_enter (B : Prop) (T : Tiles) Q E s :
  Inv T s -> (forall s', moved B T s T s' -> Q tt s') -> wp batch_enter Q E s.
Proof.
  intros HI HQ. unfold batch_enter. apply wp_modify. apply HQ.
  apply moved_same; try reflexivity. exact HI.
Qed.

Lemma wp_batch_exit (B : Prop) (T : Tiles) Q E s :
  Inv T s -> (forall s', moved B T s T s' -> Q tt s') -> wp batch_exit Q E s.
Proof.
  intros HI HQ. unfold batch_exit. apply wp_bind, wp_modify.
  set (s1 := set_batchDepth _ s).
  assert (M1 : moved B T s T s1) by (apply moved_same; try reflexivity; exact HI).
  apply wp_bind, wp_gets. apply wp_when; intros _.
  - apply metadata_flushMetadata; [exact (Inv_roomy _ _ (mv_inv _ _ _ _ _ M1))|].
    intros s2 M2. apply HQ. eapply moved_trans; [exact M1|].
    apply moved_meta; [exact (mv_inv _ _ _ _ _ M1)|exact M2].
  - apply HQ. exact M1.
Qed.
End Many.

Section WriteMany.
Context `{rt : Runtime}.

Lemma wp_writeMany (B : Prop) (T : Tiles) (items : list (string * Document))
      Q E s :
  Inv T s ->
  (B -> Forall (fun item => payload_small (blobThreshold s) (fst item) (snd item))
          items) ->
  (forall locs T' s', moved B T s T' s' ->
                      Forall (fun loc => In (tile_of loc) T') locs -> Q locs s') ->
  (forall e T' s', moved B T s T' s' -> E e s') ->
  wp (writeMany items) Q E s.
Proof.
  intros HI HB HQ HE. unfold writeMany.
  destruct items as [|item0 rest] eqn:Hitems.
  { apply wp_ret. apply (HQ [] T); [apply moved_refl; exact HI|constructor]. }
  rewrite <- Hitems in *. clear Hitems item0 rest.
  apply wp_bind, wp_gets.
  destruct (existsb _ items) eqn:Ex.
  - (* one document at least is a blob: the documents are written in turn *)
    apply wp_bind. apply (wp_batch_enter B T); [exact HI|]. intros s1 M1.
    apply wp_try_finally.
    set (I := fun (ys : list DocumentLocation) (s' : StorageEngine) =>
                exists T', moved B T s T' s' /\
                           Forall (fun loc => In (tile_of loc) T') ys).
    set (J := fun (s' : StorageEngine) => exists T', moved B T s T' s').
    eapply wp_mono;
      [apply (wp_for_each_acc
                (fun item => writeUnlocked (fst item) (snd item)) items I J [] s1)| |].
    + intros [id data] ys s2 Hin (T2 & M2 & Hys). cbn [fst snd].
      apply (wp_writeUnlocked B T2); [exact (mv_inv _ _ _ _ _ M2)| |].
      * intros b. rewrite (mv_thr _ _ _ _ _ M2).
        specialize (HB b). rewrite Forall_forall in HB.
        exact (HB _ Hin).
      * intros loc T3 s3 W. exists T3. split.
        -- eapply moved_trans; [exact M2|exact (wr_moved _ _ _ _ _ _ _ _ W)].
        -- apply Forall_app. split.
           ++ eapply Forall_impl; [|exact Hys]. intros l Hl.
              exact (moved_in _ _ _ _ _ _ (wr_moved _ _ _ _ _ _ _ _ W) Hl).
           ++ constructor; [|constructor]. exact (wr_tile _ _ _ _ _ _ _ _ W).
    + exists T. split; [exact M1|constructor].
    + intros locs s2 (T2 & M2 & Hlocs). cbn [app] in Hlocs.
      apply (wp_batch_exit B T2); [exact (mv_inv _ _ _ _ _ M2)|].
      intros s3 M3. apply (HQ locs T2); [|exact Hlocs].
      eapply moved_trans; eassumption.
    + intros e s2 (T2 & M2).
      apply (wp_batch_exit B T2); [exact (mv_inv _ _ _ _ _ M2)|].
      intros s3 M3. apply (HE e T2). eapply moved_trans; eassumption.
  - (* the slots are built and written at once *)
    apply wp_bind, wp_gets.
    pose proof (Inv_header_in_file _ _ HI) as Hh. unfold DATA_HEADER_SIZE in Hh.
    set (start := nextSlotOffset (header s)) in *.
    assert (HB' : B -> Forall (fun item => len (encodeDocument (snd item)) + 4112
                                            <= 2 ^ 32) items).
    { intros b. specialize (HB b). rewrite Forall_forall in *.
      intros item Hin. specialize (HB item Hin).
      unfold payload_small, slot_payload in HB.
      destruct (len (encodeDocument (snd item)) >? blobThreshold s) eqn:Eb;
        [|exact HB].
      assert (Hex : existsb (fun item => len (encodeDocument (snd item))
                                         >? blobThreshold s) items = true)
        by (apply existsb_exists; exists item; split; assumption).
      congruence. }
    pose proof (writeMany_build_spec B items HB' start
                  (firstn (Z.to_nat start) (file s))) as Hspec.
    destruct (writeMany_build items start) as [[[bufs locs] total] live].
    set (full := List.concat bufs) in *.
    specialize (Hspec (skipn (Z.to_nat start + List.length full) (file s))
                  (len_firstn_to_nat (file s) start ltac:(lia))).
    destruct Hspec as (Hchain & Hlen & Hsmall & Hdisk).
    rewrite <- pwrite_inside in Hdisk by lia.
    pose proof (chain_le _ _ _ Hchain) as Htotal.
    apply wp_bind. unfold writeAtOffset. apply wp_modify.
    set (s1 := set_diskWrites _ _).
    assert (HI1 : Inv T s1).
    { apply (Inv_same T (set_file (pwrite (file s) start full) s));
        try reflexivity.
      apply Inv_write_beyond; [exact HI|fold start; lia]. }
    apply wp_bind. unfold modify_header at 1. apply wp_modify. cbv zeta.
    set (s2 := set_header _ s1).
    assert (HI2 : Inv (T ++ map tile_of locs) s2).
    { apply (Inv_extend T (map tile_of locs) s1 (start + total) HI1).
      - exact Hchain.
      - unfold s1. cbn [file set_file set_diskWrites].
        rewrite len_pwrite by lia. lia.
      - intros o sz Hin Hsz. unfold slabField, s1.
        cbn [file set_file set_diskWrites]. apply Hdisk; assumption. }
    assert (M2 : moved B T s (T ++ map tile_of locs) s2).
    { constructor.
      - exists (map tile_of locs). split; [reflexivity|exact Hsmall].
      - exact HI2.
      - reflexivity.
      - unfold s2, s1. cbn [file set_file set_diskWrites set_header].
        rewrite len_pwrite by lia. lia.
      - unfold s2. cbn [header set_header set_fileSize set_nextSlotOffset
                          nextSlotOffset]. fold start. lia. }
    assert (R2 : roomy s2) by exact (Inv_roomy _ _ HI2).
    meta_tail. apply wp_ret. apply (HQ locs (T ++ map tile_of locs)).
    + eapply moved_trans; [exact M2|]. apply moved_meta; eassumption.
    + rewrite Forall_forall. intros loc Hin. apply in_or_app. right.
      apply in_map. exact Hin.
Qed.
End WriteMany.

(* ------------------------------------------------------------------ *)
(** ** The collection *)

Section MapFacts.
Context {V : Type}.
Implicit Types (m : JSMap V) (k : string).

Lemma Map_get_In m k (v : V) :
  Map_get m k = Some v -> In (k, v) m.
Proof.
  induction m as [|[k' v'] m IH]; cbn [Map_get]; [discriminate|].
  destruct (String.eqb_spec k' k) as [->|Hne].
  - intros [= ->]. left. reflexivity.
  - intros H. right. exact (IH H).
Qed.

Lemma Map_get_None m k :
  Map_get m k = None <-> ~ In k (Map_keys m).
Proof.
  induction m as [|[k' v'] m IH]; cbn [Map_get Map_keys map fst In].
  - split; [intros _ []|reflexivity].
  - destruct (String.eqb_spec k' k) as [->|Hne].
    + split; [discriminate|]. intros H. exfalso. apply H. left. reflexivity.
    + rewrite IH. unfold Map_keys. split; intros H; [intros [?|?]|]; tauto.
Qed.

Lemma Map_keys_delete m k k' :
  In k' (Map_keys (Map_delete m k)) -> In k' (Map_keys m).
Proof.
  induction m as [|[k0 v0] m IH]; cbn [Map_delete Map_keys map fst In]; [tauto|].
  destruct (String.eqb k0 k); cbn [map fst In]; [tauto|].
  intros [H|H]; [left; exact H|right; exact (IH H)].
Qed.

Lemma NoDup_Map_delete m k :
  NoDup (Map_keys m) -> NoDup (Map_keys (Map_delete m k)).
Proof.
  induction m as [|[k0 v0] m IH]; cbn [Map_delete Map_keys map fst]; [auto|].
  intros H. inversion H as [|? ? Hnin Hnd]; subst.
  destruct (String.eqb k0 k); [exact Hnd|].
  cbn [map fst]. constructor; [|exact (IH Hnd)].
  intros Hin. apply Hnin. exact (Map_keys_delete _ _ _ Hin).
Qed.

Lemma Map_keys_set m k (v : V) k' :
  In k' (Map_keys (Map_set m k v)) -> k' = k \/ In k' (Map_keys m).
Proof.
  induction m as [|[k0 v0] m IH]; cbn [Map_set Map_keys map fst In].
  - intros [H|[]]. left. congruence.
  - destruct (String.eqb_spec k0 k) as [->|Hne]; cbn [map fst In].
    + intros [H|H]; [left; congruence|right; right; exact H].
    + intros [H|H]; [right; left; exact H|].
      destruct (IH H); [left|right; right]; assumption.
Qed.

Lemma NoDup_Map_set m k (v : V) :
  NoDup (Map_keys m) -> NoDup (Map_keys (Map_set m k v)).
Proof.
  induction m as [|[k0 v0] m IH]; cbn [Map_set Map_keys map fst].
  - intros _. constructor; [intros []|constructor].
  - intros H. inversion H as [|? ? Hnin Hnd]; subst.
    destruct (String.eqb_spec k0 k) as [->|Hne]; cbn [map fst].
    + constructor; assumption.
    + constructor; [|exact (IH Hnd)].
      intros Hin. destruct (Map_keys_set _ _ _ _ Hin) as [Heq|Hin'];
        [congruence|exact (Hnin Hin')].
Qed.

Lemma Map_get_delete_same m k :
  NoDup (Map_keys m) -> Map_get (Map_delete m k) k = None.
Proof.
  induction m as [|[k0 v0] m IH]; cbn [Map_delete Map_keys map fst]; [reflexivity|].
  intros H. inversion H as [|? ? Hnin Hnd]; subst.
  destruct (String.eqb_spec k0 k) as [->|Hne].
  - apply Map_get_None. exact Hnin.
  - cbn [Map_get]. destruct (String.eqb_spec k0 k); [contradiction|].
    exact (IH Hnd).
Qed.

Lemma Map_get_delete_other m k k' :
  k' <> k -> Map_get (Map_delete m k') k = Map_get m k.
Proof.
  intros Hne. induction m as [|[k0 v0] m IH]; cbn [Map_delete Map_get];
    [reflexivity|].
  destruct (String.eqb_spec k0 k') as [->|Hne'].
  - destruct (String.eqb_spec k' k); [contradiction|reflexivity].
  - cbn [Map_get]. rewrite IH. reflexivity.
Qed.

Lemma Forall_Map_set (R : V -> Prop) m k (v : V) :
  Forall (fun e => R (snd e)) m -> R v ->
  Forall (fun e => R (snd e)) (Map_set m k v).
Proof.
  intros Hm Hv. induction m as [|[k0 v0] m IH]; cbn [Map_set].
  - constructor; [exact Hv|constructor].
  - inversion Hm as [|? ? H0 Hrest]; subst.
    destruct (String.eqb k0 k); constructor; auto.
Qed.

Lemma Forall_Map_delete (R : V -> Prop) m k :
  Forall (fun e => R (snd e)) m ->
  Forall (fun e => R (snd e)) (Map_delete m k).
Proof.
  intros Hm. induction m as [|[k0 v0] m IH]; cbn [Map_delete]; [constructor|].
  inversion Hm as [|? ? H0 Hrest]; subst.
  destruct (String.eqb k0 k); [exact Hrest|constructor; auto].
Qed.
End MapFacts.

Lemma CInv_storage (B : Prop) (T T' : Tiles) (c : Collection)
      (s' : StorageEngine) :
  CInv T c -> moved B T (storage c) T' s' -> CInv T' (set_storage s' c).
Proof.
  intros [H1 H2 H3] M. constructor; cbn [storage indexManager set_storage].
  - exact (mv_inv _ _ _ _ _ M).
  - eapply Forall_impl; [|exact H2]. intros e He.
    exact (moved_in _ _ _ _ _ _ M He).
  - exact H3.
Qed.

Lemma CInv_index (T : Tiles) (c : Collection) (id : string)
      (loc : DocumentLocation) :
  CInv T c -> Map_get (primaryIndex (indexManager c)) id = Some loc ->
  In (loc_offset loc, loc_slabSize loc) T.
Proof.
  intros [_ H2 _] Hget. apply Map_get_In in Hget.
  rewrite Forall_forall in H2. exact (H2 _ Hget).
Qed.

Lemma CInv_set_index (T : Tiles) (c : Collection) (m : IndexManager) :
  CInv T c ->
  Forall (fun e => In (tile_of (snd e)) T) (primaryIndex m) ->
  CInv T (set_indexManager m c).
Proof.
  intros [H1 H2 H3] Hm. constructor; assumption.
Qed.

Section CacheOps.
Context `{rt : Runtime}.

Lemma wp_cacheSet (id : string) (doc : Document) Q E c :
  cache_ok c ->
  (forall c', storage c' = storage c -> indexManager c' = indexManager c ->
              cache_ok c' ->
              match cache c' with
              | Some entries =>
                  Map_get entries id = None \/ Map_get entries id = Some doc
              | None => True
              end -> Q tt c') ->
  wp (cacheSet id doc) Q E c.
Proof.
  intros Hok HQ. unfold cacheSet. apply wp_modify. unfold cache_ok in Hok.
  destruct (cache c) as [entries|] eqn:Hc.
  - set (e1 := if Map_has entries id then Map_delete entries id else entries).
    assert (H1 : NoDup (Map_keys e1))
      by (unfold e1; destruct (Map_has entries id);
          [apply NoDup_Map_delete|]; exact Hok).
    set (e2 := Map_set e1 id doc).
    assert (H2 : NoDup (Map_keys e2)) by (apply NoDup_Map_set; exact H1).
    assert (G2 : Map_get e2 id = Some doc) by apply Map_get_set_same.
    apply HQ; try reflexivity; unfold cache_ok; cbn [cache set_cache].
    + destruct (Map_size e2 >? cacheSize c); [|exact H2].
      generalize (Map_keys e2) at 1. intros [|k ks];
        [exact H2|apply NoDup_Map_delete; exact H2].
    + destruct (Map_size e2 >? cacheSize c); [|right; exact G2].
      generalize (Map_keys e2). intros [|k ks]; [right; exact G2|].
      destruct (String.eqb_spec k id) as [->|Hne].
      * left. apply Map_get_delete_same. exact H2.
      * right. rewrite Map_get_delete_other by exact Hne. exact G2.
  - apply HQ; try reflexivity; unfold cache_ok; rewrite Hc; exact I.
Qed.

Lemma wp_cacheDelete (id : string) Q E c :
  cache_ok c ->
  (forall c', storage c' = storage c -> indexManager c' = indexManager c ->
              cache_ok c' -> Q tt c') ->
  wp (cacheDelete id) Q E c.
Proof.
  intros Hok HQ. unfold cacheDelete. apply wp_modify. unfold cache_ok in Hok.
  destruct (cache c) as [entries|] eqn:Hc.
  - apply HQ; try reflexivity. unfold cache_ok. cbn [cache set_cache].
    apply NoDup_Map_delete. exact Hok.
  - apply HQ; try reflexivity. unfold cache_ok. rewrite Hc. exact I.
Qed.

Lemma wp_cacheGet (id : string) Q E c :
  cache_ok c ->
  (forall r c', storage c' = storage c -> indexManager c' = indexManager c ->
                cache_ok c' ->
                match r with
                | Some v => exists entries,
                    cache c = Some entries /\ Map_get entries id = Some v
                | None => True
                end -> Q r c') ->
  wp (cacheGet id) Q E c.
Proof.
  intros Hok HQ. unfold cacheGet. apply wp_bind, wp_gets. unfold cache_ok in Hok.
  destruct (cache c) as [entries|] eqn:Hc.
  - destruct (Map_get entries id) as [v|] eqn:Hv.
    + destruct (negb (truthy_value v)).
      * apply wp_ret. apply HQ; try reflexivity; try exact I.
        unfold cache_ok. rewrite Hc. exact Hok.
      * apply wp_bind, wp_modify. apply wp_ret.
        apply HQ; try reflexivity.
        -- unfold cache_ok. cbn [cache set_cache].
           apply NoDup_Map_set, NoDup_Map_delete. exact Hok.
        -- exists entries. split; [reflexivity|exact Hv].
    + apply wp_ret. apply HQ; try reflexivity; try exact I.
      unfold cache_ok. rewrite Hc. exact Hok.
  - apply wp_ret. apply HQ; try reflexivity; try exact I.
    unfold cache_ok. rewrite Hc. exact I.
Qed.

(** A read changes the counter of reads only. *)
Lemma wp_read (loc : DocumentLocation) Q E s :
  (forall d, Q d (set_docReads (S (docReads s)) s)) ->
  (forall e, E e (set_docReads (S (docReads s)) s)) ->
  wp (Storage.read loc) Q E s.
Proof.
  intros HQ HE. unfold Storage.read. apply wp_bind, wp_modify.
  set (s1 := set_docReads _ s) in *.
  destruct (loc_isBlob loc).
  - unfold readBlob. apply wp_bind, wp_readBlobReference; [|exact HE].
    intros r. apply wp_bind, wp_gets.
    destruct (Map_get _ _); [|apply wp_throw, HE].
    destruct (negb _); [apply wp_throw, HE|].
    destruct (JSON_parse _); [apply wp_ret, HQ|apply wp_throw, HE].
  - apply wp_bind. unfold readSlot. apply wp_pure_result.
    destruct (readSlot_in _ _ _); [|apply HE].
    destruct (JSON_parse _); [apply wp_ret, HQ|apply wp_throw, HE].
Qed.

Lemma moved_read (B : Prop) (T : Tiles) (s : StorageEngine) :
  Inv T s -> moved B T s T (set_docReads (S (docReads s)) s).
Proof. intros HI. apply moved_same; try reflexivity. exact HI. Qed.

(** A location that holds a document reads back as the document. *)
Lemma read_holds (s : StorageEngine) (loc : DocumentLocation) (id : string)
      (data : Document) :
  holds s loc id data -> round_trips (blobThreshold s) id data ->
  fst (Storage.read loc s) = Ok data.
Proof.
  intros [H1 H2 H3 H4] [R1 R2].
  unfold Storage.read, readBlob, readBlobReference, readSlot, pure_result,
    bind, gets, modify, ret, throw.
  destruct (loc_isBlob loc) eqn:Eb; cbv beta;
    change (file (set_docReads (S (docReads s)) s)) with (file s).
  - rewrite H3. symmetry in H2. rewrite (R2 H2).
    cbn [ref_path ref_checksum blobFiles set_docReads].
    rewrite (H4 eq_refl). rewrite Z.eqb_refl. cbn [negb]. rewrite R1.
    reflexivity.
  - rewrite H3. unfold slot_payload. rewrite <- H2. rewrite R1. reflexivity.
Qed.
End CacheOps.

Lemma cstep_refl (B : Prop) (T : Tiles) (c : Collection) :
  CInv T c -> cstep B T c c.
Proof.
  intros H. exists T. split; [apply moved_refl; exact (ci_inv _ _ H)|exact H].
Qed.

Lemma CInv_same_store (T : Tiles) (c c' : Collection) :
  CInv T c -> storage c' = storage c -> indexManager c' = indexManager c ->
  cache_ok c' -> CInv T c'.
Proof.
  intros [H1 H2 H3] Hs Hi Hc. constructor; rewrite ?Hs, ?Hi; assumption.
Qed.

Section CollectionSteps.
Context `{rt : Runtime}.

Lemma primaryIndex_addDocument id loc data m :
  primaryIndex (Index.addDocument id loc data m) = Map_set (primaryIndex m) id loc.
Proof. reflexivity. Qed.

Lemma primaryIndex_updateDocument id loc data old m :
  primaryIndex (Index.updateDocument id loc data old m)
  = Map_set (primaryIndex m) id loc.
Proof. reflexivity. Qed.

Lemma primaryIndex_removeDocument id data m :
  primaryIndex (Index.removeDocument id data m) = Map_delete (primaryIndex m) id.
Proof. destruct data; reflexivity. Qed.

(** The index and the cache after a document was stored at [loc]. *)
Lemma wp_record (B : Prop) (T T' : Tiles) (id : string) (data : Document)
      (loc : DocumentLocation) (f : IndexManager -> IndexManager) Q E c c1 :
  (forall m, primaryIndex (f m) = Map_set (primaryIndex m) id loc) ->
  CInv T c ->
  written B T (storage c) id data loc T' (storage c1) ->
  indexManager c1 = indexManager c -> cache_ok c1 ->
  (forall c', moved B T (storage c) T' (storage c') -> CInv T' c' ->
              keeps c' id data -> Q tt c') ->
  wp (onIndex f ;; cacheSet id data) Q E c1.
Proof.
  intros Hf HC W Hi Hc HQ. destruct W as [M Htile Hholds].
  apply wp_bind. unfold onIndex. apply wp_modify.
  apply wp_cacheSet; [exact Hc|]. cbn [storage indexManager set_indexManager].
  intros c3 Hs3 Hi3 Hok3 Hcache3.
  apply HQ.
  - rewrite Hs3. exact M.
  - constructor; rewrite ?Hs3, ?Hi3, ?Hf; [exact (mv_inv _ _ _ _ _ M)| |exact Hok3].
    apply Forall_Map_set with (R := fun l => In (tile_of l) T'); [|exact Htile].
    rewrite Hi. eapply Forall_impl; [|exact (ci_index _ _ HC)].
    intros e He. exact (moved_in _ _ _ _ _ _ M He).
  - constructor.
    + exists loc. rewrite Hi3, Hf, Hs3. split; [apply Map_get_set_same|].
      rewrite (mv_thr _ _ _ _ _ M). exact Hholds.
    + exact Hcache3.
Qed.

Lemma wp_insert_tail (B : Prop) (T : Tiles) (id : string) (data : Document)
      Q E c :
  CInv T c ->
  (B -> payload_small (blobThreshold (storage c)) id data) ->
  (forall T' c', moved B T (storage c) T' (storage c') -> CInv T' c' ->
                 keeps c' id data -> Q tt c') ->
  wp (location <- onStorage (writeUnlocked id data) ;;
      onIndex (Index.addDocument id location data) ;;
      cacheSet id data) Q E c.
Proof.
  intros HC HB HQ. apply wp_bind, wp_onStorage.
  apply (wp_writeUnlocked B T); [exact (ci_inv _ _ HC)|exact HB|].
  intros loc T' s' W.
  apply (wp_record B T T' id data loc _ Q E c).
  - intros m. reflexivity.
  - exact HC.
  - exact W.
  - reflexivity.
  - exact (ci_cache _ _ HC).
  - exact (HQ T').
Qed.

Lemma wp_update_tail (B : Prop) (T : Tiles) (id : string) (data : Document)
      (old : DocumentLocation) Q E c :
  CInv T c ->
  Map_get (primaryIndex (indexManager c)) id = Some old ->
  (B -> payload_small (blobThreshold (storage c)) id data) ->
  (forall T' c', moved B T (storage c) T' (storage c') -> CInv T' c' ->
                 keeps c' id data -> Q tt c') ->
  (forall e c', cstep B T c c' -> E e c') ->
  wp (oldData <- onStorage (Storage.read old) ;;
      newLocation <- onStorage (updateUnlocked id data old) ;;
      onIndex (Index.updateDocument id newLocation data (Some oldData)) ;;
      cacheSet id data) Q E c.
Proof.
  intros HC Hold HB HQ HE.
  pose proof (ci_inv _ _ HC) as HI.
  pose proof (CInv_index _ _ _ _ HC Hold) as Htile.
  pose proof (moved_read B T _ HI) as M1.
  assert (HC1 : CInv T (set_storage (set_docReads (S (docReads (storage c)))
                                        (storage c)) c))
    by exact (CInv_storage B _ _ _ _ HC M1).
  apply wp_bind, wp_onStorage. apply wp_read.
  - intros oldData. apply wp_bind, wp_onStorage.
    cbn [storage set_storage].
    apply (wp_updateUnlocked B T); [exact (mv_inv _ _ _ _ _ M1)|exact Htile|exact HB| |].
    + intros loc T' s' W.
      apply (wp_record B T T' id data loc _ Q E c).
      * intros m. reflexivity.
      * exact HC.
      * destruct W as [M Ht Hh]. constructor.
        -- eapply moved_trans; [exact M1|exact M].
        -- exact Ht.
        -- exact Hh.
      * reflexivity.
      * exact (ci_cache _ _ HC).
      * exact (HQ T').
    + intros e. apply HE. eexists. split; [|exact HC1]. exact M1.
  - intros e. apply HE. eexists. split; [|exact HC1]. exact M1.
Qed.

Lemma wp_delete_tail (B : Prop) (T : Tiles) (id : string)
      (loc : DocumentLocation) Q E c :
  CInv T c ->
  Map_get (primaryIndex (indexManager c)) id = Some loc ->
  (forall c', deleted T (storage c) loc (storage c') -> CInv T c' -> Q true c') ->
  (forall e c', cstep B T c c' -> E e c') ->
  wp (data <- onStorage (Storage.read loc) ;;
      onStorage (deleteUnlocked loc) ;;
      onIndex (Index.removeDocument id (Some data)) ;;
      cacheDelete id ;;
      ret true) Q E c.
Proof.
  intros HC Hloc HQ HE.
  pose proof (ci_inv _ _ HC) as HI.
  pose proof (CInv_index _ _ _ _ HC Hloc) as Htile.
  pose proof (moved_read B T _ HI) as M1.
  assert (HC1 : CInv T (set_storage (set_docReads (S (docReads (storage c)))
                                        (storage c)) c))
    by exact (CInv_storage B _ _ _ _ HC M1).
  apply wp_bind, wp_onStorage. apply wp_read.
  - intros data. apply wp_bind, wp_onStorage. cbn [storage set_storage].
    apply (wp_deleteUnlocked T); [exact (mv_inv _ _ _ _ _ M1)|exact Htile| |].
    + intros s' D. apply wp_bind. unfold onIndex. apply wp_modify.
      apply wp_bind. apply wp_cacheDelete; [exact (ci_cache _ _ HC)|].
      cbn [storage indexManager set_indexManager set_storage].
      intros c3 Hs3 Hi3 Hok3. apply wp_ret. apply HQ.
      * rewrite Hs3. destruct D. constructor; assumption.
      * constructor; rewrite ?Hs3, ?Hi3, ?primaryIndex_removeDocument.
        -- exact (dl_inv _ _ _ _ D).
        -- apply Forall_Map_delete with (R := fun l => In (tile_of l) T).
           exact (ci_index _ _ HC).
        -- exact Hok3.
    + intros e. apply HE. eexists. split; [|exact HC1]. exact M1.
  - intros e. apply HE. eexists. split; [|exact HC1]. exact M1.
Qed.
End CollectionSteps.

Lemma cstep_trans (B : Prop) (T T1 : Tiles) (c c1 c2 : Collection) :
  moved B T (storage c) T1 (storage c1) ->
  cstep B T1 c1 c2 -> cstep B T c c2.
Proof.
  intros M1 (T2 & M2 & HC2). exists T2. split; [|exact HC2].
  eapply moved_trans; eassumption.
Qed.

Lemma wp_snd {S A} (c : M S A) (P : S -> Prop) (s : S) :
  wp c (fun _ => P) (fun _ => P) s -> P (snd (c s)).
Proof. unfold wp. destruct (c s) as [[a|e] s']; exact (fun H => H). Qed.

Section OperationSteps.
Context `{rt : Runtime}.

Lemma payload_smallb_spec (thr : Z) (id : string) (data : Document) :
  payload_smallb thr id data = true -> payload_small thr id data.
Proof. unfold payload_smallb, payload_small. apply Z.leb_le. Qed.

Lemma insert_with_step (B : Prop) (T : Tiles) id data c :
  CInv T c -> (B -> payload_small (blobThreshold (storage c)) id data) ->
  step_spec B T (insert_with writeUnlocked id data) c.
Proof.
  intros HC HB. unfold step_spec, insert_with. apply wp_bind, wp_gets.
  destruct (Index.has (indexManager c) id).
  - apply wp_throw. apply cstep_refl. exact HC.
  - apply (wp_insert_tail B T); [exact HC|exact HB|].
    intros T' c' M HC' _. exists T'. split; assumption.
Qed.

Lemma update_with_step (B : Prop) (T : Tiles) id data c :
  CInv T c -> (B -> payload_small (blobThreshold (storage c)) id data) ->
  step_spec B T (update_with updateUnlocked id data) c.
Proof.
  intros HC HB. unfold step_spec, update_with. apply wp_bind, wp_gets.
  unfold Index.getLocation.
  destruct (Map_get (primaryIndex (indexManager c)) id) as [old|] eqn:Hold.
  - apply (wp_update_tail B T); [exact HC|exact Hold|exact HB| |].
    + intros T' c' M HC' _. exists T'. split; assumption.
    + intros e c' H. exact H.
  - apply wp_throw. apply cstep_refl. exact HC.
Qed.

Lemma upsert_with_step (B : Prop) (T : Tiles) id data c :
  CInv T c -> (B -> payload_small (blobThreshold (storage c)) id data) ->
  step_spec B T (upsert_with writeUnlocked updateUnlocked id data) c.
Proof.
  intros HC HB. unfold step_spec, upsert_with. apply wp_bind, wp_gets.
  unfold Index.getLocation.
  destruct (Map_get (primaryIndex (indexManager c)) id) as [old|] eqn:Hold.
  - apply (wp_update_tail B T); [exact HC|exact Hold|exact HB| |].
    + intros T' c' M HC' _. exists T'. split; assumption.
    + intros e c' H. exact H.
  - apply (wp_insert_tail B T); [exact HC|exact HB|].
    intros T' c' M HC' _. exists T'. split; assumption.
Qed.

Lemma delete_with_step (B : Prop) (T : Tiles) id c :
  CInv T c -> step_spec B T (delete_with deleteUnlocked id) c.
Proof.
  intros HC. unfold step_spec, delete_with. apply wp_bind, wp_gets.
  unfold Index.getLocation.
  destruct (Map_get (primaryIndex (indexManager c)) id) as [loc|] eqn:Hloc.
  - apply (wp_delete_tail B T); [exact HC|exact Hloc| |].
    + intros c' D HC'. exists T. split; [|exact HC'].
      eapply moved_deleted; exact D.
    + intros e c' H. exact H.
  - apply wp_ret. apply cstep_refl. exact HC.
Qed.

Lemma batch_op_step (B : Prop) (T : Tiles) op c :
  CInv T c -> (B -> batch_op_small (blobThreshold (storage c)) op = true) ->
  step_spec B T (Collection.batch_op op) c.
Proof.
  intros HC HB. destruct op as [id data|id data|id data|id]; cbn [Collection.batch_op].
  - apply insert_with_step; [exact HC|].
    intros b. apply payload_smallb_spec. exact (HB b).
  - apply update_with_step; [exact HC|].
    intros b. apply payload_smallb_spec. exact (HB b).
  - apply upsert_with_step; [exact HC|].
    intros b. apply payload_smallb_spec. exact (HB b).
  - unfold step_spec. apply wp_bind.
    eapply wp_mono; [apply (delete_with_step B T id c HC)| |].
    + intros r c' H. apply wp_ret. exact H.
    + intros e c' H. exact H.
Qed.

Lemma wp_onStorage_moved {A} (B : Prop) (T : Tiles) (op : Eng A)
      (Q : A -> Collection -> Prop) E c :
  CInv T c ->
  (forall Q' E', (forall a s', moved B T (storage c) T s' -> Q' a s') ->
                 wp op Q' E' (storage c)) ->
  (forall a c', moved B T (storage c) T (storage c') -> CInv T c' -> Q a c') ->
  wp (onStorage op) Q E c.
Proof.
  intros HC Hop HQ. apply wp_onStorage. apply Hop.
  intros a s' M. apply HQ; [exact M|]. exact (CInv_storage B _ _ _ _ HC M).
Qed.

Lemma batch_step (B : Prop) (T : Tiles) ops c :
  CInv T c ->
  (B -> forallb (batch_op_small (blobThreshold (storage c))) ops = true) ->
  step_spec B T (Collection.batch ops) c.
Proof.
  intros HC HB. unfold step_spec, Collection.batch.
  apply wp_bind.
  apply (wp_onStorage_moved B T); [exact HC| |].
  { intros Q' E' H. apply (wp_batch_enter B T); [exact (ci_inv _ _ HC)|].
    intros s' M. apply H. exact M. }
  intros [] c1 M1 HC1.
  assert (Hexit : forall c2, cstep B T c c2 ->
                             forall (Q : unit -> Collection -> Prop) E,
                               (forall c3, cstep B T c c3 -> Q tt c3) ->
                               wp (onStorage batch_exit) Q E c2).
  { intros c2 (T2 & M2 & HC2) Q E HQ.
    apply (wp_onStorage_moved B T2); [exact HC2| |].
    - intros Q' E' H. apply (wp_batch_exit B T2); [exact (ci_inv _ _ HC2)|].
      intros s' M. apply H. exact M.
    - intros [] c3 M3 HC3. apply HQ. exists T2. split; [|exact HC3].
      eapply moved_trans; eassumption. }
  apply wp_try_finally. apply wp_bind.
  eapply wp_mono;
    [apply (wp_for_each Collection.batch_op ops (fun c' => cstep B T c c') c1)| |].
  - intros op c2 Hin (T2 & M2 & HC2).
    eapply wp_mono; [apply (batch_op_step B T2 op c2 HC2)| |].
    + intros b. rewrite (mv_thr _ _ _ _ _ M2).
      specialize (HB b). rewrite forallb_forall in HB. exact (HB _ Hin).
    + intros r c3 H3. exact (cstep_trans _ _ _ _ _ _ M2 H3).
    + intros e c3 H3. exact (cstep_trans _ _ _ _ _ _ M2 H3).
  - exists T. split; assumption.
  - intros r c2 H2. apply wp_ret. apply (Hexit c2 H2). auto.
  - intros e c2 H2. apply (Hexit c2 H2). auto.
Qed.
End OperationSteps.

Section MoreSteps.
Context `{rt : Runtime}.

Lemma insertMany_step (B : Prop) (T : Tiles) items c :
  CInv T c ->
  (B -> forallb (fun item => payload_smallb (blobThreshold (storage c))
                               (fst item) (snd item)) items = true) ->
  step_spec B T (Collection.insertMany items) c.
Proof.
  intros HC HB. unfold step_spec, Collection.insertMany.
  destruct items as [|item0 rest] eqn:Hitems.
  { apply wp_ret. apply cstep_refl. exact HC. }
  rewrite <- Hitems in *. clear Hitems item0 rest.
  apply wp_bind, wp_gets.
  destruct (find _ items).
  { apply wp_throw. apply cstep_refl. exact HC. }
  apply wp_bind, wp_onStorage.
  apply (wp_writeMany B T); [exact (ci_inv _ _ HC)| | |].
  - intros b. specialize (HB b). rewrite forallb_forall in HB.
    rewrite Forall_forall. intros item Hin.
    apply payload_smallb_spec. exact (HB _ Hin).
  - intros locs T' s' M Hlocs. apply wp_bind.
    pose proof (CInv_storage B _ _ _ _ HC M) as HC1.
    set (c1 := set_storage s' c) in *.
    set (I := fun c' : Collection => storage c' = s' /\ CInv T' c').
    eapply wp_mono;
      [apply (wp_for_each
                (fun p : (string * Document) * DocumentLocation =>
                   onIndex (Index.addDocument (fst (fst p)) (snd p) (snd (fst p))) ;;
                   cacheSet (fst (fst p)) (snd (fst p)))
                (combine items locs) I c1)| |].
    + intros [[id data] loc] c2 Hin [Hs2 HC2]. cbn [fst snd].
      apply wp_bind. unfold onIndex. apply wp_modify.
      apply wp_cacheSet; [exact (ci_cache _ _ HC2)|].
      cbn [storage indexManager set_indexManager].
      intros c3 Hs3 Hi3 Hok3 _. split; [congruence|].
      constructor; rewrite ?Hs3, ?Hi3, ?primaryIndex_addDocument.
      * exact (ci_inv _ _ HC2).
      * apply Forall_Map_set with (R := fun l => In (tile_of l) T');
          [exact (ci_index _ _ HC2)|].
        apply in_combine_r in Hin. rewrite Forall_forall in Hlocs.
        exact (Hlocs _ Hin).
      * exact Hok3.
    + split; [reflexivity|exact HC1].
    + intros r c2 [Hs2 HC2]. apply wp_ret. exists T'. split; [|exact HC2].
      rewrite Hs2. exact M.
    + intros e c2 [Hs2 HC2]. exists T'. split; [|exact HC2].
      rewrite Hs2. exact M.
  - intros e T' s' M. exists T'. split; [exact M|].
    exact (CInv_storage B _ _ _ _ HC M).
Qed.

Lemma wp_read_step {A} (B : Prop) (T : Tiles) (loc : DocumentLocation)
      (k : Document -> Coll A) Q E c :
  CInv T c ->
  (forall d c1, moved B T (storage c) T (storage c1) -> CInv T c1 ->
                indexManager c1 = indexManager c -> wp (k d) Q E c1) ->
  (forall e c1, moved B T (storage c) T (storage c1) -> CInv T c1 -> E e c1) ->
  wp (d <- onStorage (Storage.read loc) ;; k d) Q E c.
Proof.
  intros HC Hk HE.
  pose proof (moved_read B T _ (ci_inv _ _ HC)) as M1.
  pose proof (CInv_storage B _ _ _ _ HC M1) as HC1.
  apply wp_bind, wp_onStorage. apply wp_read.
  - intros d. apply Hk; [exact M1|exact HC1|reflexivity].
  - intros e. apply HE; [exact M1|exact HC1].
Qed.

Lemma get_step (B : Prop) (T : Tiles) id c :
  CInv T c -> step_spec B T (Collection.get id) c.
Proof.
  intros HC. unfold step_spec, Collection.get.
  apply wp_bind. apply wp_cacheGet; [exact (ci_cache _ _ HC)|].
  intros r c1 Hs1 Hi1 Hok1 _.
  pose proof (CInv_same_store _ _ _ HC Hs1 Hi1 Hok1) as HC1.
  assert (M1 : moved B T (storage c) T (storage c1))
    by (rewrite Hs1; apply moved_refl; exact (ci_inv _ _ HC)).
  destruct r as [doc|].
  - apply wp_ret. exists T. split; assumption.
  - apply wp_bind, wp_gets.
    destruct (Index.getLocation (indexManager c1) id) as [loc|].
    + apply (wp_read_step B T); [exact HC1| |].
      * intros d c2 M2 HC2 _. apply wp_bind.
        apply wp_cacheSet; [exact (ci_cache _ _ HC2)|].
        intros c3 Hs3 Hi3 Hok3 _. apply wp_ret.
        exists T. split.
        -- rewrite Hs3. eapply moved_trans; eassumption.
        -- exact (CInv_same_store _ _ _ HC2 Hs3 Hi3 Hok3).
      * intros e c2 M2 HC2. exists T. split; [|exact HC2].
        eapply moved_trans; eassumption.
    + apply wp_ret. exists T. split; assumption.
Qed.

Lemma createIndex_step (B : Prop) (T : Tiles) fieldPath c :
  CInv T c -> step_spec B T (Collection.createIndex fieldPath) c.
Proof.
  intros HC. unfold step_spec, Collection.createIndex.
  apply wp_bind, wp_gets.
  destruct (Map_has _ fieldPath).
  { apply wp_ret. apply cstep_refl. exact HC. }
  apply wp_bind. unfold onIndex at 1. apply wp_modify.
  set (c1 := set_indexManager _ c).
  assert (HC1 : CInv T c1) by (destruct HC; constructor; assumption).
  apply wp_bind.
  set (I := fun c' : Collection =>
              moved B T (storage c) T (storage c') /\ CInv T c').
  eapply wp_mono; [apply (wp_for_each _ (primaryIndex (indexManager c)) I c1)| |].
  - intros entry c2 Hin [M2 HC2].
    apply (wp_read_step B T); [exact HC2| |].
    + intros d c3 M3 HC3 _. unfold onIndex. apply wp_modify.
      split.
      * cbn [storage set_indexManager]. eapply moved_trans; eassumption.
      * destruct HC3; constructor; assumption.
    + intros e c3 M3 HC3. split; [|exact HC3].
      eapply moved_trans; eassumption.
  - split; [|exact HC1]. apply moved_refl. exact (ci_inv _ _ HC).
  - intros r c2 [M2 HC2]. unfold onIndex. apply wp_modify.
    exists T. split; [exact M2|]. destruct HC2; constructor; assumption.
  - intros e c2 [M2 HC2]. exists T. split; assumption.
Qed.

(** Every operation keeps the collection well formed. *)
Lemma run_op_step (B : Prop) (T : Tiles) (op : Op) (c : Collection) :
  CInv T c ->
  (B -> op_small (blobThreshold (storage c)) op = true) ->
  cstep B T c (run_op op c).
Proof.
  intros HC HB. destruct op; cbn [run_op op_small] in *; apply wp_snd.
  - apply (insert_with_step B T); [exact HC|].
    intros b. apply payload_smallb_spec. exact (HB b).
  - apply (update_with_step B T); [exact HC|].
    intros b. apply payload_smallb_spec. exact (HB b).
  - apply (upsert_with_step B T); [exact HC|].
    intros b. apply payload_smallb_spec. exact (HB b).
  - apply (delete_with_step B T); exact HC.
  - apply (batch_step B T); assumption.
  - apply (insertMany_step B T); assumption.
  - apply (get_step B T); exact HC.
  - apply (createIndex_step B T); exact HC.
Qed.

Lemma newCollection_CInv (cacheSize blobThreshold : Z) :
  CInv [] (newCollection cacheSize blobThreshold).
Proof.
  constructor.
  - constructor.
    + vm_compute. reflexivity.
    + vm_compute. reflexivity.
    + vm_compute. discriminate.
    + intros x [].
    + intros o sz [].
  - constructor.
  - unfold cache_ok, newCollection. cbn [cache].
    destruct (Z.max 0 cacheSize >? 0); [constructor|exact I].
Qed.

(** The states that a fresh collection reaches. *)
Lemma run_reaches (B : Prop) (cacheSize thr : Z) (ops : list Op) :
  (B -> forallb (op_small thr) ops = true) ->
  exists T,
    grows B [] T /\
    CInv T (run ops (newCollection cacheSize thr)) /\
    blobThreshold (storage (run ops (newCollection cacheSize thr))) = thr.
Proof.
  unfold run. induction ops as [|op ops IH] using rev_ind; intros HB.
  - exists []. split; [apply grows_refl|]. split; [apply newCollection_CInv|].
    reflexivity.
  - rewrite fold_left_app. cbn [fold_left].
    destruct IH as (T & G & HC & Hthr).
    { intros b. specialize (HB b). rewrite forallb_app in HB.
      apply andb_true_iff in HB. tauto. }
    destruct (run_op_step B T op _ HC) as (T' & M & HC').
    { intros b. rewrite Hthr. specialize (HB b). rewrite forallb_app in HB.
      apply andb_true_iff in HB. destruct HB as [_ HB]. cbn [forallb] in HB.
      rewrite andb_true_r in HB. exact HB. }
    exists T'. split; [|split].
    + eapply grows_trans; [exact G|exact (mv_grows _ _ _ _ _ M)].
    + exact HC'.
    + rewrite (mv_thr _ _ _ _ _ M). exact Hthr.
Qed.
End MoreSteps.

(* ------------------------------------------------------------------ *)
(** ** The slots tile the data file *)

Lemma chain_count (T : Tiles) (a b : Z) :
  chain T a b -> Z.of_nat (List.length T) <= b - a.
Proof.
  revert a. induction T as [|[o sz] T IH]; intros a; cbn [chain List.length].
  - lia.
  - intros (_ & Hsz & H). unfold SLOT_HEADER_SIZE in Hsz.
    specialize (IH _ H). lia.
Qed.

Lemma chain_length (T : Tiles) (a b : Z) :
  chain T a b -> 0 <= a -> (List.length T <= Z.to_nat b)%nat.
Proof. intros H Ha. pose proof (chain_count _ _ _ H). lia. Qed.

(** Reading the size word of each slot and stepping over the slot leads
    from the first slot to the end of the slots. *)
Lemma scan_chain (f : Uint8Array) (T : Tiles) :
  forall (fuel : nat) (a b : Z),
    chain T a b -> 0 <= a -> b <= len f ->
    (forall o sz, In (o, sz) T -> sz < 2 ^ 32 /\ slabField f o = sz) ->
    (List.length T <= fuel)%nat ->
    scan_slots fuel f a b = Some b.
Proof.
  induction T as [|[o sz] T IH]; intros fuel a b Hchain Ha Hb Hdisk Hfuel.
  - cbn [chain] in Hchain. subst b.
    destruct fuel; cbn [scan_slots]; rewrite (proj2 (Z.geb_le a a)) by lia;
      reflexivity.
  - cbn [chain] in Hchain. destruct Hchain as (-> & Hsz & Hrest).
    pose proof (chain_le _ _ _ Hrest) as Hle. unfold SLOT_HEADER_SIZE in *.
    destruct fuel as [|fuel]; [cbn [List.length] in Hfuel; lia|].
    cbn [scan_slots].
    destruct (Z.geb_spec a b) as [Hge|_]; [lia|].
    unfold SLOT_HEADER_SIZE.
    rewrite len_pread by lia. rewrite Z.ltb_irrefl.
    rewrite readUint32_pread by lia.
    destruct (Hdisk a sz (or_introl eq_refl)) as [Hsmall Hfield].
    unfold slabField in Hfield. rewrite Hfield.
    destruct (Z.eqb_spec sz 0) as [Hz|_]; [lia|].
    apply IH; try assumption; try lia.
    + intros o' sz' Hin. apply Hdisk. right. exact Hin.
    + cbn [List.length] in Hfuel. lia.
Qed.

(** C4.  After any sequence of operations on a fresh collection (insert,
    update, upsert, delete, batch, insertMany, and the reads in between),
    the header has [fileSize = nextSlotOffset], and reading the [slabSize]
    word of the slot at [DATA_HEADER_SIZE] and stepping by it, slot after
    slot, ends exactly at [nextSlotOffset].  The documents are below the
    4 GiB that the 32-bit size words of a slot can express. *)
Theorem slots_tile_the_file `{rt : Runtime} (cacheSize thr : Z) (ops : list Op) :
  forallb (op_small thr) ops = true ->
  let s := storage (run ops (newCollection cacheSize thr)) in
  fileSize (header s) = nextSlotOffset (header s) /\
  scan_slots (Z.to_nat (nextSlotOffset (header s))) (file s)
    DATA_HEADER_SIZE (nextSlotOffset (header s))
  = Some (nextSlotOffset (header s)).
Proof.
  intros Hsmall s.
  destruct (run_reaches True cacheSize thr ops (fun _ => Hsmall))
    as (T & (N & HN & Hall) & HC & _).
  cbn [app] in HN. subst N. specialize (Hall I).
  pose proof (ci_inv _ _ HC) as HI. fold s in HI.
  split; [exact (inv_size _ _ HI)|].
  apply (scan_chain (file s) T).
  - exact (inv_chain _ _ HI).
  - unfold DATA_HEADER_SIZE. lia.
  - exact (inv_len _ _ HI).
  - intros o sz Hin. rewrite Forall_forall in Hall.
    pose proof (Hall _ Hin) as Hs. unfold small in Hs. cbn [snd] in Hs.
    split; [exact Hs|]. exact (inv_disk _ _ HI o sz Hin Hs).
  - apply (chain_length T DATA_HEADER_SIZE); [exact (inv_chain _ _ HI)|].
    unfold DATA_HEADER_SIZE. lia.
Qed.

Lemma slots_tile_the_file_witness :
  let ops := [OpCreateIndex "role"; OpInsert "user_1" Examples.alice;
              OpInsert "user_2" Examples.bob; OpInsert "user_3" Examples.carol;
              OpDelete "user_1"; OpUpdate "user_2" Examples.alice]%string in
  let s := storage (@run Examples.runtime ops (newCollection 0 DEFAULT_BLOB_THRESHOLD)) in
  forallb (@op_small Examples.runtime DEFAULT_BLOB_THRESHOLD) ops = true /\
  fileSize (header s) = nextSlotOffset (header s) /\
  scan_slots (Z.to_nat (nextSlotOffset (header s))) (file s)
    DATA_HEADER_SIZE (nextSlotOffset (header s))
  = Some (nextSlotOffset (header s)).
Proof.
  intros ops s. split; [vm_compute; reflexivity|].
  apply (@slots_tile_the_file Examples.runtime 0 DEFAULT_BLOB_THRESHOLD ops).
  vm_compute; reflexivity.
Defined.

(* ------------------------------------------------------------------ *)
(** ** The file only grows *)

Lemma wp_result {S A} (c : M S A) (Q : A -> S -> Prop) (E : error -> S -> Prop)
      (s : S) (a : A) :
  wp c Q E s -> fst (c s) = Ok a -> Q a (snd (c s)).
Proof.
  unfold wp. destruct (c s) as [[a'|e] s']; cbn [fst snd]; intros H Heq;
    [|discriminate].
  injection Heq as ->. exact H.
Qed.

Lemma delete_frees_the_slot `{rt : Runtime} (T : Tiles) (c : Collection)
      (id : string) (loc : DocumentLocation) :
  CInv T c ->
  Map_get (primaryIndex (indexManager c)) id = Some loc ->
  fst (Collection.delete id c) = Ok true ->
  deleted T (set_docReads (S (docReads (storage c))) (storage c)) loc
    (storage (snd (Collection.delete id c))).
Proof.
  intros HC Hloc Hok.
  apply (wp_result (Collection.delete id)
           (fun r c' => deleted T (set_docReads (S (docReads (storage c)))
                                     (storage c)) loc (storage c'))
           (fun _ _ => True) c true); [|exact Hok].
  unfold Collection.delete, Storage.delete. apply wp_bind, wp_gets.
  unfold Index.getLocation. rewrite Hloc.
  pose proof (ci_inv _ _ HC) as HI.
  pose proof (CInv_index _ _ _ _ HC Hloc) as Htile.
  apply wp_bind, wp_onStorage. apply wp_read; [|intros; exact I].
  intros data. apply wp_bind, wp_onStorage. cbn [storage set_storage].
  apply (wp_deleteUnlocked T);
    [apply (Inv_same T (storage c)); try reflexivity; exact HI|exact Htile|
    |intros; exact I].
  intros s' D. apply wp_bind. unfold onIndex. apply wp_modify.
  apply wp_bind. apply wp_cacheDelete; [exact (ci_cache _ _ HC)|].
  cbn [storage indexManager set_indexManager set_storage].
  intros c3 Hs3 Hi3 Hok3. apply wp_ret. rewrite Hs3. exact D.
Qed.

(** C9.  On every state that a sequence of operations reaches from a
    fresh collection, one more operation (insert, update, upsert, delete,
    batch, insertMany, get, createIndex) leaves [fileSize],
    [nextSlotOffset] and the length of the data file at least what they
    were.  A delete that returns [true] leaves all three as they were,
    appends the slot of the document to the free list, and the flags word
    of the slot on disk has the ACTIVE bit clear. *)
Theorem file_never_shrinks `{rt : Runtime} (cacheSize thr : Z) (ops : list Op)
        (op : Op) :
  let c := run ops (newCollection cacheSize thr) in
  let s := storage c in
  let s' := storage (run_op op c) in
  fileSize (header s) <= fileSize (header s') /\
  nextSlotOffset (header s) <= nextSlotOffset (header s') /\
  len (file s) <= len (file s') /\
  (forall id loc,
      op = OpDelete id ->
      Map_get (primaryIndex (indexManager c)) id = Some loc ->
      fst (Collection.delete id c) = Ok true ->
      fileSize (header s') = fileSize (header s) /\
      nextSlotOffset (header s') = nextSlotOffset (header s) /\
      len (file s') = len (file s) /\
      freeList s' = freeList s ++ [mkFreeSlot (loc_offset loc) (loc_slabSize loc)] /\
      JS.truthy (JS.and (le_value (pread (file s') (loc_offset loc) 4))
                   SlotFlags.ACTIVE) = false).
Proof.
  intros c s s'.
  destruct (run_reaches False cacheSize thr ops (fun f : False => match f with end))
    as (T & _ & HC & _).
  fold c in HC.
  destruct (run_op_step False T op c HC (fun f : False => match f with end))
    as (T' & M & HC').
  pose proof (inv_size _ _ (ci_inv _ _ HC)) as Hs.
  pose proof (inv_size _ _ (ci_inv _ _ HC')) as Hs'.
  pose proof (mv_next _ _ _ _ _ M) as Hn.
  pose proof (mv_len _ _ _ _ _ M) as Hl.
  fold s in Hs, Hn, Hl. fold s' in Hs', Hn, Hl.
  repeat split; try lia.
  all: intros; subst op; cbn [run_op] in s'; subst s';
    destruct (delete_frees_the_slot T c id loc HC) as [D1 D2 D3 D4 D5 D6 D7];
    try assumption.
Qed.

Lemma file_never_shrinks_witness :
  let ops := [OpCreateIndex "role"; OpInsert "user_1" Examples.alice;
              OpInsert "user_2" Examples.bob; OpInsert "user_3" Examples.carol;
              OpDelete "user_1"; OpUpdate "user_2" Examples.alice]%string in
  let c := @run Examples.runtime ops (newCollection 0 DEFAULT_BLOB_THRESHOLD) in
  let s := storage c in
  let s' := storage (@run_op Examples.runtime (OpDelete "user_3") c) in
  let loc := mkLocation 2112 45 1024 false in
  Map_get (primaryIndex (indexManager c)) "user_3"%string = Some loc /\
  fst (@Collection.delete Examples.runtime "user_3" c) = Ok true /\
  fileSize (header s') = fileSize (header s) /\
  nextSlotOffset (header s') = nextSlotOffset (header s) /\
  len (file s') = len (file s) /\
  freeList s' = freeList s ++ [mkFreeSlot 2112 1024] /\
  JS.truthy (JS.and (le_value (pread (file s') 2112 4)) SlotFlags.ACTIVE) = false.
Proof.
  intros ops c s s' loc.
  split; [vm_compute; reflexivity|]. split; [vm_compute; reflexivity|].
  apply (proj2 (proj2 (proj2
           (@file_never_shrinks Examples.runtime 0 DEFAULT_BLOB_THRESHOLD ops
              (OpDelete "user_3")))) "user_3"%string loc).
  - reflexivity.
  - vm_compute; reflexivity.
  - vm_compute; reflexivity.
Defined.

(* ------------------------------------------------------------------ *)
(** ** Updating an inline document *)

Lemma wp_returns {S A} (c : M S A) (Q : A -> S -> Prop) (s : S) :
  wp c Q (fun _ _ => False) s -> exists a s', c s = (Ok a, s') /\ Q a s'.
Proof.
  unfold wp. destruct (c s) as [[a|e] s']; intros H; [|contradiction].
  exists a, s'. split; [reflexivity|exact H].
Qed.

(** C5.  For a well-formed data file, a slot [old] of it that holds an
    inline document, and a new encoding [B] that is inline-sized:
    [update] returns a location of length [|B|] whose slot reads back as
    [B].  If [|B| + 16 <= old.slabSize] the location is [old.offset] with
    the slab size unchanged (also on disk), and the free list, the end of
    the slots and the file length are as before.  Otherwise the location
    is the slot that [allocateSlot] gives once [old] is on the free list,
    [old] is in the free list afterwards, and the flags word of [old] on
    disk has the ACTIVE bit clear. *)
Theorem update_in_place_or_relocate `{rt : Runtime} (T : Tiles)
        (s : StorageEngine) (id : string) (data : Document)
        (old : DocumentLocation) :
  Inv T s -> In (tile_of old) T ->
  loc_isBlob old = false ->
  (len (encodeDocument data) >? blobThreshold s) = false ->
  len (encodeDocument data) < 2 ^ 32 ->
  let B := encodeDocument data in
  exists loc s',
    Storage.update id data old s = (Ok loc, s') /\
    loc_length loc = len B /\ loc_isBlob loc = false /\
    readSlot_in (file s') (loc_offset loc) (len B) = Ok B /\
    if len B + SLOT_HEADER_SIZE <=? loc_slabSize old then
      loc_offset loc = loc_offset old /\
      loc_slabSize loc = loc_slabSize old /\
      (loc_slabSize old < 2 ^ 32 ->
       slabField (file s') (loc_offset old) = loc_slabSize old) /\
      freeList s' = freeList s /\
      nextSlotOffset (header s') = nextSlotOffset (header s) /\
      len (file s') = len (file s)
    else
      (exists a,
          fst (allocateSlot (len B)
                 (set_freeList
                    (freeList s ++ [mkFreeSlot (loc_offset old) (loc_slabSize old)])
                    s)) = Ok a /\
          loc_offset loc = alloc_offset a /\ loc_slabSize loc = alloc_slabSize a) /\
      In (mkFreeSlot (loc_offset old) (loc_slabSize old)) (freeList s') /\
      JS.truthy (JS.and (le_value (pread (file s') (loc_offset old) 4))
                   SlotFlags.ACTIVE) = false.
Proof.
  intros HI Hold Hinline Hthr Hsmall B. unfold tile_of in Hold.
  apply wp_returns.
  unfold Storage.update, updateUnlocked. apply wp_bind, wp_gets.
  rewrite Hinline. rewrite Hthr. fold B.
  destruct (Inv_tile _ _ _ _ HI Hold) as (Ho & _).
  destruct (Z.leb_spec (len B + SLOT_HEADER_SIZE) (loc_slabSize old))
    as [Hfit|Hbig].
  - apply wp_bind.
    apply (wp_writeSlot_tile T); [exact HI|exact Hold|exact Hfit|].
    intros s1 Rw.
    assert (R1 : roomy s1) by exact (Inv_roomy _ _ (rw_inv _ _ _ _ _ _ Rw)).
    meta_tail. apply wp_ret.
    match goal with M : meta_step s1 _ |- _ => rename M into HM end.
    pose proof (Inv_meta_step _ _ _ (rw_inv _ _ _ _ _ _ Rw) HM) as HI'.
    destruct Rw as [R1' R2 R3 R4 R5 R6 R7 R8].
    pose proof HM as (F & Bl & Th & N & Sz & L & P).
    cbn [loc_offset loc_length loc_slabSize loc_isBlob].
    repeat split; try congruence.
    + rewrite (readSlot_in_meta_step s1) by assumption. exact (R2 Hsmall).
    + intros Hsz. exact (inv_disk _ _ HI' _ _ Hold Hsz).
  - pose proof (selectSlabSize_fits (len B)) as Hsel.
    apply (wp_relocate False T); [exact HI|exact Hold|intros []|].
    intros a T' s1 Rl.
    assert (R1 : roomy s1)
      by exact (Inv_roomy _ _ (mv_inv _ _ _ _ _ (rl_moved _ _ _ _ _ _ _ _ _ Rl))).
    meta_tail. apply wp_ret.
    match goal with M : meta_step s1 _ |- _ => rename M into HM end.
    destruct Rl as [L1 L2 L3 L4 L5 L6 L7].
    destruct (Inv_tile _ _ _ _ (mv_inv _ _ _ _ _ L2) L3) as (Ha & _).
    destruct (L7 ltac:(lia)) as [Hfree Hbit].
    pose proof HM as (F & Bl & Th & N & Sz & L & P).
    cbn [loc_offset loc_length loc_slabSize loc_isBlob].
    repeat split; try congruence.
    + rewrite (readSlot_in_meta_step s1) by assumption. exact (L5 Hsmall).
    + exists a. repeat split. exact L1.
    + rewrite P by (assumption || lia). exact Hbit.
Qed.

Lemma update_in_place_or_relocate_witness :
  let s := storage Examples.users in
  let T := [(64, 1024); (1088, 1024); (2112, 1024)] in
  let old := mkLocation 1088 31 1024 false in
  let B := @encodeDocument Examples.runtime Examples.carol in
  Map_get (primaryIndex (indexManager Examples.users)) "user_2"%string = Some old /\
  (len B + SLOT_HEADER_SIZE <=? loc_slabSize old) = true /\
  exists loc s',
    @Storage.update Examples.runtime "user_2" Examples.carol old s = (Ok loc, s') /\
    loc_length loc = len B /\ loc_isBlob loc = false /\
    readSlot_in (file s') (loc_offset loc) (len B) = Ok B /\
    loc_offset loc = 1088 /\ loc_slabSize loc = 1024 /\
    (1024 < 2 ^ 32 -> slabField (file s') 1088 = 1024) /\
    freeList s' = freeList s /\
    nextSlotOffset (header s') = nextSlotOffset (header s) /\
    len (file s') = len (file s).
Proof.
  intros s T old B.
  split; [vm_compute; reflexivity|]. split; [vm_compute; reflexivity|].
  assert (HI : Inv T s).
  { constructor.
    - vm_compute. repeat split; discriminate.
    - vm_compute. reflexivity.
    - vm_compute. discriminate.
    - intros x [<-|[]]. vm_compute. auto.
    - intros o sz [H|[H|[H|[]]]] _; injection H as <- <-; vm_compute; reflexivity. }
  exact (@update_in_place_or_relocate Examples.runtime T s "user_2"
           Examples.carol old HI
           ltac:(vm_compute; auto) ltac:(reflexivity)
           ltac:(vm_compute; reflexivity) ltac:(vm_compute; reflexivity)).
Defined.

(* ------------------------------------------------------------------ *)
(** ** Upsert *)

Section Quiet.
Context {S : Type}.

Lemma quiet_ret {A} (a : A) : quiet (ret a : M S A).
Proof. intros s. exact I. Qed.

Lemma quiet_gets {A} (f : S -> A) : quiet (gets f).
Proof. intros s. exact I. Qed.

Lemma quiet_modify (f : S -> S) : quiet (modify f).
Proof. intros s. exact I. Qed.

Lemma quiet_throw {A} (e : error) :
  is_lookup_error e = false -> quiet (throw e : M S A).
Proof. intros H s. exact H. Qed.

Lemma quiet_bind {A B} (c : M S A) (k : A -> M S B) :
  quiet c -> (forall a, quiet (k a)) -> quiet (bind c k).
Proof.
  intros Hc Hk s. specialize (Hc s). unfold bind.
  destruct (c s) as [[a|e] s']; cbn [fst] in *; [apply Hk|exact Hc].
Qed.

Lemma quiet_when (b : bool) (c : M S unit) : quiet c -> quiet (when b c).
Proof. intros Hc. destruct b; [exact Hc|apply quiet_ret]. Qed.

Lemma quiet_pure_result {A} (f : S -> result A) :
  (forall s e, f s = Err e -> is_lookup_error e = false) ->
  quiet (pure_result f).
Proof.
  intros Hf s. unfold pure_result. specialize (Hf s).
  destruct (f s) as [a|e]; cbn [fst]; [exact I|apply Hf; reflexivity].
Qed.
End Quiet.

Lemma quiet_onStorage {A} (c : Eng A) : quiet c -> quiet (onStorage c).
Proof.
  intros Hc s. specialize (Hc (storage s)). unfold onStorage.
  destruct (c (storage s)) as [r st]. exact Hc.
Qed.

Lemma readSlot_in_error (f : Uint8Array) (offset length : Z) (e : error) :
  readSlot_in f offset length = Err e -> is_lookup_error e = false.
Proof.
  unfold readSlot_in. cbv zeta.
  repeat match goal with
         | |- context [if ?b then _ else _] => destruct b
         end; intros H; inversion H; reflexivity.
Qed.

Create HintDb quiet.

Ltac quiet_step :=
  lazymatch goal with
  | |- quiet (bind _ _) => apply quiet_bind; [|intros ?]
  | |- quiet (ret _) => apply quiet_ret
  | |- quiet (gets _) => apply quiet_gets
  | |- quiet (modify _) => apply quiet_modify
  | |- quiet (throw _) => apply quiet_throw; reflexivity
  | |- quiet (when _ _) => apply quiet_when
  | |- quiet (onStorage _) => apply quiet_onStorage
  | |- quiet (if ?b then _ else _) => destruct b
  | |- quiet (match ?x with _ => _ end) => destruct x
  | _ => solve [auto with quiet]
  end.

Ltac quiet_run := cbv zeta; repeat (quiet_step; cbv zeta).

Section QuietOps.
Context `{rt : Runtime}.

Lemma quiet_modify_header f : quiet (modify_header f).
Proof. unfold modify_header. quiet_run. Qed.

Lemma quiet_writeAtOffset o d : quiet (writeAtOffset o d).
Proof. unfold writeAtOffset. quiet_run. Qed.

Lemma quiet_flushIfNotBatching : quiet flushIfNotBatching.
Proof.
  unfold flushIfNotBatching, flushMetadata, writeHeader, updateSharedState,
    writeAtOffset. quiet_run.
Qed.

Lemma quiet_markMetadataDirty : quiet markMetadataDirty.
Proof. unfold markMetadataDirty. quiet_run. Qed.

Hint Resolve quiet_modify_header quiet_writeAtOffset quiet_flushIfNotBatching
  quiet_markMetadataDirty : quiet.

Lemma quiet_adjustLiveData d : quiet (adjustLiveData d).
Proof. unfold adjustLiveData. quiet_run. Qed.

Lemma quiet_allocateSlot n : quiet (allocateSlot n).
Proof. unfold allocateSlot. quiet_run. Qed.

Lemma quiet_writeSlot o d sz b : quiet (writeSlot o d sz b).
Proof. unfold writeSlot. quiet_run. Qed.

Lemma quiet_readSlot o l : quiet (readSlot o l).
Proof.
  unfold readSlot. apply quiet_pure_result. intros s e. apply readSlot_in_error.
Qed.

Lemma quiet_markSlotFree o : quiet (markSlotFree o).
Proof. unfold markSlotFree. quiet_run. Qed.

Lemma quiet_freeList_add x : quiet (freeList_add x).
Proof. unfold freeList_add. quiet_run. Qed.

Lemma quiet_advance a : quiet (advance a).
Proof. unfold advance. quiet_run. Qed.

Lemma quiet_writeBlobFile p d : quiet (writeBlobFile p d).
Proof. unfold writeBlobFile. quiet_run. Qed.

Lemma quiet_deleteBlob p : quiet (deleteBlob p).
Proof. unfold deleteBlob. quiet_run. Qed.

Hint Resolve quiet_adjustLiveData quiet_allocateSlot quiet_writeSlot
  quiet_readSlot quiet_markSlotFree quiet_freeList_add quiet_advance
  quiet_writeBlobFile quiet_deleteBlob : quiet.

Lemma quiet_readBlobReference o l : quiet (readBlobReference o l).
Proof. unfold readBlobReference. quiet_run. Qed.

Lemma quiet_writeBlobReferenceSlot r : quiet (writeBlobReferenceSlot r).
Proof. unfold writeBlobReferenceSlot. quiet_run. Qed.

Hint Resolve quiet_readBlobReference quiet_writeBlobReferenceSlot : quiet.

Lemma quiet_read loc : quiet (Storage.read loc).
Proof. unfold Storage.read, readBlob. quiet_run. Qed.

Lemma quiet_writeUnlocked id data : quiet (writeUnlocked id data).
Proof. unfold writeUnlocked, writeBlobForInsertUnlocked. quiet_run. Qed.

Lemma quiet_updateUnlocked id data old : quiet (updateUnlocked id data old).
Proof.
  unfold updateUnlocked, updateBlobReferenceUnlocked, writeBlobForUpdateUnlocked.
  quiet_run.
Qed.

Lemma quiet_cacheSet id doc : quiet (cacheSet id doc).
Proof. unfold cacheSet. quiet_run. Qed.

Lemma quiet_onIndex f : quiet (onIndex f).
Proof. unfold onIndex. quiet_run. Qed.

Hint Resolve quiet_read quiet_writeUnlocked quiet_updateUnlocked quiet_cacheSet
  quiet_onIndex : quiet.

Lemma quiet_upsert id data : quiet (Collection.upsert id data).
Proof. unfold Collection.upsert, Storage.update, Storage.write. quiet_run. Qed.

(** After a mutation of [id] that stored [data], [get] returns [data]. *)
Lemma get_keeps (c : Collection) (id : string) (data : Document) :
  keeps c id data ->
  round_trips (blobThreshold (storage c)) id data ->
  len (slot_payload (blobThreshold (storage c)) id data) < 2 ^ 32 ->
  fst (Collection.get id c) = Ok (Some data).
Proof.
  intros [(loc & Hloc & Hholds) Hcache] Hrt Hsmall.
  specialize (Hholds Hsmall).
  pose proof (read_holds _ _ _ _ Hholds Hrt) as Hread.
  assert (Hmiss : fst ((m <- gets indexManager ;;
                        match Index.getLocation m id with
                        | None => ret None
                        | Some location =>
                            doc <- onStorage (Storage.read location) ;;
                            cacheSet id doc ;;
                            ret (Some doc)
                        end) c) = Ok (Some data)).
  { unfold bind at 1. unfold gets at 1. unfold Index.getLocation. rewrite Hloc.
    unfold bind at 1. unfold onStorage.
    destruct (Storage.read loc (storage c)) as [r s1]. cbn [fst] in Hread.
    subst r. unfold bind, cacheSet, modify, ret. reflexivity. }
  unfold Collection.get. unfold bind at 1. unfold cacheGet.
  unfold bind at 1. unfold gets at 1.
  destruct (cache c) as [entries|]; [|exact Hmiss].
  destruct Hcache as [Hn|Hs]; rewrite ?Hn, ?Hs; [exact Hmiss|].
  destruct (negb (truthy_value data)); [exact Hmiss|].
  reflexivity.
Qed.
End QuietOps.

Lemma upsert_keeps `{rt : Runtime} (T : Tiles) (c : Collection) (id : string)
      (d : Document) :
  CInv T c ->
  payload_small (blobThreshold (storage c)) id d ->
  fst (Collection.upsert id d c) = Ok tt ->
  keeps (snd (Collection.upsert id d c)) id d /\
  blobThreshold (storage (snd (Collection.upsert id d c)))
  = blobThreshold (storage c).
Proof.
  intros HC Hsmall Hok.
  apply (wp_result (Collection.upsert id d)
           (fun _ c' => keeps c' id d /\
                        blobThreshold (storage c') = blobThreshold (storage c))
           (fun _ _ => True) c tt); [|exact Hok].
  unfold Collection.upsert, Storage.update, Storage.write.
  apply wp_bind, wp_gets. unfold Index.getLocation.
  destruct (Map_get (primaryIndex (indexManager c)) id) as [old|] eqn:Hold.
  - apply (wp_update_tail True T); [exact HC|exact Hold|intros _; exact Hsmall| |].
    + intros T' c' M _ K. split; [exact K|exact (mv_thr _ _ _ _ _ M)].
    + intros; exact I.
  - apply (wp_insert_tail True T); [exact HC|intros _; exact Hsmall|].
    intros T' c' M _ K. split; [exact K|exact (mv_thr _ _ _ _ _ M)].
Qed.

Lemma users_reached :
  Examples.users
  = @run Examples.runtime
      [OpCreateIndex "role"; OpInsert "user_1" Examples.alice;
       OpInsert "user_2" Examples.bob; OpInsert "user_3" Examples.carol;
       OpDelete "user_1"; OpUpdate "user_2" Examples.alice]%string
      (newCollection 0 DEFAULT_BLOB_THRESHOLD).
Proof. vm_compute. reflexivity. Qed.

Lemma users_WellFormed : WellFormed Examples.users.
Proof.
  rewrite users_reached.
  destruct (@run_reaches Examples.runtime True 0 DEFAULT_BLOB_THRESHOLD
              [OpCreateIndex "role"; OpInsert "user_1" Examples.alice;
               OpInsert "user_2" Examples.bob; OpInsert "user_3" Examples.carol;
               OpDelete "user_1"; OpUpdate "user_2" Examples.alice]%string)
    as (T & _ & HC & _).
  - intros _. vm_compute. reflexivity.
  - exists T. exact HC.
Qed.

(** C8.  [upsert(id, d)] is [update(id, d)] when the primary index has
    [id] and [insert(id, d)] when it has not; the errors it can raise are
    those of the storage engine, never [DuplicateId] or
    [DocumentNotFound]; and when it returns on a well-formed collection,
    for a document with a stable JSON encoding, [get(id)] returns [d]. *)
Theorem upsert_is_update_or_insert `{rt : Runtime} (c : Collection)
        (id : string) (d : Document) :
  Collection.upsert id d c
  = (if Index.has (indexManager c) id
     then Collection.update id d c
     else Collection.insert id d c) /\
  (forall e, fst (Collection.upsert id d c) = Err e -> is_lookup_error e = false) /\
  (WellFormed c ->
   round_trips (blobThreshold (storage c)) id d ->
   payload_small (blobThreshold (storage c)) id d ->
   fst (Collection.upsert id d c) = Ok tt ->
   fst (Collection.get id (snd (Collection.upsert id d c))) = Ok (Some d)).
Proof.
  split; [|split].
  - unfold Collection.upsert, Collection.update, Collection.insert, Index.has,
      Index.getLocation, Map_has, bind, gets.
    destruct (Map_get (primaryIndex (indexManager c)) id); reflexivity.
  - intros e He. pose proof (quiet_upsert id d c) as H. rewrite He in H. exact H.
  - intros (T & HC) Hrt Hsmall Hok.
    destruct (upsert_keeps T c id d HC Hsmall Hok) as [K Hthr].
    apply get_keeps; rewrite ?Hthr; try assumption.
    unfold payload_small in Hsmall. lia.
Qed.

Lemma upsert_is_update_or_insert_witness :
  let c := Examples.users in
  let thr := blobThreshold (storage c) in
  WellFormed c /\
  @round_trips Examples.runtime thr "user_2" Examples.carol /\
  @payload_small Examples.runtime thr "user_2" Examples.carol /\
  fst (@Collection.upsert Examples.runtime "user_2" Examples.carol c) = Ok tt /\
  fst (@Collection.get Examples.runtime "user_2"
         (snd (@Collection.upsert Examples.runtime "user_2" Examples.carol c)))
  = Ok (Some Examples.carol).
Proof.
  intros c thr.
  assert (H1 : WellFormed c) by exact users_WellFormed.
  assert (H2 : @round_trips Examples.runtime thr "user_2" Examples.carol).
  { split; [vm_compute; reflexivity|]. intros H. vm_compute in H. discriminate H. }
  assert (H3 : @payload_small Examples.runtime thr "user_2" Examples.carol).
  { unfold payload_small. vm_compute. discriminate. }
  assert (H4 : fst (@Collection.upsert Examples.runtime "user_2" Examples.carol c)
               = Ok tt) by (vm_compute; reflexivity).
  exact (conj H1 (conj H2 (conj H3 (conj H4
           (proj2 (proj2 (@upsert_is_update_or_insert Examples.runtime c
                            "user_2" Examples.carol)) H1 H2 H3 H4))))).
Defined.

(* ------------------------------------------------------------------ *)
(** ** Little-endian words in a buffer *)

Lemma slice_as_pread (f : Uint8Array) (a b : Z) :
  0 <= a -> a <= b -> slice f a b = pread f a (b - a).
Proof.
  intros Ha Hab. unfold slice, pread. f_equal. lia.
Qed.

Lemma buf_set_as_pwrite (b : Uint8Array) (o : Z) (d : Uint8Array) :
  0 <= o <= len b -> buf_set b o d = pwrite b o d.
Proof. intros Ho. rewrite pwrite_inside by assumption. reflexivity. Qed.

(** A word stored in a buffer is read back, the buffer keeps its length,
    and the bytes outside the word are the ones it had. *)
Lemma stored_word (b : Uint8Array) (o : Z) (w : Uint8Array) :
  0 <= o -> o + len w <= len b ->
  slice (buf_set b o w) o (o + len w) = w /\
  len (buf_set b o w) = len b /\
  forall o' n, 0 <= o' -> 0 <= n -> o' + n <= o \/ o + len w <= o' ->
               pread (buf_set b o w) o' n = pread b o' n.
Proof.
  intros Ho Hfit. pose proof (len_nonneg w) as Hw.
  rewrite buf_set_as_pwrite by lia. repeat split.
  - rewrite slice_as_pread by lia.
    replace (o + len w - o) with (len w) by lia.
    replace o with (o + 0) at 2 by lia.
    rewrite pread_pwrite_inside by lia.
    rewrite <- (app_nil_r w) at 1. apply pread_prefix. reflexivity.
  - rewrite len_pwrite by lia. lia.
  - intros o' n Ho' Hn Hout. apply pread_pwrite_frame; lia.
Qed.

(** X1.  [writeUint16], [writeUint32] and [writeUint64] followed by the
    read of the same width at the same offset give the value back (modulo
    2^16 and 2^32; for 64 bits, a value below 2^53, which a JavaScript
    number holds exactly).  The buffer keeps its length and every byte
    outside the word. *)
Theorem words_read_back (b : Uint8Array) (o v : Z) :
  0 <= o ->
  (o + 2 <= len b ->
   readUint16 (writeUint16 b o v) o = v mod 2 ^ 16 /\
   len (writeUint16 b o v) = len b /\
   forall o' n, 0 <= o' -> 0 <= n -> o' + n <= o \/ o + 2 <= o' ->
                pread (writeUint16 b o v) o' n = pread b o' n) /\
  (o + 4 <= len b ->
   readUint32 (writeUint32 b o v) o = v mod 2 ^ 32 /\
   len (writeUint32 b o v) = len b /\
   forall o' n, 0 <= o' -> 0 <= n -> o' + n <= o \/ o + 4 <= o' ->
                pread (writeUint32 b o v) o' n = pread b o' n) /\
  (o + 8 <= len b -> 0 <= v < 2 ^ 53 ->
   readUint64 (writeUint64 b o v) o = v /\
   len (writeUint64 b o v) = len b /\
   forall o' n, 0 <= o' -> 0 <= n -> o' + n <= o \/ o + 8 <= o' ->
                pread (writeUint64 b o v) o' n = pread b o' n).
Proof.
  intros Ho. repeat apply conj.
  - intros Hfit. unfold readUint16, writeUint16.
    set (w := le_bytes 2 (v mod 2 ^ 16)).
    assert (Hw : len w = 2) by apply len_le_bytes.
    destruct (stored_word b o w Ho ltac:(lia)) as (H1 & H2 & H3).
    rewrite Hw in *. rewrite H1. repeat split; try assumption.
    subst w. rewrite le_value_le_bytes. change (256 ^ Z.of_nat 2) with (2 ^ 16).
    apply Z.mod_mod. lia.
  - intros Hfit. unfold readUint32, writeUint32, JS.ToUint32.
    set (w := le_bytes 4 (v mod 2 ^ 32)).
    assert (Hw : len w = 4) by apply len_le_bytes.
    destruct (stored_word b o w Ho ltac:(lia)) as (H1 & H2 & H3).
    rewrite Hw in *. rewrite H1. repeat split; try assumption.
    subst w. rewrite le_value_le_bytes. change (256 ^ Z.of_nat 4) with (2 ^ 32).
    apply Z.mod_mod. lia.
  - intros Hfit Hv. unfold readUint64, writeUint64.
    set (w := le_bytes 8 (v mod 2 ^ 64)).
    assert (Hw : len w = 8) by apply len_le_bytes.
    destruct (stored_word b o w Ho ltac:(lia)) as (H1 & H2 & H3).
    rewrite Hw in *. rewrite H1. repeat split; try assumption.
    subst w. rewrite le_value_le_bytes. change (256 ^ Z.of_nat 8) with (2 ^ 64).
    rewrite Z.mod_mod by lia. apply Z.mod_small. lia.
Qed.

Lemma words_read_back_witness :
  let b := new_Uint8Array 16 in
  0 <= 4 /\ 4 + 4 <= len b /\
  readUint32 (writeUint32 b 4 (2 ^ 32 + 7)) 4 = (2 ^ 32 + 7) mod 2 ^ 32 /\
  len (writeUint32 b 4 (2 ^ 32 + 7)) = len b.
Proof.
  intros b.
  assert (H0 : 0 <= 4) by lia.
  assert (H1 : 4 + 4 <= len b) by (vm_compute; discriminate).
  pose proof (proj1 (proj2 (words_read_back b 4 (2 ^ 32 + 7) H0)) H1) as H.
  exact (conj H0 (conj H1 (conj (proj1 H) (proj1 (proj2 H))))).
Defined.

(* ------------------------------------------------------------------ *)
(** ** The write lock *)

Lemma mutex_inv_run (calls : list AsyncMutex.call) :
  forall m acc rel,
    mutex_inv m acc rel -> well_used calls m = true ->
    mutex_inv (AsyncMutex.run calls m) (acc ++ arrivals calls)
      (rel + releases calls).
Proof.
  induction calls as [|c calls IH]; intros m acc rel (H1 & H2 & H3) Hused.
  - cbn [AsyncMutex.run fold_left arrivals releases].
    rewrite app_nil_r, Nat.add_0_r. repeat split; assumption.
  - destruct c as [caller|]; cbn [well_used arrivals releases] in *.
    + change (AsyncMutex.run (AsyncMutex.Acquire caller :: calls) m)
        with (AsyncMutex.run calls (AsyncMutex.acquire caller m)).
      replace (acc ++ caller :: arrivals calls)
        with ((acc ++ [caller]) ++ arrivals calls)
        by (rewrite <- app_assoc; reflexivity).
      apply IH; [|exact Hused].
      unfold mutex_inv, AsyncMutex.acquire, AsyncMutex.tryAcquire.
      destruct m as [l q r]. cbn [AsyncMutex.locked AsyncMutex.queue
                                   AsyncMutex.resolved] in *.
      destruct l; cbn [negb AsyncMutex.locked AsyncMutex.queue
                         AsyncMutex.resolved].
      * split; [|split].
        -- rewrite app_assoc, H1. reflexivity.
        -- discriminate.
        -- exact H3.
      * rewrite (H2 eq_refl) in H1. rewrite app_nil_r in H1.
        rewrite (H2 eq_refl). split; [|split].
        -- rewrite H1, app_nil_r. reflexivity.
        -- discriminate.
        -- rewrite length_app, H3. cbn [List.length]. lia.
    + apply andb_true_iff in Hused. destruct Hused as [Hl Hused].
      change (AsyncMutex.run (AsyncMutex.Release :: calls) m)
        with (AsyncMutex.run calls (AsyncMutex.release m)).
      replace (rel + S (releases calls))%nat with (S rel + releases calls)%nat
        by lia.
      apply IH; [|exact Hused].
      unfold mutex_inv, AsyncMutex.release, AsyncMutex.tryAcquire.
      destruct m as [l q r]. cbn [AsyncMutex.locked AsyncMutex.queue
                                   AsyncMutex.resolved] in *.
      subst l. destruct q as [|next rest];
        cbn [negb AsyncMutex.locked AsyncMutex.queue AsyncMutex.resolved].
      * split; [|split]; [exact H1|reflexivity|lia].
      * split; [|split].
        -- rewrite <- H1, <- app_assoc. reflexivity.
        -- discriminate.
        -- rewrite length_app, H3. cbn [List.length]. lia.
Qed.

(** X2.  On a mutex whose release function is called by the holder only:
    the promises are resolved in the order of the calls of [acquire] (the
    resolved callers followed by the waiting ones are the arrivals, so no
    caller is lost or served twice); the callers served and not yet
    released are one when the lock is taken and none when it is free; and
    nobody waits while the lock is free. *)
Theorem mutex_serves_in_order (calls : list AsyncMutex.call) :
  well_used calls AsyncMutex.initial = true ->
  let m := AsyncMutex.run calls AsyncMutex.initial in
  AsyncMutex.resolved m ++ AsyncMutex.queue m = arrivals calls /\
  List.length (AsyncMutex.resolved m)
  = (releases calls + (if AsyncMutex.locked m then 1 else 0))%nat /\
  (AsyncMutex.locked m = false -> AsyncMutex.queue m = []).
Proof.
  intros Hused m.
  destruct (mutex_inv_run calls AsyncMutex.initial [] 0) as (H1 & H2 & H3).
  - repeat split.
  - exact Hused.
  - repeat split; assumption.
Qed.

Lemma mutex_serves_in_order_witness :
  let calls := [AsyncMutex.Acquire 1; AsyncMutex.Acquire 2; AsyncMutex.Acquire 3;
                AsyncMutex.Release; AsyncMutex.Release]%nat in
  let m := AsyncMutex.run calls AsyncMutex.initial in
  well_used calls AsyncMutex.initial = true /\
  AsyncMutex.resolved m = [1; 2; 3]%nat /\ AsyncMutex.locked m = true /\
  AsyncMutex.resolved m ++ AsyncMutex.queue m = arrivals calls.
Proof.
  intros calls m.
  assert (H : well_used calls AsyncMutex.initial = true) by reflexivity.
  exact (conj H (conj eq_refl (conj eq_refl
           (proj1 (mutex_serves_in_order calls H))))).
Defined.

(* ------------------------------------------------------------------ *)
(** ** The errors of a lookup by id *)

Section LookupErrors.
Context `{rt : Runtime}.

#[local] Hint Resolve quiet_modify_header quiet_writeAtOffset
  quiet_flushIfNotBatching quiet_markMetadataDirty quiet_adjustLiveData
  quiet_allocateSlot quiet_writeSlot quiet_readSlot quiet_markSlotFree
  quiet_freeList_add quiet_advance quiet_writeBlobFile quiet_deleteBlob
  quiet_readBlobReference quiet_writeBlobReferenceSlot quiet_read
  quiet_writeUnlocked quiet_updateUnlocked quiet_cacheSet quiet_onIndex : quiet.

Lemma quiet_for_each {S A B} (f : A -> M S B) (xs : list A) :
  (forall x, quiet (f x)) -> quiet (for_each f xs).
Proof.
  intros Hf. induction xs as [|x xs IH]; cbn [for_each].
  - apply quiet_ret.
  - apply quiet_bind; [apply Hf|]. intros y.
    apply quiet_bind; [exact IH|]. intros ys. apply quiet_ret.
Qed.

Lemma quiet_try_finally {S A} (body : M S A) (fin : M S unit) :
  quiet body -> quiet fin -> quiet (try_finally body fin).
Proof.
  intros Hb Hf s. unfold try_finally. specialize (Hb s).
  destruct (body s) as [r s1]. specialize (Hf s1).
  destruct (fin s1) as [[u|e] s2]; cbn [fst] in *; assumption.
Qed.

Lemma quiet_batch_exit : quiet batch_exit.
Proof.
  unfold batch_exit, flushMetadata, writeHeader, updateSharedState. quiet_run.
Qed.

Lemma quiet_writeMany items : quiet (writeMany items).
Proof.
  unfold writeMany. destruct items as [|item items]; [apply quiet_ret|].
  apply quiet_bind; [apply quiet_gets|]. intros thr.
  destruct (existsb _ _).
  - apply quiet_bind; [unfold batch_enter; apply quiet_modify|]. intros _.
    apply quiet_try_finally; [|apply quiet_batch_exit].
    apply quiet_for_each. intros x. apply quiet_writeUnlocked.
  - apply quiet_bind; [apply quiet_gets|]. intros startOffset.
    destruct (writeMany_build _ _) as [[[bufs locs] total] live].
    quiet_run.
Qed.

Lemma quiet_no_lookup_error {S A} (c : M S A) (s : S) :
  quiet c -> no_lookup_error (c s).
Proof. intros H. exact (H s). Qed.

(** A quiet operation under any postcondition on its results. *)
Lemma wp_quiet {S A} (c : M S A) (Q : A -> S -> Prop) (s : S) :
  quiet c -> (forall a s', Q a s') ->
  wp c Q (fun e _ => is_lookup_error e = false) s.
Proof.
  intros Hq HQ. specialize (Hq s). unfold wp.
  destruct (c s) as [[a|e] s']; cbn [fst] in Hq; [apply HQ|exact Hq].
Qed.

Lemma has_Map_set (m : PrimaryIndex) (id : string) (loc : DocumentLocation) :
  Map_has (Map_set m id loc) id = true.
Proof. unfold Map_has. rewrite Map_get_set_same. reflexivity. Qed.

(** The id is in the index after the tail of an insert or update. *)
Lemma wp_record_has (id : string) (data : Document)
      (f : IndexManager -> IndexManager) (P : Prop) (E : error -> Collection -> Prop)
      (c : Collection) :
  P -> (forall m, Index.has (f m) id = true) ->
  wp (onIndex f ;; cacheSet id data)
     (fun _ c' => P /\ Index.has (indexManager c') id = true) E c.
Proof.
  intros HP Hf. apply wp_bind. unfold onIndex. apply wp_modify.
  unfold cacheSet. apply wp_modify. split; [exact HP|].
  cbn [cache set_indexManager].
  destruct (cache c); cbn [indexManager set_cache set_indexManager]; apply Hf.
Qed.

(** X3.  [insert] throws [DuplicateIdError] exactly for an id the index
    has, and [update] throws [DocumentNotFoundError] exactly for an id the
    index does not have; either error leaves the collection as it was (no
    byte is written, no counter moves).  An insert or update that returns
    leaves the id in the index. *)
Theorem lookup_errors_are_exact (c : Collection) (id : string) (data : Document) :
  match Collection.insert id data c with
  | (Ok _, c') =>
      Index.has (indexManager c) id = false /\
      Index.has (indexManager c') id = true
  | (Err e, c') =>
      if Index.has (indexManager c) id
      then e = DuplicateIdError id /\ c' = c
      else is_lookup_error e = false
  end /\
  match Collection.update id data c with
  | (Ok _, c') =>
      Index.has (indexManager c) id = true /\
      Index.has (indexManager c') id = true
  | (Err e, c') =>
      if Index.has (indexManager c) id
      then is_lookup_error e = false
      else e = DocumentNotFoundError id /\ c' = c
  end.
Proof.
  split.
  - change (wp (Collection.insert id data)
              (fun _ c' => Index.has (indexManager c) id = false /\
                           Index.has (indexManager c') id = true)
              (fun e c' => if Index.has (indexManager c) id
                           then e = DuplicateIdError id /\ c' = c
                           else is_lookup_error e = false) c).
    unfold Collection.insert. apply wp_bind, wp_gets.
    destruct (Index.has (indexManager c) id) eqn:Hhas.
    + apply wp_throw. split; reflexivity.
    + apply wp_bind. apply wp_quiet.
      { unfold Storage.write. quiet_run. }
      intros loc c1. apply wp_record_has; [reflexivity|].
      intros m. unfold Index.has, Index.addDocument.
      cbn [primaryIndex set_dirty set_secondaryIndexes set_primaryIndex].
      apply has_Map_set.
  - change (wp (Collection.update id data)
              (fun _ c' => Index.has (indexManager c) id = true /\
                           Index.has (indexManager c') id = true)
              (fun e c' => if Index.has (indexManager c) id
                           then is_lookup_error e = false
                           else e = DocumentNotFoundError id /\ c' = c) c).
    unfold Collection.update. apply wp_bind, wp_gets.
    unfold Index.has at 1 3, Map_has, Index.getLocation.
    destruct (Map_get (primaryIndex (indexManager c)) id) as [old|] eqn:Hget.
    + apply wp_bind. apply wp_quiet.
      { quiet_run. }
      intros oldData c1. apply wp_bind. apply wp_quiet.
      { unfold Storage.update. quiet_run. }
      intros loc c2. apply wp_record_has; [reflexivity|].
      intros m. unfold Index.has, Index.updateDocument.
      cbn [primaryIndex set_dirty set_secondaryIndexes set_primaryIndex].
      apply has_Map_set.
    + apply wp_throw. split; reflexivity.
Qed.

(** X4.  [insertMany] looks every id up before it writes: when an item's
    id is in the index the call throws [DuplicateIdError] for the first
    such item and the collection is as it was, whatever the other items
    are; otherwise no lookup error is raised.  An empty list returns at
    once. *)
Theorem insertMany_checks_before_it_writes (c : Collection)
        (items : list (string * Document)) :
  match find (fun item => Index.has (indexManager c) (fst item)) items with
  | Some item =>
      Collection.insertMany items c = (Err (DuplicateIdError (fst item)), c)
  | None =>
      no_lookup_error (Collection.insertMany items c) /\
      (items = [] -> Collection.insertMany items c = (Ok tt, c))
  end.
Proof.
  destruct items as [|item items].
  - cbn [find]. split; [exact I|reflexivity].
  - assert (Hrun : Collection.insertMany (item :: items) c
                   = match find (fun it => Index.has (indexManager c) (fst it))
                             (item :: items) with
                     | Some it => (Err (DuplicateIdError (fst it)), c)
                     | None =>
                         (locations <- onStorage (writeMany (item :: items)) ;;
                          _ <- for_each (fun p =>
                                 onIndex (Index.addDocument (fst (fst p)) (snd p)
                                            (snd (fst p))) ;;
                                 cacheSet (fst (fst p)) (snd (fst p)))
                               (combine (item :: items) locations) ;;
                          ret tt) c
                     end).
    { unfold Collection.insertMany, bind at 1, gets.
      destruct (find _ (item :: items)); reflexivity. }
    rewrite Hrun.
    destruct (find _ (item :: items)) as [found|].
    + reflexivity.
    + split; [|discriminate].
      apply quiet_no_lookup_error.
      apply quiet_bind; [apply quiet_onStorage, quiet_writeMany|]. intros locs.
      apply quiet_bind; [|intros; apply quiet_ret].
      apply quiet_for_each. intros p. quiet_run.
Qed.
End LookupErrors.

(* ------------------------------------------------------------------ *)
(** ** The header of the data file *)

Lemma readUint32_as_pread (b : Uint8Array) (o : Z) :
  0 <= o -> readUint32 b o = le_value (pread b o 4).
Proof.
  intros Ho. unfold readUint32. rewrite slice_as_pread by lia.
  f_equal. f_equal. lia.
Qed.

Lemma readUint64_as_pread (b : Uint8Array) (o : Z) :
  0 <= o -> readUint64 b o = le_value (pread b o 8).
Proof.
  intros Ho. unfold readUint64. rewrite slice_as_pread by lia.
  f_equal. f_equal. lia.
Qed.

Lemma readUint16_as_pread (b : Uint8Array) (o : Z) :
  0 <= o -> readUint16 b o = le_value (pread b o 2).
Proof.
  intros Ho. unfold readUint16. rewrite slice_as_pread by lia.
  f_equal. f_equal. lia.
Qed.

(** A stored word, read as bytes. *)
Lemma pread_buf_set_same (b : Uint8Array) (o : Z) (w : Uint8Array) :
  0 <= o -> o + len w <= len b -> pread (buf_set b o w) o (len w) = w.
Proof.
  intros Ho Hfit. destruct (stored_word b o w Ho Hfit) as (H & _ & _).
  rewrite slice_as_pread in H by (pose proof (len_nonneg w); lia).
  replace (o + len w - o) with (len w) in H by lia. exact H.
Qed.

Lemma pread_buf_set_other (b : Uint8Array) (o : Z) (w : Uint8Array) (o' n : Z) :
  0 <= o -> o + len w <= len b -> 0 <= o' -> 0 <= n ->
  o' + n <= o \/ o + len w <= o' ->
  pread (buf_set b o w) o' n = pread b o' n.
Proof.
  intros Ho Hfit Ho' Hn Hout.
  destruct (stored_word b o w Ho Hfit) as (_ & _ & H). apply H; assumption.
Qed.

Lemma len_buf_set (b : Uint8Array) (o : Z) (w : Uint8Array) :
  0 <= o -> o + len w <= len b -> len (buf_set b o w) = len b.
Proof.
  intros Ho Hfit. destruct (stored_word b o w Ho Hfit) as (_ & H & _). exact H.
Qed.

Lemma Number_of_BigInt_small (x : Z) : x < 2 ^ 53 -> Number_of_BigInt x = x.
Proof.
  intros Hx. unfold Number_of_BigInt.
  destruct (Z.ltb_spec x (2 ^ 53)); [reflexivity|lia].
Qed.

(** The words of the header in the 64 bytes [writeHeader] builds. *)
Lemma headerBytes_words (h : DataFileHeader) :
  let b := headerBytes h in
  pread b 0 4 = le_bytes 4 (JS.ToUint32 (magic h)) /\
  pread b 4 4 = le_bytes 4 (JS.ToUint32 (version h)) /\
  pread b 8 8 = le_bytes 8 (fileSize h mod 2 ^ 64) /\
  pread b 16 8 = le_bytes 8 (liveDataSize h mod 2 ^ 64) /\
  pread b 24 8 = le_bytes 8 (documentCount h mod 2 ^ 64) /\
  pread b 32 8 = le_bytes 8 (nextSlotOffset h mod 2 ^ 64).
Proof.
  unfold headerBytes, writeUint32, writeUint64.
  set (b0 := new_Uint8Array DATA_HEADER_SIZE).
  set (w1 := le_bytes 4 _). set (w2 := le_bytes 4 _).
  set (d1 := le_bytes 8 _). set (d2 := le_bytes 8 _).
  set (d3 := le_bytes 8 _). set (d4 := le_bytes 8 _).
  assert (L0 : len b0 = 64) by (unfold b0, new_Uint8Array; rewrite len_repeat; reflexivity).
  assert (L1 : len w1 = 4) by apply len_le_bytes.
  assert (L2 : len w2 = 4) by apply len_le_bytes.
  assert (L3 : len d1 = 8) by apply len_le_bytes.
  assert (L4 : len d2 = 8) by apply len_le_bytes.
  assert (L5 : len d3 = 8) by apply len_le_bytes.
  assert (L6 : len d4 = 8) by apply len_le_bytes.
  set (b1 := buf_set b0 0 w1).
  assert (K1 : len b1 = 64) by (unfold b1; rewrite len_buf_set; lia).
  set (b2 := buf_set b1 4 w2).
  assert (K2 : len b2 = 64) by (unfold b2; rewrite len_buf_set; lia).
  set (b3 := buf_set b2 8 d1).
  assert (K3 : len b3 = 64) by (unfold b3; rewrite len_buf_set; lia).
  set (b4 := buf_set b3 16 d2).
  assert (K4 : len b4 = 64) by (unfold b4; rewrite len_buf_set; lia).
  set (b5 := buf_set b4 24 d3).
  assert (K5 : len b5 = 64) by (unfold b5; rewrite len_buf_set; lia).
  cbv zeta.
  assert (S1 : pread b1 0 4 = w1)
    by (rewrite <- L1 at 1; apply pread_buf_set_same; lia).
  assert (S2 : pread b2 4 4 = w2)
    by (rewrite <- L2 at 2; apply pread_buf_set_same; lia).
  assert (S3 : pread b3 8 8 = d1)
    by (rewrite <- L3 at 2; apply pread_buf_set_same; lia).
  assert (S4 : pread b4 16 8 = d2)
    by (rewrite <- L4 at 1; apply pread_buf_set_same; lia).
  assert (S5 : pread b5 24 8 = d3)
    by (rewrite <- L5 at 1; apply pread_buf_set_same; lia).
  assert (S6 : pread (buf_set b5 32 d4) 32 8 = d4)
    by (rewrite <- L6 at 1; apply pread_buf_set_same; lia).
  repeat apply conj.
  - rewrite <- S1. rewrite pread_buf_set_other by lia.
    unfold b5. rewrite pread_buf_set_other by lia.
    unfold b4. rewrite pread_buf_set_other by lia.
    unfold b3. rewrite pread_buf_set_other by lia.
    unfold b2. rewrite pread_buf_set_other by lia. reflexivity.
  - rewrite <- S2. rewrite pread_buf_set_other by lia.
    unfold b5. rewrite pread_buf_set_other by lia.
    unfold b4. rewrite pread_buf_set_other by lia.
    unfold b3. rewrite pread_buf_set_other by lia. reflexivity.
  - rewrite <- S3. rewrite pread_buf_set_other by lia.
    unfold b5. rewrite pread_buf_set_other by lia.
    unfold b4. rewrite pread_buf_set_other by lia. reflexivity.
  - rewrite <- S4. rewrite pread_buf_set_other by lia.
    unfold b5. rewrite pread_buf_set_other by lia. reflexivity.
  - rewrite <- S5. rewrite pread_buf_set_other by lia. reflexivity.
  - exact S6.
Qed.

Lemma readHeader_headerBytes (f : Uint8Array) (h : DataFileHeader) :
  magic h = DATA_FILE_MAGIC -> version h = FORMAT_VERSION ->
  0 <= fileSize h < 2 ^ 53 -> 0 <= liveDataSize h < 2 ^ 53 ->
  0 <= documentCount h < 2 ^ 53 -> 0 <= nextSlotOffset h < 2 ^ 53 ->
  readHeader (pwrite f 0 (headerBytes h)) = Opened h.
Proof.
  intros Hm Hv H1 H2 H3 H4.
  pose proof (len_headerBytes h) as Hlen. unfold DATA_HEADER_SIZE in Hlen.
  unfold readHeader, DATA_HEADER_SIZE.
  change (pread (pwrite f 0 (headerBytes h)) 0 64)
    with (pread (pwrite f 0 (headerBytes h)) (0 + 0) 64).
  pose proof (len_nonneg f) as Hf.
  rewrite pread_pwrite_inside by lia.
  assert (Hall : pread (headerBytes h) 0 64 = headerBytes h).
  { rewrite <- (app_nil_r (headerBytes h)) at 1.
    apply pread_prefix. exact Hlen. }
  rewrite Hall, Hlen. change (64 <? 64) with false. cbv iota.
  destruct (headerBytes_words h) as (W1 & W2 & W3 & W4 & W5 & W6).
  cbv zeta in *.
  unfold readUint64_Number.
  rewrite !readUint32_as_pread, !readUint64_as_pread by lia.
  rewrite W1, W2, W3, W4, W5, W6. rewrite !le_value_le_bytes.
  change (256 ^ Z.of_nat 4) with (2 ^ 32).
  change (256 ^ Z.of_nat 8) with (2 ^ 64).
  rewrite !Z.mod_mod by lia.
  rewrite (Z.mod_small (fileSize h)), (Z.mod_small (liveDataSize h)),
    (Z.mod_small (documentCount h)), (Z.mod_small (nextSlotOffset h)) by lia.
  rewrite !Number_of_BigInt_small by lia.
  unfold JS.ToUint32. rewrite !Z.mod_mod by lia. rewrite Hm, Hv.
  change (DATA_FILE_MAGIC mod 2 ^ 32 =? DATA_FILE_MAGIC) with true.
  change (FORMAT_VERSION mod 2 ^ 32 =? FORMAT_VERSION) with true.
  cbv iota beta. cbn [negb].
  change (DATA_FILE_MAGIC mod 2 ^ 32) with DATA_FILE_MAGIC.
  change (FORMAT_VERSION mod 2 ^ 32) with FORMAT_VERSION.
  rewrite <- Hm, <- Hv. destruct h; reflexivity.
Qed.

(** X5.  The header that [writeHeader] puts on disk is the one
    [readHeader] gives back when the file is opened again, as long as its
    counters are below 2^53; the rest of the file is not touched by the
    write.  A file that [readHeader] accepts has 64 bytes at least, the
    magic number and the version of the format. *)
Theorem header_survives_reopening (s : StorageEngine) :
  header_in_range (header s) ->
  (readHeader (file (snd (writeHeader s))) = Opened (header s) /\
   forall o n, DATA_HEADER_SIZE <= o -> 0 <= n ->
               pread (file (snd (writeHeader s))) o n = pread (file s) o n) /\
  forall f h, readHeader f = Opened h ->
              DATA_HEADER_SIZE <= len f /\
              magic h = DATA_FILE_MAGIC /\ version h = FORMAT_VERSION.
Proof.
  intros (Hm & Hv & H1 & H2 & H3 & H4). split; [split|].
  - unfold writeHeader, writeAtOffset, bind, gets, modify. cbn [snd file set_file set_diskWrites].
    apply readHeader_headerBytes; assumption.
  - intros o n Ho Hn.
    unfold writeHeader, writeAtOffset, bind, gets, modify. cbn [snd file set_file set_diskWrites].
    pose proof (len_headerBytes (header s)) as Hlen.
    pose proof (len_nonneg (file s)) as Hf.
    unfold DATA_HEADER_SIZE in *.
    apply pread_pwrite_frame; lia.
  - intros f h. unfold readHeader.
    destruct (Z.ltb_spec (len (pread f 0 DATA_HEADER_SIZE)) DATA_HEADER_SIZE)
      as [|Hlen]; [discriminate|].
    destruct (Z.eqb_spec (readUint32 (pread f 0 DATA_HEADER_SIZE) 0) DATA_FILE_MAGIC)
      as [Hm'|]; [|discriminate].
    destruct (Z.eqb_spec (readUint32 (pread f 0 DATA_HEADER_SIZE) 4) FORMAT_VERSION)
      as [Hv'|]; [|discriminate].
    cbn [negb]. intros Heq. inversion Heq; subst h.
    cbn [magic version]. repeat split; try assumption.
    pose proof (pread_complete f 0 DATA_HEADER_SIZE) as Hc.
    unfold DATA_HEADER_SIZE in *. lia.
Qed.

Lemma header_survives_reopening_witness :
  header_in_range (header (storage Examples.users)) /\
  readHeader (file (snd (writeHeader (storage Examples.users))))
  = Opened (header (storage Examples.users)).
Proof.
  assert (H : header_in_range (header (storage Examples.users))).
  { unfold header_in_range. vm_compute. intuition discriminate. }
  exact (conj H (proj1 (proj1 (header_survives_reopening _ H)))).
Defined.

(* ------------------------------------------------------------------ *)
(** ** Rebuilding the free list *)

Lemma rebuildFreeList_loop_chain (f : Uint8Array) (occ : list Z) (T : Tiles) :
  forall (turns : nat) (a b : Z) (added : list FreeSlot),
    chain T a b -> 0 <= a -> b <= len f ->
    (forall o sz, In (o, sz) T -> sz < 2 ^ 32 /\ slabField f o = sz) ->
    (Z.to_nat (b - a) <= turns)%nat ->
    rebuildFreeList_loop turns f occ b a added
    = added ++ map free_slot_of (filter (unused f occ) T).
Proof.
  induction T as [|[o sz] T IH]; intros turns a b added Hchain Ha Hb Hdisk Hturns.
  - cbn [chain] in Hchain. subst b. cbn [filter map]. rewrite app_nil_r.
    destruct turns; cbn [rebuildFreeList_loop]; [reflexivity|].
    rewrite Z.ltb_irrefl. reflexivity.
  - cbn [chain] in Hchain. destruct Hchain as (-> & Hsz & Hrest).
    pose proof (chain_le _ _ _ Hrest) as Hle. unfold SLOT_HEADER_SIZE in *.
    destruct turns as [|turns]; [lia|].
    cbn [rebuildFreeList_loop].
    destruct (Z.ltb_spec a b) as [_|Hge]; [|lia]. cbn [negb].
    unfold SLOT_HEADER_SIZE.
    rewrite len_pread by lia. rewrite Z.ltb_irrefl.
    rewrite !readUint32_pread by lia.
    destruct (Hdisk a sz (or_introl eq_refl)) as [Hsmall Hfield].
    unfold slabField in Hfield. rewrite Hfield.
    destruct (Z.eqb_spec sz 0) as [Hz|_]; [lia|].
    rewrite Z.add_0_r.
    rewrite IH with (b := b); try assumption; try lia.
    + cbn [filter]. unfold unused at 2, slot_active. cbn [fst].
      destruct (negb _ || negb _); cbn [map].
      * rewrite <- app_assoc. reflexivity.
      * reflexivity.
    + intros o' sz' Hin. apply Hdisk. right. exact Hin.
Qed.

(** X6.  On a data file whose slots follow one another up to
    [nextSlotOffset], each with its size in its header, [rebuildFreeList]
    adds to the free list exactly the slots whose ACTIVE bit is clear or
    at whose offset no indexed location starts, in file order and with
    their slab sizes, and changes nothing else.  The walk needs no more
    turns than the distance to [nextSlotOffset]: with more turns allowed it
    gives the same list. *)
Theorem rebuildFreeList_finds_the_unused_slots (T : Tiles) (s : StorageEngine)
        (index : PrimaryIndex) :
  Inv T s -> Forall small T ->
  let occupiedOffsets := map (fun entry => loc_offset (snd entry)) index in
  let found := map free_slot_of (filter (unused (file s) occupiedOffsets) T) in
  rebuildFreeList index s = set_freeList (freeList s ++ found) s /\
  forall more : nat,
    rebuildFreeList_loop
      (Z.to_nat (nextSlotOffset (header s) - DATA_HEADER_SIZE) + more)
      (file s) occupiedOffsets (nextSlotOffset (header s)) DATA_HEADER_SIZE []
    = found.
Proof.
  intros HI Hsmall occ found.
  assert (Hloop : forall turns,
             (Z.to_nat (nextSlotOffset (header s) - DATA_HEADER_SIZE) <= turns)%nat ->
             rebuildFreeList_loop turns (file s) occ (nextSlotOffset (header s))
               DATA_HEADER_SIZE [] = found).
  { intros turns Hturns.
    rewrite (rebuildFreeList_loop_chain (file s) occ T); try assumption.
    - reflexivity.
    - apply (inv_chain _ _ HI).
    - unfold DATA_HEADER_SIZE. lia.
    - apply (inv_len _ _ HI).
    - intros o sz Hin. rewrite Forall_forall in Hsmall.
      pose proof (Hsmall _ Hin) as Hs. unfold small in Hs. cbn [snd] in Hs.
      split; [exact Hs|]. apply (inv_disk _ _ HI); assumption. }
  split.
  - unfold rebuildFreeList. fold occ. rewrite Hloop by lia. reflexivity.
  - intros more. apply Hloop. lia.
Qed.

Lemma rebuildFreeList_finds_the_unused_slots_witness :
  let s := set_freeList [] (storage Examples.users) in
  let T := [(64, 1024); (1088, 1024); (2112, 1024)] in
  let index := primaryIndex (indexManager Examples.users) in
  Inv T s /\ Forall small T /\
  rebuildFreeList index s = set_freeList [mkFreeSlot 64 1024] s.
Proof.
  intros s T index.
  assert (HI : Inv T s).
  { constructor.
    - vm_compute. repeat split; discriminate.
    - vm_compute. reflexivity.
    - vm_compute. discriminate.
    - intros x [].
    - intros o sz [H|[H|[H|[]]]] _; injection H as <- <-; vm_compute; reflexivity. }
  assert (HS : Forall small T).
  { repeat constructor. }
  exact (conj HI (conj HS
           (proj1 (rebuildFreeList_finds_the_unused_slots T s index HI HS)))).
Defined.

(* ------------------------------------------------------------------ *)
(** ** Keys of the secondary indexes *)

Lemma serializeIndexValue_marker `{rt : Runtime} (v : value) :
  exists rest, serializeIndexValue v = tag (index_marker v) rest.
Proof.
  destruct v as [| |b|n|s|items|props]; cbn [serializeIndexValue index_marker];
    try (eexists; reflexivity).
  destruct (is_nan n); [eexists; reflexivity|].
  destruct (negb (is_finite n)); [|eexists; reflexivity].
  destruct (PrimFloat.ltb zero n); eexists; reflexivity.
Qed.

Lemma tag_inj (n m : nat) (s t : string) :
  (n < 5)%nat -> (m < 5)%nat -> tag n s = tag m t -> n = m /\ s = t.
Proof.
  intros Hn Hm H. unfold tag in H. injection H as Hc Hs. split; [|exact Hs].
  destruct n as [|[|[|[|[|n]]]]]; try lia;
    destruct m as [|[|[|[|[|m]]]]]; try lia;
    try reflexivity; vm_compute in Hc; discriminate.
Qed.

Lemma index_marker_bound (v : value) : (index_marker v < 5)%nat.
Proof. destruct v; cbn [index_marker]; lia. Qed.

(** X7.  Two values with the same key in a secondary index have the same
    type marker: a string never shares a key with a number, a boolean,
    [null] or an object, whatever the number formatting of the runtime
    is.  For [null], [undefined], booleans and strings the key determines
    the value. *)
Theorem index_keys_keep_types_apart `{rt : Runtime} (v w : value) :
  serializeIndexValue v = serializeIndexValue w ->
  index_marker v = index_marker w /\
  (written_out v = true -> v = w).
Proof.
  intros H.
  assert (Hm : index_marker v = index_marker w).
  { destruct (serializeIndexValue_marker v) as [r1 E1].
    destruct (serializeIndexValue_marker w) as [r2 E2].
    rewrite E1, E2 in H.
    apply tag_inj in H; try apply index_marker_bound. apply H. }
  split; [exact Hm|].
  intros Hw.
  destruct v as [| |b|n|s|items|props]; try discriminate Hw;
    destruct w as [| |b'|n'|s'|items'|props']; try discriminate Hm;
    cbn [serializeIndexValue] in H; try reflexivity; try discriminate H.
  - destruct b, b'; try reflexivity; discriminate H.
  - apply tag_inj in H; try lia. destruct H as [_ ->]. reflexivity.
Qed.

Lemma index_keys_keep_types_apart_witness :
  @serializeIndexValue Examples.runtime (VStr "admin")
  = @serializeIndexValue Examples.runtime (VStr "admin") /\
  index_marker (VStr "admin") = 3%nat.
Proof.
  assert (H : @serializeIndexValue Examples.runtime (VStr "admin")
              = @serializeIndexValue Examples.runtime (VStr "admin"))
    by reflexivity.
  exact (conj H (proj1 (@index_keys_keep_types_apart Examples.runtime _ _ H))).
Defined.

(* ------------------------------------------------------------------ *)
(** ** The size of the cache *)

Section Preserves.
Context {S : Type} (P : S -> Prop).

Lemma preserves_ret {A} (a : A) : preserves P (ret a : M S A).
Proof. intros s H. exact H. Qed.

Lemma preserves_gets {A} (f : S -> A) : preserves P (gets f).
Proof. intros s H. exact H. Qed.

Lemma preserves_throw {A} (e : error) : preserves P (throw e : M S A).
Proof. intros s H. exact H. Qed.

Lemma preserves_modify (f : S -> S) :
  (forall s, P s -> P (f s)) -> preserves P (modify f).
Proof. intros Hf s H. apply Hf. exact H. Qed.

Lemma preserves_bind {A B} (c : M S A) (k : A -> M S B) :
  preserves P c -> (forall a, preserves P (k a)) -> preserves P (bind c k).
Proof.
  intros Hc Hk s H. specialize (Hc s H). unfold bind.
  destruct (c s) as [[a|e] s']; cbn [snd] in *; [apply Hk; exact Hc|exact Hc].
Qed.

Lemma preserves_when (b : bool) (c : M S unit) :
  preserves P c -> preserves P (when b c).
Proof. intros Hc. destruct b; [exact Hc|apply preserves_ret]. Qed.

Lemma preserves_for_each {A B} (f : A -> M S B) (xs : list A) :
  (forall x, preserves P (f x)) -> preserves P (for_each f xs).
Proof.
  intros Hf. induction xs as [|x xs IH]; cbn [for_each].
  - apply preserves_ret.
  - apply preserves_bind; [apply Hf|]. intros y.
    apply preserves_bind; [exact IH|]. intros ys. apply preserves_ret.
Qed.

Lemma preserves_try_finally {A} (body : M S A) (fin : M S unit) :
  preserves P body -> preserves P fin -> preserves P (try_finally body fin).
Proof.
  intros Hb Hf s H. unfold try_finally. specialize (Hb s H).
  destruct (body s) as [r s1]. cbn [snd] in Hb. specialize (Hf s1 Hb).
  destruct (fin s1) as [[u|e] s2]; exact Hf.
Qed.
End Preserves.

Create HintDb preserves.

Ltac preserves_step :=
  lazymatch goal with
  | |- preserves _ (bind _ _) => apply preserves_bind; [|intros ?]
  | |- preserves _ (ret _) => apply preserves_ret
  | |- preserves _ (gets _) => apply preserves_gets
  | |- preserves _ (throw _) => apply preserves_throw
  | |- preserves _ (when _ _) => apply preserves_when
  | |- preserves _ (for_each _ _) => apply preserves_for_each; intros ?
  | |- preserves _ (try_finally _ _) => apply preserves_try_finally
  | |- preserves _ (if ?b then _ else _) => destruct b
  | |- preserves _ (match ?x with _ => _ end) => destruct x
  | _ => solve [auto with preserves]
  end.

Ltac preserves_run := cbv zeta; repeat (preserves_step; cbv zeta).

Lemma Map_size_delete {V} (m : JSMap V) (k : string) :
  Map_size (Map_delete m k) <= Map_size m /\
  (Map_has m k = true -> Map_size (Map_delete m k) = Map_size m - 1).
Proof.
  unfold Map_size, Map_has.
  induction m as [|[k' v'] m IH]; cbn [Map_delete Map_get List.length].
  - split; [lia|discriminate].
  - destruct (String.eqb k' k).
    + split; [lia|intros _; lia].
    + cbn [List.length]. destruct IH as [IH1 IH2]. split; [lia|].
      intros H. specialize (IH2 H). lia.
Qed.

Lemma Map_size_set {V} (m : JSMap V) (k : string) (v : V) :
  Map_size (Map_set m k v) = if Map_has m k then Map_size m else Map_size m + 1.
Proof.
  unfold Map_size, Map_has.
  induction m as [|[k' v'] m IH]; cbn [Map_set Map_get List.length].
  - reflexivity.
  - destruct (String.eqb k' k); cbn [List.length]; [reflexivity|].
    destruct (Map_get m k); lia.
Qed.

Lemma Map_size_nonneg {V} (m : JSMap V) : 0 <= Map_size m.
Proof. unfold Map_size. lia. Qed.

Section CacheBound.
Context `{rt : Runtime}.
Variable n : Z.

Lemma bounded_onStorage {A} (c : Eng A) : preserves (cache_bounded n) (onStorage c).
Proof.
  intros s H. unfold onStorage. destruct (c (storage s)) as [r st]. exact H.
Qed.

Lemma bounded_onIndex f : preserves (cache_bounded n) (onIndex f).
Proof. intros s H. exact H. Qed.

Lemma bounded_cacheSet id doc : preserves (cache_bounded n) (cacheSet id doc).
Proof.
  intros s [Hsize H]. unfold cacheSet, modify. cbn [snd].
  unfold cache_bounded in *.
  destruct (cache s) as [entries|] eqn:Hc; [|rewrite Hc; split; assumption].
  cbn [cache cacheSize set_cache]. split; [exact Hsize|]. destruct H as [H Hn].
  split; [|exact Hn].
  set (e1 := if Map_has entries id then Map_delete entries id else entries).
  assert (H1 : Map_size (Map_set e1 id doc) <= Map_size entries + 1).
  { rewrite Map_size_set. subst e1.
    destruct (Map_size_delete entries id) as [D1 D2].
    destruct (Map_has entries id) eqn:Hhas.
    - specialize (D2 eq_refl). destruct (Map_has (Map_delete entries id) id); lia.
    - rewrite Hhas. lia. }
  destruct (Z.gtb_spec (Map_size (Map_set e1 id doc)) (cacheSize s)) as [Hgt|Hle];
    [|exact Hle].
  destruct (Map_keys (Map_set e1 id doc)) as [|oldestKey ks] eqn:Hk.
  - unfold Map_keys in Hk. apply map_eq_nil in Hk. rewrite Hk in Hgt.
    unfold Map_size in Hgt. cbn [List.length] in Hgt. lia.
  - destruct (Map_size_delete (Map_set e1 id doc) oldestKey) as [_ D2].
    rewrite D2; [lia|].
    unfold Map_has. destruct (Map_set e1 id doc) as [|[k v] m]; [discriminate|].
    cbn [Map_keys map fst] in Hk. injection Hk as -> _.
    cbn [Map_get]. rewrite String.eqb_refl. reflexivity.
Qed.

Lemma bounded_cacheDelete id : preserves (cache_bounded n) (cacheDelete id).
Proof.
  intros s [Hsize H]. unfold cacheDelete, modify. cbn [snd].
  unfold cache_bounded in *.
  destruct (cache s) as [entries|] eqn:Hc; [|rewrite Hc; split; assumption].
  cbn [cache cacheSize set_cache]. split; [exact Hsize|].
  destruct (Map_size_delete entries id) as [D1 _]. split; [lia|apply H].
Qed.

Lemma bounded_cacheGet id : preserves (cache_bounded n) (cacheGet id).
Proof.
  intros s [Hsize H]. unfold cacheGet, bind, gets, modify, ret. 
  unfold cache_bounded in *.
  destruct (cache s) as [entries|] eqn:Hc; cbn [snd];
    [|rewrite Hc; split; assumption].
  destruct (Map_get entries id) as [v|] eqn:Hget; cbn [snd];
    [|rewrite Hc; split; assumption].
  destruct (negb (truthy_value v)); cbn [snd]; [rewrite Hc; split; assumption|].
  cbn [cache cacheSize set_cache]. split; [exact Hsize|].
  rewrite Map_size_set.
  destruct (Map_size_delete entries id) as [D1 D2].
  assert (Hhas : Map_has entries id = true) by (unfold Map_has; rewrite Hget; reflexivity).
  specialize (D2 Hhas).
  destruct (Map_has (Map_delete entries id) id); split; try lia; apply H.
Qed.

Lemma bounded_cacheClear : preserves (cache_bounded n) Documents.cacheClear.
Proof.
  intros s [Hsize H]. unfold Documents.cacheClear, modify. cbn [snd].
  unfold cache_bounded in *.
  destruct (cache s) as [entries|] eqn:Hc; [|rewrite Hc; split; assumption].
  cbn [cache cacheSize set_cache]. split; [exact Hsize|].
  unfold Map_size. cbn [List.length]. split; [lia|apply H].
Qed.

#[local] Hint Resolve bounded_onStorage bounded_onIndex bounded_cacheSet
  bounded_cacheDelete bounded_cacheGet bounded_cacheClear : preserves.

Lemma bounded_readWithCache id loc :
  preserves (cache_bounded n) (readWithCache id loc).
Proof. unfold readWithCache. preserves_run. Qed.

#[local] Hint Resolve bounded_readWithCache : preserves.

Lemma bounded_get id : preserves (cache_bounded n) (Collection.get id).
Proof. unfold Collection.get. preserves_run. Qed.

Lemma bounded_validate m filter ids :
  preserves (cache_bounded n) (Index.validate readWithCache m filter ids).
Proof.
  induction ids as [|id ids IH]; cbn [Index.validate].
  - apply preserves_ret.
  - destruct (Map_get (primaryIndex m) id); [|exact IH].
    apply preserves_bind; [apply bounded_readWithCache|]. intros doc.
    apply preserves_bind; [exact IH|]. intros r. apply preserves_ret.
Qed.

Lemma bounded_fetch m filter covered ids :
  preserves (cache_bounded n) (Manager.fetch readWithCache m filter covered ids).
Proof.
  induction ids as [|id ids IH]; cbn [Manager.fetch].
  - apply preserves_ret.
  - destruct (Map_get (primaryIndex m) id); [|exact IH].
    apply preserves_bind; [apply bounded_readWithCache|]. intros doc.
    apply preserves_bind; [exact IH|]. intros r. apply preserves_ret.
Qed.

#[local] Hint Resolve bounded_get bounded_validate bounded_fetch : preserves.

Lemma bounded_batch_op op : preserves (cache_bounded n) (Collection.batch_op op).
Proof.
  destruct op; cbn [Collection.batch_op];
    unfold insert_with, update_with, upsert_with, delete_with; preserves_run.
Qed.

#[local] Hint Resolve bounded_batch_op : preserves.

Lemma bounded_run_call (call : Call) (c : Collection) :
  cache_bounded n c -> cache_bounded n (run_call call c).
Proof.
  revert c. change (forall c, cache_bounded n c -> cache_bounded n (run_call call c))
    with (forall c, cache_bounded n c -> cache_bounded n (run_call call c)).
  destruct call as [op|id|filter|filter|filter|filter| | | | | | ];
    cbn [run_call]; [destruct op; cbn [run_op]|..];
    match goal with
    | |- forall c, cache_bounded n c -> cache_bounded n (snd (?m c)) =>
        change (preserves (cache_bounded n) m)
    end.
  - unfold Collection.insert. preserves_run.
  - unfold Collection.update. preserves_run.
  - unfold Collection.upsert. preserves_run.
  - unfold Collection.delete. preserves_run.
  - unfold Collection.batch. preserves_run.
  - unfold Collection.insertMany. preserves_run.
  - apply bounded_get.
  - unfold Collection.createIndex. preserves_run.
  - unfold Collection.has. preserves_run.
  - unfold Documents.find, Manager.query. preserves_run.
  - unfold Documents.findOne, Documents.find, Manager.query. preserves_run.
  - unfold Collection.findIds, Index.queryIds. preserves_run.
  - unfold Collection.count, Index.count. preserves_run.
  - unfold Documents.getAll. preserves_run.
  - unfold Documents.keys. preserves_run.
  - unfold Collection.compact. preserves_run.
  - unfold Documents.persistIndex. preserves_run.
  - unfold Documents.clear. preserves_run.
  - unfold Documents.reset. preserves_run.
Qed.
End CacheBound.

(** X8.  Whatever the public methods called on a new collection are, and
    whether they return or throw, the cache holds at most [cacheSize]
    documents; a collection made with [cacheSize <= 0] has no cache. *)
Theorem cache_never_exceeds_its_size `{rt : Runtime} (limit thr : Z)
        (calls : list Call) :
  match cache (run_calls calls (newCollection limit thr)) with
  | Some entries => Map_size entries <= limit
  | None => limit <= 0
  end.
Proof.
  assert (H : cache_bounded limit (run_calls calls (newCollection limit thr))).
  { unfold run_calls.
    assert (H0 : cache_bounded limit (newCollection limit thr)).
    { unfold cache_bounded, newCollection. cbn [cacheSize cache].
      split; [reflexivity|].
      destruct (Z.gtb_spec (Z.max 0 limit) 0) as [Hpos|Hneg].
      - unfold Map_size. cbn [List.length]. lia.
      - lia. }
    revert H0. generalize (newCollection limit thr).
    induction calls as [|call calls IH]; intros c Hc; cbn [fold_left].
    - exact Hc.
    - apply IH. apply bounded_run_call. exact Hc. }
  destruct H as [Hsize H].
  destruct (cache _) as [entries|]; [|exact H]. lia.
Qed.

(* ------------------------------------------------------------------ *)
(** ** What a storage operation leaves of the other documents *)

Lemma wp_conj {S A} (c : M S A) (Q1 Q2 : A -> S -> Prop)
      (E1 E2 : error -> S -> Prop) (s : S) :
  wp c Q1 E1 s -> wp c Q2 E2 s ->
  wp c (fun a s' => Q1 a s' /\ Q2 a s') (fun e s' => E1 e s' /\ E2 e s') s.
Proof.
  unfold wp. destruct (c s) as [[a|e] s']; intros H1 H2; split; assumption.
Qed.

Lemma wp_same_run {S A} (c c' : M S A) (Q : A -> S -> Prop)
      (E : error -> S -> Prop) (s : S) :
  c s = c' s -> wp c Q E s -> wp c' Q E s.
Proof. unfold wp. intros ->. exact (fun H => H). Qed.

Lemma wp_of_run {S A} (c : M S A) (Q : A -> S -> Prop)
      (E : error -> S -> Prop) (s : S) :
  (forall a s', c s = (Ok a, s') -> Q a s') ->
  (forall e s', c s = (Err e, s') -> E e s') ->
  wp c Q E s.
Proof.
  unfold wp. destruct (c s) as [[a|e] s']; intros HQ HE; [apply HQ|apply HE];
    reflexivity.
Qed.

Lemma tidy_same (A : list Z) (s s' : StorageEngine) :
  freeList s' = freeList s -> tidy A s -> tidy A s'.
Proof. unfold tidy. intros ->. exact (fun H => H). Qed.

Lemma shift_trans (T T1 T2 : Tiles) (id : string) (A : list Z)
      (s s1 s2 : StorageEngine) :
  shift T id A s T1 s1 -> shift T1 id A s1 T2 s2 -> shift T id A s T2 s2.
Proof.
  intros [M1 D1 F1 B1] [M2 D2 F2 B2]. constructor.
  - eapply moved_trans; eassumption.
  - exact D2.
  - intros o sz n Hin HA Hn.
    rewrite (F2 o sz n); [apply (F1 o sz n); assumption| |assumption|assumption].
    apply (grows_in True T); [exact (mv_grows _ _ _ _ _ M1)|exact Hin].
  - intros name Hne. rewrite B2 by assumption. apply B1. exact Hne.
Qed.

Lemma shift_refl (T : Tiles) (id : string) (A : list Z) (s : StorageEngine) :
  Inv T s -> tidy A s -> shift T id A s T s.
Proof.
  intros HI HT. constructor; try reflexivity; try assumption.
  apply moved_refl. exact HI.
Qed.

(** A step on the counters, the flags and the header bytes. *)
Lemma shift_meta (T : Tiles) (id : string) (A : list Z) (s s' : StorageEngine) :
  Inv T s -> tidy A s -> meta_step s s' -> shift T id A s T s'.
Proof.
  intros HI HT M. pose proof M as (F & Bl & Th & Nx & Fs & Ln & Fr).
  constructor.
  - apply moved_meta; assumption.
  - apply (tidy_same A s); assumption.
  - intros o sz n Hin _ Hn.
    destruct (Inv_tile _ _ _ _ HI Hin) as (Ho & _). apply Fr; lia.
  - intros name _. rewrite Bl. reflexivity.
Qed.

(** A step on the blob file of [id] alone. *)
Lemma shift_blob (T : Tiles) (id : string) (A : list Z) (s s' : StorageEngine) :
  Inv T s -> tidy A s ->
  file s' = file s -> header s' = header s -> freeList s' = freeList s ->
  blobThreshold s' = blobThreshold s ->
  (forall name, name <> blob_name id ->
                Map_get (blobFiles s') name = Map_get (blobFiles s) name) ->
  shift T id A s T s'.
Proof.
  intros HI HT F H L Th Bl. constructor.
  - apply moved_same; assumption.
  - apply (tidy_same A s); assumption.
  - intros o sz n _ _ _. rewrite F. reflexivity.
  - exact Bl.
Qed.

(** Two different slots of a layout do not meet. *)
Lemma tiles_apart (T : Tiles) (s : StorageEngine) (o sz o' sz' : Z) :
  Inv T s -> In (o, sz) T -> In (o', sz') T -> o <> o' ->
  o + sz <= o' \/ o' + sz' <= o.
Proof.
  intros HI H1 H2 Hne.
  destruct (chain_disjoint _ _ _ _ _ _ _ (inv_chain _ _ HI) H1 H2)
    as [[? ?]|[?|?]]; [contradiction|left|right]; assumption.
Qed.

(** No slot starts at the end of the slots. *)
Lemma next_is_fresh (T : Tiles) (s : StorageEngine) (sz : Z) :
  Inv T s -> ~ In (nextSlotOffset (header s), sz) T.
Proof.
  intros HI Hin. destruct (Inv_tile _ _ _ _ HI Hin) as (_ & Hsz & Hnext & _).
  unfold SLOT_HEADER_SIZE in Hsz. lia.
Qed.

Lemma shift_freed (T : Tiles) (id : string) (A : list Z) (s s' : StorageEngine)
      (o sz : Z) :
  Inv T s -> Inv T s' -> tidy A s -> In (o, sz) T -> In o A ->
  slot_freed s s' o -> shift T id A s T s'.
Proof.
  intros HI HI' HT Hin HA (F1 & F2 & F3 & F4 & F5 & F6 & F7).
  destruct (Inv_tile _ _ _ _ HI Hin) as (Ho & Hsz & _).
  unfold SLOT_HEADER_SIZE, DATA_HEADER_SIZE in *.
  constructor.
  - constructor; [apply grows_refl|exact HI'|exact F4|lia|rewrite F1; lia].
  - apply (tidy_same A s); assumption.
  - intros o' sz' n Hin' HA' Hn.
    destruct (Inv_tile _ _ _ _ HI Hin') as (Ho' & Hsz' & _).
    unfold SLOT_HEADER_SIZE, DATA_HEADER_SIZE in *.
    assert (Hne : o' <> o) by (intros ->; contradiction).
    destruct (tiles_apart T s o' sz' o sz HI Hin' Hin Hne); apply F6; lia.
  - intros name _. rewrite F3. reflexivity.
Qed.

Lemma shift_rewritten (T : Tiles) (id : string) (A : list Z) (s s' : StorageEngine)
      (o sz : Z) (d : Uint8Array) :
  Inv T s -> tidy A s -> In (o, sz) T -> In o A ->
  rewritten T s o sz d s' -> shift T id A s T s'.
Proof.
  intros HI HT Hin HA Rw. pose proof Rw as [R1 R2 R3 R4 R5 R6 R7 R8].
  destruct (Inv_tile _ _ _ _ HI Hin) as (Ho & Hsz & _).
  unfold SLOT_HEADER_SIZE, DATA_HEADER_SIZE in *.
  constructor.
  - eapply moved_rewritten. exact Rw.
  - apply (tidy_same A s); assumption.
  - intros o' sz' n Hin' HA' Hn.
    destruct (Inv_tile _ _ _ _ HI Hin') as (Ho' & Hsz' & _).
    unfold SLOT_HEADER_SIZE, DATA_HEADER_SIZE in *.
    assert (Hne : o' <> o) by (intros ->; contradiction).
    destruct (tiles_apart T s o' sz' o sz HI Hin' Hin Hne); apply R8; lia.
  - intros name _. rewrite R5. reflexivity.
Qed.

Lemma shift_freeList_add (T : Tiles) (id : string) (A : list Z)
      (s : StorageEngine) (x : FreeSlot) :
  Inv T s -> tidy A s -> In (free_offset x, free_slabSize x) T ->
  In (free_offset x) A -> ~ In (free_offset x) (map free_offset (freeList s)) ->
  shift T id A s T (set_freeList (freeList s ++ [x]) s).
Proof.
  intros HI [HN HA] Hin HxA Hfresh. constructor; cbn [file blobFiles freeList set_freeList].
  - constructor; cbn [file header blobThreshold set_freeList]; try reflexivity;
      try lia; [apply grows_refl|].
    apply Inv_set_freeList; [exact HI|].
    intros y Hy. apply in_app_or in Hy. destruct Hy as [Hy|[<-|[]]].
    + apply (inv_free _ _ HI). exact Hy.
    + exact Hin.
  - unfold tidy. cbn [freeList set_freeList]. split.
    + rewrite map_app. cbn [map]. apply NoDup_app; [exact HN|repeat constructor; intros []|].
      intros o Ho [<-|[]]. contradiction.
    + intros y Hy. apply in_app_or in Hy. destruct Hy as [Hy|[<-|[]]];
        [apply HA; exact Hy|exact HxA].
  - reflexivity.
  - reflexivity.
Qed.

Lemma place_bind {A} (d : Uint8Array) (isBlob : bool)
      (k : SlabAllocation -> Eng A) (s : StorageEngine) :
  (a <- place d isBlob ;; k a) s
  = (allocation <- allocateSlot (len d) ;;
     writeSlot (alloc_offset allocation) d (alloc_slabSize allocation) isBlob ;;
     advance allocation ;;
     k allocation) s.
Proof.
  unfold place, bind.
  destruct (allocateSlot (len d) s) as [[a|e] s1]; [|reflexivity].
  destruct (writeSlot (alloc_offset a) d (alloc_slabSize a) isBlob s1)
    as [[u|e] s2]; [|reflexivity].
  destruct (advance a s2) as [[u'|e] s3]; reflexivity.
Qed.

Lemma place_freeList (d : Uint8Array) (isBlob : bool) (s s' : StorageEngine)
      (a : SlabAllocation) :
  place d isBlob s = (Ok a, s') ->
  freeList s' = freeList (snd (allocateSlot (len d) s)).
Proof.
  unfold place, bind.
  destruct (allocateSlot (len d) s) as [[a0|e] s1]; [|discriminate]. cbn [snd].
  unfold writeSlot.
  destruct (alloc_slabSize a0 <? SLOT_HEADER_SIZE + len d); [discriminate|].
  unfold writeAtOffset, modify, advance, when, modify_header, modify, ret.
  destruct (negb (alloc_isReused a0)); intros H; inversion H; reflexivity.
Qed.

Section Place.
Context `{rt : Runtime}.

(** The allocation of a slot, seen from the free list. *)
Lemma allocateSlot_takes (T : Tiles) (A : list Z) (n : Z) (s : StorageEngine)
      (a : SlabAllocation) :
  Inv T s -> tidy A s -> fst (allocateSlot n s) = Ok a ->
  let l' := freeList (snd (allocateSlot n s)) in
  NoDup (map free_offset l') /\
  (forall x, In x l' -> In (free_offset x) A) /\
  (In (alloc_offset a) A \/ forall sz, ~ In (alloc_offset a, sz) T) /\
  ~ In (alloc_offset a) (map free_offset l').
Proof.
  intros HI [HN HA]. unfold allocateSlot, bind, gets, modify, ret.
  pose proof (take_first_fit_spec (selectSlabSize n) (freeList s)) as Hfit.
  destruct (take_first_fit (selectSlabSize n) (freeList s)) as [[found rest]|];
    cbn [fst snd freeList set_freeList]; intros Ha; injection Ha as <-;
    cbn [alloc_offset].
  - destruct Hfit as (before & after & Hl & -> & _ & _).
    rewrite Hl in HN, HA. rewrite map_app in HN. cbn [map] in HN.
    pose proof (NoDup_remove_1 _ _ _ HN) as HN1.
    pose proof (NoDup_remove_2 _ _ _ HN) as HN2.
    rewrite <- map_app in HN1, HN2.
    repeat split.
    + exact HN1.
    + intros x Hx. apply HA. apply in_app_or in Hx. apply in_or_app.
      destruct Hx; [left|right; right]; assumption.
    + left. apply HA. apply in_or_app. right. left. reflexivity.
    + exact HN2.
  - repeat split.
    + exact HN.
    + exact HA.
    + right. intros sz. apply next_is_fresh. exact HI.
    + intros Hin. apply in_map_iff in Hin. destruct Hin as (x & Hx & Hin).
      pose proof (inv_free _ _ HI x Hin) as Htile. rewrite Hx in Htile.
      exact (next_is_fresh T s _ HI Htile).
Qed.

Lemma wp_place (T : Tiles) (id : string) (A : list Z) (d : Uint8Array)
      (isBlob : bool) Q E s :
  Inv T s -> tidy A s -> len d + 4112 <= 2 ^ 32 ->
  (forall a T' s',
      placed True T s d a T' s' -> shift T id A s T' s' ->
      (In (alloc_offset a) A \/ forall sz, ~ In (alloc_offset a, sz) T) ->
      ~ In (alloc_offset a) (map free_offset (freeList s')) ->
      Q a s') ->
  wp (place d isBlob) Q E s.
Proof.
  intros HI HT Hd HQ.
  assert (W : wp (place d isBlob)
                (fun a s' => exists T', placed True T s d a T' s') E s).
  { unfold place. apply (wp_allocate_write_advance True T); [exact HI|auto|].
    intros a T' s' P. apply wp_ret. exists T'. exact P. }
  apply wp_of_run.
  - intros a s' Hrun. unfold wp in W. rewrite Hrun in W. destruct W as [T' P].
    pose proof (place_freeList _ _ _ _ _ Hrun) as Hfree.
    destruct (allocateSlot_takes T A (len d) s a HI HT (pl_alloc _ _ _ _ _ _ _ P))
      as (N1 & N2 & N3 & N4).
    cbv zeta in *. rewrite <- Hfree in N1, N2, N4.
    apply (HQ a T'); try assumption.
    constructor.
    + eapply moved_placed. exact P.
    + split; assumption.
    + intros o sz n Hin HnA Hn. apply (pl_frame _ _ _ _ _ _ _ P o sz n Hin); [|exact Hn].
      intros ->. destruct N3 as [N3|N3]; [contradiction|exact (N3 sz Hin)].
    + intros name _. rewrite (pl_blobs _ _ _ _ _ _ _ P). reflexivity.
  - intros e s' Hrun. unfold wp in W. rewrite Hrun in W. exact W.
Qed.

(** The same for the sequence as the operations write it. *)
Lemma wp_place_then {R} (T : Tiles) (id : string) (A : list Z) (d : Uint8Array)
      (isBlob : bool) (k : SlabAllocation -> Eng R) Q E s :
  Inv T s -> tidy A s -> len d + 4112 <= 2 ^ 32 ->
  (forall a T' s',
      placed True T s d a T' s' -> shift T id A s T' s' ->
      (In (alloc_offset a) A \/ forall sz, ~ In (alloc_offset a, sz) T) ->
      ~ In (alloc_offset a) (map free_offset (freeList s')) ->
      wp (k a) Q E s') ->
  wp (allocation <- allocateSlot (len d) ;;
      writeSlot (alloc_offset allocation) d (alloc_slabSize allocation) isBlob ;;
      advance allocation ;;
      k allocation) Q E s.
Proof.
  intros HI HT Hd Hk.
  apply (wp_same_run (a <- place d isBlob ;; k a)); [apply place_bind|].
  apply wp_bind. apply (wp_place T id A); assumption.
Qed.
End Place.

Lemma Map_get_set_other {V} (m : JSMap V) (k k' : string) (v : V) :
  k' <> k -> Map_get (Map_set m k v) k' = Map_get m k'.
Proof.
  intros Hne. induction m as [|[k0 v0] m IH]; cbn [Map_set Map_get].
  - destruct (String.eqb_spec k k'); [congruence|reflexivity].
  - destruct (String.eqb_spec k0 k) as [->|Hk]; cbn [Map_get].
    + destruct (String.eqb_spec k k'); [congruence|reflexivity].
    + destruct (String.eqb k0 k'); [reflexivity|exact IH].
Qed.

Lemma shift_inv (T0 T : Tiles) (id : string) (A : list Z) (s0 s : StorageEngine) :
  shift T0 id A s0 T s -> Inv T s.
Proof. intros Sh. exact (mv_inv _ _ _ _ _ (sh_moved _ _ _ _ _ _ Sh)). Qed.

Section Pieces.
Context `{rt : Runtime}.
Variables (T0 : Tiles) (id : string) (A : list Z) (s0 : StorageEngine).

(** A step on the header, the flags and the counters, in a row of steps. *)
Lemma wp_x_meta {R} (T : Tiles) (c : Eng unit) (k : unit -> Eng R) Q E s :
  metadata_only c -> shift T0 id A s0 T s ->
  (forall s', shift T0 id A s0 T s' -> meta_step s s' -> wp (k tt) Q E s') ->
  wp (bind c k) Q E s.
Proof.
  intros Hc Sh Hk. pose proof (shift_inv _ _ _ _ _ _ Sh) as HI.
  apply wp_bind. apply Hc; [exact (Inv_roomy _ _ HI)|].
  intros s' M. apply Hk; [|exact M].
  eapply shift_trans; [exact Sh|].
  apply shift_meta; [exact HI|exact (sh_tidy _ _ _ _ _ _ Sh)|exact M].
Qed.

Lemma wp_x_meta_last (T : Tiles) (c : Eng unit) Q E s :
  metadata_only c -> shift T0 id A s0 T s ->
  (forall s', shift T0 id A s0 T s' -> meta_step s s' -> Q tt s') ->
  wp c Q E s.
Proof.
  intros Hc Sh Hk. pose proof (shift_inv _ _ _ _ _ _ Sh) as HI.
  apply Hc; [exact (Inv_roomy _ _ HI)|].
  intros s' M. apply Hk; [|exact M].
  eapply shift_trans; [exact Sh|].
  apply shift_meta; [exact HI|exact (sh_tidy _ _ _ _ _ _ Sh)|exact M].
Qed.

Lemma wp_x_markSlotFree {R} (T : Tiles) (o sz : Z) (k : unit -> Eng R) Q E s :
  shift T0 id A s0 T s -> In (o, sz) T -> In o A ->
  (forall s', shift T0 id A s0 T s' -> slot_freed s s' o -> wp (k tt) Q E s') ->
  wp (bind (markSlotFree o) k) Q E s.
Proof.
  intros Sh Hin HA Hk. pose proof (shift_inv _ _ _ _ _ _ Sh) as HI.
  apply wp_bind. apply (wp_markSlotFree T o sz); [exact HI|exact Hin|].
  intros s' HI' Fr. apply Hk; [|exact Fr].
  eapply shift_trans; [exact Sh|].
  apply (shift_freed T id A s s' o sz); try assumption.
  exact (sh_tidy _ _ _ _ _ _ Sh).
Qed.

Lemma wp_x_freeList_add {R} (T : Tiles) (x : FreeSlot) (k : unit -> Eng R) Q E s :
  shift T0 id A s0 T s -> In (free_offset x, free_slabSize x) T ->
  In (free_offset x) A -> ~ In (free_offset x) (map free_offset (freeList s)) ->
  (shift T0 id A s0 T (set_freeList (freeList s ++ [x]) s) ->
   wp (k tt) Q E (set_freeList (freeList s ++ [x]) s)) ->
  wp (bind (freeList_add x) k) Q E s.
Proof.
  intros Sh Hin HA Hfresh Hk. pose proof (shift_inv _ _ _ _ _ _ Sh) as HI.
  apply wp_bind. unfold freeList_add. apply wp_modify. apply Hk.
  eapply shift_trans; [exact Sh|].
  apply shift_freeList_add; try assumption. exact (sh_tidy _ _ _ _ _ _ Sh).
Qed.

Lemma wp_x_writeBlobFile {R} (T : Tiles) (data : Uint8Array)
      (k : BlobReference -> Eng R) Q E s :
  shift T0 id A s0 T s ->
  (forall s', shift T0 id A s0 T s' ->
              file s' = file s -> freeList s' = freeList s ->
              header s' = header s ->
              Map_get (blobFiles s') (blob_name id) = Some data ->
              wp (k {| ref_path := blob_name id; ref_size := len data;
                       ref_checksum := crc32 data |}) Q E s') ->
  wp (bind (writeBlobFile (blob_name id) data) k) Q E s.
Proof.
  intros Sh Hk. pose proof (shift_inv _ _ _ _ _ _ Sh) as HI.
  apply wp_bind, wp_writeBlobFile. intros s' F1 F2 F3 F4 F5.
  apply Hk; try assumption.
  - eapply shift_trans; [exact Sh|].
    apply shift_blob; try assumption; [exact (sh_tidy _ _ _ _ _ _ Sh)|].
    intros name Hne. rewrite F5. apply Map_get_set_other. exact Hne.
  - rewrite F5. apply Map_get_set_same.
Qed.

Lemma wp_x_deleteBlob {R} (T : Tiles) (k : unit -> Eng R) Q E s :
  shift T0 id A s0 T s ->
  (forall s', shift T0 id A s0 T s' ->
              file s' = file s -> freeList s' = freeList s ->
              header s' = header s ->
              wp (k tt) Q E s') ->
  wp (bind (deleteBlob (blob_name id)) k) Q E s.
Proof.
  intros Sh Hk. pose proof (shift_inv _ _ _ _ _ _ Sh) as HI.
  apply wp_bind. unfold deleteBlob. apply wp_bind, wp_gets.
  destruct (Map_has (blobFiles s) (blob_name id)); cbn [when].
  - apply wp_modify. apply Hk; try reflexivity.
    eapply shift_trans; [exact Sh|].
    apply shift_blob; try reflexivity; try assumption;
      [exact (sh_tidy _ _ _ _ _ _ Sh)|].
    intros name Hne. cbn [blobFiles set_diskWrites set_blobFiles].
    apply Map_get_delete_other. congruence.
  - apply wp_ret. apply Hk; try reflexivity. exact Sh.
Qed.

(** A write into a slot that is there. *)
Lemma wp_x_writeSlot {R} (T : Tiles) (o sz : Z) (d : Uint8Array) (isBlob : bool)
      (k : unit -> Eng R) Q E s :
  shift T0 id A s0 T s -> In (o, sz) T -> In o A ->
  len d + SLOT_HEADER_SIZE <= sz ->
  (forall s', shift T0 id A s0 T s' -> rewritten T s o sz d s' ->
              wp (k tt) Q E s') ->
  wp (bind (writeSlot o d sz isBlob) k) Q E s.
Proof.
  intros Sh Hin HA Hfit Hk. pose proof (shift_inv _ _ _ _ _ _ Sh) as HI.
  apply wp_bind. apply (wp_writeSlot_tile T); [exact HI|exact Hin|exact Hfit|].
  intros s' Rw. apply Hk; [|exact Rw].
  eapply shift_trans; [exact Sh|].
  apply (shift_rewritten T id A s s' o sz d); try assumption.
  exact (sh_tidy _ _ _ _ _ _ Sh).
Qed.

(** Allocate, write, advance. *)
Lemma wp_x_place {R} (T : Tiles) (d : Uint8Array) (isBlob : bool)
      (k : SlabAllocation -> Eng R) Q E s :
  shift T0 id A s0 T s -> len d + 4112 <= 2 ^ 32 ->
  (forall a T' s',
      shift T0 id A s0 T' s' -> placed True T s d a T' s' ->
      (In (alloc_offset a) A \/ forall sz, ~ In (alloc_offset a, sz) T) ->
      ~ In (alloc_offset a) (map free_offset (freeList s')) ->
      wp (k a) Q E s') ->
  wp (allocation <- allocateSlot (len d) ;;
      writeSlot (alloc_offset allocation) d (alloc_slabSize allocation) isBlob ;;
      advance allocation ;;
      k allocation) Q E s.
Proof.
  intros Sh Hd Hk. pose proof (shift_inv _ _ _ _ _ _ Sh) as HI.
  apply (wp_place_then T id A); [exact HI|exact (sh_tidy _ _ _ _ _ _ Sh)|exact Hd|].
  intros a T' s' P Sh' Hw Ht. apply (Hk a T'); try assumption.
  eapply shift_trans; eassumption.
Qed.
End Pieces.

Section StoredOps.
Context `{rt : Runtime}.

Lemma wp_x_meta_acc {R} (T0 : Tiles) (id : string) (A : list Z)
      (s0 : StorageEngine) (T : Tiles) (sb : StorageEngine)
      (c : Eng unit) (k : unit -> Eng R) Q E s :
  metadata_only c -> shift T0 id A s0 T s -> meta_step sb s ->
  (forall s', shift T0 id A s0 T s' -> meta_step sb s' -> wp (k tt) Q E s') ->
  wp (bind c k) Q E s.
Proof.
  intros Hc Sh M Hk. apply (wp_x_meta T0 id A s0 T); [exact Hc|exact Sh|].
  intros s' Sh' M'. apply Hk; [exact Sh'|].
  eapply meta_step_trans; eassumption.
Qed.

Lemma wp_x_meta_acc_last (T0 : Tiles) (id : string) (A : list Z)
      (s0 : StorageEngine) (T : Tiles) (sb : StorageEngine)
      (c : Eng unit) Q E s :
  metadata_only c -> shift T0 id A s0 T s -> meta_step sb s ->
  (forall s', shift T0 id A s0 T s' -> meta_step sb s' -> Q tt s') ->
  wp c Q E s.
Proof.
  intros Hc Sh M Hk. apply (wp_x_meta_last T0 id A s0 T); [exact Hc|exact Sh|].
  intros s' Sh' M'. apply Hk; [exact Sh'|].
  eapply meta_step_trans; eassumption.
Qed.

(** The record of a stored document, from the steps that stored it. *)
Lemma stored_intro (T0 T' : Tiles) (id : string) (data : Document) (A : list Z)
      (s0 s1 s2 : StorageEngine) (o sz : Z) :
  let payload := slot_payload (blobThreshold s0) id data in
  let isBlob := len (encodeDocument data) >? blobThreshold s0 in
  shift T0 id A s0 T' s1 ->
  In (o, sz) T' ->
  readSlot_in (file s1) o (len payload) = Ok payload ->
  meta_step s1 s2 ->
  (isBlob = true ->
   Map_get (blobFiles s1) (blob_name id) = Some (encodeDocument data)) ->
  len payload + SLOT_HEADER_SIZE <= sz ->
  len payload < 2 ^ 32 ->
  In o A \/ (forall sz', ~ In (o, sz') T0) ->
  ~ In o (map free_offset (freeList s1)) ->
  stored T0 id data A s0 (mkLocation o (len payload) sz isBlob) T' s2.
Proof.
  intros payload isBlob Sh Hin Hslot M Hfile Hfit Hsmall Hwhere Htaken.
  pose proof (shift_inv _ _ _ _ _ _ Sh) as HI1.
  pose proof (written_intro True T0 T' s0 s1 s2 id data o sz
                (sh_moved _ _ _ _ _ _ Sh) Hin (fun _ => Hslot) M Hfile) as W.
  constructor; cbn [loc_offset loc_length loc_slabSize loc_isBlob tile_of].
  - eapply shift_trans; [exact Sh|].
    apply shift_meta; [exact HI1|exact (sh_tidy _ _ _ _ _ _ Sh)|exact M].
  - exact Hin.
  - apply (wr_holds _ _ _ _ _ _ _ _ W). exact Hsmall.
  - exact Hfit.
  - exact Hwhere.
  - destruct M as (F & _). rewrite F. exact Htaken.
Qed.

Lemma not_in_grown (T0 T : Tiles) (o : Z) :
  grows True T0 T -> (forall sz, ~ In (o, sz) T) -> forall sz, ~ In (o, sz) T0.
Proof.
  intros G H sz Hin. apply (H sz). apply (grows_in True T0); assumption.
Qed.

Lemma where_grown (T0 T : Tiles) (A : list Z) (o : Z) :
  grows True T0 T ->
  In o A \/ (forall sz, ~ In (o, sz) T) ->
  In o A \/ (forall sz, ~ In (o, sz) T0).
Proof.
  intros G [H|H]; [left; exact H|right]. eapply not_in_grown; eassumption.
Qed.

Lemma placed_fits (B : Prop) (T T' : Tiles) (s s' : StorageEngine)
      (d : Uint8Array) (a : SlabAllocation) :
  placed B T s d a T' s' -> len d + SLOT_HEADER_SIZE <= alloc_slabSize a.
Proof.
  intros P. pose proof (pl_size _ _ _ _ _ _ _ P).
  pose proof (selectSlabSize_fits (len d)). lia.
Qed.

Ltac x_meta :=
  lazymatch goal with
  | |- wp (bind _ _) _ _ ?s =>
      lazymatch goal with
      | Sh : shift _ _ _ _ _ s, M : meta_step _ s |- _ =>
          let s' := fresh "s" in
          let Sh' := fresh "Sh" in
          let M' := fresh "M" in
          eapply wp_x_meta_acc;
          [solve [auto with metadata]|exact Sh|exact M|];
          clear Sh M; intros s' Sh' M'
      end
  end.

(** [writeUnlocked] stores the document and leaves the rest alone. *)
Lemma wp_write_stored (T : Tiles) (id : string) (data : Document) (A : list Z)
      Q E s :
  Inv T s -> tidy A s ->
  payload_small (blobThreshold s) id data ->
  (forall loc T' s', stored T id data A s loc T' s' -> Q loc s') ->
  wp (writeUnlocked id data) Q E s.
Proof.
  intros HI HT Hsmall HQ. unfold writeUnlocked. apply wp_bind, wp_gets.
  pose proof (stored_intro T) as W.
  specialize (W) with (id := id) (data := data) (A := A) (s0 := s).
  cbv zeta in W. unfold payload_small in Hsmall. unfold slot_payload in W, Hsmall.
  pose proof (shift_refl T id A s HI HT) as Sh.
  destruct (len (encodeDocument data) >? blobThreshold s) eqn:Eb.
  - unfold writeBlobForInsertUnlocked.
    apply (wp_x_writeBlobFile T id A s T); [exact Sh|].
    clear Sh. intros s1 Sh F1 F2 F3 F4.
    apply wp_bind. unfold writeBlobReferenceSlot. cbv zeta.
    apply (wp_x_place T id A s T); [exact Sh|lia|].
    intros a T' s2 Sh2 P Hw Ht. apply wp_ret. cbn [fst].
    pose proof (meta_step_refl s2) as M. pose proof Sh2 as Base.
    repeat x_meta. apply wp_ret. apply (HQ _ T').
    eapply (W T' s2);
      [exact Sh2|exact (pl_tile _ _ _ _ _ _ _ P)
      |apply (pl_slot _ _ _ _ _ _ _ P); lia|eassumption
      |intros _; rewrite (pl_blobs _ _ _ _ _ _ _ P); exact F4
      |eapply placed_fits; exact P|lia|exact Hw|exact Ht].
  - apply (wp_x_place T id A s T); [exact Sh|lia|].
    intros a T' s2 Sh2 P Hw Ht.
    pose proof (meta_step_refl s2) as M. pose proof Sh2 as Base.
    repeat x_meta. apply wp_ret. apply (HQ _ T').
    eapply (W T' s2);
      [exact Sh2|exact (pl_tile _ _ _ _ _ _ _ P)
      |apply (pl_slot _ _ _ _ _ _ _ P); lia|eassumption
      |discriminate
      |eapply placed_fits; exact P|lia|exact Hw|exact Ht].
Qed.

Lemma wp_readBlobReference_holds (s : StorageEngine) (loc : DocumentLocation)
      (id : string) (data : Document) Q E :
  holds s loc id data -> round_trips (blobThreshold s) id data ->
  loc_isBlob loc = true ->
  Q {| ref_path := blob_name id; ref_size := len (encodeDocument data);
       ref_checksum := crc32 (encodeDocument data) |} s ->
  wp (readBlobReference (loc_offset loc) (loc_length loc)) Q E s.
Proof.
  intros [H1 H2 H3 H4] [_ Hrt] Hb HQ. rewrite Hb in H2. symmetry in H2.
  unfold readBlobReference, readSlot. apply wp_bind, wp_pure_result.
  rewrite H3. rewrite (Hrt H2). apply wp_ret. exact HQ.
Qed.

(** [updateUnlocked] stores the document and leaves the rest alone. *)
Lemma wp_update_stored (T : Tiles) (id : string) (data olddata : Document)
      (old : DocumentLocation) (A : list Z) Q E s :
  Inv T s -> tidy A s ->
  In (tile_of old) T -> In (loc_offset old) A ->
  ~ In (loc_offset old) (map free_offset (freeList s)) ->
  holds s old id olddata -> round_trips (blobThreshold s) id olddata ->
  payload_small (blobThreshold s) id data ->
  (forall loc T' s', stored T id data A s loc T' s' -> Q loc s') ->
  wp (updateUnlocked id data old) Q E s.
Proof.
  intros HI HT Hold HoldA Hfresh Hholds Hrt Hsmall HQ.
  unfold tile_of in Hold.
  unfold updateUnlocked. apply wp_bind, wp_gets.
  pose proof (stored_intro T) as W.
  specialize (W) with (id := id) (data := data) (A := A) (s0 := s).
  cbv zeta in W. unfold payload_small in Hsmall. unfold slot_payload in W, Hsmall.
  pose proof (shift_refl T id A s HI HT) as Sh.
  destruct (loc_isBlob old) eqn:Eold.
  - (* the old document is a blob *)
    apply wp_bind.
    apply (wp_readBlobReference_holds s old id olddata); try assumption.
    cbn [ref_size ref_path].
    destruct (len (encodeDocument data) >? blobThreshold s) eqn:Eb.
    + apply wp_bind. unfold updateBlobReferenceUnlocked.
      apply (wp_x_writeBlobFile T id A s T); [exact Sh|].
      clear Sh. intros s1 Sh F1 F2 F3 F4.
      match goal with
      | |- context [?n + SLOT_HEADER_SIZE <=? loc_slabSize old] =>
          destruct (Z.leb_spec (n + SLOT_HEADER_SIZE) (loc_slabSize old))
            as [Hfit|Hbig]
      end.
      * apply (wp_x_writeSlot T id A s T); [exact Sh|exact Hold|exact HoldA|exact Hfit|].
        intros s2 Sh2 Rw. apply wp_ret.
        pose proof (meta_step_refl s2) as M. pose proof Sh2 as Base.
        repeat x_meta. apply wp_ret. apply (HQ _ T).
        eapply (W T s2);
          [exact Sh2|exact Hold|apply (rw_slot _ _ _ _ _ _ Rw); lia|eassumption
          |intros _; rewrite (rw_blobs _ _ _ _ _ _ Rw); exact F4
          |exact Hfit|lia|left; exact HoldA
          |rewrite (rw_free _ _ _ _ _ _ Rw), F2; exact Hfresh].
      * apply (wp_x_markSlotFree T id A s T _ (loc_slabSize old));
          [exact Sh|exact Hold|exact HoldA|].
        clear Sh. intros s2 Sh (G1 & G2 & G3 & G4 & G5 & G6 & G7).
        apply (wp_x_freeList_add T id A s T); [exact Sh|exact Hold|exact HoldA| |].
        { rewrite G2, F2. exact Hfresh. }
        clear Sh. intros Sh.
        apply (wp_x_place T id A s T); [exact Sh|lia|].
        intros a T' s3 Sh3 P Hw Ht. apply wp_ret.
        pose proof (meta_step_refl s3) as M. pose proof Sh3 as Base.
        repeat x_meta. apply wp_ret. apply (HQ _ T').
        eapply (W T' s3);
          [exact Sh3|exact (pl_tile _ _ _ _ _ _ _ P)
          |apply (pl_slot _ _ _ _ _ _ _ P); lia|eassumption
          |intros _; rewrite (pl_blobs _ _ _ _ _ _ _ P);
           cbn [blobFiles set_freeList]; rewrite G3; exact F4
          |eapply placed_fits; exact P|lia|exact Hw|exact Ht].
    + apply (wp_x_deleteBlob T id A s T); [exact Sh|].
      clear Sh. intros s1 Sh F1 F2 F3.
      apply (wp_x_markSlotFree T id A s T _ (loc_slabSize old));
        [exact Sh|exact Hold|exact HoldA|].
      clear Sh. intros s2 Sh (G1 & G2 & G3 & G4 & G5 & G6 & G7).
      apply (wp_x_freeList_add T id A s T); [exact Sh|exact Hold|exact HoldA| |].
      { rewrite G2, F2. exact Hfresh. }
      clear Sh. intros Sh.
      apply (wp_x_place T id A s T); [exact Sh|lia|].
      intros a T' s3 Sh3 P Hw Ht.
      pose proof (meta_step_refl s3) as M. pose proof Sh3 as Base.
      repeat x_meta. apply wp_ret. apply (HQ _ T').
      eapply (W T' s3);
        [exact Sh3|exact (pl_tile _ _ _ _ _ _ _ P)
        |apply (pl_slot _ _ _ _ _ _ _ P); lia|eassumption
        |discriminate
        |eapply placed_fits; exact P|lia|exact Hw|exact Ht].
  - destruct (len (encodeDocument data) >? blobThreshold s) eqn:Eb.
    + (* an inline document becomes a blob *)
      apply (wp_x_markSlotFree T id A s T _ (loc_slabSize old));
        [exact Sh|exact Hold|exact HoldA|].
      clear Sh. intros s2 Sh (G1 & G2 & G3 & G4 & G5 & G6 & G7).
      apply (wp_x_freeList_add T id A s T); [exact Sh|exact Hold|exact HoldA| |].
      { rewrite G2. exact Hfresh. }
      clear Sh. intros Sh.
      apply wp_bind. unfold writeBlobForUpdateUnlocked.
      apply (wp_x_writeBlobFile T id A s T); [exact Sh|].
      clear Sh. intros s3 Sh F1 F2 F3 F4.
      apply wp_bind. unfold writeBlobReferenceSlot. cbv zeta.
      apply (wp_x_place T id A s T); [exact Sh|lia|].
      intros a T' s4 Sh4 P Hw Ht. apply wp_ret. apply wp_ret. cbn [fst].
      pose proof (meta_step_refl s4) as M. pose proof Sh4 as Base.
      repeat x_meta. apply wp_ret. apply (HQ _ T').
      eapply (W T' s4);
        [exact Sh4|exact (pl_tile _ _ _ _ _ _ _ P)
        |apply (pl_slot _ _ _ _ _ _ _ P); lia|eassumption
        |intros _; rewrite (pl_blobs _ _ _ _ _ _ _ P); exact F4
        |eapply placed_fits; exact P|lia|exact Hw|exact Ht].
    + match goal with
      | |- context [?n + SLOT_HEADER_SIZE <=? loc_slabSize old] =>
          destruct (Z.leb_spec (n + SLOT_HEADER_SIZE) (loc_slabSize old))
            as [Hfit|Hbig]
      end.
      * (* rewritten in place *)
        apply (wp_x_writeSlot T id A s T); [exact Sh|exact Hold|exact HoldA|exact Hfit|].
        intros s2 Sh2 Rw.
        pose proof (meta_step_refl s2) as M. pose proof Sh2 as Base.
        repeat x_meta. apply wp_ret. apply (HQ _ T).
        eapply (W T s2);
          [exact Sh2|exact Hold|apply (rw_slot _ _ _ _ _ _ Rw); lia|eassumption
          |discriminate
          |exact Hfit|lia|left; exact HoldA
          |rewrite (rw_free _ _ _ _ _ _ Rw); exact Hfresh].
      * (* relocated *)
        apply (wp_x_markSlotFree T id A s T _ (loc_slabSize old));
          [exact Sh|exact Hold|exact HoldA|].
        clear Sh. intros s2 Sh (G1 & G2 & G3 & G4 & G5 & G6 & G7).
        apply (wp_x_freeList_add T id A s T); [exact Sh|exact Hold|exact HoldA| |].
        { rewrite G2. exact Hfresh. }
        clear Sh. intros Sh.
        apply (wp_x_place T id A s T); [exact Sh|lia|].
        intros a T' s3 Sh3 P Hw Ht.
        pose proof (meta_step_refl s3) as M. pose proof Sh3 as Base.
        repeat x_meta. apply wp_ret. apply (HQ _ T').
        eapply (W T' s3);
          [exact Sh3|exact (pl_tile _ _ _ _ _ _ _ P)
          |apply (pl_slot _ _ _ _ _ _ _ P); lia|eassumption
          |discriminate
          |eapply placed_fits; exact P|lia|exact Hw|exact Ht].
Qed.

(** [deleteUnlocked] frees the slot and leaves the rest alone. *)
Lemma wp_delete_shift (T : Tiles) (id : string) (olddata : Document)
      (old : DocumentLocation) (A : list Z) Q E s :
  Inv T s -> tidy A s ->
  In (tile_of old) T -> In (loc_offset old) A ->
  ~ In (loc_offset old) (map free_offset (freeList s)) ->
  holds s old id olddata -> round_trips (blobThreshold s) id olddata ->
  (forall s', shift T id A s T s' -> Q tt s') ->
  wp (deleteUnlocked old) Q E s.
Proof.
  intros HI HT Hold HoldA Hfresh Hholds Hrt HQ.
  unfold tile_of in Hold. unfold deleteUnlocked.
  pose proof (shift_refl T id A s HI HT) as Sh.
  assert (Hrest : forall s1, shift T id A s T s1 -> freeList s1 = freeList s ->
            wp (markSlotFree (loc_offset old) ;;
                freeList_add (mkFreeSlot (loc_offset old) (loc_slabSize old)) ;;
                modify_header (fun h => set_documentCount (documentCount h - 1) h) ;;
                markMetadataDirty ;;
                flushIfNotBatching) Q E s1).
  { clear Sh. intros s1 Sh F.
    apply (wp_x_markSlotFree T id A s T _ (loc_slabSize old));
      [exact Sh|exact Hold|exact HoldA|].
    clear Sh. intros s2 Sh (G1 & G2 & G3 & G4 & G5 & G6 & G7).
    apply (wp_x_freeList_add T id A s T); [exact Sh|exact Hold|exact HoldA| |].
    { rewrite G2, F. exact Hfresh. }
    clear Sh. intros Sh.
    match goal with
    | |- wp _ _ _ ?s3 => pose proof (meta_step_refl s3) as M
    end.
    repeat x_meta.
    eapply wp_x_meta_acc_last; [solve [auto with metadata]|eassumption|eassumption|].
    intros s' Sh' _. apply HQ. exact Sh'. }
  apply wp_bind. destruct (loc_isBlob old) eqn:Eold.
  - apply wp_bind.
    apply (wp_readBlobReference_holds s old id olddata); try assumption.
    cbn [ref_size ref_path].
    apply (wp_x_deleteBlob T id A s T); [exact Sh|].
    clear Sh. intros s1 Sh F1 F2 F3.
    apply (wp_x_meta_last T id A s T);
      [solve [auto with metadata]|exact Sh|].
    intros s2 Sh2 M. apply Hrest; [exact Sh2|].
    destruct M as (F & _). congruence.
  - apply (wp_x_meta_last T id A s T);
      [solve [auto with metadata]|exact Sh|].
    intros s2 Sh2 M. apply Hrest; [exact Sh2|].
    destruct M as (F & _). congruence.
Qed.
End StoredOps.

(* ------------------------------------------------------------------ *)
(** ** The collection as a map from ids to documents *)

Lemma la_trips `{rt : Runtime} (T : Tiles) (d : Docs) (c : Collection) :
  Laid T d c ->
  forall id data,
    Map_get d id = Some data -> round_trips (blobThreshold (storage c)) id data.
Proof. intros L id data Hget. exact (proj1 (la_ok _ _ _ L id data Hget)). Qed.

Section MapMore.
Context {V W : Type}.

Lemma Map_keys_set_eq (m : JSMap V) (m' : JSMap W) (k : string) (v : V) (w : W) :
  Map_keys m = Map_keys m' ->
  Map_keys (Map_set m k v) = Map_keys (Map_set m' k w).
Proof.
  revert m'. induction m as [|[k0 v0] m IH]; intros [|[k1 w1] m'] H;
    cbn [Map_keys map fst] in H; try discriminate.
  - reflexivity.
  - injection H as <- H. cbn [Map_set].
    destruct (String.eqb k0 k); cbn [Map_keys map fst].
    + f_equal. exact H.
    + f_equal. apply IH. exact H.
Qed.

Lemma Map_keys_delete_eq (m : JSMap V) (m' : JSMap W) (k : string) :
  Map_keys m = Map_keys m' ->
  Map_keys (Map_delete m k) = Map_keys (Map_delete m' k).
Proof.
  revert m'. induction m as [|[k0 v0] m IH]; intros [|[k1 w1] m'] H;
    cbn [Map_keys map fst] in H; try discriminate.
  - reflexivity.
  - injection H as <- H. cbn [Map_delete].
    destruct (String.eqb k0 k); cbn [Map_keys map fst].
    + exact H.
    + f_equal. apply IH. exact H.
Qed.

Lemma Map_has_keys (m : JSMap V) (m' : JSMap W) (k : string) :
  Map_keys m = Map_keys m' -> Map_has m k = Map_has m' k.
Proof.
  unfold Map_has.
  revert m'. induction m as [|[k0 v0] m IH]; intros [|[k1 w1] m'] H;
    cbn [Map_keys map fst] in H; try discriminate.
  - reflexivity.
  - injection H as <- H. cbn [Map_get].
    destruct (String.eqb k0 k); [reflexivity|apply IH; exact H].
Qed.
End MapMore.

Lemma Map_get_delete_sub {V} (m : JSMap V) (k0 k : string) (v : V) :
  NoDup (Map_keys m) -> Map_get (Map_delete m k0) k = Some v ->
  Map_get m k = Some v /\ k <> k0.
Proof.
  intros HN H. destruct (String.eqb_spec k k0) as [->|Hne].
  - rewrite Map_get_delete_same in H by exact HN. discriminate.
  - rewrite Map_get_delete_other in H by congruence. split; assumption.
Qed.

Lemma Map_has_get {V} (m : JSMap V) (k : string) :
  Map_has m k = match Map_get m k with Some _ => true | None => false end.
Proof. reflexivity. Qed.

Lemma length_append (a b : string) :
  String.length (a ++ b) = (String.length a + String.length b)%nat.
Proof.
  induction a as [|x a IH]; cbn [append String.length]; [reflexivity|].
  rewrite IH. reflexivity.
Qed.

Lemma append_cancel_r (a b c : string) :
  (a ++ c)%string = (b ++ c)%string -> a = b.
Proof.
  revert b. induction a as [|x a IH]; intros [|y b] H; cbn [append] in H.
  - reflexivity.
  - exfalso. apply (f_equal String.length) in H.
    cbn [String.length] in H. rewrite length_append in H. lia.
  - exfalso. apply (f_equal String.length) in H.
    cbn [String.length] in H. rewrite length_append in H. lia.
  - injection H as -> H. f_equal. apply IH. exact H.
Qed.

Lemma blob_name_inj (id id' : string) : blob_name id = blob_name id' -> id = id'.
Proof. unfold blob_name. apply append_cancel_r. Qed.

(** The slots stay below 4 GiB over a storage operation. *)
Lemma small_moved (T T' : Tiles) (s s' : StorageEngine) :
  moved True T s T' s' -> Forall small T -> Forall small T'.
Proof.
  intros [(N & -> & HN) _ _ _ _] HT. apply Forall_app. split; [exact HT|exact (HN I)].
Qed.

Section Frames.
Context `{rt : Runtime}.

(** A document at a slot that a step leaves alone is still held. *)
Lemma holds_shift (T T' : Tiles) (id id' : string) (A : list Z)
      (s s' : StorageEngine) (loc : DocumentLocation) (data : Document) :
  shift T id A s T' s' -> Inv T s ->
  id' <> id -> In (tile_of loc) T -> ~ In (loc_offset loc) A ->
  loc_length loc + SLOT_HEADER_SIZE <= loc_slabSize loc ->
  holds s loc id' data -> holds s' loc id' data.
Proof.
  intros Sh HI Hne Hin HA Hfit [H1 H2 H3 H4].
  pose proof (mv_thr _ _ _ _ _ (sh_moved _ _ _ _ _ _ Sh)) as Hthr.
  constructor; rewrite ?Hthr; try assumption.
  - rewrite <- H3. apply readSlot_in_frame.
    apply (sh_file _ _ _ _ _ _ Sh _ (loc_slabSize loc)); [exact Hin|exact HA|].
    rewrite H1. pose proof (len_nonneg (slot_payload (blobThreshold s) id' data)).
    rewrite H1 in Hfit. unfold SLOT_HEADER_SIZE in *. lia.
  - intros Hb. rewrite (sh_blobs _ _ _ _ _ _ Sh); [exact (H4 Hb)|].
    intros Heq. apply blob_name_inj in Heq. contradiction.
Qed.

(** The same for a state that differs in counters only. *)
Lemma holds_same (s s' : StorageEngine) (loc : DocumentLocation) (id : string)
      (data : Document) :
  file s' = file s -> blobThreshold s' = blobThreshold s ->
  blobFiles s' = blobFiles s ->
  holds s loc id data -> holds s' loc id data.
Proof.
  intros F Th Bl [H1 H2 H3 H4]. constructor; rewrite ?F, ?Th, ?Bl; assumption.
Qed.
End Frames.

Section LaidSteps.
Context `{rt : Runtime}.

(** The slot of another document is none of the slots a step may use. *)
Lemma other_slot_unused (T : Tiles) (d : Docs) (c : Collection)
      (id id' : string) (loc' : DocumentLocation) (olds : list Z) :
  Laid T d c ->
  (forall o, In o olds ->
             exists old, Map_get (primaryIndex (indexManager c)) id = Some old /\
                         loc_offset old = o) ->
  id' <> id ->
  Map_get (primaryIndex (indexManager c)) id' = Some loc' ->
  ~ In (loc_offset loc') (map free_offset (freeList (storage c)) ++ olds).
Proof.
  intros L Holds Hne Hget Hin. apply in_app_or in Hin. destruct Hin as [Hin|Hin].
  - exact (la_used _ _ _ L _ _ Hget Hin).
  - destruct (Holds _ Hin) as (old & Hold & Heq).
    exact (la_apart _ _ _ L id' id loc' old Hne Hget Hold (eq_sym Heq)).
Qed.

Lemma Laid_after_store (T T' : Tiles) (d : Docs) (c : Collection)
      (id : string) (data : Document) (loc : DocumentLocation)
      (s' : StorageEngine) (m' : IndexManager) (olds : list Z) :
  Laid T d c ->
  stored T id data (map free_offset (freeList (storage c)) ++ olds)
    (storage c) loc T' s' ->
  (forall o, In o olds ->
             exists old, Map_get (primaryIndex (indexManager c)) id = Some old /\
                         loc_offset old = o) ->
  doc_ok (blobThreshold (storage c)) id data ->
  primaryIndex m' = Map_set (primaryIndex (indexManager c)) id loc ->
  Laid T' (Map_set d id data) (set_indexManager m' (set_storage s' c)).
Proof.
  intros L St Holds Hrt Hm.
  pose proof (la_cinv _ _ _ L) as HC.
  pose proof (so_shift _ _ _ _ _ _ _ _ St) as Sh.
  pose proof (sh_moved _ _ _ _ _ _ Sh) as Mv.
  pose proof (CInv_storage True T T' c s' HC Mv) as HC1.
  assert (Hother : forall id' loc',
             id' <> id ->
             Map_get (primaryIndex (indexManager c)) id' = Some loc' ->
             loc_offset loc' <> loc_offset loc).
  { intros id' loc' Hne Hget Heq.
    destruct (so_where _ _ _ _ _ _ _ _ St) as [Hw|Hw].
    - rewrite <- Heq in Hw.
      exact (other_slot_unused T d c id id' loc' olds L Holds Hne Hget Hw).
    - apply (Hw (loc_slabSize loc')). rewrite <- Heq.
      exact (CInv_index _ _ _ _ HC Hget). }
  constructor; cbn [storage indexManager set_indexManager set_storage];
    rewrite ?Hm.
  - apply CInv_set_index; [exact HC1|]. rewrite Hm.
    apply (Forall_Map_set (fun l => In (tile_of l) T'));
      [exact (ci_index _ _ HC1)|exact (so_tile _ _ _ _ _ _ _ _ St)].
  - exact (proj1 (sh_tidy _ _ _ _ _ _ Sh)).
  - apply Map_keys_set_eq. exact (la_keys _ _ _ L).
  - apply NoDup_Map_set. exact (la_nodup _ _ _ L).
  - intros id' loc' Hget.
    destruct (String.eqb_spec id' id) as [->|Hne].
    + rewrite Map_get_set_same in Hget. injection Hget as <-.
      exists data. rewrite Map_get_set_same. split; [reflexivity|split].
      * exact (so_holds _ _ _ _ _ _ _ _ St).
      * exact (so_fits _ _ _ _ _ _ _ _ St).
    + rewrite Map_get_set_other in Hget by exact Hne.
      destruct (la_holds _ _ _ L _ _ Hget) as (data' & Hd & Hh & Hfit).
      exists data'. rewrite Map_get_set_other by exact Hne.
      split; [exact Hd|split; [|exact Hfit]].
      eapply holds_shift; try eassumption.
      * exact (ci_inv _ _ HC).
      * exact (CInv_index _ _ _ _ HC Hget).
      * exact (other_slot_unused T d c id id' loc' olds L Holds Hne Hget).
  - intros id1 id2 loc1 loc2 Hne H1 H2.
    destruct (String.eqb_spec id1 id) as [->|N1];
      destruct (String.eqb_spec id2 id) as [->|N2].
    + contradiction.
    + rewrite Map_get_set_same in H1. injection H1 as <-.
      rewrite Map_get_set_other in H2 by exact N2.
      intros Heq. exact (Hother id2 loc2 N2 H2 (eq_sym Heq)).
    + rewrite Map_get_set_same in H2. injection H2 as <-.
      rewrite Map_get_set_other in H1 by exact N1.
      exact (Hother id1 loc1 N1 H1).
    + rewrite Map_get_set_other in H1 by exact N1.
      rewrite Map_get_set_other in H2 by exact N2.
      exact (la_apart _ _ _ L id1 id2 loc1 loc2 Hne H1 H2).
  - intros id' loc' Hget.
    destruct (String.eqb_spec id' id) as [->|Hne].
    + rewrite Map_get_set_same in Hget. injection Hget as <-.
      exact (so_taken _ _ _ _ _ _ _ _ St).
    + rewrite Map_get_set_other in Hget by exact Hne.
      intros Hin. apply in_map_iff in Hin. destruct Hin as (x & Hx & Hin).
      pose proof (proj2 (sh_tidy _ _ _ _ _ _ Sh) x Hin) as HxA.
      rewrite Hx in HxA.
      exact (other_slot_unused T d c id id' loc' olds L Holds Hne Hget HxA).
  - intros id' data' Hget. rewrite (mv_thr _ _ _ _ _ Mv).
    destruct (String.eqb_spec id' id) as [->|Hne].
    + rewrite Map_get_set_same in Hget. injection Hget as <-. exact Hrt.
    + rewrite Map_get_set_other in Hget by exact Hne.
      exact (la_ok _ _ _ L _ _ Hget).
  - exact (small_moved _ _ _ _ Mv (la_small _ _ _ L)).
Qed.

Lemma Laid_after_delete (T : Tiles) (d : Docs) (c : Collection)
      (id : string) (old : DocumentLocation)
      (s' : StorageEngine) (m' : IndexManager) :
  Laid T d c ->
  Map_get (primaryIndex (indexManager c)) id = Some old ->
  shift T id (map free_offset (freeList (storage c)) ++ [loc_offset old])
    (storage c) T s' ->
  primaryIndex m' = Map_delete (primaryIndex (indexManager c)) id ->
  Laid T (Map_delete d id) (set_indexManager m' (set_storage s' c)).
Proof.
  intros L Hold Sh Hm.
  pose proof (la_cinv _ _ _ L) as HC.
  pose proof (sh_moved _ _ _ _ _ _ Sh) as Mv.
  pose proof (CInv_storage True T T c s' HC Mv) as HC1.
  assert (HNk : NoDup (Map_keys (primaryIndex (indexManager c))))
    by (rewrite (la_keys _ _ _ L); exact (la_nodup _ _ _ L)).
  assert (Holds : forall o, In o [loc_offset old] ->
             exists old', Map_get (primaryIndex (indexManager c)) id = Some old' /\
                          loc_offset old' = o).
  { intros o [<-|[]]. exists old. split; [exact Hold|reflexivity]. }
  constructor; cbn [storage indexManager set_indexManager set_storage];
    rewrite ?Hm.
  - apply CInv_set_index; [exact HC1|]. rewrite Hm.
    apply (Forall_Map_delete (fun l => In (tile_of l) T)).
    exact (ci_index _ _ HC1).
  - exact (proj1 (sh_tidy _ _ _ _ _ _ Sh)).
  - apply Map_keys_delete_eq. exact (la_keys _ _ _ L).
  - apply NoDup_Map_delete. exact (la_nodup _ _ _ L).
  - intros id' loc' Hget.
    apply Map_get_delete_sub in Hget; [|exact HNk]. destruct Hget as [Hget Hne].
    destruct (la_holds _ _ _ L _ _ Hget) as (data' & Hd & Hh & Hfit).
    exists data'. rewrite Map_get_delete_other by congruence.
    split; [exact Hd|split; [|exact Hfit]].
    eapply holds_shift; try eassumption.
    + exact (ci_inv _ _ HC).
    + exact (CInv_index _ _ _ _ HC Hget).
    + exact (other_slot_unused T d c id id' loc' _ L Holds Hne Hget).
  - intros id1 id2 loc1 loc2 Hne H1 H2.
    apply Map_get_delete_sub in H1; [|exact HNk].
    apply Map_get_delete_sub in H2; [|exact HNk].
    exact (la_apart _ _ _ L id1 id2 loc1 loc2 Hne (proj1 H1) (proj1 H2)).
  - intros id' loc' Hget.
    apply Map_get_delete_sub in Hget; [|exact HNk]. destruct Hget as [Hget Hne].
    intros Hin. apply in_map_iff in Hin. destruct Hin as (x & Hx & Hin).
    pose proof (proj2 (sh_tidy _ _ _ _ _ _ Sh) x Hin) as HxA.
    rewrite Hx in HxA.
    exact (other_slot_unused T d c id id' loc' _ L Holds Hne Hget HxA).
  - intros id' data' Hget. rewrite (mv_thr _ _ _ _ _ Mv).
    apply Map_get_delete_sub in Hget; [|exact (la_nodup _ _ _ L)].
    exact (la_ok _ _ _ L _ _ (proj1 Hget)).
  - exact (la_small _ _ _ L).
Qed.

(** Changes of the cache, of the secondary indexes and of the counters
    keep the layout. *)
Lemma Laid_same (T : Tiles) (d : Docs) (c c' : Collection) :
  Laid T d c ->
  file (storage c') = file (storage c) ->
  header (storage c') = header (storage c) ->
  freeList (storage c') = freeList (storage c) ->
  blobThreshold (storage c') = blobThreshold (storage c) ->
  blobFiles (storage c') = blobFiles (storage c) ->
  primaryIndex (indexManager c') = primaryIndex (indexManager c) ->
  cache_ok c' ->
  Laid T d c'.
Proof.
  intros [L1 L2 L3 L4 L5 L6 L7 L8 L9] F H Fl Th Bl Pi Hok.
  constructor; rewrite ?Pi, ?Fl, ?Th; try assumption.
  - destruct L1 as [I1 I2 I3]. constructor.
    + apply (Inv_same T (storage c)); assumption.
    + rewrite Pi. exact I2.
    + exact Hok.
  - intros id loc Hget. destruct (L5 id loc Hget) as (data & Hd & Hh & Hfit).
    exists data. split; [exact Hd|split; [|exact Hfit]].
    apply (holds_same (storage c)); assumption.
Qed.

(** A step on the header and the counters keeps the layout. *)
Lemma Laid_meta (T : Tiles) (d : Docs) (c : Collection) (s' : StorageEngine) :
  Laid T d c -> meta_step (storage c) s' -> Laid T d (set_storage s' c).
Proof.
  intros L M. pose proof (la_cinv _ _ _ L) as HC.
  pose proof M as (F & Bl & Th & Nx & Fs & Ln & Fr).
  destruct L as [L1 L2 L3 L4 L5 L6 L7 L8 L9].
  constructor; cbn [storage indexManager set_storage]; rewrite ?F, ?Th;
    try assumption.
  - apply (CInv_storage True T T c s' HC). apply moved_meta; [|exact M].
    exact (ci_inv _ _ HC).
  - intros id loc Hget. destruct (L5 id loc Hget) as (data & Hd & Hh & Hfit).
    exists data. split; [exact Hd|split; [|exact Hfit]].
    apply (holds_meta_step (storage c)); [|exact M|exact Hh].
    pose proof (CInv_index _ _ _ _ HC Hget) as Hin.
    destruct (Inv_tile _ _ _ _ (ci_inv _ _ HC) Hin) as (Ho & _). exact Ho.
Qed.
End LaidSteps.

Section CacheAgrees.
Context `{rt : Runtime}.

Lemma wp_cacheSet_agrees (d : Docs) (id : string) (doc : Document) Q E c :
  cache_ok c ->
  match cache c with
  | Some entries =>
      forall k v, k <> id -> Map_get entries k = Some v -> Map_get d k = Some v
  | None => True
  end ->
  Map_get d id = Some doc ->
  (forall c', storage c' = storage c -> indexManager c' = indexManager c ->
              cache_ok c' -> cache_agrees d c' -> Q tt c') ->
  wp (cacheSet id doc) Q E c.
Proof.
  intros Hok Hag Hd HQ. unfold cacheSet. apply wp_modify. unfold cache_ok in Hok.
  destruct (cache c) as [entries|] eqn:Hc.
  - set (e1 := if Map_has entries id then Map_delete entries id else entries).
    assert (H1 : NoDup (Map_keys e1))
      by (unfold e1; destruct (Map_has entries id);
          [apply NoDup_Map_delete|]; exact Hok).
    assert (G1 : forall k v, k <> id -> Map_get e1 k = Some v -> Map_get d k = Some v).
    { intros k v Hne Hget. apply Hag; [exact Hne|]. unfold e1 in Hget.
      destruct (Map_has entries id); [|exact Hget].
      apply Map_get_delete_sub in Hget; [apply Hget|exact Hok]. }
    set (e2 := Map_set e1 id doc).
    assert (H2 : NoDup (Map_keys e2)) by (apply NoDup_Map_set; exact H1).
    assert (G2 : forall k v, Map_get e2 k = Some v -> Map_get d k = Some v).
    { intros k v Hget. unfold e2 in Hget.
      destruct (String.eqb_spec k id) as [->|Hne].
      - rewrite Map_get_set_same in Hget. congruence.
      - rewrite Map_get_set_other in Hget by exact Hne. exact (G1 k v Hne Hget). }
    apply HQ; try reflexivity; unfold cache_ok, cache_agrees; cbn [cache set_cache].
    + destruct (Map_size e2 >? cacheSize c); [|exact H2].
      generalize (Map_keys e2) at 1. intros [|k ks];
        [exact H2|apply NoDup_Map_delete; exact H2].
    + destruct (Map_size e2 >? cacheSize c); [|exact G2].
      generalize (Map_keys e2). intros [|k0 ks]; [exact G2|].
      intros k v Hget. apply Map_get_delete_sub in Hget; [|exact H2].
      apply G2. apply Hget.
  - apply HQ; try reflexivity; unfold cache_ok, cache_agrees; rewrite Hc; exact I.
Qed.

Lemma wp_cacheDelete_agrees (d : Docs) (id : string) Q E c :
  cache_ok c -> cache_agrees d c ->
  (forall c', storage c' = storage c -> indexManager c' = indexManager c ->
              cache_ok c' -> cache_agrees (Map_delete d id) c' -> Q tt c') ->
  wp (cacheDelete id) Q E c.
Proof.
  intros Hok Hag HQ. unfold cacheDelete. apply wp_modify.
  unfold cache_ok, cache_agrees in *.
  destruct (cache c) as [entries|] eqn:Hc.
  - apply HQ; try reflexivity; unfold cache_ok, cache_agrees; cbn [cache set_cache].
    + apply NoDup_Map_delete. exact Hok.
    + intros k v Hget. apply Map_get_delete_sub in Hget; [|exact Hok].
      destruct Hget as [Hget Hne].
      rewrite Map_get_delete_other by congruence. apply Hag. exact Hget.
  - apply HQ; try reflexivity; unfold cache_ok, cache_agrees; rewrite Hc; exact I.
Qed.

Lemma wp_cacheGet_agrees (d : Docs) (id : string) Q E c :
  cache_ok c -> cache_agrees d c ->
  (forall r c', storage c' = storage c -> indexManager c' = indexManager c ->
                cache_ok c' -> cache_agrees d c' ->
                match r with
                | Some v => Map_get d id = Some v
                | None => True
                end -> Q r c') ->
  wp (cacheGet id) Q E c.
Proof.
  intros Hok Hag HQ. unfold cacheGet. apply wp_bind, wp_gets.
  unfold cache_ok, cache_agrees in *.
  destruct (cache c) as [entries|] eqn:Hc.
  - destruct (Map_get entries id) as [v|] eqn:Hv.
    + destruct (negb (truthy_value v)).
      * apply wp_ret. apply HQ; try reflexivity; try exact I;
          unfold cache_ok, cache_agrees; rewrite Hc; assumption.
      * apply wp_bind, wp_modify. apply wp_ret.
        apply HQ; try reflexivity; unfold cache_ok, cache_agrees;
          cbn [cache set_cache].
        -- apply NoDup_Map_set, NoDup_Map_delete. exact Hok.
        -- intros k w Hget.
           destruct (String.eqb_spec k id) as [->|Hne].
           ++ rewrite Map_get_set_same in Hget. injection Hget as <-.
              apply Hag. exact Hv.
           ++ rewrite Map_get_set_other in Hget by exact Hne.
              apply Map_get_delete_sub in Hget; [|exact Hok].
              apply Hag. apply Hget.
        -- apply Hag. exact Hv.
    + apply wp_ret. apply HQ; try reflexivity; try exact I;
        unfold cache_ok, cache_agrees; rewrite Hc; assumption.
  - apply wp_ret. apply HQ; try reflexivity; try exact I;
      unfold cache_ok, cache_agrees; rewrite Hc; exact I.
Qed.
End CacheAgrees.

Section FullSteps.
Context `{rt : Runtime}.

Lemma read_exact (s : StorageEngine) (loc : DocumentLocation) (id : string)
      (data : Document) :
  holds s loc id data -> round_trips (blobThreshold s) id data ->
  Storage.read loc s = (Ok data, set_docReads (S (docReads s)) s).
Proof.
  intros Hh Hrt. pose proof (read_holds s loc id data Hh Hrt) as H1.
  assert (H2 : snd (Storage.read loc s) = set_docReads (S (docReads s)) s).
  { apply (wp_snd (Storage.read loc) (fun s' => s' = set_docReads (S (docReads s)) s)).
    apply wp_read; intros; reflexivity. }
  destruct (Storage.read loc s) as [r s']. cbn [fst snd] in *. congruence.
Qed.

(** A read of an indexed document gives the document and keeps the
    collection. *)
Lemma wp_read_full (T : Tiles) (d : Docs) (id : string) (loc : DocumentLocation)
      Q E c :
  Laid T d c ->
  Map_get (primaryIndex (indexManager c)) id = Some loc ->
  (forall data c',
      Map_get d id = Some data -> Laid T d c' ->
      cache c' = cache c -> indexManager c' = indexManager c ->
      freeList (storage c') = freeList (storage c) ->
      blobThreshold (storage c') = blobThreshold (storage c) ->
      Q data c') ->
  wp (onStorage (Storage.read loc)) Q E c.
Proof.
  intros L Hget HQ.
  destruct (la_holds _ _ _ L _ _ Hget) as (data & Hd & Hh & Hfit).
  pose proof (la_trips _ _ _ L _ _ Hd) as Hrt.
  apply wp_onStorage. unfold wp. rewrite (read_exact _ _ _ _ Hh Hrt).
  apply (HQ data); try reflexivity; [exact Hd|].
  apply (Laid_same T d c); try reflexivity; [exact L|].
  exact (ci_cache _ _ (la_cinv _ _ _ L)).
Qed.

Lemma tidy_free (s : StorageEngine) (olds : list Z) :
  NoDup (map free_offset (freeList s)) ->
  tidy (map free_offset (freeList s) ++ olds) s.
Proof.
  intros HN. split; [exact HN|]. intros x Hx. apply in_or_app. left.
  apply in_map. exact Hx.
Qed.

(** The tail of an insert: write, add to the index, put in the cache. *)
Lemma wp_insert_full (T : Tiles) (d : Docs) (id : string) (data : Document)
      Q E c :
  Full T d c ->
  Map_get (primaryIndex (indexManager c)) id = None ->
  doc_ok (blobThreshold (storage c)) id data ->
  (forall T' c', Full T' (Map_set d id data) c' ->
                 blobThreshold (storage c') = blobThreshold (storage c) ->
                 Q tt c') ->
  wp (location <- onStorage (writeUnlocked id data) ;;
      onIndex (Index.addDocument id location data) ;;
      cacheSet id data) Q E c.
Proof.
  intros [L Hag] Hnone [Hrt Hsmall] HQ.
  apply wp_bind, wp_onStorage.
  apply (wp_write_stored T id data (map free_offset (freeList (storage c)) ++ []));
    [exact (ci_inv _ _ (la_cinv _ _ _ L))
    |apply tidy_free; exact (la_free _ _ _ L)|exact Hsmall|].
  intros loc T' s' St.
  apply wp_bind. unfold onIndex. apply wp_modify.
  cbn [indexManager set_storage].
  assert (L' : Laid T' (Map_set d id data)
                 (set_indexManager (Index.addDocument id loc data (indexManager c))
                    (set_storage s' c))).
  { apply (Laid_after_store T T' d c id data loc s' _ []); try assumption.
    - intros o [].
    - exact (conj Hrt Hsmall).
    - apply primaryIndex_addDocument. }
  apply (wp_cacheSet_agrees (Map_set d id data)).
  - exact (ci_cache _ _ (la_cinv _ _ _ L')).
  - cbn [cache set_indexManager set_storage]. unfold cache_agrees in Hag.
    destruct (cache c) as [entries|]; [|exact I].
    intros k v Hne Hget. rewrite Map_get_set_other by exact Hne.
    apply Hag. exact Hget.
  - apply Map_get_set_same.
  - intros c' Hs Hi Hok Hag'. apply (HQ T').
    + split; [|exact Hag'].
      apply (Laid_same T' _ _ c' L'); try (rewrite Hs; reflexivity);
        [rewrite Hi; reflexivity|exact Hok].
    + rewrite Hs. cbn [storage set_indexManager set_storage].
      exact (mv_thr _ _ _ _ _ (sh_moved _ _ _ _ _ _ (so_shift _ _ _ _ _ _ _ _ St))).
Qed.

(** The tail of an update: read, write, change the index, put in the
    cache. *)
Lemma wp_update_full (T : Tiles) (d : Docs) (id : string) (data : Document)
      (old : DocumentLocation) Q E c :
  Full T d c ->
  Map_get (primaryIndex (indexManager c)) id = Some old ->
  doc_ok (blobThreshold (storage c)) id data ->
  (forall T' c', Full T' (Map_set d id data) c' ->
                 blobThreshold (storage c') = blobThreshold (storage c) ->
                 Q tt c') ->
  wp (oldData <- onStorage (Storage.read old) ;;
      newLocation <- onStorage (updateUnlocked id data old) ;;
      onIndex (Index.updateDocument id newLocation data (Some oldData)) ;;
      cacheSet id data) Q E c.
Proof.
  intros [L Hag] Hold [Hrt Hsmall] HQ.
  apply wp_bind. apply (wp_read_full T d id old); [exact L|exact Hold|].
  intros olddata c1 Hd L1 Hc1 Hi1 Hf1 Ht1.
  assert (Hold1 : Map_get (primaryIndex (indexManager c1)) id = Some old)
    by (rewrite Hi1; exact Hold).
  destruct (la_holds _ _ _ L1 _ _ Hold1) as (olddata' & Hd' & Hh & Hfit).
  apply wp_bind, wp_onStorage.
  apply (wp_update_stored T id data olddata' old
           (map free_offset (freeList (storage c1)) ++ [loc_offset old]));
    [exact (ci_inv _ _ (la_cinv _ _ _ L1))
    |apply tidy_free; exact (la_free _ _ _ L1)
    |exact (CInv_index _ _ _ _ (la_cinv _ _ _ L1) Hold1)
    |apply in_or_app; right; left; reflexivity
    |exact (la_used _ _ _ L1 _ _ Hold1)
    |exact Hh
    |exact (la_trips _ _ _ L1 _ _ Hd')
    |rewrite Ht1; exact Hsmall|].
  intros loc T' s' St.
  apply wp_bind. unfold onIndex. apply wp_modify.
  cbn [indexManager set_storage].
  assert (L' : Laid T' (Map_set d id data)
                 (set_indexManager
                    (Index.updateDocument id loc data (Some olddata) (indexManager c1))
                    (set_storage s' c1))).
  { apply (Laid_after_store T T' d c1 id data loc s' _ [loc_offset old]);
      try assumption.
    - intros o [<-|[]]. exists old. split; [exact Hold1|reflexivity].
    - rewrite Ht1. exact (conj Hrt Hsmall).
    - apply primaryIndex_updateDocument. }
  apply (wp_cacheSet_agrees (Map_set d id data)).
  - exact (ci_cache _ _ (la_cinv _ _ _ L')).
  - cbn [cache set_indexManager set_storage]. rewrite Hc1.
    unfold cache_agrees in Hag.
    destruct (cache c) as [entries|]; [|exact I].
    intros k v Hne Hget. rewrite Map_get_set_other by exact Hne.
    apply Hag. exact Hget.
  - apply Map_get_set_same.
  - intros c' Hs Hi Hok Hag'. apply (HQ T').
    + split; [|exact Hag'].
      apply (Laid_same T' _ _ c' L'); try (rewrite Hs; reflexivity);
        [rewrite Hi; reflexivity|exact Hok].
    + rewrite Hs. cbn [storage set_indexManager set_storage].
      rewrite (mv_thr _ _ _ _ _ (sh_moved _ _ _ _ _ _ (so_shift _ _ _ _ _ _ _ _ St))).
      exact Ht1.
Qed.

(** The tail of a delete: read, free the slot, drop from the index and
    from the cache. *)
Lemma wp_delete_full (T : Tiles) (d : Docs) (id : string)
      (old : DocumentLocation) Q E c :
  Full T d c ->
  Map_get (primaryIndex (indexManager c)) id = Some old ->
  (forall c', Full T (Map_delete d id) c' ->
              blobThreshold (storage c') = blobThreshold (storage c) ->
              Q true c') ->
  wp (data <- onStorage (Storage.read old) ;;
      onStorage (deleteUnlocked old) ;;
      onIndex (Index.removeDocument id (Some data)) ;;
      cacheDelete id ;;
      ret true) Q E c.
Proof.
  intros [L Hag] Hold HQ.
  apply wp_bind. apply (wp_read_full T d id old); [exact L|exact Hold|].
  intros olddata c1 Hd L1 Hc1 Hi1 Hf1 Ht1.
  assert (Hold1 : Map_get (primaryIndex (indexManager c1)) id = Some old)
    by (rewrite Hi1; exact Hold).
  destruct (la_holds _ _ _ L1 _ _ Hold1) as (olddata' & Hd' & Hh & Hfit).
  apply wp_bind, wp_onStorage.
  apply (wp_delete_shift T id olddata' old
           (map free_offset (freeList (storage c1)) ++ [loc_offset old]));
    [exact (ci_inv _ _ (la_cinv _ _ _ L1))
    |apply tidy_free; exact (la_free _ _ _ L1)
    |exact (CInv_index _ _ _ _ (la_cinv _ _ _ L1) Hold1)
    |apply in_or_app; right; left; reflexivity
    |exact (la_used _ _ _ L1 _ _ Hold1)
    |exact Hh
    |exact (la_trips _ _ _ L1 _ _ Hd')|].
  intros s' Sh.
  apply wp_bind. unfold onIndex. apply wp_modify.
  cbn [indexManager set_storage].
  assert (L' : Laid T (Map_delete d id)
                 (set_indexManager
                    (Index.removeDocument id (Some olddata) (indexManager c1))
                    (set_storage s' c1))).
  { apply (Laid_after_delete T d c1 id old s'); try assumption.
    apply primaryIndex_removeDocument. }
  apply wp_bind.
  apply (wp_cacheDelete_agrees d).
  - exact (ci_cache _ _ (la_cinv _ _ _ L')).
  - unfold cache_agrees in *. cbn [cache set_indexManager set_storage].
    rewrite Hc1. exact Hag.
  - intros c' Hs Hi Hok Hag'. apply wp_ret. apply HQ.
    + split; [|exact Hag'].
      apply (Laid_same T _ _ c' L'); try (rewrite Hs; reflexivity);
        [rewrite Hi; reflexivity|exact Hok].
    + rewrite Hs. cbn [storage set_indexManager set_storage].
      rewrite (mv_thr _ _ _ _ _ (sh_moved _ _ _ _ _ _ Sh)). exact Ht1.
Qed.
End FullSteps.

Section OpSteps.
Context `{rt : Runtime}.

Lemma Full_has (T : Tiles) (d : Docs) (c : Collection) (id : string) :
  Full T d c -> Map_has (primaryIndex (indexManager c)) id = Map_has d id.
Proof. intros [L _]. apply Map_has_keys. exact (la_keys _ _ _ L). Qed.

Lemma Map_has_false {V} (m : JSMap V) (k : string) :
  Map_has m k = false -> Map_get m k = None.
Proof. unfold Map_has. destruct (Map_get m k); [discriminate|reflexivity]. Qed.

Lemma stores_intro (T : Tiles) (d : Docs) (c : Collection) (thr : Z) :
  Full T d c -> blobThreshold (storage c) = thr -> stores thr d c.
Proof. intros F H. split; [exists T; exact F|exact H]. Qed.

Lemma insert_with_stores (thr : Z) (d : Docs) (id : string) (data : Document) c :
  stores thr d c -> doc_ok thr id data ->
  wp (insert_with writeUnlocked id data)
     (fun _ c' => Map_has d id = false /\ stores thr (Map_set d id data) c')
     (fun _ c' => Map_has d id = true /\ stores thr d c') c.
Proof.
  intros [[T F] Hthr] Hok. unfold insert_with. apply wp_bind, wp_gets.
  unfold Index.has. rewrite (Full_has T d c id F).
  destruct (Map_has d id) eqn:Hhas.
  - apply wp_throw. split; [reflexivity|]. exact (stores_intro T d c thr F Hthr).
  - apply (wp_insert_full T d); [exact F| |rewrite Hthr; exact Hok|].
    + apply Map_has_false. rewrite (Full_has T d c id F). exact Hhas.
    + intros T' c' F' Ht. split; [reflexivity|].
      apply (stores_intro T'); [exact F'|congruence].
Qed.

Lemma update_with_stores (thr : Z) (d : Docs) (id : string) (data : Document) c :
  stores thr d c -> doc_ok thr id data ->
  wp (update_with updateUnlocked id data)
     (fun _ c' => Map_has d id = true /\ stores thr (Map_set d id data) c')
     (fun _ c' => Map_has d id = false /\ stores thr d c') c.
Proof.
  intros [[T F] Hthr] Hok. unfold update_with. apply wp_bind, wp_gets.
  unfold Index.getLocation. pose proof (Full_has T d c id F) as Hhas.
  unfold Map_has at 1 in Hhas.
  destruct (Map_get (primaryIndex (indexManager c)) id) as [old|] eqn:Hold.
  - apply (wp_update_full T d); [exact F|exact Hold|rewrite Hthr; exact Hok|].
    intros T' c' F' Ht. split; [symmetry; exact Hhas|].
    apply (stores_intro T'); [exact F'|congruence].
  - apply wp_throw. split; [symmetry; exact Hhas|].
    exact (stores_intro T d c thr F Hthr).
Qed.

Lemma upsert_with_stores (thr : Z) (d : Docs) (id : string) (data : Document)
      E c :
  stores thr d c -> doc_ok thr id data ->
  wp (upsert_with writeUnlocked updateUnlocked id data)
     (fun _ c' => stores thr (Map_set d id data) c') E c.
Proof.
  intros [[T F] Hthr] Hok. unfold upsert_with. apply wp_bind, wp_gets.
  unfold Index.getLocation.
  destruct (Map_get (primaryIndex (indexManager c)) id) as [old|] eqn:Hold.
  - apply (wp_update_full T d); [exact F|exact Hold|rewrite Hthr; exact Hok|].
    intros T' c' F' Ht. apply (stores_intro T'); [exact F'|congruence].
  - apply (wp_insert_full T d); [exact F|exact Hold|rewrite Hthr; exact Hok|].
    intros T' c' F' Ht. apply (stores_intro T'); [exact F'|congruence].
Qed.

Lemma Map_delete_absent {V} (m : JSMap V) (k : string) :
  Map_get m k = None -> Map_delete m k = m.
Proof.
  induction m as [|[k0 v0] m IH]; cbn [Map_get Map_delete]; [reflexivity|].
  destruct (String.eqb k0 k); [discriminate|]. intros H. rewrite IH by exact H.
  reflexivity.
Qed.

Lemma delete_with_stores (thr : Z) (d : Docs) (id : string) E c :
  stores thr d c ->
  wp (delete_with deleteUnlocked id)
     (fun r c' => r = Map_has d id /\ stores thr (Map_delete d id) c') E c.
Proof.
  intros [[T F] Hthr]. unfold delete_with. apply wp_bind, wp_gets.
  unfold Index.getLocation. pose proof (Full_has T d c id F) as Hhas.
  unfold Map_has at 1 in Hhas.
  destruct (Map_get (primaryIndex (indexManager c)) id) as [old|] eqn:Hold.
  - apply (wp_delete_full T d); [exact F|exact Hold|].
    intros c' F' Ht. split; [exact Hhas|].
    apply (stores_intro T); [exact F'|congruence].
  - apply wp_ret. split; [exact Hhas|].
    rewrite Map_delete_absent by (apply Map_has_false; symmetry; exact Hhas).
    exact (stores_intro T d c thr F Hthr).
Qed.
End OpSteps.

Section MoreOpSteps.
Context `{rt : Runtime}.

(** A storage step on the header and the counters keeps what is stored. *)
Lemma stores_meta (thr : Z) (d : Docs) (c : Collection) (s' : StorageEngine) :
  stores thr d c -> meta_step (storage c) s' -> stores thr d (set_storage s' c).
Proof.
  intros [[T [L Hag]] Hthr] M. split.
  - exists T. split; [apply Laid_meta; assumption|exact Hag].
  - cbn [storage set_storage]. destruct M as (_ & _ & Th & _). congruence.
Qed.

Lemma stores_same (thr : Z) (d : Docs) (c c' : Collection) :
  stores thr d c ->
  file (storage c') = file (storage c) ->
  header (storage c') = header (storage c) ->
  freeList (storage c') = freeList (storage c) ->
  blobThreshold (storage c') = blobThreshold (storage c) ->
  blobFiles (storage c') = blobFiles (storage c) ->
  primaryIndex (indexManager c') = primaryIndex (indexManager c) ->
  cache c' = cache c ->
  stores thr d c'.
Proof.
  intros [[T [L Hag]] Hthr] F H Fl Th Bl Pi Hc. split; [|congruence].
  exists T. split.
  - apply (Laid_same T d c); try assumption.
    pose proof (ci_cache _ _ (la_cinv _ _ _ L)) as Hok.
    unfold cache_ok in *. rewrite Hc. exact Hok.
  - unfold cache_agrees in *. rewrite Hc. exact Hag.
Qed.

Lemma batch_enter_stores (thr : Z) (d : Docs) E c :
  stores thr d c ->
  wp (onStorage batch_enter) (fun _ c' => stores thr d c') E c.
Proof.
  intros St. apply wp_onStorage. unfold batch_enter. apply wp_modify.
  apply (stores_same thr d c); try reflexivity. exact St.
Qed.

Lemma batch_exit_stores (thr : Z) (d : Docs) E c :
  stores thr d c ->
  wp (onStorage batch_exit) (fun _ c' => stores thr d c') E c.
Proof.
  intros St. apply wp_onStorage. unfold batch_exit. apply wp_bind, wp_modify.
  set (s1 := set_batchDepth _ _).
  assert (St1 : stores thr d (set_storage s1 c))
    by (apply (stores_same thr d c); try reflexivity; exact St).
  apply wp_bind, wp_gets. apply wp_when; intros _.
  - apply metadata_flushMetadata.
    + destruct St1 as [[T [L _]] _].
      exact (Inv_roomy _ _ (ci_inv _ _ (la_cinv _ _ _ L))).
    + intros s2 M. apply (stores_meta thr d (set_storage s1 c) s2 St1 M).
  - exact St1.
Qed.

Lemma batch_op_stores (thr : Z) (d : Docs) (op : BatchOp) c :
  stores thr d c -> batch_op_ok thr op ->
  wp (Collection.batch_op op)
     (fun _ c' => exists d', apply_batch_op op d = Some d' /\ stores thr d' c')
     (fun _ c' => apply_batch_op op d = None /\ stores thr d c') c.
Proof.
  intros St Hok. destruct op as [id data|id data|id data|id];
    cbn [Collection.batch_op apply_batch_op batch_op_ok] in *.
  - eapply wp_mono; [apply (insert_with_stores thr d id data c St Hok)| |].
    + intros u c' [Hhas St']. rewrite Hhas. eexists. split; [reflexivity|exact St'].
    + intros u c' [Hhas St']. rewrite Hhas. split; [reflexivity|exact St'].
  - eapply wp_mono; [apply (update_with_stores thr d id data c St Hok)| |].
    + intros u c' [Hhas St']. rewrite Hhas. eexists. split; [reflexivity|exact St'].
    + intros u c' [Hhas St']. rewrite Hhas. split; [reflexivity|exact St'].
  - eapply wp_mono;
      [apply (upsert_with_stores thr d id data (fun _ _ => False) c St Hok)| |].
    + intros u c' St'. eexists. split; [reflexivity|exact St'].
    + intros u c' [].
  - apply wp_bind.
    eapply wp_mono; [apply (delete_with_stores thr d id (fun _ _ => False) c St)| |].
    + intros r c' [_ St']. apply wp_ret. eexists. split; [reflexivity|exact St'].
    + intros u c' [].
Qed.

Lemma batch_ops_stores (thr : Z) (ops : list BatchOp) :
  forall (d : Docs) (c : Collection),
    stores thr d c -> Forall (batch_op_ok thr) ops ->
    wp (for_each Collection.batch_op ops)
       (fun _ c' => stores thr (apply_batch ops d) c')
       (fun _ c' => stores thr (apply_batch ops d) c') c.
Proof.
  induction ops as [|op ops IH]; intros d c St Hok.
  - exact St.
  - cbn [for_each apply_batch]. inversion Hok as [|? ? Hop Hrest]; subst.
    apply wp_bind.
    eapply wp_mono; [apply (batch_op_stores thr d op c St Hop)| |].
    + intros u c1 (d' & Hd & St1). rewrite Hd. apply wp_bind.
      eapply wp_mono; [apply (IH d' c1 St1 Hrest)| |].
      * intros ys c2 St2. exact St2.
      * intros e c2 St2. exact St2.
    + intros e c1 [Hd St1]. rewrite Hd. exact St1.
Qed.

Lemma batch_stores (thr : Z) (d : Docs) (ops : list BatchOp) c :
  stores thr d c -> Forall (batch_op_ok thr) ops ->
  wp (Collection.batch ops)
     (fun _ c' => stores thr (apply_batch ops d) c')
     (fun _ c' => stores thr (apply_batch ops d) c') c.
Proof.
  intros St Hok. unfold Collection.batch. apply wp_bind.
  eapply wp_mono; [apply (batch_enter_stores thr d (fun _ _ => False) c St)| |].
  - intros u c1 St1. apply wp_try_finally. apply wp_bind.
    eapply wp_mono; [apply (batch_ops_stores thr ops d c1 St1 Hok)| |].
    + intros ys c2 St2. apply wp_ret.
      eapply wp_mono; [apply (batch_exit_stores thr _ (fun _ _ => False) c2 St2)| |].
      * intros u3 c3 St3. exact St3.
      * intros u3 c3 [].
    + intros e c2 St2.
      eapply wp_mono; [apply (batch_exit_stores thr _ (fun _ _ => False) c2 St2)| |].
      * intros u3 c3 St3. exact St3.
      * intros u3 c3 [].
  - intros u c1 [].
Qed.

(** [get] returns the document of the id, or nothing for an id that is
    not there, and keeps what is stored. *)
Lemma get_stores (thr : Z) (d : Docs) (id : string) E c :
  stores thr d c ->
  wp (Collection.get id)
     (fun r c' => r = Map_get d id /\ stores thr d c') E c.
Proof.
  intros [[T [L Hag]] Hthr]. unfold Collection.get. apply wp_bind.
  apply (wp_cacheGet_agrees d);
    [exact (ci_cache _ _ (la_cinv _ _ _ L))|exact Hag|].
  intros r c1 Hs Hi Hok Hag1 Hr.
  assert (L1 : Laid T d c1).
  { apply (Laid_same T d c); try (rewrite Hs; reflexivity);
      [exact L|rewrite Hi; reflexivity|exact Hok]. }
  assert (Hthr1 : blobThreshold (storage c1) = thr) by (rewrite Hs; exact Hthr).
  destruct r as [doc|].
  - apply wp_ret. split; [symmetry; exact Hr|].
    apply (stores_intro T); [split; assumption|exact Hthr1].
  - apply wp_bind, wp_gets. unfold Index.getLocation.
    destruct (Map_get (primaryIndex (indexManager c1)) id) as [loc|] eqn:Hloc.
    + apply wp_bind. apply (wp_read_full T d id loc); [exact L1|exact Hloc|].
      intros data c2 Hd L2 Hc2 Hi2 Hf2 Ht2.
      apply wp_bind. apply (wp_cacheSet_agrees d).
      * exact (ci_cache _ _ (la_cinv _ _ _ L2)).
      * rewrite Hc2. unfold cache_agrees in Hag1.
        destruct (cache c1) as [entries|]; [|exact I].
        intros k v _ Hget. apply Hag1. exact Hget.
      * exact Hd.
      * intros c3 Hs3 Hi3 Hok3 Hag3. apply wp_ret. split; [symmetry; exact Hd|].
        apply (stores_intro T).
        -- split; [|exact Hag3].
           apply (Laid_same T d c2); try (rewrite Hs3; reflexivity);
             [exact L2|rewrite Hi3; reflexivity|exact Hok3].
        -- rewrite Hs3, Ht2. exact Hthr1.
    + apply wp_ret. split.
      * symmetry. apply Map_has_false.
        rewrite <- (Map_has_keys _ _ id (la_keys _ _ _ L1)).
        unfold Map_has. rewrite Hloc. reflexivity.
      * apply (stores_intro T); [split; assumption|exact Hthr1].
Qed.

(** [createIndex] reads the documents and keeps what is stored. *)
Lemma createIndex_stores (thr : Z) (d : Docs) (fieldPath : string) c :
  stores thr d c ->
  wp (Collection.createIndex fieldPath)
     (fun _ c' => stores thr d c') (fun _ c' => stores thr d c') c.
Proof.
  intros St. unfold Collection.createIndex. apply wp_bind, wp_gets.
  destruct (Map_has (secondaryIndexes (indexManager c)) fieldPath).
  - apply wp_ret. exact St.
  - apply wp_bind. unfold onIndex at 1. apply wp_modify.
    set (c1 := set_indexManager _ c).
    assert (St1 : stores thr d c1)
      by (apply (stores_same thr d c); try reflexivity; exact St).
    apply wp_bind.
    eapply wp_mono;
      [apply (wp_for_each _ (primaryIndex (indexManager c)) (stores thr d) c1)| |].
    + intros entry c2 _ St2. apply wp_bind, wp_onStorage.
      apply wp_read.
      * intros data. unfold onIndex. apply wp_modify.
        apply (stores_same thr d c2); try reflexivity. exact St2.
      * intros e. apply (stores_same thr d c2); try reflexivity. exact St2.
    + exact St1.
    + intros u c2 St2. unfold onIndex. apply wp_modify.
      apply (stores_same thr d c2); try reflexivity. exact St2.
    + intros e c2 St2. exact St2.
Qed.
End MoreOpSteps.

(* ------------------------------------------------------------------ *)
(** ** Documents that are written and not yet indexed *)

Section PendingSteps.
Context `{rt : Runtime}.

Lemma Laid_Pending (T : Tiles) (d : Docs) (c : Collection) :
  Laid T d c -> Pending T d c [].
Proof.
  intros [L1 L2 L3 L4 L5 L6 L7 L8 L9]. constructor; try assumption; [|exact I].
  intros id loc Hget. destruct (L5 id loc Hget) as (data & Hd & Hh & Hfit).
  exists data. split; [exact Hd|split; [exact Hfit|intros _; exact Hh]].
Qed.

Lemma Pending_Laid (T : Tiles) (d : Docs) (c : Collection) :
  Pending T d c [] -> Laid T d c.
Proof.
  intros [L1 L2 L3 L4 L5 L6 L7 L8 _ L10]. constructor; try assumption.
  intros id loc Hget. destruct (L5 id loc Hget) as (data & Hd & Hfit & Hh).
  exists data. split; [exact Hd|split; [apply Hh; intros []|exact Hfit]].
Qed.

(** The slots of the waiting items under one more index entry. *)
Lemma slots_ok_index (T : Tiles) (s : StorageEngine) (index : PrimaryIndex)
      (id : string) (loc : DocumentLocation) (pend : list Written) :
  slots_ok T s index pend ->
  ~ In (loc_offset loc) (map (fun q => loc_offset (written_loc q)) pend) ->
  slots_ok T s (Map_set index id loc) pend.
Proof.
  induction pend as [|p rest IH]; cbn [slots_ok map]; [auto|].
  intros (H1 & H2 & H3 & H4 & H5 & H6 & H7 & H8) Hnot.
  split; [exact H1|]. split; [exact H2|]. split; [exact H3|].
  split; [|split; [exact H5|split; [exact H6|split; [exact H7|]]]].
  - intros id' loc' Hget.
    destruct (String.eqb_spec id' id) as [->|Hne].
    + rewrite Map_get_set_same in Hget. injection Hget as <-.
      intros Heq. apply Hnot. left. symmetry. exact Heq.
    + rewrite Map_get_set_other in Hget by exact Hne. exact (H4 _ _ Hget).
  - apply IH; [exact H8|]. intros Hin. apply Hnot. right. exact Hin.
Qed.

(** One item goes from the waiting items into the index. *)
Lemma Pending_index (T : Tiles) (d : Docs) (c : Collection) (p : Written)
      (rest : list Written) (m' : IndexManager) :
  Pending T d c (p :: rest) ->
  primaryIndex m'
  = Map_set (primaryIndex (indexManager c)) (written_id p) (written_loc p) ->
  Pending T (Map_set d (written_id p) (written_data p))
    (set_indexManager m' c) rest.
Proof.
  intros [L1 L2 L3 L4 L5 L6 L7 L8 L9 L10] Hm.
  cbn [slots_ok] in L9. destruct L9 as (H1 & H2 & H3 & H4 & H5 & H6 & H7 & H8).
  constructor; cbn [storage indexManager set_indexManager]; rewrite ?Hm.
  - apply CInv_set_index; [exact L1|]. rewrite Hm.
    apply (Forall_Map_set (fun l => In (tile_of l) T));
      [exact (ci_index _ _ L1)|exact H1].
  - exact L2.
  - apply Map_keys_set_eq. exact L3.
  - apply NoDup_Map_set. exact L4.
  - intros id loc Hget.
    destruct (String.eqb_spec id (written_id p)) as [->|Hne].
    + rewrite Map_get_set_same in Hget. injection Hget as <-.
      exists (written_data p). rewrite Map_get_set_same.
      split; [reflexivity|split; [exact H2|exact H7]].
    + rewrite Map_get_set_other in Hget by exact Hne.
      destruct (L5 id loc Hget) as (data & Hd & Hfit & Hh).
      exists data. rewrite Map_get_set_other by exact Hne.
      split; [exact Hd|split; [exact Hfit|]].
      intros Hnot. apply Hh. cbn [map]. intros [Heq|Hin]; [congruence|contradiction].
  - intros id1 id2 loc1 loc2 Hne G1 G2.
    destruct (String.eqb_spec id1 (written_id p)) as [->|N1];
      destruct (String.eqb_spec id2 (written_id p)) as [->|N2].
    + contradiction.
    + rewrite Map_get_set_same in G1. injection G1 as <-.
      rewrite Map_get_set_other in G2 by exact N2.
      intros Heq. exact (H4 _ _ G2 (eq_sym Heq)).
    + rewrite Map_get_set_same in G2. injection G2 as <-.
      rewrite Map_get_set_other in G1 by exact N1.
      exact (H4 _ _ G1).
    + rewrite Map_get_set_other in G1 by exact N1.
      rewrite Map_get_set_other in G2 by exact N2.
      exact (L6 id1 id2 loc1 loc2 Hne G1 G2).
  - intros id loc Hget.
    destruct (String.eqb_spec id (written_id p)) as [->|Hne].
    + rewrite Map_get_set_same in Hget. injection Hget as <-. exact H3.
    + rewrite Map_get_set_other in Hget by exact Hne. exact (L7 _ _ Hget).
  - intros id data Hget.
    destruct (String.eqb_spec id (written_id p)) as [->|Hne].
    + rewrite Map_get_set_same in Hget. injection Hget as <-. exact H6.
    + rewrite Map_get_set_other in Hget by exact Hne. exact (L8 _ _ Hget).
  - apply slots_ok_index; assumption.
  - exact L10.
Qed.

(** A change of the cache keeps the waiting items. *)
Lemma Pending_cache (T : Tiles) (d : Docs) (c c' : Collection)
      (pend : list Written) :
  Pending T d c pend ->
  storage c' = storage c -> indexManager c' = indexManager c -> cache_ok c' ->
  Pending T d c' pend.
Proof.
  intros [L1 L2 L3 L4 L5 L6 L7 L8 L9 L10] Hs Hi Hok.
  constructor; rewrite ?Hs, ?Hi; try assumption.
  destruct L1 as [I1 I2 I3]. constructor; rewrite ?Hs, ?Hi; assumption.
Qed.

(** The loop of [insertMany] over the written items. *)
Lemma index_loop_full (T : Tiles) (pend : list Written) :
  forall (d : Docs) (c : Collection) E,
    Pending T d c pend -> cache_agrees d c ->
    wp (for_each (fun p : Written =>
                    onIndex (Index.addDocument (fst (fst p)) (snd p) (snd (fst p))) ;;
                    cacheSet (fst (fst p)) (snd (fst p))) pend)
       (fun _ c' =>
          Full T (fold_left (fun d item => Map_set d (fst item) (snd item))
                    (map fst pend) d) c' /\
          blobThreshold (storage c') = blobThreshold (storage c)) E c.
Proof.
  induction pend as [|p rest IH]; intros d c E P Hag.
  - cbn [for_each map fold_left]. apply wp_ret.
    split; [split; [apply Pending_Laid; exact P|exact Hag]|reflexivity].
  - cbn [for_each map fold_left]. apply wp_bind, wp_bind.
    unfold onIndex. apply wp_modify.
    set (c1 := set_indexManager _ c).
    assert (P1 : Pending T (Map_set d (written_id p) (written_data p)) c1 rest).
    { apply Pending_index; [exact P|]. apply primaryIndex_addDocument. }
    apply (wp_cacheSet_agrees (Map_set d (written_id p) (written_data p))).
    + exact (ci_cache _ _ (pe_cinv _ _ _ _ P1)).
    + unfold c1. cbn [cache set_indexManager]. unfold cache_agrees in Hag.
      destruct (cache c) as [entries|]; [|exact I].
      intros k v Hne Hget. unfold written_id.
      rewrite Map_get_set_other by exact Hne. apply Hag. exact Hget.
    + apply Map_get_set_same.
    + intros c2 Hs Hi Hok Hag2. apply wp_bind.
      eapply wp_mono;
        [apply (IH _ c2 E (Pending_cache _ _ _ _ _ P1 Hs Hi Hok) Hag2)| |].
      * intros ys c3 [F3 Ht3]. apply wp_ret. split; [exact F3|].
        rewrite Ht3, Hs. reflexivity.
      * intros e c3 He. exact He.
Qed.
End PendingSteps.

Section PendingWrites.
Context `{rt : Runtime}.

Lemma slots_ok_in (T : Tiles) (s : StorageEngine) (index : PrimaryIndex)
      (pend : list Written) (p : Written) :
  slots_ok T s index pend -> In p pend ->
  In (tile_of (written_loc p)) T /\
  loc_length (written_loc p) + SLOT_HEADER_SIZE <= loc_slabSize (written_loc p) /\
  ~ In (loc_offset (written_loc p)) (map free_offset (freeList s)).
Proof.
  induction pend as [|q rest IH]; cbn [slots_ok In]; [intros _ []|].
  intros (H1 & H2 & H3 & H4 & H5 & H6 & H7 & H8) [->|Hin].
  - split; [exact H1|split; [exact H2|exact H3]].
  - exact (IH H8 Hin).
Qed.

(** Slots that are apart and hold their documents are in order. *)
Lemma slots_ok_intro (T : Tiles) (s : StorageEngine) (index : PrimaryIndex)
      (pend : list Written) :
  Forall (fun p =>
            In (tile_of (written_loc p)) T /\
            loc_length (written_loc p) + SLOT_HEADER_SIZE
            <= loc_slabSize (written_loc p) /\
            ~ In (loc_offset (written_loc p)) (map free_offset (freeList s)) /\
            (forall id loc, Map_get index id = Some loc ->
                            loc_offset loc <> loc_offset (written_loc p)) /\
            doc_ok (blobThreshold s) (written_id p) (written_data p) /\
            holds s (written_loc p) (written_id p) (written_data p)) pend ->
  NoDup (map (fun q => loc_offset (written_loc q)) pend) ->
  slots_ok T s index pend.
Proof.
  induction pend as [|p rest IH]; cbn [slots_ok map]; [auto|].
  intros HF HN. inversion HF as [|? ? (H1 & H2 & H3 & H4 & H5 & H6) HF']; subst.
  inversion HN as [|? ? N1 N2]; subst.
  split; [exact H1|]. split; [exact H2|]. split; [exact H3|].
  split; [exact H4|]. split; [exact N1|]. split; [exact H5|].
  split; [intros _; exact H6|]. apply IH; assumption.
Qed.

(** The waiting items after a step of the engine that writes the items
    [tail]. *)
Lemma slots_ok_app (T T' : Tiles) (s s' : StorageEngine) (index : PrimaryIndex)
      (pend tail : list Written) :
  slots_ok T s index pend ->
  slots_ok T' s' index tail ->
  (forall t, In t T -> In t T') ->
  (forall o, In o (map free_offset (freeList s')) ->
             In o (map free_offset (freeList s))) ->
  blobThreshold s' = blobThreshold s ->
  (forall p, In p pend ->
             ~ In (loc_offset (written_loc p))
                  (map (fun q => loc_offset (written_loc q)) tail)) ->
  (forall loc id data,
      ~ In id (map written_id tail) ->
      In (tile_of loc) T ->
      ~ In (loc_offset loc) (map free_offset (freeList s)) ->
      loc_length loc + SLOT_HEADER_SIZE <= loc_slabSize loc ->
      holds s loc id data -> holds s' loc id data) ->
  slots_ok T' s' index (pend ++ tail).
Proof.
  intros Hp Ht Hgrow Hfree Hthr Hapart Hkeep.
  induction pend as [|p rest IH]; cbn [app]; [exact Ht|].
  cbn [slots_ok] in Hp |- *.
  destruct Hp as (H1 & H2 & H3 & H4 & H5 & H6 & H7 & H8).
  split; [exact (Hgrow _ H1)|]. split; [exact H2|].
  split; [intros Hin; exact (H3 (Hfree _ Hin))|]. split; [exact H4|].
  split; [|split; [rewrite Hthr; exact H6|split]].
  - rewrite map_app. intros Hin. apply in_app_or in Hin.
    destruct Hin as [Hin|Hin]; [exact (H5 Hin)|].
    exact (Hapart p (or_introl eq_refl) Hin).
  - rewrite map_app. intros Hnot.
    apply Hkeep; try assumption.
    + intros Hin. apply Hnot. apply in_or_app. right. exact Hin.
    + apply H7. intros Hin. apply Hnot. apply in_or_app. left. exact Hin.
  - apply IH; [exact H8|]. intros q Hq. apply Hapart. right. exact Hq.
Qed.

Lemma Pending_app (T T' : Tiles) (d : Docs) (c : Collection)
      (s' : StorageEngine) (pend tail : list Written) :
  Pending T d c pend ->
  moved True T (storage c) T' s' ->
  NoDup (map free_offset (freeList s')) ->
  (forall o, In o (map free_offset (freeList s')) ->
             In o (map free_offset (freeList (storage c)))) ->
  slots_ok T' s' (primaryIndex (indexManager c)) tail ->
  (forall p, In p pend ->
             ~ In (loc_offset (written_loc p))
                  (map (fun q => loc_offset (written_loc q)) tail)) ->
  (forall loc id data,
      ~ In id (map written_id tail) ->
      In (tile_of loc) T ->
      ~ In (loc_offset loc) (map free_offset (freeList (storage c))) ->
      loc_length loc + SLOT_HEADER_SIZE <= loc_slabSize loc ->
      holds (storage c) loc id data -> holds s' loc id data) ->
  Pending T' d (set_storage s' c) (pend ++ tail).
Proof.
  intros P Mv HN Hfree Ht Hapart Hkeep.
  pose proof (pe_cinv _ _ _ _ P) as HC.
  pose proof (mv_thr _ _ _ _ _ Mv) as Hthr.
  destruct P as [L1 L2 L3 L4 L5 L6 L7 L8 L9 L10].
  constructor; cbn [storage indexManager set_storage]; try assumption.
  - exact (CInv_storage True T T' c s' HC Mv).
  - intros id loc Hget. destruct (L5 id loc Hget) as (data & Hd & Hfit & Hh).
    exists data. split; [exact Hd|split; [exact Hfit|]].
    rewrite map_app. intros Hnot. apply Hkeep.
    + intros Hin. apply Hnot. apply in_or_app. right. exact Hin.
    + exact (CInv_index _ _ _ _ HC Hget).
    + exact (L7 _ _ Hget).
    + exact Hfit.
    + apply Hh. intros Hin. apply Hnot. apply in_or_app. left. exact Hin.
  - intros id loc Hget Hin. exact (L7 _ _ Hget (Hfree _ Hin)).
  - intros id data Hget. rewrite Hthr. exact (L8 _ _ Hget).
  - apply (slots_ok_app T T' (storage c)); try assumption.
    intros t Hin. exact (moved_in _ _ _ _ _ _ Mv Hin).
  - exact (small_moved _ _ _ _ Mv L10).
Qed.

(** A step on the header and the counters keeps the waiting items. *)
Lemma Pending_meta (T : Tiles) (d : Docs) (c : Collection)
      (s' : StorageEngine) (pend : list Written) :
  Pending T d c pend -> meta_step (storage c) s' ->
  Pending T d (set_storage s' c) pend.
Proof.
  intros P M. pose proof (pe_cinv _ _ _ _ P) as HC.
  pose proof M as (F & Bl & Th & Nx & Fs & Ln & Fr).
  rewrite <- (app_nil_r pend). apply (Pending_app T T d c s' pend []).
  - exact P.
  - apply moved_meta; [exact (ci_inv _ _ HC)|exact M].
  - rewrite F. exact (pe_free _ _ _ _ P).
  - rewrite F. exact (fun o H => H).
  - exact I.
  - intros p _ [].
  - intros loc id data _ Hin _ _ Hh.
    apply (holds_meta_step (storage c)); [|exact M|exact Hh].
    destruct (Inv_tile _ _ _ _ (ci_inv _ _ HC) Hin) as (Ho & _). exact Ho.
Qed.

(** A step on the counters alone keeps them as well. *)
Lemma Pending_same (T : Tiles) (d : Docs) (c : Collection)
      (s' : StorageEngine) (pend : list Written) :
  Pending T d c pend ->
  file s' = file (storage c) -> header s' = header (storage c) ->
  freeList s' = freeList (storage c) ->
  blobThreshold s' = blobThreshold (storage c) ->
  blobFiles s' = blobFiles (storage c) ->
  Pending T d (set_storage s' c) pend.
Proof.
  intros P F H Fl Th Bl. pose proof (pe_cinv _ _ _ _ P) as HC.
  rewrite <- (app_nil_r pend). apply (Pending_app T T d c s' pend []).
  - exact P.
  - apply moved_same; try assumption. exact (ci_inv _ _ HC).
  - rewrite Fl. exact (pe_free _ _ _ _ P).
  - rewrite Fl. exact (fun o H => H).
  - exact I.
  - intros p _ [].
  - intros loc id data _ _ _ _ Hh. apply (holds_same (storage c)); assumption.
Qed.

(** [writeUnlocked] adds its document to the waiting items. *)
Lemma Pending_write (T T' : Tiles) (d : Docs) (c : Collection)
      (id : string) (data : Document) (loc : DocumentLocation)
      (s' : StorageEngine) (pend : list Written) :
  Pending T d c pend ->
  stored T id data (map free_offset (freeList (storage c))) (storage c) loc T' s' ->
  doc_ok (blobThreshold (storage c)) id data ->
  Pending T' d (set_storage s' c) (pend ++ [(id, data, loc)]).
Proof.
  intros P St Hrt. pose proof (pe_cinv _ _ _ _ P) as HC.
  pose proof (so_shift _ _ _ _ _ _ _ _ St) as Sh.
  pose proof (sh_moved _ _ _ _ _ _ Sh) as Mv.
  assert (Hfree : forall o, In o (map free_offset (freeList s')) ->
                            In o (map free_offset (freeList (storage c)))).
  { intros o Hin. apply in_map_iff in Hin. destruct Hin as (x & <- & Hx).
    exact (proj2 (sh_tidy _ _ _ _ _ _ Sh) x Hx). }
  assert (Hnew : forall loc', In (tile_of loc') T ->
                   ~ In (loc_offset loc') (map free_offset (freeList (storage c))) ->
                   loc_offset loc' <> loc_offset loc).
  { intros loc' Hin Hnot Heq.
    destruct (so_where _ _ _ _ _ _ _ _ St) as [Hw|Hw].
    - apply Hnot. rewrite Heq. exact Hw.
    - apply (Hw (loc_slabSize loc')). rewrite <- Heq. exact Hin. }
  apply (Pending_app T T' d c s' pend [(id, data, loc)]); try assumption.
  - exact (proj1 (sh_tidy _ _ _ _ _ _ Sh)).
  - cbn [slots_ok map written_loc written_id written_data fst snd].
    split; [exact (so_tile _ _ _ _ _ _ _ _ St)|].
    split; [exact (so_fits _ _ _ _ _ _ _ _ St)|].
    split; [exact (so_taken _ _ _ _ _ _ _ _ St)|].
    split; [|split; [intros []|split; [|split; [|exact I]]]].
    + intros id' loc' Hget. apply Hnew.
      * exact (CInv_index _ _ _ _ HC Hget).
      * exact (pe_used _ _ _ _ P _ _ Hget).
    + rewrite (mv_thr _ _ _ _ _ Mv). exact Hrt.
    + intros _. exact (so_holds _ _ _ _ _ _ _ _ St).
  - intros p Hin. cbn [map written_loc snd In]. intros [Heq|[]].
    destruct (slots_ok_in _ _ _ _ _ (pe_slots _ _ _ _ P) Hin) as (H1 & _ & H3).
    exact (Hnew _ H1 H3 (eq_sym Heq)).
  - intros loc' id' data' Hnot Hin Hfr Hfit Hh.
    apply (holds_shift T T' id id' _ (storage c) s' loc' data' Sh);
      try assumption.
    + exact (ci_inv _ _ HC).
    + intros ->. apply Hnot. left. reflexivity.
Qed.

(** The loop of the slow path of [writeMany]. *)
Lemma write_loop_pending (d : Docs) (c : Collection) (thr : Z)
      (items : list (string * Document)) :
  forall (T : Tiles) (pend : list Written) (s : StorageEngine) E,
    Pending T d (set_storage s c) pend ->
    blobThreshold s = thr ->
    Forall (fun item => doc_ok thr (fst item) (snd item)) items ->
    wp (for_each (fun item => writeUnlocked (fst item) (snd item)) items)
       (fun locs s' =>
          exists T', Pending T' d (set_storage s' c) (pend ++ combine items locs) /\
                     blobThreshold s' = thr /\
                     List.length locs = List.length items) E s.
Proof.
  induction items as [|[id data] rest IH]; intros T pend s E P Hthr Hok.
  - cbn [for_each combine]. apply wp_ret. exists T. rewrite app_nil_r.
    split; [exact P|split; [exact Hthr|reflexivity]].
  - cbn [for_each fst snd]. inversion Hok as [|? ? [Hrt Hsmall] Hok']; subst.
    cbn [fst snd] in Hrt, Hsmall.
    apply wp_bind.
    apply (wp_write_stored T id data (map free_offset (freeList s))).
    + exact (ci_inv _ _ (pe_cinv _ _ _ _ P)).
    + rewrite <- (app_nil_r (map _ _)). apply tidy_free.
      exact (pe_free _ _ _ _ P).
    + exact Hsmall.
    + intros loc T' s' St.
      pose proof (Pending_write T T' d (set_storage s c) id data loc s' pend P St
                    (conj Hrt Hsmall))
        as P'.
      cbn [set_storage storage] in P'.
      pose proof (mv_thr _ _ _ _ _ (sh_moved _ _ _ _ _ _
                    (so_shift _ _ _ _ _ _ _ _ St))) as Hthr'.
      apply wp_bind.
      eapply wp_mono; [apply (IH T' _ s' E P' Hthr' Hok')| |].
      * intros locs s2 (T2 & P2 & Ht2 & Hl2). apply wp_ret. exists T2.
        cbn [combine]. rewrite <- app_assoc in P2.
        split; [exact P2|split; [exact Ht2|]].
        cbn [List.length]. rewrite Hl2. reflexivity.
      * intros e s2 He. exact He.
Qed.
End PendingWrites.

Section ManyAtOnce.
Context `{rt : Runtime}.

(** The slots that the fast path of [writeMany] builds: each item has a
    slot of its own at or after [start], and the concatenated buffer reads
    back as the item at that slot. *)
Lemma writeMany_build_slots (items : list (string * Document)) :
  Forall (fun item => len (encodeDocument (snd item)) + 4112 <= 2 ^ 32) items ->
  forall start pre post,
    len pre = start ->
    let '(bufs, locs, total, live) := writeMany_build items start in
    List.length locs = List.length items /\
    Forall (fun p : Written =>
              start <= loc_offset (written_loc p) /\
              loc_length (written_loc p) = len (encodeDocument (written_data p)) /\
              loc_isBlob (written_loc p) = false /\
              loc_length (written_loc p) + SLOT_HEADER_SIZE
              <= loc_slabSize (written_loc p) /\
              readSlot_in (pre ++ List.concat bufs ++ post)
                (loc_offset (written_loc p)) (loc_length (written_loc p))
              = Ok (encodeDocument (written_data p))) (combine items locs) /\
    NoDup (map (fun q : Written => loc_offset (written_loc q)) (combine items locs)).
Proof.
  induction items as [|[id data] rest IH]; intros Hsmall start pre post Hpre.
  - cbn [writeMany_build combine map]. split; [reflexivity|split; constructor].
  - rewrite writeMany_build_cons. cbv zeta.
    set (bytes := encodeDocument data).
    set (slab := selectSlabSize (len bytes)).
    pose proof (selectSlabSize_fits (len bytes)) as Hfits. fold slab in Hfits.
    pose proof (len_nonneg bytes) as Hbytes.
    inversion Hsmall as [|? ? Hs Hsmall']; subst. cbn [snd] in Hs. fold bytes in Hs.
    assert (Hslot : len (slotBuffer SlotFlags.ACTIVE bytes slab) = slab)
      by (apply len_slotBuffer; unfold SLOT_HEADER_SIZE in *; lia).
    specialize (IH Hsmall' (len pre + slab)
                  (pre ++ slotBuffer SlotFlags.ACTIVE bytes slab) post).
    rewrite len_app, Hslot in IH. specialize (IH eq_refl).
    destruct (writeMany_build rest (len pre + slab)) as [[[bufs locs] total] live].
    destruct IH as (IH0 & IH1 & IH2).
    cbn [combine map List.concat written_loc written_data snd fst].
    assert (Heq : forall o n,
               readSlot_in ((pre ++ slotBuffer SlotFlags.ACTIVE bytes slab)
                              ++ List.concat bufs ++ post) o n
               = readSlot_in (pre ++ (slotBuffer SlotFlags.ACTIVE bytes slab
                                        ++ List.concat bufs) ++ post) o n).
    { intros o n. rewrite <- !app_assoc. reflexivity. }
    split; [cbn [List.length]; rewrite IH0; reflexivity|]. split.
    + constructor.
      * cbn [written_loc written_data snd fst loc_offset loc_length loc_isBlob
               loc_slabSize].
        split; [lia|]. split; [reflexivity|]. split; [reflexivity|].
        split; [exact Hfits|]. fold bytes. rewrite <- app_assoc.
        apply readSlot_in_slotBuffer.
        -- unfold SLOT_HEADER_SIZE in *. lia.
        -- lia.
        -- vm_compute. reflexivity.
      * eapply Forall_impl; [|exact IH1]. intros p (H1 & H2 & H3 & H4 & H5).
        unfold SLOT_HEADER_SIZE in *.
        split; [lia|]. split; [exact H2|]. split; [exact H3|].
        split; [exact H4|]. rewrite <- Heq. exact H5.
    + constructor; [|exact IH2]. cbn [loc_offset]. intros Hin.
      apply in_map_iff in Hin. destruct Hin as (q & Hq & Hin).
      rewrite Forall_forall in IH1. destruct (IH1 q Hin) as (H1 & _).
      unfold SLOT_HEADER_SIZE in *. lia.
Qed.

Lemma not_blob_item (thr : Z) (items : list (string * Document))
      (item : string * Document) :
  existsb (fun item => len (encodeDocument (snd item)) >? thr) items = false ->
  In item items -> (len (encodeDocument (snd item)) >? thr) = false.
Proof.
  intros Hex Hin. destruct (len (encodeDocument (snd item)) >? thr) eqn:Eb;
    [|reflexivity].
  rewrite <- Hex. symmetry. apply existsb_exists. exists item. split; assumption.
Qed.

(** [writeMany] leaves the stored documents as they are and adds its
    items, in order, to the documents that wait for the index. *)
Lemma writeMany_pending (T : Tiles) (d : Docs) (c : Collection) (thr : Z)
      (items : list (string * Document)) E :
  Pending T d c [] ->
  blobThreshold (storage c) = thr ->
  Forall (fun item => doc_ok thr (fst item) (snd item)) items ->
  wp (writeMany items)
     (fun locs s' =>
        exists T', Pending T' d (set_storage s' c) (combine items locs) /\
                   blobThreshold s' = thr /\
                   List.length locs = List.length items) E (storage c).
Proof.
  intros P Hthr Hok. pose proof (pe_cinv _ _ _ _ P) as HC.
  pose proof (ci_inv _ _ HC) as HI.
  set (s := storage c) in *.
  assert (Pc : Pending T d (set_storage s c) []).
  { apply (Pending_same T d c s []); try reflexivity. exact P. }
  unfold writeMany.
  destruct items as [|item0 rest] eqn:Hitems.
  { apply wp_ret. exists T. split; [exact Pc|split; [exact Hthr|reflexivity]]. }
  rewrite <- Hitems in *. clear Hitems item0 rest.
  apply wp_bind, wp_gets.
  destruct (existsb _ items) eqn:Ex.
  - (* the documents are written in turn *)
    apply wp_bind. unfold batch_enter. apply wp_modify.
    set (s1 := set_batchDepth _ s).
    assert (P1 : Pending T d (set_storage s1 c) []).
    { apply (Pending_same T d c s1 []); try reflexivity. exact P. }
    apply wp_try_finally.
    eapply wp_mono;
      [apply (write_loop_pending d c thr items T [] s1 (fun _ _ => False) P1 Hthr Hok)
      | |intros e s2 []].
    intros locs s2 (T2 & P2 & Ht2 & Hl2). cbn [app] in P2.
    unfold batch_exit. apply wp_bind, wp_modify.
    set (s3 := set_batchDepth _ s2).
    assert (P3 : Pending T2 d (set_storage s3 c) (combine items locs)).
    { apply (Pending_same T2 d (set_storage s2 c) s3); try reflexivity. exact P2. }
    apply wp_bind, wp_gets. apply wp_when; intros _.
    + apply metadata_flushMetadata.
      * exact (Inv_roomy _ _ (ci_inv _ _ (pe_cinv _ _ _ _ P3))).
      * intros s4 M. exists T2. split.
        -- apply (Pending_meta T2 d (set_storage s3 c) s4 _ P3 M).
        -- destruct M as (_ & _ & Th & _). rewrite Th.
           split; [exact Ht2|exact Hl2].
    + exists T2. split; [exact P3|split; [exact Ht2|exact Hl2]].
  - (* the slots are built and written at once *)
    apply wp_bind, wp_gets.
    pose proof (Inv_header_in_file _ _ HI) as Hh. unfold DATA_HEADER_SIZE in Hh.
    set (start := nextSlotOffset (header s)) in *.
    assert (Hsm : Forall (fun item => len (encodeDocument (snd item)) + 4112
                                      <= 2 ^ 32) items).
    { rewrite Forall_forall in *. intros item Hin.
      destruct (Hok item Hin) as [_ Hs].
      unfold payload_small, slot_payload in Hs. rewrite Hthr in Ex.
      rewrite (not_blob_item thr items item Ex Hin) in Hs. exact Hs. }
    pose proof (writeMany_build_spec True items (fun _ => Hsm) start
                  (firstn (Z.to_nat start) (file s))) as Hspec.
    pose proof (writeMany_build_slots items Hsm start
                  (firstn (Z.to_nat start) (file s))) as Hslots.
    destruct (writeMany_build items start) as [[[bufs locs] total] live].
    set (full := List.concat bufs) in *.
    specialize (Hspec (skipn (Z.to_nat start + List.length full) (file s))
                  (len_firstn_to_nat (file s) start ltac:(lia))).
    specialize (Hslots (skipn (Z.to_nat start + List.length full) (file s))
                  (len_firstn_to_nat (file s) start ltac:(lia))).
    destruct Hspec as (Hchain & Hlen & Hsmall & Hdisk).
    destruct Hslots as (Hcount & Hread & Hnodup).
    rewrite <- pwrite_inside in Hdisk by lia.
    rewrite <- pwrite_inside in Hread by lia.
    pose proof (chain_le _ _ _ Hchain) as Htotal.
    apply wp_bind. unfold writeAtOffset. apply wp_modify.
    set (s1 := set_diskWrites _ _).
    assert (HI1 : Inv T s1).
    { apply (Inv_same T (set_file (pwrite (file s) start full) s));
        try reflexivity.
      apply Inv_write_beyond; [exact HI|fold start; lia]. }
    apply wp_bind. unfold modify_header at 1. apply wp_modify. cbv zeta.
    set (s2 := set_header _ s1).
    assert (HI2 : Inv (T ++ map tile_of locs) s2).
    { apply (Inv_extend T (map tile_of locs) s1 (start + total) HI1).
      - exact Hchain.
      - unfold s1. cbn [file set_file set_diskWrites].
        rewrite len_pwrite by lia. lia.
      - intros o sz Hin Hsz. unfold slabField, s1.
        cbn [file set_file set_diskWrites]. apply Hdisk; assumption. }
    assert (M2 : moved True T s (T ++ map tile_of locs) s2).
    { constructor.
      - exists (map tile_of locs). split; [reflexivity|exact Hsmall].
      - exact HI2.
      - reflexivity.
      - unfold s2, s1. cbn [file set_file set_diskWrites set_header].
        rewrite len_pwrite by lia. lia.
      - unfold s2. cbn [header set_header set_fileSize set_nextSlotOffset
                          nextSlotOffset]. fold start. lia. }
    assert (R2 : roomy s2) by exact (Inv_roomy _ _ HI2).
    meta_tail. apply wp_ret.
    match goal with M : meta_step s2 ?sf |- _ =>
      rename M into Mf; set (s' := sf) in *
    end.
    pose proof Mf as (F & Bl & Th & Nx & Fs & Ln & Fr).
    assert (Hfile2 : file s2 = pwrite (file s) start full) by reflexivity.
    assert (Hlow : forall o sz, In (o, sz) T -> o + sz <= start /\ 64 <= o /\ 16 <= sz).
    { intros o sz Hin. destruct (Inv_tile _ _ _ _ HI Hin) as (H1 & H2 & H3 & _).
      unfold DATA_HEADER_SIZE, SLOT_HEADER_SIZE in *. fold start in H3. lia. }
    exists (T ++ map tile_of locs).
    split; [|split; [rewrite Th; exact Hthr|exact Hcount]].
    apply (Pending_app T (T ++ map tile_of locs) d c s' [] (combine items locs)).
    + exact P.
    + eapply moved_trans; [exact M2|]. apply moved_meta; [exact HI2|exact Mf].
    + rewrite F. exact (pe_free _ _ _ _ P).
    + rewrite F. exact (fun o H => H).
    + apply slots_ok_intro; [|exact Hnodup].
      rewrite Forall_forall in Hread |- *. intros p Hp.
      destruct (Hread p Hp) as (H1 & H2 & H3 & H4 & H5).
      destruct p as [[id data] loc].
      cbn [written_loc written_data written_id fst snd] in *.
      pose proof (in_combine_l _ _ _ _ Hp) as Hitem.
      pose proof (in_combine_r _ _ _ _ Hp) as Hloc.
      pose proof (not_blob_item _ _ _ Ex Hitem) as Hnb. cbn [snd] in Hnb.
      fold s in Hthr.
      split; [apply in_or_app; right; apply in_map; exact Hloc|].
      split; [exact H4|].
      split; [|split; [|split; [|constructor]]].
      * rewrite F. intros Hin. apply in_map_iff in Hin.
        destruct Hin as (x & Hx & Hin).
        destruct (Hlow _ _ (inv_free _ _ HI x Hin)) as (L1 & L2 & L3). lia.
      * intros id' loc' Hget Heq.
        destruct (Hlow _ _ (CInv_index _ _ _ _ HC Hget)) as (L1 & L2 & L3). lia.
      * rewrite Th. change (blobThreshold s2) with (blobThreshold s).
        rewrite Hthr. rewrite Forall_forall in Hok.
        exact (Hok _ Hitem).
      * rewrite Th. change (blobThreshold s2) with (blobThreshold s).
        unfold slot_payload. rewrite Hnb. exact H2.
      * rewrite Th. change (blobThreshold s2) with (blobThreshold s).
        rewrite Hnb. exact H3.
      * rewrite Th. change (blobThreshold s2) with (blobThreshold s).
        unfold slot_payload. rewrite Hnb.
        rewrite (readSlot_in_meta_step s2 s') by
          (try exact Mf; unfold DATA_HEADER_SIZE; lia).
        rewrite Hfile2. exact H5.
      * intros Hb. rewrite H3 in Hb. discriminate.
    + intros p [].
    + intros loc id data _ Hin _ Hfit [G1 G2 G3 G4].
      destruct (Hlow _ _ Hin) as (L1 & L2 & L3).
      pose proof (len_nonneg (slot_payload (blobThreshold s) id data)) as Hpl.
      constructor; rewrite ?Th; change (blobThreshold s2) with (blobThreshold s);
        try assumption.
      * rewrite (readSlot_in_meta_step s2 s') by
          (try exact Mf; unfold DATA_HEADER_SIZE; lia).
        rewrite Hfile2. etransitivity; [|exact G3]. apply readSlot_in_frame.
        fold s in G1 |- *.
        apply pread_pwrite_frame; unfold SLOT_HEADER_SIZE in *; lia.
      * intros Hb. rewrite Bl. exact (G4 Hb).
Qed.
End ManyAtOnce.

Lemma find_same {A} (f g : A -> bool) (xs : list A) :
  (forall x, f x = g x) -> find f xs = find g xs.
Proof.
  intros H. induction xs as [|x xs IH]; cbn [find]; [reflexivity|].
  rewrite H, IH. reflexivity.
Qed.

Lemma existsb_find {A} (f : A -> bool) (xs : list A) :
  existsb f xs = match find f xs with Some _ => true | None => false end.
Proof.
  induction xs as [|x xs IH]; cbn [existsb find]; [reflexivity|].
  destruct (f x); [reflexivity|exact IH].
Qed.

Lemma map_fst_combine {A B} (xs : list A) (ys : list B) :
  List.length ys = List.length xs -> map fst (combine xs ys) = xs.
Proof.
  revert ys. induction xs as [|x xs IH]; intros [|y ys]; cbn [combine map fst List.length];
    try reflexivity; try discriminate.
  intros H. rewrite IH by (injection H as H; exact H). reflexivity.
Qed.

Section RunSteps.
Context `{rt : Runtime}.

Lemma insertMany_stores (thr : Z) (d : Docs) (items : list (string * Document)) c :
  stores thr d c ->
  Forall (fun item => doc_ok thr (fst item) (snd item)) items ->
  wp (Collection.insertMany items)
     (fun _ c' => stores thr (apply_op (OpInsertMany items) d) c')
     (fun _ c' => existsb (fun item => Map_has d (fst item)) items = true /\
                  stores thr (apply_op (OpInsertMany items) d) c') c.
Proof.
  intros St Hok. pose proof St as [[T [L Hag]] Hthr].
  unfold Collection.insertMany. cbn [apply_op].
  destruct items as [|item0 rest] eqn:Hitems.
  { apply wp_ret. exact St. }
  rewrite <- Hitems in *. clear Hitems item0 rest.
  apply wp_bind, wp_gets.
  rewrite existsb_find.
  rewrite (find_same (fun item => Index.has (indexManager c) (fst item))
             (fun item => Map_has d (fst item)))
    by (intros item; unfold Index.has; apply (Full_has T); split; assumption).
  destruct (find _ items) as [item|].
  - apply wp_throw. split; [reflexivity|exact St].
  - apply wp_bind, wp_onStorage.
    eapply wp_mono;
      [apply (writeMany_pending T d c thr items (fun _ _ => False)
                (Laid_Pending T d c L) Hthr Hok)| |intros e s' []].
    intros locs s' (T' & P & Ht & Hlen).
    apply wp_bind.
    eapply wp_mono;
      [apply (index_loop_full T' (combine items locs) d (set_storage s' c)
                (fun _ _ => False) P)| |intros e c' []].
    + exact Hag.
    + intros ys c' [F' Ht']. apply wp_ret.
      rewrite (map_fst_combine items locs Hlen) in F'.
      apply (stores_intro T'); [exact F'|].
      rewrite Ht'. exact Ht.
Qed.

(** One operation: the collection stores what the operation makes of the
    documents, whether it returns or throws. *)
Lemma run_op_stores (thr : Z) (d : Docs) (op : Op) (c : Collection) :
  stores thr d c -> op_ok thr op ->
  stores thr (apply_op op d) (run_op op c).
Proof.
  intros St Hok. destruct op as [id data|id data|id data|id|ops|items|id|fieldPath];
    cbn [run_op apply_op op_ok] in *; apply wp_snd.
  - change (Collection.insert id data) with (insert_with writeUnlocked id data).
    eapply wp_mono; [apply (insert_with_stores thr d id data c St Hok)| |].
    + intros u c' [Hhas St']. rewrite Hhas. exact St'.
    + intros e c' [Hhas St']. rewrite Hhas. exact St'.
  - change (Collection.update id data) with (update_with updateUnlocked id data).
    eapply wp_mono; [apply (update_with_stores thr d id data c St Hok)| |].
    + intros u c' [Hhas St']. rewrite Hhas. exact St'.
    + intros e c' [Hhas St']. rewrite Hhas. exact St'.
  - change (Collection.upsert id data)
      with (upsert_with writeUnlocked updateUnlocked id data).
    apply (upsert_with_stores thr d id data _ c St Hok).
  - change (Collection.delete id) with (delete_with deleteUnlocked id).
    eapply wp_mono; [apply (delete_with_stores thr d id (fun _ _ => False) c St)| |].
    + intros r c' [_ St']. exact St'.
    + intros e c' [].
  - apply batch_stores; assumption.
  - eapply wp_mono; [apply (insertMany_stores thr d items c St Hok)| |].
    + intros u c' St'. exact St'.
    + intros e c' [_ St']. exact St'.
  - eapply wp_mono; [apply (get_stores thr d id (fun _ _ => False) c St)| |].
    + intros r c' [_ St']. exact St'.
    + intros e c' [].
  - apply createIndex_stores. exact St.
Qed.

(** A new collection stores nothing. *)
Lemma newCollection_stores (cacheSize thr : Z) :
  stores thr [] (newCollection cacheSize thr).
Proof.
  apply (stores_intro []); [|reflexivity]. split.
  - constructor.
    + apply newCollection_CInv.
    + constructor.
    + reflexivity.
    + constructor.
    + intros id loc Hget. discriminate Hget.
    + intros id1 id2 loc1 loc2 _ Hget. discriminate Hget.
    + intros id loc Hget. discriminate Hget.
    + intros id data Hget. discriminate Hget.
    + constructor.
  - unfold cache_agrees, newCollection. cbn [cache].
    destruct (Z.max 0 cacheSize >? 0); [|exact I].
    intros id v Hget. discriminate Hget.
Qed.

Lemma run_stores (thr : Z) (ops : list Op) :
  forall (d : Docs) (c : Collection),
    stores thr d c -> Forall (op_ok thr) ops ->
    stores thr (fold_left (fun d op => apply_op op d) ops d) (run ops c).
Proof.
  induction ops as [|op ops IH]; intros d c St Hok.
  - exact St.
  - inversion Hok as [|? ? Hop Hrest]; subst. unfold run. cbn [fold_left].
    apply (IH _ _ (run_op_stores thr d op c St Hop) Hrest).
Qed.

Lemma history_stores (cacheSize thr : Z) (ops : list Op) :
  Forall (op_ok thr) ops ->
  stores thr (contents ops) (run ops (newCollection cacheSize thr)).
Proof.
  intros Hok. apply (run_stores thr ops [] _ (newCollection_stores cacheSize thr) Hok).
Qed.
End RunSteps.

(* ------------------------------------------------------------------ *)
(** ** The collection is a map from ids to documents *)

Lemma Map_size_keys {V W} (m : JSMap V) (m' : JSMap W) :
  Map_keys m = Map_keys m' -> Map_size m = Map_size m'.
Proof.
  unfold Map_keys, Map_size. intros H.
  rewrite <- (length_map fst m), <- (length_map fst m'), H. reflexivity.
Qed.

Lemma Map_get_keys {V} (m : JSMap V) :
  NoDup (Map_keys m) ->
  map (Map_get m) (Map_keys m) = map (fun e => Some (snd e)) m.
Proof.
  induction m as [|[k v] m IH]; cbn [Map_keys map fst snd]; [reflexivity|].
  intros HN. inversion HN as [|? ? N1 N2]; subst.
  cbn [Map_get]. rewrite String.eqb_refl. f_equal.
  rewrite <- (IH N2). apply map_ext_in. intros k' Hin.
  destruct (String.eqb_spec k k') as [->|Hne]; [contradiction|reflexivity].
Qed.

Lemma truthy_documents (docs : list Document) :
  flat_map (fun doc : option Document =>
              match doc with
              | Some d => if truthy_value d then [d] else []
              | None => []
              end) (map Some docs)
  = filter truthy_value docs.
Proof.
  induction docs as [|doc docs IH]; cbn [map flat_map filter]; [reflexivity|].
  rewrite IH. destruct (truthy_value doc); reflexivity.
Qed.

Section Reads.
Context `{rt : Runtime}.

Lemma get_loop_stores (thr : Z) (d : Docs) (ids : list string) :
  forall c,
    stores thr d c ->
    wp (for_each Collection.get ids)
       (fun rs c' => rs = map (Map_get d) ids /\ stores thr d c')
       (fun _ _ => False) c.
Proof.
  induction ids as [|id ids IH]; intros c St.
  - cbn [for_each map]. apply wp_ret. split; [reflexivity|exact St].
  - cbn [for_each map]. apply wp_bind.
    eapply wp_mono; [apply (get_stores thr d id (fun _ _ => False) c St)| |].
    + intros r c1 [Hr St1]. apply wp_bind.
      eapply wp_mono; [apply (IH c1 St1)| |].
      * intros rs c2 [Hrs St2]. apply wp_ret. rewrite Hr, Hrs.
        split; [reflexivity|exact St2].
      * intros e c2 [].
    + intros e c1 [].
Qed.

Lemma fst_of_wp {S A} (c : M S A) (s : S) (a : A) :
  wp c (fun r _ => r = a) (fun _ _ => False) s -> fst (c s) = Ok a.
Proof.
  intros H. destruct (wp_returns c _ s H) as (r & s' & Hrun & ->).
  rewrite Hrun. reflexivity.
Qed.
End Reads.

Ltac doc_ok_by_computation :=
  split;
  [split;
   [vm_compute; reflexivity
   |first [let Hb := fresh "Hb" in intros Hb; vm_compute in Hb; discriminate Hb
          |intros _; vm_compute; reflexivity]]
  |unfold payload_small; vm_compute; discriminate].

Ltac history_ok :=
  repeat match goal with
         | |- Forall _ [] => constructor
         | |- Forall _ (_ :: _) => constructor
         | |- op_ok _ _ => cbn [op_ok]
         | |- batch_op_ok _ _ => cbn [batch_op_ok]
         | |- doc_ok _ _ _ => cbn [fst snd]; doc_ok_by_computation
         | |- True => exact I
         end.

(* ------------------------------------------------------------------ *)
(** ** The index file *)

Section Writing.
Import IndexFile.

Lemma new_Uint8Array_add (a b : Z) :
  0 <= a -> 0 <= b ->
  new_Uint8Array (a + b) = new_Uint8Array a ++ new_Uint8Array b.
Proof.
  intros Ha Hb. unfold new_Uint8Array. rewrite Z2Nat.inj_add by assumption.
  apply repeat_app.
Qed.

Lemma len_new_Uint8Array (n : Z) : 0 <= n -> len (new_Uint8Array n) = n.
Proof. intros Hn. unfold new_Uint8Array. rewrite len_repeat. lia. Qed.

Lemma put_filled (pre data : Uint8Array) (n : Z) :
  0 <= n ->
  put (len data) (fun b o => buf_set b o data) (filled pre (len data + n))
  = (Ok tt, filled (pre ++ data) n).
Proof.
  intros Hn. pose proof (len_nonneg data) as Hd. pose proof (len_nonneg pre) as Hp.
  unfold put, filled. cbn [w_buffer w_offset].
  rewrite len_app, len_new_Uint8Array by lia.
  destruct (Z.leb_spec (len pre + len data) (len pre + (len data + n))); [|lia].
  f_equal. rewrite len_app. f_equal. unfold buf_set.
  rewrite new_Uint8Array_add by lia.
  unfold len. rewrite Nat2Z.id.
  rewrite firstn_app, firstn_all, Nat.sub_diag, firstn_0, app_nil_r.
  rewrite skipn_app, skipn_all2 by lia.
  replace (List.length pre + List.length data - List.length pre)%nat
    with (List.length data) by lia.
  rewrite skipn_app.
  assert (Hz : List.length (new_Uint8Array (Z.of_nat (List.length data)))
               = List.length data).
  { unfold new_Uint8Array. rewrite repeat_length. lia. }
  rewrite skipn_all2 by lia. rewrite Hz, Nat.sub_diag. cbn [skipn app].
  rewrite <- app_assoc. reflexivity.
Qed.

Lemma bind_ok {S A B} (c : M S A) (k : A -> M S B) (s s' : S) (a : A) :
  c s = (Ok a, s') -> bind c k s = k a s'.
Proof. unfold bind. intros ->. reflexivity. Qed.

Lemma for_each_filled {A} (f : A -> M Writer unit) (bytes : A -> Uint8Array)
      (xs : list A) :
  (forall x pre n, 0 <= n ->
                   f x (filled pre (len (bytes x) + n)) = (Ok tt, filled (pre ++ bytes x) n)) ->
  forall pre n,
    0 <= n ->
    for_each f xs (filled pre (len (List.concat (map bytes xs)) + n))
    = (Ok (map (fun _ => tt) xs), filled (pre ++ List.concat (map bytes xs)) n).
Proof.
  intros Hf. induction xs as [|x xs IH]; intros pre n Hn.
  - cbn [for_each map List.concat]. rewrite app_nil_r. reflexivity.
  - cbn [for_each map List.concat]. rewrite len_app, <- Z.add_assoc.
    pose proof (len_nonneg (List.concat (map bytes xs))) as Hl.
    rewrite (bind_ok _ _ _ _ _
               (Hf x pre (len (List.concat (map bytes xs)) + n) ltac:(lia))).
    rewrite (bind_ok _ _ _ _ _ (IH (pre ++ bytes x) n Hn)).
    rewrite <- app_assoc. reflexivity.
Qed.

Lemma put_last (pre data : Uint8Array) (k total : Z)
      (write : Uint8Array -> Z -> Uint8Array) :
  (forall b o, write b o = buf_set b o data) -> k = len data ->
  len data <= total ->
  put k write (filled pre total) = (Ok tt, filled (pre ++ data) (total - len data)).
Proof.
  intros Hw -> Hle.
  replace total with (len data + (total - len data)) at 1 by lia.
  rewrite <- (put_filled pre data (total - len data)) by lia.
  unfold put. cbn [w_buffer w_offset filled]. rewrite Hw. reflexivity.
Qed.

Lemma put_then {B} (pre data : Uint8Array) (k total : Z)
      (write : Uint8Array -> Z -> Uint8Array) (rest : unit -> M Writer B) :
  (forall b o, write b o = buf_set b o data) -> k = len data ->
  len data <= total ->
  bind (put k write) rest (filled pre total)
  = rest tt (filled (pre ++ data) (total - len data)).
Proof.
  intros Hw Hk Hle. apply bind_ok. apply put_last; assumption.
Qed.

Lemma for_each_then {A B} (f : A -> M Writer unit) (bytes : A -> Uint8Array)
      (xs : list A) (pre : Uint8Array) (total : Z)
      (rest : list unit -> M Writer B) :
  (forall x pre n, 0 <= n ->
                   f x (filled pre (len (bytes x) + n))
                   = (Ok tt, filled (pre ++ bytes x) n)) ->
  len (List.concat (map bytes xs)) <= total ->
  bind (for_each f xs) rest (filled pre total)
  = rest (map (fun _ => tt) xs)
      (filled (pre ++ List.concat (map bytes xs))
         (total - len (List.concat (map bytes xs)))).
Proof.
  intros Hf Hle. apply bind_ok.
  replace total with (len (List.concat (map bytes xs))
                      + (total - len (List.concat (map bytes xs)))) at 1 by lia.
  apply for_each_filled; [exact Hf|lia].
Qed.

Lemma filled_same (pre pre' : Uint8Array) (n n' : Z) :
  pre = pre' -> n = n' -> filled pre n = filled pre' n'.
Proof. intros -> ->. reflexivity. Qed.

Ltac put_words :=
  repeat (erewrite put_then;
          [|intros; reflexivity
           |first [reflexivity|symmetry; apply len_le_bytes]
           |rewrite ?len_le_bytes; cbn [Z.of_nat Pos.of_succ_nat Pos.succ]; lia]).

Lemma write_location_filled (entry : string * DocumentLocation)
      (pre : Uint8Array) (n : Z) :
  0 <= n ->
  write_location entry (filled pre (len (location_bytes entry) + n))
  = (Ok tt, filled (pre ++ location_bytes entry) n).
Proof.
  intros Hn. unfold write_location, location_bytes.
  set (idBytes := encodeString (fst entry)).
  pose proof (len_nonneg idBytes) as Hid.
  rewrite !len_app, !len_le_bytes.
  cbn [Z.of_nat Pos.of_succ_nat Pos.succ].
  put_words.
  erewrite put_last;
    [|intros; reflexivity|symmetry; apply len_le_bytes
     |rewrite ?len_le_bytes; cbn [Z.of_nat Pos.of_succ_nat Pos.succ]; lia].
  f_equal. apply filled_same.
  - rewrite <- !app_assoc. reflexivity.
  - rewrite ?len_le_bytes. cbn [Z.of_nat Pos.of_succ_nat Pos.succ]. lia.
Qed.

Lemma write_id_filled (id : string) (pre : Uint8Array) (n : Z) :
  0 <= n ->
  write_id id (filled pre (len (id_bytes id) + n))
  = (Ok tt, filled (pre ++ id_bytes id) n).
Proof.
  intros Hn. unfold write_id, id_bytes.
  set (idBytes := encodeString id).
  pose proof (len_nonneg idBytes) as Hid.
  rewrite !len_app, !len_le_bytes.
  cbn [Z.of_nat Pos.of_succ_nat Pos.succ].
  put_words.
  erewrite put_last;
    [|intros; reflexivity|reflexivity
     |rewrite ?len_le_bytes; cbn [Z.of_nat Pos.of_succ_nat Pos.succ]; lia].
  f_equal. apply filled_same.
  - rewrite <- !app_assoc. reflexivity.
  - rewrite ?len_le_bytes. cbn [Z.of_nat Pos.of_succ_nat Pos.succ]. lia.
Qed.

Lemma write_postings_filled (entry : string * JSSet) (pre : Uint8Array) (n : Z) :
  0 <= n ->
  write_postings entry (filled pre (len (postings_bytes entry) + n))
  = (Ok tt, filled (pre ++ postings_bytes entry) n).
Proof.
  intros Hn. unfold write_postings, postings_bytes.
  set (valueBytes := encodeString (fst entry)).
  set (ids := List.concat (map id_bytes (snd entry))).
  pose proof (len_nonneg valueBytes) as Hv. pose proof (len_nonneg ids) as Hids.
  rewrite !len_app, !len_le_bytes.
  cbn [Z.of_nat Pos.of_succ_nat Pos.succ].
  put_words.
  erewrite (for_each_then write_id id_bytes);
    [|exact write_id_filled
     |fold ids; rewrite ?len_le_bytes; cbn [Z.of_nat Pos.of_succ_nat Pos.succ]; lia].
  fold ids. unfold ret. f_equal. apply filled_same.
  - rewrite <- !app_assoc. reflexivity.
  - rewrite ?len_le_bytes. cbn [Z.of_nat Pos.of_succ_nat Pos.succ]. lia.
Qed.

Lemma write_field_filled (field : string * JSMap JSSet) (pre : Uint8Array) (n : Z) :
  0 <= n ->
  write_field field (filled pre (len (field_bytes field) + n))
  = (Ok tt, filled (pre ++ field_bytes field) n).
Proof.
  intros Hn. unfold write_field, field_bytes.
  set (pathBytes := encodeString (fst field)).
  set (entries := List.concat (map postings_bytes (snd field))).
  pose proof (len_nonneg pathBytes) as Hv. pose proof (len_nonneg entries) as He.
  rewrite !len_app, !len_le_bytes.
  cbn [Z.of_nat Pos.of_succ_nat Pos.succ].
  put_words.
  erewrite (for_each_then write_postings postings_bytes);
    [|exact write_postings_filled
     |fold entries; rewrite ?len_le_bytes; cbn [Z.of_nat Pos.of_succ_nat Pos.succ];
      lia].
  fold entries. unfold ret. f_equal. apply filled_same.
  - rewrite <- !app_assoc. reflexivity.
  - rewrite ?len_le_bytes. cbn [Z.of_nat Pos.of_succ_nat Pos.succ]. lia.
Qed.

(** The sizes that [persist] adds up are the lengths of the bytes. *)
Lemma fold_left_sizes {A} (size : A -> Z) (xs : list A) (start : Z) :
  fold_left (fun acc x => acc + size x) xs start
  = start + fold_right (fun x acc => size x + acc) 0 xs.
Proof.
  revert start. induction xs as [|x xs IH]; intros start; cbn [fold_left fold_right].
  - lia.
  - rewrite IH. lia.
Qed.

Lemma len_concat_map {A} (bytes : A -> Uint8Array) (xs : list A) :
  len (List.concat (map bytes xs))
  = fold_right (fun x acc => len (bytes x) + acc) 0 xs.
Proof.
  induction xs as [|x xs IH]; cbn [map List.concat fold_right]; [reflexivity|].
  rewrite len_app, IH. reflexivity.
Qed.

Lemma primary_size_bytes (index : PrimaryIndex) (start : Z) :
  primary_size index start = start + len (List.concat (map location_bytes index)).
Proof.
  unfold primary_size. rewrite len_concat_map.
  rewrite (fold_left_sizes
             (fun entry => 2 + len (encodeString (fst entry)) + 8 + 4 + 4 + 4)).
  f_equal. induction index as [|e index IH]; cbn [fold_right]; [reflexivity|].
  rewrite IH. unfold location_bytes. rewrite !len_app, !len_le_bytes.
  cbn [Z.of_nat Pos.of_succ_nat Pos.succ]. lia.
Qed.

Lemma ids_size_bytes (ids : JSSet) (start : Z) :
  fold_left (fun size id => size + (2 + len (encodeString id))) ids start
  = start + len (List.concat (map id_bytes ids)).
Proof.
  rewrite len_concat_map.
  rewrite (fold_left_sizes (fun id => 2 + len (encodeString id))).
  f_equal. induction ids as [|e ids IH]; cbn [fold_right]; [reflexivity|].
  rewrite IH. unfold id_bytes. rewrite !len_app, !len_le_bytes.
  cbn [Z.of_nat Pos.of_succ_nat Pos.succ]. lia.
Qed.

Lemma postings_size_bytes (entries : JSMap JSSet) (start : Z) :
  fold_left (fun size entry =>
      let size := size + (4 + len (encodeString (fst entry)) + 4) in
      fold_left (fun size id => size + (2 + len (encodeString id)))
        (snd entry) size) entries start
  = start + len (List.concat (map postings_bytes entries)).
Proof.
  revert start. induction entries as [|e entries IH]; intros start;
    cbn [fold_left map List.concat].
  - unfold len. cbn. lia.
  - cbv zeta. rewrite IH, ids_size_bytes. rewrite len_app.
    unfold postings_bytes at 2. rewrite !len_app, !len_le_bytes.
    cbn [Z.of_nat Pos.of_succ_nat Pos.succ]. unfold JSSet in *. lia.
Qed.

Lemma secondary_size_bytes (indexes : SecondaryIndex) (start : Z) :
  secondary_size indexes start
  = start + len (List.concat (map field_bytes indexes)).
Proof.
  unfold secondary_size.
  revert start. induction indexes as [|f indexes IH]; intros start;
    cbn [fold_left map List.concat].
  - unfold len. cbn. lia.
  - cbv zeta. rewrite IH, postings_size_bytes. rewrite len_app.
    unfold field_bytes at 2. rewrite !len_app, !len_le_bytes.
    cbn [Z.of_nat Pos.of_succ_nat Pos.succ]. unfold JSMap, JSSet in *. lia.
Qed.

(** [persist] writes [index_file]: no write leaves the buffer, and the
    last one ends at its last byte. *)
Lemma persist_index_file (m : IndexManager) :
  persist m = Ok (index_file m) /\
  len (index_file m)
  = secondary_size (secondaryIndexes m)
      (primary_size (primaryIndex m) INDEX_HEADER_SIZE).
Proof.
  set (P := List.concat (map location_bytes (primaryIndex m))).
  set (S := List.concat (map field_bytes (secondaryIndexes m))).
  pose proof (len_nonneg P) as HP. pose proof (len_nonneg S) as HS.
  assert (Hh : len (index_header_bytes m) = 64).
  { unfold index_header_bytes. rewrite !len_app, !len_le_bytes.
    rewrite len_new_Uint8Array by lia. reflexivity. }
  split.
  - unfold persist. cbv zeta.
    rewrite secondary_size_bytes, primary_size_bytes. fold P S.
    unfold INDEX_HEADER_SIZE.
    change (mkWriter (new_Uint8Array (64 + len P + len S)) 0)
      with (filled [] (64 + len P + len S)).
    put_words.
    rewrite ?len_le_bytes. cbn [Z.of_nat Pos.of_succ_nat Pos.succ].
    erewrite bind_ok; [|reflexivity].
    match goal with
    | |- fst (_ ?w) = _ =>
        replace w with (filled (index_header_bytes m) (len P + len S))
    end.
    2:{ unfold filled. rewrite Hh. f_equal.
        unfold index_header_bytes, INDEX_HEADER_SIZE.
        cbn [w_buffer filled app]. fold P.
        rewrite <- !app_assoc. cbn [app].
        replace (64 + len P + len S - 4 - 4 - 2 - 4 - 4 - 4)
          with (42 + (len P + len S)) by lia.
        rewrite (new_Uint8Array_add 42 (len P + len S)) by lia.
        rewrite <- ?app_assoc. reflexivity. }
    erewrite (for_each_then write_location location_bytes);
      [|exact write_location_filled|fold P; lia].
    erewrite (for_each_then write_field field_bytes);
      [|exact write_field_filled|fold P S; lia].
    fold P S. unfold gets, filled. cbn [fst w_buffer].
    replace (len P + len S - len P - len S) with 0 by lia.
    unfold new_Uint8Array. cbn [Z.to_nat repeat]. rewrite app_nil_r.
    unfold index_file. fold P S. rewrite <- app_assoc. reflexivity.
  - rewrite secondary_size_bytes, primary_size_bytes. fold P S.
    unfold index_file. fold P S. rewrite !len_app, Hh.
    unfold INDEX_HEADER_SIZE. lia.
Qed.
End Writing.

Section Reading.
Import IndexFile.

Lemma at_offset_step (bytes : Uint8Array) (o : Z) (w rest : Uint8Array) :
  at_offset bytes o (w ++ rest) -> at_offset bytes (o + len w) rest.
Proof.
  intros (pre & -> & <-). exists (pre ++ w). rewrite <- app_assoc, len_app.
  split; reflexivity.
Qed.

Lemma at_offset_slice (bytes : Uint8Array) (o : Z) (w rest : Uint8Array) (n : Z) :
  at_offset bytes o (w ++ rest) -> n = len w ->
  slice bytes o (o + n) = w.
Proof.
  intros (pre & -> & <-) ->. unfold slice, len.
  rewrite Z2Nat.inj_add, !Nat2Z.id by lia.
  replace (List.length pre + List.length w - List.length pre)%nat
    with (List.length w) by lia.
  rewrite skipn_app, skipn_all, Nat.sub_diag. cbn [skipn app].
  rewrite firstn_app, firstn_all, Nat.sub_diag, firstn_0, app_nil_r. reflexivity.
Qed.

Lemma at_offset_view {A B} (bytes : Uint8Array) (o n : Z) (w rest : Uint8Array)
      (read : Uint8Array -> Z -> A) (k : A -> M IndexManager B) (m : IndexManager) :
  at_offset bytes o (w ++ rest) -> len w = n ->
  bind (view bytes n read o) k m = k (read bytes o) m.
Proof.
  intros (pre & -> & <-) <-. unfold view.
  rewrite !len_app. pose proof (len_nonneg rest).
  destruct (Z.leb_spec (len pre + len w) (len pre + (len w + len rest))); [|lia].
  reflexivity.
Qed.

Lemma view16_then {B} (bytes : Uint8Array) (o v x : Z) (rest : Uint8Array)
      (k : Z -> M IndexManager B) (m : IndexManager) :
  at_offset bytes o (le_bytes 2 v ++ rest) -> v mod 2 ^ 16 = x ->
  bind (view bytes 2 readUint16 o) k m = k x m.
Proof.
  intros H <-. rewrite (at_offset_view _ _ _ _ _ _ _ _ H) by apply len_le_bytes.
  unfold readUint16.
  rewrite (at_offset_slice _ _ _ _ 2 H) by (symmetry; apply len_le_bytes).
  rewrite le_value_le_bytes. reflexivity.
Qed.

Lemma view32_then {B} (bytes : Uint8Array) (o v x : Z) (rest : Uint8Array)
      (k : Z -> M IndexManager B) (m : IndexManager) :
  at_offset bytes o (le_bytes 4 v ++ rest) -> v mod 2 ^ 32 = x ->
  bind (view bytes 4 readUint32 o) k m = k x m.
Proof.
  intros H <-. rewrite (at_offset_view _ _ _ _ _ _ _ _ H) by apply len_le_bytes.
  unfold readUint32.
  rewrite (at_offset_slice _ _ _ _ 4 H) by (symmetry; apply len_le_bytes).
  rewrite le_value_le_bytes. reflexivity.
Qed.

Lemma view64_then {B} (bytes : Uint8Array) (o v x : Z) (rest : Uint8Array)
      (k : Z -> M IndexManager B) (m : IndexManager) :
  at_offset bytes o (le_bytes 8 v ++ rest) ->
  Number_of_BigInt (v mod 2 ^ 64) = x ->
  bind (view bytes 8 readUint64_Number o) k m = k x m.
Proof.
  intros H <-. rewrite (at_offset_view _ _ _ _ _ _ _ _ H) by apply len_le_bytes.
  unfold readUint64_Number, readUint64.
  rewrite (at_offset_slice _ _ _ _ 8 H) by (symmetry; apply len_le_bytes).
  rewrite le_value_le_bytes. reflexivity.
Qed.

Lemma decode_at (bytes : Uint8Array) (o : Z) (s : string) (rest : Uint8Array) :
  at_offset bytes o (encodeString s ++ rest) ->
  decodeString (slice bytes o (o + len (encodeString s))) = s.
Proof.
  intros H. rewrite (at_offset_slice _ _ _ _ _ H eq_refl).
  apply string_of_list_byte_of_string.
Qed.

Lemma small_word (v : Z) (n : Z) : 0 <= v < n -> (v mod n) mod n = v.
Proof. intros H. rewrite Z.mod_mod by lia. apply Z.mod_small. exact H. Qed.

(** Setting the entries of a map without repeated keys, one after the
    other, on a map that has none of the keys, appends them. *)
Lemma Map_set_appends {V} (m : JSMap V) (k : string) (v : V) :
  ~ In k (Map_keys m) -> Map_set m k v = m ++ [(k, v)].
Proof.
  induction m as [|[k0 v0] m IH]; cbn [Map_set Map_keys map fst In app];
    [reflexivity|].
  intros Hnot. destruct (String.eqb_spec k0 k) as [->|Hne]; [tauto|].
  rewrite IH by tauto. reflexivity.
Qed.

Lemma Map_set_all_fresh {V} (entries : JSMap V) :
  forall m,
    NoDup (Map_keys entries) ->
    (forall k, In k (Map_keys entries) -> ~ In k (Map_keys m)) ->
    fold_left (fun idx e => Map_set idx (fst e) (snd e)) entries m = m ++ entries.
Proof.
  induction entries as [|[k v] entries IH]; intros m HN Hfresh;
    cbn [fold_left fst snd].
  - rewrite app_nil_r. reflexivity.
  - cbn [Map_keys map fst] in HN, Hfresh.
    inversion HN as [|? ? N1 N2]; subst.
    rewrite Map_set_appends by (apply Hfresh; left; reflexivity).
    rewrite IH.
    + rewrite <- app_assoc. reflexivity.
    + exact N2.
    + intros k' Hin. unfold Map_keys. rewrite map_app, in_app_iff.
      cbn [map fst In]. intros [H|[H|[]]].
      * exact (Hfresh k' (or_intror Hin) H).
      * subst k'. exact (N1 Hin).
Qed.

Lemma Set_add_fresh (s : JSSet) (x : string) :
  ~ In x s -> Set_add s x = s ++ [x].
Proof.
  intros Hnot. unfold Set_add.
  destruct (Set_has s x) eqn:Hhas; [|reflexivity].
  exfalso. apply Hnot. unfold Set_has in Hhas.
  apply existsb_exists in Hhas. destruct Hhas as (y & Hin & Heq).
  apply String.eqb_eq in Heq. subst. exact Hin.
Qed.

End Reading.

Ltac next_word H := apply at_offset_step in H; rewrite ?len_le_bytes in H;
                  cbn [Z.of_nat Pos.of_succ_nat Pos.succ] in H.

Section Loading.
Import IndexFile.

Lemma load_locations_file (bytes : Uint8Array) (entries : PrimaryIndex) :
  Forall location_in_range entries ->
  forall o rest m,
    at_offset bytes o (List.concat (map location_bytes entries) ++ rest) ->
    load_locations bytes (List.length entries) o m
    = (Ok (o + len (List.concat (map location_bytes entries))),
       set_primaryIndex
         (fold_left (fun idx e => Map_set idx (fst e) (snd e)) entries
            (primaryIndex m)) m).
Proof.
  induction 1 as [|[id loc] entries (R1 & R2 & R3 & R4) _ IH]; intros o rest m H.
  - cbn [List.length load_locations map List.concat fold_left].
    unfold ret, len. cbn [List.length Z.of_nat]. rewrite Z.add_0_r.
    destruct m; reflexivity.
  - cbn [List.length load_locations map List.concat fold_left fst snd] in *.
    cbv zeta. unfold location_bytes in H at 1. cbn [fst snd] in H.
    rewrite <- !app_assoc in H.
    pose proof (len_nonneg (encodeString id)) as Hid.
    rewrite (view16_then _ _ _ (len (encodeString id)) _ _ _ H)
      by (apply small_word; lia).
    next_word H.
    rewrite (decode_at _ _ _ _ H).
    next_word H.
    rewrite (view64_then _ _ _ (loc_offset loc) _ _ _ H)
      by (assert (2 ^ 53 < 2 ^ 64) by reflexivity;
          rewrite (small_word (loc_offset loc) (2 ^ 64)) by lia;
          apply Number_of_BigInt_small; lia).
    next_word H.
    rewrite (view32_then _ _ _ (loc_length loc) _ _ _ H)
      by (unfold JS.ToUint32; apply small_word; lia).
    next_word H.
    rewrite (view32_then _ _ _ (loc_slabSize loc) _ _ _ H)
      by (unfold JS.ToUint32; apply small_word; lia).
    next_word H.
    rewrite (view32_then _ _ _ (if loc_isBlob loc then 1 else 0) _ _ _ H)
      by (destruct (loc_isBlob loc); reflexivity).
    next_word H.
    erewrite bind_ok; [|reflexivity].
    rewrite (IH _ rest _ H).
    cbn [primaryIndex set_primaryIndex]. f_equal.
    + f_equal. rewrite len_app. unfold location_bytes. cbn [fst snd].
      rewrite !len_app, !len_le_bytes. cbn [Z.of_nat Pos.of_succ_nat Pos.succ].
      lia.
    + replace (negb (JS.and (if loc_isBlob loc then 1 else 0) 1 =? 0))
        with (loc_isBlob loc) by (destruct (loc_isBlob loc); reflexivity).
      destruct loc, m; reflexivity.
Qed.

Lemma load_ids_file (bytes : Uint8Array) (ids : JSSet) :
  Forall id_in_range ids ->
  forall o rest acc m,
    at_offset bytes o (List.concat (map id_bytes ids) ++ rest) ->
    load_ids bytes (List.length ids) o acc m
    = (Ok (fold_left Set_add ids acc,
           o + len (List.concat (map id_bytes ids))), m).
Proof.
  induction 1 as [|id ids R1 _ IH]; intros o rest acc m H.
  - cbn [List.length load_ids map List.concat fold_left].
    unfold ret, len. cbn [List.length Z.of_nat]. rewrite Z.add_0_r. reflexivity.
  - cbn [List.length load_ids map List.concat fold_left] in *.
    cbv zeta. unfold id_bytes in H at 1. rewrite <- !app_assoc in H.
    unfold id_in_range in R1.
    pose proof (len_nonneg (encodeString id)) as Hid.
    rewrite (view16_then _ _ _ (len (encodeString id)) _ _ _ H)
      by (apply small_word; lia).
    next_word H.
    rewrite (decode_at _ _ _ _ H).
    next_word H.
    rewrite (IH _ rest _ _ H). do 3 f_equal.
    rewrite len_app. unfold id_bytes.
    rewrite !len_app, !len_le_bytes. cbn [Z.of_nat Pos.of_succ_nat Pos.succ].
    lia.
Qed.

Lemma Set_add_all_fresh (ids : JSSet) :
  forall acc,
    NoDup ids -> (forall x, In x ids -> ~ In x acc) ->
    fold_left Set_add ids acc = acc ++ ids.
Proof.
  induction ids as [|x ids IH]; intros acc HN Hfresh; cbn [fold_left].
  - rewrite app_nil_r. reflexivity.
  - inversion HN as [|? ? N1 N2]; subst.
    rewrite Set_add_fresh by (apply Hfresh; left; reflexivity).
    rewrite IH.
    + rewrite <- app_assoc. reflexivity.
    + exact N2.
    + intros y Hin. rewrite in_app_iff. cbn [In]. intros [H|[H|[]]].
      * exact (Hfresh y (or_intror Hin) H).
      * subst y. exact (N1 Hin).
Qed.

Lemma Map_set_last {V} (m : JSMap V) (k : string) (v v' : V) :
  ~ In k (Map_keys m) ->
  Map_set (m ++ [(k, v)]) k v' = m ++ [(k, v')].
Proof.
  induction m as [|[k0 v0] m IH]; cbn [Map_set Map_keys map fst In app].
  - intros _. rewrite String.eqb_refl. reflexivity.
  - intros Hnot. destruct (String.eqb_spec k0 k) as [->|Hne]; [tauto|].
    rewrite IH by tauto. reflexivity.
Qed.

Lemma load_postings_file (bytes : Uint8Array) (fieldPath : string)
      (before : SecondaryIndex) (entries : JSMap JSSet) :
  Forall postings_in_range entries ->
  ~ In fieldPath (Map_keys before) ->
  forall o rest valueMap m,
    at_offset bytes o (List.concat (map postings_bytes entries) ++ rest) ->
    secondaryIndexes m = before ++ [(fieldPath, valueMap)] ->
    load_postings bytes fieldPath (List.length entries) o valueMap m
    = (Ok (o + len (List.concat (map postings_bytes entries))),
       set_secondaryIndexes
         (before ++ [(fieldPath,
                      fold_left (fun vm e => Map_set vm (fst e) (snd e))
                        entries valueMap)]) m).
Proof.
  intros HR Hnot.
  induction HR as [|[value ids] entries (R1 & R2 & R3 & R4) _ IH];
    intros o rest valueMap m H Hsec.
  - cbn [List.length load_postings map List.concat fold_left].
    unfold ret, len. cbn [List.length Z.of_nat]. rewrite Z.add_0_r.
    rewrite <- Hsec. destruct m; reflexivity.
  - cbn [List.length load_postings map List.concat fold_left fst snd] in *.
    cbv zeta. unfold postings_bytes in H at 1. cbn [fst snd] in H.
    rewrite <- !app_assoc in H.
    pose proof (len_nonneg (encodeString value)) as Hv.
    rewrite (view32_then _ _ _ (len (encodeString value)) _ _ _ H)
      by (unfold JS.ToUint32; apply small_word; lia).
    next_word H.
    rewrite (decode_at _ _ _ _ H).
    next_word H.
    assert (Hsz : 0 <= Set_size ids) by (unfold Set_size; lia).
    rewrite (view32_then _ _ _ (Set_size ids) _ _ _ H)
      by (unfold JS.ToUint32; apply small_word; lia).
    next_word H.
    unfold Set_size at 1. rewrite Nat2Z.id.
    erewrite bind_ok; [|apply (load_ids_file bytes ids R4 _ _ [] m H)].
    cbn [fst snd].
    rewrite (Set_add_all_fresh ids [] R3) by (intros x _ []).
    cbn [app]. apply at_offset_step in H.
    erewrite bind_ok; [|reflexivity].
    rewrite (IH _ rest _ _ H).
    + cbn [set_secondaryIndexes secondaryIndexes primaryIndex dirty persisted].
      f_equal. f_equal. rewrite len_app. unfold postings_bytes. cbn [fst snd].
      rewrite !len_app, !len_le_bytes. cbn [Z.of_nat Pos.of_succ_nat Pos.succ].
      lia.
    + cbn [set_secondaryIndexes secondaryIndexes]. rewrite Hsec.
      apply Map_set_last. exact Hnot.
Qed.

Lemma load_fields_file (bytes : Uint8Array) (fields : SecondaryIndex) :
  Forall field_in_range fields ->
  NoDup (Map_keys fields) ->
  forall o rest m,
    at_offset bytes o (List.concat (map field_bytes fields) ++ rest) ->
    (forall k, In k (Map_keys fields) -> ~ In k (Map_keys (secondaryIndexes m))) ->
    load_fields bytes (List.length fields) o m
    = (Ok (o + len (List.concat (map field_bytes fields))),
       set_secondaryIndexes (secondaryIndexes m ++ fields) m).
Proof.
  induction 1 as [|[fieldPath valueMap] fields (R1 & R2 & R3 & R4) _ IH];
    intros HN o rest m H Hfresh.
  - cbn [List.length load_fields map List.concat].
    unfold ret, len. cbn [List.length Z.of_nat]. rewrite Z.add_0_r, app_nil_r.
    destruct m; reflexivity.
  - cbn [List.length load_fields map List.concat fst snd Map_keys] in *.
    inversion HN as [|? ? N1 N2]; subst.
    cbv zeta. unfold field_bytes in H at 1. cbn [fst snd] in H.
    rewrite <- !app_assoc in H.
    pose proof (len_nonneg (encodeString fieldPath)) as Hv.
    rewrite (view16_then _ _ _ (len (encodeString fieldPath)) _ _ _ H)
      by (apply small_word; lia).
    next_word H.
    rewrite (decode_at _ _ _ _ H).
    next_word H.
    assert (Hsz : 0 <= Map_size valueMap) by (unfold Map_size; lia).
    rewrite (view32_then _ _ _ (Map_size valueMap) _ _ _ H)
      by (unfold JS.ToUint32; apply small_word; lia).
    next_word H.
    erewrite bind_ok; [|reflexivity].
    unfold Map_size at 1. rewrite Nat2Z.id.
    assert (Hnot : ~ In fieldPath (Map_keys (secondaryIndexes m)))
      by (apply Hfresh; left; reflexivity).
    erewrite bind_ok;
      [|apply (load_postings_file bytes fieldPath (secondaryIndexes m) valueMap
                 R4 Hnot _ _ [] _ H);
        cbn [set_secondaryIndexes secondaryIndexes];
        apply Map_set_appends; exact Hnot].
    apply at_offset_step in H.
    rewrite (Map_set_all_fresh valueMap [] R3) by (intros k _ []).
    cbn [app].
    rewrite (IH N2 _ rest _ H).
    + cbn [set_secondaryIndexes secondaryIndexes primaryIndex dirty persisted].
      f_equal.
      * f_equal. rewrite len_app. unfold field_bytes. cbn [fst snd].
        rewrite !len_app, !len_le_bytes. cbn [Z.of_nat Pos.of_succ_nat Pos.succ].
        lia.
      * rewrite <- app_assoc. reflexivity.
    + cbn [set_secondaryIndexes secondaryIndexes]. intros k Hin.
      unfold Map_keys. rewrite map_app, in_app_iff. cbn [map fst In].
      intros [Hk|[Hk|[]]].
      * exact (Hfresh k (or_intror Hin) Hk).
      * subst k. exact (N1 Hin).
Qed.
End Loading.

Lemma read16_at (bytes : Uint8Array) (o v x : Z) (rest : Uint8Array) :
  at_offset bytes o (le_bytes 2 v ++ rest) -> v mod 2 ^ 16 = x ->
  readUint16 bytes o = x.
Proof.
  intros H <-. unfold readUint16.
  rewrite (at_offset_slice _ _ _ _ 2 H) by (symmetry; apply len_le_bytes).
  apply le_value_le_bytes.
Qed.

Lemma read32_at (bytes : Uint8Array) (o v x : Z) (rest : Uint8Array) :
  at_offset bytes o (le_bytes 4 v ++ rest) -> v mod 2 ^ 32 = x ->
  readUint32 bytes o = x.
Proof.
  intros H <-. unfold readUint32.
  rewrite (at_offset_slice _ _ _ _ 4 H) by (symmetry; apply len_le_bytes).
  apply le_value_le_bytes.
Qed.

(** [load] on the file that [persist] writes for an index in range. *)
Lemma load_index_file (m m0 : IndexManager) :
  index_in_range m ->
  primaryIndex m0 = [] -> secondaryIndexes m0 = [] ->
  IndexFile.load (Some (index_file m)) m0
  = (Opened tt,
     mkIndex (primaryIndex m) (secondaryIndexes m) false (persisted m0)).
Proof.
  intros (R1 & R2 & R3 & R4 & R5 & R6 & R7) Hp0 Hs0.
  set (P := List.concat (map location_bytes (primaryIndex m))) in *.
  set (S := List.concat (map field_bytes (secondaryIndexes m))) in *.
  rewrite primary_size_bytes in R4. fold P in R4.
  pose proof (len_nonneg P) as HP. pose proof (len_nonneg S) as HS.
  assert (HsP : 0 <= Map_size (primaryIndex m)) by (unfold Map_size; lia).
  assert (HsS : 0 <= Map_size (secondaryIndexes m)) by (unfold Map_size; lia).
  unfold INDEX_HEADER_SIZE in R4.
  set (bytes := index_file m).
  assert (H0 : at_offset bytes 0
                 (le_bytes 4 (JS.ToUint32 INDEX_FILE_MAGIC)
                  ++ le_bytes 4 (JS.ToUint32 FORMAT_VERSION)
                  ++ le_bytes 2 (Map_size (secondaryIndexes m) mod 2 ^ 16)
                  ++ le_bytes 4 (JS.ToUint32 (Map_size (primaryIndex m)))
                  ++ le_bytes 4 (JS.ToUint32 64)
                  ++ le_bytes 4 (JS.ToUint32 (64 + len P))
                  ++ new_Uint8Array 42 ++ P ++ S ++ [])).
  { exists []. split; [|reflexivity]. unfold bytes, index_file, index_header_bytes.
    fold P S. unfold INDEX_HEADER_SIZE. rewrite <- !app_assoc, app_nil_r.
    reflexivity. }
  pose proof H0 as H4. next_word H4. change (0 + 4) with 4 in H4.
  pose proof H4 as H8. next_word H8. change (4 + 4) with 8 in H8.
  pose proof H8 as H10. next_word H10. change (8 + 2) with 10 in H10.
  pose proof H10 as H14. next_word H14. change (10 + 4) with 14 in H14.
  pose proof H14 as H18. next_word H18. change (14 + 4) with 18 in H18.
  pose proof H18 as H22. next_word H22. change (18 + 4) with 22 in H22.
  pose proof H22 as H64. apply at_offset_step in H64.
  rewrite len_new_Uint8Array in H64 by lia. change (22 + 42) with 64 in H64.
  pose proof H64 as HS0. apply at_offset_step in HS0.
  assert (Hlen : len bytes = 64 + len P + len S).
  { unfold bytes. rewrite (proj2 (persist_index_file m)).
    rewrite secondary_size_bytes, primary_size_bytes. fold P S.
    unfold INDEX_HEADER_SIZE. reflexivity. }
  unfold IndexFile.load. rewrite Hlen. unfold INDEX_HEADER_SIZE.
  destruct (Z.ltb_spec (64 + len P + len S) 64); [lia|].
  rewrite (read32_at bytes 0 _ INDEX_FILE_MAGIC _ H0) by reflexivity.
  rewrite Z.eqb_refl. cbn [negb].
  rewrite (read32_at bytes 4 _ FORMAT_VERSION _ H4) by reflexivity.
  rewrite Z.eqb_refl. cbn [negb].
  rewrite (read16_at bytes 8 _ (Map_size (secondaryIndexes m)) _ H8)
    by (apply small_word; lia).
  rewrite (read32_at bytes 10 _ (Map_size (primaryIndex m)) _ H10)
    by (unfold JS.ToUint32; apply small_word; lia).
  rewrite (read32_at bytes 14 _ 64 _ H14) by reflexivity.
  rewrite (read32_at bytes 18 _ (64 + len P) _ H18)
    by (unfold JS.ToUint32; apply small_word; lia).
  unfold Map_size at 1 2. rewrite !Nat2Z.id.
  erewrite bind_ok; [|apply (load_locations_file bytes _ R3 64 (S ++ []) m0 H64)].
  rewrite Hp0, (Map_set_all_fresh (primaryIndex m) [] R2) by (intros k _ []).
  cbn [app]. fold P.
  erewrite bind_ok;
    [|apply (load_fields_file bytes _ R7 R6 (64 + len P) [] _ HS0);
      cbn [set_primaryIndex secondaryIndexes]; rewrite Hs0; intros k _ []].
  cbn [set_primaryIndex set_secondaryIndexes secondaryIndexes primaryIndex
         dirty persisted].
  rewrite Hs0. cbn [app]. unfold modify, set_dirty.
  cbn [secondaryIndexes primaryIndex dirty persisted]. reflexivity.
Qed.

Ltac no_key_twice :=
  repeat match goal with
         | |- NoDup [] => constructor
         | |- NoDup (_ :: _) => constructor
         | |- ~ In _ _ => cbn [In]; intuition discriminate
         end.

Ltac in_range :=
  repeat match goal with
         | |- _ /\ _ => split
         | |- Forall _ [] => constructor
         | |- Forall _ (_ :: _) => constructor
         | |- location_in_range _ => unfold location_in_range; cbn [fst snd]
         | |- postings_in_range _ => unfold postings_in_range; cbn [fst snd]
         | |- field_in_range _ => unfold field_in_range; cbn [fst snd]
         | |- id_in_range _ => unfold id_in_range
         | |- NoDup _ => cbn [Map_keys map fst]; no_key_twice
         | |- _ < _ => vm_compute; reflexivity
         | |- _ <= _ => vm_compute; discriminate
         end.



(** X13.  [persist] never leaves its buffer: whatever the index holds,
    the size it adds up beforehand is exactly the number of bytes it
    writes, so that no write throws a RangeError and the last write ends at
    the last byte.  The file is a header of 64 bytes (magic number, version,
    the two counts, the two start offsets, zeros), the entries of the
    primary index, and the secondary indexes, in the order of the maps; a
    number that does not fit its word is written modulo the size of the
    word, without an exception. *)
Theorem persist_fills_its_buffer (m : IndexManager) :
  IndexFile.persist m = Ok (index_file m) /\
  len (index_file m)
  = IndexFile.secondary_size (secondaryIndexes m)
      (IndexFile.primary_size (primaryIndex m) INDEX_HEADER_SIZE) /\
  len (index_header_bytes m) = INDEX_HEADER_SIZE.
Proof.
  destruct (persist_index_file m) as [H1 H2]. split; [exact H1|].
  split; [exact H2|].
  unfold index_header_bytes. rewrite !len_app, !len_le_bytes.
  rewrite len_new_Uint8Array by lia. reflexivity.
Qed.

(* ------------------------------------------------------------------ *)
(** ** Damaged blob files *)

(** X14.  A damaged blob file is detected.  Take a location that holds
    a blob document whose reference [JSON.parse] reads back, and any state
    of the blob directory.  If the blob file of the document is its
    encoding with one byte replaced by another byte, [read] throws
    ChecksumMismatchError with the checksum of the reference and the
    checksum of the damaged file (a CRC-32 tells any two files apart that
    differ in one byte) and returns no document, although the slot of the
    reference is intact. *)
Theorem damaged_blob_is_detected `{rt : Runtime} (s : StorageEngine)
        (loc : DocumentLocation) (id : string) (data : Document)
        (files : JSMap Uint8Array) (a b : Uint8Array) (x v : byte) :
  holds s loc id data ->
  round_trips (blobThreshold s) id data ->
  loc_isBlob loc = true ->
  encodeDocument data = a ++ x :: b ->
  x <> v ->
  Map_get files (blob_name id) = Some (a ++ v :: b) ->
  fst (Storage.read loc (set_blobFiles files s))
  = Err (ChecksumMismatchError (crc32 (encodeDocument data))
           (crc32 (a ++ v :: b)) None).
Proof.
  intros Hh Hrt Hb Hsplit Hxv Hfile.
  assert (Hread : forall files,
             fst (Storage.read loc (set_blobFiles files s))
             = match Map_get files (blob_name id) with
               | None => Err (FileNotFoundError (blob_name id))
               | Some blobBytes =>
                   if negb (crc32 blobBytes =? crc32 (encodeDocument data))
                   then Err (ChecksumMismatchError (crc32 (encodeDocument data))
                               (crc32 blobBytes) None)
                   else match JSON_parse blobBytes with
                        | Some doc => Ok doc
                        | None => Err SyntaxError
                        end
               end).
  { clear files Hfile. intros files. destruct Hh as [H1 H2 H3 H4]. destruct Hrt as [_ Hrt].
    rewrite Hb in H2. symmetry in H2. specialize (Hrt H2).
    unfold Storage.read, readBlob, readBlobReference, readSlot, bind, modify,
      pure_result, gets.
    rewrite Hb. cbn [file set_docReads set_blobFiles blobFiles].
    rewrite H3.
    change (blobThreshold s) with
      (blobThreshold (set_docReads (S (docReads (set_blobFiles files s)))
                        (set_blobFiles files s))) in Hrt.
    cbn [blobThreshold set_docReads set_blobFiles] in Hrt. rewrite Hrt.
    unfold ret, throw. cbn [ref_path ref_checksum blobFiles set_docReads set_blobFiles].
    destruct (Map_get files (blob_name id)) as [blobBytes|]; [|reflexivity].
    destruct (negb (crc32 blobBytes =? crc32 (encodeDocument data)));
      [reflexivity|].
    destruct (JSON_parse blobBytes); reflexivity. }
  rewrite Hread, Hfile.
  destruct (Z.eqb_spec (crc32 (a ++ v :: b)) (crc32 (encodeDocument data)))
    as [Heq|Hne]; [|reflexivity].
  exfalso. rewrite Hsplit in Heq.
  exact (crc32_one_byte a b x v Hxv (eq_sym Heq)).
Qed.

Lemma damaged_blob_is_detected_witness :
  let s := storage (@run blob_runtime blob_history (newCollection 1 46)) in
  let loc := match Map_get (primaryIndex (indexManager
                     (@run blob_runtime blob_history (newCollection 1 46)))) "c"
             with Some l => l | None => mkLocation 0 0 0 false end in
  let bytes := @encodeDocument blob_runtime Examples.bob in
  let files := Map_set (blobFiles s) (blob_name "c") ([] ++ x00 :: tl bytes) in
  @holds blob_runtime s loc "c" Examples.bob /\
  @round_trips blob_runtime (blobThreshold s) "c" Examples.bob /\
  loc_isBlob loc = true /\
  bytes = [] ++ hd x00 bytes :: tl bytes /\
  hd x00 bytes <> x00 /\
  Map_get files (blob_name "c") = Some ([] ++ x00 :: tl bytes) /\
  fst (@Storage.read blob_runtime loc (set_blobFiles files s))
  = Err (ChecksumMismatchError (crc32 bytes) (crc32 ([] ++ x00 :: tl bytes)) None).
Proof.
  intros s loc bytes files.
  assert (H1 : @holds blob_runtime s loc "c" Examples.bob).
  { constructor; [vm_compute; reflexivity..|intros _; vm_compute; reflexivity]. }
  assert (H2 : @round_trips blob_runtime (blobThreshold s) "c" Examples.bob).
  { split; [vm_compute; reflexivity|intros _; vm_compute; reflexivity]. }
  assert (H3 : loc_isBlob loc = true) by (vm_compute; reflexivity).
  assert (H4 : bytes = [] ++ hd x00 bytes :: tl bytes) by (vm_compute; reflexivity).
  assert (H5 : hd x00 bytes <> x00) by (vm_compute; discriminate).
  assert (H6 : Map_get files (blob_name "c") = Some ([] ++ x00 :: tl bytes))
    by apply Map_get_set_same.
  exact (conj H1 (conj H2 (conj H3 (conj H4 (conj H5 (conj H6
           (@damaged_blob_is_detected blob_runtime s loc "c" Examples.bob
              files [] (tl bytes) (hd x00 bytes) x00 H1 H2 H3 H4 H5 H6))))))).
Defined.

(* ------------------------------------------------------------------ *)
(** ** The header on disk *)

Lemma preserves_wp {S A} (P : S -> Prop) (c : M S A) (Q : A -> S -> Prop)
      (E : error -> S -> Prop) (s : S) :
  preserves P c -> P s ->
  (forall a s', P s' -> Q a s') -> (forall e s', P s' -> E e s') ->
  wp c Q E s.
Proof.
  intros Hc HP HQ HE. specialize (Hc s HP). unfold wp.
  destruct (c s) as [[a|e] s']; cbn [snd] in Hc; [apply HQ|apply HE]; exact Hc.
Qed.

Ltac depth_run :=
  repeat first
    [ progress preserves_run
    | match goal with
      | |- preserves _ (modify _) =>
          apply preserves_modify; intros ? ?; assumption
      | |- preserves _ (pure_result _) => intros ? ?; assumption
      end ].

Section Depth.
Context `{rt : Runtime}.
Variable d : Z.

Lemma depth_modify_header f : preserves (at_depth d) (modify_header f).
Proof. unfold modify_header. depth_run. Qed.

Lemma depth_writeAtOffset o data : preserves (at_depth d) (writeAtOffset o data).
Proof. unfold writeAtOffset. depth_run. Qed.

Lemma depth_allocateSlot n : preserves (at_depth d) (allocateSlot n).
Proof. unfold allocateSlot. depth_run. Qed.

Lemma depth_writeSlot o data sz isBlob :
  preserves (at_depth d) (writeSlot o data sz isBlob).
Proof. unfold writeSlot. depth_run. apply depth_writeAtOffset. Qed.

Lemma depth_markSlotFree o : preserves (at_depth d) (markSlotFree o).
Proof. unfold markSlotFree. depth_run. apply depth_writeAtOffset. Qed.

Lemma depth_freeList_add x : preserves (at_depth d) (freeList_add x).
Proof. unfold freeList_add. depth_run. Qed.

Lemma depth_advance a : preserves (at_depth d) (advance a).
Proof. unfold advance. depth_run. apply depth_modify_header. Qed.

Lemma depth_writeBlobFile path data : preserves (at_depth d) (writeBlobFile path data).
Proof. unfold writeBlobFile. depth_run. Qed.

Lemma depth_readSlot o n : preserves (at_depth d) (readSlot o n).
Proof. unfold readSlot. depth_run. Qed.

Lemma depth_readBlobReference o n : preserves (at_depth d) (readBlobReference o n).
Proof. unfold readBlobReference. depth_run. apply depth_readSlot. Qed.

Lemma depth_deleteBlob path : preserves (at_depth d) (deleteBlob path).
Proof. unfold deleteBlob. depth_run. Qed.

Lemma depth_writeBlobReferenceSlot ref :
  preserves (at_depth d) (writeBlobReferenceSlot ref).
Proof.
  unfold writeBlobReferenceSlot. depth_run;
    auto using depth_allocateSlot, depth_writeSlot, depth_advance.
Qed.

Lemma depth_writeBlobForUpdateUnlocked id data :
  preserves (at_depth d) (writeBlobForUpdateUnlocked id data).
Proof.
  unfold writeBlobForUpdateUnlocked. depth_run;
    auto using depth_writeBlobFile, depth_writeBlobReferenceSlot.
Qed.

Lemma depth_updateBlobReferenceUnlocked id data old :
  preserves (at_depth d) (updateBlobReferenceUnlocked id data old).
Proof.
  unfold updateBlobReferenceUnlocked. depth_run;
    auto using depth_writeBlobFile, depth_allocateSlot, depth_writeSlot,
      depth_advance, depth_markSlotFree, depth_freeList_add.
Qed.
End Depth.

Section Settled.
Context `{rt : Runtime}.

Lemma synced_after_writeHeader (f : Uint8Array) (h : DataFileHeader) :
  pread (pwrite f 0 (headerBytes h)) 0 DATA_HEADER_SIZE = headerBytes h.
Proof.
  pose proof (len_headerBytes h) as Hl. pose proof (len_nonneg f) as Hf.
  unfold DATA_HEADER_SIZE in *.
  change 0 with (0 + 0) at 2. rewrite pread_pwrite_inside by lia.
  rewrite <- (app_nil_r (headerBytes h)) at 1. apply pread_prefix.
  symmetry. exact Hl.
Qed.

(** [flushMetadata] on a header that is on disk or marked. *)
Lemma wp_flushMetadata_synced Q E s :
  headerDirty s = true \/ synced s ->
  (forall s', batchDepth s' = batchDepth s -> synced s' ->
              headerDirty s' = false -> Q tt s') ->
  wp flushMetadata Q E s.
Proof.
  intros HK HQ.
  unfold flushMetadata, writeHeader, writeAtOffset, updateSharedState.
  apply wp_bind, wp_gets.
  destruct (headerDirty s) eqn:Hd; cbn [when].
  - apply wp_bind, wp_bind, wp_bind, wp_gets, wp_modify, wp_modify.
    apply wp_bind, wp_gets.
    match goal with |- wp (when ?b _) _ _ ?s1 => destruct b; cbn [when] end.
    + apply wp_bind, wp_modify, wp_modify.
      apply HQ; [reflexivity|apply synced_after_writeHeader|reflexivity].
    + apply wp_ret.
      apply HQ; [reflexivity|apply synced_after_writeHeader|reflexivity].
  - destruct HK as [HK|HK]; [discriminate|].
    apply wp_bind, wp_ret. apply wp_bind, wp_gets.
    destruct (sharedStateDirty s); cbn [when].
    + apply wp_bind, wp_modify, wp_modify. apply HQ; try reflexivity; assumption.
    + apply wp_ret. apply HQ; try reflexivity; assumption.
Qed.

(** [flushIfNotBatching] once the header is marked. *)
Lemma wp_flush_settled (d : Z) Q E s :
  batchDepth s = d -> headerDirty s = true ->
  (forall s', settled d s' -> Q tt s') ->
  wp flushIfNotBatching Q E s.
Proof.
  intros Hd Hdirty HQ. unfold flushIfNotBatching. apply wp_bind, wp_gets.
  rewrite Hd. destruct (Z.eqb_spec d 0) as [->|Hne]; cbn [when].
  - apply wp_flushMetadata_synced; [left; exact Hdirty|].
    intros s' H1 H2 H3. apply HQ. split; [congruence|].
    split; [right; exact H2|intros _; exact H2].
  - apply wp_ret. apply HQ. split; [exact Hd|].
    split; [left; exact Hdirty|intros H; contradiction].
Qed.

(** The end of every mutation: the counters change, the header is
    marked and, outside a batch, written. *)
Lemma wp_mark_flush_settled {A} (d : Z) (a : A) Q E s :
  batchDepth s = d ->
  (forall s', settled d s' -> Q a s') ->
  wp (markMetadataDirty ;; flushIfNotBatching ;; ret a) Q E s.
Proof.
  intros Hd HQ. apply wp_bind. unfold markMetadataDirty. apply wp_modify.
  apply wp_bind. apply (wp_flush_settled d); [exact Hd|reflexivity|].
  intros s' Hs. apply wp_ret. apply HQ. exact Hs.
Qed.

Lemma wp_adjustLiveData_settled (d : Z) (delta : Z) Q E s :
  batchDepth s = d ->
  (forall s', settled d s' -> Q tt s') ->
  wp (adjustLiveData delta) Q E s.
Proof.
  intros Hd HQ. unfold adjustLiveData, modify_header.
  apply wp_bind, wp_modify. apply wp_bind. unfold markMetadataDirty.
  apply wp_modify. apply (wp_flush_settled d); [exact Hd|reflexivity|exact HQ].
Qed.
End Settled.

Create HintDb depth.
#[export] Hint Resolve depth_modify_header depth_writeAtOffset depth_allocateSlot
  depth_writeSlot depth_markSlotFree depth_freeList_add depth_advance
  depth_writeBlobFile depth_readSlot depth_readBlobReference depth_deleteBlob
  depth_writeBlobReferenceSlot depth_writeBlobForUpdateUnlocked
  depth_updateBlobReferenceUnlocked : depth.

(** A step that keeps the batch depth, in a run that is followed to its
    return. *)
Ltac keep_depth d :=
  apply wp_bind; eapply (preserves_wp (at_depth d));
  [solve [auto with depth]
  |eassumption
  |let a := fresh "a" in let s := fresh "s" in let H := fresh "Hd" in
   intros a s H; unfold at_depth in H
  |solve [auto]].

Section SettledOps.
Context `{rt : Runtime}.
Variable d : Z.

Lemma settled_writeUnlocked (id : string) (data : Document) Q E s :
  batchDepth s = d ->
  (forall loc s', settled d s' -> Q loc s') ->
  (forall e s', E e s') ->
  wp (writeUnlocked id data) Q E s.
Proof.
  intros Hd HQ HE. unfold writeUnlocked. apply wp_bind, wp_gets.
  destruct (len (encodeDocument data) >? blobThreshold s).
  - unfold writeBlobForInsertUnlocked.
    keep_depth d. keep_depth d. keep_depth d. keep_depth d.
    apply (wp_mark_flush_settled d); [assumption|]. intros s' Hs. apply HQ, Hs.
  - keep_depth d. keep_depth d. keep_depth d. keep_depth d. keep_depth d.
    apply (wp_mark_flush_settled d); [assumption|]. intros s' Hs. apply HQ, Hs.
Qed.

Lemma settled_updateUnlocked (id : string) (data : Document)
      (old : DocumentLocation) Q E s :
  batchDepth s = d ->
  (forall loc s', settled d s' -> Q loc s') ->
  (forall e s', E e s') ->
  wp (updateUnlocked id data old) Q E s.
Proof.
  intros Hd HQ HE. unfold updateUnlocked. cbv zeta. apply wp_bind, wp_gets.
  destruct (loc_isBlob old).
  - keep_depth d.
    destruct (len (encodeDocument data) >? blobThreshold s).
    + keep_depth d. apply wp_bind.
      apply (wp_adjustLiveData_settled d); [assumption|].
      intros s' Hs. apply wp_ret. apply HQ, Hs.
    + keep_depth d. keep_depth d. keep_depth d. keep_depth d. keep_depth d.
      keep_depth d. apply wp_bind.
      apply (wp_adjustLiveData_settled d); [assumption|].
      intros s' Hs. apply wp_ret. apply HQ, Hs.
  - destruct (len (encodeDocument data) >? blobThreshold s).
    + keep_depth d. keep_depth d. keep_depth d. apply wp_bind.
      apply (wp_adjustLiveData_settled d); [assumption|].
      intros s' Hs. apply wp_ret. apply HQ, Hs.
    + destruct (len (encodeDocument data) + SLOT_HEADER_SIZE <=? loc_slabSize old).
      * keep_depth d. apply wp_bind.
        apply (wp_adjustLiveData_settled d); [assumption|].
        intros s' Hs. apply wp_ret. apply HQ, Hs.
      * keep_depth d. keep_depth d. keep_depth d. keep_depth d. keep_depth d.
        apply wp_bind.
        apply (wp_adjustLiveData_settled d); [assumption|].
        intros s' Hs. apply wp_ret. apply HQ, Hs.
Qed.

Lemma settled_deleteUnlocked (loc : DocumentLocation) Q E s :
  batchDepth s = d ->
  (forall s', settled d s' -> Q tt s') ->
  (forall e s', E e s') ->
  wp (deleteUnlocked loc) Q E s.
Proof.
  intros Hd HQ HE. unfold deleteUnlocked.
  apply wp_bind.
  apply (preserves_wp (at_depth d)); [|exact Hd| |intros; apply HE].
  { destruct (loc_isBlob loc); depth_run; auto with depth. }
  intros u s1 Hd1. unfold at_depth in Hd1.
  keep_depth d. keep_depth d. keep_depth d.
  apply wp_bind. unfold markMetadataDirty. apply wp_modify.
  apply (wp_flush_settled d); [assumption|reflexivity|exact HQ].
Qed.
End SettledOps.

Lemma wp_trivial {S A} (c : M S A) (s : S) :
  wp c (fun _ _ => True) (fun _ _ => True) s.
Proof. unfold wp. destruct (c s) as [[a|e] s']; exact I. Qed.

Section SettledMany.
Context `{rt : Runtime}.

Lemma settled_same (d : Z) (s s' : StorageEngine) :
  file s' = file s -> header s' = header s ->
  headerDirty s' = headerDirty s -> batchDepth s' = batchDepth s ->
  settled d s -> settled d s'.
Proof.
  unfold settled, synced. intros -> -> -> ->. exact (fun H => H).
Qed.

Lemma settled_batch_exit (d : Z) Q E s :
  batchDepth s = d + 1 -> headerDirty s = true \/ synced s ->
  (forall s', settled d s' -> Q tt s') ->
  wp batch_exit Q E s.
Proof.
  intros Hd HK HQ. unfold batch_exit. apply wp_bind, wp_modify.
  apply wp_bind, wp_gets. cbn [batchDepth set_batchDepth]. rewrite Hd.
  replace (d + 1 - 1) with d by lia.
  destruct (Z.eqb_spec d 0) as [->|Hne]; cbn [when].
  - apply wp_flushMetadata_synced; [exact HK|].
    intros s' H1 H2 H3. apply HQ. split; [|split; [right; exact H2|intros _; exact H2]].
    rewrite H1. cbn [batchDepth set_batchDepth]. lia.
  - apply wp_ret. apply HQ. split; [cbn [batchDepth set_batchDepth]; lia|].
    split; [exact HK|intros H; contradiction].
Qed.

Lemma settled_writeMany (d : Z) (items : list (string * Document)) Q E s :
  settled d s ->
  (forall locs s', settled d s' -> Q locs s') ->
  (forall e s', E e s') ->
  wp (writeMany items) Q E s.
Proof.
  intros Hs HQ HE. pose proof Hs as (Hd & HK & _). unfold writeMany.
  destruct items as [|item0 rest] eqn:Hitems.
  { apply wp_ret. apply HQ, Hs. }
  rewrite <- Hitems. clear Hitems item0 rest.
  apply wp_bind, wp_gets.
  destruct (existsb _ items).
  - apply wp_bind. unfold batch_enter. apply wp_modify.
    apply wp_try_finally.
    eapply wp_mono;
      [apply (wp_for_each_acc
                (fun item => writeUnlocked (fst item) (snd item)) items
                (fun _ s' => batchDepth s' = d + 1 /\
                             (headerDirty s' = true \/ synced s'))
                (fun _ => True) [])| |].
    + intros item ys s1 _ [Hd1 HK1].
      apply (settled_writeUnlocked (d + 1)); [exact Hd1| |intros; exact I].
      intros loc s2 (H1 & H2 & _). split; assumption.
    + split; [cbn [batchDepth set_batchDepth]; lia|exact HK].
    + intros locs s1 [Hd1 HK1].
      apply (settled_batch_exit d); [exact Hd1|exact HK1|].
      intros s2 H2. apply HQ, H2.
    + intros e s1 _.
      eapply wp_mono; [apply wp_trivial| |]; intros; apply HE.
  - apply wp_bind, wp_gets.
    destruct (writeMany_build items _) as [[[bufs locs] total] live].
    keep_depth d. keep_depth d. keep_depth d. keep_depth d.
    apply (wp_mark_flush_settled d); [assumption|]. intros s' Hs'. apply HQ, Hs'.
Qed.

Lemma settled_read (d : Z) (loc : DocumentLocation) :
  preserves (settled d) (Storage.read loc).
Proof.
  intros s Hs. apply (wp_snd (Storage.read loc) (settled d)).
  apply wp_read; intros; exact Hs.
Qed.
End SettledMany.

Section SettledCollection.
Context `{rt : Runtime}.
Variable d : Z.

Lemma settled_onStorage_read (loc : DocumentLocation) :
  preserves (header_settled d) (onStorage (Storage.read loc)).
Proof.
  intros c Hc. unfold onStorage, header_settled in *.
  pose proof (settled_read d loc (storage c) Hc) as H.
  destruct (Storage.read loc (storage c)) as [[a|e] st]; exact H.
Qed.

Lemma settled_onIndex f : preserves (header_settled d) (onIndex f).
Proof. intros c Hc. exact Hc. Qed.

Lemma settled_cacheSet id doc : preserves (header_settled d) (cacheSet id doc).
Proof.
  intros c Hc. unfold cacheSet, modify, header_settled in *. cbn [snd].
  destruct (cache c); exact Hc.
Qed.

Lemma settled_cacheDelete id : preserves (header_settled d) (cacheDelete id).
Proof.
  intros c Hc. unfold cacheDelete, modify, header_settled in *. cbn [snd].
  destruct (cache c); exact Hc.
Qed.

Lemma settled_cacheGet id : preserves (header_settled d) (cacheGet id).
Proof.
  intros c Hc. unfold cacheGet, bind, gets, modify, ret, header_settled in *.
  destruct (cache c) as [entries|]; [|exact Hc].
  destruct (Map_get entries id) as [v|]; [|exact Hc].
  destruct (negb (truthy_value v)); exact Hc.
Qed.
End SettledCollection.

Create HintDb settled.
#[export] Hint Resolve settled_onStorage_read settled_onIndex settled_cacheSet
  settled_cacheDelete settled_cacheGet : settled.

(** A step of the collection that keeps the header settled, whether it
    returns or throws. *)
Ltac keep_settled d :=
  apply wp_bind; eapply (preserves_wp (header_settled d));
  [solve [auto with settled]
  |eassumption
  |let a := fresh "a" in let c := fresh "c" in let H := fresh "Hs" in
   intros a c H
  |solve [auto]].

Section SettledMethods.
Context `{rt : Runtime}.
Variable d : Z.

Lemma insert_with_settled (id : string) (data : Document) c :
  header_settled d c ->
  wp (insert_with writeUnlocked id data)
     (fun _ c' => header_settled d c')
     (fun _ c' => Map_has (primaryIndex (indexManager c)) id = true ->
                  header_settled d c') c.
Proof.
  intros Hc. unfold insert_with. apply wp_bind, wp_gets. unfold Index.has.
  destruct (Map_has (primaryIndex (indexManager c)) id).
  - apply wp_throw. intros _. exact Hc.
  - apply wp_bind, wp_onStorage.
    apply (settled_writeUnlocked d); [exact (proj1 Hc)| |intros e s' H; discriminate H].
    intros loc s' Hs'.
    assert (Hs : header_settled d (set_storage s' c)) by exact Hs'.
    keep_settled d.
    apply (preserves_wp (header_settled d)); [auto with settled|exact Hs0|auto|auto].
Qed.

Lemma update_tail_settled (id : string) (data : Document)
      (old : DocumentLocation) (E : error -> Collection -> Prop) c :
  header_settled d c ->
  (forall e c', E e c') ->
  wp (oldData <- onStorage (Storage.read old) ;;
      newLocation <- onStorage (updateUnlocked id data old) ;;
      onIndex (Index.updateDocument id newLocation data (Some oldData)) ;;
      cacheSet id data)
     (fun _ c' => header_settled d c') E c.
Proof.
  intros Hc HE. keep_settled d.
  apply wp_bind, wp_onStorage.
  apply (settled_updateUnlocked d); [exact (proj1 Hs)| |intros; apply HE].
  intros loc s' Hs'.
  assert (Hs1 : header_settled d (set_storage s' c0)) by exact Hs'.
  keep_settled d.
  apply (preserves_wp (header_settled d)); [auto with settled|exact Hs0|auto|auto].
Qed.

Lemma insert_tail_settled (id : string) (data : Document)
      (E : error -> Collection -> Prop) c :
  header_settled d c ->
  (forall e c', E e c') ->
  wp (location <- onStorage (writeUnlocked id data) ;;
      onIndex (Index.addDocument id location data) ;;
      cacheSet id data)
     (fun _ c' => header_settled d c') E c.
Proof.
  intros Hc HE. apply wp_bind, wp_onStorage.
  apply (settled_writeUnlocked d); [exact (proj1 Hc)| |intros; apply HE].
  intros loc s' Hs'.
  assert (Hs : header_settled d (set_storage s' c)) by exact Hs'.
  keep_settled d.
  apply (preserves_wp (header_settled d)); [auto with settled|exact Hs0|auto|auto].
Qed.

Lemma update_with_settled (id : string) (data : Document) c :
  header_settled d c ->
  wp (update_with updateUnlocked id data)
     (fun _ c' => header_settled d c')
     (fun _ c' => Map_has (primaryIndex (indexManager c)) id = false ->
                  header_settled d c') c.
Proof.
  intros Hc. unfold update_with. apply wp_bind, wp_gets.
  unfold Index.getLocation, Map_has.
  destruct (Map_get (primaryIndex (indexManager c)) id) as [old|].
  - apply update_tail_settled; [exact Hc|intros e c' H; discriminate H].
  - apply wp_throw. intros _. exact Hc.
Qed.

Lemma upsert_with_settled (id : string) (data : Document) c :
  header_settled d c ->
  wp (upsert_with writeUnlocked updateUnlocked id data)
     (fun _ c' => header_settled d c') (fun _ _ => True) c.
Proof.
  intros Hc. unfold upsert_with. apply wp_bind, wp_gets.
  unfold Index.getLocation.
  destruct (Map_get (primaryIndex (indexManager c)) id) as [old|].
  - apply update_tail_settled; [exact Hc|intros; exact I].
  - apply insert_tail_settled; [exact Hc|intros; exact I].
Qed.

Lemma delete_with_settled (id : string) c :
  header_settled d c ->
  wp (delete_with deleteUnlocked id)
     (fun _ c' => header_settled d c') (fun _ _ => True) c.
Proof.
  intros Hc. unfold delete_with. apply wp_bind, wp_gets.
  unfold Index.getLocation.
  destruct (Map_get (primaryIndex (indexManager c)) id) as [loc|].
  - keep_settled d. apply wp_bind, wp_onStorage.
    apply (settled_deleteUnlocked d); [exact (proj1 Hs)| |intros; exact I].
    intros s' Hs'.
    assert (Hs1 : header_settled d (set_storage s' c0)) by exact Hs'.
    keep_settled d. keep_settled d. apply wp_ret. assumption.
  - apply wp_ret. exact Hc.
Qed.

Lemma get_settled (id : string) : preserves (header_settled d) (Collection.get id).
Proof.
  unfold Collection.get. preserves_run; auto with settled.
Qed.

Lemma createIndex_settled (fieldPath : string) :
  preserves (header_settled d) (Collection.createIndex fieldPath).
Proof.
  unfold Collection.createIndex. preserves_run; auto with settled.
Qed.

Lemma insertMany_settled (items : list (string * Document)) c :
  header_settled d c ->
  wp (Collection.insertMany items)
     (fun _ c' => header_settled d c')
     (fun _ c' =>
        existsb (fun item => Map_has (primaryIndex (indexManager c)) (fst item))
          items = true -> header_settled d c') c.
Proof.
  intros Hc. unfold Collection.insertMany.
  destruct items as [|item0 rest] eqn:Hitems.
  { apply wp_ret. exact Hc. }
  rewrite <- Hitems. clear Hitems item0 rest.
  apply wp_bind, wp_gets. rewrite existsb_find. unfold Index.has.
  destruct (find _ items) as [item|].
  - apply wp_throw. intros _. exact Hc.
  - apply wp_bind, wp_onStorage.
    apply (settled_writeMany d); [exact Hc| |intros e s' H; discriminate H].
    intros locs s' Hs'.
    assert (Hs : header_settled d (set_storage s' c)) by exact Hs'.
    apply wp_bind.
    apply (preserves_wp (header_settled d)); [|exact Hs| |auto].
    + preserves_run; auto with settled.
    + intros ys c1 H1. apply wp_ret. exact H1.
Qed.
End SettledMethods.

Lemma existsb_same {A} (f g : A -> bool) (xs : list A) :
  (forall x, f x = g x) -> existsb f xs = existsb g xs.
Proof.
  intros H. induction xs as [|x xs IH]; cbn [existsb]; [reflexivity|].
  rewrite H, IH. reflexivity.
Qed.

Section Kept.
Context `{rt : Runtime}.

Lemma stores_has (thr : Z) (d : Docs) (c : Collection) (id : string) :
  stores thr d c -> Map_has (primaryIndex (indexManager c)) id = Map_has d id.
Proof. intros [[T F] _]. exact (Full_has T d c id F). Qed.

Lemma batch_op_kept (thr depth : Z) (d : Docs) (op : BatchOp) c :
  kept thr d depth c -> batch_op_ok thr op ->
  wp (Collection.batch_op op)
     (fun _ c' => exists d', apply_batch_op op d = Some d' /\ kept thr d' depth c')
     (fun _ c' => apply_batch_op op d = None /\ kept thr d depth c') c.
Proof.
  intros [St Hs] Hok.
  pose proof (batch_op_stores thr d op c St Hok) as A.
  assert (B : wp (Collection.batch_op op)
                (fun _ c' => header_settled depth c')
                (fun _ c' => apply_batch_op op d = None -> header_settled depth c') c).
  { destruct op as [id data|id data|id data|id];
      cbn [Collection.batch_op apply_batch_op].
    - eapply wp_mono; [apply (insert_with_settled depth id data c Hs)| |].
      + intros u c' H. exact H.
      + intros e c' H Hnone. apply H. rewrite (stores_has thr d c id St).
        destruct (Map_has d id); [reflexivity|discriminate].
    - eapply wp_mono; [apply (update_with_settled depth id data c Hs)| |].
      + intros u c' H. exact H.
      + intros e c' H Hnone. apply H. rewrite (stores_has thr d c id St).
        destruct (Map_has d id); [discriminate|reflexivity].
    - eapply wp_mono; [apply (upsert_with_settled depth id data c Hs)| |].
      + intros u c' H. exact H.
      + intros e c' _ Hnone. discriminate.
    - apply wp_bind.
      eapply wp_mono; [apply (delete_with_settled depth id c Hs)| |].
      + intros r c' H. apply wp_ret. exact H.
      + intros e c' _ Hnone. discriminate. }
  eapply wp_mono; [apply (wp_conj _ _ _ _ _ _ A B)| |].
  - intros u c' [(d' & Hd & St') Hs']. exists d'. split; [exact Hd|].
    split; assumption.
  - intros e c' [[Hd St'] Hs']. split; [exact Hd|]. split; [exact St'|].
    apply Hs'. exact Hd.
Qed.

Lemma batch_ops_kept (thr depth : Z) (ops : list BatchOp) :
  forall (d : Docs) (c : Collection),
    kept thr d depth c -> Forall (batch_op_ok thr) ops ->
    wp (for_each Collection.batch_op ops)
       (fun _ c' => kept thr (apply_batch ops d) depth c')
       (fun _ c' => kept thr (apply_batch ops d) depth c') c.
Proof.
  induction ops as [|op ops IH]; intros d c K Hok.
  - exact K.
  - cbn [for_each apply_batch]. inversion Hok as [|? ? Hop Hrest]; subst.
    apply wp_bind.
    eapply wp_mono; [apply (batch_op_kept thr depth d op c K Hop)| |].
    + intros u c1 (d' & Hd & K1). rewrite Hd. apply wp_bind.
      eapply wp_mono; [apply (IH d' c1 K1 Hrest)| |].
      * intros ys c2 K2. exact K2.
      * intros e c2 K2. exact K2.
    + intros e c1 [Hd K1]. rewrite Hd. exact K1.
Qed.

Lemma batch_exit_kept (thr : Z) (d : Docs) E c :
  kept thr d 1 c ->
  wp (onStorage batch_exit) (fun _ c' => kept thr d 0 c') E c.
Proof.
  intros [St (Hd & HK & _)].
  assert (B : wp (onStorage batch_exit)
                (fun _ c' => header_settled 0 c') (fun _ _ => True) c).
  { apply wp_onStorage. apply (settled_batch_exit 0); [exact Hd|exact HK|].
    intros s' Hs'. exact Hs'. }
  eapply wp_mono;
    [apply (wp_conj _ _ _ _ _ _
              (batch_exit_stores thr d (fun _ _ => False) c St) B)| |].
  - intros u c' [H1 H2]. split; assumption.
  - intros e c' [[] _].
Qed.

Lemma batch_kept (thr : Z) (d : Docs) (ops : list BatchOp) c :
  kept thr d 0 c -> Forall (batch_op_ok thr) ops ->
  wp (Collection.batch ops)
     (fun _ c' => kept thr (apply_batch ops d) 0 c')
     (fun _ c' => kept thr (apply_batch ops d) 0 c') c.
Proof.
  intros [St Hs] Hok. unfold Collection.batch. apply wp_bind.
  apply wp_onStorage. unfold batch_enter. apply wp_modify.
  set (c1 := set_storage _ c).
  assert (K1 : kept thr d 1 c1).
  { split.
    - apply (stores_same thr d c); try reflexivity. exact St.
    - destruct Hs as (Hd & HK & _). split; [|split].
      + unfold c1. cbn [storage set_storage batchDepth set_batchDepth]. lia.
      + exact HK.
      + intros H. discriminate H. }
  apply wp_try_finally. apply wp_bind.
  eapply wp_mono; [apply (batch_ops_kept thr 1 ops d c1 K1 Hok)| |].
  - intros ys c2 K2. apply wp_ret.
    eapply wp_mono; [apply (batch_exit_kept thr _ (fun _ _ => False) c2 K2)| |].
    + intros u3 c3 K3. exact K3.
    + intros u3 c3 [].
  - intros e c2 K2.
    eapply wp_mono; [apply (batch_exit_kept thr _ (fun _ _ => False) c2 K2)| |].
    + intros u3 c3 K3. exact K3.
    + intros u3 c3 [].
Qed.

(** One operation: the collection stores what the operation makes of the
    documents and its header is on disk, whether the operation returns or
    throws. *)
Lemma run_op_kept (thr : Z) (d : Docs) (op : Op) (c : Collection) :
  kept thr d 0 c -> op_ok thr op -> kept thr (apply_op op d) 0 (run_op op c).
Proof.
  intros [St Hs] Hok. split; [exact (run_op_stores thr d op c St Hok)|].
  destruct op as [id data|id data|id data|id|ops|items|id|fieldPath];
    cbn [run_op apply_op op_ok] in *.
  - apply (wp_snd (Collection.insert id data) (header_settled 0)).
    change (Collection.insert id data) with (insert_with writeUnlocked id data).
    eapply wp_mono;
      [apply (wp_conj _ _ _ _ _ _ (insert_with_stores thr d id data c St Hok)
                (insert_with_settled 0 id data c Hs))| |].
    + intros u c' [_ H]. exact H.
    + intros e c' [[Hhas _] H]. apply H.
      rewrite (stores_has thr d c id St). exact Hhas.
  - apply (wp_snd (Collection.update id data) (header_settled 0)).
    change (Collection.update id data) with (update_with updateUnlocked id data).
    eapply wp_mono;
      [apply (wp_conj _ _ _ _ _ _ (update_with_stores thr d id data c St Hok)
                (update_with_settled 0 id data c Hs))| |].
    + intros u c' [_ H]. exact H.
    + intros e c' [[Hhas _] H]. apply H.
      rewrite (stores_has thr d c id St). exact Hhas.
  - apply (wp_snd (Collection.upsert id data) (header_settled 0)).
    change (Collection.upsert id data)
      with (upsert_with writeUnlocked updateUnlocked id data).
    eapply wp_mono;
      [apply (wp_conj _ _ _ _ _ _
                (upsert_with_stores thr d id data (fun _ _ => False) c St Hok)
                (upsert_with_settled 0 id data c Hs))| |].
    + intros u c' [_ H]. exact H.
    + intros e c' [[] _].
  - apply (wp_snd (Collection.delete id) (header_settled 0)).
    change (Collection.delete id) with (delete_with deleteUnlocked id).
    eapply wp_mono;
      [apply (wp_conj _ _ _ _ _ _
                (delete_with_stores thr d id (fun _ _ => False) c St)
                (delete_with_settled 0 id c Hs))| |].
    + intros u c' [_ H]. exact H.
    + intros e c' [[] _].
  - apply (wp_snd (Collection.batch ops) (header_settled 0)).
    eapply wp_mono; [apply (batch_kept thr d ops c (conj St Hs) Hok)| |].
    + intros u c' [_ H]. exact H.
    + intros e c' [_ H]. exact H.
  - apply (wp_snd (Collection.insertMany items) (header_settled 0)).
    eapply wp_mono;
      [apply (wp_conj _ _ _ _ _ _ (insertMany_stores thr d items c St Hok)
                (insertMany_settled 0 items c Hs))| |].
    + intros u c' [_ H]. exact H.
    + intros e c' [[Hex _] H]. apply H. rewrite <- Hex.
      apply existsb_same. intros item. apply (stores_has thr d c _ St).
  - exact (get_settled 0 id c Hs).
  - exact (createIndex_settled 0 fieldPath c Hs).
Qed.

Lemma newCollection_kept (cacheSize thr : Z) :
  kept thr [] 0 (newCollection cacheSize thr).
Proof.
  split; [apply newCollection_stores|].
  split; [reflexivity|]. split; [right|intros _]; vm_compute; reflexivity.
Qed.

Lemma run_kept (thr : Z) (ops : list Op) :
  forall (d : Docs) (c : Collection),
    kept thr d 0 c -> Forall (op_ok thr) ops ->
    kept thr (fold_left (fun d op => apply_op op d) ops d) 0 (run ops c).
Proof.
  induction ops as [|op ops IH]; intros d c K Hok.
  - exact K.
  - inversion Hok as [|? ? Hop Hrest]; subst. unfold run. cbn [fold_left].
    apply (IH _ _ (run_op_kept thr d op c K Hop) Hrest).
Qed.

Lemma history_kept (cacheSize thr : Z) (ops : list Op) :
  Forall (op_ok thr) ops ->
  kept thr (contents ops) 0 (run ops (newCollection cacheSize thr)).
Proof.
  intros Hok. apply (run_kept thr ops [] _ (newCollection_kept cacheSize thr) Hok).
Qed.
End Kept.

(* ------------------------------------------------------------------ *)
(** ** Closing and opening again *)

Lemma readHeader_same (f f' : Uint8Array) :
  pread f' 0 DATA_HEADER_SIZE = pread f 0 DATA_HEADER_SIZE ->
  readHeader f' = readHeader f.
Proof. intros H. unfold readHeader. rewrite H. reflexivity. Qed.

(** The header that is on disk is the header that [readHeader] gives. *)
Lemma readHeader_synced (s : StorageEngine) :
  synced s -> header_in_range (header s) ->
  readHeader (file s) = Opened (header s).
Proof.
  intros Hs (Hm & Hv & H1 & H2 & H3 & H4).
  rewrite <- (readHeader_headerBytes (file s) (header s)) by assumption.
  apply readHeader_same. rewrite synced_after_writeHeader. exact Hs.
Qed.

Lemma chain_offsets_apart (T : Tiles) :
  forall a b, chain T a b -> NoDup (map fst T).
Proof.
  induction T as [|[o sz] T IH]; intros a b; cbn [chain map fst].
  - intros _. constructor.
  - intros (-> & Hsz & Hrest). constructor; [|exact (IH _ _ Hrest)].
    intros Hin. apply in_map_iff in Hin. destruct Hin as ([o' sz'] & Ho & Hin).
    cbn [fst] in Ho. subst o'.
    destruct (chain_in _ _ _ _ _ Hrest Hin) as (H1 & _).
    unfold SLOT_HEADER_SIZE in *. lia.
Qed.

Lemma NoDup_map_filter {A B} (f : A -> B) (p : A -> bool) (xs : list A) :
  NoDup (map f xs) -> NoDup (map f (filter p xs)).
Proof.
  induction xs as [|x xs IH]; cbn [map filter]; [exact (fun H => H)|].
  intros H. inversion H as [|? ? N1 N2]; subst.
  destruct (p x); cbn [map]; [|exact (IH N2)].
  constructor; [|exact (IH N2)].
  intros Hin. apply N1. apply in_map_iff in Hin. destruct Hin as (y & Hy & Hin).
  apply filter_In in Hin. apply in_map_iff. exists y. split; [exact Hy|apply Hin].
Qed.

(** A slot that reads back has its ACTIVE bit set. *)
Lemma read_slot_is_active (f : Uint8Array) (o n : Z) (d : Uint8Array) :
  0 <= o -> 0 <= n -> readSlot_in f o n = Ok d -> slot_active f o = true.
Proof.
  intros Ho Hn. rewrite readSlot_in_fields by assumption. cbv zeta.
  unfold slot_active.
  destruct (len _ <? _); [discriminate|].
  destruct (JS.truthy (JS.and (le_value (pread f o 4)) SlotFlags.ACTIVE));
    [reflexivity|discriminate].
Qed.

Section Reopen.
Context `{rt : Runtime}.

(** The layout with another free list: one that names slots of the
    layout, each once, and none that the index uses. *)
Lemma Laid_reopened (T : Tiles) (d : Docs) (c c' : Collection) :
  Laid T d c ->
  file (storage c') = file (storage c) ->
  header (storage c') = header (storage c) ->
  blobFiles (storage c') = blobFiles (storage c) ->
  blobThreshold (storage c') = blobThreshold (storage c) ->
  primaryIndex (indexManager c') = primaryIndex (indexManager c) ->
  cache_ok c' ->
  NoDup (map free_offset (freeList (storage c'))) ->
  (forall x, In x (freeList (storage c')) ->
             In (free_offset x, free_slabSize x) T) ->
  (forall id loc, Map_get (primaryIndex (indexManager c)) id = Some loc ->
                  ~ In (loc_offset loc) (map free_offset (freeList (storage c')))) ->
  Laid T d c'.
Proof.
  intros [L1 L2 L3 L4 L5 L6 L7 L8 L9] F H Bl Th Pi Hok HN Hfree Hused.
  constructor; rewrite ?Pi, ?Th; try assumption.
  - destruct L1 as [[I1 I2 I3 I4 I5] J2 J3]. constructor.
    + constructor; rewrite ?F, ?H; assumption.
    + rewrite Pi. exact J2.
    + exact Hok.
  - intros id loc Hget. destruct (L5 id loc Hget) as (data & Hd & Hh & Hfit).
    exists data. split; [exact Hd|split; [|exact Hfit]].
    apply (holds_same (storage c)); assumption.
Qed.

Lemma found_slots (T : Tiles) (d : Docs) (c : Collection) (x : FreeSlot) :
  Laid T d c ->
  In x (map free_slot_of
          (filter (unused (file (storage c))
                     (map (fun entry => loc_offset (snd entry))
                        (primaryIndex (indexManager c)))) T)) ->
  In (free_offset x, free_slabSize x) T /\
  forall id loc, Map_get (primaryIndex (indexManager c)) id = Some loc ->
                 loc_offset loc <> free_offset x.
Proof.
  intros L Hin. apply in_map_iff in Hin. destruct Hin as ([o sz] & <- & Hin).
  apply filter_In in Hin. destruct Hin as [HT Hun].
  cbn [free_slot_of free_offset free_slabSize fst snd]. split; [exact HT|].
  intros id loc Hget Heq. unfold unused in Hun. cbn [fst] in Hun.
  assert (Hocc : existsb (Z.eqb o)
                   (map (fun entry => loc_offset (snd entry))
                      (primaryIndex (indexManager c))) = true).
  { apply existsb_exists. exists (loc_offset loc). split; [|lia].
    apply in_map_iff. exists (id, loc). split; [reflexivity|].
    apply Map_get_In. exact Hget. }
  rewrite Hocc in Hun. cbn [negb] in Hun. rewrite orb_false_r in Hun.
  destruct (la_holds _ _ _ L _ _ Hget) as (data & _ & Hh & _).
  pose proof (CInv_index _ _ _ _ (la_cinv _ _ _ L) Hget) as Htile.
  destruct (Inv_tile _ _ _ _ (ci_inv _ _ (la_cinv _ _ _ L)) Htile) as (Ho & _).
  unfold DATA_HEADER_SIZE in Ho.
  pose proof (len_nonneg (slot_payload (blobThreshold (storage c)) id data)) as Hl.
  rewrite <- (h_len _ _ _ _ Hh) in Hl.
  assert (Ho' : 0 <= loc_offset loc) by lia.
  pose proof (read_slot_is_active _ _ _ _ Ho' Hl (h_slot _ _ _ _ Hh)) as Hact.
  rewrite Heq in Hact. rewrite Hact in Hun. discriminate Hun.
Qed.

(** Opening the files that a collection leaves gives a collection that
    stores the same documents. *)
Lemma reopened_stores (thr : Z) (d : Docs) (c : Collection) (cacheSize : Z) :
  kept thr d 0 c ->
  header_in_range (header (storage c)) ->
  index_in_range (indexManager c) ->
  exists c',
    openCollection (Some (file (storage c))) (Some (index_file (indexManager c)))
      (blobFiles (storage c)) cacheSize thr = Opened c' /\
    stores thr d c'.
Proof.
  intros [[[T [L Hag]] Hthr] (Hd & _ & Hs)] Hh Hi.
  specialize (Hs eq_refl). subst thr.
  pose proof (la_cinv _ _ _ L) as HC. pose proof (ci_inv _ _ HC) as HI.
  unfold openCollection. cbv zeta.
  rewrite (load_index_file (indexManager c) (mkIndex [] [] false None) Hi
             eq_refl eq_refl).
  unfold Engine.init. rewrite (readHeader_synced _ Hs Hh).
  unfold Index.getPrimaryIndex. cbn [primaryIndex persisted].
  set (s0 := mkStorage _ _ [] 0 false false _ _ _ 0%nat 0%nat).
  set (index := primaryIndex (indexManager c)).
  set (m' := mkIndex _ _ false None).
  set (cache' := if Z.max 0 cacheSize >? 0 then Some [] else None).
  assert (Hok : forall s', cache_ok (mkCollection s' m' (Z.max 0 cacheSize) cache')).
  { intros s'. unfold cache_ok, cache'. cbn [cache].
    destruct (Z.max 0 cacheSize >? 0); [constructor|exact I]. }
  assert (Hagree : forall s', cache_agrees d
                                (mkCollection s' m' (Z.max 0 cacheSize) cache')).
  { intros s'. unfold cache_agrees, cache'. cbn [cache].
    destruct (Z.max 0 cacheSize >? 0); [|exact I].
    intros id v Hget. discriminate Hget. }
  destruct (negb (calculatePackedSize index =? nextSlotOffset (header (storage c)))).
  - (* the free list is rebuilt *)
    eexists. split; [reflexivity|].
    apply (stores_intro T); [|reflexivity]. split; [|apply Hagree].
    assert (Hfl : freeList (rebuildFreeList index s0)
                  = map free_slot_of
                      (filter (unused (file (storage c))
                                 (map (fun entry => loc_offset (snd entry)) index)) T)).
    { unfold rebuildFreeList, s0. cbn [freeList set_freeList file header app].
      change (map free_slot_of (filter ?p T)) with ([] ++ map free_slot_of (filter p T)).
      apply (rebuildFreeList_loop_chain (file (storage c)) _ T).
      - exact (inv_chain _ _ HI).
      - unfold DATA_HEADER_SIZE. lia.
      - exact (inv_len _ _ HI).
      - intros o sz Hin. pose proof (la_small _ _ _ L) as Hsm.
        rewrite Forall_forall in Hsm. pose proof (Hsm _ Hin) as Hs1.
        unfold small in Hs1. cbn [snd] in Hs1.
        split; [exact Hs1|]. apply (inv_disk _ _ HI); assumption.
      - lia. }
    apply (Laid_reopened T d c); try reflexivity; try assumption.
    + apply Hok.
    + unfold updateSharedState, modify.
      cbn [snd storage freeList set_sharedView]. rewrite Hfl.
      rewrite map_map.
      change (fun x => free_offset (free_slot_of x)) with (@fst Z Z).
      apply NoDup_map_filter.
      exact (chain_offsets_apart T _ _ (inv_chain _ _ HI)).
    + unfold updateSharedState, modify.
      cbn [snd storage freeList set_sharedView]. rewrite Hfl.
      intros x Hx. exact (proj1 (found_slots T d c x L Hx)).
    + unfold updateSharedState, modify.
      cbn [snd storage freeList set_sharedView]. rewrite Hfl.
      intros id loc Hget Hin. apply in_map_iff in Hin.
      destruct Hin as (x & Hx & Hin).
      exact (proj2 (found_slots T d c x L Hin) id loc Hget (eq_sym Hx)).
  - (* the indexed slots account for the whole file *)
    eexists. split; [reflexivity|].
    apply (stores_intro T); [|reflexivity]. split; [|apply Hagree].
    apply (Laid_reopened T d c); try reflexivity; try assumption.
    + apply Hok.
    + constructor.
    + intros x [].
    + intros id loc _ [].
Qed.
End Reopen.

(* ------------------------------------------------------------------ *)
(** ** The queries *)

Section QuerySteps.
Context `{rt : Runtime}.

Lemma stores_keys (thr : Z) (d : Docs) (c : Collection) :
  stores thr d c -> Map_keys (primaryIndex (indexManager c)) = Map_keys d.
Proof. intros [[T [L _]] _]. exact (la_keys _ _ _ L). Qed.

Lemma stores_get_none (thr : Z) (d : Docs) (c : Collection) (id : string) :
  stores thr d c -> Map_get (primaryIndex (indexManager c)) id = None ->
  Map_get d id = None.
Proof.
  intros St Hget. pose proof (stores_has thr d c id St) as Hhas.
  unfold Map_has in Hhas. rewrite Hget in Hhas.
  destruct (Map_get d id); [discriminate Hhas|reflexivity].
Qed.

(** A read through the cache returns the document of the id and keeps
    what is stored and the index. *)
Lemma readWithCache_stores (thr : Z) (d : Docs) (id : string)
      (loc : DocumentLocation) E c :
  stores thr d c ->
  Map_get (primaryIndex (indexManager c)) id = Some loc ->
  wp (readWithCache id loc)
     (fun doc c' => Map_get d id = Some doc /\ stores thr d c' /\
                    indexManager c' = indexManager c) E c.
Proof.
  intros [[T [L Hag]] Hthr] Hloc. unfold readWithCache. apply wp_bind.
  apply (wp_cacheGet_agrees d);
    [exact (ci_cache _ _ (la_cinv _ _ _ L))|exact Hag|].
  intros r c1 Hs Hi Hok Hag1 Hr.
  assert (L1 : Laid T d c1).
  { apply (Laid_same T d c); try (rewrite Hs; reflexivity);
      [exact L|rewrite Hi; reflexivity|exact Hok]. }
  assert (Hthr1 : blobThreshold (storage c1) = thr) by (rewrite Hs; exact Hthr).
  destruct r as [doc|].
  - apply wp_ret. split; [exact Hr|]. split; [|exact Hi].
    apply (stores_intro T); [split; assumption|exact Hthr1].
  - apply wp_bind. rewrite <- Hi in Hloc.
    apply (wp_read_full T d id loc); [exact L1|exact Hloc|].
    intros data c2 Hd L2 Hc2 Hi2 Hf2 Ht2.
    apply wp_bind. apply (wp_cacheSet_agrees d).
    + exact (ci_cache _ _ (la_cinv _ _ _ L2)).
    + rewrite Hc2. unfold cache_agrees in Hag1.
      destruct (cache c1) as [entries|]; [|exact I].
      intros k v _ Hget. apply Hag1. exact Hget.
    + exact Hd.
    + intros c3 Hs3 Hi3 Hok3 Hag3. apply wp_ret. split; [exact Hd|].
      split; [|congruence].
      apply (stores_intro T).
      * split; [|exact Hag3].
        apply (Laid_same T d c2); try (rewrite Hs3; reflexivity);
          [exact L2|rewrite Hi3; reflexivity|exact Hok3].
      * rewrite Hs3, Ht2. exact Hthr1.
Qed.

Lemma validate_stores (thr : Z) (d : Docs) (m : IndexManager)
      (filter : QueryFilter) E (ids : list string) :
  forall c,
    stores thr d c -> indexManager c = m ->
    wp (Index.validate readWithCache m filter ids)
       (fun r c' => r = matching d filter ids /\ stores thr d c' /\
                    indexManager c' = m) E c.
Proof.
  induction ids as [|id ids IH]; intros c St Hm; cbn [Index.validate matching List.filter].
  - apply wp_ret. split; [reflexivity|split; assumption].
  - fold (matching d filter ids).
    destruct (Map_get (primaryIndex m) id) as [loc|] eqn:Hloc.
    + apply wp_bind. rewrite <- Hm in Hloc.
      eapply wp_mono; [apply (readWithCache_stores thr d id loc E c St Hloc)| |].
      * intros doc c1 (Hd & St1 & Hi1). rewrite Hd. apply wp_bind.
        eapply wp_mono; [apply (IH c1 St1); congruence| |].
        -- intros r c2 (Hr & St2 & Hi2). apply wp_ret. rewrite Hr.
           split; [reflexivity|split; assumption].
        -- intros e c2 He. exact He.
      * intros e c1 He. exact He.
    + rewrite <- Hm in Hloc. rewrite (stores_get_none thr d c id St Hloc).
      apply (IH c St Hm).
Qed.

Lemma fetch_stores (thr : Z) (d : Docs) (m : IndexManager)
      (filter : QueryFilter) (covered : bool) E (ids : list string) :
  forall c,
    stores thr d c -> indexManager c = m ->
    wp (Manager.fetch readWithCache m filter covered ids)
       (fun r c' => r = fetched d filter covered ids /\ stores thr d c' /\
                    indexManager c' = m) E c.
Proof.
  induction ids as [|id ids IH]; intros c St Hm; cbn [Manager.fetch fetched flat_map].
  - apply wp_ret. split; [reflexivity|split; assumption].
  - fold (fetched d filter covered ids).
    destruct (Map_get (primaryIndex m) id) as [loc|] eqn:Hloc.
    + apply wp_bind. rewrite <- Hm in Hloc.
      eapply wp_mono; [apply (readWithCache_stores thr d id loc E c St Hloc)| |].
      * intros doc c1 (Hd & St1 & Hi1). rewrite Hd. apply wp_bind.
        eapply wp_mono; [apply (IH c1 St1); congruence| |].
        -- intros r c2 (Hr & St2 & Hi2). apply wp_ret. rewrite Hr.
           split; [|split; assumption].
           destruct covered; [reflexivity|].
           destruct (matchesFilter doc filter); reflexivity.
        -- intros e c2 He. exact He.
      * intros e c1 He. exact He.
    + rewrite <- Hm in Hloc. rewrite (stores_get_none thr d c id St Hloc).
      apply (IH c St Hm).
Qed.

(** The queries return what the documents and the secondary indexes
    give, do not throw, and keep what is stored. *)
Lemma findIds_stores (thr : Z) (d : Docs) (filter : QueryFilter) E c :
  stores thr d c ->
  wp (Collection.findIds filter)
     (fun r c' => r = ids_found (secondaryIndexes (indexManager c)) d filter /\
                  stores thr d c' /\ indexManager c' = indexManager c) E c.
Proof.
  intros St. unfold Collection.findIds. apply wp_bind, wp_gets.
  unfold Index.queryIds, ids_found. rewrite <- (stores_keys thr d c St).
  destruct (Index.scan_filter _ filter None true) as [|[ids|] [|]].
  - apply wp_ret. split; [reflexivity|split; [exact St|reflexivity]].
  - apply wp_ret. split; [reflexivity|split; [exact St|reflexivity]].
  - apply (validate_stores thr d _ filter E ids c St eq_refl).
  - apply (validate_stores thr d _ filter E _ c St eq_refl).
  - apply (validate_stores thr d _ filter E _ c St eq_refl).
Qed.

Lemma count_stores (thr : Z) (d : Docs) (filter : option QueryFilter) E c :
  stores thr d c ->
  wp (Collection.count filter)
     (fun r c' => r = match filter with
                      | None | Some [] => Map_size d
                      | Some f => number_found (secondaryIndexes (indexManager c)) d f
                      end /\
                  stores thr d c' /\ indexManager c' = indexManager c) E c.
Proof.
  intros St. unfold Collection.count. apply wp_bind, wp_gets.
  assert (Hsize : Index.size (indexManager c) = Map_size d)
    by (unfold Index.size; apply Map_size_keys; exact (stores_keys thr d c St)).
  destruct filter as [[|kv f]|].
  - apply wp_ret. split; [exact Hsize|split; [exact St|reflexivity]].
  - unfold Index.count, number_found. rewrite <- (stores_keys thr d c St).
    destruct (Index.scan_filter _ (kv :: f) None true) as [|[ids|] [|]].
    + apply wp_ret. split; [reflexivity|split; [exact St|reflexivity]].
    + apply wp_ret. split; [reflexivity|split; [exact St|reflexivity]].
    + apply wp_bind.
      eapply wp_mono; [apply (validate_stores thr d _ (kv :: f) E ids c St eq_refl)| |].
      * intros r c1 (Hr & St1 & Hi1). apply wp_ret. rewrite Hr.
        split; [reflexivity|split; assumption].
      * intros e c1 He. exact He.
    + apply wp_bind.
      eapply wp_mono; [apply (validate_stores thr d _ (kv :: f) E _ c St eq_refl)| |].
      * intros r c1 (Hr & St1 & Hi1). apply wp_ret. rewrite Hr.
        split; [reflexivity|split; assumption].
      * intros e c1 He. exact He.
    + apply wp_bind.
      eapply wp_mono; [apply (validate_stores thr d _ (kv :: f) E _ c St eq_refl)| |].
      * intros r c1 (Hr & St1 & Hi1). apply wp_ret. rewrite Hr.
        split; [reflexivity|split; assumption].
      * intros e c1 He. exact He.
  - apply wp_ret. split; [exact Hsize|split; [exact St|reflexivity]].
Qed.

Lemma find_stores (thr : Z) (d : Docs) (filter : QueryFilter) E c :
  stores thr d c ->
  wp (Documents.find filter)
     (fun r c' => r = documents_found (secondaryIndexes (indexManager c)) d filter /\
                  stores thr d c' /\ indexManager c' = indexManager c) E c.
Proof.
  intros St. unfold Documents.find. apply wp_bind, wp_gets.
  unfold Manager.query, documents_found. rewrite <- (stores_keys thr d c St).
  destruct (Index.scan_filter _ filter None true) as [|[ids|] covered].
  - apply wp_ret. split; [reflexivity|split; [exact St|reflexivity]].
  - apply (fetch_stores thr d _ filter covered E ids c St eq_refl).
  - apply (fetch_stores thr d _ filter false E _ c St eq_refl).
Qed.

Lemma findOne_stores (thr : Z) (d : Docs) (filter : QueryFilter) E c :
  stores thr d c ->
  wp (Documents.findOne filter)
     (fun r c' =>
        r = match documents_found (secondaryIndexes (indexManager c)) d filter with
            | VNull :: _ | VUndefined :: _ | [] => None
            | doc :: _ => Some doc
            end /\
        stores thr d c' /\ indexManager c' = indexManager c) E c.
Proof.
  intros St. unfold Documents.findOne. apply wp_bind.
  eapply wp_mono; [apply (find_stores thr d filter E c St)| |].
  - intros r c1 (Hr & St1 & Hi1). apply wp_ret. rewrite Hr.
    split; [reflexivity|split; assumption].
  - intros e c1 He. exact He.
Qed.
End QuerySteps.

(* ------------------------------------------------------------------ *)
(** ** Compaction of a collection that stores its documents *)

Section Aligned.
Context {V W : Type}.
Variable P : string -> V -> W -> Prop.

(** Two maps with the same keys in the same order, related at every key,
    are related entry by entry. *)
Lemma maps_aligned (m : JSMap V) :
  forall (d : JSMap W),
    Map_keys m = Map_keys d -> NoDup (Map_keys d) ->
    (forall k v, Map_get m k = Some v ->
                 exists w, Map_get d k = Some w /\ P k v w) ->
    Forall2 (fun e x => fst e = fst x /\ P (fst x) (snd e) (snd x)) m d.
Proof.
  induction m as [|[k v] m IH]; intros [|[k' w] d] Hkeys Hnd HP;
    try discriminate; [constructor|].
  unfold Map_keys in Hkeys, Hnd. cbn [map fst] in Hkeys, Hnd.
  injection Hkeys as <- Hkeys. inversion Hnd as [|? ? Hk Hnd']; subst.
  constructor.
  - cbn [fst snd]. split; [reflexivity|].
    destruct (HP k v) as (w' & Hw & Hp);
      [cbn [Map_get]; rewrite String.eqb_refl; reflexivity|].
    cbn [Map_get] in Hw. rewrite String.eqb_refl in Hw. injection Hw as <-.
    exact Hp.
  - apply IH; [exact Hkeys|exact Hnd'|].
    intros k1 v1 Hget.
    assert (Hne : k <> k1).
    { intros ->. apply Hk. rewrite <- Hkeys.
      apply in_map_iff. exists (k1, v1). split; [reflexivity|].
      apply Map_get_In. exact Hget. }
    destruct (HP k1 v1) as (w1 & Hw & Hp).
    + cbn [Map_get]. destruct (String.eqb_spec k k1); [contradiction|exact Hget].
    + cbn [Map_get] in Hw. destruct (String.eqb_spec k k1); [contradiction|].
      exists w1. split; assumption.
Qed.
End Aligned.

Section Packing.
Context `{rt : Runtime}.

(** The loop of [compact] on an index whose slots hold the documents:
    it returns, and packs the payloads in the order of the index. *)
Lemma compact_loop_reads (f : Uint8Array) (thr : Z) (index : PrimaryIndex)
      (d : Docs) :
  Forall2 (fun e x =>
             fst e = fst x /\
             (readSlot_in f (loc_offset (snd e)) (loc_length (snd e))
              = Ok (slot_payload thr (fst x) (snd x)) /\
              loc_isBlob (snd e) = (len (encodeDocument (snd x)) >? thr) /\
              round_trips thr (fst x) (snd x))) index d ->
  forall newLocations offset total,
    compact_loop f index newLocations offset total
    = Ok (map item_chunk (doc_items thr d),
          set_all (item_locations (doc_items thr d) offset) newLocations,
          items_end (doc_items thr d) offset,
          total + live_bytes d).
Proof.
  induction 1 as [|[id loc] [id' data] index d (Hid & Hread & Hblob & Hrt) _ IH];
    intros nl off total.
  - cbn [compact_loop doc_items map item_locations items_end live_bytes
           fold_right set_all fold_left]. rewrite Z.add_0_r. reflexivity.
  - cbn [fst snd] in Hid, Hread, Hblob, Hrt. subst id'.
    cbn [compact_loop doc_items map item_locations items_end live_bytes fold_right
           fst snd].
    rewrite Hread, Hblob. fold (doc_items thr d). fold (live_bytes d).
    unfold set_all. cbn [fold_left fst snd doc_item]. fold (set_all).
    unfold item_slab at 1 2 3. cbn [doc_item fst snd].
    destruct (len (encodeDocument data) >? thr) eqn:Hb.
    + rewrite (proj2 Hrt Hb). cbn [ref_size]. rewrite IH.
      unfold item_slab, doc_item, set_all. cbn [fst snd]. rewrite Hb.
      rewrite Z.add_assoc. reflexivity.
    + assert (Hp : slot_payload thr id data = encodeDocument data)
        by (unfold slot_payload; rewrite Hb; reflexivity).
      replace (total + len (slot_payload thr id data))
        with (total + len (encodeDocument data)) by (rewrite Hp; reflexivity).
      rewrite IH.
      unfold item_slab, doc_item, set_all. cbn [fst snd]. rewrite Hb.
      rewrite Z.add_assoc. reflexivity.
Qed.

(** The slots of packed items: they follow one another, and each reads
    back as its payload and has its slab size in its header. *)
Lemma items_chain (items : list packed_item) :
  forall offset,
    chain (map (fun e => tile_of (snd e)) (item_locations items offset))
      offset (items_end items offset).
Proof.
  induction items as [|it items IH]; intros offset;
    cbn [item_locations map chain items_end snd tile_of loc_offset loc_slabSize].
  - reflexivity.
  - split; [reflexivity|]. split; [|apply IH].
    pose proof (item_slab_fits it). pose proof (len_nonneg (snd it)). lia.
Qed.

Lemma items_end_len (items : list packed_item) :
  forall offset,
    items_end items offset = offset + len (List.concat (map item_chunk items)).
Proof.
  induction items as [|it items IH]; intros offset;
    cbn [items_end map List.concat].
  - unfold len. cbn [List.length]. lia.
  - rewrite IH, len_app, len_item_chunk. lia.
Qed.

Lemma items_layout (items : list packed_item) :
  Forall (fun it => len (snd it) + 4112 <= 2 ^ 32) items ->
  forall (pre post : Uint8Array) (id : string) (loc : DocumentLocation),
    In (id, loc) (item_locations items (len pre)) ->
    exists it,
      In it items /\ id = fst (fst it) /\
      loc_isBlob loc = snd (fst it) /\ loc_length loc = len (snd it) /\
      loc_slabSize loc = item_slab it /\
      readSlot_in (pre ++ List.concat (map item_chunk items) ++ post)
        (loc_offset loc) (loc_length loc) = Ok (snd it) /\
      slabField (pre ++ List.concat (map item_chunk items) ++ post) (loc_offset loc)
      = item_slab it.
Proof.
  induction 1 as [|it items Hsmall _ IH]; intros pre post id loc Hin;
    cbn [item_locations In map List.concat] in *; [contradiction|].
  pose proof (len_nonneg (snd it)) as Hd.
  pose proof (item_slab_fits it) as Hfit. unfold SLOT_HEADER_SIZE in Hfit.
  destruct Hin as [Heq|Hin].
  - injection Heq as <- <-. exists it.
    cbn [loc_offset loc_length loc_slabSize loc_isBlob].
    split; [left; reflexivity|]. do 4 (split; [reflexivity|]).
    rewrite <- app_assoc. split.
    + apply readSlot_in_item. lia.
    + unfold slabField. rewrite pread_middle by (rewrite ?len_item_chunk; lia).
      unfold item_chunk. apply slab_word_slotBuffer.
      * unfold SLOT_HEADER_SIZE. exact Hfit.
      * apply selectSlabSize_bound. exact Hsmall.
  - specialize (IH (pre ++ item_chunk it) post id loc).
    rewrite len_app, len_item_chunk in IH. specialize (IH Hin).
    destruct IH as (it' & H1 & H2 & H3 & H4 & H5 & H6 & H7).
    exists it'. split; [right; exact H1|].
    do 4 (split; [assumption|]).
    rewrite <- !app_assoc in H6, H7. rewrite <- app_assoc. split; assumption.
Qed.
End Packing.

Section Compaction.
Context `{rt : Runtime}.

(** The state that [compact] leaves when its loop returns. *)
Lemma compact_state (c : Collection) (chunks : list Uint8Array)
      (newLocations : JSMap DocumentLocation) (newOffset totalLiveData : Z) :
  compact_loop (file (storage c)) (primaryIndex (indexManager c)) []
    DATA_HEADER_SIZE 0 = Ok (chunks, newLocations, newOffset, totalLiveData) ->
  exists r c',
    Collection.compact c = (Ok r, c') /\
    res_bytesFreed r = fileSize (header (storage c)) - newOffset /\
    res_documentsCompacted r
    = Map_size (set_all newLocations (primaryIndex (indexManager c))) /\
    res_newFileSize r = newOffset /\
    header (storage c')
    = mkHeader DATA_FILE_MAGIC FORMAT_VERSION newOffset totalLiveData
        (Map_size (primaryIndex (indexManager c))) newOffset /\
    file (storage c') = headerBytes (header (storage c')) ++ List.concat chunks /\
    freeList (storage c') = [] /\
    blobFiles (storage c') = blobFiles (storage c) /\
    blobThreshold (storage c') = blobThreshold (storage c) /\
    batchDepth (storage c') = batchDepth (storage c) /\
    headerDirty (storage c') = headerDirty (storage c) /\
    primaryIndex (indexManager c')
    = set_all newLocations (primaryIndex (indexManager c)) /\
    secondaryIndexes (indexManager c') = secondaryIndexes (indexManager c) /\
    cache c' = cache c /\ cacheSize c' = cacheSize c.
Proof.
  intros Hloop.
  unfold Collection.compact, Storage.compact, Index.getPrimaryIndex,
    bind, gets, onStorage, throw, modify, ret, updateSharedState.
  cbn beta iota zeta. rewrite Hloop.
  unfold modify. cbn beta iota zeta. cbn [storage set_storage indexManager fst snd].
  rewrite for_each_updateLocation.
  unfold onIndex, modify. cbn beta iota zeta.
  do 2 eexists. split; [reflexivity|].
  cbn [res_bytesFreed res_documentsCompacted res_newFileSize
         storage indexManager set_storage set_indexManager
         file header freeList blobFiles blobThreshold batchDepth headerDirty
         set_file set_header set_freeList set_sharedView
         set_diskWrites fileSize List.concat primaryIndex secondaryIndexes
         Index.persist cache cacheSize Storage.getStats_fileSize Index.size].
  assert (Hsec : forall entries m,
             secondaryIndexes
               (fold_left (fun m entry =>
                             Index.updateLocation (fst entry) (snd entry) m)
                  entries m) = secondaryIndexes m).
  { induction entries as [|e entries IH]; intros m; [reflexivity|].
    cbn [fold_left]. rewrite IH. reflexivity. }
  unfold Index.size, Index.persist, Storage.getStats_fileSize.
  cbn [primaryIndex secondaryIndexes header set_header set_freeList set_sharedView
         fileSize].
  rewrite updateLocation_fold, Hsec.
  repeat split; reflexivity.
Qed.

Lemma NoDup_map_apart {A B} (f : A -> B) (xs : list A) (x y : A) :
  NoDup (map f xs) -> In x xs -> In y xs -> f x = f y -> x = y.
Proof.
  induction xs as [|a xs IH]; intros Hnd Hx Hy Heq; [contradiction|].
  cbn [map] in Hnd. inversion Hnd as [|? ? Ha Hnd']; subst.
  destruct Hx as [->|Hx]; destruct Hy as [->|Hy].
  - reflexivity.
  - exfalso. apply Ha. rewrite Heq. apply in_map. exact Hy.
  - exfalso. apply Ha. rewrite <- Heq. apply in_map. exact Hx.
  - apply IH; assumption.
Qed.

Lemma In_Map_get {V} (m : JSMap V) (k : string) (v : V) :
  NoDup (Map_keys m) -> In (k, v) m -> Map_get m k = Some v.
Proof.
  induction m as [|[k' v'] m IH]; intros Hnd Hin; [contradiction|].
  unfold Map_keys in Hnd. cbn [map fst] in Hnd.
  inversion Hnd as [|? ? Hk Hnd']; subst. cbn [Map_get].
  destruct Hin as [Heq|Hin].
  - injection Heq as -> ->. rewrite String.eqb_refl. reflexivity.
  - destruct (String.eqb_spec k' k) as [->|Hne].
    + exfalso. apply Hk. apply in_map_iff. exists (k, v). split; [reflexivity|exact Hin].
    + apply IH; assumption.
Qed.

Lemma doc_items_keys (thr : Z) (d : Docs) :
  map (fun it => fst (fst it)) (doc_items thr d) = Map_keys d.
Proof.
  unfold doc_items, Map_keys. rewrite map_map. reflexivity.
Qed.

(** A collection that stores its documents is compacted without an
    exception, stores the same documents afterwards, in slots that follow
    one another in the order of the index, and has no free slot. *)
Lemma compact_stores (thr : Z) (d : Docs) (c : Collection) :
  stores thr d c ->
  exists r c',
    Collection.compact c = (Ok r, c') /\
    stores thr d c' /\
    res_bytesFreed r
    = fileSize (header (storage c)) - items_end (doc_items thr d) DATA_HEADER_SIZE /\
    res_documentsCompacted r = Map_size d /\
    res_newFileSize r = items_end (doc_items thr d) DATA_HEADER_SIZE /\
    header (storage c')
    = mkHeader DATA_FILE_MAGIC FORMAT_VERSION
        (items_end (doc_items thr d) DATA_HEADER_SIZE) (live_bytes d) (Map_size d)
        (items_end (doc_items thr d) DATA_HEADER_SIZE) /\
    file (storage c')
    = headerBytes (header (storage c'))
        ++ List.concat (map item_chunk (doc_items thr d)) /\
    freeList (storage c') = [] /\
    primaryIndex (indexManager c') = item_locations (doc_items thr d) DATA_HEADER_SIZE /\
    secondaryIndexes (indexManager c') = secondaryIndexes (indexManager c) /\
    batchDepth (storage c') = batchDepth (storage c) /\
    headerDirty (storage c') = headerDirty (storage c).
Proof.
  intros [[T [L Hag]] Hthr].
  set (index := primaryIndex (indexManager c)).
  set (items := doc_items thr d).
  set (news := item_locations items DATA_HEADER_SIZE).
  pose proof (la_keys _ _ _ L) as Hkeys. fold index in Hkeys.
  pose proof (la_nodup _ _ _ L) as Hnd.
  assert (Hal : Forall2 (fun e x =>
                   fst e = fst x /\
                   (readSlot_in (file (storage c)) (loc_offset (snd e))
                      (loc_length (snd e))
                    = Ok (slot_payload thr (fst x) (snd x)) /\
                    loc_isBlob (snd e) = (len (encodeDocument (snd x)) >? thr) /\
                    round_trips thr (fst x) (snd x))) index d).
  { apply (maps_aligned
             (fun id loc data =>
                readSlot_in (file (storage c)) (loc_offset loc) (loc_length loc)
                = Ok (slot_payload thr id data) /\
                loc_isBlob loc = (len (encodeDocument data) >? thr) /\
                round_trips thr id data)); [exact Hkeys|exact Hnd|].
    intros id loc Hget. destruct (la_holds _ _ _ L _ _ Hget) as (data & Hd & Hh & _).
    exists data. split; [exact Hd|]. rewrite <- Hthr.
    split; [exact (h_slot _ _ _ _ Hh)|split].
    - exact (h_blob _ _ _ _ Hh).
    - exact (la_trips _ _ _ L _ _ Hd). }
  pose proof (compact_loop_reads _ thr index d Hal [] DATA_HEADER_SIZE 0) as Hloop.
  fold items in Hloop. fold news in Hloop. rewrite Z.add_0_l in Hloop.
  destruct (compact_state c _ _ _ _ Hloop)
    as (r & c' & Hrun & R1 & R2 & R3 & Hh & Hf & Hfl & Hbl & Ht & Hbd & Hhd
        & Hpi & Hsec & Hca & Hcs).
  assert (Hnews : Map_keys news = Map_keys d)
    by (unfold news; rewrite item_locations_keys; apply doc_items_keys).
  assert (Hnd' : NoDup (Map_keys news)) by (rewrite Hnews; exact Hnd).
  assert (Hfresh : set_all news [] = news)
    by (apply (set_all_fresh news []); [exact Hnd'|intros k _ []]).
  rewrite Hfresh in Hpi, R2.
  assert (Hidx : set_all news index = news).
  { apply (set_all_in_place news [] index);
      [rewrite Hnews; exact Hkeys|exact Hnd'|intros k _ []]. }
  fold index in Hpi, R2, Hh. rewrite Hidx in Hpi, R2.
  assert (Hsize : Map_size index = Map_size d) by (apply Map_size_keys; exact Hkeys).
  assert (Hsize' : Map_size news = Map_size d) by (apply Map_size_keys; exact Hnews).
  rewrite Hsize in Hh.
  assert (Hsmall : Forall (fun it => len (snd it) + 4112 <= 2 ^ 32) items).
  { unfold items, doc_items. rewrite Forall_map. rewrite Forall_forall.
    intros [id data] Hin. cbn [doc_item fst snd].
    pose proof (proj2 (la_ok _ _ _ L id data (In_Map_get d id data Hnd Hin))) as Hp.
    rewrite Hthr in Hp. exact Hp. }
  set (h := mkHeader DATA_FILE_MAGIC FORMAT_VERSION (items_end items DATA_HEADER_SIZE)
              (live_bytes d) (Map_size d) (items_end items DATA_HEADER_SIZE)) in *.
  assert (Hlay : forall id loc,
             In (id, loc) news ->
             exists it,
               In it items /\ id = fst (fst it) /\
               loc_isBlob loc = snd (fst it) /\ loc_length loc = len (snd it) /\
               loc_slabSize loc = item_slab it /\
               readSlot_in (file (storage c')) (loc_offset loc) (loc_length loc)
               = Ok (snd it) /\
               slabField (file (storage c')) (loc_offset loc) = item_slab it).
  { intros id loc Hin. rewrite Hf, Hh.
    rewrite <- (app_nil_r (List.concat _)).
    apply (items_layout items Hsmall (headerBytes h) [] id loc).
    rewrite len_headerBytes. exact Hin. }
  set (T' := map (fun e => tile_of (snd e)) news).
  assert (Hchain : chain T' DATA_HEADER_SIZE (items_end items DATA_HEADER_SIZE))
    by apply items_chain.
  assert (Hitem : forall it, In it items ->
             exists data, In (fst (fst it), data) d /\
                          it = doc_item thr (fst (fst it), data)).
  { intros it Hin. unfold items, doc_items in Hin. apply in_map_iff in Hin.
    destruct Hin as ([id data] & <- & Hin). exists data.
    cbn [doc_item fst snd]. split; [exact Hin|reflexivity]. }
  exists r, c'. split; [exact Hrun|].
  split; [|rewrite R1, R2, R3, Hh, Hf, Hh, Hfl, Hpi, Hsec, Hbd, Hhd, Hsize';
           repeat split; reflexivity].
  apply (stores_intro T'); [|rewrite Ht; exact Hthr].
  split; [|unfold cache_agrees in *; rewrite Hca; exact Hag].
  constructor.
  - constructor.
    + constructor.
      * rewrite Hh. exact Hchain.
      * rewrite Hh. reflexivity.
      * rewrite Hf, Hh, len_app, len_headerBytes. unfold h. cbn [nextSlotOffset].
        rewrite (items_end_len items). lia.
      * rewrite Hfl. intros x [].
      * intros o sz Hin _. unfold T' in Hin. apply in_map_iff in Hin.
        destruct Hin as ([id loc] & Heq & Hin). cbn [snd] in Heq.
        unfold tile_of in Heq. injection Heq as <- <-.
        destruct (Hlay id loc Hin) as (it & _ & _ & _ & _ & H5 & _ & H7).
        rewrite H7, H5. reflexivity.
    + rewrite Hpi. rewrite Forall_forall. intros e Hin. unfold T'.
      apply in_map_iff. exists e. split; [reflexivity|exact Hin].
    + unfold cache_ok. rewrite Hca. exact (ci_cache _ _ (la_cinv _ _ _ L)).
  - rewrite Hfl. constructor.
  - rewrite Hpi. exact Hnews.
  - exact Hnd.
  - rewrite Hpi. intros id loc Hget. apply Map_get_In in Hget.
    destruct (Hlay id loc Hget) as (it & Hin & H2 & H3 & H4 & H5 & H6 & H7).
    destruct (Hitem it Hin) as (data & Hd & Hit). rewrite <- H2 in Hd, Hit.
    pose proof (In_Map_get d id data Hnd Hd) as Hgd.
    exists data. split; [exact Hgd|]. rewrite Hit in H3, H4, H5, H6.
    cbn [doc_item fst snd] in H3, H4, H6.
    split.
    + constructor; rewrite ?Ht, ?Hthr.
      * exact H4.
      * exact H3.
      * exact H6.
      * intros Hb. rewrite Hbl.
        assert (Hold : exists old, Map_get index id = Some old).
        { destruct (Map_get index id) as [old|] eqn:Ho; [exists old; reflexivity|].
          exfalso. pose proof (stores_get_none thr d c id) as Hn.
          rewrite Hn in Hgd; [discriminate| |exact Ho].
          apply (stores_intro T); [split; assumption|exact Hthr]. }
        destruct Hold as (old & Hold).
        destruct (la_holds _ _ _ L _ _ Hold) as (data' & Hd' & Hh' & _).
        rewrite Hgd in Hd'. injection Hd' as <-.
        apply (h_file _ _ _ _ Hh'). rewrite (h_blob _ _ _ _ Hh'), Hthr.
        rewrite <- H3. exact Hb.
    + rewrite H4, H5. unfold item_slab. cbn [doc_item fst snd].
      pose proof (selectSlabSize_fits (len (slot_payload thr id data))). lia.
  - rewrite Hpi. intros id1 id2 loc1 loc2 Hne H1 H2 Heq.
    apply Map_get_In in H1, H2.
    pose proof (chain_offsets_apart T' _ _ Hchain) as Hap. unfold T' in Hap.
    rewrite map_map in Hap. cbn [tile_of fst] in Hap.
    pose proof (NoDup_map_apart (fun e => loc_offset (snd e)) news
                  (id1, loc1) (id2, loc2) Hap H1 H2 Heq) as Hsame.
    injection Hsame as -> _. contradiction.
  - rewrite Hfl. intros id loc _ [].
  - rewrite Ht. exact (la_ok _ _ _ L).
  - unfold T'. rewrite Forall_map, Forall_forall. intros [id loc] Hin.
    destruct (Hlay id loc Hin) as (it & Hit & _ & _ & _ & H5 & _).
    unfold small, tile_of. cbn [snd]. rewrite H5.
    rewrite Forall_forall in Hsmall. apply selectSlabSize_bound.
    exact (Hsmall it Hit).
Qed.
End Compaction.

(* ------------------------------------------------------------------ *)
(** ** [reset] and [clear] *)

Section Emptying.
Context `{rt : Runtime}.

(** [reset] returns and leaves an empty collection, whatever the
    collection was. *)
Lemma reset_kept (c : Collection) :
  exists c',
    Documents.reset c = (Ok tt, c') /\
    kept (blobThreshold (storage c)) [] (batchDepth (storage c)) c' /\
    file (storage c') = headerBytes newHeader /\
    header (storage c') = newHeader /\
    freeList (storage c') = [] /\
    blobFiles (storage c') = [] /\
    primaryIndex (indexManager c') = [] /\
    secondaryIndexes (indexManager c') = [] /\
    cacheSize c' = cacheSize c.
Proof.
  eexists. split.
  { unfold Documents.reset, Engine.reset, onStorage, onIndex, Documents.cacheClear,
      writeHeader, writeAtOffset, updateSharedState, bind, modify, gets, ret.
    cbn beta iota zeta. reflexivity. }
  cbn [storage indexManager set_storage set_indexManager cache set_cache cacheSize].
  match goal with
  | |- kept _ _ _ ?c1 /\ _ => set (c' := c1)
  end.
  assert (Hf : file (storage c') = headerBytes newHeader).
  { unfold c'. destruct c as [s m cs [ca|]]; destruct s; vm_compute; reflexivity. }
  assert (Hh : header (storage c') = newHeader)
    by (unfold c'; destruct c as [s m cs [ca|]]; destruct s; reflexivity).
  assert (Hfl : freeList (storage c') = [])
    by (unfold c'; destruct c as [s m cs [ca|]]; destruct s; reflexivity).
  assert (Hbl : blobFiles (storage c') = [])
    by (unfold c'; destruct c as [s m cs [ca|]]; destruct s; reflexivity).
  assert (Ht : blobThreshold (storage c') = blobThreshold (storage c))
    by (unfold c'; destruct c as [s m cs [ca|]]; destruct s; reflexivity).
  assert (Hbd : batchDepth (storage c') = batchDepth (storage c))
    by (unfold c'; destruct c as [s m cs [ca|]]; destruct s; reflexivity).
  assert (Hpi : primaryIndex (indexManager c') = [])
    by (unfold c'; destruct c as [s m cs [ca|]]; destruct s; reflexivity).
  assert (Hsi : secondaryIndexes (indexManager c') = [])
    by (unfold c'; destruct c as [s m cs [ca|]]; destruct s; reflexivity).
  assert (Hcs : cacheSize c' = cacheSize c)
    by (unfold c'; destruct c as [s m cs [ca|]]; destruct s; reflexivity).
  assert (Hca : cache c' = match cache c with Some _ => Some [] | None => None end)
    by (unfold c'; destruct c as [s m cs [ca|]]; destruct s; reflexivity).
  assert (Hok : cache_ok c').
  { unfold cache_ok. rewrite Hca. destruct (cache c); [constructor|exact I]. }
  split; [|repeat split; assumption].
  split.
  - apply (stores_intro []); [|exact Ht]. split.
    + constructor.
      * constructor; [|rewrite Hpi; constructor|exact Hok].
        constructor.
        -- rewrite Hh. reflexivity.
        -- rewrite Hh. reflexivity.
        -- rewrite Hh, Hf, len_headerBytes. vm_compute. discriminate.
        -- rewrite Hfl. intros x [].
        -- intros o sz [].
      * rewrite Hfl. constructor.
      * rewrite Hpi. reflexivity.
      * constructor.
      * rewrite Hpi. intros id loc Hget. discriminate Hget.
      * rewrite Hpi. intros id1 id2 loc1 loc2 _ Hget. discriminate Hget.
      * rewrite Hpi. intros id loc Hget. discriminate Hget.
      * intros id data Hget. discriminate Hget.
      * constructor.
    + unfold cache_agrees. rewrite Hca. destruct (cache c); [|exact I].
      intros id v Hget. discriminate Hget.
  - assert (Hs : synced (storage c')).
    { unfold synced. rewrite Hf, Hh. vm_compute. reflexivity. }
    split; [exact Hbd|]. split; [right; exact Hs|intros _; exact Hs].
Qed.

(** The loop of [clear]: the slots of the indexed documents are freed
    one after the other while the index still names them; [mg] is the
    index without the ids that are done. *)
Lemma clear_loop_laid (m0 : IndexManager) E (ids : list string) :
  forall (T : Tiles) (d : Docs) (c : Collection) (mg : IndexManager),
    Laid T d (set_indexManager mg c) ->
    indexManager c = m0 ->
    Map_keys d = ids ->
    (forall id, In id ids ->
                Map_get (primaryIndex m0) id = Map_get (primaryIndex mg) id) ->
    wp (for_each (fun id =>
                    m <- gets indexManager ;;
                    match Index.getLocation m id with
                    | None => ret tt
                    | Some location => onStorage (deleteUnlocked location)
                    end) ids)
       (fun _ c' =>
          (exists mg', Laid T [] (set_indexManager mg' c') /\
                       primaryIndex mg' = []) /\
          indexManager c' = m0 /\ cache c' = cache c /\
          cacheSize c' = cacheSize c /\
          blobThreshold (storage c') = blobThreshold (storage c)) E c.
Proof.
  induction ids as [|id ids IH]; intros T d c mg L Hm Hkeys Hsame.
  - destruct d; [|discriminate]. cbn [for_each]. apply wp_ret.
    split; [|repeat split; try reflexivity; exact Hm].
    exists mg. split; [exact L|].
    pose proof (la_keys _ _ _ L) as Hk. cbn [indexManager set_indexManager] in Hk.
    destruct (primaryIndex mg); [reflexivity|discriminate].
  - destruct d as [|[id' data] d']; [discriminate|].
    unfold Map_keys in Hkeys. cbn [map fst] in Hkeys. injection Hkeys as -> Hkeys.
    cbn [for_each]. apply wp_bind. apply wp_bind, wp_gets. rewrite Hm.
    unfold Index.getLocation.
    rewrite (Hsame id (or_introl eq_refl)).
    pose proof (la_keys _ _ _ L) as Hk. cbn [indexManager set_indexManager] in Hk.
    destruct (primaryIndex mg) as [|[id0 old] rest] eqn:Hmg; [discriminate|].
    unfold Map_keys in Hk. cbn [map fst] in Hk. injection Hk as -> Hk.
    cbn [Map_get]. rewrite String.eqb_refl.
    assert (Hold : Map_get (primaryIndex (indexManager (set_indexManager mg c))) id
                   = Some old).
    { cbn [indexManager set_indexManager]. rewrite Hmg. cbn [Map_get].
      rewrite String.eqb_refl. reflexivity. }
    destruct (la_holds _ _ _ L _ _ Hold) as (data' & Hd' & Hh & Hfit).
    apply wp_onStorage.
    apply (wp_delete_shift T id data' old
             (map free_offset (freeList (storage c)) ++ [loc_offset old]));
      [exact (ci_inv _ _ (la_cinv _ _ _ L))
      |apply tidy_free; exact (la_free _ _ _ L)
      |exact (CInv_index _ _ _ _ (la_cinv _ _ _ L) Hold)
      |apply in_or_app; right; left; reflexivity
      |exact (la_used _ _ _ L _ _ Hold)
      |exact Hh
      |exact (la_trips _ _ _ L _ _ Hd')|].
    intros s' Sh.
    set (m' := set_primaryIndex (Map_delete (primaryIndex mg) id) mg).
    pose proof (Laid_after_delete T _ (set_indexManager mg c) id old s' m' L Hold Sh
                  eq_refl) as L'.
    cbn [Map_delete] in L'. rewrite String.eqb_refl in L'.
    apply wp_bind.
    eapply wp_mono;
      [apply (IH T d' (set_storage s' c) m' L'); [exact Hm|exact Hkeys|]| |].
    + intros id1 Hin. rewrite (Hsame id1 (or_intror Hin)).
      unfold m'. cbn [primaryIndex set_primaryIndex]. rewrite Hmg. symmetry.
      apply Map_get_delete_other.
      pose proof (la_nodup _ _ _ L) as Hnd. unfold Map_keys in Hnd.
      cbn [map fst] in Hnd. inversion Hnd as [|? ? Hnot _]; subst.
      intros ->. apply Hnot. exact Hin.
    + intros ys c2 (Hg & H1 & H2 & H3 & H4). apply wp_ret.
      split; [exact Hg|]. cbn [cache cacheSize set_storage storage] in *.
      split; [exact H1|]. split; [exact H2|]. split; [exact H3|].
      pose proof (mv_thr _ _ _ _ _ (sh_moved _ _ _ _ _ _ Sh)) as Ht.
      cbn [storage set_indexManager] in Ht. congruence.
    + intros e c2 He. exact He.
Qed.
End Emptying.

Section Clearing.
Context `{rt : Runtime}.

Lemma wp_for_each_returns {S A B} (f : A -> M S B) (xs : list A)
      (P : S -> Prop) (s : S) :
  (forall x s, P s -> wp (f x) (fun _ => P) (fun _ _ => True) s) ->
  P s -> wp (for_each f xs) (fun _ => P) (fun _ _ => True) s.
Proof.
  revert s. induction xs as [|x xs IH]; intros s Hf HP.
  - exact HP.
  - cbn [for_each]. apply wp_bind.
    eapply wp_mono; [apply (Hf x s HP)| |].
    + intros y s1 H1. apply wp_bind.
      eapply wp_mono; [apply (IH s1 Hf H1)| |].
      * intros ys s2 H2. apply wp_ret. exact H2.
      * intros e s2 _. exact I.
    + intros e s1 _. exact I.
Qed.

(** [clear] does not throw and leaves an empty collection; the secondary
    indexes are dropped with the documents, unless there was no document. *)
Lemma clear_stores (thr : Z) (d : Docs) (c : Collection) :
  stores thr d c ->
  wp Documents.clear
     (fun _ c' =>
        stores thr [] c' /\
        cacheSize c' = cacheSize c /\
        secondaryIndexes (indexManager c')
        = match d with [] => secondaryIndexes (indexManager c) | _ => [] end)
     (fun _ _ => False) c.
Proof.
  intros St. pose proof St as [[T [L Hag]] Hthr].
  unfold Documents.clear. apply wp_bind, wp_gets. unfold Index.getAllIds.
  rewrite (la_keys _ _ _ L).
  destruct d as [|[id0 data0] d0] eqn:Hd.
  { cbn [Map_keys map]. apply wp_ret. split; [exact St|split; reflexivity]. }
  rewrite <- Hd in *. assert (Hids : Map_keys d <> []) by (rewrite Hd; discriminate).
  destruct (Map_keys d) as [|id ids] eqn:Hk; [contradiction|]. clear Hids.
  rewrite <- Hk.
  apply wp_bind, wp_onStorage. unfold batch_enter. apply wp_modify.
  set (c1 := set_storage _ c).
  assert (L1 : Laid T d (set_indexManager (indexManager c1) c1)).
  { apply (Laid_same T d c); try reflexivity; [exact L|].
    exact (ci_cache _ _ (la_cinv _ _ _ L)). }
  apply wp_bind, wp_try_finally. apply wp_bind.
  eapply wp_mono;
    [apply (clear_loop_laid (indexManager c1) (fun _ _ => False) (Map_keys d)
              T d c1 (indexManager c1) L1 eq_refl eq_refl);
     intros; reflexivity| |].
  2:{ intros e c2 []. }
  intros ys c2 ((mg & L2 & Hmg) & Hi2 & Hc2 & Hcs2 & Ht2). apply wp_ret.
  apply wp_onStorage. unfold batch_exit. apply wp_bind, wp_modify.
  set (s3 := set_batchDepth _ _).
  assert (L3 : Laid T [] (set_indexManager mg (set_storage s3 c2))).
  { apply (Laid_same T [] (set_indexManager mg c2)); try reflexivity; [exact L2|].
    exact (ci_cache _ _ (la_cinv _ _ _ L2)). }
  assert (Hfinal : forall s4,
             Laid T [] (set_indexManager mg (set_storage s4 c2)) ->
             blobThreshold s4 = blobThreshold (storage c2) ->
             wp (onIndex Manager.clear ;; Documents.cacheClear)
                (fun _ c' =>
                   stores thr [] c' /\ cacheSize c' = cacheSize c /\
                   secondaryIndexes (indexManager c') = [])
                (fun _ _ => False) (set_storage s4 c2)).
  { intros s4 L4 Ht4. apply wp_bind. unfold onIndex. apply wp_modify.
    unfold Documents.cacheClear. apply wp_modify.
    cbn [indexManager set_indexManager set_storage cache].
    assert (Hthr4 : blobThreshold s4 = thr)
      by (rewrite Ht4, Ht2; unfold c1; exact Hthr).
    destruct (cache c2) as [entries|] eqn:Hcache.
    - split; [|split; [cbn [cacheSize set_cache set_indexManager set_storage];
                       rewrite Hcs2; reflexivity|reflexivity]].
      apply (stores_intro T); [|exact Hthr4]. split.
      + apply (Laid_same T [] _ _ L4); try reflexivity.
        * cbn [indexManager set_cache set_indexManager primaryIndex Manager.clear].
          symmetry. exact Hmg.
        * unfold cache_ok. cbn [cache set_cache]. constructor.
      + unfold cache_agrees. cbn [cache set_cache].
        intros k v Hget. discriminate Hget.
    - split; [|split; [cbn [cacheSize set_cache set_indexManager set_storage];
                       rewrite Hcs2; reflexivity|reflexivity]].
      apply (stores_intro T); [|exact Hthr4]. split.
      + apply (Laid_same T [] _ _ L4); try reflexivity.
        * cbn [indexManager set_cache set_indexManager primaryIndex Manager.clear].
          symmetry. exact Hmg.
        * unfold cache_ok. cbn [cache set_indexManager set_storage].
          rewrite Hcache. exact I.
      + unfold cache_agrees. cbn [cache set_indexManager set_storage].
        rewrite Hcache. exact I. }
  apply wp_bind, wp_gets. apply wp_when; intros _.
  - apply metadata_flushMetadata.
    + exact (Inv_roomy _ _ (ci_inv _ _ (la_cinv _ _ _ L3))).
    + intros s4 M.
      pose proof (Laid_meta T [] _ s4 L3 M) as L4.
      apply Hfinal; [exact L4|].
      destruct M as (_ & _ & Th & _). rewrite Th. reflexivity.
  - apply Hfinal; [exact L3|reflexivity].
Qed.

Lemma clear_settled (c : Collection) :
  header_settled 0 c ->
  wp Documents.clear (fun _ c' => header_settled 0 c') (fun _ _ => True) c.
Proof.
  intros Hs. unfold Documents.clear. apply wp_bind, wp_gets.
  destruct (Index.getAllIds (indexManager c)) as [|id ids] eqn:Hids.
  { apply wp_ret. exact Hs. }
  rewrite <- Hids. clear Hids.
  apply wp_bind, wp_onStorage. unfold batch_enter. apply wp_modify.
  set (c1 := set_storage _ c).
  assert (H1 : header_settled 1 c1).
  { destruct Hs as (Hd & HK & _). split; [|split].
    - unfold c1. cbn [storage set_storage batchDepth set_batchDepth]. lia.
    - exact HK.
    - intros H. discriminate H. }
  assert (Hexit : forall c2 E,
             header_settled 1 c2 ->
             wp (onStorage batch_exit)
                (fun _ c' => wp (onIndex Manager.clear ;; Documents.cacheClear)
                               (fun _ c'' => header_settled 0 c'')
                               (fun _ _ => True) c') E c2).
  { intros c2 E (Hd & HK & _). apply wp_onStorage.
    apply (settled_batch_exit 0); [exact Hd|exact HK|].
    intros s' Hs'. apply wp_bind. unfold onIndex. apply wp_modify.
    unfold Documents.cacheClear. apply wp_modify.
    cbn [indexManager set_indexManager set_storage cache].
    destruct (cache c2); exact Hs'. }
  apply wp_bind, wp_try_finally. apply wp_bind.
  eapply wp_mono;
    [apply (wp_for_each_returns _ _ (header_settled 1) c1); [|exact H1]| |].
  - intros x c2 H2. apply wp_bind, wp_gets.
    destruct (Index.getLocation (indexManager c2) x) as [loc|];
      [|apply wp_ret; exact H2].
    apply wp_onStorage. destruct H2 as (Hd & _).
    apply (settled_deleteUnlocked 1); [exact Hd| |intros; exact I].
    intros s' Hs'. exact Hs'.
  - intros ys c2 H2. apply wp_ret.
    eapply wp_mono; [apply (Hexit c2 (fun _ _ => True) H2)| |].
    + intros u c3 H3. exact H3.
    + intros e c3 _. exact I.
  - intros e c2 _. apply wp_trivial.
Qed.
End Clearing.

(* ------------------------------------------------------------------ *)
(** ** Sequences of calls of the public methods *)

Section SettledReads.
Context `{rt : Runtime}.
Variable d : Z.

Lemma settled_readWithCache id loc :
  preserves (header_settled d) (readWithCache id loc).
Proof. unfold readWithCache. preserves_run; auto with settled. Qed.

Lemma settled_validate m filter ids :
  preserves (header_settled d) (Index.validate readWithCache m filter ids).
Proof.
  induction ids as [|id ids IH]; cbn [Index.validate].
  - apply preserves_ret.
  - destruct (Map_get (primaryIndex m) id); [|exact IH].
    apply preserves_bind; [apply settled_readWithCache|]. intros doc.
    apply preserves_bind; [exact IH|]. intros r. apply preserves_ret.
Qed.

Lemma settled_fetch m filter covered ids :
  preserves (header_settled d) (Manager.fetch readWithCache m filter covered ids).
Proof.
  induction ids as [|id ids IH]; cbn [Manager.fetch].
  - apply preserves_ret.
  - destruct (Map_get (primaryIndex m) id); [|exact IH].
    apply preserves_bind; [apply settled_readWithCache|]. intros doc.
    apply preserves_bind; [exact IH|]. intros r. apply preserves_ret.
Qed.

Lemma settled_find filter : preserves (header_settled d) (Documents.find filter).
Proof.
  unfold Documents.find, Manager.query.
  preserves_run; auto using settled_fetch with settled.
Qed.

Lemma settled_findOne filter : preserves (header_settled d) (Documents.findOne filter).
Proof.
  unfold Documents.findOne. apply preserves_bind; [apply settled_find|].
  intros r. apply preserves_ret.
Qed.

Lemma settled_findIds filter : preserves (header_settled d) (Collection.findIds filter).
Proof.
  unfold Collection.findIds, Index.queryIds.
  preserves_run; auto using settled_validate with settled.
Qed.

Lemma settled_count filter : preserves (header_settled d) (Collection.count filter).
Proof.
  unfold Collection.count, Index.count.
  preserves_run; auto using settled_validate with settled.
Qed.

Lemma settled_getAll : preserves (header_settled d) Documents.getAll.
Proof.
  unfold Documents.getAll. preserves_run; auto using get_settled with settled.
Qed.

Lemma settled_persistIndex : preserves (header_settled d) Documents.persistIndex.
Proof. unfold Documents.persistIndex. preserves_run; auto with settled. Qed.
End SettledReads.

Section Calls.
Context `{rt : Runtime}.

Lemma getAll_stores (thr : Z) (d : Docs) (c : Collection) :
  stores thr d c ->
  wp Documents.getAll
     (fun r c' => r = filter truthy_value (map snd d) /\ stores thr d c')
     (fun _ _ => False) c.
Proof.
  intros St. pose proof St as [[T [L _]] _].
  unfold Documents.getAll. apply wp_bind, wp_gets.
  unfold Index.getAllIds. rewrite (la_keys _ _ _ L). apply wp_bind.
  eapply wp_mono; [apply (get_loop_stores thr d _ c St)| |].
  - intros rs c' [Hrs St']. apply wp_ret. rewrite Hrs.
    rewrite (Map_get_keys _ (la_nodup _ _ _ L)).
    rewrite <- (map_map snd Some). split; [apply truthy_documents|exact St'].
  - intros e c' [].
Qed.

Lemma persistIndex_stores (thr : Z) (d : Docs) (c : Collection) :
  stores thr d c ->
  wp Documents.persistIndex (fun _ c' => stores thr d c') (fun _ _ => False) c.
Proof.
  intros St. unfold Documents.persistIndex. apply wp_bind, wp_gets.
  apply wp_when; intros _; [|exact St].
  unfold onIndex. apply wp_modify.
  apply (stores_same thr d c); try reflexivity. exact St.
Qed.

(** [compact] keeps the documents and the header on disk. *)
Lemma compact_kept (thr depth : Z) (d : Docs) (c : Collection) :
  kept thr d depth c -> kept thr d depth (snd (Collection.compact c)).
Proof.
  intros [St (Hd & HK & Hs)].
  destruct (compact_stores thr d c St)
    as (r & c' & Hrun & St' & _ & _ & _ & Hh & Hf & _ & _ & _ & Hbd & Hhd).
  rewrite Hrun. cbn [snd]. split; [exact St'|].
  assert (Hsync : synced (storage c')).
  { unfold synced. rewrite Hf. apply pread_prefix. rewrite len_headerBytes.
    reflexivity. }
  split; [rewrite Hbd; exact Hd|]. split; [right; exact Hsync|intros _; exact Hsync].
Qed.

(** One call: the collection stores what the call makes of the documents
    and its header is on disk, whether the call returns or throws. *)
Lemma run_call_kept (thr : Z) (d : Docs) (call : Call) (c : Collection) :
  kept thr d 0 c -> call_ok thr call ->
  kept thr (apply_call call d) 0 (run_call call c).
Proof.
  intros K Hok. pose proof K as [St Hs].
  destruct call as [op|id|filter|filter|filter|filter| | | | | | ];
    cbn [run_call apply_call call_ok] in *.
  - exact (run_op_kept thr d op c K Hok).
  - exact K.
  - split; [|exact (settled_find 0 filter c Hs)].
    apply (wp_snd (Documents.find filter) (stores thr d)).
    eapply wp_mono; [apply (find_stores thr d filter (fun _ _ => False) c St)| |].
    + intros r c' (_ & H & _). exact H.
    + intros e c' [].
  - split; [|exact (settled_findOne 0 filter c Hs)].
    apply (wp_snd (Documents.findOne filter) (stores thr d)).
    eapply wp_mono; [apply (findOne_stores thr d filter (fun _ _ => False) c St)| |].
    + intros r c' (_ & H & _). exact H.
    + intros e c' [].
  - split; [|exact (settled_findIds 0 filter c Hs)].
    apply (wp_snd (Collection.findIds filter) (stores thr d)).
    eapply wp_mono; [apply (findIds_stores thr d filter (fun _ _ => False) c St)| |].
    + intros r c' (_ & H & _). exact H.
    + intros e c' [].
  - split; [|exact (settled_count 0 filter c Hs)].
    apply (wp_snd (Collection.count filter) (stores thr d)).
    eapply wp_mono; [apply (count_stores thr d filter (fun _ _ => False) c St)| |].
    + intros r c' (_ & H & _). exact H.
    + intros e c' [].
  - split; [|exact (settled_getAll 0 c Hs)].
    apply (wp_snd Documents.getAll (stores thr d)).
    eapply wp_mono; [apply (getAll_stores thr d c St)| |].
    + intros r c' [_ H]. exact H.
    + intros e c' [].
  - exact K.
  - exact (compact_kept thr 0 d c K).
  - split; [|exact (settled_persistIndex 0 c Hs)].
    apply (wp_snd Documents.persistIndex (stores thr d)).
    eapply wp_mono; [apply (persistIndex_stores thr d c St)| |].
    + intros r c' H. exact H.
    + intros e c' [].
  - apply (wp_snd Documents.clear (kept thr [] 0)).
    eapply wp_mono;
      [apply (wp_conj _ _ _ _ _ _ (clear_stores thr d c St) (clear_settled c Hs))| |].
    + intros u c' [(H1 & _) H2]. split; assumption.
    + intros e c' [[] _].
  - destruct (reset_kept c) as (c' & Hrun & K' & _). rewrite Hrun. cbn [snd].
    destruct St as [_ Hthr]. destruct Hs as (Hd & _).
    rewrite Hthr, Hd in K'. exact K'.
Qed.

Lemma run_calls_kept (thr : Z) (calls : list Call) :
  forall (d : Docs) (c : Collection),
    kept thr d 0 c -> Forall (call_ok thr) calls ->
    kept thr (fold_left (fun d call => apply_call call d) calls d) 0
      (run_calls calls c).
Proof.
  induction calls as [|call calls IH]; intros d c K Hok.
  - exact K.
  - inversion Hok as [|? ? Hcall Hrest]; subst. unfold run_calls. cbn [fold_left].
    apply (IH _ _ (run_call_kept thr d call c K Hcall) Hrest).
Qed.

(** After any calls on a new collection, the collection stores the
    documents that the calls leave, and its header is on disk. *)
Lemma calls_kept (cacheSize thr : Z) (calls : list Call) :
  Forall (call_ok thr) calls ->
  kept thr (documents calls) 0 (run_calls calls (newCollection cacheSize thr)).
Proof.
  intros Hok.
  apply (run_calls_kept thr calls [] _ (newCollection_kept cacheSize thr) Hok).
Qed.
End Calls.

(* ------------------------------------------------------------------ *)
(** ** The collection is a map from ids to documents *)

Ltac calls_ok :=
  repeat match goal with
         | |- Forall _ [] => constructor
         | |- Forall _ (_ :: _) => constructor
         | |- call_ok _ _ => cbn [call_ok]
         | |- op_ok _ _ => cbn [op_ok]
         | |- batch_op_ok _ _ => cbn [batch_op_ok]
         | |- doc_ok _ _ _ => cbn [fst snd]; doc_ok_by_computation
         | |- True => exact I
         end.







(** X15.  The header on disk is always up to date.  After any sequence
    of calls of the public methods on a new collection, each of which may
    return or throw (with documents that [JSON.parse] reads back and slots
    below 4 GiB), the first 64 bytes of the data file are the encoding of
    the header that the engine has in memory, and no batch is open: every
    operation that changes a counter has written the header before it
    returns, a batch and [clear] write it when they end, also when the
    callback throws, and [compact] and [reset] write it with the file. *)
Theorem header_on_disk_is_up_to_date `{rt : Runtime}
        (cacheSize thr : Z) (calls : list Call) :
  Forall (call_ok thr) calls ->
  let s := storage (run_calls calls (newCollection cacheSize thr)) in
  pread (file s) 0 DATA_HEADER_SIZE = headerBytes (header s) /\
  batchDepth s = 0.
Proof.
  intros Hok s.
  destruct (calls_kept cacheSize thr calls Hok) as [_ (Hd & _ & Hs)].
  split; [exact (Hs eq_refl)|exact Hd].
Qed.

Lemma header_on_disk_is_up_to_date_witness :
  let s := storage (@run_calls blob_runtime blob_calls_again (newCollection 1 46)) in
  Forall (@call_ok blob_runtime 46) blob_calls_again /\
  pread (file s) 0 DATA_HEADER_SIZE = headerBytes (header s) /\
  batchDepth s = 0.
Proof.
  intros s.
  assert (H : Forall (@call_ok blob_runtime 46) blob_calls_again)
    by (unfold blob_calls_again, blob_calls, blob_history; cbn [app map]; calls_ok).
  split; [exact H|].
  exact (@header_on_disk_is_up_to_date blob_runtime 1 46 blob_calls_again H).
Defined.



Lemma items_end_packed `{rt : Runtime} (thr : Z) (d : Docs) :
  items_end (doc_items thr d) DATA_HEADER_SIZE = packed_size thr d.
Proof.
  assert (H : forall offset,
             items_end (doc_items thr d) offset
             = offset - DATA_HEADER_SIZE + packed_size thr d).
  { induction d as [|[id data] d IH]; intros offset;
      cbn [doc_items map items_end packed_size fold_right fst snd].
    - lia.
    - fold (doc_items thr d). fold (packed_size thr d). rewrite IH.
      unfold item_slab, doc_item. cbn [fst snd]. lia. }
  rewrite H. lia.
Qed.





(* ------------------------------------------------------------------ *)
(** ** The secondary indexes *)

Section Sets.

Lemma Set_has_In (s : JSSet) (x : string) : Set_has s x = true <-> In x s.
Proof.
  unfold Set_has. rewrite existsb_exists. split.
  - intros (y & Hin & Heq). apply String.eqb_eq in Heq. subst. exact Hin.
  - intros Hin. exists x. split; [exact Hin|apply String.eqb_refl].
Qed.

Lemma In_Set_add (s : JSSet) (x y : string) :
  In y (Set_add s x) <-> In y s \/ y = x.
Proof.
  unfold Set_add. destruct (Set_has s x) eqn:Hhas.
  - apply Set_has_In in Hhas. split; [tauto|]. intros [H| ->]; assumption.
  - rewrite in_app_iff. cbn [In].
    split; intros [H|H];
      [left; exact H|right; destruct H as [<-|[]]; reflexivity
      |left; exact H|right; left; symmetry; exact H].
Qed.

Lemma NoDup_Set_add (s : JSSet) (x : string) : NoDup s -> NoDup (Set_add s x).
Proof.
  intros Hnd. unfold Set_add. destruct (Set_has s x) eqn:Hhas; [exact Hnd|].
  assert (Hnot : ~ In x s).
  { intros Hin. apply Set_has_In in Hin. congruence. }
  clear Hhas. induction s as [|a s IH]; cbn [app].
  - constructor; [intros []|constructor].
  - inversion Hnd as [|? ? Ha Hnd']; subst. constructor.
    + rewrite in_app_iff. cbn [In]. intros [H|[H|[]]]; [contradiction|].
      apply Hnot. left. symmetry. exact H.
    + apply IH; [exact Hnd'|]. intros Hin. apply Hnot. right. exact Hin.
Qed.

Lemma In_Set_delete (s : JSSet) (x y : string) :
  In y (Set_delete s x) <-> In y s /\ y <> x.
Proof.
  unfold Set_delete. rewrite filter_In. split; intros [H1 H2]; split; try assumption.
  - intros ->. rewrite String.eqb_refl in H2. discriminate.
  - destruct (String.eqb_spec x y); [congruence|reflexivity].
Qed.

Lemma NoDup_Set_delete (s : JSSet) (x : string) : NoDup s -> NoDup (Set_delete s x).
Proof. intros Hnd. unfold Set_delete. apply NoDup_filter. exact Hnd. Qed.

Lemma Set_delete_empty (s : JSSet) (x y : string) :
  Set_size (Set_delete s x) = 0 -> In y s -> y = x.
Proof.
  intros Hsize Hin. destruct (String.eqb_spec y x) as [->|Hne]; [reflexivity|].
  assert (H : In y (Set_delete s x)) by (apply In_Set_delete; split; assumption).
  unfold Set_size in Hsize. destruct (Set_delete s x); [contradiction|].
  cbn [List.length] in Hsize. lia.
Qed.
End Sets.

Section Postings.
Context `{rt : Runtime}.

Lemma posted_set (vm : JSMap JSSet) (k : string) (ids : JSSet) (key id : string) :
  posted (Map_set vm k ids) key id
  <-> (key = k /\ In id ids) \/ (key <> k /\ posted vm key id).
Proof.
  unfold posted. destruct (String.eqb_spec key k) as [->|Hne].
  - rewrite Map_get_set_same. split.
    + intros (ids' & Heq & Hin). injection Heq as <-. left. split; [reflexivity|exact Hin].
    + intros [[_ Hin]|[Hne _]]; [|contradiction]. exists ids. split; [reflexivity|exact Hin].
  - rewrite Map_get_set_other by exact Hne. split.
    + intros H. right. split; [exact Hne|exact H].
    + intros [[Heq _]|[_ H]]; [contradiction|exact H].
Qed.

Lemma posted_delete (vm : JSMap JSSet) (k key id : string) :
  NoDup (Map_keys vm) ->
  posted (Map_delete vm k) key id <-> key <> k /\ posted vm key id.
Proof.
  intros Hnd. unfold posted. destruct (String.eqb_spec key k) as [->|Hne].
  - rewrite Map_get_delete_same by exact Hnd. split.
    + intros (ids & Heq & _). discriminate Heq.
    + intros [Hne _]. contradiction.
  - rewrite Map_get_delete_other by congruence. split.
    + intros H. split; [exact Hne|exact H].
    + intros [_ H]. exact H.
Qed.

Lemma value_defined (v : value) : {v = VUndefined} + {v <> VUndefined}.
Proof. destruct v; first [left; reflexivity|right; discriminate]. Qed.

Lemma postings_add_posted (field : string) (vm : JSMap JSSet) (id : string)
      (data : Document) (key id' : string) :
  posted (Index.postings_add field vm id data) key id'
  <-> posted vm key id' \/ (id' = id /\ has_key data field key).
Proof.
  unfold Index.postings_add, has_key.
  set (v := getNestedValue data field).
  assert (Hcase : forall w,
             w <> VUndefined ->
             posted (match Map_get vm (serializeIndexValue w) with
                     | Some ids => Map_set vm (serializeIndexValue w) (Set_add ids id)
                     | None => Map_set vm (serializeIndexValue w) (Set_add [] id)
                     end) key id'
             <-> posted vm key id' \/
                 (id' = id /\ w <> VUndefined /\ serializeIndexValue w = key)).
  { intros w Hw. destruct (Map_get vm (serializeIndexValue w)) as [ids|] eqn:Hget;
      rewrite posted_set, In_Set_add.
    - split.
      + intros [[-> [Hin| ->]]|[Hne Hp]].
        * left. exists ids. split; assumption.
        * right. repeat split; assumption.
        * left. exact Hp.
      + intros [(ids' & Hg & Hin)|(-> & _ & <-)].
        * destruct (String.eqb_spec key (serializeIndexValue w)) as [->|Hne].
          -- left. split; [reflexivity|]. left. congruence.
          -- right. split; [exact Hne|]. exists ids'. split; assumption.
        * left. split; [reflexivity|]. right. reflexivity.
    - split.
      + intros [[-> [[]| ->]]|[Hne Hp]].
        * right. repeat split; assumption.
        * left. exact Hp.
      + intros [(ids' & Hg & Hin)|(-> & _ & <-)].
        * destruct (String.eqb_spec key (serializeIndexValue w)) as [->|Hne].
          -- congruence.
          -- right. split; [exact Hne|]. exists ids'. split; assumption.
        * left. split; [reflexivity|]. right. reflexivity. }
  destruct (value_defined v) as [Hu|Hd].
  - rewrite Hu. split; [intros H; left; exact H|].
    intros [H|(_ & Hn & _)]; [exact H|contradiction].
  - specialize (Hcase v Hd). destruct v; try contradiction; exact Hcase.
Qed.

Lemma postings_add_keys (field : string) (vm : JSMap JSSet) (id : string)
      (data : Document) :
  NoDup (Map_keys vm) -> NoDup (Map_keys (Index.postings_add field vm id data)).
Proof.
  intros Hnd. unfold Index.postings_add.
  destruct (getNestedValue data field); try exact Hnd;
    match goal with
    | |- context [Map_get vm ?k] => destruct (Map_get vm k)
    end; apply NoDup_Map_set; exact Hnd.
Qed.

Lemma postings_add_sets (field : string) (vm : JSMap JSSet) (id : string)
      (data : Document) :
  (forall key ids, Map_get vm key = Some ids -> NoDup ids) ->
  forall key ids,
    Map_get (Index.postings_add field vm id data) key = Some ids -> NoDup ids.
Proof.
  intros Hsets key ids. unfold Index.postings_add.
  assert (Hcase : forall k,
             Map_get (match Map_get vm k with
                      | Some ids => Map_set vm k (Set_add ids id)
                      | None => Map_set vm k (Set_add [] id)
                      end) key = Some ids -> NoDup ids).
  { intros k. destruct (Map_get vm k) as [ids0|] eqn:Hget;
      (destruct (String.eqb_spec key k) as [->|Hne];
       [rewrite Map_get_set_same|rewrite Map_get_set_other by exact Hne]).
    - intros [= <-]. apply NoDup_Set_add. exact (Hsets _ _ Hget).
    - apply Hsets.
    - intros [= <-]. apply NoDup_Set_add. constructor.
    - apply Hsets. }
  destruct (getNestedValue data field); try apply Hsets; apply Hcase.
Qed.

Lemma postings_remove_posted (field : string) (vm : JSMap JSSet) (id : string)
      (data : Document) (key id' : string) :
  NoDup (Map_keys vm) ->
  posted (Index.postings_remove field vm id data) key id'
  <-> posted vm key id' /\ ~ (id' = id /\ has_key data field key).
Proof.
  intros Hnd. unfold Index.postings_remove, has_key.
  set (v := getNestedValue data field).
  assert (Hcase : forall w,
             w <> VUndefined ->
             posted (match Map_get vm (serializeIndexValue w) with
                     | Some ids =>
                         if Set_size (Set_delete ids id) =? 0
                         then Map_delete vm (serializeIndexValue w)
                         else Map_set vm (serializeIndexValue w) (Set_delete ids id)
                     | None => vm
                     end) key id'
             <-> posted vm key id' /\
                 ~ (id' = id /\ w <> VUndefined /\ serializeIndexValue w = key)).
  { intros w Hw. destruct (Map_get vm (serializeIndexValue w)) as [ids|] eqn:Hget.
    - destruct (Z.eqb_spec (Set_size (Set_delete ids id)) 0) as [Hz|Hz].
      + rewrite posted_delete by exact Hnd. split.
        * intros [Hne Hp]. split; [exact Hp|]. intros (_ & _ & Heq). congruence.
        * intros [(ids' & Hg & Hin) Hnot]. split.
          -- intros ->. rewrite Hget in Hg. injection Hg as <-.
             apply Hnot. split; [|split; [exact Hw|reflexivity]].
             exact (Set_delete_empty ids id id' Hz Hin).
          -- exists ids'. split; assumption.
      + rewrite posted_set, In_Set_delete. split.
        * intros [[-> [Hin Hne]]|[Hne Hp]].
          -- split; [exists ids; split; assumption|]. intros (Heq & _). contradiction.
          -- split; [exact Hp|]. intros (_ & _ & Heq). congruence.
        * intros [(ids' & Hg & Hin) Hnot].
          destruct (String.eqb_spec key (serializeIndexValue w)) as [->|Hne].
          -- left. split; [reflexivity|]. rewrite Hget in Hg. injection Hg as <-.
             split; [exact Hin|]. intros ->. apply Hnot.
             split; [reflexivity|split; [exact Hw|reflexivity]].
          -- right. split; [exact Hne|]. exists ids'. split; assumption.
    - split.
      + intros Hp. split; [exact Hp|]. intros (_ & _ & Heq).
        destruct Hp as (ids' & Hg & _). congruence.
      + intros [Hp _]. exact Hp. }
  destruct (value_defined v) as [Hu|Hd].
  - rewrite Hu. split; [intros H; split; [exact H|]|intros [H _]; exact H].
    intros (_ & Hn & _). contradiction.
  - specialize (Hcase v Hd). destruct v; try contradiction; exact Hcase.
Qed.

Lemma postings_remove_keys (field : string) (vm : JSMap JSSet) (id : string)
      (data : Document) :
  NoDup (Map_keys vm) -> NoDup (Map_keys (Index.postings_remove field vm id data)).
Proof.
  intros Hnd. unfold Index.postings_remove.
  destruct (getNestedValue data field); try exact Hnd;
    match goal with
    | |- context [Map_get vm ?k] => destruct (Map_get vm k); [|exact Hnd]
    end;
    match goal with
    | |- context [if ?b then _ else _] => destruct b
    end; first [apply NoDup_Map_delete|apply NoDup_Map_set]; exact Hnd.
Qed.

Lemma postings_remove_sets (field : string) (vm : JSMap JSSet) (id : string)
      (data : Document) :
  NoDup (Map_keys vm) ->
  (forall key ids, Map_get vm key = Some ids -> NoDup ids) ->
  forall key ids,
    Map_get (Index.postings_remove field vm id data) key = Some ids -> NoDup ids.
Proof.
  intros Hnd Hsets key ids. unfold Index.postings_remove.
  assert (Hcase : forall k,
             Map_get (match Map_get vm k with
                      | Some ids =>
                          if Set_size (Set_delete ids id) =? 0
                          then Map_delete vm k
                          else Map_set vm k (Set_delete ids id)
                      | None => vm
                      end) key = Some ids -> NoDup ids).
  { intros k. destruct (Map_get vm k) as [ids0|] eqn:Hget; [|apply Hsets].
    destruct (Set_size (Set_delete ids0 id) =? 0).
    - intros Hg. apply Map_get_delete_sub in Hg; [|exact Hnd].
      exact (Hsets _ _ (proj1 Hg)).
    - destruct (String.eqb_spec key k) as [->|Hne];
        [rewrite Map_get_set_same|rewrite Map_get_set_other by exact Hne].
      + intros [= <-]. apply NoDup_Set_delete. exact (Hsets _ _ Hget).
      + apply Hsets. }
  destruct (getNestedValue data field); try apply Hsets; apply Hcase.
Qed.
End Postings.

Section IndexSteps.
Context `{rt : Runtime}.

Lemma keyed_set (d : Docs) (id : string) (data : Document) (field key id' : string) :
  keyed (Map_set d id data) field key id'
  <-> (id' = id /\ has_key data field key) \/ (id' <> id /\ keyed d field key id').
Proof.
  unfold keyed, has_key. destruct (String.eqb_spec id' id) as [->|Hne].
  - rewrite Map_get_set_same. split.
    + intros (doc & Heq & H1 & H2). injection Heq as <-. left. auto.
    + intros [(_ & H1 & H2)|(Hne & _)]; [|contradiction].
      exists data. auto.
  - rewrite Map_get_set_other by exact Hne. split.
    + intros H. right. split; [exact Hne|exact H].
    + intros [(Heq & _)|(_ & H)]; [contradiction|exact H].
Qed.

Lemma keyed_delete (d : Docs) (id : string) (field key id' : string) :
  NoDup (Map_keys d) ->
  keyed (Map_delete d id) field key id' <-> id' <> id /\ keyed d field key id'.
Proof.
  intros Hnd. unfold keyed. destruct (String.eqb_spec id' id) as [->|Hne].
  - rewrite Map_get_delete_same by exact Hnd. split.
    + intros (doc & Heq & _). discriminate Heq.
    + intros [Hne _]. contradiction.
  - rewrite Map_get_delete_other by congruence. split.
    + intros H. split; [exact Hne|exact H].
    + intros [_ H]. exact H.
Qed.

Lemma keyed_id (d : Docs) (id : string) (old : Document) (field key : string) :
  Map_get d id = Some old -> keyed d field key id -> has_key old field key.
Proof.
  intros Hget (doc & Hd & H1 & H2). rewrite Hget in Hd. injection Hd as <-.
  split; assumption.
Qed.

Lemma keyed_absent (d : Docs) (id : string) (field key : string) :
  Map_get d id = None -> ~ keyed d field key id.
Proof. intros Hget (doc & Hd & _). rewrite Hget in Hd. discriminate Hd. Qed.

(** [addDocument] for an id that is not there. *)
Lemma indexes_well_add (d : Docs) (sec : SecondaryIndex) (id : string)
      (data : Document) :
  indexes_well d sec -> Map_get d id = None ->
  indexes_well (Map_set d id data) (add_postings id data sec).
Proof.
  unfold indexes_well, add_postings. intros Hw Hnone.
  rewrite Forall_map. eapply Forall_impl; [|exact Hw].
  intros [field vm] [W1 W2 W3]. cbn [fst snd] in *. constructor.
  - intros key id'. rewrite postings_add_posted, keyed_set, W1. split.
    + intros [Hk|[-> Hh]]; [|left; split; [reflexivity|exact Hh]].
      right. split; [|exact Hk]. intros ->. exact (keyed_absent d id field key Hnone Hk).
    + intros [[-> Hh]|[_ Hk]]; [right; split; [reflexivity|exact Hh]|left; exact Hk].
  - apply postings_add_keys. exact W2.
  - apply postings_add_sets. exact W3.
Qed.

(** [updateDocument] with the document that was there. *)
Lemma indexes_well_move (d : Docs) (sec : SecondaryIndex) (id : string)
      (old data : Document) :
  indexes_well d sec -> Map_get d id = Some old ->
  indexes_well (Map_set d id data) (move_postings id old data sec).
Proof.
  unfold indexes_well, move_postings. intros Hw Hold.
  rewrite Forall_map. eapply Forall_impl; [|exact Hw].
  intros [field vm] [W1 W2 W3]. cbn [fst snd] in *. constructor.
  - intros key id'.
    rewrite postings_add_posted, postings_remove_posted by exact W2.
    rewrite keyed_set, W1. split.
    + intros [[Hk Hnot]|[-> Hh]]; [|left; split; [reflexivity|exact Hh]].
      right. split; [|exact Hk]. intros ->. apply Hnot.
      split; [reflexivity|exact (keyed_id d id old field key Hold Hk)].
    + intros [[-> Hh]|[Hne Hk]]; [right; split; [reflexivity|exact Hh]|].
      left. split; [exact Hk|]. intros [Heq _]. contradiction.
  - apply postings_add_keys, postings_remove_keys. exact W2.
  - apply postings_add_sets. apply postings_remove_sets; assumption.
Qed.

(** [removeDocument] with the document that was there. *)
Lemma indexes_well_remove (d : Docs) (sec : SecondaryIndex) (id : string)
      (old : Document) :
  indexes_well d sec -> NoDup (Map_keys d) -> Map_get d id = Some old ->
  indexes_well (Map_delete d id) (remove_postings id old sec).
Proof.
  unfold indexes_well, remove_postings. intros Hw Hnd Hold.
  rewrite Forall_map. eapply Forall_impl; [|exact Hw].
  intros [field vm] [W1 W2 W3]. cbn [fst snd] in *. constructor.
  - intros key id'.
    rewrite postings_remove_posted by exact W2.
    rewrite keyed_delete by exact Hnd. rewrite W1. split.
    + intros [Hk Hnot]. split; [|exact Hk]. intros ->. apply Hnot.
      split; [reflexivity|exact (keyed_id d id old field key Hold Hk)].
    + intros [Hne Hk]. split; [exact Hk|]. intros [Heq _]. contradiction.
  - apply postings_remove_keys. exact W2.
  - apply postings_remove_sets; assumption.
Qed.
End IndexSteps.

Section IndexTraces.
Context `{rt : Runtime}.

Lemma listed_same (d : Docs) (c c' : Collection) :
  indexManager c' = indexManager c -> listed d c -> listed d c'.
Proof. unfold listed. intros ->. exact (fun H => H). Qed.

(** A storage step leaves the index manager alone. *)
Lemma wp_onStorage_index {A} (op : Eng A) (Q : A -> Collection -> Prop)
      (E : error -> Collection -> Prop) (c : Collection) :
  (forall a c', indexManager c' = indexManager c -> Q a c') ->
  (forall e c', indexManager c' = indexManager c -> E e c') ->
  wp (onStorage op) Q E c.
Proof.
  intros HQ HE. apply wp_onStorage. unfold wp.
  destruct (op (storage c)) as [[a|e] s']; [apply HQ|apply HE]; reflexivity.
Qed.

Lemma wp_cacheSet_index (id : string) (doc : Document)
      (Q : unit -> Collection -> Prop) E (c : Collection) :
  (forall c', indexManager c' = indexManager c -> Q tt c') ->
  wp (cacheSet id doc) Q E c.
Proof.
  intros HQ. unfold cacheSet. apply wp_modify. apply HQ.
  destruct (cache c); reflexivity.
Qed.

Lemma wp_cacheDelete_index (id : string)
      (Q : unit -> Collection -> Prop) E (c : Collection) :
  (forall c', indexManager c' = indexManager c -> Q tt c') ->
  wp (cacheDelete id) Q E c.
Proof.
  intros HQ. unfold cacheDelete. apply wp_modify. apply HQ.
  destruct (cache c); reflexivity.
Qed.

(** The tails of the mutations. *)
Lemma insert_tail_listed (d : Docs) (id : string) (data : Document)
      (w : Eng DocumentLocation) c :
  listed d c -> Map_get d id = None ->
  wp (location <- onStorage w ;;
      onIndex (Index.addDocument id location data) ;;
      cacheSet id data)
     (fun _ c' => listed (Map_set d id data) c') (fun _ c' => listed d c') c.
Proof.
  intros Hl Hnone. apply wp_bind. apply wp_onStorage_index.
  - intros loc c1 Hi1. apply wp_bind. unfold onIndex. apply wp_modify.
    apply wp_cacheSet_index. intros c2 Hi2. unfold listed. rewrite Hi2.
    cbn [indexManager set_indexManager]. rewrite Hi1.
    exact (indexes_well_add d _ id data Hl Hnone).
  - intros e c1 Hi1. exact (listed_same d c c1 Hi1 Hl).
Qed.

Lemma update_tail_listed (thr : Z) (d : Docs) (id : string) (data : Document)
      (old : DocumentLocation)
      (u : string -> Document -> DocumentLocation -> Eng DocumentLocation) c :
  stores thr d c -> listed d c ->
  Map_get (primaryIndex (indexManager c)) id = Some old ->
  wp (oldData <- onStorage (Storage.read old) ;;
      newLocation <- onStorage (u id data old) ;;
      onIndex (Index.updateDocument id newLocation data (Some oldData)) ;;
      cacheSet id data)
     (fun _ c' => listed (Map_set d id data) c') (fun _ c' => listed d c') c.
Proof.
  intros [[T [L _]] _] Hl Hold. apply wp_bind.
  apply (wp_read_full T d id old); [exact L|exact Hold|].
  intros olddata c1 Hd _ _ Hi1 _ _.
  apply wp_bind. apply wp_onStorage_index.
  - intros loc c2 Hi2. apply wp_bind. unfold onIndex. apply wp_modify.
    apply wp_cacheSet_index. intros c3 Hi3. unfold listed. rewrite Hi3.
    cbn [indexManager set_indexManager]. rewrite Hi2, Hi1.
    exact (indexes_well_move d _ id olddata data Hl Hd).
  - intros e c2 Hi2. apply (listed_same d c c2); [congruence|exact Hl].
Qed.

Lemma insert_with_listed (thr : Z) (d : Docs) (id : string) (data : Document)
      (w : string -> Document -> Eng DocumentLocation) c :
  stores thr d c -> listed d c ->
  wp (insert_with w id data)
     (fun _ c' => listed (Map_set d id data) c') (fun _ c' => listed d c') c.
Proof.
  intros St Hl. unfold insert_with. apply wp_bind, wp_gets.
  unfold Index.has. rewrite (stores_has thr d c id St).
  destruct (Map_has d id) eqn:Hhas; [apply wp_throw; exact Hl|].
  apply insert_tail_listed; [exact Hl|]. apply Map_has_false. exact Hhas.
Qed.

Lemma update_with_listed (thr : Z) (d : Docs) (id : string) (data : Document)
      (u : string -> Document -> DocumentLocation -> Eng DocumentLocation) c :
  stores thr d c -> listed d c ->
  wp (update_with u id data)
     (fun _ c' => listed (Map_set d id data) c') (fun _ c' => listed d c') c.
Proof.
  intros St Hl. unfold update_with. apply wp_bind, wp_gets.
  unfold Index.getLocation.
  destruct (Map_get (primaryIndex (indexManager c)) id) as [old|] eqn:Hold;
    [|apply wp_throw; exact Hl].
  apply (update_tail_listed thr); assumption.
Qed.

Lemma upsert_with_listed (thr : Z) (d : Docs) (id : string) (data : Document)
      (w : string -> Document -> Eng DocumentLocation)
      (u : string -> Document -> DocumentLocation -> Eng DocumentLocation) c :
  stores thr d c -> listed d c ->
  wp (upsert_with w u id data)
     (fun _ c' => listed (Map_set d id data) c') (fun _ c' => listed d c') c.
Proof.
  intros St Hl. unfold upsert_with. apply wp_bind, wp_gets.
  unfold Index.getLocation.
  destruct (Map_get (primaryIndex (indexManager c)) id) as [old|] eqn:Hold.
  - apply (update_tail_listed thr); assumption.
  - apply insert_tail_listed; [exact Hl|].
    exact (stores_get_none thr d c id St Hold).
Qed.

Lemma delete_with_listed (thr : Z) (d : Docs) (id : string)
      (del : DocumentLocation -> Eng unit) c :
  stores thr d c -> listed d c ->
  wp (delete_with del id)
     (fun _ c' => listed (Map_delete d id) c') (fun _ c' => listed d c') c.
Proof.
  intros St Hl. pose proof St as [[T [L _]] _].
  unfold delete_with. apply wp_bind, wp_gets. unfold Index.getLocation.
  destruct (Map_get (primaryIndex (indexManager c)) id) as [old|] eqn:Hold.
  - apply wp_bind. apply (wp_read_full T d id old); [exact L|exact Hold|].
    intros olddata c1 Hd _ _ Hi1 _ _.
    apply wp_bind. apply wp_onStorage_index.
    + intros u c2 Hi2. apply wp_bind. unfold onIndex. apply wp_modify.
      apply wp_bind. apply wp_cacheDelete_index. intros c3 Hi3. apply wp_ret.
      unfold listed. rewrite Hi3. cbn [indexManager set_indexManager].
      rewrite Hi2, Hi1.
      exact (indexes_well_remove d _ id olddata Hl (la_nodup _ _ _ L) Hd).
    + intros e c2 Hi2. apply (listed_same d c c2); [congruence|exact Hl].
  - apply wp_ret. rewrite (Map_delete_absent d id); [exact Hl|].
    exact (stores_get_none thr d c id St Hold).
Qed.
End IndexTraces.

Section IndexTracesMany.
Context `{rt : Runtime}.

Lemma apply_batch_op_after (op : BatchOp) (d d' : Docs) :
  apply_batch_op op d = Some d' -> d' = after_batch_op op d.
Proof.
  destruct op as [id data|id data|id data|id]; cbn [apply_batch_op after_batch_op];
    try destruct (Map_has d id); intros H; try discriminate H; injection H as <-;
    reflexivity.
Qed.

Lemma batch_op_listed (thr : Z) (d : Docs) (op : BatchOp) c :
  stores thr d c -> listed d c ->
  wp (Collection.batch_op op)
     (fun _ c' => listed (after_batch_op op d) c') (fun _ c' => listed d c') c.
Proof.
  intros St Hl. destruct op as [id data|id data|id data|id];
    cbn [Collection.batch_op after_batch_op].
  - apply (insert_with_listed thr); assumption.
  - apply (update_with_listed thr); assumption.
  - apply (upsert_with_listed thr); assumption.
  - apply wp_bind.
    eapply wp_mono; [apply (delete_with_listed thr d id _ c St Hl)| |].
    + intros r c' H. apply wp_ret. exact H.
    + intros e c' H. exact H.
Qed.

Lemma batch_ops_listed (thr depth : Z) (ops : list BatchOp) :
  forall (d : Docs) (c : Collection),
    kept thr d depth c -> listed d c -> Forall (batch_op_ok thr) ops ->
    wp (for_each Collection.batch_op ops)
       (fun _ c' => listed (apply_batch ops d) c')
       (fun _ c' => listed (apply_batch ops d) c') c.
Proof.
  induction ops as [|op ops IH]; intros d c K Hl Hok.
  - exact Hl.
  - cbn [for_each apply_batch]. inversion Hok as [|? ? Hop Hrest]; subst.
    apply wp_bind.
    eapply wp_mono;
      [apply (wp_conj _ _ _ _ _ _ (batch_op_kept thr depth d op c K Hop)
                (batch_op_listed thr d op c (proj1 K) Hl))| |].
    + intros u c1 [(d' & Hd & K1) Hl1]. rewrite Hd.
      rewrite <- (apply_batch_op_after op d d' Hd) in Hl1. apply wp_bind.
      eapply wp_mono; [apply (IH d' c1 K1 Hl1 Hrest)| |].
      * intros ys c2 H2. exact H2.
      * intros e c2 H2. exact H2.
    + intros e c1 [[Hd K1] Hl1]. rewrite Hd. exact Hl1.
Qed.

Lemma batch_listed (thr : Z) (d : Docs) (ops : list BatchOp) c :
  kept thr d 0 c -> listed d c -> Forall (batch_op_ok thr) ops ->
  wp (Collection.batch ops)
     (fun _ c' => listed (apply_batch ops d) c')
     (fun _ c' => listed (apply_batch ops d) c') c.
Proof.
  intros [St Hs] Hl Hok. unfold Collection.batch. apply wp_bind.
  apply wp_onStorage. unfold batch_enter. apply wp_modify.
  set (c1 := set_storage _ c).
  assert (K1 : kept thr d 1 c1).
  { split.
    - apply (stores_same thr d c); try reflexivity. exact St.
    - destruct Hs as (Hd & HK & _). split; [|split].
      + unfold c1. cbn [storage set_storage batchDepth set_batchDepth]. lia.
      + exact HK.
      + intros H. discriminate H. }
  assert (Hl1 : listed d c1) by exact Hl.
  apply wp_try_finally. apply wp_bind.
  eapply wp_mono; [apply (batch_ops_listed thr 1 ops d c1 K1 Hl1 Hok)| |].
  - intros ys c2 H2. apply wp_ret. apply wp_onStorage_index.
    + intros u c3 Hi3. exact (listed_same _ c2 c3 Hi3 H2).
    + intros e c3 Hi3. exact (listed_same _ c2 c3 Hi3 H2).
  - intros e c2 H2. apply wp_onStorage_index.
    + intros u c3 Hi3. exact (listed_same _ c2 c3 Hi3 H2).
    + intros e' c3 Hi3. exact (listed_same _ c2 c3 Hi3 H2).
Qed.

(** The second loop of [insertMany], for distinct ids that are new. *)
Lemma add_loop_listed (pend : list Written) E :
  forall (d : Docs) (c : Collection),
    listed d c ->
    NoDup (map written_id pend) ->
    (forall p, In p pend -> Map_get d (written_id p) = None) ->
    wp (for_each (fun p : Written =>
                    onIndex (Index.addDocument (fst (fst p)) (snd p) (snd (fst p))) ;;
                    cacheSet (fst (fst p)) (snd (fst p))) pend)
       (fun _ c' =>
          listed (fold_left (fun d item => Map_set d (fst item) (snd item))
                    (map fst pend) d) c') E c.
Proof.
  induction pend as [|[[id data] loc] rest IH]; intros d c Hl Hnd Hnew.
  - cbn [for_each map fold_left]. apply wp_ret. exact Hl.
  - cbn [for_each map fold_left fst snd]. apply wp_bind, wp_bind.
    unfold onIndex. apply wp_modify. apply wp_cacheSet_index. intros c1 Hi1.
    apply wp_bind.
    cbn [map written_id fst] in Hnd. inversion Hnd as [|? ? Hnot Hnd']; subst.
    eapply wp_mono; [apply (IH (Map_set d id data) c1)| |].
    + unfold listed. rewrite Hi1. cbn [indexManager set_indexManager].
      apply (indexes_well_add d _ id data Hl).
      apply (Hnew (id, data, loc)). left. reflexivity.
    + exact Hnd'.
    + intros p Hin. rewrite Map_get_set_other.
      * apply Hnew. right. exact Hin.
      * intros Heq. apply Hnot. rewrite <- Heq.
        apply in_map_iff. exists p. split; [reflexivity|exact Hin].
    + intros ys c2 H2. apply wp_ret. exact H2.
    + intros e c2 H2. exact H2.
Qed.

Lemma insertMany_listed (thr : Z) (d : Docs) (items : list (string * Document)) c :
  stores thr d c -> listed d c ->
  Forall (fun item => doc_ok thr (fst item) (snd item)) items ->
  NoDup (map fst items) ->
  wp (Collection.insertMany items)
     (fun _ c' => listed (apply_op (OpInsertMany items) d) c')
     (fun _ c' => listed d c') c.
Proof.
  intros St Hl Hok Hnd. pose proof St as [[T [L Hag]] Hthr].
  unfold Collection.insertMany. cbn [apply_op].
  destruct items as [|item0 rest] eqn:Hitems.
  { apply wp_ret. exact Hl. }
  rewrite <- Hitems in *. clear Hitems item0 rest.
  apply wp_bind, wp_gets.
  rewrite existsb_find.
  rewrite (find_same (fun item => Index.has (indexManager c) (fst item))
             (fun item => Map_has d (fst item)))
    by (intros item; unfold Index.has; apply (stores_has thr d c _ St)).
  destruct (find _ items) as [item|] eqn:Hfind.
  - apply wp_throw. exact Hl.
  - apply wp_bind, wp_onStorage.
    eapply wp_mono;
      [apply (writeMany_pending T d c thr items (fun _ _ => False)
                (Laid_Pending T d c L) Hthr Hok)| |intros e s' []].
    intros locs s' (T' & _ & _ & Hlen).
    apply wp_bind.
    eapply wp_mono;
      [apply (add_loop_listed (combine items locs) (fun _ _ => False) d
                (set_storage s' c) Hl)| |intros e c' []].
    + replace (map written_id (combine items locs))
        with (map fst (map fst (combine items locs)))
        by (rewrite map_map; reflexivity).
      rewrite (map_fst_combine items locs Hlen). exact Hnd.
    + intros [[id data] loc] Hin. cbn [written_id fst].
      apply in_combine_l in Hin. apply Map_has_false.
      pose proof (find_none _ _ Hfind _ Hin) as Hnone. exact Hnone.
    + intros ys c' H. apply wp_ret.
      rewrite (map_fst_combine items locs Hlen) in H. exact H.
Qed.
End IndexTracesMany.

Section CreateIndex.
Context `{rt : Runtime}.

Lemma map_own_entry (field : string) (f : JSMap JSSet -> JSMap JSSet)
      (sec0 : SecondaryIndex) (vm : JSMap JSSet) :
  Forall (fun e => fst e <> field) sec0 ->
  map (fun e : string * JSMap JSSet =>
         if String.eqb (fst e) field then (fst e, f (snd e)) else e)
    (sec0 ++ [(field, vm)])
  = sec0 ++ [(field, f vm)].
Proof.
  intros Hne. rewrite map_app. cbn [map fst snd]. rewrite String.eqb_refl. f_equal.
  induction Hne as [|e sec0 He _ IH]; [reflexivity|].
  cbn [map]. rewrite IH. destruct (String.eqb_spec (fst e) field); [contradiction|].
  reflexivity.
Qed.

Lemma indexed_well_empty (field : string) : indexed_well [] field [].
Proof.
  constructor.
  - intros key id. split.
    + intros (ids & Hget & _). discriminate Hget.
    + intros (doc & Hget & _). discriminate Hget.
  - constructor.
  - intros key ids Hget. discriminate Hget.
Qed.

(** The loop of [createSecondaryIndex]: the posting lists of the new
    field list the documents that were read so far. *)
Lemma createIndex_loop (thr : Z) (field : string) (sec0 : SecondaryIndex)
      (d : Docs) (index0 : PrimaryIndex) (rest : PrimaryIndex) :
  forall (done todo : Docs) (vm : JSMap JSSet) (c : Collection),
    stores thr d c ->
    d = done ++ todo ->
    Map_keys rest = Map_keys todo ->
    primaryIndex (indexManager c) = index0 ->
    (forall e, In e rest -> Map_get index0 (fst e) = Some (snd e)) ->
    secondaryIndexes (indexManager c) = sec0 ++ [(field, vm)] ->
    Forall (fun e => fst e <> field) sec0 ->
    indexed_well done field vm ->
    wp (for_each (fun entry : string * DocumentLocation =>
                    data <- onStorage (Storage.read (snd entry)) ;;
                    onIndex (fun m =>
                      set_secondaryIndexes
                        (map (fun e =>
                                if String.eqb (fst e) field
                                then (fst e, Index.postings_add field (snd e)
                                               (fst entry) data)
                                else e)
                           (secondaryIndexes m)) m)) rest)
       (fun _ c' =>
          exists vm', secondaryIndexes (indexManager c') = sec0 ++ [(field, vm')] /\
                      indexed_well d field vm')
       (fun _ _ => False) c.
Proof.
  induction rest as [|[id loc] rest IH];
    intros done todo vm c St Hd Hkeys Hpi Hloc Hsec Hne Hw.
  - destruct todo; [|discriminate]. rewrite app_nil_r in Hd. subst done.
    cbn [for_each]. apply wp_ret. exists vm. split; assumption.
  - destruct todo as [|[id' data'] todo]; [discriminate|].
    unfold Map_keys in Hkeys. cbn [map fst] in Hkeys. injection Hkeys as <- Hkeys.
    cbn [for_each snd fst]. apply wp_bind, wp_bind.
    pose proof St as [[T [L Hag]] Hthr].
    assert (Hget : Map_get (primaryIndex (indexManager c)) id = Some loc)
      by (rewrite Hpi; apply (Hloc (id, loc)); left; reflexivity).
    apply (wp_read_full T d id loc); [exact L|exact Hget|].
    intros data c1 Hdata L1 Hc1 Hi1 Hf1 Ht1.
    assert (Hsame : data = data').
    { pose proof (In_Map_get d id data' (la_nodup _ _ _ L)) as H.
      rewrite H in Hdata; [congruence|].
      rewrite Hd. apply in_or_app. right. left. reflexivity. }
    subst data'.
    unfold onIndex. apply wp_modify. apply wp_bind.
    set (c2 := set_indexManager _ c1).
    assert (Hnew : ~ In id (Map_keys done)).
    { pose proof (la_nodup _ _ _ L) as Hnd. rewrite Hd in Hnd.
      unfold Map_keys in Hnd |- *. rewrite map_app in Hnd. cbn [map fst] in Hnd.
      apply NoDup_remove_2 in Hnd. intros Hin. apply Hnd.
      apply in_or_app. left. exact Hin. }
    assert (Hsec2 : secondaryIndexes (indexManager c2)
                    = sec0 ++ [(field, Index.postings_add field vm id data)]).
    { unfold c2. cbn [indexManager set_indexManager secondaryIndexes
                        set_secondaryIndexes].
      rewrite Hi1, Hsec.
      apply (map_own_entry field (fun vm => Index.postings_add field vm id data)).
      exact Hne. }
    eapply wp_mono;
      [apply (IH (done ++ [(id, data)]) todo
                (Index.postings_add field vm id data) c2)| |].
    + apply (stores_same thr d c1); try reflexivity.
      apply (stores_intro T); [split; [exact L1|]|congruence].
      unfold cache_agrees in *. rewrite Hc1. exact Hag.
    + rewrite <- app_assoc. exact Hd.
    + exact Hkeys.
    + unfold c2. cbn [indexManager set_indexManager primaryIndex set_secondaryIndexes].
      rewrite Hi1. exact Hpi.
    + intros e Hin. apply Hloc. right. exact Hin.
    + exact Hsec2.
    + exact Hne.
    + rewrite <- (Map_set_appends done id data Hnew).
      assert (H1 : indexes_well done [(field, vm)])
        by (constructor; [exact Hw|constructor]).
      pose proof (indexes_well_add done _ id data H1
                    (proj2 (Map_get_None done id) Hnew)) as H2.
      inversion H2 as [|? ? H3 _]; subst. exact H3.
    + intros ys c3 H3. apply wp_ret. exact H3.
    + intros e c3 [].
Qed.

(** [createIndex] lists the documents under the new field, does not
    throw, and leaves the other indexes alone. *)
Lemma createIndex_listed (thr : Z) (d : Docs) (field : string) c :
  stores thr d c -> listed d c ->
  wp (Collection.createIndex field)
     (fun _ c' => listed d c') (fun _ _ => False) c.
Proof.
  intros St Hl. pose proof St as [[T [L Hag]] Hthr].
  unfold Collection.createIndex. apply wp_bind, wp_gets.
  destruct (Map_has (secondaryIndexes (indexManager c)) field) eqn:Hhas;
    [apply wp_ret; exact Hl|].
  apply wp_bind. unfold onIndex at 1. apply wp_modify.
  set (c1 := set_indexManager _ c).
  assert (Hnot : ~ In field (Map_keys (secondaryIndexes (indexManager c)))).
  { apply Map_get_None. unfold Map_has in Hhas.
    destruct (Map_get _ field); [discriminate|reflexivity]. }
  assert (Hne : Forall (fun e => fst e <> field) (secondaryIndexes (indexManager c))).
  { rewrite Forall_forall. intros e Hin Heq. apply Hnot. rewrite <- Heq.
    apply in_map. exact Hin. }
  apply wp_bind.
  eapply wp_mono;
    [apply (createIndex_loop thr field (secondaryIndexes (indexManager c)) d
              (primaryIndex (indexManager c)) (primaryIndex (indexManager c))
              [] d [] c1)| |].
  - apply (stores_same thr d c); try reflexivity. exact St.
  - reflexivity.
  - exact (la_keys _ _ _ L).
  - reflexivity.
  - intros [id loc] Hin. cbn [fst snd]. apply In_Map_get; [|exact Hin].
    rewrite (la_keys _ _ _ L). exact (la_nodup _ _ _ L).
  - unfold c1. cbn [indexManager set_indexManager secondaryIndexes
                      set_secondaryIndexes].
    apply Map_set_appends. exact Hnot.
  - exact Hne.
  - apply indexed_well_empty.
  - intros ys c2 (vm' & Hsec & Hw). unfold onIndex. apply wp_modify.
    unfold listed, indexes_well.
    cbn [indexManager set_indexManager secondaryIndexes set_dirty].
    rewrite Hsec. apply Forall_app. split; [exact Hl|].
    constructor; [exact Hw|constructor].
  - intros e c2 [].
Qed.
End CreateIndex.

Section SameIndexes.
Context `{rt : Runtime}.
Variable sec : SecondaryIndex.

Lemma same_onStorage {A} (op : Eng A) : preserves (same_indexes sec) (onStorage op).
Proof.
  intros c Hc. unfold onStorage. destruct (op (storage c)) as [r s']. exact Hc.
Qed.

Lemma same_cacheSet id doc : preserves (same_indexes sec) (cacheSet id doc).
Proof.
  intros c Hc. unfold cacheSet, modify, same_indexes in *. cbn [snd].
  destruct (cache c); exact Hc.
Qed.

Lemma same_cacheDelete id : preserves (same_indexes sec) (cacheDelete id).
Proof.
  intros c Hc. unfold cacheDelete, modify, same_indexes in *. cbn [snd].
  destruct (cache c); exact Hc.
Qed.

Lemma same_cacheGet id : preserves (same_indexes sec) (cacheGet id).
Proof.
  intros c Hc. unfold cacheGet, bind, gets, modify, ret, same_indexes in *.
  destruct (cache c) as [entries|]; [|exact Hc].
  destruct (Map_get entries id) as [v|]; [|exact Hc].
  destruct (negb (truthy_value v)); exact Hc.
Qed.

Lemma same_persist : preserves (same_indexes sec) (onIndex Index.persist).
Proof. intros c Hc. exact Hc. Qed.

#[local] Hint Resolve same_onStorage same_cacheSet same_cacheDelete same_cacheGet
  same_persist : preserves.

Lemma same_readWithCache id loc :
  preserves (same_indexes sec) (readWithCache id loc).
Proof. unfold readWithCache. preserves_run. Qed.

Lemma same_get id : preserves (same_indexes sec) (Collection.get id).
Proof. unfold Collection.get. preserves_run. Qed.

Lemma same_validate m filter ids :
  preserves (same_indexes sec) (Index.validate readWithCache m filter ids).
Proof.
  induction ids as [|id ids IH]; cbn [Index.validate].
  - apply preserves_ret.
  - destruct (Map_get (primaryIndex m) id); [|exact IH].
    apply preserves_bind; [apply same_readWithCache|]. intros doc.
    apply preserves_bind; [exact IH|]. intros r. apply preserves_ret.
Qed.

Lemma same_fetch m filter covered ids :
  preserves (same_indexes sec) (Manager.fetch readWithCache m filter covered ids).
Proof.
  induction ids as [|id ids IH]; cbn [Manager.fetch].
  - apply preserves_ret.
  - destruct (Map_get (primaryIndex m) id); [|exact IH].
    apply preserves_bind; [apply same_readWithCache|]. intros doc.
    apply preserves_bind; [exact IH|]. intros r. apply preserves_ret.
Qed.

#[local] Hint Resolve same_get same_validate same_fetch : preserves.

Lemma same_reads (call : Call) (c : Collection) :
  match call with
  | CallOp (OpGet _) | CallHas _ | CallFind _ | CallFindOne _ | CallFindIds _
  | CallCount _ | CallGetAll | CallKeys | CallPersistIndex => True
  | _ => False
  end ->
  same_indexes sec c -> same_indexes sec (run_call call c).
Proof.
  revert c.
  destruct call as [[]|id|filter|filter|filter|filter| | | | | | ];
    cbn [run_call run_op]; intros c Hread; try contradiction; clear Hread; revert c;
    match goal with
    | |- forall c, same_indexes sec c -> same_indexes sec (snd (?m c)) =>
        change (preserves (same_indexes sec) m)
    end.
  - apply same_get.
  - unfold Collection.has. preserves_run.
  - unfold Documents.find, Manager.query. preserves_run.
  - unfold Documents.findOne, Documents.find, Manager.query. preserves_run.
  - unfold Collection.findIds, Index.queryIds. preserves_run.
  - unfold Collection.count, Index.count. preserves_run.
  - unfold Documents.getAll. preserves_run.
  - unfold Documents.keys. preserves_run.
  - unfold Documents.persistIndex. preserves_run.
Qed.
End SameIndexes.

Section Listed.
Context `{rt : Runtime}.

Lemma listed_indexes (d : Docs) (c c' : Collection) :
  secondaryIndexes (indexManager c') = secondaryIndexes (indexManager c) ->
  listed d c -> listed d c'.
Proof. unfold listed. intros ->. exact (fun H => H). Qed.

Lemma run_op_listed (thr : Z) (d : Docs) (op : Op) (c : Collection) :
  kept thr d 0 c -> listed d c -> op_ok thr op -> op_tidy op ->
  listed (apply_op op d) (run_op op c).
Proof.
  intros K Hl Hok Htidy. pose proof K as [St Hs].
  destruct op as [id data|id data|id data|id|ops|items|id|fieldPath];
    cbn [run_op apply_op op_ok op_tidy] in *.
  - apply (wp_snd (Collection.insert id data)
             (listed (if Map_has d id then d else Map_set d id data))).
    change (Collection.insert id data) with (insert_with writeUnlocked id data).
    eapply wp_mono;
      [apply (wp_conj _ _ _ _ _ _ (insert_with_stores thr d id data c St Hok)
                (insert_with_listed thr d id data _ c St Hl))| |].
    + intros u c' [[Hhas _] H]. rewrite Hhas. exact H.
    + intros e c' [[Hhas _] H]. rewrite Hhas. exact H.
  - apply (wp_snd (Collection.update id data)
             (listed (if Map_has d id then Map_set d id data else d))).
    change (Collection.update id data) with (update_with updateUnlocked id data).
    eapply wp_mono;
      [apply (wp_conj _ _ _ _ _ _ (update_with_stores thr d id data c St Hok)
                (update_with_listed thr d id data _ c St Hl))| |].
    + intros u c' [[Hhas _] H]. rewrite Hhas. exact H.
    + intros e c' [[Hhas _] H]. rewrite Hhas. exact H.
  - apply (wp_snd (Collection.upsert id data) (listed (Map_set d id data))).
    change (Collection.upsert id data)
      with (upsert_with writeUnlocked updateUnlocked id data).
    eapply wp_mono;
      [apply (wp_conj _ _ _ _ _ _
                (upsert_with_stores thr d id data (fun _ _ => False) c St Hok)
                (upsert_with_listed thr d id data _ _ c St Hl))| |].
    + intros u c' [_ H]. exact H.
    + intros e c' [[] _].
  - apply (wp_snd (Collection.delete id) (listed (Map_delete d id))).
    change (Collection.delete id) with (delete_with deleteUnlocked id).
    eapply wp_mono;
      [apply (wp_conj _ _ _ _ _ _
                (delete_with_stores thr d id (fun _ _ => False) c St)
                (delete_with_listed thr d id _ c St Hl))| |].
    + intros u c' [_ H]. exact H.
    + intros e c' [[] _].
  - apply (wp_snd (Collection.batch ops) (listed (apply_batch ops d))).
    apply (batch_listed thr d ops c K Hl Hok).
  - apply (wp_snd (Collection.insertMany items)
             (listed (if existsb (fun item => Map_has d (fst item)) items then d
                      else fold_left (fun d item => Map_set d (fst item) (snd item))
                             items d))).
    eapply wp_mono;
      [apply (wp_conj _ _ _ _ _ _ (insertMany_stores thr d items c St Hok)
                (insertMany_listed thr d items c St Hl Hok Htidy))| |].
    + intros u c' [_ H]. exact H.
    + intros e c' [[Hex _] H]. rewrite Hex. exact H.
  - apply (listed_indexes d c); [|exact Hl].
    exact (same_reads _ (CallOp (OpGet id)) c I eq_refl).
  - apply (wp_snd (Collection.createIndex fieldPath) (listed d)).
    eapply wp_mono; [apply (createIndex_listed thr d fieldPath c St Hl)| |].
    + intros u c' H. exact H.
    + intros e c' [].
Qed.

Lemma run_call_listed (thr : Z) (d : Docs) (call : Call) (c : Collection) :
  kept thr d 0 c -> listed d c -> call_ok thr call -> call_tidy call ->
  listed (apply_call call d) (run_call call c).
Proof.
  intros K Hl Hok Htidy. pose proof K as [St Hs].
  destruct call as [op|id|filter|filter|filter|filter| | | | | | ];
    cbn [apply_call call_ok call_tidy] in *;
    try (apply (listed_indexes d c); [|exact Hl];
         match goal with
         | |- secondaryIndexes (indexManager (run_call ?call c)) = _ =>
             exact (same_reads _ call c I eq_refl)
         end).
  - exact (run_op_listed thr d op c K Hl Hok Htidy).
  - cbn [run_call].
    destruct (compact_stores thr d c St)
      as (r & c' & Hrun & _ & _ & _ & _ & _ & _ & _ & _ & Hsec & _).
    rewrite Hrun. cbn [snd]. exact (listed_indexes d c c' Hsec Hl).
  - cbn [run_call]. apply (wp_snd Documents.clear (listed [])).
    eapply wp_mono; [apply (clear_stores thr d c St)| |].
    + intros u c' (_ & _ & Hsec). unfold listed. rewrite Hsec.
      destruct d; [exact Hl|constructor].
    + intros e c' [].
  - cbn [run_call]. destruct (reset_kept c) as (c' & Hrun & _ & _ & _ & _ & _ & _ & Hsec & _).
    rewrite Hrun. cbn [snd]. unfold listed. rewrite Hsec. constructor.
Qed.

Lemma newCollection_listed (cacheSize thr : Z) :
  listed [] (newCollection cacheSize thr).
Proof. constructor. Qed.

Lemma run_calls_listed (thr : Z) (calls : list Call) :
  forall (d : Docs) (c : Collection),
    kept thr d 0 c -> listed d c ->
    Forall (call_ok thr) calls -> Forall call_tidy calls ->
    listed (fold_left (fun d call => apply_call call d) calls d) (run_calls calls c).
Proof.
  induction calls as [|call calls IH]; intros d c K Hl Hok Htidy.
  - exact Hl.
  - inversion Hok as [|? ? Hcall Hrest]; subst.
    inversion Htidy as [|? ? Hcall' Hrest']; subst.
    unfold run_calls. cbn [fold_left].
    apply (IH _ _ (run_call_kept thr d call c K Hcall)
             (run_call_listed thr d call c K Hl Hcall Hcall') Hrest Hrest').
Qed.

Lemma calls_listed (cacheSize thr : Z) (calls : list Call) :
  Forall (call_ok thr) calls -> Forall call_tidy calls ->
  listed (documents calls) (run_calls calls (newCollection cacheSize thr)).
Proof.
  intros Hok Htidy.
  apply (run_calls_listed thr calls [] _ (newCollection_kept cacheSize thr)
           (newCollection_listed cacheSize thr) Hok Htidy).
Qed.
End Listed.

(* ------------------------------------------------------------------ *)
(** ** What the queries return *)

Section Scan.
Context `{rt : Runtime}.
Variable sec : SecondaryIndex.
Variable d : Docs.
Hypothesis Hwell : indexes_well d sec.

Lemma indexed_field (field : string) (fieldIndex : JSMap JSSet) :
  Map_get sec field = Some fieldIndex -> indexed_well d field fieldIndex.
Proof.
  intros Hget. apply Map_get_In in Hget. unfold indexes_well in Hwell.
  rewrite Forall_forall in Hwell. exact (Hwell _ Hget).
Qed.

Lemma by_index_cons_indexed (field : string) (v : value) (rest : QueryFilter)
      (id : string) :
  Map_has sec field = true ->
  by_index sec d ((field, v) :: rest) id
  <-> keyed d field (serializeIndexValue v) id /\ by_index sec d rest id.
Proof.
  intros Hhas. unfold by_index. split.
  - intros H. split; [apply H; [left; reflexivity|exact Hhas]|].
    intros f w Hin. apply H. right. exact Hin.
  - intros [H1 H2] f w [Heq|Hin] Hf; [injection Heq as <- <-; exact H1|].
    exact (H2 f w Hin Hf).
Qed.

Lemma by_index_cons_plain (field : string) (v : value) (rest : QueryFilter)
      (id : string) :
  Map_has sec field = false ->
  by_index sec d ((field, v) :: rest) id <-> by_index sec d rest id.
Proof.
  intros Hhas. unfold by_index. split.
  - intros H f w Hin. apply H. right. exact Hin.
  - intros H f w [Heq|Hin] Hf; [injection Heq as <- <-; congruence|].
    exact (H f w Hin Hf).
Qed.

(** The first loop of the queries. *)
Lemma scan_filter_spec (filter : QueryFilter) :
  forall (cands : option JSSet) (covered : bool),
    (forall ids, cands = Some ids -> NoDup ids) ->
    match Index.scan_filter sec filter cands covered with
    | NoMatch => forall id, ~ by_index sec d filter id
    | Candidates None covered' =>
        cands = None /\
        (forall e, In e filter -> Map_has sec (fst e) = false)
    | Candidates (Some ids') covered' =>
        NoDup ids' /\
        (forall id, In id ids'
                    <-> (forall ids, cands = Some ids -> In id ids) /\
                        by_index sec d filter id) /\
        covered' = covered && forallb (fun e => Map_has sec (fst e)) filter /\
        (cands = None -> exists e, In e filter /\ Map_has sec (fst e) = true)
    end.
Proof.
  induction filter as [|[field v] rest IH]; intros cands covered Hnd;
    cbn [Index.scan_filter forallb fst].
  - destruct cands as [ids|].
    + split; [exact (Hnd ids eq_refl)|]. split; [|split].
      * intros id. split.
        -- intros Hin. split; [intros ids' [= <-]; exact Hin|].
           intros f w [].
        -- intros [H _]. exact (H ids eq_refl).
      * rewrite andb_true_r. reflexivity.
      * intros H. discriminate H.
    + split; [reflexivity|]. intros e [].
  - unfold Map_has at 2.
    destruct (Map_get sec field) as [fieldIndex|] eqn:Hfield.
    + assert (Hhas : Map_has sec field = true)
        by (unfold Map_has; rewrite Hfield; reflexivity).
      pose proof (indexed_field field fieldIndex Hfield) as [W1 W2 W3].
      destruct (Map_get fieldIndex (serializeIndexValue v)) as [matching|] eqn:Hkey.
      * set (cands' := match cands with
                       | Some c => List.filter (fun id => Set_has matching id) c
                       | None => matching
                       end).
        assert (Hin' : forall id, In id cands'
                                  <-> (forall ids, cands = Some ids -> In id ids) /\
                                      keyed d field (serializeIndexValue v) id).
        { intros id. rewrite <- W1. unfold cands', posted. rewrite Hkey.
          destruct cands as [c|].
          - rewrite filter_In, Set_has_In. split.
            + intros [H1 H2]. split; [intros ids [= <-]; exact H1|].
              exists matching. split; [reflexivity|exact H2].
            + intros [H1 (ids & [= <-] & H2)]. split; [exact (H1 c eq_refl)|exact H2].
          - split.
            + intros H. split; [intros ids Heq; discriminate Heq|].
              exists matching. split; [reflexivity|exact H].
            + intros [_ (ids & [= <-] & H2)]. exact H2. }
        assert (Hnd' : forall ids, Some cands' = Some ids -> NoDup ids).
        { intros ids [= <-]. unfold cands'. destruct cands as [c|].
          - apply NoDup_filter. exact (Hnd c eq_refl).
          - exact (W3 _ _ Hkey). }
        specialize (IH (Some cands') covered Hnd').
        destruct (Index.scan_filter sec rest (Some cands') covered)
          as [|[ids'|] covered'].
        -- intros id H. apply (by_index_cons_indexed field v rest id Hhas) in H.
           exact (IH id (proj2 H)).
        -- destruct IH as (N1 & N2 & N3 & _). split; [exact N1|]. split; [|split].
           ++ intros id. rewrite N2, (by_index_cons_indexed field v rest id Hhas).
              split.
              ** intros [H1 H2]. pose proof (proj1 (Hin' id) (H1 _ eq_refl)) as [H3 H4].
                 split; [exact H3|split; assumption].
              ** intros [H1 [H2 H3]]. split; [|exact H3].
                 intros ids [= <-]. apply Hin'. split; assumption.
           ++ rewrite N3, Hhas. reflexivity.
           ++ intros _. exists (field, v). split; [left; reflexivity|exact Hhas].
        -- destruct IH as [H _]. discriminate H.
      * intros id H. apply (by_index_cons_indexed field v rest id Hhas) in H.
        destruct H as [Hk _]. apply W1 in Hk. destruct Hk as (ids & Hget & _).
        congruence.
    + assert (Hhas : Map_has sec field = false)
        by (unfold Map_has; rewrite Hfield; reflexivity).
      specialize (IH cands false Hnd).
      destruct (Index.scan_filter sec rest cands false) as [|[ids'|] covered'].
      * intros id H. apply (by_index_cons_plain field v rest id Hhas) in H.
        exact (IH id H).
      * destruct IH as (N1 & N2 & N3 & N4). split; [exact N1|]. split; [|split].
        -- intros id. rewrite N2, (by_index_cons_plain field v rest id Hhas).
           reflexivity.
        -- rewrite N3, Hhas. cbn [andb]. rewrite andb_false_r. reflexivity.
        -- intros Hc. destruct (N4 Hc) as (e & Hin & He). exists e.
           split; [right; exact Hin|exact He].
      * destruct IH as [H1 H2]. split; [exact H1|].
        intros e [<-|Hin]; [exact Hhas|exact (H2 e Hin)].
Qed.
End Scan.

Section Answers.
Context `{rt : Runtime}.

Lemma Map_has_In {V} (m : JSMap V) (k : string) :
  Map_has m k = true <-> In k (Map_keys m).
Proof.
  unfold Map_has. pose proof (Map_get_None m k) as H.
  destruct (Map_get m k) as [v|].
  - split; [intros _|reflexivity].
    destruct (in_dec string_dec k (Map_keys m)) as [Hin|Hnot]; [exact Hin|].
    apply H in Hnot. discriminate Hnot.
  - split; [discriminate|]. intros Hin. exfalso. exact (proj1 H eq_refl Hin).
Qed.

Lemma In_matching (d : Docs) (filter : QueryFilter) (ids : list string) (id : string) :
  In id (matching d filter ids)
  <-> In id ids /\
      exists doc, Map_get d id = Some doc /\ matchesFilter doc filter = true.
Proof.
  unfold matching. rewrite filter_In. split.
  - intros [H1 H2]. split; [exact H1|].
    destruct (Map_get d id) as [doc|]; [|discriminate].
    exists doc. split; [reflexivity|exact H2].
  - intros [H1 (doc & Hget & Hm)]. split; [exact H1|]. rewrite Hget. exact Hm.
Qed.

Lemma fetched_covered (d : Docs) (filter : QueryFilter) (ids : list string) :
  fetched d filter true ids = docs_of d ids.
Proof. reflexivity. Qed.

Lemma fetched_matching (d : Docs) (filter : QueryFilter) (ids : list string) :
  fetched d filter false ids = docs_of d (matching d filter ids).
Proof.
  unfold fetched, docs_of, matching.
  induction ids as [|id ids IH]; cbn [flat_map List.filter]; [reflexivity|].
  destruct (Map_get d id) as [doc|] eqn:Hget; [|exact IH].
  destruct (matchesFilter doc filter); cbn [flat_map]; rewrite ?Hget, IH; reflexivity.
Qed.

Lemma not_all_indexed (sec : SecondaryIndex) (filter : QueryFilter) :
  forallb (fun e => Map_has sec (fst e)) filter = false
  <-> exists field v, In (field, v) filter /\ ~ In field (Map_keys sec).
Proof.
  split.
  - intros H. induction filter as [|[f v] rest IH]; [discriminate|].
    cbn [forallb fst] in H. destruct (Map_has sec f) eqn:Hf.
    + destruct (IH H) as (f' & v' & Hin & Hnot). exists f', v'.
      split; [right; exact Hin|exact Hnot].
    + exists f, v. split; [left; reflexivity|].
      intros Hin. apply Map_has_In in Hin. congruence.
  - intros (f & v & Hin & Hnot).
    destruct (forallb _ filter) eqn:H; [|reflexivity].
    rewrite forallb_forall in H. specialize (H _ Hin). cbn [fst] in H.
    apply Map_has_In in H. contradiction.
Qed.

Lemma by_index_doc (sec : SecondaryIndex) (d : Docs) (filter : QueryFilter)
      (id : string) (doc : Document) :
  Map_get d id = Some doc ->
  by_index sec d filter id
  <-> forall field v, In (field, v) filter -> In field (Map_keys sec) ->
                      has_key doc field (serializeIndexValue v).
Proof.
  intros Hget. unfold by_index. split.
  - intros H f v Hin Hf. apply Map_has_In in Hf.
    exact (keyed_id d id doc f _ Hget (H f v Hin Hf)).
  - intros H f v Hin Hf. apply Map_has_In in Hf.
    destruct (H f v Hin Hf) as [H1 H2]. exists doc. split; [exact Hget|].
    split; assumption.
Qed.

Lemma by_index_has_doc (sec : SecondaryIndex) (d : Docs) (filter : QueryFilter)
      (id : string) :
  by_index sec d filter id ->
  (exists e, In e filter /\ Map_has sec (fst e) = true) ->
  exists doc, Map_get d id = Some doc.
Proof.
  intros H ([f v] & Hin & Hf). cbn [fst] in Hf.
  destruct (H f v Hin Hf) as (doc & Hget & _). exists doc. exact Hget.
Qed.

Lemma matching_all (d : Docs) :
  NoDup (Map_keys d) -> matching d [] (Map_keys d) = Map_keys d.
Proof.
  intros Hnd. unfold matching. apply forallb_filter_id. apply forallb_forall.
  intros id Hin. destruct (Map_get d id) eqn:Hget; [reflexivity|].
  apply Map_get_None in Hget. contradiction.
Qed.

(** What the three queries compute, for secondary indexes that list the
    documents. *)
Lemma ids_found_spec (sec : SecondaryIndex) (d : Docs) (filter : QueryFilter) :
  indexes_well d sec -> NoDup (Map_keys d) ->
  NoDup (ids_found sec d filter) /\
  (forall id, In id (ids_found sec d filter)
              <-> exists doc, Map_get d id = Some doc /\
                              answers (Map_keys sec) doc filter) /\
  documents_found sec d filter = docs_of d (ids_found sec d filter) /\
  number_found sec d filter = Z.of_nat (List.length (ids_found sec d filter)) /\
  ((forall e, In e filter -> ~ In (fst e) (Map_keys sec)) ->
   ids_found sec d filter = matching d filter (Map_keys d)).
Proof.
  intros Hw Hnd.
  pose proof (scan_filter_spec sec d Hw filter None true
                (fun ids H => ltac:(discriminate H))) as Hscan.
  unfold ids_found, documents_found, number_found.
  destruct (Index.scan_filter sec filter None true) as [|[ids|] covered].
  - (* an indexed value without a posting list *)
    split; [constructor|]. split; [|split; [reflexivity|split; [reflexivity|]]].
    + intros id. split; [intros []|]. intros (doc & Hget & [Ha _]).
      apply (Hscan id). apply (by_index_doc sec d filter id doc Hget). exact Ha.
    + intros Hnone. exfalso. apply (Hscan EmptyString).
      intros f v Hin Hf. apply Map_has_In in Hf. destruct (Hnone _ Hin Hf).
  - destruct Hscan as (N1 & N2 & N3 & N4). cbn [andb] in N3.
    destruct (N4 eq_refl) as (e0 & Hin0 & He0).
    assert (Hmem : forall id, In id ids
                              <-> exists doc, Map_get d id = Some doc /\
                                  forall field v, In (field, v) filter ->
                                                  In field (Map_keys sec) ->
                                                  has_key doc field
                                                    (serializeIndexValue v)).
    { intros id. rewrite N2. split.
      - intros [_ Hb].
        destruct (by_index_has_doc sec d filter id Hb
                    (ex_intro _ e0 (conj Hin0 He0))) as (doc & Hget).
        exists doc. split; [exact Hget|].
        apply (by_index_doc sec d filter id doc Hget). exact Hb.
      - intros (doc & Hget & Ha). split; [intros ids' H; discriminate H|].
        apply (by_index_doc sec d filter id doc Hget). exact Ha. }
    assert (Hlast : (forall e, In e filter -> ~ In (fst e) (Map_keys sec)) ->
                    False).
    { intros Hnone. apply (Hnone e0 Hin0). apply Map_has_In. exact He0. }
    destruct covered.
    + (* every field of the filter is indexed *)
      symmetry in N3.
      split; [exact N1|]. split; [|split; [reflexivity|split; [reflexivity|]]].
      * intros id. rewrite Hmem. split.
        -- intros (doc & Hget & Ha). exists doc. split; [exact Hget|].
           split; [exact Ha|]. intros Hex. apply not_all_indexed in Hex. congruence.
        -- intros (doc & Hget & [Ha _]). exists doc. split; assumption.
      * intros Hnone. destruct (Hlast Hnone).
    + symmetry in N3.
      split; [unfold matching; apply NoDup_filter; exact N1|].
      split; [|split; [apply fetched_matching|split; [reflexivity|]]].
      * intros id. rewrite In_matching, Hmem. split.
        -- intros [(doc & Hget & Ha) (doc' & Hget' & Hm)].
           rewrite Hget in Hget'. injection Hget' as <-.
           exists doc. split; [exact Hget|]. split; [exact Ha|]. intros _. exact Hm.
        -- intros (doc & Hget & [Ha Hm]). split; [exists doc; split; assumption|].
           exists doc. split; [exact Hget|]. apply Hm. apply not_all_indexed. exact N3.
      * intros Hnone. destruct (Hlast Hnone).
  - (* no field of the filter is indexed *)
    destruct Hscan as [_ Hnone].
    assert (Hplain : forall field v, In (field, v) filter -> ~ In field (Map_keys sec)).
    { intros f v Hin Hf. apply Map_has_In in Hf.
      pose proof (Hnone _ Hin) as Hx. cbn [fst] in Hx. congruence. }
    split; [unfold matching; apply NoDup_filter; exact Hnd|].
    split; [|split; [apply fetched_matching|split; [reflexivity|]]].
    + intros id. rewrite In_matching. split.
      * intros [_ (doc & Hget & Hm)]. exists doc. split; [exact Hget|].
        split; [|intros _; exact Hm].
        intros f v Hin Hf. destruct (Hplain f v Hin Hf).
      * intros (doc & Hget & [_ Hm]).
        split; [apply in_map_iff; exists (id, doc); split;
                [reflexivity|apply Map_get_In; exact Hget]|].
        exists doc. split; [exact Hget|].
        destruct filter as [|[f v] rest]; [reflexivity|].
        apply Hm. exists f, v. split; [left; reflexivity|].
        apply (Hplain f v). left. reflexivity.
    + intros _. reflexivity.
Qed.
End Answers.

(* ------------------------------------------------------------------ *)
(** ** Queries after any calls *)


Ltac calls_tidy :=
  repeat match goal with
         | |- Forall _ [] => constructor
         | |- Forall _ (_ :: _) => constructor
         | |- call_tidy _ => cbn [call_tidy op_tidy]
         | |- True => exact I
         | |- NoDup _ => cbn [map fst]; repeat constructor; cbn [In];
                         intuition discriminate
         end.


(* ------------------------------------------------------------------ *)
(** ** The indexed fields *)

Section SameFields.
Context `{rt : Runtime}.
Variable fields : list string.

Lemma fields_onStorage {A} (op : Eng A) : preserves (same_fields fields) (onStorage op).
Proof.
  intros c Hc. unfold onStorage. destruct (op (storage c)) as [r s']. exact Hc.
Qed.

Lemma fields_cacheSet id doc : preserves (same_fields fields) (cacheSet id doc).
Proof.
  intros c Hc. unfold cacheSet, modify, same_fields in *. cbn [snd].
  destruct (cache c); exact Hc.
Qed.

Lemma fields_cacheDelete id : preserves (same_fields fields) (cacheDelete id).
Proof.
  intros c Hc. unfold cacheDelete, modify, same_fields in *. cbn [snd].
  destruct (cache c); exact Hc.
Qed.

Lemma fields_onIndex (f : IndexManager -> IndexManager) :
  (forall m, Map_keys (secondaryIndexes (f m)) = Map_keys (secondaryIndexes m)) ->
  preserves (same_fields fields) (onIndex f).
Proof.
  intros Hf c Hc. unfold onIndex, modify, same_fields in *. cbn [snd indexManager set_indexManager].
  rewrite Hf. exact Hc.
Qed.

Lemma fields_addDocument id location data :
  preserves (same_fields fields) (onIndex (Index.addDocument id location data)).
Proof.
  apply fields_onIndex. intros m. unfold Index.addDocument, Map_keys.
  destruct m as [p sec dty per]. cbn. rewrite map_map. reflexivity.
Qed.

Lemma fields_updateDocument id location data old :
  preserves (same_fields fields) (onIndex (Index.updateDocument id location data old)).
Proof.
  apply fields_onIndex. intros m. unfold Index.updateDocument, Map_keys.
  destruct m as [p sec dty per]. cbn. rewrite map_map. reflexivity.
Qed.

Lemma fields_removeDocument id data :
  preserves (same_fields fields) (onIndex (Index.removeDocument id data)).
Proof.
  apply fields_onIndex. intros m. unfold Index.removeDocument, Map_keys.
  destruct m as [p sec dty per]. destruct data as [doc|]; cbn; [|reflexivity].
  rewrite map_map. reflexivity.
Qed.

#[local] Hint Resolve fields_onStorage fields_cacheSet fields_cacheDelete
  fields_addDocument fields_updateDocument fields_removeDocument : preserves.

Lemma fields_insert_with w id data :
  preserves (same_fields fields) (insert_with w id data).
Proof. unfold insert_with. preserves_run. Qed.

Lemma fields_update_with u id data :
  preserves (same_fields fields) (update_with u id data).
Proof. unfold update_with. preserves_run. Qed.

Lemma fields_upsert_with w u id data :
  preserves (same_fields fields) (upsert_with w u id data).
Proof. unfold upsert_with. preserves_run. Qed.

Lemma fields_delete_with del id :
  preserves (same_fields fields) (delete_with del id).
Proof. unfold delete_with. preserves_run. Qed.

#[local] Hint Resolve fields_insert_with fields_update_with fields_upsert_with
  fields_delete_with : preserves.

Lemma fields_batch ops : preserves (same_fields fields) (Collection.batch ops).
Proof. unfold Collection.batch, Collection.batch_op. preserves_run. Qed.

Lemma fields_insertMany items :
  preserves (same_fields fields) (Collection.insertMany items).
Proof. unfold Collection.insertMany. preserves_run. Qed.
End SameFields.

Section Fields.
Context `{rt : Runtime}.

Lemma existsb_eqb_In (x : string) (xs : list string) :
  existsb (String.eqb x) xs = true <-> In x xs.
Proof.
  rewrite existsb_exists. split.
  - intros (y & Hin & Heq). apply String.eqb_eq in Heq. subst. exact Hin.
  - intros Hin. exists x. split; [exact Hin|apply String.eqb_refl].
Qed.

(** [createIndex] adds the field if it is new, whether or not the loop
    over the documents returns. *)
Lemma createIndex_fields (fieldPath : string) (c : Collection) :
  same_fields
    (fields_after (CallOp (OpCreateIndex fieldPath)) []
       (Map_keys (secondaryIndexes (indexManager c))))
    (snd (Collection.createIndex fieldPath c)).
Proof.
  cbn [fields_after]. set (sec := secondaryIndexes (indexManager c)).
  unfold Collection.createIndex.
  unfold bind at 1. unfold gets at 1. cbn beta iota. fold sec.
  destruct (Map_has sec fieldPath) eqn:Hhas.
  - pose proof (proj1 (Map_has_In sec fieldPath) Hhas) as Hin.
    apply existsb_eqb_In in Hin. rewrite Hin. reflexivity.
  - assert (Hnot : ~ In fieldPath (Map_keys sec)).
    { intros Hin. apply Map_has_In in Hin. congruence. }
    destruct (existsb (String.eqb fieldPath) (Map_keys sec)) eqn:Hex.
    { apply existsb_eqb_In in Hex. contradiction. }
    match goal with
    | |- same_fields ?fs (snd (bind (onIndex ?f) ?k c)) =>
        change (same_fields fs (snd (k tt (set_indexManager (f (indexManager c)) c))));
        cut (preserves (same_fields fs) (k tt));
          [intros Hp; apply Hp; unfold same_fields;
           cbn [indexManager set_indexManager secondaryIndexes set_secondaryIndexes];
           fold sec; rewrite (Map_set_fresh sec fieldPath [] Hnot);
           unfold Map_keys; rewrite map_app; reflexivity|]
    end.
    apply preserves_bind.
    + apply preserves_for_each. intros entry.
      apply preserves_bind; [apply fields_onStorage|]. intros data.
      apply fields_onIndex. intros m. destruct m as [p s dty per].
      cbn [secondaryIndexes set_secondaryIndexes]. unfold Map_keys.
      rewrite map_map. apply map_ext. intros e.
      destruct (String.eqb (fst e) fieldPath); reflexivity.
    + intros r. apply fields_onIndex. intros m. destruct m; reflexivity.
Qed.

Lemma run_call_fields (thr : Z) (d : Docs) (call : Call) (c : Collection) :
  kept thr d 0 c -> call_ok thr call ->
  same_fields (fields_after call d (Map_keys (secondaryIndexes (indexManager c))))
    (run_call call c).
Proof.
  intros K Hok. pose proof K as [St Hs].
  set (fs := Map_keys (secondaryIndexes (indexManager c))).
  assert (H0 : same_fields fs c) by reflexivity.
  destruct call as [op|id|filter|filter|filter|filter| | | | | | ];
    cbn [fields_after];
    try (unfold same_fields;
         match goal with
         | |- Map_keys (secondaryIndexes (indexManager (run_call ?call c))) = _ =>
             rewrite (same_reads _ call c I eq_refl); reflexivity
         end).
  - destruct op as [id data|id data|id data|id|ops|items|id|fieldPath];
      cbn [run_call run_op].
    + exact (fields_insert_with fs _ id data c H0).
    + exact (fields_update_with fs _ id data c H0).
    + exact (fields_upsert_with fs _ _ id data c H0).
    + exact (fields_delete_with fs _ id c H0).
    + exact (fields_batch fs ops c H0).
    + exact (fields_insertMany fs items c H0).
    + unfold same_fields.
      rewrite (same_get (secondaryIndexes (indexManager c)) id c eq_refl).
      reflexivity.
    + exact (createIndex_fields fieldPath c).
  - cbn [run_call].
    destruct (compact_stores thr d c St)
      as (r & c' & Hrun & _ & _ & _ & _ & _ & _ & _ & _ & Hsec & _).
    rewrite Hrun. cbn [snd]. unfold same_fields. rewrite Hsec. reflexivity.
  - cbn [run_call].
    apply (wp_snd Documents.clear
             (same_fields (match d with [] => fs | _ => [] end))).
    eapply wp_mono; [apply (clear_stores thr d c St)| |].
    + intros u c' (_ & _ & Hsec). unfold same_fields. rewrite Hsec.
      destruct d; reflexivity.
    + intros e c' [].
  - cbn [run_call].
    destruct (reset_kept c) as (c' & Hrun & _ & _ & _ & _ & _ & _ & Hsec & _).
    rewrite Hrun. cbn [snd]. unfold same_fields. rewrite Hsec. reflexivity.
Qed.

Lemma run_calls_fields (thr : Z) (calls : list Call) :
  forall (d : Docs) (c : Collection),
    kept thr d 0 c -> Forall (call_ok thr) calls ->
    same_fields (indexes_from calls d (Map_keys (secondaryIndexes (indexManager c))))
      (run_calls calls c).
Proof.
  induction calls as [|call calls IH]; intros d c K Hok.
  - reflexivity.
  - inversion Hok as [|? ? Hcall Hrest]; subst.
    unfold run_calls. cbn [fold_left indexes_from].
    pose proof (run_call_fields thr d call c K Hcall) as Hf.
    pose proof (IH _ _ (run_call_kept thr d call c K Hcall) Hrest) as Hn.
    rewrite Hf in Hn. exact Hn.
Qed.
End Fields.



(* ------------------------------------------------------------------ *)
(** ** The counters of the header *)

Create HintDb counts.

Ltac counts_run :=
  repeat first
    [ progress preserves_run
    | match goal with
      | |- preserves _ (modify _) =>
          apply preserves_modify; intros ? [? ?]; split; assumption
      | |- preserves _ (pure_result _) => intros ? ?; assumption
      | |- preserves _ _ => solve [auto with counts]
      end ].

Section CountFrames.
Context `{rt : Runtime}.
Variables n m : Z.

Lemma counts_writeAtOffset o data : preserves (counts n m) (writeAtOffset o data).
Proof. unfold writeAtOffset. counts_run. Qed.

Lemma counts_allocateSlot k : preserves (counts n m) (allocateSlot k).
Proof. unfold allocateSlot. counts_run. Qed.

#[local] Hint Resolve counts_writeAtOffset counts_allocateSlot : counts.

Lemma counts_writeSlot o data sz isBlob :
  preserves (counts n m) (writeSlot o data sz isBlob).
Proof. unfold writeSlot. counts_run. Qed.

Lemma counts_markSlotFree o : preserves (counts n m) (markSlotFree o).
Proof. unfold markSlotFree. counts_run. Qed.

Lemma counts_freeList_add x : preserves (counts n m) (freeList_add x).
Proof. unfold freeList_add. counts_run. Qed.

Lemma counts_advance a : preserves (counts n m) (advance a).
Proof. unfold advance, modify_header. counts_run. Qed.

Lemma counts_writeBlobFile path data : preserves (counts n m) (writeBlobFile path data).
Proof. unfold writeBlobFile. counts_run. Qed.

Lemma counts_readSlot o k : preserves (counts n m) (readSlot o k).
Proof. unfold readSlot. counts_run. Qed.

Lemma counts_deleteBlob path : preserves (counts n m) (deleteBlob path).
Proof. unfold deleteBlob. counts_run. Qed.

#[local] Hint Resolve counts_writeSlot counts_markSlotFree counts_freeList_add
  counts_advance counts_writeBlobFile counts_readSlot counts_deleteBlob : counts.

Lemma counts_readBlobReference o k : preserves (counts n m) (readBlobReference o k).
Proof. unfold readBlobReference. counts_run. Qed.

Lemma counts_writeBlobReferenceSlot ref :
  preserves (counts n m) (writeBlobReferenceSlot ref).
Proof. unfold writeBlobReferenceSlot. counts_run. Qed.

#[local] Hint Resolve counts_readBlobReference counts_writeBlobReferenceSlot : counts.

Lemma counts_writeBlobForUpdateUnlocked id data :
  preserves (counts n m) (writeBlobForUpdateUnlocked id data).
Proof. unfold writeBlobForUpdateUnlocked. counts_run. Qed.

Lemma counts_updateBlobReferenceUnlocked id data old :
  preserves (counts n m) (updateBlobReferenceUnlocked id data old).
Proof. unfold updateBlobReferenceUnlocked. counts_run. Qed.

Lemma counts_markMetadataDirty : preserves (counts n m) markMetadataDirty.
Proof. unfold markMetadataDirty. counts_run. Qed.

Lemma counts_flushMetadata : preserves (counts n m) flushMetadata.
Proof. unfold flushMetadata, writeHeader, updateSharedState. counts_run. Qed.

#[local] Hint Resolve counts_flushMetadata : counts.

Lemma counts_flushIfNotBatching : preserves (counts n m) flushIfNotBatching.
Proof. unfold flushIfNotBatching. counts_run. Qed.

Lemma counts_batch_enter : preserves (counts n m) batch_enter.
Proof. unfold batch_enter. counts_run. Qed.

Lemma counts_batch_exit : preserves (counts n m) batch_exit.
Proof. unfold batch_exit. counts_run. Qed.

Lemma counts_readBlob loc : preserves (counts n m) (readBlob loc).
Proof. unfold readBlob. counts_run. Qed.

#[local] Hint Resolve counts_readBlob : counts.

Lemma counts_read loc : preserves (counts n m) (Storage.read loc).
Proof. unfold Storage.read. counts_run. Qed.
End CountFrames.

#[export] Hint Resolve counts_writeAtOffset counts_allocateSlot counts_writeSlot
  counts_markSlotFree counts_freeList_add counts_advance counts_writeBlobFile
  counts_readSlot counts_deleteBlob counts_readBlobReference
  counts_writeBlobReferenceSlot counts_writeBlobForUpdateUnlocked
  counts_updateBlobReferenceUnlocked counts_markMetadataDirty counts_flushMetadata
  counts_flushIfNotBatching counts_batch_enter counts_batch_exit counts_readBlob
  counts_read : counts.

(** One step that keeps the counters, in a trace that may throw. *)
Ltac count_frame :=
  match goal with
  | HC : counts ?n ?m ?s |- wp (bind _ _) _ _ ?s =>
      apply wp_bind;
      apply (preserves_wp (counts n m));
        [solve [auto with counts]|exact HC
        |clear HC; intros ? ? HC|intros; exact I]
  end.

Section CountTraces.
Context `{rt : Runtime}.

Lemma wp_count_documents (k n m : Z) (Q : unit -> StorageEngine -> Prop) E s :
  counts n m s ->
  (forall s', counts (n + k) m s' -> Q tt s') ->
  wp (modify_header (fun h => set_documentCount (documentCount h + k) h)) Q E s.
Proof.
  intros [H1 H2] HQ. unfold modify_header. apply wp_modify. apply HQ.
  split; cbn; [rewrite H1; reflexivity|exact H2].
Qed.

Lemma wp_count_one_less (n m : Z) (Q : unit -> StorageEngine -> Prop) E s :
  counts n m s ->
  (forall s', counts (n - 1) m s' -> Q tt s') ->
  wp (modify_header (fun h => set_documentCount (documentCount h - 1) h)) Q E s.
Proof.
  intros [H1 H2] HQ. unfold modify_header. apply wp_modify. apply HQ.
  split; cbn; [rewrite H1; reflexivity|exact H2].
Qed.

Lemma wp_count_live (k n m : Z) (Q : unit -> StorageEngine -> Prop) E s :
  counts n m s ->
  (forall s', counts n (m + k) s' -> Q tt s') ->
  wp (modify_header (fun h => set_liveDataSize (liveDataSize h + k) h)) Q E s.
Proof.
  intros [H1 H2] HQ. unfold modify_header. apply wp_modify. apply HQ.
  split; cbn; [exact H1|rewrite H2; reflexivity].
Qed.

Lemma wp_count_less_live (k n m : Z) (Q : unit -> StorageEngine -> Prop) E s :
  counts n m s ->
  (forall s', counts n (m - k) s' -> Q tt s') ->
  wp (modify_header (fun h => set_liveDataSize (liveDataSize h - k) h)) Q E s.
Proof.
  intros [H1 H2] HQ. unfold modify_header. apply wp_modify. apply HQ.
  split; cbn; [exact H1|rewrite H2; reflexivity].
Qed.

(** The end of a mutation keeps the counters. *)
Lemma wp_count_flush {A} (a : A) (n m : Z) (Q : A -> StorageEngine -> Prop) s :
  counts n m s ->
  (forall s', counts n m s' -> Q a s') ->
  wp (markMetadataDirty ;; flushIfNotBatching ;; ret a) Q (fun _ _ => True) s.
Proof.
  intros HC HQ. count_frame. count_frame. apply wp_ret. apply HQ. exact HC.
Qed.

Lemma wp_count_adjust (k n m : Z) (Q : unit -> StorageEngine -> Prop) s :
  counts n m s ->
  (forall s', counts n (m + k) s' -> Q tt s') ->
  wp (adjustLiveData k) Q (fun _ _ => True) s.
Proof.
  intros HC HQ. unfold adjustLiveData. apply wp_bind.
  apply (wp_count_live k n m); [exact HC|]. clear HC. intros s1 HC.
  count_frame.
  apply (preserves_wp (counts n (m + k)));
    [solve [auto with counts]|exact HC|intros u sz Hz; destruct u; apply HQ; exact Hz
    |intros; exact I].
Qed.

(** [writeUnlocked] counts one document more and its encoded bytes. *)
Lemma count_writeUnlocked (id : string) (data : Document) (n m : Z)
      (Q : DocumentLocation -> StorageEngine -> Prop) s :
  counts n m s ->
  (forall loc s', counts (n + 1) (m + len (encodeDocument data)) s' -> Q loc s') ->
  wp (writeUnlocked id data) Q (fun _ _ => True) s.
Proof.
  intros HC HQ. unfold writeUnlocked. cbv zeta. apply wp_bind, wp_gets.
  destruct (len (encodeDocument data) >? blobThreshold s).
  - unfold writeBlobForInsertUnlocked. apply wp_bind. unfold writeBlobFile.
    apply wp_bind, wp_modify. apply wp_ret. cbn [ref_size].
    match goal with
    | |- wp _ _ _ ?s1 =>
        assert (HC1 : counts n m s1) by (destruct HC; split; assumption)
    end.
    clear HC. rename HC1 into HC.
    count_frame.
    apply wp_bind. apply (wp_count_documents 1 n m); [exact HC|].
    clear HC. intros s2 HC.
    apply wp_bind.
    apply (wp_count_live (len (encodeDocument data)) (n + 1) m); [exact HC|].
    clear HC. intros s3 HC.
    apply (wp_count_flush _ _ _ _ _ HC). intros s4 H4. apply HQ. exact H4.
  - count_frame. count_frame. count_frame.
    apply wp_bind. apply (wp_count_documents 1 n m); [exact HC|].
    clear HC. intros s2 HC.
    apply wp_bind.
    apply (wp_count_live (len (encodeDocument data)) (n + 1) m); [exact HC|].
    clear HC. intros s3 HC.
    apply (wp_count_flush _ _ _ _ _ HC). intros s4 H4. apply HQ. exact H4.
Qed.

(** The length of the location of an inline document. *)
Lemma holds_inline_length (s : StorageEngine) (loc : DocumentLocation)
      (id : string) (data : Document) :
  holds s loc id data -> loc_isBlob loc = false ->
  loc_length loc = len (encodeDocument data).
Proof.
  intros [H1 H2 _ _] Hb. rewrite H1. unfold slot_payload. cbv zeta.
  rewrite <- H2, Hb. reflexivity.
Qed.

(** [updateUnlocked] keeps the number of documents and exchanges the
    encoded bytes of the old document for those of the new one. *)
Lemma count_updateUnlocked (id : string) (data olddata : Document)
      (old : DocumentLocation) (n m : Z)
      (Q : DocumentLocation -> StorageEngine -> Prop) s :
  holds s old id olddata -> round_trips (blobThreshold s) id olddata ->
  counts n m s ->
  (forall loc s',
      counts n (m + (len (encodeDocument data) - len (encodeDocument olddata))) s' ->
      Q loc s') ->
  wp (updateUnlocked id data old) Q (fun _ _ => True) s.
Proof.
  intros Hh Hrt HC HQ. unfold updateUnlocked. cbv zeta. apply wp_bind, wp_gets.
  destruct (loc_isBlob old) eqn:Eold.
  - apply wp_bind.
    apply (wp_readBlobReference_holds s old id olddata); try assumption.
    cbn [ref_size ref_path].
    destruct (len (encodeDocument data) >? blobThreshold s).
    + count_frame. apply wp_bind.
      apply (wp_count_adjust _ n m); [exact HC|]. clear HC. intros s2 HC.
      apply wp_ret. apply HQ. exact HC.
    + count_frame. count_frame. count_frame. count_frame. count_frame. count_frame.
      apply wp_bind.
      apply (wp_count_adjust _ n m); [exact HC|]. clear HC. intros s2 HC.
      apply wp_ret. apply HQ. exact HC.
  - rewrite (holds_inline_length s old id olddata Hh Eold).
    destruct (len (encodeDocument data) >? blobThreshold s).
    + count_frame. count_frame. count_frame. apply wp_bind.
      apply (wp_count_adjust _ n m); [exact HC|]. clear HC. intros s2 HC.
      apply wp_ret. apply HQ. exact HC.
    + match goal with
      | |- context [if ?b then _ else _] => destruct b
      end.
      * count_frame. apply wp_bind.
        apply (wp_count_adjust _ n m); [exact HC|]. clear HC. intros s2 HC.
        apply wp_ret. apply HQ. exact HC.
      * count_frame. count_frame. count_frame. count_frame. count_frame.
        apply wp_bind.
        apply (wp_count_adjust _ n m); [exact HC|]. clear HC. intros s2 HC.
        apply wp_ret. apply HQ. exact HC.
Qed.

(** [deleteUnlocked] counts one document less, without its encoded
    bytes. *)
Lemma count_deleteUnlocked (id : string) (olddata : Document)
      (old : DocumentLocation) (n m : Z)
      (Q : unit -> StorageEngine -> Prop) s :
  holds s old id olddata -> round_trips (blobThreshold s) id olddata ->
  counts n m s ->
  (forall s', counts (n - 1) (m - len (encodeDocument olddata)) s' -> Q tt s') ->
  wp (deleteUnlocked old) Q (fun _ _ => True) s.
Proof.
  intros Hh Hrt HC HQ. unfold deleteUnlocked.
  assert (Hrest : forall s1,
             counts n (m - len (encodeDocument olddata)) s1 ->
             wp (markSlotFree (loc_offset old) ;;
                 freeList_add (mkFreeSlot (loc_offset old) (loc_slabSize old)) ;;
                 modify_header (fun h => set_documentCount (documentCount h - 1) h) ;;
                 markMetadataDirty ;;
                 flushIfNotBatching) Q (fun _ _ => True) s1).
  { clear HC. intros s1 HC. count_frame. count_frame. apply wp_bind.
    eapply wp_count_one_less; [exact HC|]. clear HC. intros s2 HC.
    count_frame.
    apply (preserves_wp (counts (n - 1) (m - len (encodeDocument olddata))));
      [solve [auto with counts]|exact HC
      |intros u sz Hz; destruct u; apply HQ; exact Hz|intros; exact I]. }
  apply wp_bind.
  destruct (loc_isBlob old) eqn:Eold.
  - apply wp_bind.
    apply (wp_readBlobReference_holds s old id olddata); try assumption.
    cbn [ref_size ref_path]. count_frame.
    apply (wp_count_less_live _ n m); [exact HC|]. clear HC. intros s2 HC.
    apply Hrest. exact HC.
  - rewrite (holds_inline_length s old id olddata Hh Eold).
    apply (wp_count_less_live _ n m); [exact HC|]. clear HC. intros s2 HC.
    apply Hrest. exact HC.
Qed.

Lemma writeMany_build_live (items : list (string * Document)) (o : Z) :
  snd (writeMany_build items o) = items_bytes items.
Proof.
  revert o. induction items as [|[id data] items IH]; intros o; [reflexivity|].
  cbn [writeMany_build items_bytes fold_right snd]. cbv zeta.
  specialize (IH (o + selectSlabSize (len (encodeDocument data)))).
  destruct (writeMany_build items _) as [[[bufs locs] total] live].
  cbn [snd] in *. rewrite IH. reflexivity.
Qed.

Lemma count_write_loop (items : list (string * Document)) :
  forall (n m : Z) (Q : list DocumentLocation -> StorageEngine -> Prop) s,
    counts n m s ->
    (forall locs s',
        counts (n + Z.of_nat (List.length items)) (m + items_bytes items) s' ->
        Q locs s') ->
    wp (for_each (fun item => writeUnlocked (fst item) (snd item)) items) Q
       (fun _ _ => True) s.
Proof.
  induction items as [|item items IH]; intros n m Q s HC HQ.
  - cbn [for_each]. apply wp_ret. apply HQ.
    cbn [List.length items_bytes fold_right Z.of_nat].
    rewrite !Z.add_0_r. exact HC.
  - cbn [for_each]. apply wp_bind.
    apply (count_writeUnlocked (fst item) (snd item) n m); [exact HC|].
    clear HC. intros loc s1 HC. apply wp_bind.
    apply (IH (n + 1) (m + len (encodeDocument (snd item)))); [exact HC|].
    clear HC. intros locs s2 HC. apply wp_ret. apply HQ.
    cbn [items_bytes fold_right List.length]. rewrite Nat2Z.inj_succ.
    destruct HC as [H1 H2]. split; [rewrite H1|rewrite H2; unfold items_bytes]; lia.
Qed.

(** [writeMany] counts its items and their encoded bytes. *)
Lemma count_writeMany (items : list (string * Document)) (n m : Z)
      (Q : list DocumentLocation -> StorageEngine -> Prop) s :
  counts n m s ->
  (forall locs s',
      counts (n + Z.of_nat (List.length items)) (m + items_bytes items) s' ->
      Q locs s') ->
  wp (writeMany items) Q (fun _ _ => True) s.
Proof.
  intros HC HQ. unfold writeMany.
  destruct items as [|item0 rest] eqn:Hitems.
  { apply wp_ret. apply HQ. cbn. rewrite !Z.add_0_r. exact HC. }
  rewrite <- Hitems in *. clear Hitems item0 rest.
  apply wp_bind, wp_gets.
  destruct (existsb _ items).
  - count_frame. apply wp_try_finally.
    eapply wp_mono;
      [apply (count_write_loop items n m
                (fun _ s2 => counts (n + Z.of_nat (List.length items))
                               (m + items_bytes items) s2) _ HC);
       intros locs s2 H2; exact H2| |].
    + intros locs s2 H2.
      apply (preserves_wp (counts (n + Z.of_nat (List.length items))
                             (m + items_bytes items)));
        [solve [auto with counts]|exact H2
        |intros u sz Hz; apply HQ; exact Hz|intros; exact I].
    + intros e s2 _. apply wp_trivial.
  - apply wp_bind, wp_gets.
    pose proof (writeMany_build_live items (nextSlotOffset (header s))) as Hlive.
    destruct (writeMany_build items (nextSlotOffset (header s)))
      as [[[bufs locs] total] live].
    cbn [snd] in Hlive. subst live. cbv zeta.
    count_frame. apply wp_bind. unfold modify_header at 1. apply wp_modify.
    match goal with
    | |- wp _ _ _ ?s1 =>
        assert (HC1 : counts n m s1) by (destruct HC; split; assumption)
    end.
    clear HC. rename HC1 into HC.
    apply wp_bind.
    apply (wp_count_documents (Z.of_nat (List.length items)) n m); [exact HC|].
    clear HC. intros s2 HC. apply wp_bind.
    eapply wp_count_live; [exact HC|].
    clear HC. intros s3 HC.
    apply (wp_count_flush _ _ _ _ _ HC). intros s4 H4. apply HQ. exact H4.
Qed.
End CountTraces.

Section LiveBytes.
Context `{rt : Runtime}.

Lemma live_bytes_set_new (d : Docs) (id : string) (data : Document) :
  Map_get d id = None ->
  live_bytes (Map_set d id data) = live_bytes d + len (encodeDocument data).
Proof.
  induction d as [|[k v] d IH]; cbn [Map_get Map_set live_bytes fold_right snd].
  - intros _. lia.
  - destruct (String.eqb k id); [discriminate|]. intros H.
    cbn [fold_right snd]. fold (live_bytes (Map_set d id data)).
    rewrite (IH H). unfold live_bytes. lia.
Qed.

Lemma live_bytes_set_old (d : Docs) (id : string) (data old : Document) :
  Map_get d id = Some old ->
  live_bytes (Map_set d id data)
  = live_bytes d + (len (encodeDocument data) - len (encodeDocument old)).
Proof.
  induction d as [|[k v] d IH]; cbn [Map_get Map_set live_bytes fold_right snd];
    [discriminate|].
  destruct (String.eqb k id).
  - intros H. injection H as <-. cbn [fold_right snd]. lia.
  - intros H. cbn [fold_right snd]. fold (live_bytes (Map_set d id data)).
    rewrite (IH H). unfold live_bytes. lia.
Qed.

Lemma live_bytes_delete (d : Docs) (id : string) (old : Document) :
  Map_get d id = Some old ->
  live_bytes (Map_delete d id) = live_bytes d - len (encodeDocument old).
Proof.
  induction d as [|[k v] d IH]; cbn [Map_get Map_delete live_bytes fold_right snd];
    [discriminate|].
  destruct (String.eqb k id).
  - intros H. injection H as <-. fold (live_bytes d). lia.
  - intros H. cbn [fold_right snd]. fold (live_bytes (Map_delete d id)).
    rewrite (IH H). unfold live_bytes. lia.
Qed.

Lemma Map_has_some {V} (m : JSMap V) (k : string) (v : V) :
  Map_get m k = Some v -> Map_has m k = true.
Proof. unfold Map_has. intros ->. reflexivity. Qed.

Lemma Map_has_none {V} (m : JSMap V) (k : string) :
  Map_get m k = None -> Map_has m k = false.
Proof. unfold Map_has. intros ->. reflexivity. Qed.

Lemma counted_set_new (d : Docs) (id : string) (data : Document) c :
  Map_get d id = None ->
  tally (Map_size d + 1) (live_bytes d + len (encodeDocument data)) c ->
  counted (Map_set d id data) c.
Proof.
  intros Hnone H. unfold counted.
  rewrite Map_size_set, (Map_has_none _ _ Hnone), (live_bytes_set_new _ _ _ Hnone).
  exact H.
Qed.

Lemma counted_set_old (d : Docs) (id : string) (data old : Document) c :
  Map_get d id = Some old ->
  tally (Map_size d)
    (live_bytes d + (len (encodeDocument data) - len (encodeDocument old))) c ->
  counted (Map_set d id data) c.
Proof.
  intros Hold H. unfold counted.
  rewrite Map_size_set, (Map_has_some _ _ _ Hold), (live_bytes_set_old _ _ _ _ Hold).
  exact H.
Qed.

Lemma counted_delete (d : Docs) (id : string) (old : Document) c :
  Map_get d id = Some old ->
  tally (Map_size d - 1) (live_bytes d - len (encodeDocument old)) c ->
  counted (Map_delete d id) c.
Proof.
  intros Hold H. unfold counted.
  rewrite (proj2 (Map_size_delete d id) (Map_has_some _ _ _ Hold)),
    (live_bytes_delete _ _ _ Hold).
  exact H.
Qed.
End LiveBytes.

Section TallyFrames.
Context `{rt : Runtime}.
Variables n m : Z.

Lemma tally_onStorage {A} (op : Eng A) :
  preserves (counts n m) op -> preserves (tally n m) (onStorage op).
Proof.
  intros Hop c Hc. unfold onStorage, tally in *. specialize (Hop (storage c) Hc).
  destruct (op (storage c)) as [r s']. exact Hop.
Qed.

Lemma tally_onIndex f : preserves (tally n m) (onIndex f).
Proof. intros c Hc. exact Hc. Qed.

Lemma tally_cacheSet id doc : preserves (tally n m) (cacheSet id doc).
Proof.
  intros c Hc. unfold cacheSet, modify, tally in *. cbn [snd].
  destruct (cache c); exact Hc.
Qed.

Lemma tally_cacheDelete id : preserves (tally n m) (cacheDelete id).
Proof.
  intros c Hc. unfold cacheDelete, modify, tally in *. cbn [snd].
  destruct (cache c); exact Hc.
Qed.

Lemma tally_cacheClear : preserves (tally n m) Documents.cacheClear.
Proof.
  intros c Hc. unfold Documents.cacheClear, modify, tally in *. cbn [snd].
  destruct (cache c); exact Hc.
Qed.

Lemma tally_cacheGet id : preserves (tally n m) (cacheGet id).
Proof.
  intros c Hc. unfold cacheGet, bind, gets, modify, ret, tally in *.
  destruct (cache c) as [entries|]; [|exact Hc].
  destruct (Map_get entries id) as [v|]; [|exact Hc].
  destruct (negb (truthy_value v)); exact Hc.
Qed.

Lemma tally_read loc : preserves (tally n m) (onStorage (Storage.read loc)).
Proof. apply tally_onStorage. apply counts_read. Qed.

#[local] Hint Resolve tally_onIndex tally_cacheSet tally_cacheDelete tally_cacheGet
  tally_cacheClear tally_read : preserves.

Lemma tally_readWithCache id loc : preserves (tally n m) (readWithCache id loc).
Proof. unfold readWithCache. preserves_run. Qed.

Lemma tally_get id : preserves (tally n m) (Collection.get id).
Proof. unfold Collection.get. preserves_run. Qed.

Lemma tally_validate mg filter ids :
  preserves (tally n m) (Index.validate readWithCache mg filter ids).
Proof.
  induction ids as [|id ids IH]; cbn [Index.validate].
  - apply preserves_ret.
  - destruct (Map_get (primaryIndex mg) id); [|exact IH].
    apply preserves_bind; [apply tally_readWithCache|]. intros doc.
    apply preserves_bind; [exact IH|]. intros r. apply preserves_ret.
Qed.

Lemma tally_fetch mg filter covered ids :
  preserves (tally n m) (Manager.fetch readWithCache mg filter covered ids).
Proof.
  induction ids as [|id ids IH]; cbn [Manager.fetch].
  - apply preserves_ret.
  - destruct (Map_get (primaryIndex mg) id); [|exact IH].
    apply preserves_bind; [apply tally_readWithCache|]. intros doc.
    apply preserves_bind; [exact IH|]. intros r. apply preserves_ret.
Qed.

#[local] Hint Resolve tally_get tally_validate tally_fetch tally_readWithCache
  : preserves.

(** The calls that write no document keep the counters. *)
Lemma tally_reads (call : Call) (c : Collection) :
  match call with
  | CallOp (OpGet _) | CallOp (OpCreateIndex _) | CallHas _ | CallFind _
  | CallFindOne _ | CallFindIds _ | CallCount _ | CallGetAll | CallKeys
  | CallPersistIndex => True
  | _ => False
  end ->
  tally n m c -> tally n m (run_call call c).
Proof.
  revert c.
  destruct call as [[]|id|filter|filter|filter|filter| | | | | | ];
    cbn [run_call run_op]; intros c Hread; try contradiction; clear Hread; revert c;
    match goal with
    | |- forall c, tally n m c -> tally n m (snd (?op c)) =>
        change (preserves (tally n m) op)
    end.
  - apply tally_get.
  - unfold Collection.createIndex. preserves_run.
  - unfold Collection.has. preserves_run.
  - unfold Documents.find, Manager.query. preserves_run.
  - unfold Documents.findOne, Documents.find, Manager.query. preserves_run.
  - unfold Collection.findIds, Index.queryIds. preserves_run.
  - unfold Collection.count, Index.count. preserves_run.
  - unfold Documents.getAll. preserves_run.
  - unfold Documents.keys. preserves_run.
  - unfold Documents.persistIndex. preserves_run.
Qed.
End TallyFrames.

Section CountedSteps.
Context `{rt : Runtime}.

(** The tail of an insert counts the new document. *)
Lemma insert_tail_counts (id : string) (data : Document) (n m : Z) c :
  tally n m c ->
  wp (location <- onStorage (writeUnlocked id data) ;;
      onIndex (Index.addDocument id location data) ;;
      cacheSet id data)
     (fun _ c' => tally (n + 1) (m + len (encodeDocument data)) c')
     (fun _ _ => True) c.
Proof.
  intros HC. apply wp_bind, wp_onStorage.
  apply (count_writeUnlocked id data n m); [exact HC|].
  intros loc s1 H1. apply wp_bind. unfold onIndex. apply wp_modify.
  apply (preserves_wp (tally (n + 1) (m + len (encodeDocument data))));
    [apply tally_cacheSet|exact H1|intros u c2 H2; exact H2|intros; exact I].
Qed.

(** A read of an indexed document returns it and changes only the count
    of the reads. *)
Lemma wp_read_indexed (T : Tiles) (d : Docs) (id : string) (loc : DocumentLocation)
      (Q : Document -> Collection -> Prop) E c :
  Laid T d c ->
  Map_get (primaryIndex (indexManager c)) id = Some loc ->
  (forall data,
      Map_get d id = Some data ->
      holds (storage c) loc id data ->
      round_trips (blobThreshold (storage c)) id data ->
      Q data (set_storage (set_docReads (S (docReads (storage c))) (storage c)) c)) ->
  wp (onStorage (Storage.read loc)) Q E c.
Proof.
  intros L Hget HQ.
  destruct (la_holds _ _ _ L _ _ Hget) as (data & Hd & Hh & Hfit).
  pose proof (la_trips _ _ _ L _ _ Hd) as Hrt.
  apply wp_onStorage. unfold wp. rewrite (read_exact _ _ _ _ Hh Hrt).
  apply (HQ data); assumption.
Qed.

(** The tail of an update exchanges the bytes of the old document for
    those of the new one. *)
Lemma update_tail_counts (T : Tiles) (d : Docs) (id : string)
      (data : Document) (old : DocumentLocation) (n m : Z) c :
  Laid T d c ->
  Map_get (primaryIndex (indexManager c)) id = Some old ->
  tally n m c ->
  wp (oldData <- onStorage (Storage.read old) ;;
      newLocation <- onStorage (updateUnlocked id data old) ;;
      onIndex (Index.updateDocument id newLocation data (Some oldData)) ;;
      cacheSet id data)
     (fun _ c' =>
        exists olddata,
          Map_get d id = Some olddata /\
          tally n (m + (len (encodeDocument data) - len (encodeDocument olddata))) c')
     (fun _ _ => True) c.
Proof.
  intros L Hold HC. apply wp_bind.
  apply (wp_read_indexed T d id old); [exact L|exact Hold|].
  intros olddata Hd Hh Hrt. apply wp_bind, wp_onStorage.
  cbn [storage set_storage].
  apply (count_updateUnlocked id data olddata old n m).
  - apply (holds_same (storage c)); try reflexivity. exact Hh.
  - exact Hrt.
  - exact HC.
  - intros loc s1 H1. apply wp_bind. unfold onIndex. apply wp_modify.
    apply (preserves_wp (tally n (m + (len (encodeDocument data)
                                      - len (encodeDocument olddata)))));
      [apply tally_cacheSet|exact H1
      |intros u c2 H2; exists olddata; split; [exact Hd|exact H2]
      |intros; exact I].
Qed.

(** The tail of a delete counts the document out. *)
Lemma delete_tail_counts (T : Tiles) (d : Docs) (id : string)
      (old : DocumentLocation) (n m : Z) c :
  Laid T d c ->
  Map_get (primaryIndex (indexManager c)) id = Some old ->
  tally n m c ->
  wp (data <- onStorage (Storage.read old) ;;
      onStorage (deleteUnlocked old) ;;
      onIndex (Index.removeDocument id (Some data)) ;;
      cacheDelete id ;;
      ret true)
     (fun _ c' =>
        exists olddata,
          Map_get d id = Some olddata /\
          tally (n - 1) (m - len (encodeDocument olddata)) c')
     (fun _ _ => True) c.
Proof.
  intros L Hold HC. apply wp_bind.
  apply (wp_read_indexed T d id old); [exact L|exact Hold|].
  intros olddata Hd Hh Hrt. apply wp_bind, wp_onStorage.
  cbn [storage set_storage].
  apply (count_deleteUnlocked id olddata old n m).
  - apply (holds_same (storage c)); try reflexivity. exact Hh.
  - exact Hrt.
  - exact HC.
  - intros s1 H1. apply wp_bind. unfold onIndex. apply wp_modify.
    apply wp_bind.
    apply (preserves_wp (tally (n - 1) (m - len (encodeDocument olddata))));
      [apply tally_cacheDelete|exact H1
      |intros u c2 H2; apply wp_ret; exists olddata; split; [exact Hd|exact H2]
      |intros; exact I].
Qed.

Lemma stores_laid (thr : Z) (d : Docs) (c : Collection) :
  stores thr d c -> exists T, Laid T d c.
Proof. intros [[T [L _]] _]. exists T. exact L. Qed.

Lemma stores_get_some (thr : Z) (d : Docs) (c : Collection) (id : string)
      (loc : DocumentLocation) :
  stores thr d c -> Map_get (primaryIndex (indexManager c)) id = Some loc ->
  Map_has d id = true.
Proof.
  intros St Hget. rewrite <- (stores_has thr d c id St).
  unfold Map_has. rewrite Hget. reflexivity.
Qed.

(** [insert]: a new id is counted, an id that is there changes nothing. *)
Lemma insert_with_counts (thr : Z) (d : Docs) (id : string) (data : Document) c :
  stores thr d c -> counted d c ->
  wp (insert_with writeUnlocked id data)
     (fun _ c' => counted (Map_set d id data) c')
     (fun _ c' => Map_has d id = true -> counted d c') c.
Proof.
  intros St HC. unfold insert_with. apply wp_bind, wp_gets.
  unfold Index.has. rewrite (stores_has thr d c id St).
  destruct (Map_has d id) eqn:Hhas; [apply wp_throw; intros _; exact HC|].
  eapply wp_mono; [apply (insert_tail_counts id data _ _ c HC)| |].
  - intros u c' H. apply counted_set_new; [|exact H].
    apply Map_has_false. exact Hhas.
  - intros e c' _ H. discriminate H.
Qed.

Lemma update_with_counts (thr : Z) (d : Docs) (id : string) (data : Document) c :
  stores thr d c -> counted d c ->
  wp (update_with updateUnlocked id data)
     (fun _ c' => counted (Map_set d id data) c')
     (fun _ c' => Map_has d id = false -> counted d c') c.
Proof.
  intros St HC. destruct (stores_laid thr d c St) as [T L].
  unfold update_with. apply wp_bind, wp_gets. unfold Index.getLocation.
  destruct (Map_get (primaryIndex (indexManager c)) id) as [old|] eqn:Hold;
    [|apply wp_throw; intros _; exact HC].
  eapply wp_mono; [apply (update_tail_counts T d id data old _ _ c L Hold HC)| |].
  - intros u c' (olddata & Hd & H). exact (counted_set_old d id data olddata c' Hd H).
  - intros e c' _ H. rewrite (stores_get_some thr d c id old St Hold) in H.
    discriminate H.
Qed.

Lemma upsert_with_counts (thr : Z) (d : Docs) (id : string) (data : Document) c :
  stores thr d c -> counted d c ->
  wp (upsert_with writeUnlocked updateUnlocked id data)
     (fun _ c' => counted (Map_set d id data) c') (fun _ _ => True) c.
Proof.
  intros St HC. destruct (stores_laid thr d c St) as [T L].
  unfold upsert_with. apply wp_bind, wp_gets. unfold Index.getLocation.
  destruct (Map_get (primaryIndex (indexManager c)) id) as [old|] eqn:Hold.
  - eapply wp_mono; [apply (update_tail_counts T d id data old _ _ c L Hold HC)| |].
    + intros u c' (olddata & Hd & H).
      exact (counted_set_old d id data olddata c' Hd H).
    + intros e c' _. exact I.
  - eapply wp_mono; [apply (insert_tail_counts id data _ _ c HC)| |].
    + intros u c' H. apply counted_set_new; [|exact H].
      exact (stores_get_none thr d c id St Hold).
    + intros e c' _. exact I.
Qed.

Lemma delete_with_counts (thr : Z) (d : Docs) (id : string) c :
  stores thr d c -> counted d c ->
  wp (delete_with deleteUnlocked id)
     (fun _ c' => counted (Map_delete d id) c') (fun _ _ => True) c.
Proof.
  intros St HC. destruct (stores_laid thr d c St) as [T L].
  unfold delete_with. apply wp_bind, wp_gets. unfold Index.getLocation.
  destruct (Map_get (primaryIndex (indexManager c)) id) as [old|] eqn:Hold.
  - eapply wp_mono; [apply (delete_tail_counts T d id old _ _ c L Hold HC)| |].
    + intros u c' (olddata & Hd & H). exact (counted_delete d id olddata c' Hd H).
    + intros e c' _. exact I.
  - apply wp_ret. rewrite (Map_delete_absent d id); [exact HC|].
    exact (stores_get_none thr d c id St Hold).
Qed.

Lemma batch_op_counts (thr : Z) (d : Docs) (op : BatchOp) c :
  stores thr d c -> counted d c ->
  wp (Collection.batch_op op)
     (fun _ c' => counted (after_batch_op op d) c')
     (fun _ c' => apply_batch_op op d = None -> counted d c') c.
Proof.
  intros St HC. destruct op as [id data|id data|id data|id];
    cbn [Collection.batch_op after_batch_op apply_batch_op].
  - eapply wp_mono; [apply (insert_with_counts thr d id data c St HC)| |].
    + intros u c' H. exact H.
    + intros e c' H Hnone. apply H. destruct (Map_has d id); [reflexivity|discriminate].
  - eapply wp_mono; [apply (update_with_counts thr d id data c St HC)| |].
    + intros u c' H. exact H.
    + intros e c' H Hnone. apply H. destruct (Map_has d id); [discriminate|reflexivity].
  - eapply wp_mono; [apply (upsert_with_counts thr d id data c St HC)| |].
    + intros u c' H. exact H.
    + intros e c' _ Hnone. discriminate Hnone.
  - apply wp_bind.
    eapply wp_mono; [apply (delete_with_counts thr d id c St HC)| |].
    + intros r c' H. apply wp_ret. exact H.
    + intros e c' _ Hnone. discriminate Hnone.
Qed.

Lemma batch_ops_counted (thr depth : Z) (ops : list BatchOp) :
  forall (d : Docs) (c : Collection),
    kept thr d depth c -> counted d c -> Forall (batch_op_ok thr) ops ->
    wp (for_each Collection.batch_op ops)
       (fun _ c' => counted (apply_batch ops d) c')
       (fun _ c' => counted (apply_batch ops d) c') c.
Proof.
  induction ops as [|op ops IH]; intros d c K HC Hok.
  - exact HC.
  - cbn [for_each apply_batch]. inversion Hok as [|? ? Hop Hrest]; subst.
    apply wp_bind.
    eapply wp_mono;
      [apply (wp_conj _ _ _ _ _ _ (batch_op_kept thr depth d op c K Hop)
                (batch_op_counts thr d op c (proj1 K) HC))| |].
    + intros u c1 [(d' & Hd & K1) H1]. rewrite Hd.
      rewrite <- (apply_batch_op_after op d d' Hd) in H1. apply wp_bind.
      eapply wp_mono; [apply (IH d' c1 K1 H1 Hrest)| |].
      * intros ys c2 H2. exact H2.
      * intros e c2 H2. exact H2.
    + intros e c1 [[Hd K1] H1]. rewrite Hd. exact (H1 Hd).
Qed.

Lemma batch_counted (thr : Z) (d : Docs) (ops : list BatchOp) c :
  kept thr d 0 c -> counted d c -> Forall (batch_op_ok thr) ops ->
  wp (Collection.batch ops)
     (fun _ c' => counted (apply_batch ops d) c')
     (fun _ c' => counted (apply_batch ops d) c') c.
Proof.
  intros [St Hs] HC Hok. unfold Collection.batch. apply wp_bind.
  apply wp_onStorage. unfold batch_enter. apply wp_modify.
  set (c1 := set_storage _ c).
  assert (K1 : kept thr d 1 c1).
  { split.
    - apply (stores_same thr d c); try reflexivity. exact St.
    - destruct Hs as (Hd & HK & _). split; [|split].
      + unfold c1. cbn [storage set_storage batchDepth set_batchDepth]. lia.
      + exact HK.
      + intros H. discriminate H. }
  assert (HC1 : counted d c1) by exact HC.
  assert (Hexit : forall d' c2,
             counted d' c2 ->
             wp (onStorage batch_exit) (fun _ c' => counted d' c')
                (fun _ c' => counted d' c') c2).
  { intros d' c2 H2.
    apply (preserves_wp (tally (Map_size d') (live_bytes d')));
      [apply tally_onStorage, counts_batch_exit|exact H2
      |intros u c3 H3; exact H3|intros e c3 H3; exact H3]. }
  apply wp_try_finally. apply wp_bind.
  eapply wp_mono; [apply (batch_ops_counted thr 1 ops d c1 K1 HC1 Hok)| |].
  - intros ys c2 H2. apply wp_ret. apply Hexit. exact H2.
  - intros e c2 H2. apply Hexit. exact H2.
Qed.
End CountedSteps.

Section CountedMany.
Context `{rt : Runtime}.

(** New, distinct ids add their number and their bytes. *)
Lemma counted_items (items : list (string * Document)) :
  forall d : Docs,
    NoDup (map fst items) ->
    (forall item, In item items -> Map_get d (fst item) = None) ->
    Map_size (fold_left (fun d item => Map_set d (fst item) (snd item)) items d)
    = Map_size d + Z.of_nat (List.length items) /\
    live_bytes (fold_left (fun d item => Map_set d (fst item) (snd item)) items d)
    = live_bytes d + items_bytes items.
Proof.
  induction items as [|[id data] items IH]; intros d Hnd Hnew.
  - cbn [fold_left List.length items_bytes fold_right Z.of_nat]. lia.
  - cbn [map fst] in Hnd. inversion Hnd as [|? ? Hnot Hnd']; subst.
    assert (Hnone : Map_get d id = None) by (apply (Hnew (id, data)); left; reflexivity).
    cbn [fold_left fst snd].
    destruct (IH (Map_set d id data) Hnd') as [H1 H2].
    { intros item Hin. rewrite Map_get_set_other.
      - apply Hnew. right. exact Hin.
      - intros Heq. apply Hnot. rewrite <- Heq. apply in_map. exact Hin. }
    rewrite H1, H2, Map_size_set, (Map_has_none _ _ Hnone),
      (live_bytes_set_new _ _ _ Hnone).
    cbn [items_bytes fold_right List.length snd]. rewrite Nat2Z.inj_succ.
    unfold items_bytes. lia.
Qed.

(** [insertMany] counts its items when it writes them. *)
Lemma insertMany_counts (thr : Z) (d : Docs) (items : list (string * Document)) c :
  stores thr d c -> counted d c -> NoDup (map fst items) ->
  wp (Collection.insertMany items)
     (fun _ c' => counted (apply_op (OpInsertMany items) d) c')
     (fun _ c' => existsb (fun item => Map_has d (fst item)) items = true ->
                  counted d c') c.
Proof.
  intros St HC Hnd. unfold Collection.insertMany. cbn [apply_op].
  destruct items as [|item0 rest] eqn:Hitems.
  { apply wp_ret. exact HC. }
  rewrite <- Hitems in *. clear Hitems item0 rest.
  apply wp_bind, wp_gets.
  rewrite !existsb_find.
  rewrite (find_same (fun item => Index.has (indexManager c) (fst item))
             (fun item => Map_has d (fst item)))
    by (intros item; unfold Index.has; apply (stores_has thr d c _ St)).
  destruct (find _ items) as [item|] eqn:Hfind.
  - apply wp_throw. intros _. exact HC.
  - destruct (counted_items items d Hnd) as [E1 E2].
    { intros it Hin. apply Map_has_false. exact (find_none _ _ Hfind _ Hin). }
    eapply (wp_mono _ _ _ (fun _ _ => True));
      [|intros u c' H; exact H|intros e c' _ H; discriminate H].
    apply wp_bind, wp_onStorage.
    apply (count_writeMany items (Map_size d) (live_bytes d)); [exact HC|].
    intros locs s1 H1. apply wp_bind.
    apply (preserves_wp
             (tally (Map_size d + Z.of_nat (List.length items))
                (live_bytes d + items_bytes items)));
      [|exact H1| |intros; exact I].
    + apply preserves_for_each. intros p.
      apply preserves_bind; [apply tally_onIndex|]. intros u. apply tally_cacheSet.
    + intros ys c2 H2. apply wp_ret. unfold counted. rewrite E1, E2. exact H2.
Qed.

(** The loop of [clear] counts every document out. *)
Lemma clear_loop_counts (m0 : IndexManager) (ids : list string) :
  forall (T : Tiles) (d : Docs) (c : Collection) (mg : IndexManager),
    Laid T d (set_indexManager mg c) ->
    counted d c ->
    indexManager c = m0 ->
    Map_keys d = ids ->
    (forall id, In id ids ->
                Map_get (primaryIndex m0) id = Map_get (primaryIndex mg) id) ->
    wp (for_each (fun id =>
                    m <- gets indexManager ;;
                    match Index.getLocation m id with
                    | None => ret tt
                    | Some location => onStorage (deleteUnlocked location)
                    end) ids)
       (fun _ c' => tally 0 0 c') (fun _ _ => True) c.
Proof.
  induction ids as [|id ids IH]; intros T d c mg L HC Hm Hkeys Hsame.
  - destruct d; [|discriminate]. cbn [for_each]. apply wp_ret. exact HC.
  - destruct d as [|[id' data] d']; [discriminate|].
    unfold Map_keys in Hkeys. cbn [map fst] in Hkeys. injection Hkeys as -> Hkeys.
    cbn [for_each]. apply wp_bind. apply wp_bind, wp_gets. rewrite Hm.
    unfold Index.getLocation.
    rewrite (Hsame id (or_introl eq_refl)).
    pose proof (la_keys _ _ _ L) as Hk. cbn [indexManager set_indexManager] in Hk.
    destruct (primaryIndex mg) as [|[id0 old] rest] eqn:Hmg; [discriminate|].
    unfold Map_keys in Hk. cbn [map fst] in Hk. injection Hk as -> Hk.
    cbn [Map_get]. rewrite String.eqb_refl.
    assert (Hold : Map_get (primaryIndex (indexManager (set_indexManager mg c))) id
                   = Some old).
    { cbn [indexManager set_indexManager]. rewrite Hmg. cbn [Map_get].
      rewrite String.eqb_refl. reflexivity. }
    destruct (la_holds _ _ _ L _ _ Hold) as (data' & Hd' & Hh & Hfit).
    assert (Hdata : data' = data).
    { cbn [Map_get] in Hd'. rewrite String.eqb_refl in Hd'. congruence. }
    subst data'.
    apply wp_onStorage.
    eapply wp_mono;
      [apply (wp_conj _ _ _ _ _ _
                (wp_delete_shift T id data old
                   (map free_offset (freeList (storage c)) ++ [loc_offset old])
                   (fun _ s' =>
                      shift T id
                        (map free_offset (freeList (storage c)) ++ [loc_offset old])
                        (storage c) T s')
                   (fun _ _ => True) (storage c)
                   (ci_inv _ _ (la_cinv _ _ _ L))
                   (tidy_free _ _ (la_free _ _ _ L))
                   (CInv_index _ _ _ _ (la_cinv _ _ _ L) Hold)
                   ltac:(apply in_or_app; right; left; reflexivity)
                   (la_used _ _ _ L _ _ Hold)
                   Hh
                   (la_trips _ _ _ L _ _ Hd')
                   (fun s' Sh => Sh))
                (count_deleteUnlocked id data old _ _
                   (fun _ s' =>
                      counts (Map_size ((id, data) :: d') - 1)
                        (live_bytes ((id, data) :: d') - len (encodeDocument data)) s')
                   (storage c) Hh (la_trips _ _ _ L _ _ Hd') HC
                   (fun s' H => H)))| |intros e s' _; exact I].
    intros u s' [Sh H1].
    set (m' := set_primaryIndex (Map_delete (primaryIndex mg) id) mg).
    pose proof (Laid_after_delete T _ (set_indexManager mg c) id old s' m' L Hold Sh
                  eq_refl) as L'.
    cbn [Map_delete] in L'. rewrite String.eqb_refl in L'.
    apply wp_bind.
    eapply wp_mono;
      [apply (IH T d' (set_storage s' c) m' L'); [|exact Hm|exact Hkeys|]| |].
    + unfold counted, tally. cbn [storage set_storage].
      unfold Map_size in *. cbn [List.length live_bytes fold_right snd] in H1.
      fold (live_bytes d') in H1. rewrite Nat2Z.inj_succ in H1.
      destruct H1 as [A B]. split; [rewrite A|rewrite B]; lia.
    + intros id1 Hin. rewrite (Hsame id1 (or_intror Hin)).
      unfold m'. cbn [primaryIndex set_primaryIndex]. rewrite Hmg. symmetry.
      apply Map_get_delete_other.
      pose proof (la_nodup _ _ _ L) as Hnd. unfold Map_keys in Hnd.
      cbn [map fst] in Hnd. inversion Hnd as [|? ? Hnot _]; subst.
      intros ->. apply Hnot. exact Hin.
    + intros ys c2 H2. apply wp_ret. exact H2.
    + intros e c2 _. exact I.
Qed.

(** [clear] leaves the counters of an empty collection. *)
Lemma clear_counts (thr : Z) (d : Docs) (c : Collection) :
  stores thr d c -> counted d c ->
  wp Documents.clear (fun _ c' => counted [] c') (fun _ _ => True) c.
Proof.
  intros St HC. pose proof St as [[T [L Hag]] Hthr].
  unfold Documents.clear. apply wp_bind, wp_gets. unfold Index.getAllIds.
  rewrite (la_keys _ _ _ L).
  destruct d as [|[id0 data0] d0] eqn:Hd.
  { cbn [Map_keys map]. apply wp_ret. exact HC. }
  rewrite <- Hd in *. assert (Hids : Map_keys d <> []) by (rewrite Hd; discriminate).
  destruct (Map_keys d) as [|id ids] eqn:Hk; [contradiction|]. clear Hids.
  rewrite <- Hk.
  apply wp_bind, wp_onStorage. unfold batch_enter. apply wp_modify.
  set (c1 := set_storage _ c).
  assert (L1 : Laid T d (set_indexManager (indexManager c1) c1)).
  { apply (Laid_same T d c); try reflexivity; [exact L|].
    exact (ci_cache _ _ (la_cinv _ _ _ L)). }
  assert (HC1 : counted d c1) by exact HC.
  apply wp_bind, wp_try_finally. apply wp_bind.
  eapply wp_mono;
    [apply (clear_loop_counts (indexManager c1) (Map_keys d)
              T d c1 (indexManager c1) L1 HC1 eq_refl eq_refl);
     intros; reflexivity| |].
  2:{ intros e c2 _. apply wp_trivial. }
  intros ys c2 H2. apply wp_ret.
  apply (preserves_wp (tally 0 0));
    [apply tally_onStorage, counts_batch_exit|exact H2| |intros; exact I].
  intros u c3 H3. apply wp_bind.
  apply (preserves_wp (tally 0 0));
    [apply tally_onIndex|exact H3| |intros; exact I].
  intros u4 c4 H4.
  apply (preserves_wp (tally 0 0));
    [apply tally_cacheClear|exact H4|intros u5 c5 H5; exact H5|intros; exact I].
Qed.
End CountedMany.

Section CountedCalls.
Context `{rt : Runtime}.

Lemma run_op_counted (thr : Z) (d : Docs) (op : Op) (c : Collection) :
  kept thr d 0 c -> counted d c -> op_ok thr op -> op_tidy op ->
  counted (apply_op op d) (run_op op c).
Proof.
  intros K HC Hok Htidy. pose proof K as [St Hs].
  destruct op as [id data|id data|id data|id|ops|items|id|fieldPath];
    cbn [run_op apply_op op_ok op_tidy] in *.
  - apply (wp_snd (Collection.insert id data)
             (counted (if Map_has d id then d else Map_set d id data))).
    change (Collection.insert id data) with (insert_with writeUnlocked id data).
    eapply wp_mono;
      [apply (wp_conj _ _ _ _ _ _ (insert_with_stores thr d id data c St Hok)
                (insert_with_counts thr d id data c St HC))| |].
    + intros u c' [[Hhas _] H]. rewrite Hhas. exact H.
    + intros e c' [[Hhas _] H]. rewrite Hhas. exact (H Hhas).
  - apply (wp_snd (Collection.update id data)
             (counted (if Map_has d id then Map_set d id data else d))).
    change (Collection.update id data) with (update_with updateUnlocked id data).
    eapply wp_mono;
      [apply (wp_conj _ _ _ _ _ _ (update_with_stores thr d id data c St Hok)
                (update_with_counts thr d id data c St HC))| |].
    + intros u c' [[Hhas _] H]. rewrite Hhas. exact H.
    + intros e c' [[Hhas _] H]. rewrite Hhas. exact (H Hhas).
  - apply (wp_snd (Collection.upsert id data) (counted (Map_set d id data))).
    change (Collection.upsert id data)
      with (upsert_with writeUnlocked updateUnlocked id data).
    eapply wp_mono;
      [apply (wp_conj _ _ _ _ _ _
                (upsert_with_stores thr d id data (fun _ _ => False) c St Hok)
                (upsert_with_counts thr d id data c St HC))| |].
    + intros u c' [_ H]. exact H.
    + intros e c' [[] _].
  - apply (wp_snd (Collection.delete id) (counted (Map_delete d id))).
    change (Collection.delete id) with (delete_with deleteUnlocked id).
    eapply wp_mono;
      [apply (wp_conj _ _ _ _ _ _
                (delete_with_stores thr d id (fun _ _ => False) c St)
                (delete_with_counts thr d id c St HC))| |].
    + intros u c' [_ H]. exact H.
    + intros e c' [[] _].
  - apply (wp_snd (Collection.batch ops) (counted (apply_batch ops d))).
    apply (batch_counted thr d ops c K HC Hok).
  - apply (wp_snd (Collection.insertMany items)
             (counted (if existsb (fun item => Map_has d (fst item)) items then d
                       else fold_left (fun d item => Map_set d (fst item) (snd item))
                              items d))).
    eapply wp_mono;
      [apply (wp_conj _ _ _ _ _ _ (insertMany_stores thr d items c St Hok)
                (insertMany_counts thr d items c St HC Htidy))| |].
    + intros u c' [_ H]. exact H.
    + intros e c' [[Hex _] H]. rewrite Hex. exact (H Hex).
  - exact (tally_reads _ _ (CallOp (OpGet id)) c I HC).
  - exact (tally_reads _ _ (CallOp (OpCreateIndex fieldPath)) c I HC).
Qed.

Lemma run_call_counted (thr : Z) (d : Docs) (call : Call) (c : Collection) :
  kept thr d 0 c -> counted d c -> call_ok thr call -> call_tidy call ->
  counted (apply_call call d) (run_call call c).
Proof.
  intros K HC Hok Htidy. pose proof K as [St Hs].
  destruct call as [op|id|filter|filter|filter|filter| | | | | | ];
    cbn [apply_call call_ok call_tidy] in *;
    try match goal with
        | |- counted d (run_call ?call c) => exact (tally_reads _ _ call c I HC)
        end.
  - exact (run_op_counted thr d op c K HC Hok Htidy).
  - cbn [run_call].
    destruct (compact_stores thr d c St)
      as (r & c' & Hrun & _ & _ & _ & _ & Hh & _).
    rewrite Hrun. cbn [snd]. unfold counted, tally, counts. rewrite Hh.
    split; reflexivity.
  - cbn [run_call]. apply (wp_snd Documents.clear (counted [])).
    eapply wp_mono;
      [apply (wp_conj _ _ _ _ _ _ (clear_stores thr d c St)
                (clear_counts thr d c St HC))| |].
    + intros u c' [_ H]. exact H.
    + intros e c' [[] _].
  - cbn [run_call].
    destruct (reset_kept c) as (c' & Hrun & _ & _ & Hh & _).
    rewrite Hrun. cbn [snd]. unfold counted, tally, counts. rewrite Hh.
    split; reflexivity.
Qed.

Lemma newCollection_counted (cacheSize thr : Z) :
  counted [] (newCollection cacheSize thr).
Proof. split; reflexivity. Qed.

Lemma run_calls_counted (thr : Z) (calls : list Call) :
  forall (d : Docs) (c : Collection),
    kept thr d 0 c -> counted d c ->
    Forall (call_ok thr) calls -> Forall call_tidy calls ->
    counted (fold_left (fun d call => apply_call call d) calls d) (run_calls calls c).
Proof.
  induction calls as [|call calls IH]; intros d c K HC Hok Htidy.
  - exact HC.
  - inversion Hok as [|? ? Hcall Hrest]; subst.
    inversion Htidy as [|? ? Hcall' Hrest']; subst.
    unfold run_calls. cbn [fold_left].
    apply (IH _ _ (run_call_kept thr d call c K Hcall)
             (run_call_counted thr d call c K HC Hcall Hcall') Hrest Hrest').
Qed.
End CountedCalls.


